(* ===== verification/_CoqProject ===== *)
-Q . S2P
Prelude.v
Ordered.v
Upq.v
Utf8.v
Models.v
Cbor.v
Codec.v
Timer.v
Refs.v
Db.v
Snapshot.v
Crypto.v
ModelSodium.v
HashIndex.v
IndexSpec.v
DataSpec.v
Backend.v
CmdBackend.v
Blob.v
BlobStore.v
ModelWorld.v
BackendSpec.v
BlobSpec.v
HashTree.v
TestBackend.v
HashTreeSim.v
HashTreeSpec.v
FileReader.v
FileReaderSpec.v
HashStore.v
StoreIndex.v
HashStoreOk.v
HashStoreSpec.v
Gc.v
GcOk.v
GcSpec.v
HatGc.v
Hat.v
HatGcOk.v
HatSpec.v
KeyIndex.v
KeyIndexOk.v
KeyIndexScan.v
KeyStore.v
KeyStoreOk.v
KeyStoreSpec.v
FileSystem.v
ListDir.v
Process.v
Walker.v
Family.v
Scan.v
Checkout.v
Recover.v
Repo.v
Vfs.v
Fuse.v
Cli.v
FamilyOk.v
CheckoutSpec.v
FamilySim.v
ScanTree.v
BackupSpec.v
ScanOk.v
ScanSpec.v
Frames.v
RepoOk.v
RepoSpec.v
FuseSpec.v
