(* ===== verification/Prelude.v ===== *)
(** * A verification library for hat-backup

    hat-backup (src/src) splits files into chunks, stores each chunk once under its keyed
    digest, packs chunks into encrypted blobs of a fixed size and hands the blobs to a storage
    backend. A local SQLite database knows the hashes, the blobs, the snapshots and the
    collector's counters; a file is a tree of hashes, and a snapshot a tree of directories.

    ** The program's parts and their models

    Every file but the last ones of a group is the model of the source files it names; a name is
    the source's, a [Record] a struct and its fields, a [Definition] a method.

    - Prelude: bytes, machine integers ([u64], [i64] are [Z] with their casts written out,
      [usize] is [nat]), outcomes ([res]: a value, an error, a panic, no end), the state monad
      [M] with lenses ([zoom]), and the partial and total correctness judgements [wp], [twp].
    - Ordered: util/counter.rs, tags.rs, util/ordered_collection.rs. Upq:
      util/unique_priority_queue.rs. Timer: util/periodic_timer.rs. Models: models/mod.rs.
      Cbor and Codec: the interface of serde_cbor and an instance. Utf8: what String does.
    - Refs: the references of blob/chunk.rs, key/index.rs ([Info]) and hash/tree.rs ([HashRef]).
    - Db: db/mod.rs and db/schema.rs. The tables are finite maps; [cur] is what the open
      transaction sees, [committed] the file, and a crash leaves [committed].
    - Crypto: crypto/mod.rs and crypto/keys.rs over the class [Sodium].
    - HashIndex: hash/mod.rs. The queue of hashes on their way to storage and the table behind
      it; both locks are held by every operation that needs both, so operations are atomic.
    - Backend: backend/mod.rs (class [StoreBackend], contract [StoreBackendLaws]), memory.rs,
      devnull.rs, file.rs. CmdBackend: backend/cmd.rs.
    - Blob: blob/blob.rs. BlobStore: blob/mod.rs and blob/index.rs.
    - HashTree: hash/tree.rs over the class [HashTreeBackend]. TestBackend: hash/tests.rs's
      backend. HashStore: key/hash_store_backend.rs, the real backend of the trees.
      FileReader: vfs/fs.rs's reader over the leaves of a tree, or any iterator of chunks.
    - KeyIndex: key/index.rs and key/schema.rs, a family's table of names and what is known of
      each. KeyStore: key/mod.rs and util/file_iterator.rs, over the class [KeyBackend].
    - FileSystem: what is called of std::fs, std::path and filetime (class [FileSystem]). Walker:
      hat/walker.rs. Family: hat/family.rs. Checkout: [Hat::checkout_dir_ref] of hat/mod.rs.
    - ListDir: util/listdir.rs over the class [PathHandler]; the threads of its pool take turns
      under a schedule. Process: util/process.rs and util/sync_pool.rs. Scan:
      hat/insert_path_handler.rs and [Family::snapshot_dir], over the class [ScanOs].
    - Gc: gc/mod.rs, rc.rs, noop.rs over the class [GcBackend]. HatGc and Hat: hat/mod.rs's
      [GcBackend] over the hash index, and [Hat::gc].
    - Snapshot: snapshot/mod.rs. Recover: the visitors of hat/family.rs that rebuild the hash
      index. Repo: the rest of hat/mod.rs, a [Hat] opened on a state directory: commit,
      deregister, meta_commit, resume, recover, checkout, with what each leaves in the tables
      of the file and of the open transaction. Cli: main.rs, a command as a process that opens
      the repository that the last process left behind, after an end or a crash.
    - Vfs: [Filesystem::ls] of vfs/fs.rs. Fuse: vfs/fuse.rs over the class [ReplyDirectory].

    A write goes [HashTree] → [HashStore] → [HashIndex] (reserve) → [BlobStore] (append; a full
    blob goes to the [StoreBackend]) and comes back as a callback that commits the hash in
    [HashIndex]. A read goes the same way to [BlobStore.retrieve_chunk] and checks the digest.
    A scan of a directory goes through [KeyStore.handle]: a file that looks unchanged in
    [KeyIndex] is marked, any other is read into a tree and its row replaced; a commit promotes
    the rows of the scan and deletes what it did not see. A family's commit lists [KeyIndex] and
    writes each directory into a tree, and a checkout reads the trees and writes files.
    The collector reads tags, counters and children of [HashIndex] and [Hat.gc] then deletes
    blobs in [BlobStore] and its backend. A [Repo] command runs these in the order of
    hat/mod.rs, [Cli] the commands in that of main.rs; [Vfs] and [Fuse] list and read what the
    registered snapshots stand for, through the same trees.

    Callbacks are values: an operation of a backend returns those it called, and what a thread
    would run waits in [spawned]. Code outside of the repository is a class with the laws that
    the proofs use (libsodium: [Sodium]; serde_cbor: [Cbor]; lru_cache: [LruCache]; hex: [Hex];
    child processes: [CmdOs]; [std::io::Read]: [Reader]; the file system: [FileSystem] and
    [ScanOs]; fuse's buffer: [ReplyDirectory]). ModelSodium, ModelWorld, FileSystem and Codec
    have instances of them, on which the theorems' examples run. Time is a sequence of clock
    readings, randomness the state of a generator.

    ** The theorems

    - IndexSpec: the database's unique keys; the index as a state machine of calls and crashes:
      queue and table agree, hashes become ready in order, a restart finds a closed index.
    - DataSpec: serialised forms, and the queue's invariant.
    - BlobSpec: sealing and reading blobs, their fixed size and its overflow, authentication.
    - BackendSpec: the file backend's round trip and stale misses; the command backend's
      callbacks, their conservation and the end of its flush.
    - HashTreeSim and HashTreeSpec: trees over any backend that keeps the contract: what is
      written is read, the writer ends, its levels stay short; a simulation between backends.
    - StoreIndex, HashStoreOk and HashStoreSpec: the invariant of index, blob store and backend
      together, that [HashStore] keeps the trees' contract, and the round trip of a backup
      through all of it.
    - FileReaderSpec: reads at offsets are slices of what was written to the tree, as long as
      they do not go back; after the end there is nothing any more.
    - KeyIndexOk and KeyIndexScan: the tables' invariant over every operation, what a scan has
      entered, what the commit and the clean-up leave. KeyStoreOk and KeyStoreSpec: an insertion
      over any backend that keeps its contract, and the scan as a whole over the real one: what
      was seen is what is listed, and what was read comes back.
    - FamilyOk, CheckoutSpec, ScanTree, FamilySim and BackupSpec: directories as values; a
      commit gives a reference to what the index lists, a checkout restores what a reference
      stands for, and from a scan to its checkout nothing is lost and nothing is added.
    - ScanOk and ScanSpec: [snapshot_dir] over an operating system that stands still ([OsView]):
      every node of the scan is a path, and what the checkout of its commit restores is what the
      operating system shows, on any schedule of the threads and from any earlier scan.
    - GcOk and GcSpec: a specification of the collector's backend; in every reachable state the
      unused hashes are those no registered snapshot leads to, and a registered tree survives.
    - HatGcOk and HatSpec: [Hat.gc] on an idle repository keeps exactly what is needed, in the
      index and in the backend; and fails for ever on a blob whose file was never written.
    - Frames, RepoOk and RepoSpec: the repository as a whole. Frames says what each operation
      leaves alone, RepoOk what a commit, the flush of all blob stores and the opening after a
      crash do to the store's invariant and to the table of snapshots. Once a commit has been
      flushed, a checkout in this process or a later one restores what the index listed (here the
      stores of the family's own processes hold nothing back: a scan that they took part in has
      been flushed). And runs of repositories in memory: a recovery from the blobs alone, a
      commit that is marked as done before it is stored, and a recovery that leaves the store
      with the id of a recovered blob.
    - ListDir (its second half): under any schedule every entry below the root is handled once,
      after its directory; and the pool cannot get stuck.
    - FuseSpec: the inodes stay a tree over any requests; reading a directory from an offset;
      handles that are used twice and entries that are never listed.

    ** Fuel

    A loop that is not structural has a fuel argument whose callers pass what is enough, or
    whose theorems say how much is: [pop_loop] the queue's length, [collapse_level] the number
    of levels, [mark_tree] the number of hashes (each call marks one more), [collect_leafs] and
    the command backend's loops any bound above the one their theorems name; [cleanup_unused_go]
    the number of nodes (the recursion goes down the tree), [read_chunks] and [fill] what a
    message that returns has taken (more fuel changes nothing), and a reader of contents in
    memory needs their length. A family's commit needs more than the number of nodes (its depth
    is less), a checkout ends with one result for any fuel above some bound ([ends]). Without
    fuel left the outcome is [Diverge], which the theorems exclude.

    ** Not modelled

    lib.rs (module declarations and logging), errors.rs (error wrappers; there is one error type
    here), util/fnbox.rs (a trait for closures, which are values here), the parsing of the
    command line by clap and what the commands print, the mount loop of the fuse library, the
    waiting of threads for one another (a [Process] serves its messages in the order in which
    they are sent; the index's locks make its operations atomic), the benchmarks, and the tests
    but for the backends and the stub of util/listdir.rs that they define. *)

From stdpp Require Export base gmap sets list strings fin_maps sorting.
From Stdlib Require Export ZArith Lia.
From Stdlib Require Strings.Byte.

(** ** Bytes and strings *)

(** A [u8] is an element of the 256-element type [Byte.byte]; [Vec<u8>], [&[u8]] and [String]
    (whose value is its UTF-8 encoding) are lists of them. *)
Abbreviation byte := Byte.byte.
Abbreviation bytes := (list Byte.byte).

#[global] Instance byte_eq_dec : EqDecision byte := Byte.byte_eq_dec.

#[global] Instance byte_countable : Countable byte :=
  inj_countable Byte.to_N Byte.of_N Byte.of_to_N.

#[global] Instance byte_inhabited : Inhabited byte := populate Byte.x00.

Definition byte_to_Z (b : byte) : Z := Z.of_N (Byte.to_N b).
Definition byte_to_nat (b : byte) : nat := N.to_nat (Byte.to_N b).

(** [n as u8]. *)
Definition byte_of_nat (n : nat) : byte :=
  default Byte.x00 (Byte.of_N (N.of_nat (n mod 256))).
Definition byte_of_Z (z : Z) : byte :=
  default Byte.x00 (Byte.of_N (Z.to_N (z mod 256))).

(** The bytes of a string literal. *)
Definition lit (s : string) : bytes := String.list_byte_of_string s.

Lemma byte_of_N_mod (n : N) : (n < 256)%N → ∃ c, Byte.of_N n = Some c ∧ Byte.to_N c = n.
Proof.
  intros Hn. destruct (Byte.of_N n) as [c|] eqn:E.
  - exists c. split; [done|]. by apply Byte.to_of_N.
  - apply Byte.of_N_None_iff in E. lia.
Qed.

Lemma byte_to_nat_of_nat n : byte_to_nat (byte_of_nat n) = n mod 256.
Proof.
  unfold byte_to_nat, byte_of_nat.
  assert (n mod 256 < 256) as Hlt by (apply Nat.mod_upper_bound; lia).
  destruct (byte_of_N_mod (N.of_nat (n mod 256))) as (c & -> & Hc); [lia|].
  change (default Byte.x00 (Some c)) with c. by rewrite Hc, Nat2N.id.
Qed.

Lemma byte_to_Z_of_Z z : byte_to_Z (byte_of_Z z) = (z mod 256)%Z.
Proof.
  unfold byte_to_Z, byte_of_Z.
  assert (0 ≤ z mod 256 < 256)%Z by (apply Z.mod_pos_bound; lia).
  destruct (byte_of_N_mod (Z.to_N (z mod 256))) as (c & -> & Hc); [lia|].
  change (default Byte.x00 (Some c)) with c. rewrite Hc. lia.
Qed.

Lemma byte_to_Z_range c : (0 ≤ byte_to_Z c < 256)%Z.
Proof.
  unfold byte_to_Z. pose proof (Byte.to_N_bounded c). lia.
Qed.

Lemma byte_of_Z_to_Z c : byte_of_Z (byte_to_Z c) = c.
Proof.
  unfold byte_of_Z. rewrite Z.mod_small by apply byte_to_Z_range.
  unfold byte_to_Z. rewrite N2Z.id. by rewrite Byte.of_to_N.
Qed.

Lemma byte_to_nat_lt c : byte_to_nat c < 256.
Proof. unfold byte_to_nat. pose proof (Byte.to_N_bounded c). lia. Qed.

(** ** Machine integers

    A [u64], [i64], ... is a [Z]; the casts between them are written out. A [usize] that
    measures or indexes memory is a [nat]: the target is 64-bit, so [usize as u64] and
    [u64 as usize] keep the value. *)

Definition wrap_u (w z : Z) : Z := (z mod 2 ^ w)%Z.
Definition wrap_s (w z : Z) : Z := ((z + 2 ^ (w - 1)) mod 2 ^ w - 2 ^ (w - 1))%Z.

Abbreviation as_u64 := (wrap_u 64).
Abbreviation as_u32 := (wrap_u 32).
Abbreviation as_u16 := (wrap_u 16).
Abbreviation as_i64 := (wrap_s 64).
Abbreviation as_i32 := (wrap_s 32).

Abbreviation is_u64 z := (0 ≤ z < 2 ^ 64)%Z.
Abbreviation is_u32 z := (0 ≤ z < 2 ^ 32)%Z.
Abbreviation is_i64 z := (- 2 ^ 63 ≤ z < 2 ^ 63)%Z.
Abbreviation is_i32 z := (- 2 ^ 31 ≤ z < 2 ^ 31)%Z.

Definition usize_as_u64 (n : nat) : Z := Z.of_nat n.
Definition u64_as_usize (z : Z) : nat := Z.to_nat z.

Lemma wrap_u_id w z : (0 ≤ z < 2 ^ w)%Z → wrap_u w z = z.
Proof. apply Z.mod_small. Qed.

Lemma wrap_s_id w z :
  (0 < w)%Z → (- 2 ^ (w - 1) ≤ z < 2 ^ (w - 1))%Z → wrap_s w z = z.
Proof.
  intros Hw Hz. unfold wrap_s.
  assert (2 ^ w = 2 * 2 ^ (w - 1))%Z as ->.
  { rewrite <- Z.pow_succ_r by lia. f_equal. lia. }
  rewrite Z.mod_small; lia.
Qed.

Lemma as_i64_id z : is_i64 z → as_i64 z = z.
Proof. intros. apply wrap_s_id; [lia|done]. Qed.

Lemma as_u64_id z : is_u64 z → as_u64 z = z.
Proof. apply wrap_u_id. Qed.

Lemma as_i64_range z : is_i64 (as_i64 z).
Proof.
  unfold wrap_s. change (64 - 1)%Z with 63%Z.
  pose proof (Z.mod_pos_bound (z + 2 ^ 63) (2 ^ 64)). lia.
Qed.

Lemma as_u64_range z : is_u64 (as_u64 z).
Proof. apply Z.mod_pos_bound. lia. Qed.

(** A cast to the other signedness and back is the identity on the type's range. *)
Lemma as_u64_as_i64 z : is_u64 z → as_u64 (as_i64 z) = z.
Proof.
  intros Hz. unfold wrap_u, wrap_s. change (64 - 1)%Z with 63%Z.
  rewrite Zminus_mod_idemp_l. rewrite Z.mod_small; lia.
Qed.

Lemma as_i64_as_u64 z : is_i64 z → as_i64 (as_u64 z) = z.
Proof.
  intros Hz. unfold wrap_u, wrap_s. change (64 - 1)%Z with 63%Z.
  rewrite Zplus_mod_idemp_l. rewrite Z.mod_small; lia.
Qed.

(** *** Little-endian encodings (byteorder's [write_u64::<LittleEndian>], [read_i64], ...) *)

Fixpoint le_encode (n : nat) (z : Z) : bytes :=
  match n with
  | O => []
  | S n => byte_of_Z z :: le_encode n (z / 256)%Z
  end.

Fixpoint le_decode (l : bytes) : Z :=
  match l with
  | [] => 0
  | b :: l => byte_to_Z b + 256 * le_decode l
  end%Z.

Lemma length_le_encode n z : length (le_encode n z) = n.
Proof. revert z. induction n; simpl; auto. Qed.

Lemma pow_256_S n : (2 ^ (8 * Z.of_nat (S n)) = 256 * 2 ^ (8 * Z.of_nat n))%Z.
Proof.
  replace (8 * Z.of_nat (S n))%Z with (8 + 8 * Z.of_nat n)%Z by lia.
  rewrite Z.pow_add_r by lia. done.
Qed.

Lemma le_decode_encode n z : le_decode (le_encode n z) = wrap_u (8 * Z.of_nat n) z.
Proof.
  revert z. induction n as [|n IH]; intros z; unfold wrap_u in *.
  - change (8 * Z.of_nat 0)%Z with 0%Z. by rewrite Z.pow_0_r, Z.mod_1_r.
  - cbn [le_encode le_decode]. rewrite IH, byte_to_Z_of_Z, pow_256_S.
    rewrite Z.rem_mul_r; lia.
Qed.

Lemma le_decode_encode_id n z :
  (0 ≤ z < 2 ^ (8 * Z.of_nat n))%Z → le_decode (le_encode n z) = z.
Proof. intros. rewrite le_decode_encode. by apply wrap_u_id. Qed.

Lemma le_encode_inj n z1 z2 :
  (0 ≤ z1 < 2 ^ (8 * Z.of_nat n))%Z → (0 ≤ z2 < 2 ^ (8 * Z.of_nat n))%Z →
  le_encode n z1 = le_encode n z2 → z1 = z2.
Proof.
  intros H1 H2 E. rewrite <- (le_decode_encode_id n z1), <- (le_decode_encode_id n z2) by done.
  by rewrite E.
Qed.

Lemma le_encode_mod n z : le_encode n (wrap_u (8 * Z.of_nat n) z) = le_encode n z.
Proof.
  revert z. induction n as [|n IH]; intros z; [done|]. unfold wrap_u in *.
  cbn [le_encode]. rewrite pow_256_S. f_equal.
  - unfold byte_of_Z. do 3 f_equal. rewrite Z.rem_mul_r by lia.
    generalize ((z / 256) mod 2 ^ (8 * Z.of_nat n))%Z. intros q.
    replace (z mod 256 + 256 * q)%Z with (z mod 256 + q * 256)%Z by lia.
    rewrite Z.mod_add by lia. by rewrite Z.mod_mod by lia.
  - rewrite <- (IH (z / 256)%Z). f_equal. rewrite Z.rem_mul_r by lia.
    generalize ((z / 256) mod 2 ^ (8 * Z.of_nat n))%Z. intros q.
    pose proof (Z.mod_pos_bound z 256). symmetry. apply (Z.div_unique _ _ _ (z mod 256)); lia.
Qed.

(** ** Outcomes and the state monad

    A Rust function returns a value ([Ok]), an error of its [Result] type ([Err]), panics
    (a failed [assert!], [expect], [unwrap], an out-of-range index, [unreachable!]) or runs
    for ever. The error types of the crate ([HatError], [MsgError], [BlobError],
    [CryptoError], [DieselError], [RetryError], src/errors.rs) wrap one another; one type
    with a constructor per source of errors stands for all of them, so that the [From]
    conversions of [?] are the identity. *)

Inductive error : Type :=
  | CryptoError (msg : string)
  | SerdeError
  | IoError (msg : string)
  | DieselError
  | RetryError
  | Message (msg : string).

#[global] Instance error_eq_dec : EqDecision error.
Proof. solve_decision. Defined.

Inductive res (A : Type) : Type :=
  | Ok (a : A)
  | Err (e : error)
  | Panic
  | Diverge.
Arguments Ok {A} a.
Arguments Err {A} e.
Arguments Panic {A}.
Arguments Diverge {A}.

#[global] Instance res_eq_dec `{EqDecision A} : EqDecision (res A).
Proof. solve_decision. Defined.

#[global] Instance res_ret : MRet res := λ A a, Ok a.
#[global] Instance res_bind : MBind res := λ A B f m,
  match m with Ok a => f a | Err e => Err e | Panic => Panic | Diverge => Diverge end.

(** [Option::expect]/[unwrap], [Option::ok_or], [assert!], slicing. *)
Definition expect {A} (o : option A) : res A :=
  match o with Some a => Ok a | None => Panic end.
Definition ok_or {A} (o : option A) (e : error) : res A :=
  match o with Some a => Ok a | None => Err e end.
Definition assert_ (P : Prop) `{Decision P} : res unit :=
  if decide P then Ok () else Panic.
(** [Result::unwrap]/[expect]. *)
Definition unwrap {A} (r : res A) : res A :=
  match r with Err _ => Panic | r => r end.
(** [Result::ok]: a panic is no value. *)
Definition res_ok {A} (r : res A) : res (option A) :=
  match r with Ok a => Ok (Some a) | Err _ => Ok None | Panic => Panic | Diverge => Diverge end.
(** [&l[from..to]] *)
Definition slice {A} (from to : nat) (l : list A) : res (list A) :=
  if decide (from ≤ to ∧ to ≤ length l) then Ok (take (to - from) (drop from l)) else Panic.

(** A stateful operation: the state survives an error (it was mutated in place). *)
Definition M (S A : Type) : Type := S → res A * S.

#[global] Instance M_ret S : MRet (M S) := λ A a s, (Ok a, s).
#[global] Instance M_bind S : MBind (M S) := λ A B f m s,
  match m s with
  | (Ok a, s') => f a s'
  | (Err e, s') => (Err e, s')
  | (Panic, s') => (Panic, s')
  | (Diverge, s') => (Diverge, s')
  end.

Definition lift {S A} (r : res A) : M S A := λ s, (r, s).
Definition panic {S A} : M S A := λ s, (Panic, s).
Definition diverge {S A} : M S A := λ s, (Diverge, s).
Definition throw {S A} (e : error) : M S A := λ s, (Err e, s).
Definition get {S} : M S S := λ s, (Ok s, s).
Definition gets {S A} (f : S → A) : M S A := λ s, (Ok (f s), s).
Definition modify {S} (f : S → S) : M S unit := λ s, (Ok (), f s).
(** Run [m] and hand its [Result] to the caller as a value (no [?]); a panic is no value. *)
Definition attempt {S A} (m : M S A) : M S (A + error) := λ s,
  match m s with
  | (Ok a, s') => (Ok (inl a), s')
  | (Err e, s') => (Ok (inr e), s')
  | (Panic, s') => (Panic, s')
  | (Diverge, s') => (Diverge, s')
  end.
(** [m.unwrap()] / [m.expect(..)] on a [Result]. *)
Definition unwrapM {S A} (m : M S A) : M S A := λ s,
  match m s with
  | (Err _, s') => (Panic, s')
  | r => r
  end.

(** [for x in l { f(x)?; }] *)
Fixpoint for_each {S A} (f : A → M S unit) (l : list A) : M S unit :=
  match l with
  | [] => mret ()
  | x :: l => f x ;; for_each f l
  end.

(** [l.into_iter().map(f).collect()] for a stateful [f]. *)
Fixpoint mapM' {S A B} (f : A → M S B) (l : list A) : M S (list B) :=
  match l with
  | [] => mret []
  | x :: l => y ← f x; ys ← mapM' f l; mret (y :: ys)
  end.

(** A component's state inside a larger one. *)
Record lens (W S : Type) : Type := Lens { lget : W → S; lset : S → W → W }.
Arguments Lens {W S} _ _.
Arguments lget {W S} _ _.
Arguments lset {W S} _ _ _.

Class LensLaws {W S} (l : lens W S) : Prop := {
  lget_lset : ∀ s w, lget l (lset l s w) = s;
  lset_lget : ∀ w, lset l (lget l w) w = w;
  lset_lset : ∀ s s' w, lset l s (lset l s' w) = lset l s w;
}.

(** Run an operation of the component on the larger state. *)
Definition zoom {W S A} (l : lens W S) (m : M S A) : M W A := λ w,
  let '(r, s) := m (lget l w) in (r, lset l s w).

Definition fst_lens {A B} : lens (A * B) A := Lens fst (λ a w, (a, w.2)).
Definition snd_lens {A B} : lens (A * B) B := Lens snd (λ b w, (w.1, b)).

#[global] Instance fst_lens_laws {A B} : LensLaws (@fst_lens A B).
Proof. split; try done. by intros []. Qed.

#[global] Instance snd_lens_laws {A B} : LensLaws (@snd_lens A B).
Proof. split; try done. by intros []. Qed.

Section Monad.
Context {S : Type}.
Implicit Types (s : S).

Lemma bind_Ok {A B} (m : M S A) (f : A → M S B) s a s' :
  m s = (Ok a, s') → (m ≫= f) s = f a s'.
Proof. unfold mbind, M_bind. by intros ->. Qed.

Lemma bind_Panic {A B} (m : M S A) (f : A → M S B) s s' :
  m s = (Panic, s') → (m ≫= f) s = (Panic, s').
Proof. unfold mbind, M_bind. by intros ->. Qed.

Lemma bind_Err {A B} (m : M S A) (f : A → M S B) s e s' :
  m s = (Err e, s') → (m ≫= f) s = (Err e, s').
Proof. unfold mbind, M_bind. by intros ->. Qed.

Lemma bind_lift {A B} (r : res A) (f : A → M S B) s a :
  r = Ok a → (lift r ≫= f) s = f a s.
Proof. by intros ->. Qed.

Lemma bind_lift_assert {B} (P : Prop) `{Decision P} (f : () → M S B) s :
  P → (lift (assert_ P) ≫= f) s = f () s.
Proof. intros. apply bind_lift. unfold assert_. by rewrite decide_True. Qed.

Lemma bind_ret {A B} (a : A) (f : A → M S B) s : (mret a ≫= f) s = f a s.
Proof. done. Qed.

Lemma bind_get {B} (f : S → M S B) s : (get ≫= f) s = f s s.
Proof. done. Qed.

Lemma bind_gets {A B} (g : S → A) (f : A → M S B) s : (gets g ≫= f) s = f (g s) s.
Proof. done. Qed.

Lemma bind_modify {B} (g : S → S) (f : () → M S B) s : (modify g ≫= f) s = f () (g s).
Proof. done. Qed.

Lemma bind_zoom_modify {S' B} (l : lens S S') g (f : () → M S B) s :
  (zoom l (modify g) ≫= f) s = f () (lset l (g (lget l s)) s).
Proof. done. Qed.

Lemma bind_zoom {S' A B} (l : lens S S') (m : M S' A) (f : A → M S B) s a (s' : S') :
  m (lget l s) = (Ok a, s') → (zoom l m ≫= f) s = f a (lset l s' s).
Proof. unfold mbind, M_bind, zoom. by intros ->. Qed.

Lemma bind_assoc {A B C} (m : M S A) (f : A → M S B) (g : B → M S C) s :
  ((m ≫= f) ≫= g) s = (m ≫= λ a, f a ≫= g) s.
Proof. unfold mbind, M_bind. by destruct (m s) as [[]?]. Qed.

Lemma bind_Ok_inv {A B} (m : M S A) (f : A → M S B) s b s'' :
  (m ≫= f) s = (Ok b, s'') →
  ∃ a s', m s = (Ok a, s') ∧ f a s' = (Ok b, s'').
Proof.
  unfold mbind, M_bind. destruct (m s) as [[]?]; intros; simplify_eq; eauto.
Qed.

Lemma for_each_app {A} (f : A → M S unit) l1 l2 s s' :
  for_each f l1 s = (Ok (), s') → for_each f (l1 ++ l2) s = for_each f l2 s'.
Proof.
  revert s. induction l1 as [|x l1 IH]; simpl; intros s.
  - by intros [= ->].
  - intros ([]&s1&Hx&Hl)%bind_Ok_inv. rewrite (bind_Ok _ _ _ _ _ Hx). auto.
Qed.

(** An invariant every iteration keeps is kept by the loop. *)
Lemma for_each_inv {A} (P : S → Prop) (f : A → M S unit) l s r s' :
  (∀ x s r s', x ∈ l → P s → f x s = (r, s') → P s') →
  P s → for_each f l s = (r, s') → P s'.
Proof.
  revert s. induction l as [|x l IH]; simpl; intros s Hf HP.
  - by intros [= _ <-].
  - unfold mbind, M_bind. destruct (f x s) as [q s1] eqn:E.
    assert (P s1) by (eapply Hf; eauto; set_solver).
    destruct q; [|by intros; simplify_eq..].
    intros. eapply IH; eauto. intros; eapply Hf; eauto; set_solver.
Qed.

End Monad.

(** A loop over a component is a loop of the whole. *)
Lemma zoom_for_each {W S A} (l : lens W S) `{!LensLaws l} (f : A → M S unit) xs w :
  for_each (λ x, zoom l (f x)) xs w = zoom l (for_each f xs) w.
Proof.
  revert w. induction xs as [|x xs IH]; intros w; cbn [for_each].
  - unfold zoom, mret, M_ret. by rewrite lset_lget.
  - unfold mbind at 1, M_bind. unfold zoom at 1. unfold zoom at 2. unfold mbind, M_bind.
    destruct (f x (lget l w)) as [[[]|e| |] s]; [|done..]. rewrite IH. unfold zoom.
    rewrite lget_lset. destruct (for_each f xs s) as [q s']. by rewrite lset_lset.
Qed.

Lemma res_bind_Ok_inv {A B} (m : res A) (f : A → res B) b :
  m ≫= f = Ok b → ∃ a, m = Ok a ∧ f a = Ok b.
Proof. destruct m; simpl; intros; simplify_eq; eauto. Qed.

Lemma zoom_Ok {W S A} (l : lens W S) (m : M S A) w a s' :
  m (lget l w) = (Ok a, s') → zoom l m w = (Ok a, lset l s' w).
Proof. unfold zoom. by intros ->. Qed.

Lemma zoom_Ok_inv {W S A} (l : lens W S) (m : M S A) w a w' :
  zoom l m w = (Ok a, w') → ∃ s', m (lget l w) = (Ok a, s') ∧ w' = lset l s' w.
Proof. unfold zoom. destruct (m (lget l w)). intros [= -> <-]. eauto. Qed.

Lemma assert_Ok (P : Prop) `{Decision P} : P → assert_ P = Ok ().
Proof. intros. unfold assert_. by rewrite decide_True. Qed.

Lemma assert_Panic (P : Prop) `{Decision P} : ¬ P → assert_ P = Panic.
Proof. intros. unfold assert_. by rewrite decide_False. Qed.

Lemma assert_Ok_inv (P : Prop) `{Decision P} u : assert_ P = Ok u → P.
Proof. unfold assert_. by case_decide. Qed.

Lemma slice_Ok {A} from to (l : list A) :
  from ≤ to → to ≤ length l → slice from to l = Ok (take (to - from) (drop from l)).
Proof. intros. unfold slice. by rewrite decide_True. Qed.

Lemma slice_app_mid {A} (l1 l2 l3 : list A) n m :
  n = length l1 → m = n + length l2 → slice n m (l1 ++ l2 ++ l3) = Ok l2.
Proof.
  intros -> ->. rewrite slice_Ok by (rewrite ?length_app; lia).
  rewrite drop_app_length. replace (length l1 + length l2 - length l1) with (length l2) by lia.
  by rewrite take_app_length.
Qed.

Lemma slice_prefix {A} (l l' : list A) from to x :
  slice from to l = Ok x → slice from to (l ++ l') = Ok x.
Proof.
  unfold slice. case_decide as H; [|done]. destruct H as [H1 H2]. intros [= <-].
  rewrite decide_True by (rewrite length_app; lia). f_equal.
  rewrite drop_app_le by lia. rewrite take_app_le; [done|]. rewrite length_drop. lia.
Qed.

(** The outcome of a concrete run, without its state. *)
Definition ok_run {A S} (r : res A * S) : bool :=
  match r.1 with Ok _ => true | _ => false end.

Lemma ok_run_split {A S} (r : res A * S) : ok_run r = true → ∃ a s, r = (Ok a, s).
Proof. destruct r as [[]?]; naive_solver. Qed.

(** Runs that go well and end in a state that passes a check: what is to be evaluated and what
    follows from it are kept apart. *)
Definition check_run {A S} (r : res A * S) (f : A → S → bool) : bool :=
  match r with (Ok a, s) => f a s | _ => false end.

Lemma check_run_true {A S} (r : res A * S) (f : A → S → bool) :
  check_run r f = true → ∃ a s, r = (Ok a, s) ∧ f a s = true.
Proof. destruct r as [[]?]; naive_solver. Qed.

Lemma check_Ok {A} (r : res A) (f : A → bool) :
  match r with Ok a => f a | _ => false end = true → ∃ a, r = Ok a ∧ f a = true.
Proof. destruct r; naive_solver. Qed.

Lemma ok_run_snd {A S} (r : res A * S) : ok_run r = true → ∃ a, r = (Ok a, r.2).
Proof. destruct r as [[] s]; try done. eauto. Qed.

(** ** Partial and total outcomes

    [wp m s Q]: run from [s], [m] may panic, but it neither fails with an error nor runs for
    ever, and when it returns, [Q] holds of the value and the final state. [twp] excludes the
    panic as well. *)
Definition wp {S A} (m : M S A) (s : S) (Q : A → S → Prop) : Prop :=
  match m s with
  | (Ok a, s') => Q a s'
  | (Panic, _) => True
  | _ => False
  end.

Definition twp {S A} (m : M S A) (s : S) (Q : A → S → Prop) : Prop :=
  match m s with (Ok a, s') => Q a s' | _ => False end.

(** [m] returns, with one and the same result for all fuels from some one on. *)
Definition ends {S A} (m : nat → M S A) (s : S) (Q : A → S → Prop) : Prop :=
  ∃ N a s', (∀ fuel, N ≤ fuel → m fuel s = (Ok a, s')) ∧ Q a s'.

Section wp.
Context {S : Type}.
Implicit Types (s : S).

Lemma wp_bind {A B} (m : M S A) (f : A → M S B) s Q :
  wp m s (λ a s', wp (f a) s' Q) → wp (m ≫= f) s Q.
Proof. unfold wp, mbind, M_bind. by destruct (m s) as [[]?]. Qed.

Lemma wp_mono {A} (m : M S A) s (Q Q' : A → S → Prop) :
  wp m s Q → (∀ a s', Q a s' → Q' a s') → wp m s Q'.
Proof. unfold wp. destruct (m s) as [[]?]; auto. Qed.

Lemma wp_Ok {A} (m : M S A) s Q a s' : m s = (Ok a, s') → Q a s' → wp m s Q.
Proof. unfold wp. by intros ->. Qed.

Lemma wp_run {A} (m m' : M S A) s s' Q : m s = m' s' → wp m' s' Q → wp m s Q.
Proof. unfold wp. by intros ->. Qed.

Lemma wp_Ok_inv {A} (m : M S A) s Q a s' : wp m s Q → m s = (Ok a, s') → Q a s'.
Proof. unfold wp. intros H E. by rewrite E in H. Qed.

(** One step at the head of a computation. *)
Lemma wp_step_run {A B} (m : M S A) (f : A → M S B) s a s' Q :
  m s = (Ok a, s') → wp (f a) s' Q → wp (m ≫= f) s Q.
Proof. intros E. unfold wp. by rewrite (bind_Ok _ _ _ _ _ E). Qed.

Lemma wp_gets {A B} (g : S → A) (f : A → M S B) s Q :
  wp (f (g s)) s Q → wp (gets g ≫= f) s Q.
Proof. done. Qed.

Lemma wp_modify {B} (g : S → S) (f : () → M S B) s Q :
  wp (f ()) (g s) Q → wp (modify g ≫= f) s Q.
Proof. done. Qed.

Lemma wp_assert {B} (P : Prop) `{Decision P} (f : () → M S B) s Q :
  (P → wp (f ()) s Q) → wp (lift (assert_ P) ≫= f) s Q.
Proof. intros Hf. unfold assert_. case_decide; [by apply Hf|done]. Qed.

Lemma wp_lift {A B} (r : res A) (f : A → M S B) s Q :
  match r with Ok a => wp (f a) s Q | Panic => True | _ => False end →
  wp (lift r ≫= f) s Q.
Proof. by destruct r. Qed.

Lemma wp_zoom_modify {S' B} (l : lens S S') (g : S' → S') (f : () → M S B) s Q :
  wp (f ()) (lset l (g (lget l s)) s) Q → wp (zoom l (modify g) ≫= f) s Q.
Proof. done. Qed.

Lemma wp_ret {A} (a : A) s (Q : A → S → Prop) : Q a s → wp (mret a) s Q.
Proof. done. Qed.

(** [unwrap] turns an error into a panic. *)
Lemma wp_unwrap {A} (m : M S A) s (Q : A → S → Prop) :
  match m s with (Ok a, s') => Q a s' | (Diverge, _) => False | _ => True end →
  wp (unwrapM m) s Q.
Proof. unfold wp, unwrapM. by destruct (m s) as [[] ?]. Qed.

Lemma wp_zoom {S' A} (l : lens S S') (m : M S' A) s (Q : A → S → Prop) :
  wp m (lget l s) (λ a (s' : S'), Q a (lset l s' s)) → wp (zoom l m) s Q.
Proof. unfold wp, zoom. by destruct (m (lget l s)) as [[]?]. Qed.

Lemma wp_attempt {A} (m : M S A) s (Q : A + error → S → Prop) :
  wp m s (λ a s', Q (inl a) s') → wp (attempt m) s Q.
Proof. unfold wp, attempt. by destruct (m s) as [[]?]. Qed.

Lemma wp_unwrapM {A} (m : M S A) s (Q : A → S → Prop) : wp m s Q → wp (unwrapM m) s Q.
Proof. unfold wp, unwrapM. by destruct (m s) as [[]?]. Qed.

(** An invariant of the rounds is one of the loop. *)
Lemma wp_for_each {A} (I : list A → S → Prop) (f : A → M S unit) l s (Q : () → S → Prop) :
  (∀ x l' s', I (x :: l') s' → wp (f x) s' (λ _, I l')) →
  I l s → (∀ s', I [] s' → Q () s') → wp (for_each f l) s Q.
Proof.
  intros Hf. revert s. induction l as [|x l IH]; intros s HI HQ; [by apply HQ|].
  simpl. apply wp_bind. eapply wp_mono; [by apply Hf|]. intros; by apply IH.
Qed.

(** [R] relates a state to the later ones: what holds of an element and the [c] it stands for
    when its turn comes, and what its result has, must not be lost later. *)
Lemma wp_mapM {A B C} (R : S → S → Prop) `{!PreOrder R} (I : S → Prop) (P : S → A → C → Prop)
    (Q : S → B → C → Prop) (f : A → M S B) l cs s :
  (∀ x c s, I s → P s x c → wp (f x) s (λ y s', I s' ∧ R s s' ∧ Q s' y c)) →
  (∀ x c s s', R s s' → P s x c → P s' x c) → (∀ y c s s', R s s' → Q s y c → Q s' y c) →
  I s → Forall2 (P s) l cs →
  wp (mapM' f l) s (λ ys s', I s' ∧ R s s' ∧ Forall2 (Q s') ys cs).
Proof.
  intros Hf HP HQ. revert cs s. induction l as [|x l IH]; intros cs s HI Hl; cbn [mapM'].
  { apply Forall2_nil_inv_l in Hl as ->. by eapply wp_Ok. }
  apply Forall2_cons_inv_l in Hl as (c & cs' & Hx & Hl & ->).
  apply wp_bind. eapply wp_mono; [by apply Hf|].
  intros y s1 (HI1 & HR1 & Hy). apply wp_bind. eapply wp_mono; [apply (IH cs'); [done|]|].
  { eapply Forall2_impl; [exact Hl|eauto]. }
  intros ys s2 (HI2 & HR2 & Hys). eapply wp_Ok; [done|]. split_and!; [done|by etrans|].
  constructor; eauto.
Qed.

Lemma twp_wp {A} (m : M S A) s Q : twp m s Q → wp m s Q.
Proof. unfold twp, wp. by destruct (m s) as [[]?]. Qed.

Lemma twp_bind {A B} (m : M S A) (f : A → M S B) s Q :
  twp m s (λ a s', twp (f a) s' Q) → twp (m ≫= f) s Q.
Proof. unfold twp, mbind, M_bind. by destruct (m s) as [[]?]. Qed.

Lemma twp_mono {A} (m : M S A) s (Q Q' : A → S → Prop) :
  twp m s Q → (∀ a s', Q a s' → Q' a s') → twp m s Q'.
Proof. unfold twp. destruct (m s) as [[]?]; auto. Qed.

Lemma twp_Ok {A} (m : M S A) s Q a s' : m s = (Ok a, s') → Q a s' → twp m s Q.
Proof. unfold twp. by intros ->. Qed.

Lemma twp_inv {A} (m : M S A) s Q : twp m s Q → ∃ a s', m s = (Ok a, s') ∧ Q a s'.
Proof. unfold twp. destruct (m s) as [[]?]; naive_solver. Qed.

Lemma twp_zoom {S' A} (l : lens S S') (m : M S' A) s (Q : A → S → Prop) :
  twp m (lget l s) (λ a (s' : S'), Q a (lset l s' s)) → twp (zoom l m) s Q.
Proof. unfold twp, zoom. by destruct (m (lget l s)) as [[]?]. Qed.

Lemma twp_run {A} (m m' : M S A) s s' Q : m s = m' s' → twp m' s' Q → twp m s Q.
Proof. unfold twp. by intros ->. Qed.

Lemma twp_step_run {A B} (m : M S A) (f : A → M S B) s a s' Q :
  m s = (Ok a, s') → twp (f a) s' Q → twp (m ≫= f) s Q.
Proof. intros E. unfold twp. by rewrite (bind_Ok _ _ _ _ _ E). Qed.

Lemma twp_ret {A} (a : A) s (Q : A → S → Prop) : Q a s → twp (mret a) s Q.
Proof. done. Qed.

(** An invariant of the rounds, which all return, is one of the loop. *)
Lemma twp_for_each {A} (I : list A → S → Prop) (f : A → M S unit) l s (Q : () → S → Prop) :
  (∀ x l' s', I (x :: l') s' → twp (f x) s' (λ _, I l')) →
  I l s → (∀ s', I [] s' → Q () s') → twp (for_each f l) s Q.
Proof.
  intros Hf. revert s. induction l as [|x l IH]; intros s HI HQ; [by apply HQ|].
  simpl. apply twp_bind. eapply twp_mono; [by apply Hf|]. intros; by apply IH.
Qed.

(** *** Enough fuel *)

Lemma ends_bind {A B} (m : nat → M S A) (f : nat → A → M S B) s Q :
  ends m s (λ a s', ends (λ fuel, f fuel a) s' Q) → ends (λ fuel, m fuel ≫= f fuel) s Q.
Proof.
  intros (N1 & a & s1 & Hm & N2 & b & s2 & Hf & HQ). exists (N1 + N2), b, s2. split; [|done].
  intros fuel Hfuel. rewrite (bind_Ok _ _ _ _ _ (Hm fuel ltac:(lia))). apply Hf. lia.
Qed.

Lemma ends_mono {A} (m : nat → M S A) s (Q Q' : A → S → Prop) :
  ends m s Q → (∀ a s', Q a s' → Q' a s') → ends m s Q'.
Proof. intros (N & a & s' & Hm & HQ) HQ'. exists N, a, s'. auto. Qed.

Lemma ends_twp {A} (m : M S A) s Q : twp m s Q → ends (λ _, m) s Q.
Proof. intros (a & s' & Hm & HQ)%twp_inv. by exists 0, a, s'. Qed.

Lemma ends_run {A} (m : nat → M S A) s a s' (Q : A → S → Prop) :
  (∀ fuel, m fuel s = (Ok a, s')) → Q a s' → ends m s Q.
Proof. intros Hm HQ. exists 0, a, s'. auto. Qed.

Lemma ends_succ {A} (m m' : nat → M S A) s Q :
  (∀ fuel, m (Datatypes.S fuel) s = m' fuel s) → ends m' s Q → ends m s Q.
Proof.
  intros Hm (N & a & s' & Hr & HQ). exists (Datatypes.S N), a, s'. split; [|done].
  intros [|fuel] Hfuel; [lia|]. rewrite Hm. apply Hr. lia.
Qed.

Lemma ends_zoom {S' A} (l : lens S S') (m : nat → M S' A) s (Q : A → S → Prop) :
  ends m (lget l s) (λ a (s' : S'), Q a (lset l s' s)) → ends (λ fuel, zoom l (m fuel)) s Q.
Proof.
  intros (N & a & s' & Hm & HQ). exists N, a, (lset l s' s). split; [|done].
  intros fuel Hfuel. by apply zoom_Ok, Hm.
Qed.

End wp.

(** ** Automation *)

(** Take a successful run of a monadic computation apart. *)
Ltac inv_run :=
  repeat match goal with
  | H : (_ ≫= _) _ = (Ok _, _) |- _ =>
      apply bind_Ok_inv in H; destruct H as (?&?&?&?)
  | H : mret _ _ = (Ok _, _) |- _ => inversion H; subst; clear H
  | H : lift _ _ = (Ok _, _) |- _ => unfold lift in H; simplify_eq
  | H : get _ = (Ok _, _) |- _ => inversion H; subst; clear H
  | H : gets _ _ = (Ok _, _) |- _ => inversion H; subst; clear H
  | H : modify _ _ = (Ok _, _) |- _ => inversion H; subst; clear H
  | H : panic _ = (Ok _, _) |- _ => discriminate H
  | H : diverge _ = (Ok _, _) |- _ => discriminate H
  | H : throw _ _ = (Ok _, _) |- _ => discriminate H
  | H : assert_ _ = Ok _ |- _ => apply assert_Ok_inv in H
  | H : (Ok _, _) = (Ok _, _) |- _ => inversion H; subst; clear H
  | u : () |- _ => destruct u
  end.

(** Run one step of a monadic goal whose head computation is known. *)
Ltac run_with H := rewrite (bind_Ok _ _ _ _ _ H).

Ltac wp_step := first
  [ apply wp_bind | apply wp_zoom
  | refine (wp_Ok _ _ _ _ _ eq_refl _) ].

Ltac run_pure := rewrite ?bind_ret, ?bind_get, ?bind_gets, ?bind_modify, ?bind_zoom_modify;
  rewrite ?bind_ret, ?bind_get, ?bind_gets, ?bind_modify, ?bind_zoom_modify;
  cbn [fst snd lget lset fst_lens snd_lens].
Ltac run_zoom H := erewrite bind_zoom by exact H.
Ltac run_lift H := rewrite (bind_lift _ _ _ _ H).
Ltac run_assert tac := rewrite bind_lift_assert by tac.

Create HintDb hat discriminated.
#[export] Hint Resolve as_i64_range as_u64_range byte_to_Z_range : hat.
#[export] Hint Rewrite @byte_of_Z_to_Z @byte_to_Z_of_Z : hat.
