(* ===== verification/Ordered.v ===== *)
(** * util/counter.rs, util/ordered_collection.rs, tags.rs

    The id counter, the [BTreeMap] extension trait [OrderedCollection] and the tag numbers.
    A [BTreeMap<K, V>] is a [gmap K V] together with the order on [K] that [find_min] follows. *)

From S2P Require Import Prelude.

(** ** util/counter.rs *)
Module Counter.

Record Counter := { previous : Z }.

Definition new (previous : Z) : Counter := {| previous := previous |}.

(** [self.previous += 1] on an [i64], wrapping as in a release build. *)
Definition next : M Counter Z := λ c,
  let p := as_i64 (previous c + 1) in (Ok p, {| previous := p |}).

Lemma next_fresh c :
  (- 2 ^ 63 ≤ previous c < 2 ^ 63 - 1)%Z →
  next c = (Ok (previous c + 1)%Z, {| previous := previous c + 1 |}).
Proof. intros ?. unfold next. by rewrite as_i64_id by lia. Qed.

End Counter.

(** ** tags.rs *)
Module tags.

Inductive Tag :=
  | Done | Reserved | InProgress | Complete
  | WillDelete | ReadyDelete | DeleteComplete | RecoverInProgress.

#[global] Instance Tag_eq_dec : EqDecision Tag.
Proof. solve_decision. Defined.

(** [tag as i64]: the discriminants of the enum. *)
Definition num (t : Tag) : Z :=
  match t with
  | Done => 0 | Reserved => 1 | InProgress => 2 | Complete => 3
  | WillDelete => 4 | ReadyDelete => 5 | DeleteComplete => 6 | RecoverInProgress => 7
  end.

Definition tag_from_num (n : Z) : option Tag :=
  match n with
  | 0 => Some Done | 1 => Some Reserved | 2 => Some InProgress | 3 => Some Complete
  | 4 => Some WillDelete | 5 => Some ReadyDelete | 6 => Some DeleteComplete
  | 7 => Some RecoverInProgress
  | _ => None
  end%Z.

Lemma tag_from_num_num t : tag_from_num (num t) = Some t.
Proof. by destruct t. Qed.

Lemma num_tag_from_num n t : tag_from_num n = Some t → num t = n.
Proof.
  unfold tag_from_num. intros H.
  repeat case_match; simplify_eq; done.
Qed.

#[global] Instance num_inj : Inj (=) (=) num.
Proof. intros t1 t2 H. apply (f_equal tag_from_num) in H. rewrite !tag_from_num_num in H. congruence. Qed.

End tags.

(** ** util/ordered_collection.rs *)
Module OrderedCollection.

Section OrderedCollection.
Context {K : Type} `{Countable K} (le : relation K) `{!RelDecision le, !TotalOrder le}.
Context {V : Type}.
Implicit Types m : gmap K V.

Definition min_entry (kv : K * V) (acc : option (K * V)) : option (K * V) :=
  match acc with
  | None => Some kv
  | Some kv' => if decide (le kv.1 kv'.1) then Some kv else Some kv'
  end.

(** [self.iter().next()]: the entry with the least key. *)
Definition find_min m : option (K * V) := foldr min_entry None (map_to_list m).

(** [insert] that panics when the key exists (the map has been changed by then). *)
Definition insert_unique (k : K) (v : V) : M (gmap K V) unit := λ m,
  (match m !! k with Some _ => Panic | None => Ok () end, <[k := v]> m).

Definition pop_min_when (ready : K → V → bool) : M (gmap K V) (option (K * V)) := λ m,
  let k_opt := '(k, v) ← find_min m; if ready k v then Some k else None in
  match k_opt with
  | None => (Ok None, m)
  | Some k =>
      match m !! k with
      | Some v => (Ok (Some (k, v)), delete k m)
      | None => (Panic, m)
      end
  end.

Lemma foldr_min_entry_Some l k v :
  foldr min_entry None l = Some (k, v) →
  (k, v) ∈ l ∧ ∀ k' v', (k', v') ∈ l → le k k'.
Proof using TotalOrder0.
  revert k v. induction l as [|[k1 v1] l IH]; intros k v; simpl; [done|].
  unfold min_entry at 1. destruct (foldr min_entry None l) as [[k2 v2]|] eqn:E; simpl.
  - destruct (IH k2 v2 eq_refl) as [Hin Hle].
    case_decide as Hd; intros [= -> ->]; split; [set_solver| |set_solver|];
      intros k' v' [[= -> ->]|Hl]%elem_of_cons.
    + done.
    + etrans; eauto.
    + by destruct (total le k k1).
    + eauto.
  - intros [= -> ->]. split; [set_solver|].
    intros k' v' [[= -> ->]|Hl]%elem_of_cons; [done|].
    destruct l as [|kv l]; [by apply not_elem_of_nil in Hl|].
    simpl in E. unfold min_entry in E. by repeat case_match.
Qed.

Lemma find_min_Some m k v :
  find_min m = Some (k, v) → m !! k = Some v ∧ ∀ k', is_Some (m !! k') → le k k'.
Proof using TotalOrder0.
  intros [Hin Hle]%foldr_min_entry_Some. split.
  - by apply elem_of_map_to_list.
  - intros k' [v' Hv']. eapply Hle. by apply elem_of_map_to_list.
Qed.

Lemma find_min_None m : find_min m = None ↔ m = ∅.
Proof.
  unfold find_min. split; [|intros ->; by rewrite map_to_list_empty].
  intros E. apply map_to_list_empty_iff.
  destruct (map_to_list m) as [|kv l]; [done|]. simpl in E.
  unfold min_entry in E. by repeat case_match.
Qed.

(** [pop_min_when] never hits its inner [unwrap]: it removes the least entry when that
    entry is ready and leaves the map alone otherwise. *)
Lemma pop_min_when_spec (ready : K → V → bool) m :
  match find_min m with
  | Some (k, v) =>
      if ready k v then pop_min_when ready m = (Ok (Some (k, v)), delete k m)
      else pop_min_when ready m = (Ok None, m)
  | None => pop_min_when ready m = (Ok None, m)
  end.
Proof using TotalOrder0.
  unfold pop_min_when. destruct (find_min m) as [[k v]|] eqn:E; simpl; [|done].
  destruct (ready k v) eqn:R; simpl; [|done].
  apply find_min_Some in E as [-> _]. done.
Qed.

End OrderedCollection.
End OrderedCollection.
