(* ===== verification/Upq.v ===== *)
(** * util/unique_priority_queue.rs

    [UniquePriorityQueue<P, K, V>]: a priority map and the inverse key index. The hash index
    uses it at [P = u64] (the hash id), [K = Vec<u8>] (the digest) to commit hashes in id
    order. *)

From S2P Require Import Prelude Ordered.

Module UniquePriorityQueue.

Inductive Status := Pending | Ready.

#[global] Instance Status_eq_dec : EqDecision Status.
Proof. solve_decision. Defined.

Section Upq.
Context {P : Type} `{Countable P} (le : relation P) `{!RelDecision le, !TotalOrder le}.
Context {K : Type} `{Countable K} {V : Type}.

Record Upq := MkUpq {
  priority : gmap P (Status * K * V);
  key_to_priority : gmap K P;
}.

Definition new : Upq := MkUpq ∅ ∅.

Definition len (q : Upq) : nat := size (priority q).

Definition find_key (q : Upq) (k : K) : option P := key_to_priority q !! k.

(** [true] is [Ok(())], [false] is [Err(())]. *)
Definition put_value (p : P) (k : K) (v : V) : M Upq bool := λ q,
  if decide (is_Some (priority q !! p) ∨ is_Some (key_to_priority q !! k)) then (Ok false, q)
  else
    match OrderedCollection.insert_unique p (Pending, k, v) (priority q) with
    | (Ok _, pr) => (Ok true, MkUpq pr (<[k := p]> (key_to_priority q)))
    | (_, pr) => (Panic, MkUpq pr (key_to_priority q))
    end.

Definition find_value_of_key (q : Upq) (k : K) : option V :=
  prio ← key_to_priority q !! k; '(_, _, v) ← priority q !! prio; Some v.

Definition find_mut_value_of_priority (q : Upq) (p : P) : option V :=
  '(_, _, v) ← priority q !! p; Some v.

Definition update_value (k : K) (f : V → V) : M Upq unit := λ q,
  match key_to_priority q !! k with
  | None => (Panic, q)
  | Some prio =>
      match priority q !! prio with
      | None => (Panic, q)
      | Some (st, k', v) =>
          (Ok (), MkUpq (<[prio := (st, k', f v)]> (priority q)) (key_to_priority q))
      end
  end.

Definition set_ready (p : P) : M Upq unit := λ q,
  match priority q !! p with
  | None => (Panic, q)
  | Some (_, k, v) => (Ok (), MkUpq (<[p := (Ready, k, v)]> (priority q)) (key_to_priority q))
  end.

Definition is_ready (_ : P) (min : Status * K * V) : bool := bool_decide (min.1.1 = Ready).

Definition pop_min_if_complete : M Upq (option (P * K * V)) := λ q,
  match OrderedCollection.pop_min_when le is_ready (priority q) with
  | (Ok None, pr) => (Ok None, MkUpq pr (key_to_priority q))
  | (Ok (Some (p, (_, k, v))), pr) =>
      (Ok (Some (p, k, v)), MkUpq pr (delete k (key_to_priority q)))
  | (_, pr) => (Panic, MkUpq pr (key_to_priority q))
  end.

(** The two maps are inverse to each other. *)
Record Upq_ok (q : Upq) : Prop := {
  prio_key : ∀ p st k v, priority q !! p = Some (st, k, v) → key_to_priority q !! k = Some p;
  key_prio : ∀ k p, key_to_priority q !! k = Some p →
                    ∃ st v, priority q !! p = Some (st, k, v);
}.

Lemma upq_new_ok : Upq_ok new.
Proof. split; simpl; intros *; by rewrite lookup_empty. Qed.

Lemma put_value_ok p k v q r q' : Upq_ok q → put_value p k v q = (r, q') → Upq_ok q'.
Proof.
  intros [Hpk Hkp]. unfold put_value, OrderedCollection.insert_unique.
  case_decide as Hd; [by intros [= _ <-]|].
  apply Decidable.not_or in Hd as [Hp%eq_None_not_Some Hk%eq_None_not_Some]. rewrite Hp.
  intros [= _ <-]. split; simpl.
  - intros p' st k' v' Hl. destruct (decide (p = p')) as [->|].
    + simplify_map_eq. done.
    + rewrite lookup_insert_ne in Hl by done. apply Hpk in Hl.
      rewrite lookup_insert_ne by congruence. done.
  - intros k' p' Hl. destruct (decide (k = k')) as [->|].
    + simplify_map_eq. eauto.
    + rewrite lookup_insert_ne in Hl by done. apply Hkp in Hl as (st&v'&Hl).
      exists st, v'. rewrite lookup_insert_ne by congruence. done.
Qed.

Lemma upd_ok q p st st' k v v' :
  Upq_ok q → priority q !! p = Some (st, k, v) →
  Upq_ok (MkUpq (<[p := (st', k, v')]> (priority q)) (key_to_priority q)).
Proof.
  intros [Hpk Hkp] Hp. split; simpl.
  - intros p' st'' k' v''. destruct (decide (p = p')) as [->|]; intros; simplify_map_eq; eauto.
  - intros k' p' Hl. destruct (decide (p = p')) as [->|].
    + apply Hkp in Hl as (?&?&?). simplify_map_eq. eauto.
    + rewrite lookup_insert_ne by done. eauto.
Qed.

Lemma update_value_ok k f q r q' : Upq_ok q → update_value k f q = (r, q') → Upq_ok q'.
Proof.
  intros Hq. unfold update_value.
  destruct (key_to_priority q !! k) as [p|]; [|by intros [= _ <-]].
  destruct (priority q !! p) as [[[st k'] v]|] eqn:E; intros [= _ <-]; [|done].
  eapply upd_ok; eauto.
Qed.

Lemma set_ready_ok p q r q' : Upq_ok q → set_ready p q = (r, q') → Upq_ok q'.
Proof.
  intros Hq. unfold set_ready.
  destruct (priority q !! p) as [[[st k'] v]|] eqn:E; intros [= _ <-]; [|done].
  eapply upd_ok; eauto.
Qed.

Lemma del_ok q p st k v :
  Upq_ok q → priority q !! p = Some (st, k, v) →
  Upq_ok (MkUpq (delete p (priority q)) (delete k (key_to_priority q))).
Proof.
  intros [Hpk Hkp] Hp. split; simpl.
  - intros p' st' k' v' [Hne Hl]%lookup_delete_Some. pose proof (Hpk _ _ _ _ Hl) as Hk'.
    pose proof (Hpk _ _ _ _ Hp). rewrite lookup_delete_ne by congruence. done.
  - intros k' p' [Hne Hl]%lookup_delete_Some. apply Hkp in Hl as (st'&v'&Hl).
    exists st', v'. rewrite lookup_delete_ne by congruence. done.
Qed.

(** What [pop_min_if_complete] does, on every branch. *)
Lemma pop_cases q :
  (pop_min_if_complete q = (Ok None, q) ∧
     (priority q = ∅ ∨ ∃ p k v, priority q !! p = Some (Pending, k, v) ∧
                                ∀ p', is_Some (priority q !! p') → le p p')) ∨
  (∃ p k v, priority q !! p = Some (Ready, k, v) ∧
     (∀ p', is_Some (priority q !! p') → le p p') ∧
     pop_min_if_complete q =
       (Ok (Some (p, k, v)),
        MkUpq (delete p (priority q)) (delete k (key_to_priority q)))).
Proof using TotalOrder0.
  destruct q as [pr kp]. unfold pop_min_if_complete. simpl.
  pose proof (OrderedCollection.pop_min_when_spec le is_ready pr) as Hs.
  destruct (OrderedCollection.find_min le pr) as [[p [[st k] v]]|] eqn:E.
  - apply OrderedCollection.find_min_Some in E as [Hp Hmin]; [|done].
    unfold is_ready in Hs. simpl in Hs. destruct st; simpl in Hs.
    + left. unfold is_ready. rewrite Hs. split; [done|]. right. eauto 10.
    + right. exists p, k, v. unfold is_ready. rewrite Hs. done.
  - apply OrderedCollection.find_min_None in E. left. rewrite Hs. auto.
Qed.

Lemma pop_ok q r q' : Upq_ok q → pop_min_if_complete q = (r, q') → Upq_ok q'.
Proof using TotalOrder0.
  intros Hq. destruct (pop_cases q) as [[-> _]|(p&k&v&Hp&_&->)]; intros [= _ <-]; [done|].
  eapply del_ok; eauto.
Qed.

End Upq.
Arguments Upq P {_ _} K {_ _} V.
End UniquePriorityQueue.

Module Upq := UniquePriorityQueue.
