(* ===== verification/Utf8.v ===== *)
(** * UTF-8 as the Rust standard library treats it

    [String::from_utf8] and [String::from_utf8_lossy], which models/mod.rs uses to build a
    [FileName]. A [String] is the list of its bytes. *)

From S2P Require Import Prelude.

Local Open Scope Z_scope.

Definition in_range (lo hi : Z) (c : option byte) : bool :=
  match c with
  | Some c => bool_decide (lo ≤ byte_to_Z c ≤ hi)
  | None => false
  end.

Definition cont (c : option byte) : bool := in_range 128 191 c.

(** The next scalar value of a byte string: [inl n] is a valid sequence of [n] bytes, [inr n]
    a maximal invalid prefix of [n] bytes. *)
Definition utf8_step (c : byte) (l : bytes) : nat + nat :=
  let z := byte_to_Z c in
  if bool_decide (z < 128) then inl 1%nat
  else if bool_decide (194 ≤ z ≤ 223) then
    if cont (l !! 0%nat) then inl 2%nat else inr 1%nat
  else if bool_decide (224 ≤ z ≤ 239) then
    let lo := if bool_decide (z = 224) then 160 else 128 in
    let hi := if bool_decide (z = 237) then 159 else 191 in
    if in_range lo hi (l !! 0%nat) then
      if cont (l !! 1%nat) then inl 3%nat else inr 2%nat
    else inr 1%nat
  else if bool_decide (240 ≤ z ≤ 244) then
    let lo := if bool_decide (z = 240) then 144 else 128 in
    let hi := if bool_decide (z = 244) then 143 else 191 in
    if in_range lo hi (l !! 0%nat) then
      if cont (l !! 1%nat) then
        if cont (l !! 2%nat) then inl 4%nat else inr 3%nat
      else inr 2%nat
    else inr 1%nat
  else inr 1%nat.

Local Open Scope nat_scope.

(** The string is cut by [utf8_step]; [fuel] is its length. *)
Fixpoint valid_utf8_go (fuel : nat) (l : bytes) : bool :=
  match fuel, l with
  | _, [] => true
  | O, _ => false
  | S fuel, c :: l' =>
      match utf8_step c l' with
      | inl n => valid_utf8_go fuel (drop n l)
      | inr _ => false
      end
  end.

(** [String::from_utf8(v).is_ok()] *)
Definition valid_utf8 (l : bytes) : bool := valid_utf8_go (length l) l.

Definition from_utf8 (l : bytes) : option bytes := if valid_utf8 l then Some l else None.

(** U+FFFD *)
Definition replacement_character : bytes := [Byte.xef; Byte.xbf; Byte.xbd].

Fixpoint lossy_go (fuel : nat) (l : bytes) : bytes :=
  match fuel, l with
  | O, _ | _, [] => []
  | S fuel, c :: l' =>
      match utf8_step c l' with
      | inl n => take n l ++ lossy_go fuel (drop n l)
      | inr n => replacement_character ++ lossy_go fuel (drop n l)
      end
  end.

Definition from_utf8_lossy (l : bytes) : bytes := lossy_go (length l) l.

Lemma lossy_valid_go fuel l : valid_utf8_go fuel l = true → lossy_go fuel l = l.
Proof.
  revert l. induction fuel as [|fuel IH]; intros [|c l']; simpl; try done.
  destruct (utf8_step c l') as [n|n]; [|done]. intros H.
  rewrite IH by done. apply take_drop.
Qed.

(** On valid UTF-8 the lossy conversion is the identity. *)
Lemma from_utf8_lossy_valid l : valid_utf8 l = true → from_utf8_lossy l = l.
Proof. apply lossy_valid_go. Qed.
