(* ===== verification/Models.v ===== *)
(** * models/mod.rs: the serialised data

    The types of the external format, with the source's fields and constructors. The file is
    required without [Import] by its clients, which write [Models.HashRef] where the source
    writes [models::HashRef]. *)

From S2P Require Import Prelude Utf8.

Inductive Packing := Raw | GZip | Snappy.

Inductive Key := NoKey | AeadChacha20Poly1305 (key : bytes).

Record ChunkRef := mkChunkRef {
  blob_name : bytes;
  offset : Z;
  length : Z;
  packing : Packing;
  key : Key;
}.

Inductive LeafType := FileChunk | TreeList | SnapshotList.

#[global] Instance LeafType_eq_dec : EqDecision LeafType.
Proof. solve_decision. Defined.

Record UserGroup := mkUserGroup { user_id : Z; group_id : Z }.

Inductive Owner := NoOwner | OwnerUserGroup (ug : UserGroup).

Inductive Permissions := NoPermissions | Mode (mode : Z).

Inductive FileName := FileNameUtf8 (s : bytes) | RawAndLossyUtf8 (raw lossy : bytes).

#[global] Instance FileName_eq_dec : EqDecision FileName.
Proof. solve_decision. Defined.

(** [impl From<ffi::OsString> for FileName]: a Unix [OsString] is a byte string. *)
Definition FileName_from_os_string (s : bytes) : FileName :=
  match from_utf8 s with
  | Some utf8 => FileNameUtf8 utf8
  | None => RawAndLossyUtf8 s (from_utf8_lossy s)
  end.

(** [impl Into<ffi::OsString> for FileName] *)
Definition FileName_into_os_string (n : FileName) : bytes :=
  match n with
  | FileNameUtf8 utf8 => utf8
  | RawAndLossyUtf8 raw _utf8 => raw
  end.

(** [impl Into<Vec<u8>> for FileName] *)
Definition FileName_into_vec (n : FileName) : bytes :=
  match n with
  | FileNameUtf8 utf8 => utf8
  | RawAndLossyUtf8 raw _utf8 => raw
  end.

(** [impl From<Vec<u8>> for FileName] *)
Definition FileName_from_vec (v : bytes) : FileName :=
  match from_utf8 v with
  | Some utf8 => FileNameUtf8 utf8
  | None => let utf8 := from_utf8_lossy v in RawAndLossyUtf8 v utf8
  end.

(** [impl From<String> for FileName] *)
Definition FileName_from_string (utf8 : bytes) : FileName := FileNameUtf8 utf8.

Definition FileName_is_empty (n : FileName) : bool :=
  match n with
  | FileNameUtf8 s => bool_decide (s = [])
  | RawAndLossyUtf8 raw _ => bool_decide (raw = [])
  end.

Definition FileName_utf8 (n : FileName) : bytes :=
  match n with
  | FileNameUtf8 s => s
  | RawAndLossyUtf8 _ s => s
  end.

Record FileInfo := mkFileInfo {
  name : FileName;
  created_ts : Z;
  modified_ts : Z;
  accessed_ts : Z;
  byte_length : Z;
  owner : Owner;
  permissions : Permissions;
  snapshot_ts_utc : Z;
}.

Inductive ExtraInfo := NoExtraInfo | ExtraFileInfo (info : FileInfo).

Record HashRef := mkHashRef {
  hash : bytes;
  chunk_ref : ChunkRef;
  height : Z;
  leaf_type : LeafType;
  extra : ExtraInfo;
}.

Record HashRefs := mkHashRefs { refs : list HashRef }.

Record HashIds := mkHashIds { ids : list Z }.

Record Snapshot := mkSnapshot {
  snapshot_id : Z;
  hash_ref : HashRef;
  family_name : bytes;
  msg : bytes;
  created_ts_utc : Z;
}.

Record Snapshots := mkSnapshots { snapshots : list Snapshot }.

Inductive Content :=
  | Data (r : HashRef)
  | Directory (r : HashRef)
  | SymbolicLink (path : bytes).

Record File := mkFile { file_id : Z; info : FileInfo; content : Content }.

Record Files := mkFiles { files : list File }.

(** The file names the code builds: a UTF-8 name is valid UTF-8, a raw one is not. *)
Definition FileName_wf (n : FileName) : Prop :=
  match n with
  | FileNameUtf8 s => valid_utf8 s = true
  | RawAndLossyUtf8 raw lossy => valid_utf8 raw = false ∧ lossy = from_utf8_lossy raw
  end.

Lemma FileName_from_vec_wf v : FileName_wf (FileName_from_vec v).
Proof. unfold FileName_from_vec, from_utf8. by destruct (valid_utf8 v) eqn:E; simpl. Qed.

Lemma FileName_into_from_vec v : FileName_into_vec (FileName_from_vec v) = v.
Proof. unfold FileName_from_vec, from_utf8. by destruct (valid_utf8 v). Qed.

Lemma FileName_from_into_vec n : FileName_wf n → FileName_from_vec (FileName_into_vec n) = n.
Proof.
  destruct n as [s|raw lossy]; simpl; unfold FileName_from_vec, from_utf8.
  - by intros ->.
  - by intros [-> ->].
Qed.
