(* ===== verification/Cbor.v ===== *)
(** * serde_cbor as an interface

    [serde_cbor::to_vec] and [serde_cbor::from_slice] are outside the repository: the
    development is parametric in them. What the code relies on is that reading back what was
    written gives the value, and that the encoding of a value is not empty. *)

From S2P Require Import Prelude.

Class Cbor (T : Type) := {
  to_vec : T → bytes;
  from_slice : bytes → option T;
}.

Class CborLaws (T : Type) `{Cbor T} : Prop := {
  from_slice_to_vec : ∀ x : T, from_slice (to_vec x) = Some x;
  to_vec_nonempty : ∀ x : T, to_vec x ≠ [];
}.

(** [serde_cbor::from_slice(bytes)?] *)
Definition decode {T} `{Cbor T} (l : bytes) : res T := ok_or (from_slice l) SerdeError.

Lemma decode_to_vec {T} `{CborLaws T} (x : T) : decode (to_vec x) = Ok x.
Proof. unfold decode. by rewrite from_slice_to_vec. Qed.
