(* ===== verification/Codec.v ===== *)
(** * A concrete self-delimiting codec

    The development takes CBOR as an interface ([Cbor.Cbor]). This file builds one
    implementation of that interface for every serialised type, from combinators whose
    round-trip law is proved once each; the concrete instances ([models_cbor] below) are what
    the examples and witnesses of the other files run on. *)

From S2P Require Import Prelude Utf8 Cbor.
From S2P Require Models.

Class Codec (T : Type) := {
  enc : T → bytes;
  dec : bytes → option (T * bytes);
  dec_enc : ∀ x rest, dec (enc x ++ rest) = Some (x, rest);
}.

Section Iso.
Context {A B : Type} `{Codec B} (f : A → B) (g : B → A) (gf : ∀ a, g (f a) = a).

#[program] Definition codec_iso : Codec A := {|
  enc a := enc (f a);
  dec l := '(b, rest) ← dec l; Some (g b, rest);
|}.
Next Obligation. intros a rest. simpl. rewrite dec_enc. simpl. by rewrite gf. Qed.
End Iso.

#[program, global] Instance byte_codec : Codec byte := {|
  enc c := [c];
  dec l := match l with c :: l => Some (c, l) | [] => None end;
|}.
Next Obligation. done. Qed.

#[program, global] Instance unit_codec : Codec () := {| enc _ := []; dec l := Some ((), l) |}.
Next Obligation. by intros []. Qed.

#[program, global] Instance prod_codec `{Codec A, Codec B} : Codec (A * B) := {|
  enc x := enc x.1 ++ enc x.2;
  dec l := '(a, l) ← dec l; '(b, l) ← dec l; Some ((a, b), l);
|}.
Next Obligation.
  intros A ? B ? [a c] rest. simpl. rewrite <- app_assoc, dec_enc. simpl.
  by rewrite dec_enc.
Qed.

Definition enc_sum `{Codec A, Codec B} (x : A + B) : bytes :=
  match x with inl a => Byte.x00 :: enc a | inr b => Byte.x01 :: enc b end.

Definition dec_sum `{Codec A, Codec B} (l : bytes) : option ((A + B) * bytes) :=
  match l with
  | Byte.x00 :: l => '(a, l) ← dec l; Some (inl a, l)
  | Byte.x01 :: l => '(b, l) ← dec l; Some (inr b, l)
  | _ => None
  end.

#[program, global] Instance sum_codec `{Codec A, Codec B} : Codec (A + B) :=
  {| enc := enc_sum; dec := dec_sum |}.
Next Obligation. intros A ? B ? [a|c] rest; simpl; by rewrite dec_enc. Qed.

(** Binary positives, least significant bit first. *)
Fixpoint enc_pos (p : positive) : bytes :=
  match p with
  | xH => [Byte.x00]
  | xO p => Byte.x01 :: enc_pos p
  | xI p => Byte.x02 :: enc_pos p
  end.

Fixpoint dec_pos (l : bytes) : option (positive * bytes) :=
  match l with
  | Byte.x00 :: l => Some (xH, l)
  | Byte.x01 :: l => '(p, l) ← dec_pos l; Some (xO p, l)
  | Byte.x02 :: l => '(p, l) ← dec_pos l; Some (xI p, l)
  | _ => None
  end.

#[program, global] Instance pos_codec : Codec positive := {| enc := enc_pos; dec := dec_pos |}.
Next Obligation. intros p rest. induction p as [p IH|p IH|]; simpl; [by rewrite IH..|done]. Qed.

#[global] Instance Z_codec : Codec Z :=
  codec_iso (λ z, match z with Z0 => inl () | Zpos p => inr (inl p) | Zneg p => inr (inr p) end)
            (λ s, match s with inl () => Z0 | inr (inl p) => Zpos p | inr (inr p) => Zneg p end)
            (λ z, match z with Z0 | Zpos _ | Zneg _ => eq_refl end).

Section List.
Context `{Codec A}.

Fixpoint enc_list (l : list A) : bytes :=
  match l with
  | [] => [Byte.x00]
  | x :: l => Byte.x01 :: enc x ++ enc_list l
  end.

(** Every element is announced by a byte, so the input's length bounds the recursion. *)
Fixpoint dec_list (fuel : nat) (l : bytes) : option (list A * bytes) :=
  match fuel, l with
  | S _, Byte.x00 :: l => Some ([], l)
  | S fuel, Byte.x01 :: l =>
      '(x, l) ← dec l; '(xs, l) ← dec_list fuel l; Some (x :: xs, l)
  | _, _ => None
  end.

Lemma dec_enc_list l rest fuel : length l < fuel → dec_list fuel (enc_list l ++ rest) = Some (l, rest).
Proof.
  revert fuel. induction l as [|x l IH]; intros [|fuel] Hf; simpl in *; try lia; [done|].
  rewrite <- app_assoc, dec_enc. simpl. by rewrite IH by lia.
Qed.

Lemma length_enc_list l : length l < length (enc_list l).
Proof. induction l; simpl; rewrite ?length_app; lia. Qed.

#[program] Definition list_codec : Codec (list A) := {|
  enc := enc_list;
  dec l := dec_list (length l) l;
|}.
Next Obligation.
  intros l rest. apply dec_enc_list. rewrite length_app. pose proof (length_enc_list l). lia.
Qed.
End List.
#[global] Existing Instance list_codec.

(** ** The serialised types *)

#[global] Instance Packing_codec : Codec Models.Packing.
Proof.
  refine (codec_iso
    (λ p, match p with Models.Raw => inl () | Models.GZip => inr (inl ()) | Models.Snappy => inr (inr ()) end)
    (λ s, match s with inl () => Models.Raw | inr (inl ()) => Models.GZip | inr (inr ()) => Models.Snappy end) _).
  by intros [].
Defined.

#[global] Instance Key_codec : Codec Models.Key.
Proof.
  refine (codec_iso
    (λ k, match k with Models.NoKey => inl () | Models.AeadChacha20Poly1305 k => inr k end)
    (λ s, match s with inl () => Models.NoKey | inr k => Models.AeadChacha20Poly1305 k end) _).
  by intros [].
Defined.

#[global] Instance ChunkRef_codec : Codec Models.ChunkRef.
Proof.
  refine (codec_iso
    (λ c, (Models.blob_name c, Models.offset c, Models.length c, Models.packing c, Models.key c))
    (λ '(a, b, c, d, e), Models.mkChunkRef a b c d e) _).
  by intros [].
Defined.

#[global] Instance LeafType_codec : Codec Models.LeafType.
Proof.
  refine (codec_iso
    (λ p, match p with Models.FileChunk => inl () | Models.TreeList => inr (inl ()) | Models.SnapshotList => inr (inr ()) end)
    (λ s, match s with inl () => Models.FileChunk | inr (inl ()) => Models.TreeList | inr (inr ()) => Models.SnapshotList end) _).
  by intros [].
Defined.

#[global] Instance Owner_codec : Codec Models.Owner.
Proof.
  refine (codec_iso
    (λ o, match o with Models.NoOwner => inl ()
          | Models.OwnerUserGroup u => inr (Models.user_id u, Models.group_id u) end)
    (λ s, match s with inl () => Models.NoOwner
          | inr (u, g) => Models.OwnerUserGroup (Models.mkUserGroup u g) end) _).
  by intros [|[]].
Defined.

#[global] Instance Permissions_codec : Codec Models.Permissions.
Proof.
  refine (codec_iso
    (λ p, match p with Models.NoPermissions => inl () | Models.Mode m => inr m end)
    (λ s, match s with inl () => Models.NoPermissions | inr m => Models.Mode m end) _).
  by intros [].
Defined.

#[global] Instance FileName_codec : Codec Models.FileName.
Proof.
  refine (codec_iso
    (λ n, match n with Models.FileNameUtf8 s => inl s | Models.RawAndLossyUtf8 r s => inr (r, s) end)
    (λ s, match s with inl s => Models.FileNameUtf8 s | inr (r, s) => Models.RawAndLossyUtf8 r s end) _).
  by intros [].
Defined.

#[global] Instance FileInfo_codec : Codec Models.FileInfo.
Proof.
  refine (codec_iso
    (λ i, (Models.name i, Models.created_ts i, Models.modified_ts i, Models.accessed_ts i,
           Models.byte_length i, Models.owner i, Models.permissions i, Models.snapshot_ts_utc i))
    (λ '(a, b, c, d, e, f, g, h), Models.mkFileInfo a b c d e f g h) _).
  by intros [].
Defined.

#[global] Instance ExtraInfo_codec : Codec Models.ExtraInfo.
Proof.
  refine (codec_iso
    (λ n, match n with Models.NoExtraInfo => inl () | Models.ExtraFileInfo i => inr i end)
    (λ s, match s with inl () => Models.NoExtraInfo | inr i => Models.ExtraFileInfo i end) _).
  by intros [].
Defined.

#[global] Instance HashRef_codec : Codec Models.HashRef.
Proof.
  refine (codec_iso
    (λ h, (Models.hash h, Models.chunk_ref h, Models.height h, Models.leaf_type h, Models.extra h))
    (λ '(a, b, c, d, e), Models.mkHashRef a b c d e) _).
  by intros [].
Defined.

#[global] Instance HashRefs_codec : Codec Models.HashRefs.
Proof. refine (codec_iso Models.refs Models.mkHashRefs _). by intros []. Defined.

#[global] Instance HashIds_codec : Codec Models.HashIds.
Proof. refine (codec_iso Models.ids Models.mkHashIds _). by intros []. Defined.

#[global] Instance Content_codec : Codec Models.Content.
Proof.
  refine (codec_iso
    (λ c, match c with Models.Data r => inl r | Models.Directory r => inr (inl r)
          | Models.SymbolicLink p => inr (inr p) end)
    (λ s, match s with inl r => Models.Data r | inr (inl r) => Models.Directory r
          | inr (inr p) => Models.SymbolicLink p end) _).
  by intros [].
Defined.

#[global] Instance File_codec : Codec Models.File.
Proof.
  refine (codec_iso (λ f, (Models.file_id f, Models.info f, Models.content f))
    (λ '(a, b, c), Models.mkFile a b c) _). by intros [].
Defined.

#[global] Instance Files_codec : Codec Models.Files.
Proof. refine (codec_iso Models.files Models.mkFiles _). by intros []. Defined.

#[global] Instance Snapshot_codec : Codec Models.Snapshot.
Proof.
  refine (codec_iso
    (λ s, (Models.snapshot_id s, Models.hash_ref s, Models.family_name s, Models.msg s,
           Models.created_ts_utc s))
    (λ '(a, b, c, d, e), Models.mkSnapshot a b c d e) _).
  by intros [].
Defined.

#[global] Instance Snapshots_codec : Codec Models.Snapshots.
Proof. refine (codec_iso Models.snapshots Models.mkSnapshots _). by intros []. Defined.

(** The interface [Cbor] from a codec: a header byte, then the whole input is the value. *)
Definition codec_cbor `{Codec T} : Cbor T := {|
  to_vec x := Byte.xd9 :: enc x;
  from_slice l :=
    match l with
    | Byte.xd9 :: l => match dec l with Some (x, []) => Some x | _ => None end
    | _ => None
    end;
|}.

Lemma codec_cbor_laws `{Codec T} : @CborLaws T codec_cbor.
Proof.
  split; simpl; [|done]. intros x. rewrite <- (app_nil_r (enc x)), dec_enc. done.
Qed.
