(* ===== verification/Timer.v ===== *)
(** * Clocks and util/periodic_timer.rs

    A clock is the sequence of the readings it will give; reading it takes the next one. The
    readings of a steady clock do not decrease, those of the wall clock may. *)

From S2P Require Import Prelude.

Record Clock := mkClock { reading : nat → Z; tick : nat }.

Definition now : M Clock Z := λ c, (Ok (reading c (tick c)), mkClock (reading c) (S (tick c))).

Definition steady (c : Clock) : Prop := ∀ i j, i ≤ j → (reading c i ≤ reading c j)%Z.

Module PeriodicTimer.

Record PeriodicTimer := mkTimer { start : Z; interval : Z }.

Definition new (interval : Z) : M Clock PeriodicTimer :=
  start ← now; mret (mkTimer start interval).

Definition did_fire : M (PeriodicTimer * Clock) bool :=
  self ← gets fst;
  t ← zoom snd_lens now;
  if decide (interval self ≤ t - start self)%Z then
    t ← zoom snd_lens now;
    zoom fst_lens (modify (λ self, mkTimer t (interval self))) ;;
    mret true
  else mret false.

(** The timer fires exactly when its interval has passed, and then starts again. *)
Lemma did_fire_run s c :
  did_fire (s, c) =
    if decide (interval s ≤ reading c (tick c) - start s)%Z
    then (Ok true, (mkTimer (reading c (S (tick c))) (interval s),
                    mkClock (reading c) (S (S (tick c)))))
    else (Ok false, (s, mkClock (reading c) (S (tick c)))).
Proof.
  unfold did_fire, mbind, M_bind, gets, zoom, now. simpl. by case_decide.
Qed.

End PeriodicTimer.
