(* ===== verification/Refs.v ===== *)
(** * References: blob/chunk.rs, the data of key/index.rs, the reference of hash/tree.rs

    [chunk]: where a chunk lives inside a blob; [key]: the metadata of a file; [tree]: a
    reference to a node of a hash tree. Each has a serialised counterpart in Models.v; the
    [from_model]/[to_model] pairs are the source's [From] instances and [to_model] methods. *)

From S2P Require Import Prelude Cbor.
From S2P Require Models.

(** ** blob/chunk.rs *)
Module chunk.

Inductive Packing := GZip | Snappy.

Inductive Key := AeadChacha20Poly1305 (key : bytes).

#[global] Instance Packing_eq_dec : EqDecision Packing.
Proof. solve_decision. Defined.

#[global] Instance Key_eq_dec : EqDecision Key.
Proof. solve_decision. Defined.

Inductive NodeType := Branch (height : Z) | Leaf.

#[global] Instance NodeType_eq_dec : EqDecision NodeType.
Proof. solve_decision. Defined.

Abbreviation LeafType := Models.LeafType (only parsing).

(** [impl From<u64> for NodeType] and back *)
Definition NodeType_from_u64 (n : Z) : NodeType :=
  match n with
  | 0%Z => Leaf
  | _ => Branch n
  end.

Definition NodeType_into_u64 (t : NodeType) : Z :=
  match t with
  | Branch height => height
  | Leaf => 0
  end.

(** [impl From<u64> for LeafType] panics on a corrupt tag. *)
Definition LeafType_from_u64 (n : Z) : res Models.LeafType :=
  match n with
  | 1 => Ok Models.FileChunk
  | 2 => Ok Models.TreeList
  | 3 => Ok Models.SnapshotList
  | _ => Panic
  end%Z.

Definition LeafType_into_u64 (t : Models.LeafType) : Z :=
  match t with
  | Models.FileChunk => 1
  | Models.TreeList => 2
  | Models.SnapshotList => 3
  end.

Record ChunkRef := mkChunkRef {
  blob_id : option Z;
  blob_name : bytes;
  offset : nat;
  length : nat;
  packing : option Packing;
  key : option Key;
}.

#[global] Instance ChunkRef_eq_dec : EqDecision ChunkRef.
Proof. solve_decision. Defined.

Definition from_model (c : Models.ChunkRef) : ChunkRef := {|
  blob_id := None;
  blob_name := Models.blob_name c;
  offset := u64_as_usize (Models.offset c);
  length := u64_as_usize (Models.length c);
  packing := match Models.packing c with
             | Models.Raw => None
             | Models.GZip => Some GZip
             | Models.Snappy => Some Snappy
             end;
  key := match Models.key c with
         | Models.NoKey => None
         | Models.AeadChacha20Poly1305 key => Some (AeadChacha20Poly1305 key)
         end;
|}.

Definition to_model (c : ChunkRef) : Models.ChunkRef := {|
  Models.blob_name := blob_name c;
  Models.offset := usize_as_u64 (offset c);
  Models.length := usize_as_u64 (length c);
  Models.packing := match packing c with
                    | None => Models.Raw
                    | Some GZip => Models.GZip
                    | Some Snappy => Models.Snappy
                    end;
  Models.key := match key c with
                | None => Models.NoKey
                | Some (AeadChacha20Poly1305 key) => Models.AeadChacha20Poly1305 key
                end;
|}.

Definition from_bytes `{Cbor Models.ChunkRef} (l : bytes) : res ChunkRef :=
  model ← decode l; Ok (from_model model).

Definition as_bytes `{Cbor Models.ChunkRef} (c : ChunkRef) : bytes := to_vec (to_model c).

Definition model_without_name (m : Models.ChunkRef) : Models.ChunkRef :=
  Models.mkChunkRef [] (Models.offset m) (Models.length m) (Models.packing m) (Models.key m).

Definition as_bytes_no_name `{Cbor Models.ChunkRef} (c : ChunkRef) : bytes :=
  to_vec (model_without_name (to_model c)).

(** The reference without the parts its serialised form drops. *)
Definition set_blob_id (i : option Z) (c : ChunkRef) : ChunkRef :=
  mkChunkRef i (blob_name c) (offset c) (length c) (packing c) (key c).
Definition set_blob_name (n : bytes) (c : ChunkRef) : ChunkRef :=
  mkChunkRef (blob_id c) n (offset c) (length c) (packing c) (key c).

Lemma chunk_from_to_model c : from_model (to_model c) = set_blob_id None c.
Proof.
  destruct c as [i n o l [[]|] [[]|]]; unfold from_model, to_model, set_blob_id; simpl;
    unfold u64_as_usize, usize_as_u64; by rewrite !Nat2Z.id.
Qed.

Lemma chunk_from_bytes_as_bytes `{CborLaws Models.ChunkRef} c :
  from_bytes (as_bytes c) = Ok (set_blob_id None c).
Proof. unfold from_bytes, as_bytes. rewrite decode_to_vec. simpl. by rewrite chunk_from_to_model. Qed.

Lemma chunk_from_bytes_no_name `{CborLaws Models.ChunkRef} c :
  from_bytes (as_bytes_no_name c) = Ok (set_blob_name [] (set_blob_id None c)).
Proof.
  unfold from_bytes, as_bytes_no_name. rewrite decode_to_vec. simpl.
  pose proof (chunk_from_to_model c) as E. unfold from_model, model_without_name in *. simpl in *.
  by injection E as -> -> -> ->.
Qed.

Lemma NodeType_from_into t : t ≠ Branch 0 → NodeType_from_u64 (NodeType_into_u64 t) = t.
Proof. destruct t as [[]|]; naive_solver. Qed.

Lemma LeafType_from_into t : LeafType_from_u64 (LeafType_into_u64 t) = Ok t.
Proof. by destruct t. Qed.

End chunk.

(** ** hash/mod.rs: [Hash] wraps the digest *)
Abbreviation Hash := (list Byte.byte) (only parsing).

(** ** The data of key/index.rs *)
Module key.

Inductive Data :=
  | FilePlaceholder
  | FileHash (hash : bytes)
  | DirPlaceholder
  | Symlink (path : bytes).

#[global] Instance Data_eq_dec : EqDecision Data.
Proof. solve_decision. Defined.

(** [fs::Permissions] is its Unix mode. *)
Record Info := mkInfo {
  name : Models.FileName;
  created_ts_secs : option Z;
  modified_ts_secs : option Z;
  accessed_ts_secs : option Z;
  permissions : option Z;
  user_id : option Z;
  group_id : option Z;
  byte_length : option Z;
  snapshot_ts_utc : Z;
}.

#[global] Instance Info_eq_dec : EqDecision Info.
Proof. solve_decision. Defined.

Record Entry := mkEntry {
  node_id : option Z;
  parent_id : option Z;
  data : Data;
  info : Info;
}.

#[global] Instance Entry_eq_dec : EqDecision Entry.
Proof. solve_decision. Defined.

(** What the code reads of a [std::fs::Metadata]. *)
Record Metadata := mkMetadata {
  creation_time : option Z;
  modification_time : Z;
  access_time : Z;
  mode : Z;
  st_uid : Z;
  st_gid : Z;
  len : Z;
}.

(** [Info::new]; [now] is the wall clock's reading. *)
Definition Info_new (now : Z) (name : Models.FileName) (meta : option Metadata) : Info := {|
  name := name;
  created_ts_secs := meta ≫= creation_time;
  modified_ts_secs := modification_time <$> meta;
  accessed_ts_secs := access_time <$> meta;
  permissions := mode <$> meta;
  user_id := st_uid <$> meta;
  group_id := st_gid <$> meta;
  byte_length := len <$> meta;
  snapshot_ts_utc := now;
|}.

Definition Entry_new (now : Z) (parent : option Z) (name : Models.FileName) (data : Data)
    (meta : option Metadata) : Entry :=
  {| node_id := None; parent_id := parent; data := data; info := Info_new now name meta |}.

Definition data_looks_unchanged (self them : Entry) : bool :=
  bool_decide (is_Some (modified_ts_secs (info self))) &&
  bool_decide ((parent_id self, name (info self), modified_ts_secs (info self))
               = (parent_id them, name (info them), modified_ts_secs (info them))).

Definition none_if_zero (x : Z) : option Z := if decide (x = 0%Z) then None else Some x.

(** [impl From<models::FileInfo> for Info] *)
Definition Info_from_model (i : Models.FileInfo) : Info := {|
  name := Models.name i;
  created_ts_secs := none_if_zero (Models.created_ts i);
  modified_ts_secs := none_if_zero (Models.modified_ts i);
  accessed_ts_secs := none_if_zero (Models.accessed_ts i);
  permissions := match Models.permissions i with
                 | Models.NoPermissions => None
                 | Models.Mode mode => Some mode
                 end;
  byte_length := none_if_zero (as_u64 (Models.byte_length i));
  user_id := match Models.owner i with
             | Models.NoOwner => None
             | Models.OwnerUserGroup ug => Some (as_u64 (Models.user_id ug))
             end;
  group_id := match Models.owner i with
              | Models.NoOwner => None
              | Models.OwnerUserGroup ug => Some (as_u64 (Models.group_id ug))
              end;
  snapshot_ts_utc := Models.snapshot_ts_utc i;
|}.

Definition Info_to_model (i : Info) : Models.FileInfo := {|
  Models.name := name i;
  Models.created_ts := default 0%Z (created_ts_secs i);
  Models.modified_ts := default 0%Z (modified_ts_secs i);
  Models.accessed_ts := default 0%Z (accessed_ts_secs i);
  Models.byte_length := as_i64 (default 0%Z (byte_length i));
  Models.owner := match user_id i, group_id i with
                  | Some user_id, Some group_id =>
                      Models.OwnerUserGroup (Models.mkUserGroup (as_i64 user_id) (as_i64 group_id))
                  | _, _ => Models.NoOwner
                  end;
  Models.permissions := match permissions i with
                        | None => Models.NoPermissions
                        | Some perm => Models.Mode perm
                        end;
  Models.snapshot_ts_utc := snapshot_ts_utc i;
|}.

(** The part of an [Info] that survives serialisation: a zero time or length reads back as
    missing, and a user without a group (or the converse) is dropped. *)
Definition drop_zero (o : option Z) : option Z := o ≫= none_if_zero.

Definition Info_norm (i : Info) : Info := {|
  name := name i;
  created_ts_secs := drop_zero (created_ts_secs i);
  modified_ts_secs := drop_zero (modified_ts_secs i);
  accessed_ts_secs := drop_zero (accessed_ts_secs i);
  permissions := permissions i;
  byte_length := drop_zero (byte_length i);
  user_id := group_id i ≫= λ _, user_id i;
  group_id := user_id i ≫= λ _, group_id i;
  snapshot_ts_utc := snapshot_ts_utc i;
|}.

(** The unsigned fields hold [u64] values. *)
Record Info_wf (i : Info) : Prop := {
  wf_len : from_option (λ z, is_u64 z) True (byte_length i);
  wf_uid : from_option (λ z, is_u64 z) True (user_id i);
  wf_gid : from_option (λ z, is_u64 z) True (group_id i);
}.

Lemma none_if_zero_default o : none_if_zero (default 0%Z o) = drop_zero o.
Proof. by destruct o. Qed.

Lemma Info_from_to_model i : Info_wf i → Info_from_model (Info_to_model i) = Info_norm i.
Proof.
  intros [Hl Hu Hg]. destruct i as [n c m a p u g l s]; simpl in *.
  unfold Info_from_model, Info_to_model, Info_norm; simpl.
  rewrite !none_if_zero_default. f_equal.
  - by destruct p.
  - destruct u, g; simpl in *; rewrite ?as_u64_as_i64; done.
  - destruct u, g; simpl in *; rewrite ?as_u64_as_i64; done.
  - destruct l; simpl in *; rewrite as_u64_as_i64; done || lia.
Qed.

Lemma drop_zero_idemp o : drop_zero (drop_zero o) = drop_zero o.
Proof. destruct o as [z|]; simpl; [|done]. unfold none_if_zero. repeat case_decide; simpl; try done.
  unfold none_if_zero. by rewrite decide_False. Qed.

Lemma Info_norm_idemp i : Info_norm (Info_norm i) = Info_norm i.
Proof.
  destruct i as [n c m a p u g l s]; unfold Info_norm; simpl. rewrite !drop_zero_idemp.
  by destruct u, g.
Qed.

End key.

(** ** The reference of hash/tree.rs *)
Module tree.

Record HashRef := mkHashRef {
  hash : bytes;
  node : chunk.NodeType;
  leaf : Models.LeafType;
  persistent_ref : chunk.ChunkRef;
  info : option key.Info;
}.

#[global] Instance HashRef_eq_dec : EqDecision HashRef.
Proof. solve_decision. Defined.

Definition from_model (v : Models.HashRef) : HashRef := {|
  hash := Models.hash v;
  node := chunk.NodeType_from_u64 (Models.height v);
  leaf := Models.leaf_type v;
  persistent_ref := chunk.from_model (Models.chunk_ref v);
  info := match Models.extra v with
          | Models.NoExtraInfo => None
          | Models.ExtraFileInfo info => Some (key.Info_from_model info)
          end;
|}.

Definition to_model (h : HashRef) : Models.HashRef := {|
  Models.hash := hash h;
  Models.chunk_ref := chunk.to_model (persistent_ref h);
  Models.height := chunk.NodeType_into_u64 (node h);
  Models.leaf_type := leaf h;
  Models.extra := match info h with
                  | Some info => Models.ExtraFileInfo (key.Info_to_model info)
                  | None => Models.NoExtraInfo
                  end;
|}.

Definition from_bytes `{Cbor Models.HashRef} (l : bytes) : res HashRef :=
  v ← decode l; Ok (from_model v).

Definition as_bytes `{Cbor Models.HashRef} (h : HashRef) : bytes := to_vec (to_model h).

Definition hash_refs_to_bytes `{Cbor Models.HashRefs} (refs : list HashRef) : bytes :=
  to_vec (Models.mkHashRefs (to_model <$> refs)).

(** The source returns [Some] on every path that returns. *)
Definition hash_refs_from_bytes `{Cbor Models.HashRefs} (l : bytes) : res (list HashRef) :=
  if decide (l = []) then Ok []
  else
    hr ← unwrap (decode l);
    Ok (from_model <$> Models.refs hr).

(** What is left of a reference once it went through its serialised form. *)
Definition norm (h : HashRef) : HashRef :=
  mkHashRef (hash h) (node h) (leaf h) (chunk.set_blob_id None (persistent_ref h))
            (key.Info_norm <$> info h).

Definition with_persistent_ref (p : chunk.ChunkRef) (h : HashRef) : HashRef :=
  mkHashRef (hash h) (node h) (leaf h) p (info h).

Definition with_info (i : option key.Info) (h : HashRef) : HashRef :=
  mkHashRef (hash h) (node h) (leaf h) (persistent_ref h) i.

(** Height 0 is the leaf's number, and the unsigned fields of the info are [u64]s. *)
Record HashRef_wf (h : HashRef) : Prop := {
  wf_node : node h ≠ chunk.Branch 0;
  wf_info : from_option key.Info_wf True (info h);
}.

Lemma href_from_to_model h : HashRef_wf h → from_model (to_model h) = norm h.
Proof.
  intros [Hn Hi]. destruct h as [ha n l p i]. unfold from_model, to_model, norm. simpl in *.
  rewrite chunk.NodeType_from_into, chunk.chunk_from_to_model by done. f_equal.
  destruct i as [i|]; simpl in *; [|done]. by rewrite key.Info_from_to_model.
Qed.

Lemma href_from_bytes_as_bytes `{CborLaws Models.HashRef} h :
  HashRef_wf h → from_bytes (as_bytes h) = Ok (norm h).
Proof.
  intros. unfold from_bytes, as_bytes. rewrite decode_to_vec. simpl. by rewrite href_from_to_model.
Qed.

Lemma hash_refs_from_to_bytes `{CborLaws Models.HashRefs} l :
  Forall HashRef_wf l → hash_refs_from_bytes (hash_refs_to_bytes l) = Ok (norm <$> l).
Proof.
  intros Hl. unfold hash_refs_from_bytes, hash_refs_to_bytes.
  rewrite decide_False by apply to_vec_nonempty.
  rewrite decode_to_vec. simpl. f_equal. rewrite <- list_fmap_compose.
  apply list_fmap_ext. intros i h Hh. simpl. apply href_from_to_model.
  eapply Forall_lookup_1; eauto.
Qed.

Lemma norm_wf h : HashRef_wf h → HashRef_wf (norm h).
Proof.
  intros [Hn Hi]. split; [done|]. destruct h as [ha n l p [i|]]; simpl in *; [|done].
  destruct Hi as [Hl Hu Hg]. split; simpl.
  - destruct (key.byte_length i) as [z|]; simpl in *; [|done]. unfold key.none_if_zero.
    by case_decide.
  - destruct (key.group_id i); simpl; [done|exact I].
  - destruct (key.user_id i); simpl; [done|exact I].
Qed.

End tree.
