(* ===== verification/Db.v ===== *)
(** * The index database: db/mod.rs, db/schema.rs and the migrations

    The tables of the SQLite database are finite maps keyed by their INTEGER PRIMARY KEY
    ([gc_metadata], whose rows the code only reaches through its unique index, by that index).
    A query without ORDER BY returns its rows in the order [map_to_list] gives: some order. A
    unique index makes an INSERT fail, which the code turns into a panic ([expect]). The
    database file holds [committed], the open transaction sees [cur]. *)

From S2P Require Import Prelude Cbor Refs Ordered Timer.
From S2P Require Models.
Import Ordered.tags (Tag, num, tag_from_num).

(** ** db/schema.rs *)
Module schema.

Record Hash := mkHash {
  hash : bytes;
  tag : Z;
  height : Z;
  leaf_type : Z;
  childs : option bytes;
  blob_id : Z;
  blob_ref : option bytes;
  ready : bool;
}.

Record GcMetadata := mkGc { gc_int : Z; gc_vec : bytes }.

Record Blob := mkBlob { b_name : bytes; b_tag : Z }.

Record Snapshot := mkSnapshot {
  s_tag : Z;
  s_family_id : Z;
  s_snapshot_id : Z;
  s_utc_datetime : Z;
  s_msg : option bytes;
  s_hash : option bytes;
  s_hash_ref : option bytes;
}.

(** The tables; [family] maps an id to its name. *)
Record Tables := mkTables {
  hashes : gmap Z Hash;
  gc_metadata : gmap (Z * Z) GcMetadata;
  blobs : gmap Z Blob;
  family : gmap Z bytes;
  snapshots : gmap Z Snapshot;
}.

Definition empty : Tables := mkTables ∅ ∅ ∅ ∅ ∅.

End schema.
Import schema.

(** ** SQL *)
Section sql.
Context {K : Type} `{Countable K} {R : Type}.

(** [SELECT .. WHERE p]: the matching rows, in no particular order. *)
Definition select (p : K → R → bool) (t : gmap K R) : list (K * R) :=
  filter (λ kr, p kr.1 kr.2 = true) (map_to_list t).

(** [UPDATE .. SET f WHERE p] *)
Definition update (p : K → R → bool) (f : R → R) (t : gmap K R) : gmap K R :=
  map_imap (λ k r, Some (if p k r then f r else r)) t.

(** [DELETE .. WHERE p] *)
Definition delete_where (p : K → R → bool) (t : gmap K R) : gmap K R :=
  filter (λ kr, p kr.1 kr.2 = false) t.

(** [INSERT]: an error if the key is taken or some row violates a unique index. *)
Definition insert_row (conflict : R → bool) (k : K) (r : R) (t : gmap K R) : res (gmap K R) :=
  match t !! k, select (λ _ r, conflict r) t with
  | None, [] => Ok (<[k := r]> t)
  | _, _ => Err DieselError
  end.

Lemma elem_of_select p t k r : (k, r) ∈ select p t ↔ t !! k = Some r ∧ p k r = true.
Proof. unfold select. rewrite list_elem_of_filter, elem_of_map_to_list. naive_solver. Qed.

Lemma lookup_update p f t k :
  update p f t !! k = (λ r, if p k r then f r else r) <$> t !! k.
Proof. unfold update. rewrite map_lookup_imap. by destruct (t !! k). Qed.

Lemma lookup_delete_where p t k r :
  delete_where p t !! k = Some r ↔ t !! k = Some r ∧ p k r = false.
Proof. unfold delete_where. by rewrite map_lookup_filter_Some. Qed.

(** Where at most one row can match, it is the one selected. *)
Lemma head_select_unique p t k r :
  t !! k = Some r → p k r = true →
  (∀ k' r', t !! k' = Some r' → p k' r' = true → k' = k) →
  head (select p t) = Some (k, r).
Proof.
  intros Hk Hp Hu. destruct (select p t) as [|[k' r'] l] eqn:E.
  - assert ((k, r) ∈ select p t) as Hin by (by apply elem_of_select).
    rewrite E in Hin. by apply elem_of_nil in Hin.
  - assert ((k', r') ∈ select p t) as Hin by (rewrite E; by constructor).
    apply elem_of_select in Hin as [Hk' Hp']. pose proof (Hu _ _ Hk' Hp'). subst k'.
    simpl. congruence.
Qed.

Lemma select_nil p t : select p t = [] ↔ ∀ k r, t !! k = Some r → p k r = false.
Proof.
  split.
  - intros E k r Hk. destruct (p k r) eqn:Hp; [|done].
    assert ((k, r) ∈ select p t) as Hin by (by apply elem_of_select).
    rewrite E in Hin. by apply elem_of_nil in Hin.
  - intros Hall. destruct (select p t) as [|[k r] l] eqn:E; [done|].
    assert ((k, r) ∈ select p t) as Hin by (rewrite E; by constructor).
    apply elem_of_select in Hin as [Hk Hp]. rewrite (Hall _ _ Hk) in Hp. done.
Qed.

Lemma insert_row_Ok conflict k r t :
  t !! k = None → (∀ k' r', t !! k' = Some r' → conflict r' = false) →
  insert_row conflict k r t = Ok (<[k := r]> t).
Proof. intros Hk Hc. unfold insert_row. rewrite Hk.
  destruct (select_nil (λ _ r, conflict r) t) as [_ E]. by rewrite E. Qed.

End sql.

(** [ORDER BY f DESC] *)
Definition desc {A} (f : A → Z) (a b : A) : Prop := (f b ≤ f a)%Z.

#[global] Instance desc_dec {A} (f : A → Z) : RelDecision (desc f).
Proof. unfold desc. intros ??. apply _. Defined.

Definition order_desc {A} (f : A → Z) (l : list A) : list A := merge_sort (desc f) l.

(** [SELECT max(id)] *)
Definition max_key {R} (t : gmap Z R) : option Z :=
  foldr (λ kr acc, Some (match acc with None => kr.1 | Some m => kr.1 `max` m end))%Z None
    (map_to_list t).

Lemma max_key_bound {R} (t : gmap Z R) k r :
  t !! k = Some r → ∃ m, max_key t = Some m ∧ (k ≤ m)%Z.
Proof.
  intros Hk%elem_of_map_to_list. unfold max_key. revert Hk.
  induction (map_to_list t) as [|[k' r'] l IH]; [by intros ?%elem_of_nil|].
  simpl. destruct (foldr _ None l) as [m|]; intros [[= -> ->]|Hin]%elem_of_cons.
  - eexists. split; [done|]. lia.
  - destruct (IH Hin) as (m' & [= ->] & Hm). eexists. split; [done|]. lia.
  - eexists. split; [done|]. lia.
  - destruct (IH Hin) as (m' & ? & Hm). done.
Qed.

Lemma max_key_in {R} (t : gmap Z R) m : max_key t = Some m → ∃ r, t !! m = Some r.
Proof.
  intros Hm. cut (∃ r, (m, r) ∈ map_to_list t).
  { intros [r Hr]. exists r. by apply elem_of_map_to_list. }
  unfold max_key in Hm. revert m Hm. induction (map_to_list t) as [|[k r] l IH]; [done|].
  simpl. intros m. destruct (foldr _ None l) as [m'|]; intros [= <-].
  - destruct (IH m' eq_refl) as [h Hh]. destruct (Z.max_spec k m') as [[_ ->]|[_ ->]].
    + exists h. by right.
    + exists r. left.
  - exists r. left.
Qed.

(** ** db/mod.rs *)

(** blob/index.rs: the name and id of a blob. *)
Record BlobDesc := mkBlobDesc { name : bytes; id : Z }.

#[global] Instance BlobDesc_eq_dec : EqDecision BlobDesc.
Proof. solve_decision. Defined.

Definition encode_childs `{Cbor Models.HashIds} (childs : list Z) : bytes :=
  to_vec (Models.mkHashIds childs).

Definition decode_childs `{Cbor Models.HashIds} (l : bytes) : res (list Z) :=
  model ← decode l; Ok (Models.ids model).

Definition decode_chunk_ref `{Cbor Models.ChunkRef} (cref : option bytes) (blob : option Blob)
    : res (option chunk.ChunkRef) :=
  match cref with
  | None => Ok None
  | Some c =>
      r ← unwrap (chunk.from_bytes c);
      name ← if decide (0 < chunk.length r) then blob ← expect blob; Ok (b_name blob)
             else Ok [Byte.x00];
      Ok (Some (chunk.set_blob_name name r))
  end.

Record GcData := mkGcData { g_num : Z; g_bytes : bytes }.

Abbreviation UpdateFn := (GcData → option GcData).

Record SnapshotInfo := mkSnapshotInfo { unique_id : Z; family_id : Z; snapshot_id : Z }.

#[global] Instance SnapshotInfo_eq_dec : EqDecision SnapshotInfo.
Proof. solve_decision. Defined.

Inductive SnapshotWorkStatus :=
  | CommitInProgress | CommitComplete | DeleteInProgress | DeleteComplete | RecoverInProgress.

#[global] Instance SnapshotWorkStatus_eq_dec : EqDecision SnapshotWorkStatus.
Proof. solve_decision. Defined.

Record SnapshotStatus := mkSnapshotStatus {
  st_family_name : bytes;
  st_info : SnapshotInfo;
  st_hash : option bytes;
  st_hash_ref : option bytes;
  st_created : Z;
  st_msg : option bytes;
  st_status : SnapshotWorkStatus;
}.

Definition tag_to_work_status (tag : Tag) : SnapshotWorkStatus :=
  match tag with
  | tags.Reserved | tags.InProgress => CommitInProgress
  | tags.Complete | tags.Done => CommitComplete
  | tags.WillDelete => DeleteInProgress
  | tags.ReadyDelete | tags.DeleteComplete => DeleteComplete
  | tags.RecoverInProgress => RecoverInProgress
  end.

Definition work_status_to_tag (status : SnapshotWorkStatus) : Tag :=
  match status with
  | CommitInProgress => tags.InProgress
  | CommitComplete => tags.Done
  | DeleteInProgress => tags.WillDelete
  | DeleteComplete => tags.DeleteComplete
  | RecoverInProgress => tags.RecoverInProgress
  end.

Record Entry := mkEntry {
  e_hash : bytes;
  e_node : chunk.NodeType;
  e_leaf : Models.LeafType;
  e_childs : option (list Z);
  e_persistent_ref : option chunk.ChunkRef;
  e_ready : bool;
}.

Record QueueEntry := mkQueueEntry {
  q_id : Z;
  q_node : chunk.NodeType;
  q_leaf : Models.LeafType;
  q_childs : option (list Z);
  q_persistent_ref : option chunk.ChunkRef;
  q_tag : option Tag;
}.

#[global] Instance QueueEntry_eq_dec : EqDecision QueueEntry.
Proof. solve_decision. Defined.

(** [conn] is [cur] (what the open transaction sees), [committed] (the file) and the rowid of
    the connection's last INSERT; the two clocks stand for the operating system's. *)
Record InternalIndex := mkIndex {
  cur : Tables;
  committed : Tables;
  last_rowid : Z;
  hash_id_counter : Counter.Counter;
  flush_timer : PeriodicTimer.PeriodicTimer;
  flush_periodically : bool;
  steady_clock : Clock;
  utc_clock : Clock;
}.

Definition cur_lens : lens InternalIndex Tables :=
  Lens cur (λ t i, mkIndex t (committed i) (last_rowid i) (hash_id_counter i) (flush_timer i)
    (flush_periodically i) (steady_clock i) (utc_clock i)).
Definition hashes_lens : lens Tables (gmap Z Hash) :=
  Lens hashes (λ x t, mkTables x (gc_metadata t) (blobs t) (family t) (snapshots t)).
Definition gc_lens : lens Tables (gmap (Z * Z) GcMetadata) :=
  Lens gc_metadata (λ x t, mkTables (hashes t) x (blobs t) (family t) (snapshots t)).
Definition blobs_lens : lens Tables (gmap Z Blob) :=
  Lens blobs (λ x t, mkTables (hashes t) (gc_metadata t) x (family t) (snapshots t)).
Definition family_lens : lens Tables (gmap Z bytes) :=
  Lens family (λ x t, mkTables (hashes t) (gc_metadata t) (blobs t) x (snapshots t)).
Definition snapshots_lens : lens Tables (gmap Z Snapshot) :=
  Lens snapshots (λ x t, mkTables (hashes t) (gc_metadata t) (blobs t) (family t) x).

Definition on_hashes {A} (m : M (gmap Z Hash) A) : M InternalIndex A :=
  zoom cur_lens (zoom hashes_lens m).
Definition on_gc {A} (m : M (gmap (Z * Z) GcMetadata) A) : M InternalIndex A :=
  zoom cur_lens (zoom gc_lens m).
Definition on_blobs {A} (m : M (gmap Z Blob) A) : M InternalIndex A :=
  zoom cur_lens (zoom blobs_lens m).
Definition on_family {A} (m : M (gmap Z bytes) A) : M InternalIndex A :=
  zoom cur_lens (zoom family_lens m).
Definition on_snapshots {A} (m : M (gmap Z Snapshot) A) : M InternalIndex A :=
  zoom cur_lens (zoom snapshots_lens m).

(** [INSERT .. expect(..)]; the connection remembers the rowid. *)
Definition set_last_rowid (i : Z) (x : InternalIndex) : InternalIndex :=
  mkIndex (cur x) (committed x) i (hash_id_counter x) (flush_timer x)
    (flush_periodically x) (steady_clock x) (utc_clock x).

Definition insert_into {K R} `{Countable K} (conflict : R → bool) (k : K) (r : R)
    : M (gmap K R) unit := λ t,
  match unwrap (insert_row conflict k r t) with
  | Ok t' => (Ok (), t')
  | Err e => (Err e, t)
  | Panic => (Panic, t)
  | Diverge => (Diverge, t)
  end.

(** The rowid SQLite gives a row inserted without one: one more than the largest. *)
Definition next_rowid {R} (t : gmap Z R) : Z := default 0%Z (max_key t) + 1.

Abbreviation DB := (M InternalIndex).

Section Index.
Context `{Cbor Models.ChunkRef} `{Cbor Models.HashIds} `{Cbor Models.HashRef}.



(** *** The transaction *)

Definition flush : DB unit :=
  modify (λ x, mkIndex (cur x) (cur x) (last_rowid x) (hash_id_counter x) (flush_timer x)
    (flush_periodically x) (steady_clock x) (utc_clock x)).

(** The process stops without a [flush]: the next one starts from the file. *)
Definition crash (x : InternalIndex) : Tables := committed x.

Definition timer_lens : lens InternalIndex (PeriodicTimer.PeriodicTimer * Clock) :=
  Lens (λ x, (flush_timer x, steady_clock x))
    (λ tc x, mkIndex (cur x) (committed x) (last_rowid x) (hash_id_counter x) tc.1
       (flush_periodically x) tc.2 (utc_clock x)).

Definition maybe_flush : DB unit :=
  x ← get;
  if flush_periodically x then
    fired ← zoom timer_lens PeriodicTimer.did_fire;
    if fired : bool then flush else mret ()
  else mret ().

Definition set_auto_flush (enabled : bool) : DB unit :=
  modify (λ x, mkIndex (cur x) (committed x) (last_rowid x) (hash_id_counter x) (flush_timer x)
    enabled (steady_clock x) (utc_clock x)).

(** *** Hashes *)

Definition counter_lens : lens InternalIndex Counter.Counter :=
  Lens hash_id_counter (λ c x, mkIndex (cur x) (committed x) (last_rowid x) c (flush_timer x)
    (flush_periodically x) (steady_clock x) (utc_clock x)).

Definition hash_refresh_id_counter : DB unit :=
  id_opt ← on_hashes (gets max_key);
  zoom counter_lens (modify (λ _, Counter.new (default 0%Z id_opt))).

Definition hash_next_id : DB Z :=
  i ← zoom counter_lens Counter.next;
  mret (as_u64 i).

(** [InternalIndex::new] on the tables of the database file (the migrations create the missing
    ones); the interval is ten seconds, in the clock's unit. *)
Definition InternalIndex_new (file : Tables) (ten_seconds : Z) (steady utc : Clock)
    : res InternalIndex :=
  let '(t, steady) := PeriodicTimer.new ten_seconds steady in
  t ← t;
  let idx := mkIndex file file 0 (Counter.new 0) t true steady utc in
  let '(r, idx) := hash_refresh_id_counter idx in
  r ;; Ok idx.

(** [hashes LEFT OUTER JOIN blobs]: the blob of a row, if there is one. *)
Definition joined_blob (t : Tables) (h : Hash) : option Blob := blobs t !! blob_id h.

Definition childs_of_row (h : Hash) : res (option (list Z)) :=
  match childs h with
  | None => Ok None
  | Some b => if decide (b = []) then Ok None else v ← unwrap (decode_childs b); Ok (Some v)
  end.

Definition queue_entry_of_row (t : Tables) (id : Z) (h : Hash) : res QueueEntry :=
  childs_ ← childs_of_row h;
  persistent_ref ← decode_chunk_ref (blob_ref h) (joined_blob t h);
  leaf ← chunk.LeafType_from_u64 (as_u64 (leaf_type h));
  Ok {| q_id := as_u64 id; q_node := chunk.NodeType_from_u64 (as_u64 (height h));
        q_leaf := leaf; q_childs := childs_; q_persistent_ref := persistent_ref;
        q_tag := tag_from_num (tag h) |}.

Definition hash_locate (hash_ : bytes) : DB (option QueueEntry) :=
  lift (assert_ (hash_ ≠ [])) ;;
  t ← gets cur;
  lift (match head (select (λ _ h, bool_decide (hash h = hash_)) (hashes t)) with
  | None => Ok None
  | Some (id, h) => e ← queue_entry_of_row t id h; Ok (Some e)
  end).

Definition hash_locate_by_id (id_ : Z) : DB (option Entry) :=
  t ← gets cur;
  lift (match hashes t !! as_i64 id_ with
  | None => Ok None
  | Some h =>
      leaf ← chunk.LeafType_from_u64 (as_u64 (leaf_type h));
      childs_ ← childs_of_row h;
      persistent_ref ← decode_chunk_ref (blob_ref h) (joined_blob t h);
      Ok (Some {| e_hash := hash h; e_node := chunk.NodeType_from_u64 (as_u64 (height h));
                  e_leaf := leaf; e_childs := childs_; e_persistent_ref := persistent_ref;
                  e_ready := ready h |})
  end).

(** The row [hash_insert_new] inserts. *)
Definition new_row (hash_bytes : bytes) (entry : QueueEntry) : Hash := {|
  hash := hash_bytes;
  tag := num (default tags.Done (q_tag entry));
  height := as_i64 (chunk.NodeType_into_u64 (q_node entry));
  leaf_type := as_i64 (chunk.LeafType_into_u64 (q_leaf entry));
  childs := encode_childs <$> q_childs entry;
  blob_id := default 0%Z (q_persistent_ref entry ≫= chunk.blob_id);
  blob_ref := chunk.as_bytes_no_name <$> q_persistent_ref entry;
  ready := false |}.

Definition hash_insert_new (id_ : Z) (hash_bytes : bytes) (entry : QueueEntry) : DB unit :=
  on_hashes (insert_into (λ h, bool_decide (hash h = hash_bytes)) (as_i64 id_)
    (new_row hash_bytes entry)) ;;
  modify (set_last_rowid (as_i64 id_)).

Definition set_tag (t : Z) (h : Hash) : Hash :=
  mkHash (hash h) t (height h) (leaf_type h) (childs h) (blob_id h) (blob_ref h) (ready h).

Definition hash_set_tag (id_opt : option Z) (tag_ : Tag) : DB unit :=
  on_hashes (modify (update (λ id _,
    match id_opt with None => true | Some id_ => bool_decide (id = as_i64 id_) end)
    (set_tag (num tag_)))).

Definition hash_delete_not_ready : DB unit :=
  on_hashes (modify (delete_where (λ _ h, negb (ready h)))).

Definition hash_set_ready (id_ : Z) (entry : QueueEntry) : DB unit :=
  pref ← lift (expect (q_persistent_ref entry));
  let blob_ref_ := chunk.as_bytes_no_name pref in
  blob_id_ ← lift (expect (chunk.blob_id pref));
  let childs_ := encode_childs <$> q_childs entry in
  on_hashes (modify (update (λ id _, bool_decide (id = as_i64 id_)) (λ h,
    {| hash := hash h; tag := tag h;
       height := as_i64 (chunk.NodeType_into_u64 (q_node entry));
       leaf_type := as_i64 (chunk.LeafType_into_u64 (q_leaf entry));
       childs := childs_; blob_id := blob_id_; blob_ref := Some blob_ref_;
       ready := true |}))).

Definition hash_get_tag (id_ : Z) : DB (option Tag) :=
  t ← on_hashes (gets (λ t, t !! as_i64 id_));
  mret (t ≫= λ h, tag_from_num (tag h)).

(** ORDER BY height DESC: of the rows with the tag, the highest first. *)
Definition hash_list_ids_by_tag (tag_ : Z) : DB (list Z) :=
  rows ← on_hashes (gets (select (λ _ h, bool_decide (tag h = as_i64 tag_))));
  let sorted := order_desc (λ r : Z * Hash, height r.2) rows in
  mret ((λ r : Z * Hash, as_u64 r.1) <$> sorted).

(** *** Metadata of the garbage collector *)

Definition hash_read_gc_data (hash_id_ family_id_ : Z) : DB GcData :=
  row ← on_gc (gets (λ t, t !! (as_i64 hash_id_, as_i64 family_id_)));
  mret (match row with
        | None => mkGcData 0 []
        | Some row => mkGcData (gc_int row) (gc_vec row)
        end).

(** An UPDATE, then an INSERT when no row was there. *)
Definition hash_set_gc_data (hash_id_ family_id_ : Z) (data : GcData) : DB unit :=
  let k := (as_i64 hash_id_, as_i64 family_id_) in
  row ← on_gc (gets (λ t, t !! k));
  match row with
  | Some _ => on_gc (modify (update (λ k' _, bool_decide (k' = k))
                (λ _, mkGc (g_num data) (g_bytes data))))
  | None => on_gc (insert_into (λ _, false) k (mkGc (g_num data) (g_bytes data)))
  end.

Definition hash_delete_gc_data (hash_id_ family_id_ : Z) : DB unit :=
  on_gc (modify (delete_where (λ k _,
    bool_decide (k = (as_i64 hash_id_, as_i64 family_id_))))).

Definition hash_update_gc_data (hash_id family_id : Z) (f : UpdateFn) : DB GcData :=
  data ← hash_read_gc_data hash_id family_id;
  match f data with
  | None => hash_delete_gc_data hash_id family_id ;; mret data
  | Some new => hash_set_gc_data hash_id family_id new ;; mret new
  end.

(** One function is taken from the iterator [fns] for each row of the family. *)
Fixpoint update_gc_rows (family_id_ : Z) (hash_ids : list Z) (fns : list UpdateFn) : DB unit :=
  match hash_ids, fns with
  | [], _ => mret ()
  | _ :: _, [] => panic
  | hash_id_ :: hash_ids, f :: fns =>
      hash_update_gc_data (as_u64 hash_id_) family_id_ f ;;
      update_gc_rows family_id_ hash_ids fns
  end.

Definition hash_update_family_gc_data (family_id_ : Z) (fns : list UpdateFn) : DB unit :=
  rows ← on_gc (gets (select (λ k _, bool_decide (k.2 = as_i64 family_id_))));
  update_gc_rows family_id_ ((λ r : Z * Z * GcMetadata, r.1.1) <$> rows) fns.

Definition entry_of_row (t : Tables) (h : Hash) : res Entry :=
  leaf ← chunk.LeafType_from_u64 (as_u64 (leaf_type h));
  childs_ ← match childs h with
            | None => Ok None
            | Some p => v ← unwrap (decode_childs p); Ok (Some v)
            end;
  persistent_ref ← decode_chunk_ref (blob_ref h) (joined_blob t h);
  Ok {| e_hash := hash h; e_node := chunk.NodeType_from_u64 (as_u64 (height h)); e_leaf := leaf;
        e_childs := childs_; e_persistent_ref := persistent_ref; e_ready := ready h |}.

Fixpoint res_map {A B} (f : A → res B) (l : list A) : res (list B) :=
  match l with
  | [] => Ok []
  | x :: l => y ← f x; ys ← res_map f l; Ok (y :: ys)
  end.

Definition hash_list : DB (list Entry) :=
  t ← gets cur;
  lift (res_map (λ r : Z * Hash, entry_of_row t r.2) (map_to_list (hashes t))).

Definition hash_delete (id_ : Z) : DB unit :=
  on_hashes (modify (delete (as_i64 id_))) ;;
  on_gc (modify (delete_where (λ k _, bool_decide (k.1 = as_i64 id_)))).

(** *** Blobs *)

Definition blob_next_id : DB Z :=
  m ← on_blobs (gets max_key);
  mret (default 0%Z m).

Definition blob_in_air (blob : BlobDesc) : DB unit :=
  on_blobs (insert_into (λ b, bool_decide (b_name b = name blob)) (id blob)
    (mkBlob (name blob) (num tags.InProgress))) ;;
  modify (set_last_rowid (id blob)) ;;
  flush.

Definition set_blob_tag (t : Z) (b : Blob) : Blob := mkBlob (b_name b) t.

Definition blob_commit (blob : BlobDesc) : DB unit :=
  on_blobs (modify (update (λ i _, bool_decide (i = id blob)) (set_blob_tag (num tags.Done)))) ;;
  flush.

Definition blob_id_from_name (name_ : bytes) : DB (option Z) :=
  rows ← on_blobs (gets (select (λ _ b, bool_decide (b_name b = name_))));
  mret (fst <$> head rows).

Definition blob_set_tag (tag_ : Tag) (target : option BlobDesc) : DB unit :=
  match target with
  | None => on_blobs (modify (update (λ _ _, true) (set_blob_tag (num tag_))))
  | Some t =>
      if decide (0 < id t)%Z then
        on_blobs (modify (update (λ i _, bool_decide (i = id t)) (set_blob_tag (num tag_))))
      else if decide (name t ≠ []) then
        on_blobs (modify (update (λ _ b, bool_decide (b_name b = name t))
          (set_blob_tag (num tag_))))
      else panic
  end.

Definition blob_delete_by_tag (tag_ : Tag) : DB unit :=
  on_blobs (modify (delete_where (λ _ b, bool_decide (b_tag b = num tag_)))).

(** ORDER BY id DESC *)
Definition blob_list_by_tag (tag_ : Tag) : DB (list BlobDesc) :=
  rows ← on_blobs (gets (select (λ _ b, bool_decide (b_tag b = num tag_))));
  let sorted := order_desc (λ r : Z * Blob, r.1) rows in
  mret ((λ r : Z * Blob, mkBlobDesc (b_name r.2) r.1) <$> sorted).

(** *** Families and snapshots *)

Definition family_id_from_name (name_ : bytes) : DB (option Z) :=
  rows ← on_family (gets (select (λ _ n, bool_decide (n = name_))));
  mret (fst <$> head rows).

Definition snapshot_delete (info : SnapshotInfo) : DB unit :=
  on_snapshots (modify (delete_where (λ i s,
    bool_decide (i = as_i64 (unique_id info)) &&
    bool_decide (s_family_id s = as_i64 (family_id info)) &&
    bool_decide (s_snapshot_id s = as_i64 (snapshot_id info))))).

(** An INSERT that lets SQLite choose the rowid; it is what [last_insert_rowid()] returns. *)
Definition insert_auto {R} (l : lens Tables (gmap Z R)) (r : R) : DB unit :=
  i ← zoom cur_lens (zoom l (gets next_rowid));
  zoom cur_lens (zoom l (insert_into (λ _, false) i r)) ;;
  modify (set_last_rowid i).

Definition get_or_create_family_id (name_ : bytes) : DB Z :=
  id_opt ← family_id_from_name name_;
  match id_opt with
  | Some id => mret id
  | None => insert_auto family_lens name_ ;; gets last_rowid
  end.

Definition snapshot_latest_id (family_id_ : Z) : DB (option Z) :=
  rows ← on_snapshots (gets (select (λ _ s, bool_decide (s_family_id s = family_id_))));
  mret (foldr (λ r acc, Some (match acc with
    None => s_snapshot_id r.2 | Some m => s_snapshot_id r.2 `max` m end))%Z None rows).

Definition info_of_row (i : Z) (s : Snapshot) : SnapshotInfo :=
  mkSnapshotInfo (as_u64 i) (as_u64 (s_family_id s)) (as_u64 (s_snapshot_id s)).

(** [hash_ref.and_then(|r| HashRef::from_bytes(..).ok())] *)
Definition href_of_row (s : Snapshot) : res (option tree.HashRef) :=
  match s_hash_ref s with
  | None => Ok None
  | Some r => res_ok (tree.from_bytes r)
  end.

Definition found (r : option (Z * Snapshot))
    : res (option (SnapshotInfo * bytes * option tree.HashRef)) :=
  match r with
  | None => Ok None
  | Some (i, s) =>
      h ← expect (s_hash s);
      href ← href_of_row s;
      Ok (Some (info_of_row i s, h, href))
  end.

(** [snapshots INNER JOIN family]: the rows whose family exists, with its name. *)
Definition snapshot_lookup (family_name_ : bytes) (snapshot_id_ : Z)
    : DB (option (SnapshotInfo * bytes * option tree.HashRef)) :=
  t ← gets cur;
  let rows := select (λ _ s,
    bool_decide (family t !! s_family_id s = Some family_name_) &&
    bool_decide (s_snapshot_id s = as_i64 snapshot_id_)) (snapshots t) in
  lift (found (head rows)).

Definition utc_lens : lens InternalIndex Clock :=
  Lens utc_clock (λ c x, mkIndex (cur x) (committed x) (last_rowid x) (hash_id_counter x)
    (flush_timer x) (flush_periodically x) (steady_clock x) c).

(** [1 + latest] is an [i64] addition, wrapping as in a release build. *)
Definition snapshot_reserve (family_ : bytes) : DB SnapshotInfo :=
  family_id_ ← get_or_create_family_id family_;
  latest ← snapshot_latest_id family_id_;
  let snapshot_id_ := as_i64 (1 + default 0 latest)%Z in
  utc ← zoom utc_lens now;
  insert_auto snapshots_lens
    (mkSnapshot (num tags.Reserved) family_id_ snapshot_id_ utc None None None) ;;
  unique_id_ ← gets last_rowid;
  mret (mkSnapshotInfo (as_u64 unique_id_) (as_u64 family_id_) (as_u64 snapshot_id_)).

Definition snapshot_update (snapshot_ : SnapshotInfo) (msg_ hash_ : bytes)
    (hash_ref_ : tree.HashRef) : DB unit :=
  on_snapshots (modify (update (λ i _, bool_decide (i = as_i64 (unique_id snapshot_))) (λ s,
    mkSnapshot (s_tag s) (s_family_id s) (s_snapshot_id s) (s_utc_datetime s)
      (Some msg_) (Some hash_) (Some (tree.as_bytes hash_ref_))))).

Definition snapshot_set_tag (snapshot_ : SnapshotInfo) (tag_ : Tag) : DB unit :=
  on_snapshots (modify (update (λ i _, bool_decide (i = as_i64 (unique_id snapshot_))) (λ s,
    mkSnapshot (num tag_) (s_family_id s) (s_snapshot_id s) (s_utc_datetime s)
      (s_msg s) (s_hash s) (s_hash_ref s)))).

(** ORDER BY snapshot_id DESC, the first row. *)
Definition snapshot_latest (family_name : bytes)
    : DB (option (SnapshotInfo * bytes * option tree.HashRef)) :=
  family_id_opt ← family_id_from_name family_name;
  match family_id_opt with
  | None => mret None
  | Some family_id_ =>
      rows ← on_snapshots (gets (select (λ _ s, bool_decide (s_family_id s = family_id_))));
      let sorted := order_desc (λ r : Z * Snapshot, s_snapshot_id r.2) rows in
      lift (found (head sorted))
  end.

Definition status_of_row (t : Tables) (r : Z * Snapshot) : option SnapshotStatus :=
  let '(i, snap) := r in
  fam ← family t !! s_family_id snap;
  Some {|
    st_family_name := fam;
    st_info := info_of_row i snap;
    st_hash := s_hash snap ≫= (λ l, if decide (l = []) then None else Some l);
    st_hash_ref := s_hash_ref snap;
    st_created := s_utc_datetime snap;
    st_msg := s_msg snap;
    st_status := from_option tag_to_work_status CommitComplete (tag_from_num (s_tag snap)) |}.

Definition snapshot_list (skip_tag : option Tag) : DB (list SnapshotStatus) :=
  t ← gets cur;
  let rows := select (λ _ s,
    match skip_tag with None => true | Some skip => bool_decide (s_tag s ≠ num skip) end)
    (snapshots t) in
  mret (omap (status_of_row t) rows).

Definition snapshot_recover (snapshot_id_ : Z) (family_name : bytes) (created : Z) (msg_ : bytes)
    (hash_ref_ : tree.HashRef) (work_opt_ : option SnapshotWorkStatus) : DB unit :=
  family_id_ ← get_or_create_family_id family_name;
  found ← snapshot_lookup family_name snapshot_id_;
  match found with
  | Some (_, h, _) => if decide (h ≠ tree.hash hash_ref_) then panic else mret ()
  | None =>
      insert_auto snapshots_lens
        (mkSnapshot (num (from_option work_status_to_tag tags.Done work_opt_)) family_id_
          (as_i64 snapshot_id_) created (Some msg_) (Some (tree.hash hash_ref_))
          (Some (tree.as_bytes hash_ref_)))
  end.

End Index.

(** ** The invariant of the database *)

Definition unique_hashes (t : gmap Z Hash) : Prop :=
  ∀ i j a b, t !! i = Some a → t !! j = Some b → hash a = hash b → i = j.

Definition unique_names (t : gmap Z Blob) : Prop :=
  ∀ i j a b, t !! i = Some a → t !! j = Some b → b_name a = b_name b → i = j.

(** The snapshots of a family have different numbers. *)
Definition unique_snapshots (t : gmap Z Snapshot) : Prop :=
  ∀ i j a b, t !! i = Some a → t !! j = Some b →
    s_family_id a = s_family_id b → s_snapshot_id a = s_snapshot_id b → i = j.

(** Two families have different names. *)
Definition unique_families (t : gmap Z bytes) : Prop :=
  ∀ i j a, t !! i = Some a → t !! j = Some a → i = j.

Record Tables_ok (t : Tables) : Prop := {
  tables_hashes : unique_hashes (hashes t);
  tables_blobs : unique_names (blobs t);
  tables_snapshots : unique_snapshots (snapshots t);
  tables_families : unique_families (family t);
}.

(** Both the open transaction and the file are well-formed, and no hash has an id that the
    counter may still give. *)
Record Index_ok (x : InternalIndex) : Prop := {
  index_cur : Tables_ok (cur x);
  index_committed : Tables_ok (committed x);
  index_counter : ∀ i h, hashes (cur x) !! i = Some h →
    (0 < i ≤ Counter.previous (hash_id_counter x))%Z;
  index_counter_pos : (0 ≤ Counter.previous (hash_id_counter x))%Z;
}.

Section lemmas.
Context `{CborLaws Models.ChunkRef} `{CborLaws Models.HashIds} `{CborLaws Models.HashRef}.

Lemma on_hashes_modify f x :
  on_hashes (modify f) x =
    (Ok (), lset cur_lens (lset hashes_lens (f (hashes (cur x))) (cur x)) x).
Proof. done. Qed.

Lemma insert_into_Ok {K R} `{Countable K} conflict (k : K) (r : R) t :
  t !! k = None → (∀ k' r', t !! k' = Some r' → conflict r' = false) →
  insert_into conflict k r t = (Ok (), <[k := r]> t).
Proof. intros Hk Hc. unfold insert_into. by rewrite insert_row_Ok. Qed.

(** *** Looking up a hash *)

Lemma hash_locate_row bs id h x :
  bs ≠ [] → unique_hashes (hashes (cur x)) → hashes (cur x) !! id = Some h → hash h = bs →
  hash_locate bs x = (e ← queue_entry_of_row (cur x) id h; Ok (Some e), x).
Proof.
  intros Hbs Hu Hid <-. unfold hash_locate. run_assert done. run_pure.
  rewrite (head_select_unique _ _ id h); [done|done|by rewrite bool_decide_eq_true|].
  intros k' r' Hk' Hb%bool_decide_eq_true. by eapply Hu.
Qed.

Lemma hash_locate_none bs x :
  bs ≠ [] → (∀ i h, hashes (cur x) !! i = Some h → hash h ≠ bs) →
  hash_locate bs x = (Ok None, x).
Proof.
  intros Hbs Hn. unfold hash_locate. run_assert done. run_pure.
  rewrite (proj2 (select_nil _ _)); [done|]. intros i h Hi. apply bool_decide_eq_false. eauto.
Qed.

Lemma childs_of_encoded c t hg lt bi br rd bs :
  childs_of_row (mkHash bs t hg lt (encode_childs <$> c) bi br rd) = Ok c.
Proof.
  destruct c as [c|]; [|done]. unfold childs_of_row, encode_childs. simpl.
  rewrite decide_False by apply to_vec_nonempty.
  unfold decode_childs. by rewrite decode_to_vec.
Qed.

Lemma hash_insert_new_run id bs e x :
  (0 ≤ id < 2 ^ 63)%Z → hashes (cur x) !! id = None →
  (∀ i h, hashes (cur x) !! i = Some h → hash h ≠ bs) →
  hash_insert_new id bs e x =
    (Ok (), set_last_rowid id
      (lset cur_lens (lset hashes_lens (<[id := new_row bs e]> (hashes (cur x))) (cur x)) x)).
Proof.
  intros Hid Hk Hn. unfold hash_insert_new, on_hashes. rewrite as_i64_id by lia.
  erewrite bind_zoom; [done|]. apply zoom_Ok, insert_into_Ok; [done|].
  intros k' r' Hk'. apply bool_decide_eq_false. by eapply Hn.
Qed.

(** A reference as it is read back: with the name of its blob, without its id. *)
Definition located_ref (name : bytes) (r : chunk.ChunkRef) : chunk.ChunkRef :=
  chunk.set_blob_name (if decide (0 < chunk.length r) then name else [Byte.x00])
    (chunk.set_blob_id None r).

Lemma decode_chunk_ref_no_name r b :
  (0 < chunk.length r → is_Some b) →
  decode_chunk_ref (Some (chunk.as_bytes_no_name r)) b =
    Ok (Some (located_ref (from_option b_name [] b) r)).
Proof.
  intros Hb. unfold decode_chunk_ref, located_ref. rewrite chunk.chunk_from_bytes_no_name.
  cbn [unwrap mbind res_bind chunk.set_blob_name chunk.set_blob_id chunk.length].
  case_decide; [|done]. by destruct Hb as [b' ->].
Qed.

Lemma LeafType_row l : chunk.LeafType_from_u64 (as_u64 (as_i64 (chunk.LeafType_into_u64 l))) = Ok l.
Proof. by destruct l. Qed.

Lemma NodeType_row n :
  n ≠ chunk.Branch 0 → is_u64 (chunk.NodeType_into_u64 n) →
  chunk.NodeType_from_u64 (as_u64 (as_i64 (chunk.NodeType_into_u64 n))) = n.
Proof. intros Hn Hr. rewrite as_u64_as_i64 by done. by apply chunk.NodeType_from_into. Qed.

End lemmas.

(** ** Every operation keeps the invariant *)
Section invariant.
Context `{Cbor Models.ChunkRef} `{Cbor Models.HashIds} `{Cbor Models.HashRef}.

Lemma insert_into_inv {K R} `{Countable K} conflict (k : K) (r : R) t q t' :
  insert_into conflict k r t = (q, t') →
  (q = Panic ∧ t' = t) ∨
  (q = Ok () ∧ t' = <[k := r]> t ∧ t !! k = None ∧
   ∀ k' r', t !! k' = Some r' → conflict r' = false).
Proof.
  unfold insert_into, insert_row.
  destruct (t !! k) eqn:Hk; [intros; simplify_eq/=; by left|].
  destruct (select (λ _ r, conflict r) t) eqn:Hs; intros; simplify_eq/=; [right|by left].
  split_and!; [done..|]. intros k' r' Hk'. by eapply (select_nil (λ _ r, conflict r)) in Hk'.
Qed.

Lemma unique_update_hashes p f t :
  (∀ h, hash (f h) = hash h) → unique_hashes t → unique_hashes (update p f t).
Proof.
  intros Hf Ht i j a b. rewrite !lookup_update, !fmap_Some.
  intros (a' & Ha & ->) (b' & Hb & ->) E. apply (Ht i j a' b'); [done..|].
  revert E. by repeat case_match; rewrite ?Hf.
Qed.

Lemma unique_hashes_sub t t' : t' ⊆ t → unique_hashes t → unique_hashes t'.
Proof.
  intros Hs Ht i j a b Ha Hb. apply Ht; by eapply lookup_weaken.
Qed.

Lemma delete_where_sub {K R} `{Countable K} p (t : gmap K R) : delete_where p t ⊆ t.
Proof. apply map_filter_subseteq. Qed.

Lemma Index_ok_hashes x t :
  Index_ok x → unique_hashes t →
  (∀ i h, t !! i = Some h → (0 < i ≤ Counter.previous (hash_id_counter x))%Z) →
  Index_ok (lset cur_lens (lset hashes_lens t (cur x)) x).
Proof. intros [[? ? ? ?] ? ? ?] Hu Hc. by split. Qed.

Lemma Index_ok_hashes_sub x t :
  Index_ok x → t ⊆ hashes (cur x) → Index_ok (lset cur_lens (lset hashes_lens t (cur x)) x).
Proof.
  intros Hx Hs. apply Index_ok_hashes; [done| |].
  - eapply unique_hashes_sub; [done|apply Hx].
  - intros i h Hi. eapply (index_counter x Hx). by eapply lookup_weaken.
Qed.

Lemma Index_ok_hashes_update x p f :
  Index_ok x → (∀ h, hash (f h) = hash h) →
  Index_ok (lset cur_lens (lset hashes_lens (update p f (hashes (cur x))) (cur x)) x).
Proof.
  intros Hx Hf. apply Index_ok_hashes; [done| |].
  - apply unique_update_hashes; [done|apply Hx].
  - intros i h. rewrite lookup_update, fmap_Some. intros (h' & Hi & _).
    by eapply (index_counter x Hx).
Qed.

Lemma Index_ok_gc x t : Index_ok x → Index_ok (lset cur_lens (lset gc_lens t (cur x)) x).
Proof. intros [[? ? ? ?] ? ? ?]. by split. Qed.

Lemma Index_ok_blobs x t :
  Index_ok x → unique_names t → Index_ok (lset cur_lens (lset blobs_lens t (cur x)) x).
Proof. intros [[? ? ? ?] ? ? ?] Hu. by split. Qed.

Lemma Index_ok_family x t :
  Index_ok x → unique_families t → Index_ok (lset cur_lens (lset family_lens t (cur x)) x).
Proof. intros [[? ? ? ?] ? ? ?] Hu. by split. Qed.

Lemma Index_ok_snapshots x t :
  Index_ok x → unique_snapshots t → Index_ok (lset cur_lens (lset snapshots_lens t (cur x)) x).
Proof. intros [[? ? ? ?] ? ? ?] Hu. by split. Qed.

Lemma Index_ok_rowid x i : Index_ok x → Index_ok (set_last_rowid i x).
Proof. intros [? ? ? ?]. by split. Qed.

Lemma Index_ok_flush x : Index_ok x → Index_ok (flush x).2.
Proof. intros [? ? ? ?]. by split. Qed.

Lemma unique_names_update p t n :
  unique_names t → unique_names (update p (set_blob_tag n) t).
Proof.
  intros Ht i j a b. rewrite !lookup_update, !fmap_Some.
  intros (a' & Ha & ->) (b' & Hb & ->) E. apply (Ht i j a' b'); [done..|].
  revert E. by repeat case_match.
Qed.

Lemma unique_names_sub t t' : t' ⊆ t → unique_names t → unique_names t'.
Proof. intros Hs Ht i j a b Ha Hb. apply Ht; by eapply lookup_weaken. Qed.

Lemma unique_snapshots_update p f t :
  (∀ s, s_family_id (f s) = s_family_id s ∧ s_snapshot_id (f s) = s_snapshot_id s) →
  unique_snapshots t → unique_snapshots (update p f t).
Proof.
  intros Hf Ht i j a b. rewrite !lookup_update, !fmap_Some.
  intros (a' & Ha & ->) (b' & Hb & ->) E1 E2. apply (Ht i j a' b'); [done..| |].
  - revert E1. destruct (Hf a') as [Ea _], (Hf b') as [Eb _].
    by repeat case_match; rewrite ?Ea, ?Eb.
  - revert E2. destruct (Hf a') as [_ Ea], (Hf b') as [_ Eb].
    by repeat case_match; rewrite ?Ea, ?Eb.
Qed.

Lemma unique_snapshots_sub t t' : t' ⊆ t → unique_snapshots t → unique_snapshots t'.
Proof. intros Hs Ht i j a b Ha Hb. apply Ht; by eapply lookup_weaken. Qed.

(** *** Operation by operation *)

Lemma hash_set_tag_ok o t x : Index_ok x → Index_ok (hash_set_tag o t x).2.
Proof. intros Hx. by apply Index_ok_hashes_update. Qed.

Lemma hash_delete_not_ready_ok x : Index_ok x → Index_ok (hash_delete_not_ready x).2.
Proof. intros Hx. apply Index_ok_hashes_sub; [done|]. apply delete_where_sub. Qed.

Lemma hash_set_ready_ok i e x : Index_ok x → Index_ok (hash_set_ready i e x).2.
Proof.
  intros Hx. unfold hash_set_ready. destruct (q_persistent_ref e) as [p|]; [|done].
  rewrite (bind_lift _ _ _ p) by done. destruct (chunk.blob_id p) as [b|]; [|done].
  rewrite (bind_lift _ _ _ b) by done. by apply Index_ok_hashes_update.
Qed.

(** Reserving an id and inserting the hash under it, as HashIndex does. *)
Lemma hash_reserve_ok bs e x :
  Index_ok x → (Counter.previous (hash_id_counter x) < 2 ^ 63 - 1)%Z →
  Index_ok ((hash_next_id ≫= λ id, hash_insert_new id bs e) x).2.
Proof.
  intros Hx Hc. set (p := Counter.previous (hash_id_counter x)) in *.
  pose proof (index_counter_pos x Hx) as Hpos. fold p in Hpos.
  set (x1 := lset counter_lens (Counter.new (p + 1)) x).
  assert (hash_next_id x = (Ok (p + 1)%Z, x1)) as E.
  { unfold hash_next_id. erewrite bind_zoom by (apply Counter.next_fresh; fold p; simpl; lia).
    unfold mret, M_ret. rewrite as_u64_id by (simpl; unfold p in *; lia). done. }
  rewrite (bind_Ok _ _ _ _ _ E). unfold hash_insert_new. rewrite as_i64_id by lia.
  set (new := new_row bs e).
  assert (Index_ok x1) as Hx1.
  { destruct Hx as [? ? Hcnt ?]. split; [done|done| |simpl; lia].
    intros i h Hi. apply Hcnt in Hi. fold p in Hi. simpl. lia. }
  unfold on_hashes. unfold mbind, M_bind, zoom.
  destruct (insert_into _ (p + 1)%Z new (lget hashes_lens (lget cur_lens x1))) as [q t'] eqn:Ei.
  apply insert_into_inv in Ei as [[-> ->]|(-> & -> & Hk & Hcf)]; simpl.
  - by destruct Hx1 as [[? ? ? ?] ? ? ?]; split.
  - apply Index_ok_rowid, (Index_ok_hashes x1); [done| |].
    + intros i j a b. rewrite !lookup_insert_Some.
      intros [[<- <-]|[Hi Ha]] [[<- <-]|[Hj Hb]] Eq; [done| | |].
      * apply Hcf, bool_decide_eq_false in Hb. simpl in Eq. by destruct Hb.
      * apply Hcf, bool_decide_eq_false in Ha. simpl in Eq. by destruct Ha.
      * by eapply (tables_hashes _ (index_cur x1 Hx1)).
    + intros i h. rewrite lookup_insert_Some. intros [[<- _]|[_ Hi]].
      * simpl. lia.
      * by eapply (index_counter x1 Hx1).
Qed.

Lemma hash_delete_ok i x : Index_ok x → Index_ok (hash_delete i x).2.
Proof.
  intros Hx. apply (Index_ok_gc (lset cur_lens (lset hashes_lens
    (delete (as_i64 i) (hashes (cur x))) (cur x)) x)).
  apply Index_ok_hashes_sub; [done|]. apply delete_subseteq.
Qed.

Lemma gc_op_ok {A} (m : M (gmap (Z * Z) GcMetadata) A) x : Index_ok x → Index_ok (on_gc m x).2.
Proof.
  intros Hx. unfold on_gc, zoom. destruct (m _) as [q t]. by apply Index_ok_gc.
Qed.

Lemma bind_ok_pres {A B} (m : DB A) (f : A → DB B) x :
  Index_ok (m x).2 → (∀ a x', Index_ok x' → Index_ok (f a x').2) → Index_ok ((m ≫= f) x).2.
Proof. unfold mbind, M_bind. destruct (m x) as [[]?]; simpl; auto. Qed.

(** An operation that changes at most the table [gc_metadata]. *)
Definition gc_only {A} (m : DB A) : Prop := ∀ x,
  ∃ t, (m x).2 = lset cur_lens (lset gc_lens t (cur x)) x.

Lemma gc_only_ret {A} (a : A) : gc_only (mret a).
Proof. intros x. exists (gc_metadata (cur x)). by destruct x as [[]]. Qed.

Lemma gc_only_op {A} (m : M (gmap (Z * Z) GcMetadata) A) : gc_only (on_gc m).
Proof. intros x. unfold on_gc, zoom. destruct (m _) as [r t]. by exists t. Qed.

Lemma gc_only_bind {A B} (m : DB A) (f : A → DB B) :
  gc_only m → (∀ a, gc_only (f a)) → gc_only (m ≫= f).
Proof.
  intros Hm Hf x. destruct (Hm x) as [t Ht]. unfold mbind, M_bind.
  destruct (m x) as [[a| | |] x']; cbn [snd] in Ht; subst x'; [|by exists t..].
  destruct (Hf a (lset cur_lens (lset gc_lens t (cur x)) x)) as [t' ->]. by exists t'.
Qed.

Lemma gc_only_update i f u : gc_only (hash_update_gc_data i f u).
Proof.
  apply gc_only_bind; [apply gc_only_bind; [apply gc_only_op|intros; apply gc_only_ret]|].
  intros d. destruct (u d); (apply gc_only_bind; [|intros; apply gc_only_ret]);
    [|apply gc_only_op]. apply gc_only_bind; [apply gc_only_op|].
  intros [row|]; apply gc_only_op.
Qed.

Lemma gc_only_update_rows f ids us : gc_only (update_gc_rows f ids us).
Proof.
  revert us. induction ids as [|i ids IH]; intros [|u us]; try apply gc_only_ret.
  - intros x. exists (gc_metadata (cur x)). by destruct x as [[]].
  - apply gc_only_bind; [apply gc_only_update|]. intros; apply IH.
Qed.

Lemma gc_only_update_family f us : gc_only (hash_update_family_gc_data f us).
Proof. apply gc_only_bind; [apply gc_only_op|]. intros; apply gc_only_update_rows. Qed.

(** *** Families and snapshots *)

Lemma next_rowid_fresh {R} (t : gmap Z R) : t !! next_rowid t = None.
Proof.
  destruct (t !! next_rowid t) as [r|] eqn:E; [|done].
  destruct (max_key_bound _ _ _ E) as (m & Hm & Hle). unfold next_rowid in Hle.
  rewrite Hm in Hle. simpl in Hle. lia.
Qed.

Lemma insert_auto_family n x :
  let i := next_rowid (family (cur x)) in
  insert_auto family_lens n x =
    (Ok (), set_last_rowid i (lset cur_lens (lset family_lens (<[i := n]> (family (cur x))) (cur x)) x)).
Proof.
  intros i. unfold insert_auto.
  rewrite (bind_Ok _ _ _ i x); [|by unfold zoom; simpl; destruct x as [[]]].
  unfold mbind, M_bind, zoom. simpl.
  rewrite insert_into_Ok; [done|apply next_rowid_fresh|done].
Qed.

Lemma insert_auto_snapshot r x :
  let i := next_rowid (snapshots (cur x)) in
  insert_auto snapshots_lens r x =
    (Ok (), set_last_rowid i
      (lset cur_lens (lset snapshots_lens (<[i := r]> (snapshots (cur x))) (cur x)) x)).
Proof.
  intros i. unfold insert_auto.
  rewrite (bind_Ok _ _ _ i x); [|by unfold zoom; simpl; destruct x as [[]]].
  unfold mbind, M_bind, zoom. simpl.
  rewrite insert_into_Ok; [done|apply next_rowid_fresh|done].
Qed.

Lemma family_id_run n x :
  family_id_from_name n x =
    (Ok (fst <$> head (select (λ _ n', bool_decide (n' = n)) (family (cur x)))), x).
Proof. unfold family_id_from_name. destruct x as [[]]. done. Qed.

Lemma head_select_Some {K R} `{Countable K} p (t : gmap K R) k :
  fst <$> head (select p t) = Some k → ∃ r, t !! k = Some r ∧ p k r = true.
Proof.
  destruct (select p t) as [|[k' r] l] eqn:E; simpl; [done|]. intros [= ->]. exists r.
  apply elem_of_select. rewrite E. by constructor.
Qed.

Lemma head_select_None {K R} `{Countable K} p (t : gmap K R) :
  fst <$> head (select p t) = None → ∀ k r, t !! k = Some r → p k r = false.
Proof. destruct (select p t) eqn:E; [|done]. intros _. by apply select_nil. Qed.

(** The family has the name asked for, whether it was there or is new; nothing else changes. *)
Lemma get_or_create_run n x :
  Index_ok x → ∃ i x', get_or_create_family_id n x = (Ok i, x') ∧ Index_ok x' ∧
    family (cur x') !! i = Some n ∧ snapshots (cur x') = snapshots (cur x) ∧
    hashes (cur x') = hashes (cur x) ∧ family (cur x) ⊆ family (cur x').
Proof.
  intros Hx. unfold get_or_create_family_id. rewrite (bind_Ok _ _ _ _ _ (family_id_run n x)).
  destruct (fst <$> _) as [i|] eqn:E.
  - exists i, x. apply head_select_Some in E as (n' & Hi & ->%bool_decide_eq_true). done.
  - pose proof (head_select_None _ _ E) as Hn.
    rewrite (bind_Ok _ _ _ _ _ (insert_auto_family n x)).
    set (i := next_rowid _). eexists i, _. split; [done|].
    assert (family (cur x) !! i = None) as Hi by apply next_rowid_fresh.
    split_and!; [|by simpl; rewrite lookup_insert_eq|done|done|by apply insert_subseteq].
    apply Index_ok_rowid, Index_ok_family; [done|].
    intros j k a. rewrite !lookup_insert_Some.
    intros [[<- <-]|[Hj Ha]] [[<- Ea]|[Hk Hb]]; [done| | |].
    + apply Hn in Hb. by apply bool_decide_eq_false in Hb.
    + subst. apply Hn in Ha. by apply bool_decide_eq_false in Ha.
    + by eapply (tables_families _ (index_cur x Hx)).
Qed.

Lemma snapshot_insert_ok r x :
  Index_ok x →
  (∀ i s, snapshots (cur x) !! i = Some s → s_family_id s = s_family_id r →
    s_snapshot_id s ≠ s_snapshot_id r) →
  Index_ok (insert_auto snapshots_lens r x).2.
Proof.
  intros Hx Hr. rewrite insert_auto_snapshot. apply Index_ok_rowid, Index_ok_snapshots; [done|].
  intros i j a b. rewrite !lookup_insert_Some.
  intros [[<- <-]|[Hi Ha]] [[<- <-]|[Hj Hb]] E1 E2; [done| | |].
  - by eapply Hr in Hb.
  - by eapply Hr in Ha.
  - by eapply (tables_snapshots _ (index_cur x Hx)).
Qed.

Definition latest_of (f : Z) (t : gmap Z Snapshot) : option Z :=
  foldr (λ r acc, Some (match acc with
    None => s_snapshot_id r.2 | Some m => s_snapshot_id r.2 `max` m end))%Z None
    (select (λ _ s, bool_decide (s_family_id s = f)) t).

Lemma snapshot_latest_run f x : snapshot_latest_id f x = (Ok (latest_of f (snapshots (cur x))), x).
Proof. unfold snapshot_latest_id. by destruct x as [[]]. Qed.

Lemma latest_of_bound f t i s :
  t !! i = Some s → s_family_id s = f → ∃ m, latest_of f t = Some m ∧ (s_snapshot_id s ≤ m)%Z.
Proof.
  intros Hi Hf. assert ((i, s) ∈ select (λ _ s, bool_decide (s_family_id s = f)) t) as Hin.
  { apply elem_of_select. by rewrite bool_decide_eq_true. }
  unfold latest_of. revert Hin. generalize (select (λ _ s, bool_decide (s_family_id s = f)) t).
  induction l as [|[i' s'] l IH]; [by intros ?%elem_of_nil|].
  simpl. destruct (foldr _ None l) as [m|]; intros [[= -> ->]|Hin]%elem_of_cons.
  - eexists. split; [done|]. lia.
  - destruct (IH Hin) as (m' & [= ->] & Hm). eexists. split; [done|]. lia.
  - eexists. split; [done|]. lia.
  - destruct (IH Hin) as (m' & ? & Hm). done.
Qed.

(** The number given is one more than the family's latest, and free. *)
Lemma snapshot_reserve_run n x :
  Index_ok x → (∀ i s, snapshots (cur x) !! i = Some s → (0 ≤ s_snapshot_id s < 2 ^ 63 - 1)%Z) →
  ∃ f x1 x' info, get_or_create_family_id n x = (Ok f, x1) ∧
    snapshot_reserve n x = (Ok info, x') ∧ Index_ok x' ∧
    let num := (1 + default 0 (latest_of f (snapshots (cur x))))%Z in
    let i := next_rowid (snapshots (cur x)) in
    (0 < num < 2 ^ 63)%Z ∧ family (cur x') = family (cur x1) ∧
    info = mkSnapshotInfo (as_u64 i) (as_u64 f) (as_u64 num) ∧
    ∃ utc, snapshots (cur x') =
      <[i := mkSnapshot (tags.num tags.Reserved) f num utc None None None]> (snapshots (cur x)).
Proof.
  intros Hx Hb. destruct (get_or_create_run n x Hx) as (f & x1 & E1 & Hx1 & Hf & Hs & _).
  assert (∃ m, latest_of f (snapshots (cur x)) = m ∧ (0 < 1 + default 0 m < 2 ^ 63)%Z ∧
    ∀ i s, snapshots (cur x) !! i = Some s → s_family_id s = f →
      (s_snapshot_id s < 1 + default 0 m)%Z) as (m & Em & Hm & Hlt).
  { exists (latest_of f (snapshots (cur x))). split; [done|]. split.
    - unfold latest_of. assert (∀ r, r ∈ select (λ _ s, bool_decide (s_family_id s = f))
        (snapshots (cur x)) → (0 ≤ s_snapshot_id r.2 < 2 ^ 63 - 1)%Z) as Hall.
      { intros [i s] [Hi _]%elem_of_select. by eapply Hb. }
      revert Hall. generalize (select (λ _ s, bool_decide (s_family_id s = f)) (snapshots (cur x))).
      induction l as [|r l IH]; intros Hall; [done|]. simpl.
      pose proof (Hall r ltac:(by constructor)) as Hr.
      specialize (IH (λ r Hin, Hall r ltac:(by constructor))).
      destruct (foldr _ None l) as [m|]; simpl in *; lia.
    - intros i s Hi Hfi. destruct (latest_of_bound f _ i s Hi Hfi) as (m & -> & Hle). simpl. lia. }
  set (num := (1 + default 0 m)%Z) in *.
  set (utc := reading (utc_clock x1) (tick (utc_clock x1))).
  set (x2 := lset utc_lens (mkClock (reading (utc_clock x1)) (S (tick (utc_clock x1)))) x1).
  set (r := mkSnapshot (tags.num tags.Reserved) f num utc None None None).
  assert (Index_ok x2) as Hx2 by (destruct Hx1; by split).
  set (i := next_rowid (snapshots (cur x))).
  exists f, x1, (insert_auto snapshots_lens r x2).2, (mkSnapshotInfo (as_u64 i) (as_u64 f) (as_u64 num)).
  split; [done|]. split; [|split; [|rewrite Em; fold num; split_and!; [lia|lia| |done|]]].
  - unfold snapshot_reserve. rewrite (bind_Ok _ _ _ _ _ E1).
    rewrite (bind_Ok _ _ _ _ _ (snapshot_latest_run f x1)). rewrite Hs, Em. fold num.
    rewrite as_i64_id by lia. cbv zeta.
    rewrite (bind_zoom utc_lens now _ _ _ _ eq_refl). fold utc. fold x2. fold r.
    rewrite insert_auto_snapshot. rewrite (bind_Ok _ _ _ _ _ (insert_auto_snapshot r x2)).
    simpl. unfold mbind, M_bind. simpl. by rewrite Hs.
  - apply snapshot_insert_ok; [done|]. simpl. rewrite Hs. intros j s Hj Hfj.
    pose proof (Hlt j s Hj Hfj). lia.
  - by rewrite insert_auto_snapshot.
  - exists utc. rewrite insert_auto_snapshot. simpl. by rewrite Hs.
Qed.

Lemma snapshot_recover_ok i n c m h w x :
  Index_ok x → Index_ok (snapshot_recover i n c m h w x).2.
Proof.
  intros Hx. destruct (get_or_create_run n x Hx) as (f & x1 & E1 & Hx1 & Hf & Hs & _).
  unfold snapshot_recover. rewrite (bind_Ok _ _ _ _ _ E1). unfold snapshot_lookup.
  rewrite bind_assoc, bind_gets. unfold lift.
  destruct (head (select _ (snapshots (cur x1)))) as [[j s]|] eqn:Eh.
  - unfold mbind, M_bind. destruct (found (Some (j, s))) as [[[[info h'] o]|]| | |] eqn:Ef;
      try done; [by case_decide|].
    unfold found in Ef. destruct (s_hash s); [|done]. by destruct (href_of_row s).
  - rewrite (bind_Ok _ _ _ None x1) by done. apply snapshot_insert_ok; [done|].
    intros j s Hj Hfam Hid. simpl in *.
    assert (fst <$> head (select (λ _ s,
      bool_decide (family (cur x1) !! s_family_id s = Some n) &&
      bool_decide (s_snapshot_id s = as_i64 i)) (snapshots (cur x1))) = None) as Hn
      by by rewrite Eh.
    apply (head_select_None _ _ Hn) in Hj. rewrite Hfam, Hf, Hid in Hj.
    by rewrite !bool_decide_eq_true_2 in Hj.
Qed.

Lemma blob_in_air_ok b x : Index_ok x → Index_ok (blob_in_air b x).2.
Proof.
  intros Hx. apply bind_ok_pres.
  - unfold on_blobs, zoom. destruct (insert_into _ _ _ _) as [q t'] eqn:Ei. cbn [snd].
    apply Index_ok_blobs; [done|].
    apply insert_into_inv in Ei as [[_ ->]|(_ & -> & Hk & Hcf)]; [apply Hx|].
    intros i j a c. rewrite !lookup_insert_Some.
    intros [[<- <-]|[Hi Ha]] [[<- <-]|[Hj Hb]] Eq; [done| | |].
    + apply Hcf, bool_decide_eq_false in Hb. simpl in Eq. by destruct Hb.
    + apply Hcf, bool_decide_eq_false in Ha. simpl in Eq. by destruct Ha.
    + by eapply (tables_blobs _ (index_cur x Hx)).
  - intros _ x' Hx'. apply bind_ok_pres; [by apply Index_ok_rowid|].
    intros _ x'' Hx''. by apply Index_ok_flush.
Qed.

Lemma blob_commit_ok b x : Index_ok x → Index_ok (blob_commit b x).2.
Proof.
  intros Hx. apply bind_ok_pres.
  - apply Index_ok_blobs; [done|]. apply unique_names_update, Hx.
  - intros _ x' Hx'. by apply Index_ok_flush.
Qed.

Lemma blob_set_tag_ok t o x : Index_ok x → Index_ok (blob_set_tag t o x).2.
Proof.
  intros Hx. unfold blob_set_tag.
  destruct o as [b|]; [case_decide; [|case_decide; [|done]]|];
    (apply Index_ok_blobs; [done|]; apply unique_names_update, Hx).
Qed.

Lemma blob_delete_by_tag_ok t x : Index_ok x → Index_ok (blob_delete_by_tag t x).2.
Proof.
  intros Hx. apply Index_ok_blobs; [done|].
  eapply unique_names_sub; [apply delete_where_sub|apply Hx].
Qed.

Lemma snapshot_delete_ok i x : Index_ok x → Index_ok (snapshot_delete i x).2.
Proof.
  intros Hx. apply Index_ok_snapshots; [done|].
  eapply unique_snapshots_sub; [apply delete_where_sub|apply Hx].
Qed.

Lemma snapshot_update_ok i m h r x : Index_ok x → Index_ok (snapshot_update i m h r x).2.
Proof. intros Hx. apply Index_ok_snapshots; [done|]. by apply unique_snapshots_update, Hx. Qed.

Lemma snapshot_set_tag_ok i t x : Index_ok x → Index_ok (snapshot_set_tag i t x).2.
Proof. intros Hx. apply Index_ok_snapshots; [done|]. by apply unique_snapshots_update, Hx. Qed.

Lemma hash_update_gc_ok i f u x : Index_ok x → Index_ok (hash_update_gc_data i f u x).2.
Proof.
  intros Hx. apply bind_ok_pres; [by apply bind_ok_pres; [apply gc_op_ok|]|].
  intros d x' Hx'. destruct (u d) as [new|]; apply bind_ok_pres; try done; [|by apply gc_op_ok].
  apply bind_ok_pres; [by apply gc_op_ok|]. intros [row|] x'' Hx''; by apply gc_op_ok.
Qed.

Lemma update_gc_rows_ok f ids us x : Index_ok x → Index_ok (update_gc_rows f ids us x).2.
Proof.
  revert us x. induction ids as [|i ids IH]; intros [|u us] x Hx; try done.
  apply bind_ok_pres; [by apply hash_update_gc_ok|]. auto.
Qed.

Lemma maybe_flush_ok x : Index_ok x → Index_ok (maybe_flush x).2.
Proof.
  intros Hx. unfold maybe_flush. rewrite bind_get. destruct (flush_periodically x); [|done].
  apply bind_ok_pres.
  - unfold zoom. destruct (PeriodicTimer.did_fire _) as [q t]. destruct Hx as [? ? ? ?]. by split.
  - intros [] x' Hx'; [by apply Index_ok_flush|done].
Qed.

(** Opening a database file whose tables are in order, with ids in range. *)
Lemma InternalIndex_new_ok t s c1 c2 x :
  Tables_ok t → (∀ i h, hashes t !! i = Some h → (0 < i)%Z) →
  InternalIndex_new t s c1 c2 = Ok x →
  Index_ok x ∧ cur x = t ∧ committed x = t ∧
  Counter.previous (hash_id_counter x) = default 0%Z (max_key (hashes t)).
Proof.
  intros Ht Hpos. unfold InternalIndex_new. cbn. intros [= <-]. split; [|by destruct t].
  destruct t as [hs gc bs fs ss]. split; simpl; try done.
  - intros i h Hi. split; [by eapply Hpos|].
    destruct (max_key_bound _ _ _ Hi) as (m & -> & ?). done.
  - destruct (max_key hs) as [m|] eqn:Em; simpl; [|done].
    destruct (max_key_in _ _ Em) as [h Hh].
    apply Hpos in Hh. lia.
Qed.

(** *** The database as a state machine *)

(** One call of an operation, or a restart after a crash. *)
Inductive db_step (x : InternalIndex) : InternalIndex → Prop :=
  | step_flush : db_step x (flush x).2
  | step_maybe_flush : db_step x (maybe_flush x).2
  | step_reserve bs e : (Counter.previous (hash_id_counter x) < 2 ^ 63 - 1)%Z →
      db_step x ((hash_next_id ≫= λ id, hash_insert_new id bs e) x).2
  | step_set_tag o t : db_step x (hash_set_tag o t x).2
  | step_delete_not_ready : db_step x (hash_delete_not_ready x).2
  | step_set_ready i e : db_step x (hash_set_ready i e x).2
  | step_delete i : db_step x (hash_delete i x).2
  | step_update_gc i f u : db_step x (hash_update_gc_data i f u x).2
  | step_update_family_gc f us : db_step x (hash_update_family_gc_data f us x).2
  | step_blob_in_air b : db_step x (blob_in_air b x).2
  | step_blob_commit b : db_step x (blob_commit b x).2
  | step_blob_set_tag t o : db_step x (blob_set_tag t o x).2
  | step_blob_delete_by_tag t : db_step x (blob_delete_by_tag t x).2
  | step_get_family n : db_step x (get_or_create_family_id n x).2
  | step_snapshot_reserve n :
      (∀ i s, snapshots (cur x) !! i = Some s → (0 ≤ s_snapshot_id s < 2 ^ 63 - 1)%Z) →
      db_step x (snapshot_reserve n x).2
  | step_snapshot_update i m h r : db_step x (snapshot_update i m h r x).2
  | step_snapshot_set_tag i t : db_step x (snapshot_set_tag i t x).2
  | step_snapshot_delete i : db_step x (snapshot_delete i x).2
  | step_snapshot_recover i n c m h w : db_step x (snapshot_recover i n c m h w x).2
  | step_restart s c1 c2 x' : (∀ i h, hashes (crash x) !! i = Some h → (0 < i)%Z) →
      InternalIndex_new (crash x) s c1 c2 = Ok x' → db_step x x'.

Lemma db_step_ok x x' : Index_ok x → db_step x x' → Index_ok x'.
Proof.
  intros Hx. destruct 1.
  - by apply Index_ok_flush.
  - by apply maybe_flush_ok.
  - by apply hash_reserve_ok.
  - by apply hash_set_tag_ok.
  - by apply hash_delete_not_ready_ok.
  - by apply hash_set_ready_ok.
  - by apply hash_delete_ok.
  - by apply hash_update_gc_ok.
  - apply bind_ok_pres; [by apply gc_op_ok|]. intros; by apply update_gc_rows_ok.
  - by apply blob_in_air_ok.
  - by apply blob_commit_ok.
  - by apply blob_set_tag_ok.
  - by apply blob_delete_by_tag_ok.
  - destruct (get_or_create_run n x Hx) as (f & x1 & -> & ? & _). done.
  - destruct (snapshot_reserve_run n x Hx) as (f & x1 & x2 & info & _ & -> & ? & _); done.
  - by apply snapshot_update_ok.
  - by apply snapshot_set_tag_ok.
  - by apply snapshot_delete_ok.
  - by apply snapshot_recover_ok.
  - by destruct (InternalIndex_new_ok (committed x) s c1 c2 x' (index_committed x Hx)).
Qed.

End invariant.
