(* ===== verification/Snapshot.v ===== *)
(** * The index of snapshots: snapshot/mod.rs

    A layer over the database's table of snapshots that says what each state of a snapshot is
    for: reserved, updated with its hash, ready to commit, committed, about to be deleted, ready
    to be deleted, gone. *)

From S2P Require Import Prelude Cbor Refs Ordered Db.
From S2P Require Models.
Import Ordered.tags.

Section Snapshot.
Context `{Cbor Models.HashRef}.

Definition delete (info : SnapshotInfo) : DB unit := snapshot_delete info.

Definition lookup (family_name : bytes) (snapshot_id : Z)
    : DB (option (SnapshotInfo * bytes * option tree.HashRef)) :=
  snapshot_lookup family_name snapshot_id.

Definition reserve (family : bytes) : DB SnapshotInfo := snapshot_reserve family.

Definition update (snapshot : SnapshotInfo) (hash : bytes) (hash_ref : tree.HashRef) : DB unit :=
  snapshot_update snapshot (lit "anonymous") hash hash_ref.

Definition ready_commit (snapshot : SnapshotInfo) : DB unit := snapshot_set_tag snapshot Complete.

Definition commit (snapshot : SnapshotInfo) : DB unit := snapshot_set_tag snapshot Done.

Definition will_delete (snapshot : SnapshotInfo) : DB unit := snapshot_set_tag snapshot WillDelete.

Definition ready_delete (snapshot : SnapshotInfo) : DB unit := snapshot_set_tag snapshot ReadyDelete.

Definition latest (family : bytes) : DB (option (SnapshotInfo * bytes * option tree.HashRef)) :=
  snapshot_latest family.

Definition list (skip_tag : option Tag) : DB (list SnapshotStatus) := snapshot_list skip_tag.

Definition list_not_done : DB (Datatypes.list SnapshotStatus) := list (Some Done).

Definition list_all : DB (Datatypes.list SnapshotStatus) := list None.

Definition recover (snapshot_id : Z) (family : bytes) (created : Z) (msg : bytes)
    (hash_ref : tree.HashRef) (work_opt : option SnapshotWorkStatus) : DB unit :=
  snapshot_recover snapshot_id family created msg hash_ref work_opt.

Definition flush : DB unit := Db.flush.

End Snapshot.
