(* ===== verification/Crypto.v ===== *)
(** * Cryptography: crypto/mod.rs and crypto/keys.rs

    libsodium is a parameter, the class [Sodium]; [SodiumLaws] states what its documentation
    promises of the functions the code calls. Module [keys] is keys.rs (the [Keeper] and the
    locks), the other modules are the types of mod.rs: [CipherText], [PlainTextRef],
    [CipherTextRef], [RefKey] and [FixedKey]. [SecStr], [PlainText] and the two [Ref] types
    wrap bytes and are bytes here. *)

From S2P Require Import Prelude Refs.
From S2P Require Models.

(** ** libsodium *)

Class Sodium := {
  KEYBYTES : nat;          (* crypto_aead_chacha20poly1305_KEYBYTES *)
  NPUBBYTES : nat;         (* crypto_aead_chacha20poly1305_NPUBBYTES *)
  ABYTES : nat;            (* crypto_aead_chacha20poly1305_ABYTES *)
  SEALBYTES : nat;         (* crypto_box_SEALBYTES *)
  BYTES_MAX : nat;         (* crypto_generichash_blake2b_BYTES_MAX *)
  SALTBYTES : nat;         (* crypto_generichash_blake2b_SALTBYTES *)
  STREAM_KEYBYTES : nat;   (* crypto_stream_chacha20_KEYBYTES *)
  STREAM_NONCEBYTES : nat; (* crypto_stream_chacha20_NONCEBYTES *)
  rng : Type;              (* the state of the random generator *)
  randombytes_buf : nat → rng → bytes * rng;
  (* A non-zero return code is [None]. *)
  generichash_salt_personal (outlen : nat) (msg key salt personal : bytes) : option bytes;
  aead_encrypt (msg ad nonce key : bytes) : option bytes;
  aead_decrypt (ct ad nonce key : bytes) : option bytes;
  box_seed_keypair (seed : bytes) : option (bytes * bytes);
  box_seal (msg pk : bytes) : rng → option bytes * rng;
  box_seal_open (ct pk sk : bytes) : option bytes;
  stream_chacha20 (len : nat) (nonce key : bytes) : option bytes;
}.

Class SodiumLaws `{Sodium} : Prop := {
  KEYBYTES_eq : KEYBYTES = 32;
  NPUBBYTES_eq : NPUBBYTES = 8;
  ABYTES_eq : ABYTES = 16;
  SEALBYTES_eq : SEALBYTES = 48;
  BYTES_MAX_eq : BYTES_MAX = 64;
  SALTBYTES_eq : SALTBYTES = 16;
  randombytes_length : ∀ n r, length (randombytes_buf n r).1 = n;
  (* Up to 64 bytes of output and 64 bytes of key; salt and personalization of 16. *)
  generichash_ok : ∀ n msg key salt personal, 0 < n ≤ 64 → length key ≤ 64 →
    length salt = 16 → length personal = 16 →
    ∃ out, generichash_salt_personal n msg key salt personal = Some out ∧ length out = n;
  aead_encrypt_ok : ∀ msg ad nonce key, length nonce = 8 → length key = 32 →
    ∃ ct, aead_encrypt msg ad nonce key = Some ct ∧ length ct = length msg + 16 ∧
      aead_decrypt ct ad nonce key = Some msg;
  aead_decrypt_length : ∀ ct ad nonce key msg,
    aead_decrypt ct ad nonce key = Some msg → length ct = length msg + 16;
  box_seed_keypair_ok : ∀ seed, length seed = 32 → is_Some (box_seed_keypair seed);
  box_seal_ok : ∀ seed pk sk msg r, box_seed_keypair seed = Some (pk, sk) →
    ∃ ct r', box_seal msg pk r = (Some ct, r') ∧ length ct = length msg + 48 ∧
      box_seal_open ct pk sk = Some msg;
  box_seal_open_length : ∀ ct pk sk msg,
    box_seal_open ct pk sk = Some msg → length ct = length msg + 48;
  stream_ok : ∀ n nonce key, ∃ s, stream_chacha20 n nonce key = Some s ∧ length s = n;
}.

(** ** crypto/keys.rs *)
Module keys.
Section keys.
Context `{Sodium}.

Definition UNIVERSAL_KEY_MSG : bytes := lit "hat-backup:universal-key:rust".
Definition HAT_PERSONALIZATION : bytes := lit "hat-backup~~rust".

Definition compute_salt (node_type : chunk.NodeType) (leaf_type : Models.LeafType) : bytes :=
  le_encode 8 (chunk.NodeType_into_u64 node_type) ++
  le_encode 8 (chunk.LeafType_into_u64 leaf_type).

Definition random_bytes (size : nat) : M rng bytes := λ r,
  let '(b, r') := randombytes_buf size r in (Ok b, r').

(** The out parameter is given by its length and returned. *)
Definition keyed_fingerprint (sk msg salt : bytes) (outlen : nat) : res bytes :=
  assert_ (SALTBYTES = length salt) ;;
  expect (generichash_salt_personal outlen msg sk salt HAT_PERSONALIZATION).

Definition keyed_fingerprint_simple (sk msg : bytes) (outlen : nat) : res bytes :=
  keyed_fingerprint sk msg HAT_PERSONALIZATION outlen.

Record Keeper := mkKeeper {
  universal_key : bytes;
  fingerprint_key : option bytes;
  blob_authentication_key : option bytes;
  data_key_pk : option bytes;
  data_key_sk : option bytes;
  naming_key_pk : option bytes;
  naming_key_sk : option bytes;
  access_key_pk : option bytes;
  access_key_sk : option bytes;
}.

Definition from_key_and_nonce (key nonce : bytes) (outlen : nat) : res bytes :=
  keyed_fingerprint_simple key nonce outlen.

Definition from_nonce (k : Keeper) (nonce : bytes) (outlen : nat) : res bytes :=
  from_key_and_nonce (universal_key k) nonce outlen.

Definition x25519_key_pair_from_nonce (k : Keeper) (nonce : bytes) : res (bytes * bytes) :=
  seed ← from_nonce k nonce 32;
  expect (box_seed_keypair seed).

Definition init (k : Keeper) : res Keeper :=
  fp ← from_nonce k (lit "hat:FINGERPRINT-key") 64;
  ba ← from_nonce k (lit "hat:BLOB-AUTHENTICATION-key") 64;
  '(dpk, dsk) ← x25519_key_pair_from_nonce k (lit "hat:DATA-key-x25519");
  '(apk, ask) ← x25519_key_pair_from_nonce k (lit "hat:ACCESS-key-x25519");
  '(npk, nsk) ← x25519_key_pair_from_nonce k (lit "hat:NAMING-key-x25519");
  Ok {| universal_key := universal_key k;
        fingerprint_key := Some fp; blob_authentication_key := Some ba;
        data_key_pk := Some dpk; data_key_sk := Some dsk;
        naming_key_pk := Some npk; naming_key_sk := Some nsk;
        access_key_pk := Some apk; access_key_sk := Some ask |}.

Definition Keeper_new (key : bytes) : res Keeper :=
  universal_key ← from_key_and_nonce key UNIVERSAL_KEY_MSG 32;
  init {| universal_key := universal_key;
          fingerprint_key := None; blob_authentication_key := None;
          data_key_pk := None; data_key_sk := None;
          naming_key_pk := None; naming_key_sk := None;
          access_key_pk := None; access_key_sk := None |}.

(** The key file of the repository directory, [None] when it does not exist. *)
Definition load_from_universal_key (file : option bytes) : res Keeper :=
  buf ← ok_or file (IoError "No such file or directory");
  Keeper_new buf.

Definition write_new_universal_key : M (option bytes * rng) unit := λ '(_, r),
  (* [File::create] truncates the file before the key is made. *)
  match random_bytes 32 r with
  | (Ok key, r') =>
      match Keeper_new key with
      | Ok keeper => (Ok (), (Some (universal_key keeper), r'))
      | Err e => (Err e, (Some [], r'))
      | Panic => (Panic, (Some [], r'))
      | Diverge => (Diverge, (Some [], r'))
      end
  | (_, r') => (Panic, (Some [], r'))
  end.

Definition asymmetric_lock (pk msg : bytes) : M rng bytes := λ r,
  let '(out, r') := box_seal msg pk r in (expect out, r').

(** [ciphertext.len() - SEALBYTES] panics (or asks for an impossible vector) below zero. *)
Definition asymmetric_unlock (pk sk ciphertext : bytes) : res bytes :=
  assert_ (SEALBYTES ≤ length ciphertext) ;;
  expect (box_seal_open ciphertext pk sk).

Definition data_lock (k : Keeper) (msg : bytes) : M rng bytes :=
  pk ← lift (expect (data_key_pk k));
  asymmetric_lock pk msg.

Definition data_unlock (k : Keeper) (ciphertext : bytes) : res bytes :=
  pk ← expect (data_key_pk k);
  sk ← expect (data_key_sk k);
  asymmetric_unlock pk sk ciphertext.

Definition access_lock (k : Keeper) (msg : bytes) : M rng bytes :=
  pk ← lift (expect (access_key_pk k));
  asymmetric_lock pk msg.

Definition access_unlock (k : Keeper) (ciphertext : bytes) : res bytes :=
  pk ← expect (access_key_pk k);
  sk ← expect (access_key_sk k);
  asymmetric_unlock pk sk ciphertext.

Definition naming_lock (k : Keeper) (msg : bytes) : M rng bytes :=
  pk ← lift (expect (naming_key_pk k));
  asymmetric_lock pk msg.

Definition naming_unlock (k : Keeper) (ciphertext : bytes) : res bytes :=
  pk ← expect (naming_key_pk k);
  sk ← expect (naming_key_sk k);
  asymmetric_unlock pk sk ciphertext.

Definition fingerprint (k : Keeper) (msg salt : bytes) (outlen : nat) : res bytes :=
  key ← expect (fingerprint_key k);
  keyed_fingerprint key msg salt outlen.

Definition blob_authentication (k : Keeper) (blob : bytes) (outlen : nat) : res bytes :=
  key ← expect (blob_authentication_key k);
  keyed_fingerprint key blob (lit "blob~~~~blob~~~~") outlen.

Definition symmetric_lock (msg ad nonce key : bytes) : res bytes :=
  out ← expect (aead_encrypt msg ad nonce key);
  assert_ (length out = length msg + ABYTES) ;;
  Ok out.

Definition symmetric_unlock (key ciphertext ad nonce : bytes) : res bytes :=
  assert_ (ABYTES ≤ length ciphertext) ;;
  out ← expect (aead_decrypt ciphertext ad nonce key);
  assert_ (length out = length ciphertext - ABYTES) ;;
  Ok out.

End keys.

(** A key pair made from some seed. *)
Definition keypair `{Sodium} (pk sk : option bytes) : Prop :=
  ∃ seed p s, box_seed_keypair seed = Some (p, s) ∧ pk = Some p ∧ sk = Some s.

(** What [Keeper::new] establishes and every user of the keys relies on. *)
Record Keeper_ok `{Sodium} (k : Keeper) : Prop := {
  ok_universal : length (universal_key k) = 32;
  ok_fingerprint : ∃ fk, fingerprint_key k = Some fk ∧ length fk = 64;
  ok_auth : ∃ bk, blob_authentication_key k = Some bk ∧ length bk = 64;
  ok_data : keypair (data_key_pk k) (data_key_sk k);
  ok_naming : keypair (naming_key_pk k) (naming_key_sk k);
  ok_access : keypair (access_key_pk k) (access_key_sk k);
}.

Section laws.
Context `{SodiumLaws}.

Lemma length_compute_salt n l : length (compute_salt n l) = 16.
Proof. unfold compute_salt. by rewrite length_app, !length_le_encode. Qed.

Lemma keyed_fingerprint_ok sk msg salt n :
  length sk ≤ 64 → length salt = 16 → 0 < n ≤ 64 →
  ∃ out, keyed_fingerprint sk msg salt n = Ok out ∧ length out = n.
Proof.
  intros Hk Hs Hn. unfold keyed_fingerprint. rewrite SALTBYTES_eq, assert_Ok by done.
  destruct (generichash_ok n msg sk salt HAT_PERSONALIZATION) as (out & E & Hl); try done.
  exists out. cbn [mbind res_bind]. by rewrite E.
Qed.

Lemma from_key_and_nonce_ok key nonce n :
  length key ≤ 64 → 0 < n ≤ 64 →
  ∃ out, from_key_and_nonce key nonce n = Ok out ∧ length out = n.
Proof. intros. by apply keyed_fingerprint_ok. Qed.

Lemma x25519_ok k nonce :
  length (universal_key k) = 32 →
  ∃ pk sk, x25519_key_pair_from_nonce k nonce = Ok (pk, sk) ∧ keypair (Some pk) (Some sk).
Proof.
  intros Hk. unfold x25519_key_pair_from_nonce, from_nonce.
  destruct (from_key_and_nonce_ok (universal_key k) nonce 32) as (seed & -> & Hs); [lia..|].
  cbn. destruct (box_seed_keypair_ok seed Hs) as [[pk sk] E]. rewrite E.
  exists pk, sk. split; [done|]. by exists seed, pk, sk.
Qed.

(** [Keeper::new] never panics on a key of at most 64 bytes and yields a usable keeper. *)
Lemma Keeper_new_ok key :
  length key ≤ 64 → ∃ k, Keeper_new key = Ok k ∧ Keeper_ok k.
Proof.
  intros Hk. unfold Keeper_new.
  destruct (from_key_and_nonce_ok key UNIVERSAL_KEY_MSG 32) as (u & -> & Hu); [lia..|].
  cbn [mbind res_bind]. set (k0 := mkKeeper u _ _ _ _ _ _ _ _). unfold init.
  destruct (from_key_and_nonce_ok u (lit "hat:FINGERPRINT-key") 64) as (fp & E1 & Hfp); [lia..|].
  destruct (from_key_and_nonce_ok u (lit "hat:BLOB-AUTHENTICATION-key") 64)
    as (ba & E2 & Hba); [lia..|].
  destruct (x25519_ok k0 (lit "hat:DATA-key-x25519") Hu) as (dp & ds & E3 & Hd).
  destruct (x25519_ok k0 (lit "hat:ACCESS-key-x25519") Hu) as (ap & as_ & E4 & Ha).
  destruct (x25519_ok k0 (lit "hat:NAMING-key-x25519") Hu) as (np & ns & E5 & Hn).
  rewrite E3, E4, E5. unfold from_nonce. change (universal_key k0) with u.
  rewrite E1, E2. cbn. eexists. split; [reflexivity|]. split; simpl; eauto.
Qed.

Lemma asymmetric_lock_ok pk sk msg r :
  keypair pk sk → ∃ p s ct r', pk = Some p ∧ sk = Some s ∧
    asymmetric_lock p msg r = (Ok ct, r') ∧ length ct = length msg + 48 ∧
    asymmetric_unlock p s ct = Ok msg.
Proof.
  intros (seed & p & s & Hp & -> & ->).
  destruct (box_seal_ok seed p s msg r Hp) as (ct & r' & Hs & Hl & Ho).
  exists p, s, ct, r'. unfold asymmetric_lock, asymmetric_unlock. rewrite Hs, Ho.
  rewrite SEALBYTES_eq, assert_Ok by lia. done.
Qed.

Lemma data_lock_ok k msg r :
  Keeper_ok k → ∃ ct r', data_lock k msg r = (Ok ct, r') ∧ length ct = length msg + 48 ∧
    data_unlock k ct = Ok msg.
Proof.
  intros Hk. destruct (asymmetric_lock_ok _ _ msg r (ok_data k Hk))
    as (p & s & ct & r' & Hp & Hs & Hl & Hlen & Hu).
  exists ct, r'. unfold data_lock, data_unlock. rewrite Hp, Hs. cbn. eauto.
Qed.

Lemma access_lock_ok k msg r :
  Keeper_ok k → ∃ ct r', access_lock k msg r = (Ok ct, r') ∧ length ct = length msg + 48 ∧
    access_unlock k ct = Ok msg.
Proof.
  intros Hk. destruct (asymmetric_lock_ok _ _ msg r (ok_access k Hk))
    as (p & s & ct & r' & Hp & Hs & Hl & Hlen & Hu).
  exists ct, r'. unfold access_lock, access_unlock. rewrite Hp, Hs. cbn. eauto.
Qed.

Lemma naming_lock_ok k msg r :
  Keeper_ok k → ∃ ct r', naming_lock k msg r = (Ok ct, r') ∧ length ct = length msg + 48 ∧
    naming_unlock k ct = Ok msg.
Proof.
  intros Hk. destruct (asymmetric_lock_ok _ _ msg r (ok_naming k Hk))
    as (p & s & ct & r' & Hp & Hs & Hl & Hlen & Hu).
  exists ct, r'. unfold naming_lock, naming_unlock. rewrite Hp, Hs. cbn. eauto.
Qed.

Lemma blob_authentication_ok k blob :
  Keeper_ok k → ∃ out, blob_authentication k blob 64 = Ok out ∧ length out = 64.
Proof.
  intros Hk. destruct (ok_auth k Hk) as (bk & E & Hl). unfold blob_authentication. rewrite E.
  cbn [expect mbind res_bind]. apply keyed_fingerprint_ok; [lia|done|lia].
Qed.

Lemma fingerprint_ok k msg salt n :
  Keeper_ok k → length salt = 16 → 0 < n ≤ 64 →
  ∃ out, fingerprint k msg salt n = Ok out ∧ length out = n.
Proof.
  intros Hk Hs Hn. destruct (ok_fingerprint k Hk) as (fk & E & Hl). unfold fingerprint.
  rewrite E. cbn [expect mbind res_bind]. apply keyed_fingerprint_ok; [lia|done..].
Qed.

Lemma symmetric_lock_ok msg ad nonce key :
  length nonce = 8 → length key = 32 →
  ∃ ct, symmetric_lock msg ad nonce key = Ok ct ∧ length ct = length msg + 16 ∧
    symmetric_unlock key ct ad nonce = Ok msg.
Proof.
  intros Hn Hk. destruct (aead_encrypt_ok msg ad nonce key Hn Hk) as (ct & E & Hl & D).
  exists ct. unfold symmetric_lock, symmetric_unlock. rewrite E, D, ABYTES_eq. cbn.
  rewrite !assert_Ok by lia. done.
Qed.

Lemma random_bytes_ok n r : ∃ b r', random_bytes n r = (Ok b, r') ∧ length b = n.
Proof.
  unfold random_bytes. pose proof (randombytes_length n r).
  destruct (randombytes_buf n r) as [b r']. eauto.
Qed.

End laws.
End keys.

(** ** crypto/mod.rs: sizes ([sealed::desc]) and symmetric keys ([authed::imp]) *)
Section sizes.
Context `{Sodium}.

Definition symmetric_seal_bytes : nat := ABYTES + NPUBBYTES.
Definition footer_plain_bytes : nat := 8 + KEYBYTES.
Definition footer_cipher_bytes : nat := footer_plain_bytes + SEALBYTES.
Definition access_plain_bytes : nat := footer_cipher_bytes + KEYBYTES.
Definition access_cipher_bytes : nat := access_plain_bytes + SEALBYTES.
Definition overhead : nat := symmetric_seal_bytes + access_cipher_bytes.

Definition gen_key : M rng bytes := keys.random_bytes KEYBYTES.
Definition gen_nonce : M rng bytes := keys.random_bytes NPUBBYTES.

Definition mix_keys (access_key other_key : bytes) : res bytes :=
  mixed_key ← keys.keyed_fingerprint access_key other_key (lit "mixkey~~mixkey~~") BYTES_MAX;
  slice 0 KEYBYTES mixed_key.

Definition wrap_key (key : bytes) : chunk.Key := chunk.AeadChacha20Poly1305 key.

End sizes.

(** ** [PlainText] and [PlainTextRef] *)
Module PlainText.

(** byteorder's [read_i64]: the first eight bytes, or an unexpected end of file. *)
Definition read_i64 (l : bytes) : res Z :=
  if decide (8 ≤ length l) then Ok (as_i64 (le_decode (take 8 l)))
  else Err (IoError "failed to fill whole buffer").

Definition from_i64 (n : Z) : bytes := le_encode 8 n.

(** Shared by [PlainTextRef] and [CipherTextRef]. *)
Definition split_from_right (l : bytes) (len : nat) : res (bytes * bytes) :=
  if decide (length l < len) then Err (CryptoError "crypto read failed: split_from_right")
  else
    a ← slice 0 (length l - len) l;
    b ← slice (length l - len) (length l) l;
    Ok (a, b).

Lemma read_from_i64 n rest : is_i64 n → read_i64 (from_i64 n ++ rest) = Ok n.
Proof.
  intros Hn. unfold read_i64, from_i64. rewrite length_app, length_le_encode.
  rewrite decide_True by lia. rewrite take_app_length' by (by rewrite length_le_encode).
  rewrite le_decode_encode. by rewrite as_i64_as_u64.
Qed.

Lemma split_from_right_app a b : split_from_right (a ++ b) (length b) = Ok (a, b).
Proof.
  unfold split_from_right. rewrite length_app, decide_False by lia.
  replace (length a + length b - length b) with (length a) by lia.
  rewrite !slice_Ok by (rewrite ?length_app; lia). cbn [mbind res_bind].
  rewrite Nat.sub_0_r, drop_0, take_app_length, drop_app_length.
  replace (length a + length b - length a) with (length b) by lia. by rewrite firstn_all.
Qed.

Lemma split_from_right_app' a b n :
  n = length b → split_from_right (a ++ b) n = Ok (a, b).
Proof. intros ->. apply split_from_right_app. Qed.

Lemma split_from_right_inv l n a b :
  split_from_right l n = Ok (a, b) → l = a ++ b ∧ length b = n.
Proof.
  unfold split_from_right. case_decide; [done|]. rewrite !slice_Ok by lia.
  cbn [mbind res_bind]. intros [= <- <-]. rewrite Nat.sub_0_r, drop_0.
  replace (length l - (length l - n)) with n by lia. split.
  - rewrite <- (take_drop (length l - n) l) at 1. f_equal.
    rewrite take_ge; [done|]. rewrite length_drop. lia.
  - rewrite length_take, length_drop. lia.
Qed.

End PlainText.
Import PlainText (read_i64, split_from_right).

(** ** [CipherText] *)
Module CipherText.
Section CipherText.
Context `{Sodium}.

Record CipherText := mkCipherText { chunks : list bytes; len : nat }.

Definition empty : CipherText := mkCipherText [] 0.

Definition new (ct : bytes) : CipherText := mkCipherText [ct] (length ct).

Definition append (self other : CipherText) : CipherText :=
  mkCipherText (chunks self ++ chunks other) (len self + len other).

(** The bytes of the collapsed text and the object after the call. *)
Definition collapse (self : CipherText) : res (bytes * CipherText) :=
  self ← (if decide (1 < length (chunks self)) then
            let v := concat (chunks self) in
            assert_ (length v = len self) ;;
            Ok (mkCipherText [v] (len self))
          else Ok self);
  first ← expect (head (chunks self));
  Ok (first, self).

Definition random_pad (size : nat) : M rng CipherText :=
  key ← keys.random_bytes STREAM_KEYBYTES;
  nonce ← keys.random_bytes STREAM_NONCEBYTES;
  stream ← lift (expect (stream_chacha20 size nonce key));
  mret (new stream).

Definition random_pad_upto (self : CipherText) (final_len : nat) : M rng CipherText :=
  if decide (len self < final_len) then
    pad ← random_pad (final_len - len self);
    mret (append self pad)
  else mret self.

Definition to_vec (self : CipherText) : bytes := concat (chunks self).

(** [blob.resize(..)], then the digest of the data is written to the new tail. *)
Definition append_authentication (self : CipherText) (k : keys.Keeper) : res CipherText :=
  '(_, self) ← collapse self;
  assert_ (length (chunks self) = 1) ;;
  data ← expect (head (chunks self));
  hash ← keys.blob_authentication k data BYTES_MAX;
  let blob := data ++ hash in
  Ok (mkCipherText [blob] (length blob)).

(** The length field counts the bytes of the chunks. *)
Definition ok (self : CipherText) : Prop := len self = length (to_vec self).

End CipherText.

Section laws.
Context `{SodiumLaws}.

Lemma to_vec_new ct : to_vec (new ct) = ct.
Proof. unfold to_vec. simpl. by rewrite app_nil_r. Qed.

Lemma to_vec_append a b : to_vec (append a b) = to_vec a ++ to_vec b.
Proof. unfold to_vec, append. simpl. by rewrite concat_app. Qed.

Lemma new_ok ct : ok (new ct).
Proof. unfold ok. by rewrite to_vec_new. Qed.

Lemma empty_ok : ok empty.
Proof. done. Qed.

Lemma append_ok a b : ok a → ok b → ok (append a b).
Proof. unfold ok. intros Ha Hb. rewrite to_vec_append, length_app. simpl. lia. Qed.

Lemma collapse_ok self :
  ok self → chunks self ≠ [] →
  ∃ self', collapse self = Ok (to_vec self, self') ∧ chunks self' = [to_vec self] ∧ ok self'.
Proof.
  destruct self as [[|c [|c' cs]] l]; unfold collapse, ok, to_vec; simpl; rewrite ?app_nil_r;
    intros Hl Hn; [done|..].
  - eexists. split_and!; [reflexivity|simpl; by rewrite ?app_nil_r..].
  - rewrite assert_Ok by done. cbn. eexists. split_and!; [reflexivity|simpl; by rewrite ?app_nil_r..].
Qed.

Lemma random_pad_ok n r : ∃ ct r', random_pad n r = (Ok ct, r') ∧ ok ct ∧ len ct = n.
Proof.
  unfold random_pad.
  destruct (keys.random_bytes_ok STREAM_KEYBYTES r) as (key & r1 & E1 & _).
  destruct (keys.random_bytes_ok STREAM_NONCEBYTES r1) as (nonce & r2 & E2 & _).
  destruct (stream_ok n nonce key) as (s & E3 & Hs).
  run_with E1. run_with E2. unfold lift. rewrite E3. cbn.
  exists (new s), r2. split_and!; [done|apply new_ok|done].
Qed.

(** Padding puts something behind the text, up to the length asked for. *)
Lemma random_pad_upto_ok self n r :
  ok self → len self ≤ n → ∃ out p r', random_pad_upto self n r = (Ok out, r') ∧
    ok out ∧ len out = n ∧ to_vec out = to_vec self ++ p.
Proof.
  intros Hok Hn. unfold random_pad_upto. case_decide.
  - destruct (random_pad_ok (n - len self) r) as (pad & r' & E & Hp & Hl).
    exists (append self pad), (to_vec pad), r'. run_with E.
    split_and!; [done|by apply append_ok|simpl; lia|by rewrite to_vec_append].
  - exists self, [], r. rewrite app_nil_r. split_and!; [done|done|lia|done].
Qed.

Lemma ok_chunks self : ok self → 0 < len self → chunks self ≠ [].
Proof. destruct self as [[|]]; [|done]. intros Hok Hl _. unfold ok, to_vec in Hok. simpl in *. lia. Qed.

Lemma append_authentication_ok self k :
  ok self → chunks self ≠ [] → keys.Keeper_ok k →
  ∃ tag, keys.blob_authentication k (to_vec self) 64 = Ok tag ∧ length tag = 64 ∧
    append_authentication self k = Ok (new (to_vec self ++ tag)).
Proof.
  intros Hok Hn Hk. destruct (collapse_ok self Hok Hn) as (self' & E & Hc & Hok').
  destruct (keys.blob_authentication_ok k (to_vec self) Hk) as (tag & Et & Hl).
  exists tag. split_and!; [done..|]. unfold append_authentication. rewrite E.
  cbn [mbind res_bind]. rewrite Hc. rewrite assert_Ok by done. cbn [mbind res_bind head expect].
  rewrite BYTES_MAX_eq, Et. done.
Qed.

End laws.
End CipherText.

(** ** [CipherTextRef] *)
Section CipherTextRef.
Context `{Sodium}.

Definition to_ciphertext (pt additional_data nonce key : bytes) : res CipherText.CipherText :=
  ct ← keys.symmetric_lock pt additional_data nonce key;
  Ok (CipherText.new ct).

Definition to_plaintext (ct additional_data nonce key : bytes) : res bytes :=
  keys.symmetric_unlock key ct additional_data nonce.

Definition strip_authentication (ct : bytes) (k : keys.Keeper) : res bytes :=
  '(rest, want) ← split_from_right ct BYTES_MAX;
  got ← keys.blob_authentication k rest BYTES_MAX;
  if decide (want = got) then Ok rest
  else Err (CryptoError "crypto read failed: strip_authentication").

End CipherTextRef.

(** ** [RefKey]: a chunk is sealed with a key of its own, kept in its reference *)
Module RefKey.
Section RefKey.
Context `{Sodium}.

(** The ciphertext, and the reference with its key and length filled in. *)
Definition seal (href : tree.HashRef) (access_key pt : bytes)
    : M rng (CipherText.CipherText * tree.HashRef) :=
  partial_key ← gen_key;
  let p := tree.persistent_ref href in
  nonce ← lift (slice 0 NPUBBYTES (tree.hash href));
  key ← lift (mix_keys access_key partial_key);
  let additional_data := keys.compute_salt (tree.node href) (tree.leaf href) in
  ct ← lift (to_ciphertext pt additional_data nonce key);
  mret (ct, tree.with_persistent_ref
    (chunk.mkChunkRef (chunk.blob_id p) (chunk.blob_name p) (chunk.offset p)
       (CipherText.len ct) (chunk.packing p) (Some (wrap_key partial_key))) href).

Definition unseal (access_key : bytes) (href : tree.HashRef) (ct : bytes) : res bytes :=
  let p := tree.persistent_ref href in
  assert_ (chunk.offset p + chunk.length p < length ct) ;;
  ct ← slice (chunk.offset p) (chunk.offset p + chunk.length p) ct;
  match chunk.key p with
  | Some (chunk.AeadChacha20Poly1305 key) =>
      if decide (NPUBBYTES ≤ length (tree.hash href)) then
        nonce ← slice 0 NPUBBYTES (tree.hash href);
        let additional_data := keys.compute_salt (tree.node href) (tree.leaf href) in
        real_key ← mix_keys access_key key;
        to_plaintext ct additional_data nonce real_key
      else Err (CryptoError "crypto read failed: unseal")
  | None => Err (CryptoError "crypto read failed: unseal")
  end.

End RefKey.
End RefKey.

(** ** [FixedKey]: the footer of a blob, sealed with the keeper's keys *)
Module FixedKey.
Section FixedKey.
Context `{Sodium}.

Definition seal_blob_name (k : keys.Keeper) (pt : bytes) : M rng CipherText.CipherText :=
  ct ← keys.naming_lock k pt; mret (CipherText.new ct).

Definition unseal_blob_name (k : keys.Keeper) (ct : bytes) : res bytes :=
  keys.naming_unlock k ct.

Definition seal_blob_data (k : keys.Keeper) (pt : bytes) : M rng CipherText.CipherText :=
  ct ← keys.data_lock k pt; mret (CipherText.new ct).

Definition unseal_blob_data (k : keys.Keeper) (ct : bytes) : res bytes := keys.data_unlock k ct.

Definition seal_blob_access (k : keys.Keeper) (pt : bytes) : M rng CipherText.CipherText :=
  ct ← keys.access_lock k pt; mret (CipherText.new ct).

Definition unseal_blob_access (k : keys.Keeper) (ct : bytes) : res bytes :=
  keys.access_unlock k ct.

Definition new_access_partial_key : M rng bytes := gen_key.

Definition seal (k : keys.Keeper) (access_key pt : bytes) : M rng CipherText.CipherText :=
  inner_key ← gen_key;
  nonce ← gen_nonce;
  ct ← lift (to_ciphertext pt (lit "hat_blob_seal~") nonce inner_key);
  let ct := CipherText.append ct (CipherText.new nonce) in
  let foot_pt := PlainText.from_i64 (as_i64 (usize_as_u64 (CipherText.len ct))) ++ inner_key in
  lift (assert_ (length foot_pt = footer_plain_bytes)) ;;
  foot_ct ← seal_blob_data k foot_pt;
  lift (assert_ (CipherText.len foot_ct = footer_cipher_bytes)) ;;
  let access_pt := CipherText.to_vec foot_ct ++ access_key in
  lift (assert_ (length access_pt = access_plain_bytes)) ;;
  access_ct ← seal_blob_access k access_pt;
  lift (assert_ (CipherText.len access_ct = access_cipher_bytes)) ;;
  let ct := CipherText.append ct access_ct in
  lift (assert_ (CipherText.len ct = length pt + overhead)) ;;
  mret ct.

(** The access key, the sealed footer and what precedes the access part. *)
Definition unseal_access_ctx (k : keys.Keeper) (ct : bytes)
    : res (bytes * CipherText.CipherText * bytes) :=
  '(rest, access_ct) ← split_from_right ct access_cipher_bytes;
  access_pt ← unseal_blob_access k access_ct;
  assert_ (length access_pt = access_plain_bytes) ;;
  let at_ := access_plain_bytes - KEYBYTES in
  let access_key := drop at_ access_pt in
  Ok (access_key, CipherText.new (take at_ access_pt), rest).

Definition unseal (k : keys.Keeper) (footer_ct ct : bytes) : res (bytes * bytes) :=
  assert_ (length footer_ct = footer_cipher_bytes) ;;
  foot_pt ← unseal_blob_data k footer_ct;
  assert_ (length foot_pt = footer_plain_bytes) ;;
  '(foot_len, inner_key) ← split_from_right foot_pt KEYBYTES;
  ct_len ← match read_i64 foot_len with
           | Err _ => Err (CryptoError "crypto read failed: unseal")
           | x => x
           end;
  assert_ (0 < ct_len)%Z ;;
  '(rest, ct_and_nonce) ← split_from_right ct (u64_as_usize (as_u64 ct_len));
  '(ct, nonce) ← split_from_right ct_and_nonce NPUBBYTES;
  pt ← to_plaintext ct (lit "hat_blob_seal~") nonce inner_key;
  Ok (rest, pt).

End FixedKey.
End FixedKey.

(** ** Round trips *)
Section roundtrip.
Context `{SodiumLaws}.

Lemma sizes_eq :
  symmetric_seal_bytes = 24 ∧ footer_plain_bytes = 40 ∧ footer_cipher_bytes = 88 ∧
  access_plain_bytes = 120 ∧ access_cipher_bytes = 168 ∧ overhead = 192.
Proof.
  unfold overhead, access_cipher_bytes, access_plain_bytes, footer_cipher_bytes,
    footer_plain_bytes, symmetric_seal_bytes.
  rewrite ABYTES_eq, NPUBBYTES_eq, KEYBYTES_eq, SEALBYTES_eq. done.
Qed.

Lemma mix_keys_ok a b : length a ≤ 64 → ∃ m, mix_keys a b = Ok m ∧ length m = 32.
Proof.
  intros Ha. unfold mix_keys. rewrite BYTES_MAX_eq, KEYBYTES_eq.
  destruct (keys.keyed_fingerprint_ok a b (lit "mixkey~~mixkey~~") 64) as (m & -> & Hm);
    [done|done|lia|].
  cbn [mbind res_bind]. rewrite slice_Ok by lia. eexists. split; [done|].
  rewrite length_take, length_drop. lia.
Qed.

Lemma to_ciphertext_ok pt ad nonce key :
  length nonce = 8 → length key = 32 →
  ∃ ct, to_ciphertext pt ad nonce key = Ok (CipherText.new ct) ∧ length ct = length pt + 16 ∧
    to_plaintext ct ad nonce key = Ok pt.
Proof.
  intros Hn Hk. destruct (keys.symmetric_lock_ok pt ad nonce key Hn Hk) as (ct & E & Hl & D).
  exists ct. unfold to_ciphertext, to_plaintext. rewrite E. done.
Qed.

Lemma gen_key_ok r : ∃ k r', gen_key r = (Ok k, r') ∧ length k = 32.
Proof.
  destruct (keys.random_bytes_ok KEYBYTES r) as (k & r' & E & Hl).
  exists k, r'. by rewrite KEYBYTES_eq in Hl.
Qed.

(** What [RefKey.seal] leaves in the reference. *)
Record sealed (href href' : tree.HashRef) (n : nat) : Prop := {
  sealed_key : ∃ key, length key = 32 ∧
    chunk.key (tree.persistent_ref href') = Some (chunk.AeadChacha20Poly1305 key);
  sealed_eq : href' = tree.with_persistent_ref (tree.persistent_ref href') href;
  sealed_p : tree.persistent_ref href' =
    let p := tree.persistent_ref href in
    chunk.mkChunkRef (chunk.blob_id p) (chunk.blob_name p) (chunk.offset p) n (chunk.packing p)
      (chunk.key (tree.persistent_ref href'));
}.

(** A reference as [unseal] reads it: only these fields matter. *)
Definition same_seal (h1 h2 : tree.HashRef) : Prop :=
  tree.hash h1 = tree.hash h2 ∧ tree.node h1 = tree.node h2 ∧ tree.leaf h1 = tree.leaf h2 ∧
  chunk.length (tree.persistent_ref h1) = chunk.length (tree.persistent_ref h2) ∧
  chunk.key (tree.persistent_ref h1) = chunk.key (tree.persistent_ref h2).

(** Sealing a chunk and unsealing it at the place the reference names gives the chunk. *)
Lemma RefKey_seal_unseal href access_key pt r :
  8 ≤ length (tree.hash href) → length access_key = 32 →
  ∃ ct href' r', RefKey.seal href access_key pt r = (Ok (CipherText.new ct, href'), r') ∧
    length ct = length pt + 16 ∧ sealed href href' (length ct) ∧
    ∀ pre post h, post ≠ [] → same_seal h href' →
      chunk.offset (tree.persistent_ref h) = length pre →
      RefKey.unseal access_key h (pre ++ ct ++ post) = Ok pt.
Proof.
  intros Hh Ha. destruct (gen_key_ok r) as (pk & r1 & E1 & Hpk).
  destruct (mix_keys_ok access_key pk) as (mk & E2 & Hmk); [lia|].
  destruct (to_ciphertext_ok pt (keys.compute_salt (tree.node href) (tree.leaf href))
    (take 8 (tree.hash href)) mk) as (ct & E3 & Hct & D);
    [rewrite length_take; lia|done|].
  assert (slice 0 NPUBBYTES (tree.hash href) = Ok (take 8 (tree.hash href))) as E0.
  { rewrite NPUBBYTES_eq, slice_Ok by lia. by rewrite drop_0. }
  exists ct. eexists _, r1. split_and!.
  - unfold RefKey.seal. run_with E1. unfold lift, mbind, M_bind, mret, M_ret.
    rewrite E0, E2, E3. reflexivity.
  - done.
  - split; simpl; [by exists pk|done|done].
  - intros pre post h Hpost (Hhash & Hnode & Hleaf & Hlen & Hkey) Hoff. simpl in *.
    unfold RefKey.unseal. rewrite Hoff, Hlen, Hkey. destruct post as [|c post]; [done|].
    rewrite assert_Ok by (rewrite !length_app; simpl; lia). cbn [mbind res_bind].
    rewrite (slice_app_mid pre ct (c :: post)) by done. cbn [mbind res_bind wrap_key].
    rewrite Hhash, Hnode, Hleaf, NPUBBYTES_eq, decide_True by done.
    rewrite NPUBBYTES_eq in E0. rewrite E0. cbn [mbind res_bind]. by rewrite E2.
Qed.

(** The two readings of what a seal appends: the access part gives the access key and the
    footer's part, which with the body gives the text again. *)
Lemma unseal_access_split k foot access_key acc rest :
  keys.access_unlock k acc = Ok (foot ++ access_key) → length foot = footer_cipher_bytes →
  length access_key = 32 → length acc = access_cipher_bytes →
  FixedKey.unseal_access_ctx k (rest ++ acc) = Ok (access_key, CipherText.new foot, rest).
Proof.
  intros Dacc Hf Ha Hacc. destruct sizes_eq as (S1 & S2 & S3 & S4 & S5 & S6).
  unfold FixedKey.unseal_access_ctx, FixedKey.unseal_blob_access.
  rewrite PlainText.split_from_right_app' by lia. cbn [mbind res_bind]. rewrite Dacc.
  cbn [mbind res_bind]. rewrite assert_Ok by (rewrite length_app; lia). cbn [mbind res_bind].
  rewrite S4, KEYBYTES_eq. change (120 - 32) with 88.
  rewrite drop_app_length' by lia. by rewrite take_app_length' by lia.
Qed.

Lemma unseal_split k foot ct nc ik pt rest (n := Z.of_nat (length ct + length nc)) :
  keys.data_unlock k foot = Ok (PlainText.from_i64 n ++ ik) → length foot = footer_cipher_bytes →
  to_plaintext ct (lit "hat_blob_seal~") nc ik = Ok pt →
  length nc = 8 → length ik = 32 → (0 < n < 2 ^ 63)%Z →
  FixedKey.unseal k foot (rest ++ ct ++ nc) = Ok (rest, pt).
Proof.
  intros Df Hf D Hnc Hik Hn. destruct sizes_eq as (S1 & S2 & S3 & S4 & S5 & S6).
  unfold FixedKey.unseal, FixedKey.unseal_blob_data.
  rewrite S3, assert_Ok by lia. cbn [mbind res_bind]. rewrite Df. cbn [mbind res_bind].
  rewrite S2, assert_Ok by (unfold PlainText.from_i64; rewrite length_app, length_le_encode; lia).
  cbn [mbind res_bind]. rewrite PlainText.split_from_right_app' by (by rewrite KEYBYTES_eq).
  cbn [mbind res_bind]. assert (is_i64 n) as Hi by (unfold n in *; lia).
  rewrite <- (app_nil_r (PlainText.from_i64 n)), PlainText.read_from_i64 by done.
  cbn [mbind res_bind]. rewrite assert_Ok by lia. cbn [mbind res_bind]. rewrite as_u64_id by lia.
  rewrite PlainText.split_from_right_app' by (unfold n, u64_as_usize; rewrite length_app; lia).
  cbn [mbind res_bind]. rewrite PlainText.split_from_right_app' by (by rewrite NPUBBYTES_eq).
  cbn [mbind res_bind]. by rewrite D.
Qed.

(** The footer seal: what [seal] appends is taken apart again by [unseal_access_ctx] and
    [unseal], whatever precedes it. *)
Lemma FixedKey_seal_unseal k access_key pt r :
  keys.Keeper_ok k → length access_key = 32 → (Z.of_nat (length pt) + 24 < 2 ^ 63)%Z →
  ∃ ct r' body foot acc, FixedKey.seal k access_key pt r = (Ok ct, r') ∧
    CipherText.ok ct ∧ CipherText.to_vec ct = body ++ acc ∧
    length body = length pt + symmetric_seal_bytes ∧ length acc = access_cipher_bytes ∧
    (∀ rest, FixedKey.unseal_access_ctx k (rest ++ acc)
             = Ok (access_key, CipherText.new foot, rest)) ∧
    (∀ rest, FixedKey.unseal k foot (rest ++ body) = Ok (rest, pt)).
Proof.
  intros Hk Ha Hpt. destruct sizes_eq as (S1 & S2 & S3 & S4 & S5 & S6).
  destruct (gen_key_ok r) as (ik & r1 & E1 & Hik).
  destruct (keys.random_bytes_ok NPUBBYTES r1) as (nc & r2 & E2 & Hnc).
  rewrite NPUBBYTES_eq in Hnc.
  destruct (to_ciphertext_ok pt (lit "hat_blob_seal~") nc ik) as (ct & E3 & Hct & D); [done..|].
  set (n := Z.of_nat (length ct + length nc)).
  assert (is_i64 n) as Hn by (unfold n; lia).
  set (foot_pt := PlainText.from_i64 n ++ ik).
  assert (length foot_pt = 40) as Hfp.
  { unfold foot_pt, PlainText.from_i64. rewrite length_app, length_le_encode. lia. }
  destruct (keys.data_lock_ok k foot_pt r2 Hk) as (foot & r3 & E4 & Hf & Df).
  destruct (keys.access_lock_ok k (foot ++ access_key) r3 Hk) as (acc & r4 & E5 & Hacc & Dacc).
  rewrite length_app in Hacc.
  exists (CipherText.append (CipherText.append (CipherText.new ct) (CipherText.new nc))
            (CipherText.new acc)), r4, (ct ++ nc), foot, acc.
  split_and!.
  - unfold FixedKey.seal. run_with E1. unfold gen_nonce. run_with E2. run_lift E3.
    cbv zeta. cbn [CipherText.append CipherText.len CipherText.new]. unfold usize_as_u64.
    fold n. rewrite as_i64_id by done. fold foot_pt. run_assert lia.
    unfold FixedKey.seal_blob_data, FixedKey.seal_blob_access.
    rewrite bind_assoc. run_with E4. rewrite bind_Ok with (a := CipherText.new foot) (s' := r3)
      by done. rewrite CipherText.to_vec_new. cbn [CipherText.len CipherText.new].
    run_assert lia. run_assert ltac:(rewrite length_app; lia).
    rewrite bind_assoc. run_with E5. rewrite bind_Ok with (a := CipherText.new acc) (s' := r4)
      by done. cbn [CipherText.len CipherText.append CipherText.new].
    run_assert lia. run_assert lia. done.
  - repeat apply CipherText.append_ok; apply CipherText.new_ok.
  - by rewrite !CipherText.to_vec_append, !CipherText.to_vec_new.
  - rewrite length_app. lia.
  - lia.
  - intros rest. apply unseal_access_split; [done|lia..].
  - intros rest. apply unseal_split with (nc := nc) (ik := ik); [done|lia|done..|]. unfold n in *. lia.
Qed.

(** Only a text that ends in the digest of the rest is accepted. *)
Lemma strip_authentication_spec k ct rest :
  keys.Keeper_ok k →
  strip_authentication ct k = Ok rest ↔
  ∃ tag, ct = rest ++ tag ∧ keys.blob_authentication k rest 64 = Ok tag.
Proof.
  intros Hk. unfold strip_authentication. rewrite BYTES_MAX_eq. split.
  - intros ([a b]&E&Hx)%res_bind_Ok_inv. apply PlainText.split_from_right_inv in E as [-> Hl].
    apply res_bind_Ok_inv in Hx as (got & Eg & Hx). case_decide; simplify_eq. eauto.
  - intros (tag & -> & E).
    destruct (keys.blob_authentication_ok k rest Hk) as (tag' & E' & Hl). rewrite E in E'; injection E' as <-.
    rewrite PlainText.split_from_right_app' by lia. cbn [mbind res_bind]. rewrite E.
    cbn [mbind res_bind]. by rewrite decide_True.
Qed.

End roundtrip.
