(* ===== verification/ModelSodium.v ===== *)
(** * A concrete libsodium for the runs

    The development is parametric in libsodium (the class [Sodium] of Crypto.v). This instance
    keeps its laws, so that the theorems can be run: a seal appends a checksum of the key, the
    nonce and the additional data, which opening compares; the random generator counts. It
    hides nothing, and nothing depends on it but the witnesses. *)

From S2P Require Import Prelude Crypto.

Module ModelSodium.

Definition checksum (l : bytes) : Z :=
  foldl (λ acc b, (acc * 257 + byte_to_Z b + 1) mod (2 ^ 61 - 1))%Z 7%Z l.

Definition tag (n : nat) (l : bytes) : bytes := le_encode n (checksum l).

(** [msg] followed by the tag of [l]. *)
Definition append_tag (n : nat) (msg l : bytes) : bytes := msg ++ tag n l.

Definition check_tag (n : nat) (ct l : bytes) : option bytes :=
  let at_ := length ct - n in
  if decide (n ≤ length ct ∧ drop at_ ct = tag n l) then Some (take at_ ct) else None.

#[local] Instance model_sodium : Sodium := {|
  KEYBYTES := 32;
  NPUBBYTES := 8;
  ABYTES := 16;
  SEALBYTES := 48;
  BYTES_MAX := 64;
  SALTBYTES := 16;
  STREAM_KEYBYTES := 32;
  STREAM_NONCEBYTES := 8;
  rng := nat;
  randombytes_buf n r := (replicate n (byte_of_nat r), S r);
  generichash_salt_personal n msg key salt personal :=
    Some (tag n (msg ++ key ++ salt ++ personal));
  aead_encrypt msg ad nonce key := Some (append_tag 16 msg (ad ++ nonce ++ key));
  aead_decrypt ct ad nonce key := check_tag 16 ct (ad ++ nonce ++ key);
  box_seed_keypair seed := Some (seed, seed);
  box_seal msg pk r := (Some (append_tag 48 msg pk), S r);
  box_seal_open ct pk _ := check_tag 48 ct pk;
  stream_chacha20 n _ _ := Some (replicate n Byte.x00);
|}.

Lemma check_append_tag n msg l : check_tag n (append_tag n msg l) l = Some msg.
Proof.
  unfold check_tag, append_tag, tag. rewrite length_app, length_le_encode, Nat.add_sub.
  rewrite drop_app_length, take_app_length. rewrite decide_True; [done|].
  split; [lia|done].
Qed.

Lemma check_tag_length n ct l msg : check_tag n ct l = Some msg → length ct = length msg + n.
Proof. unfold check_tag. case_decide as Hd; intros; simplify_eq. rewrite length_take. lia. Qed.

Lemma append_tag_length n msg l : length (append_tag n msg l) = length msg + n.
Proof. unfold append_tag, tag. by rewrite length_app, length_le_encode. Qed.

#[local] Instance model_laws : SodiumLaws.
Proof.
  split; simpl; try done.
  - intros. by rewrite length_replicate.
  - intros. eexists. split; [done|]. apply length_le_encode.
  - intros. eexists. split; [done|]. by rewrite append_tag_length, check_append_tag.
  - intros. by eapply check_tag_length.
  - intros seed pk sk msg r [= -> ->]. eexists _, _. split; [done|].
    by rewrite append_tag_length, check_append_tag.
  - intros ct pk _ msg. apply check_tag_length.
  - intros. eexists. split; [done|]. by rewrite length_replicate.
Qed.

End ModelSodium.
