(* ===== verification/HashIndex.v ===== *)
(** * The hash index: hash/mod.rs

    A queue of the hashes whose chunks are on their way to external storage, in front of the
    table [hashes] of the database. A hash is written to the table when it is reserved, as not
    ready, and becomes ready in the order of the ids. Both locks are taken by every operation
    that needs both, so an operation is atomic. *)

From S2P Require Import Prelude Cbor Refs Ordered Upq Timer Db Crypto.
From S2P Require Models.
Import Ordered.tags (Tag).
Import UniquePriorityQueue (Upq, Upq_ok, priority, key_to_priority, Pending, Ready).

(** ** [Hash] and [Entry] *)
Module hash.

(** [Hash::new]: the digest is keyed, and salted with the kinds of the node and the leaf. *)
Definition Hash_new `{Sodium} (k : keys.Keeper) (nodetype : chunk.NodeType)
    (leaftype : Models.LeafType) (text : bytes) : res bytes :=
  let salt := keys.compute_salt nodetype leaftype in
  keys.fingerprint k text salt 64.

Record Entry := mkEntry {
  hash : bytes;
  node : chunk.NodeType;
  leaf : Models.LeafType;
  childs : option (list Z);
  persistent_ref : option chunk.ChunkRef;
}.

End hash.

Inductive ReserveResult := HashKnown (id : Z) | ReserveOk (id : Z).

Abbreviation Queue := (Upq Z bytes QueueEntry).

(** [InternalHashIndex]: the queue and the shared database. *)
Record HashIndex := mkHashIndex { queue : Queue; index : InternalIndex }.

Definition queue_lens : lens HashIndex Queue :=
  Lens queue (λ q s, mkHashIndex q (index s)).
Definition index_lens : lens HashIndex InternalIndex :=
  Lens index (λ i s, mkHashIndex (queue s) i).

#[global] Instance queue_lens_laws : LensLaws queue_lens.
Proof. by split; intros; destruct w. Qed.

#[global] Instance index_lens_laws : LensLaws index_lens.
Proof. by split; intros; destruct w. Qed.

Abbreviation HI := (M HashIndex).

#[global] Instance Z_le_total_order : TotalOrder Z.le.
Proof.
  split; [split; [split; [intros ?; lia|intros ???; lia]|intros ???; lia]|].
  intros x y. unfold trichotomy, strict. lia.
Qed.

Section HashIndex.
Context `{Cbor Models.ChunkRef} `{Cbor Models.HashIds} `{Cbor Models.HashRef}.

(** *** [InternalHashIndex] *)

Definition locate (hash_ : bytes) : HI (option QueueEntry) :=
  q ← gets queue;
  match UniquePriorityQueue.find_value_of_key q hash_ with
  | Some qe => mret (Some qe)
  | None => zoom index_lens (hash_locate hash_)
  end.

Definition reserve_entry (hash_entry : hash.Entry) : HI Z :=
  zoom index_lens maybe_flush ;;
  lift (assert_ (hash.hash hash_entry ≠ [])) ;;
  my_id ← zoom index_lens hash_next_id;
  let qe := mkQueueEntry my_id (hash.node hash_entry) (hash.leaf hash_entry)
    (hash.childs hash_entry) (hash.persistent_ref hash_entry) None in
  zoom index_lens (hash_insert_new my_id (hash.hash hash_entry) qe) ;;
  ok ← zoom queue_lens (UniquePriorityQueue.put_value my_id (hash.hash hash_entry) qe);
  lift (assert_ (ok = true)) ;;
  mret my_id.

Definition reserved_id (hash_ : bytes) : HI (option Z) :=
  gets (λ s, UniquePriorityQueue.find_key (queue s) hash_).

Definition update_reserved (id : Z) (hash_entry : hash.Entry) : HI unit :=
  lift (assert_ (hash.hash hash_entry ≠ [])) ;;
  old ← gets (λ s, UniquePriorityQueue.find_key (queue s) (hash.hash hash_entry));
  match old with
  | Some old_id => lift (assert_ (old_id = id))
  | None => panic
  end ;;
  zoom queue_lens (UniquePriorityQueue.update_value (hash.hash hash_entry) (λ qe,
    mkQueueEntry (q_id qe) (hash.node hash_entry) (hash.leaf hash_entry)
      (hash.childs hash_entry) (hash.persistent_ref hash_entry) (q_tag qe))).

(** [while let Some(..) = queue.pop_min_if_complete()] *)
Fixpoint pop_loop (fuel : nat) : HI unit :=
  match fuel with
  | O => diverge
  | S fuel =>
      e ← zoom queue_lens (UniquePriorityQueue.pop_min_if_complete Z.le);
      match e with
      | None => mret ()
      | Some (id_, _, queue_entry) =>
          lift (assert_ (id_ = q_id queue_entry)) ;;
          zoom index_lens (hash_set_ready id_ queue_entry) ;;
          pop_loop fuel
      end
  end.

(** Every round removes an entry of the queue. *)
Definition insert_completed_in_order : HI unit :=
  fuel ← gets (λ s, S (UniquePriorityQueue.len (queue s)));
  pop_loop fuel ;;
  zoom index_lens maybe_flush.

(** *** [HashIndex] *)

Definition commit (id : Z) (entry_opt : option hash.Entry) : HI unit :=
  match entry_opt with
  | Some e => update_reserved id e
  | None => mret ()
  end ;;
  zoom queue_lens (UniquePriorityQueue.set_ready id) ;;
  insert_completed_in_order.

Definition HashIndex_new : M InternalIndex HashIndex :=
  hash_delete_not_ready ;;
  gets (mkHashIndex UniquePriorityQueue.new).

(** [Drop]: the queue must have been emptied. *)
Definition HashIndex_drop : HI unit :=
  q ← gets queue; lift (assert_ (UniquePriorityQueue.len q = 0)).

Definition get_id (hash_ : bytes) : HI (option Z) :=
  lift (assert_ (hash_ ≠ [])) ;;
  e ← locate hash_; mret (q_id <$> e).

Definition get_hash (id : Z) : HI (option Entry) := zoom index_lens (hash_locate_by_id id).

Definition hash_exists (hash_ : bytes) : HI bool :=
  lift (assert_ (hash_ ≠ [])) ;;
  e ← locate hash_; mret (bool_decide (is_Some e)).

Definition fetch_childs (hash_ : bytes) : HI (option (option (list Z))) :=
  lift (assert_ (hash_ ≠ [])) ;;
  e ← locate hash_; mret (q_childs <$> e).

(** [RetryError] while the chunk has no place in a blob yet. *)
Definition fetch_persistent_ref (hash_ : bytes) : HI (option chunk.ChunkRef) :=
  lift (assert_ (hash_ ≠ [])) ;;
  e ← locate hash_;
  match e with
  | Some queue_entry =>
      match q_persistent_ref queue_entry with
      | None => throw RetryError
      | Some r => mret (Some r)
      end
  | None => mret None
  end.

Definition fetch_hash_ref (hash_ : bytes) : HI (option tree.HashRef) :=
  lift (assert_ (hash_ ≠ [])) ;;
  e ← locate hash_;
  match e with
  | Some queue_entry =>
      match q_persistent_ref queue_entry with
      | None => throw RetryError
      | Some r =>
          mret (Some (tree.mkHashRef hash_ (q_node queue_entry) (q_leaf queue_entry) r None))
      end
  | None => mret None
  end.

Definition reserve (hash_entry : hash.Entry) : HI ReserveResult :=
  lift (assert_ (hash.hash hash_entry ≠ [])) ;;
  e ← locate (hash.hash hash_entry);
  match e with
  | Some entry => mret (HashKnown (q_id entry))
  | None => id ← reserve_entry hash_entry; mret (ReserveOk id)
  end.

Definition list_hashes : HI (list Entry) := zoom index_lens hash_list.

Definition delete_hash (id : Z) : HI unit := zoom index_lens (hash_delete id).

Definition set_tag (id : Z) (tag : Tag) : HI unit := zoom index_lens (hash_set_tag (Some id) tag).

Definition set_all_tags (tag : Tag) : HI unit := zoom index_lens (hash_set_tag None tag).

Definition get_tag (id : Z) : HI (option Tag) :=
  q ← gets queue;
  match UniquePriorityQueue.find_mut_value_of_priority q id with
  | Some qe => mret (q_tag qe)
  | None => zoom index_lens (hash_get_tag id)
  end.

Definition get_ids_by_tag (tag : Z) : HI (list Z) := zoom index_lens (hash_list_ids_by_tag tag).

Definition read_gc_data (hash_id family_id : Z) : HI GcData :=
  zoom index_lens (hash_read_gc_data hash_id family_id).

Definition update_gc_data (hash_id family_id : Z) (f : UpdateFn) : HI GcData :=
  zoom index_lens (hash_update_gc_data hash_id family_id f).

Definition update_family_gc_data (family_id : Z) (fns : list UpdateFn) : HI unit :=
  zoom index_lens (hash_update_family_gc_data family_id fns).

(** The automatic commits stay off after the first manual one. *)
Definition manual_commit : HI unit :=
  zoom index_lens flush ;; zoom index_lens (set_auto_flush false).

Definition flush_index : HI unit := zoom index_lens flush.

End HashIndex.

(** ** The invariant *)

(** The ids an entry names as its children are in the table and smaller than its own. *)
Definition childs_below (t : gmap Z schema.Hash) (p : Z) (o : option (list Z)) : Prop :=
  Forall (λ c, (0 ≤ c < p)%Z ∧ is_Some (t !! c)) (default [] o).

(** The children of a ready hash are there and ready. *)
Definition closed `{Cbor Models.HashIds} (t : gmap Z schema.Hash) : Prop :=
  ∀ i h cs, t !! i = Some h → schema.ready h = true → childs_of_row h = Ok (Some cs) →
    Forall (λ c, ∃ h', t !! c = Some h' ∧ schema.ready h' = true) cs.

(** The queue against the table it stands in front of. *)
Record rows_ok `{Cbor Models.HashIds} (q : Queue) (t : gmap Z schema.Hash) : Prop := {
  (* an entry of the queue has its row, which is not ready *)
  queued_row : ∀ p st k qe, priority q !! p = Some (st, k, qe) →
    q_id qe = p ∧ (0 < p < 2 ^ 63)%Z ∧ childs_below t p (q_childs qe) ∧
    ∃ h, t !! p = Some h ∧ schema.hash h = k ∧ schema.ready h = false;
  (* a row that is not ready is still in the queue *)
  not_ready_queued : ∀ i h, t !! i = Some h → schema.ready h = false → is_Some (priority q !! i);
  (* the ready rows come before the queue *)
  ready_before : ∀ i h p, t !! i = Some h → schema.ready h = true →
    is_Some (priority q !! p) → (i < p)%Z;
  rows_closed : closed t;
}.

Record HashIndex_ok `{Cbor Models.HashIds} (s : HashIndex) : Prop := {
  hi_queue : Upq_ok (queue s);
  hi_index : Index_ok (index s);
  hi_rows : rows_ok (queue s) (schema.hashes (cur (index s)));
  hi_committed : closed (schema.hashes (committed (index s)));
  hi_committed_ids : ∀ i h, schema.hashes (committed (index s)) !! i = Some h →
    (0 < i < 2 ^ 63)%Z;
  hi_counter : (Counter.previous (hash_id_counter (index s)) < 2 ^ 63)%Z;
}.

(** Two tables that agree on the digests, the children and the readiness of their rows. *)
Definition row_view (h : schema.Hash) : bytes * option bytes * bool :=
  (schema.hash h, schema.childs h, schema.ready h).

Definition same_view (t t' : gmap Z schema.Hash) : Prop :=
  ∀ i, row_view <$> t !! i = row_view <$> t' !! i.

Section rows.
Context `{CborLaws Models.HashIds}.

Lemma same_view_lookup t t' i h :
  same_view t t' → t' !! i = Some h → ∃ h', t !! i = Some h' ∧ row_view h' = row_view h.
Proof.
  intros Hs Hi. specialize (Hs i). rewrite Hi in Hs. simpl in Hs.
  destruct (t !! i) as [h'|]; simpl in Hs; [|done]. injection Hs as E1 E2 E3.
  exists h'. split; [done|]. unfold row_view. congruence.
Qed.

Lemma same_view_sym t t' : same_view t t' → same_view t' t.
Proof. intros Hs i. by rewrite Hs. Qed.

Lemma same_view_update p f t :
  (∀ h, row_view (f h) = row_view h) → same_view t (update p f t).
Proof.
  intros Hf i. rewrite lookup_update. destruct (t !! i) as [h|]; [|done]. simpl.
  f_equal. case_match; by rewrite ?Hf.
Qed.

Lemma closed_view t t' : same_view t t' → closed t → closed t'.
Proof.
  intros Hs Hc i h cs Hi Hr Hcs.
  destruct (same_view_lookup _ _ _ _ Hs Hi) as (h0 & Hi0 & Ev).
  unfold row_view in Ev. injection Ev as Eh Ech Er.
  eapply Forall_impl; [eapply (Hc i h0 cs Hi0)|].
  - congruence.
  - unfold childs_of_row in *. by rewrite Ech.
  - intros c (h1 & Hr1 & R1).
    destruct (same_view_lookup _ _ _ _ (same_view_sym _ _ Hs) Hr1) as (h2 & Hr2 & Ev2).
    exists h2. split; [done|]. unfold row_view in Ev2. congruence.
Qed.

Lemma rows_ok_view q t t' : same_view t t' → rows_ok q t → rows_ok q t'.
Proof.
  intros Hs [Hq Hn Hb Hc]. split; [| | |by eapply closed_view].
  - intros p st k qe Hp. destruct (Hq _ _ _ _ Hp) as (? & ? & Hch & h & Hh & Hk & Hr).
    destruct (same_view_lookup _ _ _ _ (same_view_sym _ _ Hs) Hh) as (h2 & Hr2 & Ev).
    unfold row_view in Ev. injection Ev as E1 E2 E3. split_and!; [done|lia|lia| |exists h2; by rewrite E1, E3].
    eapply Forall_impl; [exact Hch|]. intros c [? [hc Hhc]]. split; [done|].
    destruct (same_view_lookup _ _ _ _ (same_view_sym _ _ Hs) Hhc) as (h3 & -> & _). eauto.
  - intros i h Hi Hr. destruct (same_view_lookup _ _ _ _ Hs Hi) as (h2 & Hr2 & Ev).
    unfold row_view in Ev. eapply Hn; [done|]. congruence.
  - intros i h p Hi Hr. destruct (same_view_lookup _ _ _ _ Hs Hi) as (h2 & Hr2 & Ev).
    unfold row_view in Ev. eapply Hb; [done|]. congruence.
Qed.

Lemma childs_below_mono t t' p o :
  (∀ i, is_Some (t !! i) → is_Some (t' !! i)) → childs_below t p o → childs_below t' p o.
Proof. intros Ht Hc. eapply Forall_impl; [exact Hc|]. intros c [? ?]. auto. Qed.

(** A row that is not ready is no child of a ready one, so rows may come. *)
Lemma closed_insert t p h :
  t !! p = None → schema.ready h = false → closed t → closed (<[p := h]> t).
Proof.
  intros Hp Hr Hc i h' cs Hi Hr' Hcs. apply lookup_insert_Some in Hi as [[<- <-]|[Hne Hi]];
    [congruence|].
  eapply Forall_impl; [by eapply Hc|]. intros c (h1 & Hh1 & R1). exists h1.
  split; [|done]. rewrite lookup_insert_ne; [done|]. congruence.
Qed.

(** Reserving: a row above all the others, not ready, and its entry of the queue. *)
Lemma rows_ok_insert q t p h k qe ks :
  (0 < p < 2 ^ 63)%Z → (∀ i h', t !! i = Some h' → (i < p)%Z) →
  q_id qe = p → childs_below t p (q_childs qe) → schema.hash h = k → schema.ready h = false →
  rows_ok q t →
  rows_ok (UniquePriorityQueue.MkUpq (<[p := (Pending, k, qe)]> (priority q)) ks) (<[p := h]> t).
Proof.
  intros Hp Hlt Hid Hch Hk Hr [Hq Hn Hb Hc].
  assert (t !! p = None) as Hpn.
  { destruct (t !! p) eqn:E; [|done]. apply Hlt in E. lia. }
  assert (∀ i, is_Some (t !! i) → is_Some (<[p:=h]> t !! i)) as Hmono.
  { intros i. rewrite lookup_insert_is_Some. destruct (decide (p = i)); auto. }
  split; simpl; [| | |by apply closed_insert].
  - intros p' st k' qe'. rewrite lookup_insert_Some. intros [[<- [= <- <- <-]]|[Hne Hp']].
    + split_and!; [done|lia|lia|by eapply childs_below_mono|].
      exists h. by rewrite lookup_insert_eq.
    + destruct (Hq _ _ _ _ Hp') as (? & ? & ? & h' & ? & ? & ?).
      split_and!; [done|lia|lia|by eapply childs_below_mono|].
      exists h'. by rewrite lookup_insert_ne.
  - intros i h'. rewrite lookup_insert_Some. intros [[<- <-]|[Hne Hi]] Hr'.
    + rewrite lookup_insert_eq. eauto.
    + rewrite lookup_insert_ne by done. eauto.
  - intros i h' p'. rewrite lookup_insert_Some. intros [[<- <-]|[Hne Hi]] Hr'; [congruence|].
    rewrite lookup_insert_is_Some. intros [<-|[_ Hp']]; eauto.
Qed.

(** A queued entry may change, as long as its id stays and its children are below it. *)
Lemma rows_ok_upd q t p st k qe st' qe' ks :
  priority q !! p = Some (st, k, qe) → q_id qe' = q_id qe → childs_below t p (q_childs qe') →
  rows_ok q t →
  rows_ok (UniquePriorityQueue.MkUpq (<[p := (st', k, qe')]> (priority q)) ks) t.
Proof.
  intros Hp Hid Hch [Hq Hn Hb Hc]. split; simpl; [| | |done].
  - intros p' st1 k1 qe1. rewrite lookup_insert_Some. intros [[<- [= <- <- <-]]|[Hne Hp']].
    + destruct (Hq _ _ _ _ Hp) as (? & ? & ? & ?). split_and!; [congruence|lia|lia|done|done].
    + eauto.
  - intros i h Hi Hr. rewrite lookup_insert_is_Some.
    destruct (decide (p = i)); [auto|]. right. split; [done|]. eauto.
  - intros i h p' Hi Hr. rewrite lookup_insert_is_Some. intros [<-|[_ Hp']]; eauto.
Qed.

(** Popping the least entry makes its row ready: its children are ready by now. *)
Lemma rows_ok_pop q t p st k qe ks f :
  priority q !! p = Some (st, k, qe) → (∀ p', is_Some (priority q !! p') → (p ≤ p')%Z) →
  (∀ h, schema.hash (f h) = schema.hash h ∧ schema.ready (f h) = true ∧
        childs_of_row (f h) = Ok (q_childs qe)) →
  rows_ok q t →
  rows_ok (UniquePriorityQueue.MkUpq (delete p (priority q)) ks)
    (update (λ i _, bool_decide (i = p)) f t).
Proof.
  intros Hp Hmin Hf [Hq Hn Hb Hc].
  set (t' := update _ f t).
  assert (∀ i, i ≠ p → t' !! i = t !! i) as Hne.
  { intros i Hi. unfold t'. rewrite lookup_update. rewrite bool_decide_eq_false_2 by done.
    by destruct (t !! i). }
  assert (t' !! p = f <$> t !! p) as Heq.
  { unfold t'. rewrite lookup_update. by rewrite bool_decide_eq_true_2. }
  assert (∀ i, is_Some (t !! i) → is_Some (t' !! i)) as Hmono.
  { intros i Hi. destruct (decide (i = p)) as [->|]; [|by rewrite Hne].
    rewrite Heq. by apply fmap_is_Some. }
  destruct (Hq _ _ _ _ Hp) as (Hid & Hrange & Hch & h & Hh & Hk & Hr).
  assert (∀ c, (c < p)%Z → is_Some (t !! c) →
    ∃ h', t' !! c = Some h' ∧ schema.ready h' = true) as Hready.
  { intros c Hlt [hc Hhc]. exists hc. rewrite Hne by lia. split; [done|].
    destruct (schema.ready hc) eqn:Rc; [done|].
    pose proof (Hmin _ (Hn _ _ Hhc Rc)). lia. }
  split; simpl.
  - intros p' st1 k1 qe1 [Hne' Hp']%lookup_delete_Some.
    destruct (Hq _ _ _ _ Hp') as (? & ? & ? & h1 & Hh1 & ? & ?).
    split_and!; [done|lia|lia|by eapply childs_below_mono|]. exists h1. by rewrite Hne.
  - intros i h1 Hi Hr1. destruct (decide (i = p)) as [->|Hi'].
    + rewrite Heq, Hh in Hi. simplify_eq/=. destruct (Hf h) as (_ & ? & _). congruence.
    + rewrite lookup_delete_ne by done. rewrite Hne in Hi by done. eauto.
  - intros i h1 p' Hi Hr1 [x [Hne' Hp']%lookup_delete_Some].
    assert (is_Some (priority q !! p')) as Hs by eauto. destruct (decide (i = p)) as [->|Hi'].
    + apply Hmin in Hs. lia.
    + rewrite Hne in Hi by done. eauto.
  - intros i h1 cs Hi Hr1 Hcs. destruct (decide (i = p)) as [->|Hi'].
    + rewrite Heq, Hh in Hi. simplify_eq/=. destruct (Hf h) as (_ & _ & Ec).
      rewrite Hcs in Ec. injection Ec as Ec. unfold childs_below in Hch. rewrite <- Ec in Hch.
      eapply Forall_impl; [exact Hch|]. intros c [? ?]. apply Hready; [lia|done].
    + rewrite Hne in Hi by done.
      eapply Forall_impl; [by eapply Hc|]. intros c (h2 & Hr2 & R2).
      destruct (decide (c = p)) as [->|]; [congruence|]. exists h2. by rewrite Hne.
Qed.

End rows.

(** ** The operations keep the invariant *)
Section operations.
Context `{CborLaws Models.ChunkRef} `{CborLaws Models.HashIds} `{CborLaws Models.HashRef}.

Lemma maybe_flush_run x :
  ∃ x', maybe_flush x = (Ok (), x') ∧ cur x' = cur x ∧ hash_id_counter x' = hash_id_counter x ∧
    (committed x' = committed x ∨ committed x' = cur x).
Proof.
  unfold maybe_flush. rewrite bind_get. destruct (flush_periodically x); [|by eauto 10].
  unfold zoom at 1, mbind, M_bind. simpl. rewrite PeriodicTimer.did_fire_run.
  case_decide; simpl; eauto 10.
Qed.

Lemma HashIndex_ok_flushed s x :
  HashIndex_ok s → Index_ok x → cur x = cur (index s) →
  hash_id_counter x = hash_id_counter (index s) →
  committed x = committed (index s) ∨ committed x = cur (index s) →
  HashIndex_ok (mkHashIndex (queue s) x).
Proof.
  intros [Hq Hi Hr Hc Hpos Hn] Hx Hcur Hcnt Hcom.
  split; simpl; rewrite ?Hcur, ?Hcnt; [done..| | |done].
  - destruct Hcom as [->| ->]; [done|]. apply Hr.
  - destruct Hcom as [->| ->]; [done|]. intros i h Hih. apply (index_counter _ Hi) in Hih. lia.
Qed.

(** Looking a hash up changes nothing. *)
Lemma locate_state bs s : (locate bs s).2 = s.
Proof.
  unfold locate. rewrite bind_gets. destruct (UniquePriorityQueue.find_value_of_key _ _); [done|].
  unfold zoom, hash_locate. destruct s as [q x]. simpl. unfold lift, assert_, mbind, M_bind.
  case_decide; [|done]. unfold gets. simpl. by repeat case_match.
Qed.

Lemma locate_queued bs p st qe s :
  HashIndex_ok s → priority (queue s) !! p = Some (st, bs, qe) → locate bs s = (Ok (Some qe), s).
Proof.
  intros Hs Hp. unfold locate. rewrite bind_gets. unfold UniquePriorityQueue.find_value_of_key.
  rewrite (UniquePriorityQueue.prio_key _ (hi_queue s Hs) _ _ _ _ Hp). simpl. by rewrite Hp.
Qed.

(** A digest that no row has is not queued either. *)
Lemma not_queued bs s :
  HashIndex_ok s →
  (∀ i h, schema.hashes (cur (index s)) !! i = Some h → schema.hash h ≠ bs) →
  key_to_priority (queue s) !! bs = None.
Proof.
  intros Hs Hn. destruct (key_to_priority (queue s) !! bs) as [p|] eqn:E; [|done].
  destruct (UniquePriorityQueue.key_prio _ (hi_queue s Hs) _ _ E) as (st & v & Hp).
  destruct (queued_row _ _ (hi_rows s Hs) _ _ _ _ Hp) as (_ & _ & _ & h & Hh & Hk & _).
  by apply Hn in Hh.
Qed.

Lemma locate_unknown bs s :
  HashIndex_ok s → bs ≠ [] →
  (∀ i h, schema.hashes (cur (index s)) !! i = Some h → schema.hash h ≠ bs) →
  locate bs s = (Ok None, s).
Proof.
  intros Hs Hbs Hn. unfold locate. rewrite bind_gets.
  unfold UniquePriorityQueue.find_value_of_key. rewrite not_queued by done. simpl.
  unfold zoom. simpl. rewrite hash_locate_none by done. by destruct s.
Qed.

Lemma locate_None bs s s' :
  locate bs s = (Ok None, s') →
  ∀ i h, schema.hashes (cur (index s)) !! i = Some h → schema.hash h ≠ bs.
Proof.
  unfold locate. rewrite bind_gets. destruct (UniquePriorityQueue.find_value_of_key _ _); [done|].
  intros (x' & Hl & _)%zoom_Ok_inv i h Hi Heq. unfold hash_locate in Hl. inv_run.
  match goal with E : match head ?l with _ => _ end = _ |- _ =>
    destruct l as [|[i' h'] l'] eqn:Es; simpl in E end.
  - apply (proj1 (select_nil _ _) Es) in Hi. by apply bool_decide_eq_false in Hi.
  - destruct (queue_entry_of_row _ _ _); naive_solver.
Qed.

(** The row and the queue entry of a new reservation. *)
Definition new_queue_entry (id : Z) (e : hash.Entry) : QueueEntry :=
  mkQueueEntry id (hash.node e) (hash.leaf e) (hash.childs e) (hash.persistent_ref e) None.

(** An entry under a number above all rows and with a hash that no row has is queued. *)
Lemma put_value_new id qe bs s :
  HashIndex_ok s →
  (∀ i h, schema.hashes (cur (index s)) !! i = Some h → (i < id)%Z ∧ schema.hash h ≠ bs) →
  UniquePriorityQueue.put_value id bs qe (queue s) =
    (Ok true, UniquePriorityQueue.MkUpq (<[id := (Pending, bs, qe)]> (priority (queue s)))
                (<[bs := id]> (key_to_priority (queue s)))).
Proof.
  intros Hs Hnew. unfold UniquePriorityQueue.put_value, OrderedCollection.insert_unique.
  assert (key_to_priority (queue s) !! bs = None) as Hq
    by (apply not_queued; [done|]; intros i h Hi; by apply (Hnew i h)).
  assert (priority (queue s) !! id = None) as Hp.
  { destruct (priority (queue s) !! id) as [[[st k] v]|] eqn:E; [|done].
    destruct (queued_row _ _ (hi_rows s Hs) _ _ _ _ E) as (_ & _ & _ & h & Hh & _).
    apply Hnew in Hh. lia. }
  rewrite decide_False, Hp; [done|].
  intros [[? ?]|[? ?]]; congruence.
Qed.

Lemma reserve_entry_run e s (id := (Counter.previous (hash_id_counter (index s)) + 1)%Z) :
  HashIndex_ok s → hash.hash e ≠ [] → (id < 2 ^ 63)%Z →
  (∀ i h, schema.hashes (cur (index s)) !! i = Some h → schema.hash h ≠ hash.hash e) →
  childs_below (schema.hashes (cur (index s))) id (hash.childs e) →
  ∃ s' row, reserve_entry e s = (Ok id, s') ∧ HashIndex_ok s' ∧
    schema.hash row = hash.hash e ∧ schema.ready row = false ∧
    schema.hashes (cur (index s')) = <[id := row]> (schema.hashes (cur (index s))) ∧
    priority (queue s') =
      <[id := (Pending, hash.hash e, new_queue_entry id e)]> (priority (queue s)).
Proof.
  intros Hs He Hid Hn Hch. pose proof (index_counter_pos _ (hi_index s Hs)) as Hpos.
  destruct (maybe_flush_run (index s)) as (x1 & E1 & Ecur & Ecnt & Ecom).
  assert (Index_ok x1) as Hx1.
  { pose proof (maybe_flush_ok _ (hi_index s Hs)) as Hx. by rewrite E1 in Hx. }
  pose proof (HashIndex_ok_flushed _ _ Hs Hx1 Ecur Ecnt Ecom) as Hs1.
  set (qe := new_queue_entry id e).
  pose proof (hash_reserve_ok (hash.hash e) qe x1 Hx1) as Hx2.
  assert (hash_next_id x1 = (Ok id, lset counter_lens (Counter.new id) x1)) as E2.
  { unfold hash_next_id.
    erewrite bind_zoom by (apply Counter.next_fresh; cbn [lget counter_lens]; rewrite Ecnt; lia).
    unfold mret, M_ret. rewrite as_u64_id; cbn [lget counter_lens]; rewrite Ecnt; [done|lia]. }
  set (x2 := lset counter_lens (Counter.new id) x1) in *.
  rewrite (bind_Ok _ _ _ _ _ E2) in Hx2. rewrite Ecnt in Hx2. specialize (Hx2 ltac:(lia)).
  assert (∀ i h, schema.hashes (cur (index s)) !! i = Some h → (i < id)%Z) as Hlt.
  { intros i h Hi. apply (index_counter _ (hi_index s Hs)) in Hi. lia. }
  assert (schema.hashes (cur (index s)) !! id = None) as Hfree.
  { destruct (_ !! id) as [h|] eqn:E; [|done]. apply Hlt in E. lia. }
  pose proof (hash_insert_new_run id (hash.hash e) qe x2) as E3.
  assert (cur x2 = cur (index s)) as Ecur2 by done.
  rewrite Ecur2 in E3. specialize (E3 ltac:(lia) Hfree Hn).
  set (row := new_row (hash.hash e) qe) in *. set (x3 := set_last_rowid id _) in E3.
  rewrite E3 in Hx2. simpl in Hx2.
  set (q' := UniquePriorityQueue.MkUpq (<[id := (Pending, hash.hash e, qe)]> (priority (queue s)))
               (<[hash.hash e := id]> (key_to_priority (queue s)))).
  assert (UniquePriorityQueue.put_value id (hash.hash e) qe (queue s) = (Ok true, q')) as E4.
  { apply put_value_new; [done|]. intros i h Hi. split; [by eapply Hlt|by eapply Hn]. }
  exists (mkHashIndex q' x3), row. split.
  { unfold reserve_entry. run_zoom E1.
    rewrite bind_lift_assert by done. run_zoom E2.
    run_zoom E3. by run_zoom E4. }
  split_and!; [|done..].
  split; cbn [queue index].
  - by eapply UniquePriorityQueue.put_value_ok; [apply Hs|].
  - done.
  - apply rows_ok_insert; try done; [lia|]. apply Hs.
  - apply Hs1.
  - apply Hs1.
  - done.
Qed.

(** [update_reserved] on a reserved hash; the children it names must be there already. *)
Lemma update_reserved_ok id e s s' :
  HashIndex_ok s → childs_below (schema.hashes (cur (index s))) id (hash.childs e) →
  update_reserved id e s = (Ok (), s') → HashIndex_ok s'.
Proof.
  intros Hs Hch Hrun. unfold update_reserved in Hrun. inv_run.
  destruct (UniquePriorityQueue.find_key _ _) as [old|] eqn:Ek; inv_run. subst old.
  match goal with E : zoom _ _ _ = _ |- _ => apply zoom_Ok_inv in E as (q' & Hq' & ->) end. cbn [lget lset queue_lens] in *.
  pose proof (UniquePriorityQueue.update_value_ok _ _ _ _ _ (hi_queue _ Hs) Hq') as Hok.
  unfold UniquePriorityQueue.find_key in Ek. unfold UniquePriorityQueue.update_value in Hq'.
  rewrite Ek in Hq'.
  destruct (priority _ !! _) as [[[st k] qe]|] eqn:Ep; [|done]. injection Hq' as <-.
  split; cbn [queue index]; [done|apply Hs| |apply Hs..].
  eapply rows_ok_upd; [done|done|done|apply Hs].
Qed.

Lemma update_reserved_res id e s :
  match (update_reserved id e s).1 with Ok _ | Panic => True | _ => False end.
Proof.
  unfold update_reserved, lift, assert_, mbind, M_bind. case_decide; [|done].
  unfold gets. destruct (UniquePriorityQueue.find_key _ _) as [old|]; [|done].
  case_decide; [|done]. unfold zoom, UniquePriorityQueue.update_value. simpl.
  destruct (key_to_priority _ !! _) as [p|]; [|done]. by destruct (priority _ !! p) as [[[]]|].
Qed.

Lemma set_ready_pres id s s' :
  HashIndex_ok s →
  zoom queue_lens (UniquePriorityQueue.set_ready id) s = (Ok (), s') → HashIndex_ok s'.
Proof.
  intros Hs (q' & Hq' & ->)%zoom_Ok_inv. cbn [lget lset queue_lens] in *.
  pose proof (UniquePriorityQueue.set_ready_ok _ _ _ _ (hi_queue _ Hs) Hq') as Hok.
  unfold UniquePriorityQueue.set_ready in Hq'.
  destruct (priority _ !! _) as [[[st k] qe]|] eqn:Ep; [|done]. injection Hq' as <-.
  split; cbn [queue index]; [done|apply Hs| |apply Hs..].
  eapply rows_ok_upd; [done|done| |apply Hs].
  by destruct (queued_row _ _ (hi_rows s Hs) _ _ _ _ Ep) as (_ & _ & ? & _).
Qed.

(** The row of a hash once it is ready: its children and its reference are those of the queue
    entry. *)
Lemma hash_set_ready_wp i e x :
  wp (hash_set_ready i e) x (λ _ x', ∃ pref b f,
    q_persistent_ref e = Some pref ∧ chunk.blob_id pref = Some b ∧
    (∀ h, schema.hash (f h) = schema.hash h ∧ schema.ready (f h) = true ∧
          childs_of_row (f h) = Ok (q_childs e) ∧
          schema.blob_ref (f h) = Some (chunk.as_bytes_no_name pref) ∧ schema.blob_id (f h) = b) ∧
    x' = lset cur_lens (lset hashes_lens
           (update (λ id _, bool_decide (id = as_i64 i)) f (schema.hashes (cur x))) (cur x)) x).
Proof.
  unfold wp, hash_set_ready. destruct (q_persistent_ref e) as [p|]; [|done].
  rewrite (bind_lift _ _ _ p) by done. destruct (chunk.blob_id p) as [b|] eqn:Eb; [|done].
  rewrite (bind_lift _ _ _ b) by done. cbv zeta. rewrite on_hashes_modify.
  eexists _, _, _. split; [done|]. split; [exact Eb|]. split; [|done].
  intros h. split_and!; [done..| |done|done]. apply childs_of_encoded.
Qed.

(** Nothing at the head of the queue is waiting to be committed. *)
Definition settled (q : Queue) : Prop :=
  priority q = ∅ ∨ ∃ p k v, priority q !! p = Some (Pending, k, v) ∧
    ∀ p', is_Some (priority q !! p') → (p ≤ p')%Z.

(** Committing the least entry of the queue, when it is complete. *)
Lemma commit_min_ok p k qe x q :
  priority q !! p = Some (Ready, k, qe) →
  (∀ p', is_Some (priority q !! p') → (p ≤ p')%Z) →
  HashIndex_ok (mkHashIndex q x) →
  p = q_id qe ∧
  wp (hash_set_ready p qe) x (λ _ x', HashIndex_ok (mkHashIndex
    (UniquePriorityQueue.MkUpq (delete p (priority q)) (delete k (key_to_priority q))) x')).
Proof.
  intros Hp Hmin Hs. destruct (queued_row _ _ (hi_rows _ Hs) _ _ _ _ Hp) as (Hid & Hr & _).
  split; [done|]. unfold wp.
  pose proof (hash_set_ready_wp p qe x) as Hw. unfold wp in Hw.
  pose proof (hash_set_ready_ok p qe x (hi_index _ Hs)) as Hx.
  destruct (hash_set_ready p qe x) as [[]x']; try done.
  destruct Hw as (pref & b & f & _ & _ & Hf & ->). split; cbn [queue index].
  - eapply UniquePriorityQueue.del_ok; [apply Hs|done].
  - done.
  - cbn. rewrite as_i64_id by lia. eapply rows_ok_pop; try done; [|apply Hs].
    intros h. by destruct (Hf h) as (? & ? & ? & _).
  - apply Hs.
  - apply Hs.
  - apply Hs.
Qed.

Lemma pop_loop_wp fuel s :
  HashIndex_ok s → UniquePriorityQueue.len (queue s) < fuel →
  wp (pop_loop fuel) s (λ _ s', HashIndex_ok s' ∧ settled (queue s')).
Proof.
  revert s. induction fuel as [|fuel IH]; intros s Hs Hl; [lia|]. simpl.
  destruct (UniquePriorityQueue.pop_cases Z.le (queue s)) as [[E Hc]|(p & k & v & Hp & Hmin & E)].
  - apply wp_bind, wp_zoom. refine (wp_Ok _ _ _ _ _ E _).
    refine (wp_Ok _ _ _ _ _ eq_refl _). by destruct s.
  - apply wp_bind, wp_zoom. refine (wp_Ok _ _ _ _ _ E _). cbn [lset queue_lens].
    destruct s as [q x]. cbn [queue index] in *.
    destruct (commit_min_ok _ _ _ _ _ Hp Hmin Hs) as [Hid Hw].
    apply wp_bind. unfold lift at 1. rewrite assert_Ok by done.
    refine (wp_Ok _ _ _ _ _ eq_refl _).
    apply wp_bind, wp_zoom. eapply wp_mono; [exact Hw|]. intros [] x' Hs'.
    apply IH; [exact Hs'|]. cbn. unfold UniquePriorityQueue.len in *. simpl.
    rewrite map_size_delete_Some by eauto.
    assert (size (priority q) ≠ 0) by (apply map_size_ne_0_lookup; eauto). lia.
Qed.

Lemma insert_completed_wp s :
  HashIndex_ok s →
  wp insert_completed_in_order s (λ _ s', HashIndex_ok s' ∧ settled (queue s')).
Proof.
  intros Hs. unfold insert_completed_in_order. apply wp_bind.
  refine (wp_Ok _ _ _ _ _ eq_refl _). apply wp_bind.
  eapply wp_mono; [apply pop_loop_wp; [done|lia]|]. intros [] s' [Hs' Hq].
  apply wp_zoom. destruct (maybe_flush_run (index s')) as (x & E & E1 & E2 & E3).
  refine (wp_Ok _ _ _ _ _ E _). split; [|done].
  apply HashIndex_ok_flushed; try done.
  pose proof (maybe_flush_ok _ (hi_index _ Hs')) as Hx. by rewrite E in Hx.
Qed.

(** *** Operations that leave the queue alone *)

(** They may change anything of the rows but the digest, the children and the readiness. *)
Lemma HashIndex_ok_same_view s x :
  HashIndex_ok s → Index_ok x → hash_id_counter x = hash_id_counter (index s) →
  committed x = committed (index s) →
  same_view (schema.hashes (cur (index s))) (schema.hashes (cur x)) →
  HashIndex_ok (mkHashIndex (queue s) x).
Proof.
  intros [Hq Hi Hr Hc Hpos Hn] Hx Hcnt Hcom Hv.
  split; simpl; rewrite ?Hcnt, ?Hcom; try done. by eapply rows_ok_view.
Qed.

Lemma set_tag_pres o t s :
  HashIndex_ok s →
  HashIndex_ok (zoom index_lens (hash_set_tag o t) s).2.
Proof.
  intros Hs. unfold zoom. pose proof (hash_set_tag_ok o t _ (hi_index _ Hs)) as Hx.
  unfold hash_set_tag in *. rewrite on_hashes_modify in *.
  apply HashIndex_ok_same_view; try done. by apply same_view_update.
Qed.

(** Operations on the collector's metadata. *)
Lemma gc_op_pres {A} (m : DB A) s :
  gc_only m → HashIndex_ok s → HashIndex_ok (zoom index_lens m s).2.
Proof.
  intros Hm Hs. unfold zoom. cbn [lget index_lens]. destruct (Hm (index s)) as [t Ht].
  destruct (m (index s)) as [r x]. simpl in Ht. subst x. cbn [snd lset index_lens].
  apply HashIndex_ok_same_view; try done. by apply Index_ok_gc, Hs.
Qed.

Lemma flush_pres s : HashIndex_ok s → HashIndex_ok (flush_index s).2.
Proof.
  intros Hs. unfold flush_index, zoom. simpl.
  apply HashIndex_ok_flushed; try done; [|by right].
  apply (Index_ok_flush _ (hi_index _ Hs)).
Qed.

(** A hash nobody names as its child, and that is not queued, may be deleted. *)
Definition unreferenced (id : Z) (s : HashIndex) : Prop :=
  priority (queue s) !! id = None ∧
  (∀ p st k qe, priority (queue s) !! p = Some (st, k, qe) → id ∉ default [] (q_childs qe)) ∧
  (∀ i h cs, schema.hashes (cur (index s)) !! i = Some h → schema.ready h = true →
     childs_of_row h = Ok (Some cs) → id ∉ cs).

Lemma delete_pres id s :
  HashIndex_ok s → is_i64 id → unreferenced id s → HashIndex_ok (delete_hash id s).2.
Proof.
  intros Hs Hid (Hq & Hqc & Hrc). unfold delete_hash, zoom.
  pose proof (hash_delete_ok id _ (hi_index _ Hs)) as Hx.
  unfold hash_delete in *. cbn [lget index_lens]. rewrite as_i64_id in * by done.
  assert (∀ i, i ≠ id → is_Some (schema.hashes (cur (index s)) !! i) →
    is_Some (delete id (schema.hashes (cur (index s))) !! i)) as Hkeep.
  { intros i Hne ?. by rewrite lookup_delete_ne. }
  destruct (hi_rows _ Hs) as [H1q H2n H3b H4c].
  split; [apply Hs|exact Hx| |apply Hs..].
  change (rows_ok (queue s) (delete id (schema.hashes (cur (index s))))). split.
  - intros p st k qe Hp. destruct (H1q _ _ _ _ Hp) as (? & ? & Hch & h & Hh & ? & ?).
    split_and!; [done|lia|lia| |].
    + apply Forall_forall. intros c Hc. unfold childs_below in Hch.
      rewrite Forall_forall in Hch. destruct (Hch c Hc) as [? ?].
      split; [done|]. apply Hkeep; [|done]. intros ->. by eapply Hqc.
    + exists h. rewrite lookup_delete_ne; [done|]. congruence.
  - intros i h [Hne Hi]%lookup_delete_Some ?. eauto.
  - intros i h p [Hne Hi]%lookup_delete_Some ? ?. eauto.
  - intros i h cs [Hne Hi]%lookup_delete_Some Hr Hcs. apply Forall_forall. intros c Hc.
    pose proof (H4c _ _ _ Hi Hr Hcs) as Hall. rewrite Forall_forall in Hall.
    destruct (Hall c Hc) as (h' & ? & ?). exists h'. rewrite lookup_delete_ne; [done|].
    intros ->. exact (Hrc _ _ _ Hi Hr Hcs Hc).
Qed.

(** The next process: the tables of the file, without the rows that were not ready. *)
Lemma restart_rows t :
  closed t → rows_ok UniquePriorityQueue.new (delete_where (λ _ h, negb (schema.ready h)) t).
Proof.
  intros Hc. split; cbn.
  - intros p st k qe. by rewrite lookup_empty.
  - intros i h [_ Hr]%lookup_delete_where. by destruct (schema.ready h).
  - intros i h p _ _ [? Hp]. by rewrite lookup_empty in Hp.
  - intros i h cs [Hi Hr]%lookup_delete_where _ Hcs.
    eapply Forall_impl; [eapply Hc; [done| |done]|].
    + by destruct (schema.ready h).
    + intros c (h' & ? & Hr'). exists h'. split; [|done]. apply lookup_delete_where.
      by rewrite Hr'.
Qed.

Lemma HashIndex_new_ok x :
  Index_ok x → closed (schema.hashes (cur x)) → closed (schema.hashes (committed x)) →
  (∀ i h, schema.hashes (committed x) !! i = Some h → (0 < i < 2 ^ 63)%Z) →
  (Counter.previous (hash_id_counter x) < 2 ^ 63)%Z →
  ∃ x' s, HashIndex_new x = (Ok s, x') ∧ HashIndex_ok s ∧ queue s = UniquePriorityQueue.new.
Proof.
  intros Hx Hc Hcc Hpos Hn. eexists _, _. split; [done|]. split; [|done].
  split; cbn [queue index]; [apply UniquePriorityQueue.upq_new_ok|by apply hash_delete_not_ready_ok| |done..].
  by apply restart_rows.
Qed.

Lemma restart_ok s seconds c1 c2 x :
  HashIndex_ok s → InternalIndex_new (crash (index s)) seconds c1 c2 = Ok x →
  ∃ x' s', HashIndex_new x = (Ok s', x') ∧ HashIndex_ok s' ∧ queue s' = UniquePriorityQueue.new.
Proof.
  intros Hs Hx. pose proof (hi_committed_ids _ Hs) as Hids.
  destruct (InternalIndex_new_ok _ _ _ _ _ (index_committed _ (hi_index _ Hs))
    (λ i h Hi, proj1 (Hids i h Hi)) Hx) as (Hok & Hcur & Hcom & Hcnt).
  apply HashIndex_new_ok; rewrite ?Hcur, ?Hcom; try done; [apply Hs..|].
  rewrite Hcnt. destruct (max_key _) as [m|] eqn:Em; [|done].
  apply max_key_in in Em as [h Hh]. apply Hids in Hh. simpl. lia.
Qed.

(** ** The index as a state machine *)

(** One call that returns, or a crash followed by a start on the database file. The conditions
    are the callers': children are reserved before their parents, ids do not run out, and the
    garbage collector deletes no hash that is still named as a child. *)
Inductive hash_step (s : HashIndex) : HashIndex → Prop :=
  | hs_reserve e r s' :
      (Counter.previous (hash_id_counter (index s)) + 1 < 2 ^ 63)%Z →
      childs_below (schema.hashes (cur (index s)))
        (Counter.previous (hash_id_counter (index s)) + 1) (hash.childs e) →
      reserve e s = (Ok r, s') → hash_step s s'
  | hs_update_reserved id e s' :
      childs_below (schema.hashes (cur (index s))) id (hash.childs e) →
      update_reserved id e s = (Ok (), s') → hash_step s s'
  | hs_commit id o s' :
      (∀ e, o = Some e → childs_below (schema.hashes (cur (index s))) id (hash.childs e)) →
      commit id o s = (Ok (), s') → hash_step s s'
  | hs_set_tag id t : hash_step s (set_tag id t s).2
  | hs_set_all_tags t : hash_step s (set_all_tags t s).2
  | hs_update_gc h f u : hash_step s (update_gc_data h f u s).2
  | hs_update_family_gc f us : hash_step s (update_family_gc_data f us s).2
  | hs_delete id : is_i64 id → unreferenced id s → hash_step s (delete_hash id s).2
  | hs_flush : hash_step s (flush_index s).2
  | hs_manual_commit : hash_step s (manual_commit s).2
  | hs_restart seconds c1 c2 x x' s' :
      InternalIndex_new (crash (index s)) seconds c1 c2 = Ok x →
      HashIndex_new x = (Ok s', x') → hash_step s s'.

Lemma reserve_pres e r s s' :
  HashIndex_ok s →
  (Counter.previous (hash_id_counter (index s)) + 1 < 2 ^ 63)%Z →
  childs_below (schema.hashes (cur (index s)))
    (Counter.previous (hash_id_counter (index s)) + 1) (hash.childs e) →
  reserve e s = (Ok r, s') → HashIndex_ok s'.
Proof.
  intros Hs Hn Hch (u & s0 & Ha & Hrun)%bind_Ok_inv. unfold lift in Ha.
  injection Ha as Ha <-. apply assert_Ok_inv in Ha.
  apply bind_Ok_inv in Hrun as (o & s1 & El & Hrun).
  pose proof (locate_state (hash.hash e) s) as Es. rewrite El in Es. simpl in Es. subst s1.
  destruct o as [qe|]; [by injection Hrun as _ <-|].
  destruct (reserve_entry_run e s Hs Ha Hn) as (s2 & row & E & ? & _); [|done|].
  { by eapply locate_None. }
  rewrite (bind_Ok _ _ _ _ _ E) in Hrun. by injection Hrun as _ <-.
Qed.

Lemma commit_wp id o s :
  HashIndex_ok s →
  (∀ e, o = Some e → childs_below (schema.hashes (cur (index s))) id (hash.childs e)) →
  wp (commit id o) s (λ _ s', HashIndex_ok s' ∧ settled (queue s')).
Proof.
  intros Hs Ho. unfold commit. apply wp_bind. apply wp_mono with (Q := λ _, HashIndex_ok).
  - destruct o as [e|]; [|done]. specialize (Ho e eq_refl).
    pose proof (update_reserved_ok id e s) as Hu. unfold wp.
    pose proof (update_reserved_res id e s) as Hr.
    destruct (update_reserved id e s) as [[[]| | |]s']; try done. eauto.
  - intros _ s1 Hs1. apply wp_bind.
    apply wp_mono with (Q := λ _, HashIndex_ok); [|by intros; apply insert_completed_wp].
    pose proof (set_ready_pres id s1) as Hp. unfold wp.
    assert (∀ r s', zoom queue_lens (UniquePriorityQueue.set_ready id) s1 = (r, s') →
      r = Ok () ∨ r = Panic) as Hr.
    { unfold zoom, UniquePriorityQueue.set_ready. simpl.
      destruct (priority (queue s1) !! id) as [[[]]|]; intros ?? [= <- _]; auto. }
    destruct (zoom _ _ s1) as [r s']. destruct (Hr _ _ eq_refl) as [->| ->]; eauto.
Qed.

(** Every reachable state of the index is in order. *)
Lemma hash_step_ok s s' : HashIndex_ok s → hash_step s s' → HashIndex_ok s'.
Proof.
  intros Hs. destruct 1 as [| |id o s' Ho Hc| | | | | | | |seconds c1 c2 x x' s' Hx Hnew].
  - by eapply reserve_pres.
  - by eapply update_reserved_ok.
  - apply (wp_Ok_inv _ _ _ _ _ (commit_wp id o s Hs Ho) Hc).
  - by apply set_tag_pres.
  - by apply set_tag_pres.
  - apply gc_op_pres; [apply gc_only_update|done].
  - apply gc_op_pres; [apply gc_only_update_family|done].
  - by apply delete_pres.
  - by apply flush_pres.
  - pose proof (flush_pres s Hs) as [? Hi ? ? ? ?]. split; try done.
    by destruct Hi; split.
  - destruct (restart_ok s seconds c1 c2 x Hs) as (x1 & s1 & E & ? & _); [done|]. congruence.
Qed.

End operations.
