(* ===== verification/IndexSpec.v ===== *)
(** * The index database and the hash index: the theorems

    The invariants of db/mod.rs and hash/mod.rs over every sequence of calls, crashes and
    restarts; what the operations return; and runs of them on a concrete codec. *)

From S2P Require Import Prelude Cbor Codec Refs Ordered Upq Timer Db HashIndex.
From S2P Require Models.
Import UniquePriorityQueue (Upq, priority, Pending, Ready).

(** A clock that stands still. *)
Definition still : Clock := mkClock (λ _, 0%Z) 0.

Section Spec.
Context `{CborLaws Models.ChunkRef} `{CborLaws Models.HashIds} `{CborLaws Models.HashRef}.

(** Starting on a database file. *)
Definition start (file : schema.Tables) (seconds : Z) (c1 c2 : Clock) : res HashIndex :=
  x ← InternalIndex_new file seconds c1 c2; (HashIndex_new x).1.

Abbreviation rows s := (schema.hashes (cur (index s))).

Lemma start_empty_ok seconds c1 c2 s :
  start schema.empty seconds c1 c2 = Ok s → HashIndex_ok s.
Proof.
  unfold start. intros (x & Hx & Hs)%res_bind_Ok_inv.
  assert (Tables_ok schema.empty) as He.
  { split; intros ? ?; simpl; intros *; by rewrite lookup_empty. }
  destruct (InternalIndex_new_ok schema.empty seconds c1 c2 x He) as (Hok & Hcur & Hcom & Hcnt);
    [simpl; intros ? ?; by rewrite lookup_empty|done|].
  destruct (HashIndex_new_ok x) as (x' & s' & E & Hs' & _).
  - done.
  - rewrite Hcur. intros i h cs. simpl. by rewrite lookup_empty.
  - rewrite Hcom. intros i h cs. simpl. by rewrite lookup_empty.
  - rewrite Hcom. intros i h. simpl. by rewrite lookup_empty.
  - by rewrite Hcnt.
  - rewrite E in Hs. simpl in Hs. congruence.
Qed.

Lemma reachable_ok s0 s : HashIndex_ok s0 → rtc hash_step s0 s → HashIndex_ok s.
Proof. intros Hs. induction 1; eauto using hash_step_ok. Qed.

(** C14: However the process is used and whenever it stops, the next start finds an index in
    which every hash is ready, that is stored in a blob, and all the hashes it names as its
    children are there too. (The callers reserve children before parents and do not let the
    garbage collector delete a hash that is still named.) *)
Theorem restart_finds_closed_index sec0 c1 c2 s0 s seconds c1' c2' :
  start schema.empty sec0 c1 c2 = Ok s0 → rtc hash_step s0 s →
  ∃ s', start (crash (index s)) seconds c1' c2' = Ok s' ∧
    ∀ i h, rows s' !! i = Some h → schema.ready h = true ∧
      ∀ cs, childs_of_row h = Ok (Some cs) → Forall (λ c, is_Some (rows s' !! c)) cs.
Proof.
  intros Hs0%start_empty_ok Hr. pose proof (reachable_ok _ _ Hs0 Hr) as Hs.
  assert (∃ x, InternalIndex_new (crash (index s)) seconds c1' c2' = Ok x) as [x Hx] by eauto.
  destruct (restart_ok s seconds c1' c2' x Hs Hx) as (x' & s' & Hnew & [_ _ Hrows _ _ _] & Hq).
  exists s'. split; [unfold start; rewrite Hx; cbn [mbind res_bind]; by rewrite Hnew|].
  intros i h Hi. assert (schema.ready h = true) as Hrd.
  { destruct (schema.ready h) eqn:E; [done|]. destruct (not_ready_queued _ _ Hrows _ _ Hi E) as [? Hp].
    rewrite Hq in Hp. simpl in Hp. by rewrite lookup_empty in Hp. }
  split; [done|]. intros cs Hcs. eapply Forall_impl; [by eapply (rows_closed _ _ Hrows)|].
  intros c (h' & ? & _). eauto.
Qed.

(** C19: In every reachable state each queued hash has its row, not ready and under the same
    digest; each row that is not ready is queued; and every ready row has a smaller id than
    every queued one: hashes become ready in the order in which they were reserved. *)
Theorem hashes_ready_in_order sec0 c1 c2 s0 s :
  start schema.empty sec0 c1 c2 = Ok s0 → rtc hash_step s0 s →
  (∀ p st k qe, priority (queue s) !! p = Some (st, k, qe) →
     ∃ h, rows s !! p = Some h ∧ schema.hash h = k ∧ schema.ready h = false) ∧
  (∀ i h, rows s !! i = Some h → schema.ready h = false → is_Some (priority (queue s) !! i)) ∧
  (∀ i h p, rows s !! i = Some h → schema.ready h = true → is_Some (priority (queue s) !! p) →
     (i < p)%Z).
Proof.
  intros Hs0%start_empty_ok Hr. destruct (hi_rows _ (reachable_ok _ _ Hs0 Hr)) as [Hq Hn Hb _].
  split_and!; [|done|done]. intros p st k qe Hp.
  destruct (Hq _ _ _ _ Hp) as (_ & _ & _ & h & ?). by exists h.
Qed.

(** C20: A hash is reserved once. When no row has the digest, [reserve] gives the next id; from
    then on the digest is known under that id, a second [reserve] of it changes nothing, and a
    reference to it can be had as soon as the entry has one and is [RetryError] before. *)
Theorem reserve_once e e' s (id := (Counter.previous (hash_id_counter (index s)) + 1)%Z) :
  HashIndex_ok s → hash.hash e ≠ [] → hash.hash e' = hash.hash e → (id < 2 ^ 63)%Z →
  (∀ i h, rows s !! i = Some h → schema.hash h ≠ hash.hash e) →
  childs_below (rows s) id (hash.childs e) →
  ∃ s', reserve e s = (Ok (ReserveOk id), s') ∧
    reserve e' s' = (Ok (HashKnown id), s') ∧
    get_id (hash.hash e) s' = (Ok (Some id), s') ∧
    fetch_childs (hash.hash e) s' = (Ok (Some (hash.childs e)), s') ∧
    fetch_persistent_ref (hash.hash e) s' =
      (match hash.persistent_ref e with None => Err RetryError | Some r => Ok (Some r) end, s').
Proof.
  intros Hs He He' Hid Hn Hch.
  destruct (reserve_entry_run e s Hs He Hid Hn Hch) as (s' & row & E & Hs' & _ & _ & _ & Hp).
  assert (locate (hash.hash e) s' = (Ok (Some (new_queue_entry id e)), s')) as Hl.
  { eapply locate_queued; [done|]. rewrite Hp. apply lookup_insert_eq. }
  exists s'. split_and!.
  - unfold reserve. rewrite bind_lift_assert by done.
    rewrite (bind_Ok _ _ _ _ _ (locate_unknown _ _ Hs He Hn)).
    by rewrite (bind_Ok _ _ _ _ _ E).
  - unfold reserve. rewrite He', bind_lift_assert by done. by rewrite (bind_Ok _ _ _ _ _ Hl).
  - unfold get_id. rewrite bind_lift_assert by done. by rewrite (bind_Ok _ _ _ _ _ Hl).
  - unfold fetch_childs. rewrite bind_lift_assert by done. by rewrite (bind_Ok _ _ _ _ _ Hl).
  - unfold fetch_persistent_ref. rewrite bind_lift_assert by done.
    rewrite (bind_Ok _ _ _ _ _ Hl). simpl. by destruct (hash.persistent_ref e).
Qed.

(** C21: [commit] terminates (the loop over the queue has fuel enough) and returns no error:
    it panics or leaves a queue whose head is not waiting to be committed. *)
Theorem commit_settles id o s :
  HashIndex_ok s →
  (∀ e, o = Some e → childs_below (rows s) id (hash.childs e)) →
  (∃ s', commit id o s = (Ok (), s') ∧ HashIndex_ok s' ∧ settled (queue s')) ∨
  (∃ s', commit id o s = (Panic, s')).
Proof.
  intros Hs Ho. pose proof (commit_wp id o s Hs Ho) as Hw. unfold wp in Hw.
  destruct (commit id o s) as [[[]|e| |] s']; naive_solver.
Qed.

(** C22: No sequence of calls of the database, crashes and restarts gives two rows the same
    digest, blob name or family name, or a family two snapshots with the same number; and the
    id counter stays ahead of the rows. *)
Theorem database_keys_unique seconds c1 c2 x0 x :
  InternalIndex_new schema.empty seconds c1 c2 = Ok x0 → rtc db_step x0 x → Index_ok x.
Proof.
  intros Hnew Hr. assert (Index_ok x0) as Hx0.
  { eapply InternalIndex_new_ok; [| |done].
    - split; intros ? ?; simpl; intros *; by rewrite lookup_empty.
    - simpl. intros ? ?. by rewrite lookup_empty. }
  clear Hnew. induction Hr; eauto using db_step_ok.
Qed.

(** The blob a reference points to, by its id. *)
Definition blob_name_of (x : InternalIndex) (r : chunk.ChunkRef) : bytes :=
  from_option schema.b_name [] (chunk.blob_id r ≫= λ b, schema.blobs (cur x) !! b).

(** C23: Insert a hash, make it ready with a reference, and look its digest up: the entry found
    has the id, node, leaf type and children that were stored, and the reference with the name
    its blob has now (stored by id, so that a blob can be renamed) but without the id. *)
Theorem stored_hash_located bs id e pref x x1 x2 :
  bs ≠ [] → (0 < id < 2 ^ 63)%Z → Index_ok x →
  schema.hashes (cur x) !! id = None →
  (∀ i h, schema.hashes (cur x) !! i = Some h → schema.hash h ≠ bs) →
  q_persistent_ref e = Some pref →
  q_node e ≠ chunk.Branch 0 → is_u64 (chunk.NodeType_into_u64 (q_node e)) →
  (0 < chunk.length pref → is_Some (chunk.blob_id pref ≫= λ b, schema.blobs (cur x) !! b)) →
  hash_insert_new id bs e x = (Ok (), x1) → hash_set_ready id e x1 = (Ok (), x2) →
  hash_locate bs x2 = (Ok (Some (mkQueueEntry id (q_node e) (q_leaf e) (q_childs e)
    (Some (located_ref (blob_name_of x pref) pref)) (tags.tag_from_num (tags.num (default tags.Done (q_tag e)))))), x2).
Proof.
  intros Hbs Hid Hx Hfree Hn Hpref Hnode Hu Hblob Hins Hset.
  rewrite hash_insert_new_run in Hins by (done || lia). injection Hins as <-.
  unfold hash_set_ready in Hset. rewrite Hpref in Hset.
  rewrite (bind_lift _ _ _ pref) in Hset by done.
  destruct (chunk.blob_id pref) as [b|] eqn:Eb; [|done].
  rewrite (bind_lift _ _ _ b) in Hset by done. rewrite on_hashes_modify, as_i64_id in Hset by lia.
  injection Hset as <-. unfold hash_locate. rewrite bind_lift_assert by done. run_pure.
  rewrite (head_select_unique _ _ id (schema.mkHash bs (tags.num (default tags.Done (q_tag e)))
    (as_i64 (chunk.NodeType_into_u64 (q_node e))) (as_i64 (chunk.LeafType_into_u64 (q_leaf e)))
    (encode_childs <$> q_childs e) b (Some (chunk.as_bytes_no_name pref)) true)).
  - unfold queue_entry_of_row. rewrite childs_of_encoded. cbn [mbind res_bind].
    cbn [schema.blob_ref joined_blob schema.blob_id].
    rewrite decode_chunk_ref_no_name by (intros Hl; by apply Hblob in Hl).
    cbn [mbind res_bind schema.leaf_type schema.height schema.tag].
    rewrite LeafType_row. cbn [mbind res_bind]. rewrite NodeType_row by done.
    rewrite as_u64_id by lia. unfold lift, blob_name_of. rewrite Eb. done.
  - cbn. rewrite lookup_update. rewrite lookup_insert_eq. simpl. by rewrite bool_decide_eq_true_2.
  - by apply bool_decide_eq_true_2.
  - intros k' r'. cbn. rewrite lookup_update. intros (h & Hh & ->)%fmap_Some Hb.
    apply lookup_insert_Some in Hh as [[<- _]|[Hne Hh]]; [done|].
    rewrite (bool_decide_eq_false_2 (k' = id)) in Hb by congruence.
    apply bool_decide_eq_true in Hb. by apply Hn in Hh.
Qed.

(** What the collector knows of a hash and a family. *)
Definition gc_at (x : InternalIndex) (h f : Z) : GcData :=
  match schema.gc_metadata (cur x) !! (as_i64 h, as_i64 f) with
  | None => mkGcData 0 []
  | Some row => mkGcData (schema.gc_int row) (schema.gc_vec row)
  end.

Lemma read_gc_run h f x : hash_read_gc_data h f x = (Ok (gc_at x h f), x).
Proof. unfold hash_read_gc_data, gc_at. by destruct x as [[]]. Qed.

Lemma gc_key_inj h f h' f' :
  is_u64 h → is_u64 f → is_u64 h' → is_u64 f' →
  (as_i64 h, as_i64 f) = (as_i64 h', as_i64 f') → (h, f) = (h', f').
Proof.
  intros ? ? ? ? [= E1 E2]. apply (f_equal as_u64) in E1, E2. rewrite !as_u64_as_i64 in * by done.
  congruence.
Qed.

(** Only the row of the hash and the family differs. *)
Lemma update_gc_table h f u x x' d (k := (as_i64 h, as_i64 f)) :
  hash_update_gc_data h f u x = (Ok d, x') →
  ∃ t, x' = lset cur_lens (lset gc_lens t (cur x)) x ∧ d = default (gc_at x h f) (u (gc_at x h f)) ∧
    (t !! k = (λ n, schema.mkGc (g_num n) (g_bytes n)) <$> u (gc_at x h f)) ∧
    ∀ k', k' ≠ k → t !! k' = schema.gc_metadata (cur x) !! k'.
Proof.
  intros Hrun. unfold hash_update_gc_data in Hrun.
  rewrite (bind_Ok _ _ _ _ _ (read_gc_run h f x)) in Hrun.
  destruct (u (gc_at x h f)) as [new|] eqn:Eu.
  - unfold hash_set_gc_data in Hrun. cbv zeta in Hrun. fold k in Hrun.
    rewrite bind_assoc, (bind_Ok _ _ _ (schema.gc_metadata (cur x) !! k) x) in Hrun
      by (by destruct x as [[]]).
    destruct (schema.gc_metadata (cur x) !! k) as [row|] eqn:Ek.
    + unfold on_gc in Hrun. injection Hrun as <- <-. eexists. split_and!; [done|done| |].
      * rewrite lookup_update. change (lget gc_lens (lget cur_lens x)) with (schema.gc_metadata (cur x)).
        rewrite Ek. simpl. by rewrite bool_decide_eq_true_2.
      * intros k' Hk'. rewrite lookup_update.
        change (lget gc_lens (lget cur_lens x)) with (schema.gc_metadata (cur x)).
        destruct (_ !! k'); simpl; [|done]. by rewrite bool_decide_eq_false_2.
    + apply bind_Ok_inv in Hrun as ([] & x1 & Hi & Hrun). injection Hrun as <- <-.
      unfold on_gc in Hi. apply zoom_Ok_inv in Hi as (t1 & Hi & ->).
      apply zoom_Ok_inv in Hi as (t2 & Hi & ->).
      apply insert_into_inv in Hi as [[? _]|(_ & -> & _)]; [done|].
      eexists. split_and!; [done|done|by rewrite lookup_insert_eq|].
      intros k' Hk'. by rewrite lookup_insert_ne.
  - unfold hash_delete_gc_data, on_gc in Hrun. injection Hrun as <- <-. eexists.
    split_and!; [done|done| |].
    + cbn [fmap option_fmap option_map]. apply eq_None_not_Some.
      intros [row [_ Hb]%lookup_delete_where]. fold k in Hb. by apply bool_decide_eq_false in Hb.
    + intros k' Hk'. apply option_eq. intros row. rewrite lookup_delete_where.
      fold k. rewrite bool_decide_eq_false. naive_solver.
Qed.

(** Updating the collector's data of a hash and a family: the function sees the stored
    data (zero and empty when there is none), its result is stored and returned, [None] removes
    the data and returns what there was; no other hash or family is touched, nor is any other
    table. *)
Theorem gc_update_then_read h f u x x' d :
  is_u64 h → is_u64 f → hash_update_gc_data h f u x = (Ok d, x') →
  d = default (gc_at x h f) (u (gc_at x h f)) ∧
  hash_read_gc_data h f x' = (Ok (default (mkGcData 0 []) (u (gc_at x h f))), x') ∧
  (∀ h' f', is_u64 h' → is_u64 f' → (h', f') ≠ (h, f) →
     hash_read_gc_data h' f' x' = (Ok (gc_at x h' f'), x')) ∧
  schema.hashes (cur x') = schema.hashes (cur x) ∧ committed x' = committed x.
Proof.
  intros Hh Hf Hrun. set (k := (as_i64 h, as_i64 f)).
  destruct (update_gc_table _ _ _ _ _ _ Hrun) as (t & -> & Hd & Hk & Hne). fold k in Hk, Hne.
  split_and!; [done| | |done|done].
  - rewrite read_gc_run. unfold gc_at at 1. cbn [cur lset cur_lens gc_lens schema.gc_metadata].
    fold k. rewrite Hk. destruct (u _) as [[]|]; done.
  - intros h' f' Hh' Hf' Hdiff. rewrite read_gc_run. unfold gc_at.
    cbn [cur lset cur_lens gc_lens schema.gc_metadata]. rewrite Hne; [done|].
    intros E. apply Hdiff. by apply gc_key_inj.
Qed.

(** C24: A snapshot is reserved under the family's next number, and after [snapshot_update] its
    name and number give back the hash and the reference stored (as references come out of
    their serialised form). *)
Theorem reserved_snapshot_found n x info x1 msg h r x2 :
  Index_ok x → (∀ i s, schema.snapshots (cur x) !! i = Some s →
    (0 ≤ i < 2 ^ 63 - 1 ∧ 0 ≤ schema.s_snapshot_id s < 2 ^ 63 - 1)%Z) → tree.HashRef_wf r →
  snapshot_reserve n x = (Ok info, x1) → snapshot_update info msg h r x1 = (Ok (), x2) →
  (∀ i s, schema.snapshots (cur x) !! i = Some s → schema.family (cur x1) !! schema.s_family_id s = Some n →
     (schema.s_snapshot_id s < snapshot_id info)%Z) ∧
  snapshot_lookup n (snapshot_id info) x2 = (Ok (Some (info, h, Some (tree.norm r))), x2).
Proof.
  intros Hx Hb Hr Hres Hupd.
  destruct (snapshot_reserve_run n x Hx (λ i s Hi, proj2 (Hb i s Hi)))
    as (f & xf & x1' & info' & Ef & E & Hx1 & Hnum & Hfam & Hinfo & utc & Hsn).
  rewrite E in Hres. injection Hres as -> ->.
  destruct (get_or_create_run n x Hx) as (f' & xf' & Ef' & _ & Hf & _).
  rewrite Ef' in Ef. injection Ef as -> ->. rewrite <- Hfam in Hf.
  set (t := schema.snapshots (cur x)) in *. set (i := next_rowid t) in *.
  set (num := (1 + default 0 (latest_of f t))%Z) in *.
  assert (0 ≤ i < 2 ^ 63)%Z as Hi.
  { unfold i, next_rowid. destruct (max_key t) as [m|] eqn:Em; simpl; [|lia].
    apply max_key_in in Em as [s Hs]. apply Hb in Hs. lia. }
  subst info. cbn [snapshot_id unique_id] in *. rewrite (as_u64_id num) in * by lia.
  rewrite (as_u64_id i) in * by lia. split.
  { intros j s Hj Hn. assert (schema.s_family_id s = f) as Hsf.
    { by eapply (tables_families _ (index_cur _ Hx1)). }
    destruct (latest_of_bound f t j s Hj Hsf) as (m & Em & Hle). unfold num. rewrite Em. simpl. lia. }
  pose proof (snapshot_update_ok (mkSnapshotInfo i (as_u64 f) num) msg h r x1 Hx1) as Hx2.
  rewrite Hupd in Hx2. cbn [snd] in Hx2. unfold snapshot_update, on_snapshots in Hupd. injection Hupd as <-.
  cbn [unique_id] in *. rewrite as_i64_id in * by lia.
  change (lget snapshots_lens (lget cur_lens x1)) with (schema.snapshots (cur x1)) in *.
  rewrite Hsn in *. unfold snapshot_lookup. rewrite bind_gets. cbv zeta.
  rewrite (as_i64_id num) by lia.
  rewrite (head_select_unique _ _ i (schema.mkSnapshot (tags.num tags.Reserved) f num utc
    (Some msg) (Some h) (Some (tree.as_bytes r)))).
  - unfold lift, found, href_of_row. cbn [schema.s_hash schema.s_hash_ref expect mbind res_bind].
    rewrite tree.href_from_bytes_as_bytes by done. cbn [res_ok mbind res_bind].
    unfold info_of_row. cbn [schema.s_family_id schema.s_snapshot_id].
    by rewrite (as_u64_id i), (as_u64_id num) by lia.
  - cbn. rewrite lookup_update, lookup_insert_eq. simpl. by rewrite bool_decide_eq_true_2.
  - cbn. by rewrite Hf, !bool_decide_eq_true_2.
  - intros j s Hj [Hj1%bool_decide_eq_true Hj2%bool_decide_eq_true]%andb_prop.
    eapply (tables_snapshots _ (index_cur _ Hx2)); [done| | |].
    + cbn. rewrite lookup_update, lookup_insert_eq. simpl. by rewrite bool_decide_eq_true_2.
    + cbn in *. by eapply (tables_families _ (index_cur _ Hx1)).
    + done.
Qed.

End Spec.

(** ** Runs *)
Section Runs.

#[local] Instance cref_cbor : Cbor Models.ChunkRef := codec_cbor.
#[local] Instance cref_laws : CborLaws Models.ChunkRef := codec_cbor_laws.
#[local] Instance ids_cbor : Cbor Models.HashIds := codec_cbor.
#[local] Instance ids_laws : CborLaws Models.HashIds := codec_cbor_laws.
#[local] Instance href_cbor : Cbor Models.HashRef := codec_cbor.
#[local] Instance href_laws : CborLaws Models.HashRef := codec_cbor_laws.

Definition some_pref : chunk.ChunkRef := chunk.mkChunkRef (Some 1%Z) [Byte.x0a] 3 5 None None.

Definition leaf_entry : hash.Entry :=
  hash.mkEntry [Byte.x01] chunk.Leaf Models.FileChunk None (Some some_pref).

Definition branch_entry : hash.Entry :=
  hash.mkEntry [Byte.x02] (chunk.Branch 1) Models.FileChunk (Some [1%Z]) (Some some_pref).

Definition empty_file : InternalIndex :=
  mkIndex schema.empty schema.empty 0 (Counter.new 0) (PeriodicTimer.mkTimer 0 10) true
    (mkClock (λ _, 0%Z) 1) still.

(** A leaf and its branch are reserved, the branch is committed first; the leaf's commit makes
    both ready. *)
Definition run0 : HashIndex := mkHashIndex UniquePriorityQueue.new
  (hash_delete_not_ready empty_file).2.
Definition run1 : HashIndex := (reserve leaf_entry run0).2.
Definition run2 : HashIndex := (reserve branch_entry run1).2.
Definition run3 : HashIndex := (commit 2 None run2).2.
Definition run4 : HashIndex := (commit 1 None run3).2.
Definition run5 : HashIndex := (flush_index run4).2.

Lemma run0_start : start schema.empty 10 still still = Ok run0.
Proof. reflexivity. Qed.

Lemma run2_reachable : rtc hash_step run0 run2.
Proof.
  eapply rtc_l; [|eapply rtc_l; [|apply rtc_refl]].
  - destruct (ok_run_snd (reserve leaf_entry run0)) as [r E]; [vm_compute; reflexivity|].
    eapply hs_reserve; [| |exact E]; [vm_compute; reflexivity|constructor].
  - destruct (ok_run_snd (reserve branch_entry run1)) as [r E]; [vm_compute; reflexivity|].
    eapply hs_reserve; [| |exact E]; [vm_compute; reflexivity|].
    unfold childs_below. apply (bool_decide_unpack _). vm_compute. exact I.
Qed.

Lemma run5_reachable : rtc hash_step run0 run5.
Proof.
  etrans; [exact run2_reachable|].
  eapply rtc_l; [|eapply rtc_l; [|eapply rtc_l; [apply hs_flush|apply rtc_refl]]].
  - destruct (ok_run_snd (commit 2 None run2)) as [[] E]; [vm_compute; reflexivity|].
    eapply hs_commit; [|exact E]. done.
  - destruct (ok_run_snd (commit 1 None run3)) as [[] E]; [vm_compute; reflexivity|].
    eapply hs_commit; [|exact E]. done.
Qed.

Lemma run0_ok : HashIndex_ok run0.
Proof. eapply start_empty_ok. exact run0_start. Qed.

Lemma restart_finds_closed_index_witness :
  size (schema.hashes (committed (index run5))) = 2 ∧
  ∃ s', start (crash (index run5)) 10 still still = Ok s' ∧
    ∀ i h, schema.hashes (cur (index s')) !! i = Some h → schema.ready h = true ∧
      ∀ cs, childs_of_row h = Ok (Some cs) →
        Forall (λ c, is_Some (schema.hashes (cur (index s')) !! c)) cs.
Proof.
  split; [vm_compute; reflexivity|].
  exact (restart_finds_closed_index 10 still still run0 run5 10 still still run0_start
    run5_reachable).
Defined.

Lemma hashes_ready_in_order_witness :
  size (priority (queue run2)) = 2 ∧
  ∀ i h, schema.hashes (cur (index run2)) !! i = Some h → schema.ready h = false →
    is_Some (priority (queue run2) !! i).
Proof.
  split; [vm_compute; reflexivity|].
  destruct (hashes_ready_in_order 10 still still run0 run2 run0_start run2_reachable)
    as (_ & Hn & _). exact Hn.
Defined.

Lemma reserve_once_witness :
  ∃ s', reserve leaf_entry run0 = (Ok (ReserveOk 1), s') ∧
    reserve leaf_entry s' = (Ok (HashKnown 1), s').
Proof.
  destruct (reserve_once leaf_entry leaf_entry run0 run0_ok) as (s' & E1 & E2 & _).
  - discriminate.
  - reflexivity.
  - reflexivity.
  - intros i h Hi. change (schema.hashes (cur (index run0))) with (∅ : gmap Z schema.Hash) in Hi.
    by rewrite lookup_empty in Hi.
  - constructor.
  - exists s'. exact (conj E1 E2).
Defined.

Lemma commit_settles_witness :
  (∃ s', commit 2 None run2 = (Ok (), s') ∧ HashIndex_ok s' ∧ settled (queue s')) ∨
  (∃ s', commit 2 None run2 = (Panic, s')).
Proof.
  apply (commit_settles 2 None run2); [|discriminate].
  exact (reachable_ok _ _ run0_ok run2_reachable).
Defined.

Definition some_blob : BlobDesc := mkBlobDesc [Byte.x0a] 1.

Definition with_blob : InternalIndex := (blob_in_air some_blob empty_file).2.

Lemma with_blob_reachable : rtc db_step empty_file with_blob.
Proof. eapply rtc_l; [apply step_blob_in_air|apply rtc_refl]. Qed.

Lemma database_keys_unique_witness : Index_ok with_blob.
Proof.
  exact (database_keys_unique 10 still still empty_file with_blob eq_refl with_blob_reachable).
Defined.

Definition branch_qe : QueueEntry := new_queue_entry 2 branch_entry.

Lemma with_blob_ok : Index_ok with_blob.
Proof. apply (blob_in_air_ok some_blob empty_file). apply (hi_index _ run0_ok). Qed.

Lemma stored_hash_located_witness :
  ∃ x1 x2 qe, hash_insert_new 2 [Byte.x02] branch_qe with_blob = (Ok (), x1) ∧
    hash_set_ready 2 branch_qe x1 = (Ok (), x2) ∧
    hash_locate [Byte.x02] x2 = (Ok (Some qe), x2) ∧
    q_persistent_ref qe = Some (chunk.set_blob_id None some_pref).
Proof.
  destruct (ok_run_snd (hash_insert_new 2 [Byte.x02] branch_qe with_blob)) as [[] E1];
    [vm_compute; reflexivity|].
  destruct (ok_run_snd (hash_set_ready 2 branch_qe
    (hash_insert_new 2 [Byte.x02] branch_qe with_blob).2)) as [[] E2]; [vm_compute; reflexivity|].
  eexists _, _, _. split; [exact E1|]. split; [exact E2|]. split.
  - refine (stored_hash_located [Byte.x02] 2 branch_qe some_pref with_blob _ _ _ _ with_blob_ok
      _ _ _ _ _ _ E1 E2).
    + discriminate.
    + done.
    + vm_compute. reflexivity.
    + intros i h Hi. change (schema.hashes (cur with_blob)) with (∅ : gmap Z schema.Hash) in Hi.
      by rewrite lookup_empty in Hi.
    + reflexivity.
    + discriminate.
    + vm_compute. split; [discriminate|reflexivity].
    + intros _. eexists. vm_compute. reflexivity.
  - vm_compute. reflexivity.
Defined.

Lemma gc_update_then_read_witness :
  ∃ x', hash_update_gc_data 1 2 (λ d, Some (mkGcData (g_num d + 1) [Byte.x07])) empty_file
      = (Ok (mkGcData 1 [Byte.x07]), x') ∧
    hash_read_gc_data 1 2 x' = (Ok (mkGcData 1 [Byte.x07]), x').
Proof.
  destruct (ok_run_snd (hash_update_gc_data 1 2 (λ d, Some (mkGcData (g_num d + 1) [Byte.x07]))
    empty_file)) as [d E]; [vm_compute; reflexivity|].
  destruct (gc_update_then_read 1 2 _ empty_file _ d ltac:(done) ltac:(done) E)
    as (Hd & Hread & _).
  eexists. split; [|exact Hread]. rewrite E, Hd. reflexivity.
Defined.

Definition some_root : tree.HashRef :=
  tree.mkHashRef [Byte.x09] chunk.Leaf Models.TreeList some_pref None.

Lemma reserved_snapshot_found_witness :
  ∃ info x1 x2, snapshot_reserve [Byte.x41] empty_file = (Ok info, x1) ∧
    snapshot_update info [Byte.x4d] [Byte.x09] some_root x1 = (Ok (), x2) ∧
    snapshot_lookup [Byte.x41] (snapshot_id info) x2 =
      (Ok (Some (info, [Byte.x09], Some (tree.norm some_root))), x2).
Proof.
  destruct (ok_run_snd (snapshot_reserve [Byte.x41] empty_file)) as [info E1];
    [vm_compute; reflexivity|].
  destruct (ok_run_snd (snapshot_update info [Byte.x4d] [Byte.x09] some_root
    (snapshot_reserve [Byte.x41] empty_file).2)) as [[] E2]; [reflexivity|].
  eexists info, _, _. split; [exact E1|]. split; [exact E2|].
  refine (proj2 (reserved_snapshot_found [Byte.x41] empty_file info _ [Byte.x4d] [Byte.x09]
    some_root _ _ _ _ E1 E2)).
  - apply (hi_index _ run0_ok).
  - intros i s Hi. change (schema.snapshots (cur empty_file)) with (∅ : gmap Z schema.Snapshot) in Hi.
    by rewrite lookup_empty in Hi.
  - split; [discriminate|exact I].
Defined.

End Runs.
