(* ===== verification/DataSpec.v ===== *)
(** * Data and collections: the theorems

    The serialised references and file names, and the priority queue of the hash index. *)

From S2P Require Import Prelude Utf8 Cbor Codec Refs Ordered Upq Db HashIndex.
From S2P Require Models.

Section Spec.
Context `{CborLaws Models.HashRef} `{CborLaws Models.HashRefs}.

(** C40: A hash reference survives its serialised form, alone and in a list, up to what the form
    has no room for (the blob's local id, a zero time or length, a user without a group); what
    was read back survives unchanged. *)
Theorem reference_roundtrip h l :
  tree.HashRef_wf h → Forall tree.HashRef_wf l →
  tree.from_bytes (tree.as_bytes h) = Ok (tree.norm h) ∧
  tree.hash_refs_from_bytes (tree.hash_refs_to_bytes l) = Ok (tree.norm <$> l) ∧
  tree.from_bytes (tree.as_bytes (tree.norm h)) = Ok (tree.norm h).
Proof.
  intros Hh Hl. split_and!.
  - by apply tree.href_from_bytes_as_bytes.
  - by apply tree.hash_refs_from_to_bytes.
  - rewrite tree.href_from_bytes_as_bytes by (by apply tree.norm_wf).
    destruct h as [a n lf [i b o ln p k] [inf|]]; unfold tree.norm; simpl;
      by rewrite ?key.Info_norm_idemp.
Qed.

End Spec.

(** A file name is any sequence of bytes: what the name is made of comes back from it, two
    different names stay different, and the text shown for it is the name itself whenever that
    is valid UTF-8. *)
Theorem file_name_roundtrip v :
  Models.FileName_into_vec (Models.FileName_from_vec v) = v ∧
  (valid_utf8 v = true → Models.FileName_utf8 (Models.FileName_from_vec v) = v) ∧
  ∀ v', Models.FileName_from_vec v = Models.FileName_from_vec v' → v = v'.
Proof.
  split_and!.
  - apply Models.FileName_into_from_vec.
  - intros Hv. unfold Models.FileName_from_vec, from_utf8. by rewrite Hv.
  - intros v' E. rewrite <- (Models.FileName_into_from_vec v), <- (Models.FileName_into_from_vec v').
    by rewrite E.
Qed.

(** ** The queue *)
Import UniquePriorityQueue.

Abbreviation zqueue := (Upq Z bytes QueueEntry).

(** The operations of the queue. *)
Inductive queue_step (q : zqueue) : zqueue → Prop :=
  | qs_put p k v : queue_step q (put_value p k v q).2
  | qs_update k f : queue_step q (update_value k f q).2
  | qs_set_ready p : queue_step q (set_ready p q).2
  | qs_pop : queue_step q (pop_min_if_complete Z.le q).2.

Lemma queue_step_ok q q' : Upq_ok q → queue_step q q' → Upq_ok q'.
Proof.
  intros Hq. destruct 1.
  - destruct (put_value p k v q) as [r q'] eqn:E. by eapply put_value_ok.
  - destruct (update_value k f q) as [r q'] eqn:E. by eapply update_value_ok.
  - destruct (set_ready p q) as [r q'] eqn:E. by eapply set_ready_ok.
  - destruct (pop_min_if_complete Z.le q) as [r q'] eqn:E. by eapply (pop_ok Z.le).
Qed.

Lemma queue_reachable_ok q0 q : Upq_ok q0 → rtc queue_step q0 q → Upq_ok q.
Proof. intros Hq. induction 1; eauto using queue_step_ok. Qed.

(** Whatever is done with the queue, its two maps stay inverse to each other, and a pop
    takes out nothing but the entry of least priority, and only when it is ready: a queue whose
    least entry is pending gives nothing, however many of the others are ready. *)
Theorem queue_pops_least_ready q :
  rtc queue_step new q →
  Upq_ok q ∧
  match pop_min_if_complete Z.le q with
  | (Ok (Some (p, k, v)), q') =>
      priority q !! p = Some (Ready, k, v) ∧ priority q' = delete p (priority q) ∧
      key_to_priority q' = delete k (key_to_priority q) ∧
      ∀ p', is_Some (priority q !! p') → (p ≤ p')%Z
  | (Ok None, q') => q' = q ∧ settled q
  | _ => False
  end.
Proof.
  intros Hr. assert (Upq_ok q) as Hq.
  { eapply queue_reachable_ok; [|done]. apply upq_new_ok. }
  split; [done|].
  destruct (pop_cases Z.le q) as [[-> Hc]|(p & k & v & Hp & Hmin & ->)]; [done|].
  by split_and!.
Qed.

(** ** Runs *)
Section Runs.

#[local] Instance href_cbor : Cbor Models.HashRef := codec_cbor.
#[local] Instance href_laws : CborLaws Models.HashRef := codec_cbor_laws.
#[local] Instance refs_cbor : Cbor Models.HashRefs := codec_cbor.
#[local] Instance refs_laws : CborLaws Models.HashRefs := codec_cbor_laws.

Definition a_name : Models.FileName := Models.FileName_from_vec [Byte.xff; Byte.x41].

Definition an_info : key.Info :=
  key.mkInfo a_name (Some 0%Z) (Some 5%Z) None (Some 420%Z) (Some 1000%Z) (Some 1000%Z)
    (Some 7%Z) 9.

Definition a_ref : tree.HashRef :=
  tree.mkHashRef [Byte.x02] (chunk.Branch 3) Models.TreeList
    (chunk.mkChunkRef (Some 4%Z) [Byte.x03] 10 20 None
      (Some (chunk.AeadChacha20Poly1305 [Byte.x05]))) (Some an_info).

Lemma a_ref_wf : tree.HashRef_wf a_ref.
Proof. split; [discriminate|]. split; simpl; lia. Qed.

Lemma reference_roundtrip_witness :
  tree.from_bytes (tree.as_bytes a_ref) = Ok (tree.norm a_ref) ∧
  tree.hash_refs_from_bytes (tree.hash_refs_to_bytes [a_ref; a_ref])
    = Ok [tree.norm a_ref; tree.norm a_ref].
Proof.
  destruct (reference_roundtrip a_ref [a_ref; a_ref] a_ref_wf
    ltac:(repeat constructor; apply a_ref_wf)) as (E1 & E2 & _).
  split; [exact E1|exact E2].
Defined.

(** Serialising a file's information drops what is zero: a file of length zero reads back
    as one of unknown length, a time of 1970-01-01 as no time; and a user without a group is
    lost. *)
Theorem info_roundtrip_loses :
  key.byte_length (key.Info_from_model (key.Info_to_model
    (key.mkInfo a_name None None None None None None (Some 0%Z) 9))) = None ∧
  key.created_ts_secs (key.Info_from_model (key.Info_to_model an_info)) = None ∧
  key.user_id (key.Info_from_model (key.Info_to_model
    (key.mkInfo a_name None None None None (Some 1000%Z) None None 9))) = None.
Proof. done. Qed.

Definition one_ready : zqueue :=
  (set_ready 1%Z (put_value 1%Z [Byte.x01] (mkQueueEntry 1 chunk.Leaf Models.FileChunk None None None)
    new).2).2.

Lemma queue_pops_least_ready_witness :
  Upq_ok one_ready ∧ size (priority one_ready) = 1.
Proof.
  split; [|reflexivity]. refine (proj1 (queue_pops_least_ready one_ready _)).
  eapply rtc_l; [apply qs_put|]. eapply rtc_l; [apply qs_set_ready|]. apply rtc_refl.
Defined.

End Runs.
