(* ===== verification/Backend.v ===== *)
(** * Storage backends: backend/mod.rs, memory.rs, devnull.rs, file.rs

    [StoreBackend] is the trait. A callback is a value; an operation that may call one runs on
    the backend and the list of the callbacks called so far. What the blob store relies on is
    the contract [StoreBackendLaws], which the memory backend keeps and the file backend keeps
    as long as the disk works and no name is asked for before it is stored. *)

From S2P Require Import Prelude Utf8 Crypto.
Import Crypto.CipherText (CipherText).

Class StoreBackend (Cb B : Type) := {
  store : bytes → CipherText → Cb → M (B * list Cb) unit;
  retrieve : bytes → M B (option bytes);
  delete : bytes → M B unit;
  list_names : M B (list bytes);
  flush : M (B * list Cb) unit;
}.

(** [done.call(())] *)
Definition call {B Cb} (done : Cb) : M (B * list Cb) unit :=
  zoom snd_lens (modify (λ l, l ++ [done])).

(** [durable b n d]: the backend has the object [d] under the name [n], for good.
    [fresh b n]: [n] has neither been stored nor asked for. *)
Class StoreBackendLaws (Cb B : Type) `{!StoreBackend Cb B} := {
  healthy : B → Prop;
  durable : B → bytes → bytes → Prop;
  fresh : B → bytes → Prop;
  durable_det : ∀ b n d1 d2, durable b n d1 → durable b n d2 → d1 = d2;
  store_ok : ∀ b n ct cb, healthy b → fresh b n →
    match store n ct cb (b, []) with
    | (Ok _, (b', called)) => called = [cb] ∧ healthy b' ∧ durable b' n (CipherText.to_vec ct) ∧
        (∀ n' d, n' ≠ n → durable b n' d → durable b' n' d) ∧
        (∀ n', n' ≠ n → fresh b n' → fresh b' n')
    | (Err _, (_, called)) | (Panic, (_, called)) => called = [] ∨ called = [cb]
    | (Diverge, _) => False
    end;
  retrieve_ok : ∀ b n d, healthy b → durable b n d →
    twp (retrieve n) b (λ o b', o = Some d ∧ healthy b' ∧
      (∀ n' d', durable b n' d' → durable b' n' d') ∧
      (∀ n', n' ≠ n → fresh b n' → fresh b' n'));
}.

(** A durable object can be deleted, and is gone; the others stay. *)
Class StoreBackendDeleteLaws (Cb B : Type) `{StoreBackendLaws Cb B} : Prop := {
  delete_ok : ∀ (b : B) n d, healthy b → durable b n d →
    twp (delete n) b (λ _ b', healthy b' ∧ (∀ d', ¬ durable b' n d') ∧
      (∀ n' d', n' ≠ n → durable b n' d' → durable b' n' d') ∧
      (∀ n' d', durable b' n' d' → durable b n' d') ∧
      (∀ n', fresh b n' → fresh b' n'));
}.

(** ** memory.rs *)
Module MemoryBackend.

Record MemoryBackend := mkMemory { files : gmap bytes bytes }.

Definition new : MemoryBackend := mkMemory ∅.

Definition guarded_insert (key value : bytes) : M MemoryBackend unit := λ b,
  match files b !! key with
  | Some _ => (Err (Message "Key already exists"), b)
  | None => (Ok (), mkMemory (<[key := value]> (files b)))
  end.

Definition guarded_retrieve (key : bytes) : M MemoryBackend (option bytes) :=
  gets (λ b, files b !! key).

Definition guarded_delete (key : bytes) : M MemoryBackend unit :=
  modify (λ b, mkMemory (base.delete key (files b))).

Definition guarded_list : M MemoryBackend (list bytes) :=
  gets (λ b, (map_to_list (files b)).*1).

(** The callback is called before the result of the insertion is looked at. *)
Definition mem_store {Cb} (name : bytes) (data : CipherText) (done : Cb)
    : M (MemoryBackend * list Cb) unit :=
  r ← attempt (zoom fst_lens (guarded_insert name (CipherText.to_vec data)));
  call done ;;
  match r with inl () => mret () | inr e => throw e end.

#[global] Instance memory_backend {Cb} : StoreBackend Cb MemoryBackend := {|
  store := mem_store;
  retrieve := guarded_retrieve;
  delete := guarded_delete;
  list_names := guarded_list;
  flush := mret ();
|}.

#[global] Instance memory_backend_laws {Cb} : StoreBackendLaws Cb MemoryBackend.
Proof.
  refine (@Build_StoreBackendLaws _ _ _ (λ _, True) (λ b n d, files b !! n = Some d)
    (λ b n, files b !! n = None) _ _ _).
  - congruence.
  - intros b n ct cb _ Hf. simpl. unfold mem_store, attempt, zoom, guarded_insert, mbind, M_bind.
    simpl. rewrite Hf. simpl. split_and!; try done.
    + apply lookup_insert_eq.
    + intros. by rewrite lookup_insert_ne.
    + intros. by rewrite lookup_insert_ne.
  - intros b n d _ Hd. unfold twp. simpl. done.
Defined.

#[global] Instance memory_delete_laws {Cb} : StoreBackendDeleteLaws Cb MemoryBackend.
Proof.
  split. intros b n d _ Hd. refine (twp_Ok _ _ _ _ _ eq_refl _). cbn. split_and!; [done|..].
  - intros d'. by rewrite lookup_delete_eq.
  - intros n' d' Hn. by rewrite lookup_delete_ne.
  - intros n' d' [_ ?]%lookup_delete_Some. done.
  - intros n' Hn. by apply lookup_delete_None; right.
Qed.

End MemoryBackend.

(** ** devnull.rs: keeps nothing *)
Module DevNullBackend.

Inductive DevNullBackend := DevNull.

#[global] Instance devnull_backend {Cb} : StoreBackend Cb DevNullBackend := {|
  store _ _ done := call done;
  retrieve _ := mret None;
  delete _ := mret ();
  list_names := mret [];
  flush := mret ();
|}.

End DevNullBackend.

(** ** file.rs *)

(** The crate [hex]. *)
Class Hex := {
  hex_encode : bytes → bytes;
  from_hex : bytes → option bytes;
}.
Class HexLaws `{Hex} : Prop := { from_hex_encode : ∀ b, from_hex (hex_encode b) = Some b }.

#[global] Instance hex_encode_inj `{HexLaws} : Inj (=) (=) hex_encode.
Proof. intros a b E. apply (f_equal from_hex) in E. rewrite !from_hex_encode in E. congruence. Qed.

Module FileBackend.
Section FileBackend.
Context `{Hex}.

(** The directory [root], the outcome of the coming calls to the operating system ([true]: the
    call fails), the read cache and its size. *)
Record FileBackend := mkFile {
  files : gmap bytes bytes;
  fails : nat → bool;
  calls : nat;
  read_cache : gmap bytes (option bytes + error);
  max_cache_size : nat;
}.

Definition new (files : gmap bytes bytes) (fails : nat → bool) : FileBackend :=
  mkFile files fails 0 ∅ 10.

(** One call to the operating system: whether it succeeds. *)
Definition os : M FileBackend bool := λ b,
  (Ok (negb (fails b (calls b))),
   mkFile (files b) (fails b) (S (calls b)) (read_cache b) (max_cache_size b)).

Definition set_files (f : gmap bytes bytes → gmap bytes bytes) : M FileBackend unit :=
  modify (λ b, mkFile (f (files b)) (fails b) (calls b) (read_cache b) (max_cache_size b)).

Definition set_cache (f : gmap bytes (option bytes + error) → gmap bytes (option bytes + error))
    : M FileBackend unit :=
  modify (λ b, mkFile (files b) (fails b) (calls b) (f (read_cache b)) (max_cache_size b)).

Definition io_error : error := IoError "io error".

Definition guarded_cache_get (name : bytes) : M FileBackend (option (option bytes + error)) :=
  gets (λ b, read_cache b !! name).

(** A file that cannot be opened does not exist. *)
Definition get (name : bytes) : M FileBackend (option bytes) :=
  opened ← os;
  contents ← gets (λ b, files b !! hex_encode name);
  match contents with
  | Some buf =>
      if opened : bool then
        read ← os;
        if read : bool then mret (Some buf) else throw io_error
      else mret None
  | None => mret None
  end.

Definition guarded_cache_delete (name : bytes) : M FileBackend unit :=
  set_cache (base.delete name).

Definition guarded_cache_put (name : bytes) (result : option bytes + error) : M FileBackend unit :=
  b ← gets (λ b, bool_decide (max_cache_size b ≤ size (read_cache b)));
  (if b : bool then set_cache (λ _, ∅) else mret ()) ;;
  set_cache (<[name := result]>).

(** [for r in data.slices() { file.write_all(r)? }] *)
Fixpoint write_slices (path : bytes) (slices : list bytes) : M FileBackend unit :=
  match slices with
  | [] => mret ()
  | r :: slices =>
      ok ← os;
      if ok : bool then
        set_files (alter (λ old, old ++ r) path) ;; write_slices path slices
      else throw io_error
  end.

Definition file_store {Cb} (name : bytes) (data : CipherText) (done : Cb)
    : M (FileBackend * list Cb) unit :=
  let path := hex_encode name in
  created ← zoom fst_lens os;
  if created : bool then
    zoom fst_lens (set_files (<[path := []]>)) ;;
    zoom fst_lens (write_slices path (CipherText.chunks data)) ;;
    call done
  else throw io_error.

Definition file_retrieve (name : bytes) : M FileBackend (option bytes) :=
  value_opt ← guarded_cache_get name;
  match value_opt with
  | Some (inl r) => mret r
  | Some (inr e) => throw e
  | None =>
      res ← attempt (get name);
      guarded_cache_put name res ;;
      match res with inl r => mret r | inr e => throw e end
  end.

Definition file_delete (name : bytes) : M FileBackend unit :=
  guarded_cache_delete name ;;
  let path := hex_encode name in
  removed ← os;
  exists_ ← gets (λ b, bool_decide (is_Some (files b !! path)));
  if removed && exists_ then set_files (base.delete path) else throw io_error.

(** A file name that is not UTF-8 is skipped, one that is not hexadecimal panics
    ([from_hex(s).unwrap()]). *)
Fixpoint read_entries (l : list bytes) : M FileBackend (list bytes) :=
  match l with
  | [] => mret []
  | s :: l =>
      ok ← os;
      if ok : bool then
        if valid_utf8 s then
          b ← lift (expect (from_hex s)); bs ← read_entries l; mret (b :: bs)
        else read_entries l
      else throw io_error
  end.

Definition file_list : M FileBackend (list bytes) :=
  ok ← os;
  if ok : bool then names ← gets (λ b, (map_to_list (files b)).*1); read_entries names
  else throw io_error.

#[global] Instance file_backend {Cb} : StoreBackend Cb FileBackend := {|
  store := file_store;
  retrieve := file_retrieve;
  delete := file_delete;
  list_names := file_list;
  flush := mret ();
|}.

(** The disk does not fail any more. *)
Definition disk_works (b : FileBackend) : Prop := ∀ n, calls b ≤ n → fails b n = false.

(** The object is in its file, and the cache does not say otherwise. *)
Definition file_durable (b : FileBackend) (n d : bytes) : Prop :=
  files b !! hex_encode n = Some d ∧
  (read_cache b !! n = None ∨ read_cache b !! n = Some (inl (Some d))).

Definition file_fresh (b : FileBackend) (n : bytes) : Prop := read_cache b !! n = None.

Lemma os_works b :
  disk_works b → os b = (Ok true, mkFile (files b) (fails b) (S (calls b)) (read_cache b)
    (max_cache_size b)).
Proof. intros Hd. unfold os. by rewrite Hd. Qed.

Lemma write_slices_works path l b old :
  disk_works b → files b !! path = Some old →
  ∃ n, write_slices path l b = (Ok (), mkFile (<[path := old ++ concat l]> (files b)) (fails b) n
    (read_cache b) (max_cache_size b)) ∧ calls b ≤ n.
Proof.
  revert b old. induction l as [|r l IH]; intros b old Hd Hp; simpl.
  - exists (calls b). rewrite app_nil_r, insert_id by done. by destruct b.
  - rewrite (bind_Ok _ _ _ _ _ (os_works b Hd)). unfold set_files. rewrite bind_modify.
    cbn [files fails calls read_cache max_cache_size].
    destruct (IH (mkFile (alter (λ o, o ++ r) path (files b)) (fails b) (S (calls b))
      (read_cache b) (max_cache_size b)) (old ++ r)) as (n & E & Hn).
    + intros m Hm. apply Hd. simpl in Hm. lia.
    + simpl. rewrite lookup_alter_eq, Hp. done.
    + exists n. rewrite E. simpl in *. split; [|lia]. do 2 f_equal.
      rewrite <- app_assoc. apply map_eq. intros k. destruct (decide (k = path)) as [->|].
      * by rewrite !lookup_insert_eq.
      * by rewrite !lookup_insert_ne, lookup_alter_ne.
Qed.

Lemma file_store_works {Cb} n ct (cb : Cb) b :
  disk_works b →
  ∃ k, file_store n ct cb (b, []) = (Ok (), (mkFile
    (<[hex_encode n := CipherText.to_vec ct]> (files b)) (fails b) k (read_cache b)
    (max_cache_size b), [cb])) ∧ calls b ≤ k.
Proof.
  intros Hd. set (b1 := mkFile (<[hex_encode n := []]> (files b)) (fails b) (S (calls b))
    (read_cache b) (max_cache_size b)).
  destruct (write_slices_works (hex_encode n) (CipherText.chunks ct) b1 []) as (k & E & Hk).
  - intros m Hm. apply Hd. simpl in Hm. lia.
  - apply lookup_insert_eq.
  - exists k. split; [|simpl in Hk; lia]. unfold file_store.
    run_zoom (os_works b Hd). cbn [lset fst_lens snd fst]. unfold set_files.
    rewrite bind_zoom_modify. cbn [lget lset fst_lens fst snd files fails calls read_cache max_cache_size].
    run_zoom E. cbn. by rewrite insert_insert_eq.
Qed.

Lemma cache_put_run n r b :
  ∃ c, guarded_cache_put n r b = (Ok (), mkFile (files b) (fails b) (calls b) c (max_cache_size b)) ∧
    c !! n = Some r ∧
    ∀ n', n' ≠ n → c !! n' = None ∨ c !! n' = read_cache b !! n'.
Proof.
  unfold guarded_cache_put. rewrite bind_gets. case_bool_decide; eexists; (split; [done|]);
    split; [apply lookup_insert_eq| |apply lookup_insert_eq|]; intros n' Hn;
    rewrite lookup_insert_ne by done; auto.
Qed.

Lemma file_retrieve_works n d b :
  disk_works b → file_durable b n d →
  ∃ k c, file_retrieve n b = (Ok (Some d), mkFile (files b) (fails b) k c (max_cache_size b)) ∧
    calls b ≤ k ∧ (c !! n = Some (inl (Some d))) ∧
    ∀ n', n' ≠ n → c !! n' = None ∨ c !! n' = read_cache b !! n'.
Proof.
  intros Hd [Hf [Hc|Hc]]; unfold file_retrieve, guarded_cache_get; rewrite bind_gets, Hc.
  2:{ exists (calls b), (read_cache b). split_and!; [by destruct b|lia|done|auto]. }
  set (b1 := mkFile (files b) (fails b) (S (S (calls b))) (read_cache b) (max_cache_size b)).
  assert (get n b = (Ok (Some d), b1)) as E.
  { unfold get. run_with (os_works b Hd). rewrite bind_gets. cbn [files]. rewrite Hf.
    rewrite (bind_Ok _ _ _ true b1); [done|]. apply os_works. intros m Hm. apply Hd.
    simpl in Hm. lia. }
  rewrite (bind_Ok _ _ _ (inl (Some d)) b1) by (unfold attempt; by rewrite E).
  destruct (cache_put_run n (inl (Some d)) b1) as (c & Ep & Hn & Hne).
  exists (S (S (calls b))), c. run_with Ep. split_and!; [done|lia|done|done].
Qed.

End FileBackend.

#[global] Instance file_backend_laws `{HexLaws} {Cb} : StoreBackendLaws Cb FileBackend.
Proof.
  refine (@Build_StoreBackendLaws _ _ _ disk_works file_durable file_fresh _ _ _).
  - intros b n d1 d2 [? _] [? _]. congruence.
  - intros b n ct cb Hd Hf. destruct (file_store_works n ct cb b Hd) as (k & E & Hk).
    change (store n ct cb) with (@file_store _ Cb n ct cb). rewrite E. split_and!.
    + done.
    + intros m Hm. apply Hd. simpl in Hm. lia.
    + split; [apply lookup_insert_eq|by left].
    + intros n' d Hn [Hl Hc]. split; [|done]. simpl. rewrite lookup_insert_ne; [done|].
      intros ?%(inj hex_encode). congruence.
    + intros n' _ Hn. exact Hn.
  - intros b n d Hd Hn. destruct (file_retrieve_works n d b Hd Hn) as (k & c & E & Hk & Hc & Hne).
    eapply twp_Ok; [exact E|]. split_and!; [done| | |].
    + intros m Hm. apply Hd. simpl in Hm. lia.
    + intros n' d' [Hf' Hc']. split; [done|]. simpl.
      destruct (decide (n' = n)) as [->|Hn'].
      * right. destruct Hn as [Hf _]. congruence.
      * destruct (Hne n' Hn') as [->| ->]; auto.
    + intros n' Hn' Hfr. unfold file_fresh in *. simpl. destruct (Hne n' Hn') as [->| ->]; done.
Defined.

#[global] Instance file_delete_laws `{HexLaws} {Cb} : StoreBackendDeleteLaws Cb FileBackend.
Proof.
  split. intros b n d Hd [Hf Hc]. cbn [delete file_backend]. unfold file_delete.
  unfold guarded_cache_delete, set_cache. apply twp_bind. refine (twp_Ok _ _ _ _ _ eq_refl _).
  set (b1 := mkFile _ _ _ _ _). apply twp_bind. refine (twp_Ok _ _ _ _ _ (os_works b1 Hd) _).
  apply twp_bind. refine (twp_Ok _ _ _ _ _ eq_refl _). cbn [files b1]. rewrite Hf.
  rewrite bool_decide_eq_true_2 by eauto. cbn [andb]. refine (twp_Ok _ _ _ _ _ eq_refl _). split_and!.
  - intros m Hm. apply Hd. simpl in Hm. lia.
  - intros d' [Hf' _]. simpl in Hf'. by rewrite lookup_delete_eq in Hf'.
  - intros n' d' Hn [Hf' Hc']. split; simpl.
    + rewrite lookup_delete_ne; [done|]. intros ?%(inj hex_encode). congruence.
    + by rewrite lookup_delete_ne.
  - intros n' d' [Hf' Hc']. simpl in *. apply lookup_delete_Some in Hf' as [Hne Hf'].
    split; [done|]. rewrite lookup_delete_ne in Hc'; [done|]. congruence.
  - intros n' Hn. unfold file_fresh in *. simpl. by apply lookup_delete_None; right.
Qed.

End FileBackend.
