(* ===== verification/CmdBackend.v ===== *)
(** * The command backend: backend/cmd.rs

    Objects are put, got, deleted and listed by commands outside of the repository
    (hat-backup-put and so on). The puts run as child processes, at most [max_concurrent] of
    them; a put that fails is started again, and the callback of an object runs when its put
    has succeeded. The operating system and the commands are the class [CmdOs]. *)

From S2P Require Import Prelude Utf8 Crypto Backend.
Import Crypto.CipherText (CipherText).

Inductive ExitStatus := Exited (code : Z) | Signaled.

Definition success (s : ExitStatus) : bool :=
  match s with Exited c => bool_decide (c = 0%Z) | Signaled => false end.

(** What [process::Command] and [process::Child] do, on the state of the world. *)
Class CmdOs := {
  world : Type;
  child : Type;
  spawn_put : bytes → M world child;
  write_stdin : child → bytes → M world unit;
  child_try_wait : child → M world (option ExitStatus);
  child_wait : child → M world ExitStatus;
  output_get : bytes → M world bytes;
  output_delete : bytes → M world unit;
  output_list : M world bytes;
}.

(** [str::lines] *)
Definition newline : byte := Byte.x0a.
Definition carriage_return : byte := Byte.x0d.

Definition strip_cr (l : bytes) : bytes :=
  match last l with
  | Some c => if decide (c = carriage_return) then take (length l - 1) l else l
  | None => l
  end.

(** [acc] is the line so far. *)
Fixpoint lines_from (acc l : bytes) : list bytes :=
  match l with
  | [] => match acc with [] => [] | _ => [acc] end
  | c :: l =>
      if decide (c = newline) then strip_cr acc :: lines_from [] l else lines_from (acc ++ [c]) l
  end.

Definition lines (l : bytes) : list bytes := lines_from [] l.

Section CmdBackend.
Context `{CmdOs} `{Hex} {Cb : Type}.

Record CmdPutContext := mkContext { hex_key : bytes; text : CipherText; done_callback : Cb }.

Record CmdPut := mkPut { put_child : child; context : CmdPutContext }.

Record CmdBackend := mkCmd {
  read_cache : gmap bytes (option bytes + error);
  max_cache_size : nat;
  max_concurrent : nat;
  queue : list CmdPut;
  os : world;
}.

Definition new (w : world) : CmdBackend := mkCmd ∅ 10 5 [] w.

Definition cache_lens : lens CmdBackend (gmap bytes (option bytes + error)) :=
  Lens read_cache (λ x b, mkCmd x (max_cache_size b) (max_concurrent b) (queue b) (os b)).
Definition queue_lens : lens CmdBackend (list CmdPut) :=
  Lens queue (λ x b, mkCmd (read_cache b) (max_cache_size b) (max_concurrent b) x (os b)).
Definition os_lens : lens CmdBackend world :=
  Lens os (λ x b, mkCmd (read_cache b) (max_cache_size b) (max_concurrent b) (queue b) x).

(** ** CmdPut *)

Definition start_child (c : CmdPutContext) : M world child :=
  ch ← spawn_put (hex_key c);
  for_each (write_stdin ch) (CipherText.chunks (text c)) ;;
  mret ch.

Definition put_new (c : CmdPutContext) : M world CmdPut :=
  ch ← start_child c; mret (mkPut ch c).

Definition try_wait (p : CmdPut) : M world (option ExitStatus) := child_try_wait (put_child p).

(** [Err] with the context is [inr]; the callback is called when the command succeeded. *)
Definition wait (p : CmdPut) : M (CmdBackend * list Cb) (unit + CmdPutContext) :=
  status ← attempt (zoom fst_lens (zoom os_lens (child_wait (put_child p))));
  match status with
  | inr _ => mret (inr (context p))
  | inl status =>
      if success status then call (done_callback (context p)) ;; mret (inl ())
      else mret (inr (context p))
  end.

(** ** CmdBackend *)

Definition guarded_cache_get (name : bytes) : M CmdBackend (option (option bytes + error)) :=
  gets (λ b, read_cache b !! name).

Definition get (name : bytes) : M CmdBackend (option bytes) :=
  out ← zoom os_lens (output_get (hex_encode name));
  if decide (out = []) then mret None else mret (Some out).

Definition guarded_cache_delete (name : bytes) : M CmdBackend unit :=
  zoom cache_lens (modify (base.delete name)).

Definition guarded_cache_put (name : bytes) (result : option bytes + error) : M CmdBackend unit :=
  b ← gets (λ b, bool_decide (max_cache_size b ≤ size (read_cache b)));
  (if b : bool then zoom cache_lens (modify (λ _, ∅)) else mret ()) ;;
  zoom cache_lens (modify <[name := result]>).

Definition push (p : CmdPut) : M (CmdBackend * list Cb) unit :=
  zoom fst_lens (zoom queue_lens (modify (λ q, q ++ [p]))).

(** The loop over the old queue: returns the contexts to restart. *)
Fixpoint poll (old : list CmdPut) (restart : list CmdPutContext)
    : M (CmdBackend * list Cb) (list CmdPutContext) :=
  match old with
  | [] => mret restart
  | c :: old =>
      r ← attempt (zoom fst_lens (zoom os_lens (try_wait c)));
      match r with
      | inl None => push c ;; poll old restart
      | inr _ => push c ;; poll old restart
      | inl (Some _) =>
          (* Process seems ready. *)
          w ← wait c;
          match w with
          | inr ctx => poll old (restart ++ [ctx])
          | inl _ => poll old restart
          end
      end
  end.

Definition try_flush : M (CmdBackend * list Cb) unit :=
  old ← gets (λ w, queue w.1);
  zoom fst_lens (zoom queue_lens (modify (λ _, []))) ;;
  restart ← poll old [];
  for_each (λ ctx, p ← unwrapM (zoom fst_lens (zoom os_lens (put_new ctx))); push p) restart.

(** [while queue.len() >= self.max_concurrent { self.try_flush(..); sleep }] *)
Fixpoint make_room (fuel : nat) : M (CmdBackend * list Cb) unit :=
  full ← gets (λ w, bool_decide (max_concurrent w.1 ≤ length (queue w.1)));
  if full : bool then
    match fuel with O => diverge | S fuel => try_flush ;; make_room fuel end
  else mret ().

Definition new_put (fuel : nat) (ctx : CmdPutContext) : M (CmdBackend * list Cb) unit :=
  make_room fuel ;;
  p ← zoom fst_lens (zoom os_lens (put_new ctx));
  push p.

Definition cmd_store (fuel : nat) (name : bytes) (text : CipherText) (done : Cb)
    : M (CmdBackend * list Cb) unit :=
  new_put fuel (mkContext (hex_encode name) text done).

Definition cmd_retrieve (name : bytes) : M CmdBackend (option bytes) :=
  value_opt ← guarded_cache_get name;
  match value_opt with
  | Some (inl r) => mret r
  | Some (inr e) => throw e
  | None =>
      res ← attempt (get name);
      guarded_cache_put name res ;;
      match res with inl r => mret r | inr e => throw e end
  end.

Definition cmd_delete (name : bytes) : M CmdBackend unit :=
  guarded_cache_delete name ;; zoom os_lens (output_delete (hex_encode name)).

(** A line that is not hexadecimal is skipped. *)
Definition cmd_list : M CmdBackend (list bytes) :=
  out ← zoom os_lens output_list;
  if valid_utf8 out then mret (omap from_hex (lines out))
  else throw (Message "hat-backup-list result encoding is not valid utf8").

Fixpoint flush_loop (fuel : nat) : M (CmdBackend * list Cb) unit :=
  empty ← gets (λ w, bool_decide (queue w.1 = []));
  if empty : bool then mret ()
  else match fuel with O => diverge | S fuel => try_flush ;; flush_loop fuel end.

(** The rounds a call waits for the commands are bounded by [fuel]. *)
Definition cmd_backend (fuel : nat) : StoreBackend Cb CmdBackend := {|
  store := cmd_store fuel;
  retrieve := cmd_retrieve;
  delete := cmd_delete;
  list_names := cmd_list;
  flush := flush_loop fuel;
|}.

End CmdBackend.
