(* ===== verification/Blob.v ===== *)
(** * Blobs: blob/blob.rs

    A blob is filled chunk by chunk ([try_append]), sealed into a ciphertext of exactly
    [max_len] bytes ([to_ciphertext]) and read back through a [BlobReader]: by reference
    ([read_chunk]) or by listing its footer ([refs]). The state of an operation is the [Blob]
    and the random generator. *)

From S2P Require Import Prelude Cbor Refs Crypto.
From S2P Require Models.
Import Crypto.CipherText (ok).

Record Blob `{Sodium} := mkBlob {
  keys_ : keys.Keeper;
  access_key : bytes;
  chunks : CipherText.CipherText;
  footer : bytes;
  overhead_ : nat;
  max_len : nat;
}.

Section Blob.
Context `{Sodium} `{Cbor Models.HashRef}.

Definition Blob_new (k : keys.Keeper) (max_len : nat) : M rng Blob :=
  access_key ← FixedKey.new_access_partial_key;
  mret (mkBlob _ k access_key CipherText.empty [] (overhead + BYTES_MAX) max_len).

Definition upperbound_len (b : Blob) : nat :=
  if decide (CipherText.len (chunks b) = 0) then 0
  else CipherText.len (chunks b) + length (footer b) + overhead_ b.

Definition set_offset (n : nat) (h : tree.HashRef) : tree.HashRef :=
  let p := tree.persistent_ref h in
  tree.with_persistent_ref (chunk.mkChunkRef (chunk.blob_id p) (chunk.blob_name p) n
    (chunk.length p) (chunk.packing p) (chunk.key p)) h.

(** A footer entry: the length of the reference in two bytes, then the reference. *)
Definition footer_entry (h : tree.HashRef) : bytes :=
  let href_bytes := tree.as_bytes h in
  byte_of_nat (length href_bytes mod 256) :: byte_of_nat (length href_bytes / 256) :: href_bytes.

(** [Ok(())] is [true] and [Err(())] is [false]; the reference is updated in both cases. *)
Definition try_append (chunk : bytes) (href : tree.HashRef)
    : M (Blob * rng) (bool * tree.HashRef) :=
  self ← gets fst;
  '(ct, href) ← zoom snd_lens (RefKey.seal href (access_key self) chunk);
  let href := set_offset (CipherText.len (chunks self)) href in
  let href_bytes := tree.as_bytes href in
  lift (assert_ (Z.of_nat (length href_bytes) < 65535)%Z) ;;
  if decide (max_len self ≤ upperbound_len self + 1 + length href_bytes + CipherText.len ct) then
    if decide (CipherText.len (chunks self) = 0) then panic
    else mret (false, href)
  else
    zoom fst_lens (modify (λ self,
      mkBlob _ (keys_ self) (access_key self) (CipherText.append (chunks self) ct)
        (footer self ++ footer_entry href) (overhead_ self) (max_len self))) ;;
    mret (true, href).

Definition to_ciphertext_blob : M (Blob * rng) (option CipherText.CipherText) :=
  self ← gets fst;
  if decide (CipherText.len (chunks self) = 0) then mret None
  else
    new_key ← zoom snd_lens FixedKey.new_access_partial_key;
    let old_key := access_key self in
    zoom fst_lens (modify (λ self, mkBlob _ (keys_ self) new_key (chunks self) (footer self)
      (overhead_ self) (max_len self))) ;;
    let footer_overhead := length (footer self) + overhead_ self in
    foot ← zoom snd_lens (FixedKey.seal (keys_ self) old_key (footer self));
    zoom fst_lens (modify (λ self, mkBlob _ (keys_ self) (access_key self) (chunks self) []
      (overhead_ self) (max_len self))) ;;
    lift (assert_ (CipherText.len (chunks self) + footer_overhead ≤ max_len self)) ;;
    let out := chunks self in
    zoom fst_lens (modify (λ self, mkBlob _ (keys_ self) (access_key self) CipherText.empty
      (footer self) (overhead_ self) (max_len self))) ;;
    out ← zoom snd_lens (CipherText.random_pad_upto out (max_len self - footer_overhead));
    let out := CipherText.append out foot in
    out ← lift (CipherText.append_authentication out (keys_ self));
    lift (assert_ (CipherText.len out = max_len self)) ;;
    self ← gets fst;
    lift (assert_ (CipherText.len (chunks self) = 0)) ;;
    lift (assert_ (length (footer self) = 0)) ;;
    mret (Some out).

End Blob.

(** ** Reading *)

Record BlobReader `{Sodium} := mkBlobReader {
  r_keys : keys.Keeper;
  r_access_key : bytes;
  r_footer_ct : bytes;
  r_blob : CipherText.CipherText;
}.

Section BlobReader.
Context `{Sodium} `{Cbor Models.HashRef}.

Definition BlobReader_new (k : keys.Keeper) (blob : bytes) : res BlobReader :=
  rest ← strip_authentication blob k;
  '(access_key, footer_ct, rest) ← FixedKey.unseal_access_ctx k rest;
  rest_of_blob ← slice 0 (length rest) blob;
  Ok (mkBlobReader _ k access_key (CipherText.to_vec footer_ct) (CipherText.new rest_of_blob)).

(** [self.blob.collapse()] *)
Definition collapse_blob : M BlobReader bytes :=
  self ← get;
  '(b, blob) ← lift (CipherText.collapse (r_blob self));
  modify (λ self, mkBlobReader _ (r_keys self) (r_access_key self) (r_footer_ct self) blob) ;;
  mret b.

(** The footer loop: each round takes an entry off [footer_pos], so that the length of the
    footer is fuel enough ([parse_footer_entries]). *)
Fixpoint parse_footer (fuel : nat) (footer_pos : bytes) : res (list tree.HashRef) :=
  match footer_pos with
  | [] => Ok []
  | _ =>
    match fuel with
    | O => Diverge
    | S fuel =>
      b0 ← expect (footer_pos !! 0);
      b1 ← expect (footer_pos !! 1);
      let len := byte_to_nat b0 + 256 * byte_to_nat b1 in
      assert_ (len < length footer_pos) ;;
      entry ← slice 2 (2 + len) footer_pos;
      href ← tree.from_bytes entry;
      footer_pos ← slice (len + 2) (length footer_pos) footer_pos;
      hrefs ← parse_footer fuel footer_pos;
      Ok (href :: hrefs)
    end
  end.

Definition refs : M BlobReader (list tree.HashRef) :=
  self ← get;
  blob ← collapse_blob;
  '(_rest, footer_vec) ← lift (FixedKey.unseal (r_keys self) (r_footer_ct self) blob);
  lift (parse_footer (length footer_vec) footer_vec).

Definition read_chunk (href : tree.HashRef) : M BlobReader bytes :=
  self ← get;
  blob ← collapse_blob;
  lift (RefKey.unseal (r_access_key self) href blob).

End BlobReader.

(** ** The footer format *)
Section footer.
Context `{CborLaws Models.HashRef}.

Lemma footer_entry_length (h : tree.HashRef) :
  length (footer_entry h) = 2 + length (tree.as_bytes h).
Proof. done. Qed.

Lemma footer_entry_prefix n :
  (Z.of_nat n < 65536)%Z →
  byte_to_nat (byte_of_nat (n mod 256)) + 256 * byte_to_nat (byte_of_nat (n / 256)) = n.
Proof.
  intros Hn. rewrite !byte_to_nat_of_nat, Nat.Div0.mod_mod.
  rewrite (Nat.mod_small (n / 256)) by (apply Nat.Div0.div_lt_upper_bound; lia).
  pose proof (Nat.div_mod n 256). lia.
Qed.

(** Reading the footer gives the references written, as they come out of their serialised
    form; the length of the footer is fuel enough. *)
Lemma parse_footer_entries (hrefs : list tree.HashRef) fuel :
  Forall tree.HashRef_wf hrefs → Forall (λ h, Z.of_nat (length (tree.as_bytes h)) < 65535)%Z hrefs →
  length (concat (footer_entry <$> hrefs)) ≤ fuel →
  parse_footer fuel (concat (footer_entry <$> hrefs)) = Ok (tree.norm <$> hrefs).
Proof.
  revert fuel. induction hrefs as [|h hrefs IH]; intros fuel Hwf Hlen Hfuel.
  { by destruct fuel. }
  apply Forall_cons in Hwf as [Hw Hwf]. apply Forall_cons in Hlen as [Hl Hlen].
  rewrite fmap_cons in *. cbn [concat] in *. set (rest := concat (footer_entry <$> hrefs)) in *.
  rewrite length_app, footer_entry_length in Hfuel.
  destruct fuel as [|fuel]; [lia|]. set (n := length (tree.as_bytes h)) in *.
  unfold footer_entry at 1. fold n. cbn [app parse_footer].
  set (b0 := byte_of_nat (n mod 256)). set (b1 := byte_of_nat (n / 256)).
  cbn [lookup list_lookup expect mbind res_bind].
  replace (byte_to_nat b0 + 256 * byte_to_nat b1) with n
    by (symmetry; apply footer_entry_prefix; lia).
  rewrite assert_Ok by (cbn [length]; rewrite length_app; fold n; lia).
  cbn [mbind res_bind].
  change (b0 :: b1 :: tree.as_bytes h ++ rest) with ([b0; b1] ++ tree.as_bytes h ++ rest).
  rewrite (slice_app_mid [b0; b1] (tree.as_bytes h) rest 2 (2 + n) eq_refl eq_refl). cbn [mbind res_bind].
  rewrite tree.href_from_bytes_as_bytes by done. cbn [mbind res_bind].
  rewrite slice_Ok by (rewrite !length_app; cbn [length]; fold n; lia).
  rewrite app_assoc, drop_app_length' by (rewrite length_app; cbn [length]; fold n; lia).
  rewrite take_ge by (rewrite !length_app; cbn [length]; fold n; lia).
  cbn [mbind res_bind]. rewrite IH by (done || lia). done.
Qed.

End footer.

(** ** The contents of a blob *)
Section contents.
Context `{SodiumLaws} `{CborLaws Models.HashRef}.

(** [ct], at the place [h] names, opens to [chunk] under [key] whatever surrounds it. *)
Definition opens_to (key : bytes) (n : nat) (ct : bytes) (h : tree.HashRef) (chunk : bytes) :=
  ∀ pre post h', length pre = n → post ≠ [] → same_seal h' h →
    chunk.offset (tree.persistent_ref h') = n →
    RefKey.unseal key h' (pre ++ ct ++ post) = Ok chunk.

Definition stored_at (key text : bytes) (e : bytes * tree.HashRef) : Prop :=
  ∃ pre ct post, text = pre ++ ct ++ post ∧
    chunk.offset (tree.persistent_ref e.2) = length pre ∧
    opens_to key (length pre) ct e.2 e.1.

(** The blob holds exactly the chunks of [l], oldest first. *)
Record Blob_ok (b : Blob) (l : list (bytes * tree.HashRef)) : Prop := {
  ok_keys : keys.Keeper_ok (keys_ b);
  ok_access_key : length (access_key b) = 32;
  ok_chunks : ok (chunks b);
  ok_overhead : overhead_ b = 256;
  ok_max_len : (Z.of_nat (max_len b) < 2 ^ 62)%Z;
  ok_footer : footer b = concat (footer_entry <$> l.*2);
  ok_entries : Forall (λ h, Z.of_nat (length (tree.as_bytes h)) < 65535)%Z l.*2;
  ok_stored : Forall (stored_at (access_key b) (CipherText.to_vec (chunks b))) l;
  ok_empty : l = [] → chunks b = CipherText.empty;
  ok_nonempty : l ≠ [] → 0 < CipherText.len (chunks b);
}.

(** The blob can be sealed: this is what [try_append] keeps once there is a chunk. *)
Definition fits (b : Blob) : Prop := upperbound_len b ≤ max_len b.

Lemma ok_len_0 b l : Blob_ok b l → CipherText.len (chunks b) = 0 ↔ l = [].
Proof.
  intros Hb. split.
  - destruct l; [done|]. intros E. pose proof (ok_nonempty _ _ Hb). naive_solver lia.
  - intros ->. by rewrite (ok_empty _ _ Hb).
Qed.

Lemma Blob_new_ok k max r :
  keys.Keeper_ok k → (Z.of_nat max < 2 ^ 62)%Z →
  ∃ b r', Blob_new k max r = (Ok b, r') ∧ Blob_ok b [] ∧ max_len b = max ∧ keys_ b = k.
Proof.
  intros Hk Hmax. destruct (gen_key_ok r) as (key & r' & E & Hl). unfold Blob_new.
  unfold FixedKey.new_access_partial_key. run_with E. eexists _, r'. split; [done|].
  destruct sizes_eq as (_&_&_&_&_&S6). split; [|done].
  split; simpl; try done. rewrite S6, BYTES_MAX_eq. done.
Qed.

Lemma stored_at_app key t1 t2 e : stored_at key t1 e → stored_at key (t1 ++ t2) e.
Proof.
  intros (pre & ct & post & -> & Ho & Hu). exists pre, ct, (post ++ t2).
  by rewrite <- !app_assoc.
Qed.

(** The reference handed back: where the chunk is and how to open it. *)
Record placed (b : Blob) (chunk : bytes) (h h' : tree.HashRef) : Prop := {
  placed_eq : h' = tree.with_persistent_ref (tree.persistent_ref h') h;
  placed_name : chunk.blob_name (tree.persistent_ref h') = chunk.blob_name (tree.persistent_ref h);
  placed_id : chunk.blob_id (tree.persistent_ref h') = chunk.blob_id (tree.persistent_ref h);
  placed_offset : chunk.offset (tree.persistent_ref h') = CipherText.len (chunks b);
  placed_length : chunk.length (tree.persistent_ref h') = length chunk + 16;
}.

Lemma sealed_placed b chunk h h1 n :
  sealed h h1 n → n = length chunk + 16 →
  placed b chunk h (set_offset (CipherText.len (chunks b)) h1).
Proof.
  intros [_ Heq Hp] ->. destruct h as [a n l p i], h1 as [a1 n1 l1 p1 i1]. simpl in *.
  injection Heq as -> -> -> ->. rewrite Hp. by split.
Qed.

Lemma try_append_run b l chunk h r :
  Blob_ok b l → 8 ≤ length (tree.hash h) →
  ∃ h' b' r', placed b chunk h h' ∧
    (let hl := length (tree.as_bytes h') in
     try_append chunk h (b, r) =
       (if decide (Z.of_nat hl < 65535)%Z then
          if decide (max_len b ≤ upperbound_len b + 1 + hl + (length chunk + 16)) then
            if decide (l = []) then (Panic, (b, r')) else (Ok (false, h'), (b, r'))
          else (Ok (true, h'), (b', r'))
        else (Panic, (b, r')))) ∧
    keys_ b' = keys_ b ∧ max_len b' = max_len b ∧
    CipherText.len (chunks b') = CipherText.len (chunks b) + length chunk + 16 ∧
    length (footer b') = length (footer b) + 2 + length (tree.as_bytes h') ∧
    ((Z.of_nat (length (tree.as_bytes h')) < 65535)%Z → Blob_ok b' (l ++ [(chunk, h')])).
Proof.
  intros Hb Hh.
  destruct (RefKey_seal_unseal h (access_key b) chunk r Hh (ok_access_key _ _ Hb))
    as (ct & h1 & r' & E & Hct & Hsealed & Hopen).
  set (off := CipherText.len (chunks b)). set (h' := set_offset off h1).
  set (b' := mkBlob _ (keys_ b) (access_key b) (CipherText.append (chunks b) (CipherText.new ct))
    (footer b ++ footer_entry h') (overhead_ b) (max_len b)).
  exists h', b', r'. split; [|split; [|split_and!; [done..| | |]]].
  - by eapply sealed_placed.
  - unfold try_append. rewrite (bind_Ok _ _ _ b (b, r)) by done.
    rewrite (bind_Ok _ _ _ (CipherText.new ct, h1) (b, r'))
      by (unfold zoom; simpl; by rewrite E).
    fold off. fold h'. cbv zeta. unfold assert_, lift, mbind at 1, M_bind at 1.
    case_decide; [|done]. cbn [CipherText.len CipherText.new]. rewrite Hct. fold off.
    case_decide as Hfull; [|done].
    destruct (decide (off = 0)) as [Hz|Hz]; case_decide as Hl; try done.
    + exfalso. apply Hl. by apply (ok_len_0 b l).
    + exfalso. apply Hz. by apply (ok_len_0 b l).
  - simpl. lia.
  - simpl. rewrite length_app. simpl. unfold tree.as_bytes. lia.
  - intros Hlen. destruct Hb as [Hk Ha Hc Ho Hm Hf He Hs He0 He1].
    split; simpl; try done.
    + apply CipherText.append_ok; [done|apply CipherText.new_ok].
    + rewrite fmap_app, fmap_app, concat_app, Hf. simpl. by rewrite app_nil_r.
    + rewrite fmap_app. apply Forall_app. split; [done|]. by apply Forall_singleton.
    + rewrite CipherText.to_vec_append, CipherText.to_vec_new. apply Forall_app. split.
      { eapply Forall_impl; [done|]. intros; by apply stored_at_app. }
      apply Forall_singleton. exists (CipherText.to_vec (chunks b)), ct, [].
      rewrite app_nil_r. split_and!; [done|exact Hc|].
      intros pre post h2 Hpre Hpost Hsame Hoff. apply Hopen; [done| |simpl in *; lia].
      destruct Hsame as (?&?&?&?&?). done.
    + intros Hnil. by apply app_nil in Hnil as [_ ?].
    + intros _. lia.
Qed.

(** A sealed blob: what a reader gets out of [out]. *)
Definition reads_as (k : keys.Keeper) (out : bytes) (l : list (bytes * tree.HashRef)) : Prop :=
  ∃ reader, BlobReader_new k out = Ok reader ∧
    (∀ e h', e ∈ l → same_seal h' e.2 →
      chunk.offset (tree.persistent_ref h') = chunk.offset (tree.persistent_ref e.2) →
      read_chunk h' reader = (Ok e.1, reader)) ∧
    (Forall tree.HashRef_wf l.*2 → refs reader = (Ok (tree.norm <$> l.*2), reader)).

Lemma collapse_blob_new k a f t :
  let reader := mkBlobReader _ k a f (CipherText.new t) in
  collapse_blob reader = (Ok t, reader).
Proof. done. Qed.

(** The layout of a sealed blob: chunks and padding, then the footer's two parts, then the
    digest of everything before it. *)
Lemma reads_as_layout k key foot l text pad body acc tag :
  keys.Keeper_ok k →
  Forall (stored_at key text) l →
  Forall (λ h, Z.of_nat (length (tree.as_bytes h)) < 65535)%Z l.*2 →
  body ≠ [] →
  (∀ rest, FixedKey.unseal_access_ctx k (rest ++ acc) = Ok (key, CipherText.new foot, rest)) →
  (∀ rest, FixedKey.unseal k foot (rest ++ body) = Ok (rest, concat (footer_entry <$> l.*2))) →
  keys.blob_authentication k (text ++ pad ++ body ++ acc) 64 = Ok tag →
  reads_as k ((text ++ pad ++ body ++ acc) ++ tag) l.
Proof.
  intros Hk Hs He Hbody Hacc Hfoot Htag.
  set (blob := text ++ pad ++ body).
  assert (text ++ pad ++ body ++ acc = blob ++ acc) as Eb
    by (unfold blob; by rewrite <- !app_assoc).
  exists (mkBlobReader _ k key foot (CipherText.new blob)). split_and!.
  - unfold BlobReader_new. rewrite (proj2 (strip_authentication_spec k _ _ Hk)) by eauto.
    cbn [mbind res_bind]. rewrite Eb, Hacc. cbn [mbind res_bind].
    rewrite slice_Ok by (rewrite ?length_app; lia). cbn [mbind res_bind].
    rewrite Nat.sub_0_r, drop_0, <- app_assoc, take_app_length.
    by rewrite CipherText.to_vec_new.
  - intros [c h] h' Hel Hsame Hoff. simpl in *.
    eapply Forall_forall in Hs as (pre & ct & post & -> & Ho & Hopen); [|exact Hel].
    simpl in *. unfold read_chunk. run_pure. simpl.
    rewrite (bind_Ok _ _ _ _ _ (collapse_blob_new _ _ _ _)).
    unfold lift. f_equal. unfold blob. rewrite <- !app_assoc.
    rewrite Hopen; [done|done| |done|lia].
    destruct post; [|done]. destruct pad; [|done]. by destruct body.
  - intros Hwf. unfold refs. run_pure. simpl.
    rewrite (bind_Ok _ _ _ _ _ (collapse_blob_new _ _ _ _)).
    unfold blob. rewrite app_assoc.
    rewrite (bind_lift _ _ _ _ (Hfoot (text ++ pad))). unfold lift.
    by rewrite parse_footer_entries.
Qed.

Lemma to_ciphertext_empty b r :
  Blob_ok b [] → to_ciphertext_blob (b, r) = (Ok None, (b, r)).
Proof.
  intros Hb. unfold to_ciphertext_blob. run_pure. simpl.
  rewrite decide_True; [done|]. by apply (ok_len_0 b []).
Qed.

Lemma footer_lt b l : Blob_ok b l → l ≠ [] → fits b →
  length (footer b) + 256 + CipherText.len (chunks b) ≤ max_len b.
Proof.
  intros Hb Hl. unfold fits, upperbound_len. rewrite (ok_overhead _ _ Hb). case_decide as Hz; [|lia].
  by rewrite (ok_len_0 b l Hb) in Hz.
Qed.

(** Sealing a blob that fits: the ciphertext has exactly [max_len] bytes and reads back as the
    chunks stored, and the blob is empty again, with a fresh access key. *)
Lemma to_ciphertext_run b l r :
  Blob_ok b l → l ≠ [] → fits b →
  ∃ out b' r', to_ciphertext_blob (b, r) = (Ok (Some out), (b', r')) ∧
    Blob_ok b' [] ∧ keys_ b' = keys_ b ∧ max_len b' = max_len b ∧
    ok out ∧ length (CipherText.to_vec out) = max_len b ∧
    reads_as (keys_ b) (CipherText.to_vec out) l.
Proof.
  intros Hb Hl Hfits. pose proof (footer_lt b l Hb Hl Hfits) as Hmax.
  pose proof Hb as [Hk Ha Hc Ho Hm Hf He Hs He0 He1]. specialize (He1 Hl).
  destruct sizes_eq as (S1 & _ & _ & _ & S5 & S6).
  destruct (gen_key_ok r) as (nk & r1 & E1 & Hnk).
  destruct (FixedKey_seal_unseal (keys_ b) (access_key b) (footer b) r1)
    as (foot & r2 & body & fct & acc & E2 & Hfo & Hft & Hbody & Hacc & Hctx & Huns);
    [done|done|lia|].
  assert (CipherText.len foot = length (footer b) + 192) as Hfl.
  { unfold ok in Hfo. rewrite Hfo, Hft, length_app. lia. }
  set (final := max_len b - (length (footer b) + overhead_ b)).
  destruct (CipherText.random_pad_upto_ok (chunks b) final r2 Hc)
    as (body_ct & p & r3 & E3 & Hbo & Hbl & Ep); [unfold final; lia|].
  set (ct := CipherText.append body_ct foot).
  assert (ok ct) as Hcto by (by apply CipherText.append_ok).
  destruct (CipherText.append_authentication_ok ct (keys_ b) Hcto) as (tag & Et & Htl & E4);
    [apply CipherText.ok_chunks; [done|simpl; lia]|done|].
  set (b' := mkBlob _ (keys_ b) nk CipherText.empty [] (overhead_ b) (max_len b)).
  assert (length (CipherText.to_vec ct ++ tag) = max_len b) as Hlen.
  { unfold ok in Hcto. rewrite length_app, <- Hcto. simpl. rewrite Hbl. unfold final. lia. }
  exists (CipherText.new (CipherText.to_vec ct ++ tag)), b', r3. split_and!.
  - unfold to_ciphertext_blob. run_pure. simpl fst.
    rewrite (decide_False (P := CipherText.len (chunks b) = 0)) by lia.
    run_zoom E1.
    run_pure. cbv zeta. simpl lset.
    run_zoom E2.
    run_pure. simpl lset.
    run_assert ltac:(rewrite Ho; lia).
    run_pure. simpl lset.
    run_zoom E3.
    fold ct. run_lift E4. run_assert ltac:(simpl; done).
    run_pure. simpl fst.
    run_assert ltac:(done). run_assert ltac:(done). done.
  - by split.
  - done.
  - done.
  - apply CipherText.new_ok.
  - by rewrite CipherText.to_vec_new.
  - rewrite CipherText.to_vec_new.
    assert (CipherText.to_vec ct = CipherText.to_vec (chunks b) ++ p ++ body ++ acc) as Ect.
    { unfold ct. by rewrite CipherText.to_vec_append, Ep, Hft, <- app_assoc. }
    rewrite Ect in Et |- *. eapply reads_as_layout; try done.
    + intros ->. simpl in Hbody. lia.
    + by rewrite <- Hf.
Qed.

End contents.
