(* ===== verification/BlobStore.v ===== *)
(** * The blob store: blob/index.rs and blob/mod.rs

    The store fills one blob at a time. When a chunk finds no room, the blob is sealed under a
    name reserved for it, recorded in the database, handed to the backend with the callbacks of
    its chunks, and recorded again as done. A chunk is read through a cache of opened blobs.

    The store shares the database with the hash index, so the state holds both; the callbacks
    are values that [run_cb] runs on the hash index. *)

From S2P Require Import Prelude Cbor Refs Ordered Upq Timer Db Crypto HashIndex Backend Blob.
From S2P Require Models.
Import Ordered.tags (Tag).
Import Crypto.CipherText (CipherText).

(** The crate [lru_cache]. Writing through the reference [get_mut] returns is [lru_set]. *)
Class LruCache := {
  lru : Type → Type;
  lru_new {V} : nat → lru V;
  lru_get_mut {V} : bytes → lru V → option V * lru V;
  lru_set {V} : bytes → V → lru V → lru V;
  lru_insert {V} : bytes → V → lru V → lru V;
}.

(** What is in the cache was put there under its key; an insertion may evict others. *)
Class LruCacheLaws `{LruCache} := {
  lru_map {V} : lru V → gmap bytes V;
  lru_map_new {V} n : lru_map (@lru_new _ V n) = ∅;
  lru_get_mut_ok {V} k (c : lru V) :
    (lru_get_mut k c).1 = lru_map c !! k ∧ lru_map (lru_get_mut k c).2 = lru_map c;
  lru_set_ok {V} k v (c : lru V) : lru_map (lru_set k v c) ⊆ <[k := v]> (lru_map c);
  lru_insert_ok {V} k v (c : lru V) : lru_map (lru_insert k v c) ⊆ <[k := v]> (lru_map c);
}.

(** [BlobIndex] and [StoreInner], with the hash index they share the database with, the state
    of the random generator, and the callbacks handed to threads that have not run yet. *)
Record Store `{Sodium} `{LruCache} (Cb B : Type) := mkStore {
  hi : HashIndex;
  next_id : Z;
  st_keys : keys.Keeper;
  backend : B;
  blob_desc : BlobDesc;
  blob_refs : list Cb;
  blob : Blob;
  read_cache : lru BlobReader;
  random : rng;
  spawned : list Cb;
}.
Arguments mkStore {_ _ Cb B} _ _ _ _ _ _ _ _ _ _.
Arguments hi {_ _ Cb B} _.
Arguments next_id {_ _ Cb B} _.
Arguments st_keys {_ _ Cb B} _.
Arguments backend {_ _ Cb B} _.
Arguments blob_desc {_ _ Cb B} _.
Arguments blob_refs {_ _ Cb B} _.
Arguments blob {_ _ Cb B} _.
Arguments read_cache {_ _ Cb B} _.
Arguments random {_ _ Cb B} _.
Arguments spawned {_ _ Cb B} _.

Section lenses.
Context `{Sodium} `{LruCache} {Cb B : Type}.
Implicit Types s : Store Cb B.

Definition hi_lens : lens (Store Cb B) HashIndex :=
  Lens hi (λ x s, mkStore x (next_id s) (st_keys s) (backend s) (blob_desc s) (blob_refs s)
    (blob s) (read_cache s) (random s) (spawned s)).
Definition next_id_lens : lens (Store Cb B) Z :=
  Lens next_id (λ x s, mkStore (hi s) x (st_keys s) (backend s) (blob_desc s) (blob_refs s)
    (blob s) (read_cache s) (random s) (spawned s)).
Definition desc_lens : lens (Store Cb B) BlobDesc :=
  Lens blob_desc (λ x s, mkStore (hi s) (next_id s) (st_keys s) (backend s) x (blob_refs s)
    (blob s) (read_cache s) (random s) (spawned s)).
Definition refs_lens : lens (Store Cb B) (list Cb) :=
  Lens blob_refs (λ x s, mkStore (hi s) (next_id s) (st_keys s) (backend s) (blob_desc s) x
    (blob s) (read_cache s) (random s) (spawned s)).
Definition blob_lens : lens (Store Cb B) (Blob * rng) :=
  Lens (λ s, (blob s, random s)) (λ x s, mkStore (hi s) (next_id s) (st_keys s) (backend s)
    (blob_desc s) (blob_refs s) x.1 (read_cache s) x.2 (spawned s)).
Definition cache_lens : lens (Store Cb B) (lru BlobReader) :=
  Lens read_cache (λ x s, mkStore (hi s) (next_id s) (st_keys s) (backend s) (blob_desc s)
    (blob_refs s) (blob s) x (random s) (spawned s)).
Definition backend_lens : lens (Store Cb B) B :=
  Lens backend (λ x s, mkStore (hi s) (next_id s) (st_keys s) x (blob_desc s) (blob_refs s)
    (blob s) (read_cache s) (random s) (spawned s)).
Definition rng_lens : lens (Store Cb B) rng :=
  Lens random (λ x s, mkStore (hi s) (next_id s) (st_keys s) (backend s) (blob_desc s)
    (blob_refs s) (blob s) (read_cache s) x (spawned s)).
Definition spawned_lens : lens (Store Cb B) (list Cb) :=
  Lens spawned (λ x s, mkStore (hi s) (next_id s) (st_keys s) (backend s) (blob_desc s)
    (blob_refs s) (blob s) (read_cache s) (random s) x).

(** [self.index.lock()] *)
Definition on_db {A} (m : DB A) : M (Store Cb B) A := zoom hi_lens (zoom index_lens m).

End lenses.

Section BlobStore.
Context `{Sodium} `{LruCache} `{Cbor Models.ChunkRef} `{Cbor Models.HashIds} `{Cbor Models.HashRef}.
Context {Cb B : Type} `{!StoreBackend (list Cb) B} (run_cb : Cb → HI unit).

Abbreviation BS := (M (Store Cb B)).

(** ** blob/index.rs *)

Definition name_of_id (id : Z) : BS bytes :=
  s ← get;
  ct ← zoom rng_lens (FixedKey.seal_blob_name (st_keys s) (PlainText.from_i64 id));
  mret (CipherText.to_vec ct).

(** Every failure panics. *)
Definition id_of_name (k : keys.Keeper) (name : bytes) : res Z :=
  pt ← FixedKey.unseal_blob_name k name;
  unwrap (PlainText.read_i64 pt).

(** [*id += 1], wrapping as in a release build. *)
Definition take_next_id : BS Z :=
  zoom next_id_lens (modify (λ id, as_i64 (id + 1))) ;;
  gets next_id.

Definition new_blob_desc : BS BlobDesc :=
  id ← take_next_id;
  name ← name_of_id id;
  mret (mkBlobDesc name id).

Definition refresh_next_id : BS unit :=
  id ← on_db blob_next_id;
  zoom next_id_lens (modify (λ _, as_i64 (1 + id))).

Definition reserve_blob : BS BlobDesc := new_blob_desc.

Definition in_air (b : BlobDesc) : BS unit := on_db (blob_in_air b).

Definition commit_done (b : BlobDesc) : BS unit := on_db (blob_commit b).

Definition recover_blob (name_ : bytes) : BS BlobDesc :=
  s ← get;
  wanted_id ← lift (unwrap (id_of_name (st_keys s) name_));
  found ← on_db (blob_id_from_name name_);
  match found with
  | Some id => lift (assert_ (id = wanted_id)) ;; mret (mkBlobDesc name_ id)
  | None =>
      let b := mkBlobDesc name_ wanted_id in
      on_db (blob_in_air b) ;; on_db (blob_commit b) ;; mret b
  end.

Definition find_blob (name_ : bytes) : BS (option BlobDesc) :=
  id ← on_db (blob_id_from_name name_);
  mret ((λ id, mkBlobDesc name_ id) <$> id).

Definition tag_blob (b : BlobDesc) (t : Tag) : BS unit := on_db (blob_set_tag t (Some b)).
Definition tag_all_blobs (t : Tag) : BS unit := on_db (blob_set_tag t None).
Definition list_blobs_by_tag (t : Tag) : BS (list BlobDesc) := on_db (blob_list_by_tag t).
Definition delete_blobs_by_tag (t : Tag) : BS unit := on_db (blob_delete_by_tag t).
Definition flush_blob_index : BS unit := on_db Db.flush.

(** ** blob/mod.rs *)

(** [mem::replace(&mut self.blob_desc, self.blob_index.reserve())] *)
Definition reserve_new_blob : BS BlobDesc :=
  new ← reserve_blob;
  old ← gets blob_desc;
  zoom desc_lens (modify (λ _, new)) ;;
  mret old.

(** [BlobIndex::new] and [StoreInner::new] *)
Definition Store_new (k : keys.Keeper) (index : HashIndex) (b : B) (r : rng)
    (max_blob_size : nat) : res (Store Cb B) :=
  let '(nb, r) := Blob_new k max_blob_size r in
  nb ← nb;
  let s := mkStore index 0 k b (mkBlobDesc [] 0) [] nb (lru_new 10) r [] in
  let '(q, s) := (refresh_next_id ;; reserve_new_blob) s in
  q ;; Ok s.

(** The done callback of a blob calls those of its chunks: the backend gets their list as one
    callback, and what it calls runs before its result is looked at. *)
Definition backend_store (name_ : bytes) (ct : CipherText) (done : list Cb) : BS unit := λ s,
  let '(r, (b, called)) := store name_ ct done (backend s, []) in
  (zoom hi_lens (for_each run_cb (concat called)) ;; lift r) (lset backend_lens b s).

Definition flush_store : BS unit :=
  ct ← zoom blob_lens to_ciphertext_blob;
  match ct with
  | None => mret ()
  | Some ct =>
      old_blob_desc ← reserve_new_blob;
      callbacks ← gets blob_refs;
      zoom refs_lens (modify (λ _, [])) ;;
      in_air old_blob_desc ;;
      unwrapM (backend_store (name old_blob_desc) ct callbacks) ;;
      commit_done old_blob_desc
  end.

(** [href.persistent_ref.blob_id] and [blob_name] *)
Definition set_blob (d : BlobDesc) (h : tree.HashRef) : tree.HashRef :=
  tree.with_persistent_ref
    (chunk.set_blob_name (name d) (chunk.set_blob_id (Some (id d)) (tree.persistent_ref h))) h.

Definition empty_ref : chunk.ChunkRef := chunk.mkChunkRef (Some 0%Z) [Byte.x00] 0 0 None None.

Definition append_chunk (chunk : bytes) (href : tree.HashRef) : BS (bool * tree.HashRef) :=
  d ← gets blob_desc;
  zoom blob_lens (try_append chunk (set_blob d href)).

Definition store_chunk (chunk : bytes) (hash : bytes) (node : chunk.NodeType)
    (leaf : Models.LeafType) (info : option key.Info) (callback : Cb) : BS tree.HashRef :=
  let href := tree.mkHashRef hash node leaf empty_ref info in
  if decide (chunk = []) then
    (* [thread::spawn] *)
    zoom spawned_lens (modify (λ l, l ++ [callback])) ;;
    mret (tree.with_info None href)
  else
    '(ok, href) ← append_chunk chunk href;
    href ←
      (if ok : bool then mret href
       else
         flush_store ;;
         '(ok, href) ← append_chunk chunk href;
         lift (assert_ (ok = true)) ;;
         mret href);
    zoom refs_lens (modify (λ l, l ++ [callback])) ;;
    mret (tree.with_info None href).

(** A thread that got a callback runs. *)
Definition run_spawned : BS unit :=
  l ← gets spawned;
  match l with
  | [] => mret ()
  | cb :: l => zoom spawned_lens (modify (λ _, l)) ;; zoom hi_lens (run_cb cb)
  end.

(** An operation of the reader that the cache holds, in place. *)
Definition on_reader {A} (name : bytes) (reader : BlobReader) (m : M BlobReader A) : BS A :=
  let '(r, reader) := m reader in
  zoom cache_lens (modify (lru_set name reader)) ;; lift r.

Definition cache_get (name : bytes) : BS (option BlobReader) :=
  zoom cache_lens (λ c, let '(r, c) := lru_get_mut name c in (Ok r, c)).

Definition retrieve_chunk (href : tree.HashRef) : BS (option bytes) :=
  let p := tree.persistent_ref href in
  if decide (chunk.offset p = 0 ∧ chunk.length p = 0) then mret (Some [])
  else
    let name := chunk.blob_name p in
    cached ← cache_get name;
    if decide (is_Some cached) then
      reader ← cache_get name;
      reader ← lift (expect reader);
      chunk ← on_reader name reader (read_chunk href);
      mret (Some chunk)
    else
      found ← zoom backend_lens (retrieve name);
      match found with
      | Some text =>
          k ← gets st_keys;
          reader ← lift (BlobReader_new k text);
          '(chunk, reader) ← lift (let '(r, reader) := read_chunk href reader in
                                   c ← r; Ok (c, reader));
          zoom cache_lens (modify (lru_insert name reader)) ;;
          mret (Some chunk)
      | None => mret None
      end.

Definition retrieve_refs (b : BlobDesc) : BS (option (list tree.HashRef)) :=
  found ← zoom backend_lens (retrieve (name b));
  match found with
  | None => mret None
  | Some ct =>
      k ← gets st_keys;
      reader ← lift (BlobReader_new k ct);
      hrefs ← lift (refs reader).1;
      match hrefs with
      | [] => mret None
      | h :: _ =>
          lift (assert_ (name b = chunk.blob_name (tree.persistent_ref h))) ;;
          mret (Some hrefs)
      end
  end.

(** Objects with names of at most four bytes are not blobs ("root"). *)
Definition recover : BS unit :=
  names ← zoom backend_lens list_names;
  for_each (λ b, recover_blob b ;; mret ()) (filter (λ b, 4 < length b) names).

Definition tag_chunk (c : chunk.ChunkRef) (t : Tag) : BS unit :=
  tag_blob (mkBlobDesc (chunk.blob_name c) (default 0%Z (chunk.blob_id c))) t.

Definition delete_by_tag (t : Tag) : BS unit :=
  blobs ← list_blobs_by_tag t;
  for_each (λ b, zoom backend_lens (delete (name b))) blobs ;;
  delete_blobs_by_tag t.

Definition find (name_ : bytes) : BS (option BlobDesc) :=
  if decide (name_ = [Byte.x00]) then mret (Some (mkBlobDesc [Byte.x00] 0))
  else find_blob name_.

Definition flush : BS unit := flush_store ;; flush_blob_index.

(** [Drop]: the blob has been flushed. *)
Definition Store_drop : BS unit := s ← get; lift (assert_ (upperbound_len (blob s) = 0)).

End BlobStore.
