(* ===== verification/ModelWorld.v ===== *)
(** * A concrete cache, hex and world of commands for the runs

    Instances of the interfaces that stand for code outside of the repository (LruCache of
    BlobStore.v, Hex of Backend.v, CmdOs of CmdBackend.v) which keep their laws. Nothing but the witnesses depends on them. *)

From S2P Require Import Prelude Crypto Backend CmdBackend Blob BlobStore.

Module ModelWorld.

(** ** A least-recently-used cache: the most recent entry first *)

Definition others {V} (k : bytes) (l : list (bytes * V)) : list (bytes * V) :=
  filter (λ e, e.1 ≠ k) l.

Definition lookup_entry {V} (k : bytes) (l : list (bytes * V)) : option V :=
  snd <$> head (filter (λ e, e.1 = k) l).

#[local] Instance model_lru : LruCache := {|
  lru V := (nat * list (bytes * V))%type;
  lru_new V n := (n, []);
  lru_get_mut V k c :=
    match lookup_entry k c.2 with
    | Some v => (Some v, (c.1, (k, v) :: others k c.2))
    | None => (None, c)
    end;
  lru_set V k v c := (c.1, (λ e, if decide (e.1 = k) then (k, v) else e) <$> c.2);
  lru_insert V k v c := (c.1, take c.1 ((k, v) :: others k c.2));
|}.

Abbreviation to_map c := (list_to_map (M := gmap bytes _) c).

Lemma to_map_others {V} k (l : list (bytes * V)) : to_map (others k l) = base.delete k (to_map l).
Proof.
  induction l as [|[k' v] l IH]; [simpl; by rewrite delete_empty|]. unfold others in *. simpl.
  rewrite filter_cons. case_decide as Hk; simpl in *.
  - by rewrite IH, delete_insert_ne.
  - assert (k' = k) as -> by (destruct (decide (k' = k)); tauto). by rewrite IH, delete_insert_eq.
Qed.

Lemma to_map_lookup {V} k (l : list (bytes * V)) : to_map l !! k = lookup_entry k l.
Proof.
  induction l as [|[k' v] l IH]; [done|]. unfold lookup_entry in *. simpl.
  rewrite filter_cons. case_decide as Hk; simpl in *.
  - subst. apply lookup_insert_eq.
  - by rewrite lookup_insert_ne.
Qed.

Lemma to_map_take {V} n (l : list (bytes * V)) : to_map (take n l) ⊆ to_map l.
Proof.
  revert n. induction l as [|[k v] l IH]; intros [|n]; simpl; [done|done|apply map_empty_subseteq|].
  apply insert_mono, IH.
Qed.

Lemma to_map_set {V} k v (l : list (bytes * V)) :
  to_map ((λ e, if decide (e.1 = k) then (k, v) else e) <$> l) ⊆ <[k := v]> (to_map l).
Proof.
  induction l as [|[k' v'] l IH]; [apply map_empty_subseteq|]. csimpl.
  case_decide as Hk; simpl in *.
  - subst. etrans; [apply insert_mono, IH|]. by rewrite !insert_insert_eq.
  - rewrite (insert_insert_ne _ k) by done. by apply insert_mono.
Qed.

#[local] Instance model_lru_laws : LruCacheLaws.
Proof.
  refine (@Build_LruCacheLaws model_lru (λ V c, to_map c.2) _ _ _ _).
  - done.
  - intros V k [n l]. simpl. rewrite to_map_lookup. destruct (lookup_entry k l) as [v|] eqn:E; [|done].
    split; [done|]. simpl. rewrite to_map_others, insert_delete_eq. apply insert_id.
    by rewrite to_map_lookup.
  - intros V k v [n l]. apply to_map_set.
  - intros V k v [n l]. etrans; [apply to_map_take|]. simpl.
    by rewrite to_map_others, insert_delete_eq.
Defined.

(** ** Names as they are *)

#[local] Instance model_hex : Hex := {| hex_encode b := b; from_hex b := Some b |}.
#[local] Instance model_hex_laws : HexLaws.
Proof. done. Qed.

(** ** Commands: a put takes three polls; those that [fails] picks exit with an error *)

Record World := mkWorld {
  next_child : nat;
  polls_left : gmap nat nat;
  pending_puts : gmap nat (bytes * bytes);
  objects : gmap bytes bytes;
}.

Definition new_world : World := mkWorld 0 ∅ ∅ ∅.

Definition polls (w : World) (c : nat) : nat := default 0 (polls_left w !! c).

Definition model_os (fails : nat → bool) : CmdOs := {|
  world := World;
  child := nat;
  spawn_put name w :=
    let c := next_child w in
    (Ok c, mkWorld (S c) (<[c := 3]> (polls_left w)) (<[c := (name, [])]> (pending_puts w)) (objects w));
  write_stdin c data w :=
    (Ok (), mkWorld (next_child w) (polls_left w)
       (alter (λ p, (p.1, p.2 ++ data)) c (pending_puts w)) (objects w));
  child_try_wait c w :=
    if decide (polls w c = 0) then (Ok (Some (Exited (if fails c then 1 else 0)%Z)), w)
    else (Ok None, mkWorld (next_child w) (<[c := polls w c - 1]> (polls_left w)) (pending_puts w)
            (objects w));
  child_wait c w :=
    if fails c then (Ok (Exited 1), w)
    else (Ok (Exited 0), mkWorld (next_child w) (polls_left w) (pending_puts w)
            (from_option (λ p, <[p.1 := p.2]> (objects w)) (objects w) (pending_puts w !! c)));
  output_get name w := (Ok (default [] (objects w !! name)), w);
  output_delete name w := (Ok (), mkWorld (next_child w) (polls_left w) (pending_puts w)
    (base.delete name (objects w)));
  output_list w := (Ok (concat ((λ n, n ++ [newline]) <$> (map_to_list (objects w)).*1)), w);
|}.

Lemma model_poll_ends c w :
  ∃ r w', @child_try_wait (model_os (λ _, false)) c w = (Ok r, w') ∧
    (∀ c', polls w' c' ≤ polls w c') ∧ (if r then polls w c = 0 else polls w' c < polls w c).
Proof.
  simpl. case_decide as Hc; [by exists (Some (Exited 0)), w|]. eexists None, _. split; [done|].
  unfold polls in *. simpl. split.
  - intros c'. destruct (decide (c' = c)) as [->|]; [rewrite lookup_insert_eq|by rewrite lookup_insert_ne].
    simpl. lia.
  - rewrite lookup_insert_eq. simpl. lia.
Qed.

Lemma model_wait_ends c w :
  polls w c = 0 → ∃ w', @child_wait (model_os (λ _, false)) c w = (Ok (Exited 0), w') ∧
    ∀ c', polls w' c' ≤ polls w c'.
Proof. intros _. simpl. by eexists. Qed.

End ModelWorld.
