(* ===== verification/BackendSpec.v ===== *)
(** * Storage backends: the theorems

    The file backend gives back what it stored, unless it was asked for it too early; the
    command backend loses no callback and calls none twice, keeps to its number of child
    processes, and its flush ends once the commands do. *)

From S2P Require Import Prelude Utf8 Crypto Backend CmdBackend ModelSodium ModelWorld.
Import Crypto.CipherText (CipherText).

(** ** The file backend *)

Section FileBackend.
Context `{HexLaws} {Cb : Type}.
Import FileBackend.
Implicit Types b : FileBackend.

(** A name that is in no file and not in the cache is missed, and the miss is cached. *)
Lemma file_retrieve_miss n b :
  files b !! hex_encode n = None → read_cache b !! n = None →
  ∃ k c, file_retrieve n b = (Ok None, mkFile (files b) (fails b) k c (max_cache_size b)) ∧
    calls b ≤ k ∧ c !! n = Some (inl None).
Proof.
  intros Hf Hc. unfold file_retrieve, guarded_cache_get. rewrite bind_gets, Hc.
  set (b1 := mkFile (files b) (fails b) (S (calls b)) (read_cache b) (max_cache_size b)).
  assert (get n b = (Ok None, b1)) as E.
  { unfold get, os, mbind, M_bind, gets. cbn. rewrite Hf. by destruct (fails b (calls b)). }
  rewrite (bind_Ok _ _ _ (inl None) b1) by (unfold attempt; by rewrite E).
  destruct (cache_put_run n (inl None) b1) as (c & Ep & Hn & _).
  exists (S (calls b)), c. run_with Ep. split_and!; [done|simpl; lia|done].
Qed.

(** C38: What the file backend stores under a name that it has not been asked for before is
    what it retrieves from then on, again and again, and it calls the callback once. *)
Theorem file_store_retrieve n ct (cb : Cb) b :
  disk_works b → read_cache b !! n = None →
  ∃ b1 b2 b3, file_store n ct cb (b, []) = (Ok (), (b1, [cb])) ∧
    file_retrieve n b1 = (Ok (Some (CipherText.to_vec ct)), b2) ∧
    file_retrieve n b2 = (Ok (Some (CipherText.to_vec ct)), b3).
Proof.
  intros Hw Hf. pose proof (store_ok b n ct cb Hw Hf) as Hs. simpl store in Hs.
  destruct (file_store n ct cb (b, [])) as [[[]|e| |] [b1 called]] eqn:E; try done.
  2-3: destruct (file_store_works n ct cb b Hw) as (k & E' & _); congruence.
  destruct Hs as (-> & Hw1 & Hd1 & _).
  destruct (twp_inv _ _ _ (retrieve_ok (Cb := Cb) b1 n _ Hw1 Hd1)) as (o & b2 & E1 & -> & Hw2 & Hk2 & _).
  destruct (twp_inv _ _ _ (retrieve_ok (Cb := Cb) b2 n _ Hw2 (Hk2 _ _ Hd1))) as (o & b3 & E2 & -> & _).
  by exists b1, b2, b3.
Qed.

(** C39: But an object that was asked for before it was stored stays missing: the cache keeps
    the miss, storing does not clear it, and the file is there. *)
Theorem stale_miss_served n ct (cb : Cb) b :
  disk_works b → files b !! hex_encode n = None → read_cache b !! n = None →
  ∃ b1 b2 b3, file_retrieve n b = (Ok None, b1) ∧
    file_store n ct cb (b1, []) = (Ok (), (b2, [cb])) ∧
    files b2 !! hex_encode n = Some (CipherText.to_vec ct) ∧
    file_retrieve n b2 = (Ok None, b3).
Proof.
  intros Hw Hf Hc. destruct (file_retrieve_miss n b Hf Hc) as (k & c & E1 & Hk & Hn).
  set (b1 := mkFile _ _ k c _) in *. assert (disk_works b1) as Hw1.
  { intros m Hm. apply Hw. simpl in Hm. lia. }
  destruct (file_store_works n ct cb b1 Hw1) as (k2 & E2 & _).
  eexists b1, _, _. split; [exact E1|]. split; [exact E2|]. split; [apply lookup_insert_eq|].
  unfold file_retrieve, guarded_cache_get. rewrite bind_gets. cbn [read_cache b1]. by rewrite Hn.
Qed.

End FileBackend.

(** The memory backend calls the callback of an object that it refuses because the name
    is taken, and keeps the old object. *)
Theorem memory_refusal_calls_back {Cb} n old ct (cb : Cb) b :
  MemoryBackend.files b !! n = Some old →
  ∃ e, store n ct cb (b, []) = (Err e, (b, [cb])).
Proof.
  intros Hf. simpl. unfold MemoryBackend.mem_store, MemoryBackend.guarded_insert, attempt, zoom,
    mbind, M_bind. simpl. rewrite Hf. simpl. by eexists.
Qed.

(** ** The command backend *)

Section CmdBackend.
Context `{CmdOs} `{Hex} {Cb : Type}.
Implicit Types (b : @CmdBackend _ Cb) (called : list Cb) (p : @CmdPut _ Cb).

Abbreviation cb_of p := (done_callback (context p)).

(** The callbacks that the puts of the queue owe. *)
Definition owed b : list Cb := (λ p, cb_of p) <$> queue b.

(** A world call leaves the rest alone. *)
Lemma zoom_os_state {A} (m : M world A) b called r w' :
  zoom fst_lens (zoom os_lens m) (b, called) = (r, w') →
  w' = (lset os_lens (m (os b)).2 b, called) ∧ r = (m (os b)).1.
Proof. unfold zoom. simpl. destruct (m (os b)). by intros [= <- <-]. Qed.

(** What one pass over the old puts does to queue, callbacks and contexts to restart. *)
Record polled b called (old : list (@CmdPut _ Cb)) restart b' called' restart' : Prop := {
  polled_max : max_concurrent b' = max_concurrent b;
  polled_cbs : owed b' ++ called' ++ (done_callback <$> restart') ≡ₚ
    owed b ++ called ++ (done_callback <$> restart) ++ ((λ p, cb_of p) <$> old);
  polled_length : length (queue b') + length restart' ≤
    length (queue b) + length restart + length old;
}.

Lemma polled_step b called p old restart b1 called1 restart1 b' called' restart' :
  polled b called [p] restart b1 called1 restart1 →
  polled b1 called1 old restart1 b' called' restart' →
  polled b called (p :: old) restart b' called' restart'.
Proof.
  intros [E1 P1 L1] [E2 P2 L2]. split; [congruence| |simpl in *; lia].
  rewrite P2. rewrite fmap_cons.
  rewrite (app_assoc called1), (app_assoc (owed b1)), P1. cbn [fmap list_fmap].
  solve_Permutation.
Qed.

(** A call to the world leaves the rest alone. *)
Lemma os_call_Ok {A} (m : M world A) b called a s :
  zoom fst_lens (zoom os_lens m) (b, called) = (Ok a, s) →
  s = (lset os_lens (m (os b)).2 b, called).
Proof. intros E. by apply zoom_os_state in E as [-> _]. Qed.

Lemma attempt_os_Ok {A} (m : M world A) b called a s :
  attempt (zoom fst_lens (zoom os_lens m)) (b, called) = (Ok a, s) →
  s = (lset os_lens (m (os b)).2 b, called) ∧
  match a with inl a => (m (os b)).1 = Ok a | inr e => (m (os b)).1 = Err e end.
Proof.
  unfold attempt. destruct (zoom fst_lens _ _) as [r w'] eqn:E. apply zoom_os_state in E as [-> ->].
  destruct ((m (os b)).1); intros; by simplify_eq.
Qed.

(** Putting a put back. *)
Lemma push_polled p b called restart w :
  polled b called [p] restart (lset queue_lens (queue b ++ [p]) (lset os_lens w b)) called restart.
Proof.
  split; [done| |cbn; rewrite length_app; simpl; lia]. unfold owed. cbn. rewrite fmap_app.
  solve_Permutation.
Qed.

Lemma wait_polled p b called restart a b' called' :
  wait p (b, called) = (Ok a, (b', called')) →
  polled b called [p] restart b' called'
    (match a with inl _ => restart | inr ctx => restart ++ [ctx] end).
Proof.
  unfold wait. intros (st & s1 & E1 & E2)%bind_Ok_inv. apply attempt_os_Ok in E1 as [-> _].
  destruct st as [st|e]; [destruct (success st)|]; unfold call, zoom, mbind, M_bind, modify in E2; injection E2 as <- <- <-;
    (split; [done| |cbn; rewrite ?length_app; simpl; lia]); unfold owed; cbn;
    rewrite ?fmap_app; cbn; solve_Permutation.
Qed.

Lemma poll_polled old b called restart restart' b' called' :
  poll old restart (b, called) = (Ok restart', (b', called')) →
  polled b called old restart b' called' restart'.
Proof.
  revert b called restart. induction old as [|p old IH]; intros b called restart; cbn [poll].
  { intros [= -> -> ->]. split; [done| |simpl; lia]. cbn. by rewrite app_nil_r. }
  intros (r & s1 & E1 & E2)%bind_Ok_inv. apply attempt_os_Ok in E1 as [-> _].
  destruct r as [[st|]|e].
  - apply bind_Ok_inv in E2 as (a & [b1 called1] & E2 & E3).
    eapply (wait_polled _ _ _ restart) in E2.
    assert (polled b called [p] restart b1 called1
      (match a with inl _ => restart | inr ctx => restart ++ [ctx] end)) as E2' by (by destruct E2; split).
    eapply polled_step; [exact E2'|]. by destruct a; apply IH.
  - apply bind_Ok_inv in E2 as ([] & s2 & [= <-] & E3).
    eapply polled_step; [apply (push_polled _ _ _ _ (try_wait p (os b)).2)|]. apply IH, E3.
  - apply bind_Ok_inv in E2 as ([] & s2 & [= <-] & E3).
    eapply polled_step; [apply (push_polled _ _ _ _ (try_wait p (os b)).2)|]. apply IH, E3.
Qed.

Lemma restart_polled l b called b' called' :
  for_each (λ ctx, p ← unwrapM (zoom fst_lens (zoom os_lens (put_new ctx))); push p) l (b, called)
    = (Ok (), (b', called')) →
  max_concurrent b' = max_concurrent b ∧ called' = called ∧
  owed b' = owed b ++ (done_callback <$> l) ∧ length (queue b') = length (queue b) + length l.
Proof.
  revert b. induction l as [|ctx l IH]; intros b; cbn [for_each].
  { intros [= -> ->]. by rewrite app_nil_r. }
  intros ([] & [b1 c1] & (p & s1 & E1 & E2)%bind_Ok_inv & E3)%bind_Ok_inv.
  assert (s1 = (lset os_lens (put_new ctx (os b)).2 b, called) ∧ context p = ctx) as [-> Hp].
  { unfold unwrapM in E1. destruct (zoom fst_lens _ _) as [r w'] eqn:E.
    apply zoom_os_state in E as [-> ->]. destruct ((put_new ctx (os b)).1) as [a| | |] eqn:Ep; try done.
    injection E1 as <- <-. split; [done|]. unfold put_new in Ep.
    destruct ((ch ← start_child ctx; mret (mkPut ch ctx)) (os b)) as [r w] eqn:Eb. simpl in Ep.
    subst r. by apply bind_Ok_inv in Eb as (ch & w1 & _ & [= <- _]). }
  injection E2 as <- <-. apply IH in E3 as (E & -> & Eo & El). split_and!; [done..| |].
  - rewrite Eo. unfold owed. cbn. rewrite fmap_app, <- app_assoc. cbn. by rewrite Hp.
  - rewrite El. cbn. rewrite length_app. simpl. lia.
Qed.

Lemma try_flush_run b called b' called' :
  try_flush (b, called) = (Ok (), (b', called')) →
  max_concurrent b' = max_concurrent b ∧ owed b' ++ called' ≡ₚ owed b ++ called ∧
  length (queue b') ≤ length (queue b).
Proof.
  unfold try_flush. rewrite bind_gets. cbn [fst]. 
  intros ([] & s0 & [= <-] & E)%bind_Ok_inv. apply bind_Ok_inv in E as (restart & [b1 c1] & E1 & E2).
  apply poll_polled in E1 as [M1 P1 L1]. apply restart_polled in E2 as (M2 & -> & O2 & L2).
  cbn in L1, M1, P1. split_and!; [congruence| |lia].
  rewrite O2, <- app_assoc, (Permutation_app_comm (_ <$> restart)), P1. apply Permutation_app_comm.
Qed.

Lemma make_room_run fuel b called b' called' :
  make_room fuel (b, called) = (Ok (), (b', called')) →
  max_concurrent b' = max_concurrent b ∧ owed b' ++ called' ≡ₚ owed b ++ called ∧
  length (queue b') < max_concurrent b'.
Proof.
  revert b called. induction fuel as [|fuel IH]; intros b called; cbn [make_room];
    rewrite bind_gets; cbn [fst]; case_bool_decide as Hfull; try done.
  - intros [= <- <-]. split_and!; [done..|lia].
  - intros ([] & [b1 c1] & (M1 & P1 & _)%try_flush_run & (M2 & P2 & L2)%IH)%bind_Ok_inv.
    split_and!; [congruence|by rewrite P2|done].
  - intros [= <- <-]. split_and!; [done..|lia].
Qed.

Lemma cmd_store_run fuel n ct cb b called b' called' :
  cmd_store fuel n ct cb (b, called) = (Ok (), (b', called')) →
  max_concurrent b' = max_concurrent b ∧ owed b' ++ called' ≡ₚ cb :: owed b ++ called ∧
  length (queue b') ≤ max_concurrent b'.
Proof.
  unfold cmd_store, new_put.
  intros ([] & [b1 c1] & (M1 & P1 & L1)%make_room_run & (p & s2 & E2 & E3)%bind_Ok_inv)%bind_Ok_inv.
  apply zoom_os_state in E2 as [-> E2].
  assert (cb_of p = cb) as Hp.
  { unfold put_new in E2. destruct ((ch ← start_child _; _) _) as [r w] eqn:Eb. simpl in E2. subst r.
    by apply bind_Ok_inv in Eb as (ch & w1 & _ & [= <- _]). }
  injection E3 as <- <-. unfold owed in *. cbn. rewrite fmap_app, length_app. cbn. rewrite Hp.
  split_and!; [done| |lia]. rewrite <- P1. solve_Permutation.
Qed.

(** C36: However many objects are stored through the command backend and whatever its commands
    do, a put that is running or waiting to be restarted owes its callback and every other has
    called it, once: no callback is lost, none is called twice. And there are never more than
    [max_concurrent] puts. *)
Theorem cmd_callbacks_conserved fuel (l : list (bytes * CipherText * Cb)) w b called :
  for_each (λ '(n, ct, cb), cmd_store fuel n ct cb) l (new w, []) = (Ok (), (b, called)) →
  owed b ++ called ≡ₚ l.*2 ∧ length (queue b) ≤ max_concurrent b ∧ max_concurrent b = 5.
Proof.
  assert (∀ l b0 called0, length (queue b0) ≤ max_concurrent b0 →
    for_each (λ '(n, ct, cb), cmd_store fuel n ct cb) l (b0, called0) = (Ok (), (b, called)) →
    owed b ++ called ≡ₚ (owed b0 ++ called0) ++ l.*2 ∧ length (queue b) ≤ max_concurrent b ∧
    max_concurrent b = max_concurrent b0) as Hall.
  { clear l. induction l as [|[[n ct] cb] l IH]; intros b0 called0 Hl; cbn [for_each].
    - intros [= -> ->]. by rewrite app_nil_r.
    - intros ([] & [b1 c1] & (M1 & P1 & L1)%cmd_store_run & E2)%bind_Ok_inv.
      apply IH in E2 as (P2 & L2 & M2); [|done]. split_and!; [|done|congruence].
      rewrite P2, P1. cbn. solve_Permutation. }
  intros E. apply Hall in E; [done|simpl; lia].
Qed.

(** When [flush] returns, no put is left and every callback that was owed has been called,
    once. *)
Theorem cmd_flush_calls_all fuel b called b' called' :
  flush_loop fuel (b, called) = (Ok (), (b', called')) →
  queue b' = [] ∧ called' ≡ₚ owed b ++ called.
Proof.
  revert b called. induction fuel as [|fuel IH]; intros b called; cbn [flush_loop];
    rewrite bind_gets; cbn [fst]; case_bool_decide as Hq; try done;
    try by intros [= -> ->]; unfold owed; rewrite Hq.
  intros ([] & [b1 c1] & (_ & P1 & _)%try_flush_run & (Hq2 & P2)%IH)%bind_Ok_inv.
  split; [done|]. by rewrite P2.
Qed.

(** *** Liveness *)

(** A world whose puts come to an end: [left w c] more polls and [c] has succeeded. *)
Section ends.
Context (left : world → child → nat).
Context (poll_ends : ∀ c w, ∃ r w', child_try_wait c w = (Ok r, w') ∧
  (∀ c', left w' c' ≤ left w c') ∧ (if r then left w c = 0 else left w' c < left w c)).
Context (wait_ends : ∀ c w, left w c = 0 →
  ∃ w', child_wait c w = (Ok (Exited 0), w') ∧ ∀ c', left w' c' ≤ left w c').

Definition within (n : nat) (w : world) (l : list (@CmdPut _ Cb)) : Prop :=
  Forall (λ p, left w (put_child p) < n) l.

Lemma within_mono n w w' l :
  (∀ c, left w' c ≤ left w c) → within n w l → within n w' l.
Proof. intros Hw. unfold within. rewrite !Forall_forall. intros Hl p Hp. specialize (Hl p Hp).
  specialize (Hw (put_child p)). lia. Qed.

(** A pass over the queue restarts nothing and leaves one poll less. *)
Lemma poll_ends_run n old b called :
  within (S n) (os b) old → within n (os b) (queue b) →
  ∃ b' called', poll old [] (b, called) = (Ok [], (b', called')) ∧
    within n (os b') (queue b').
Proof using poll_ends wait_ends.
  revert b called. induction old as [|p old IH]; intros b called; cbn [poll].
  { intros _ Hq. by exists b, called. }
  intros [Hp Hold]%Forall_cons Hq.
  destruct (poll_ends (put_child p) (os b)) as (r & w1 & E1 & Hmono & Hr).
  rewrite (bind_Ok _ _ _ (inl r) (lset os_lens w1 b, called))
    by (unfold attempt, zoom, try_wait; cbn; by rewrite E1).
  destruct r as [st|].
  - destruct (wait_ends (put_child p) w1) as (w2 & E2 & Hmono2).
    { specialize (Hmono (put_child p)). lia. }
    rewrite (bind_Ok _ _ _ (inl ()) (lset os_lens w2 b, called ++ [cb_of p])).
    2:{ unfold wait, attempt, zoom, call, mbind, M_bind. cbn. by rewrite E2. }
    apply IH; cbn; (eapply within_mono; [|eassumption]); intros c; specialize (Hmono c);
      specialize (Hmono2 c); lia.
  - rewrite (bind_Ok _ _ _ () (lset queue_lens (queue b ++ [p]) (lset os_lens w1 b), called)) by done.
    apply IH; cbn; [by eapply within_mono|]. apply Forall_app. split; [by eapply within_mono|].
    apply Forall_singleton. lia.
Qed.

(** C37: When the commands come to an end and succeed, [flush] returns: it needs no more rounds
    than the most patient of the running puts asks for polls. *)
Theorem cmd_flush_ends n b called :
  within n (os b) (queue b) →
  ∃ b' called', flush_loop n (b, called) = (Ok (), (b', called')) ∧ queue b' = [].
Proof using poll_ends wait_ends.
  revert b called. induction n as [|n IH]; intros b called Hq; cbn [flush_loop];
    rewrite bind_gets; cbn [fst]; case_bool_decide as He; try (by exists b, called).
  - exfalso. apply He. destruct (queue b) as [|p q]; [done|]. apply Forall_cons in Hq as [? _]. lia.
  - destruct (poll_ends_run n (queue b) (lset queue_lens [] b) called) as (b1 & c1 & E1 & Hq1);
      [done|by constructor|].
    assert (try_flush (b, called) = (Ok (), (b1, c1))) as Et.
    { unfold try_flush. rewrite bind_gets. cbn [fst]. rewrite (bind_Ok _ _ _ () (lset queue_lens [] b, called))
        by done. rewrite (bind_Ok _ _ _ _ _ E1). done. }
    rewrite (bind_Ok _ _ _ _ _ Et). by apply IH.
Qed.
End ends.

End CmdBackend.

(** ** Runs *)

Section Runs.
Import ModelWorld.
#[local] Existing Instance model_hex.
#[local] Existing Instance model_hex_laws.

Definition an_object (n : nat) : CipherText := CipherText.new (replicate n Byte.x07).

Definition empty_disk : FileBackend.FileBackend := FileBackend.new ∅ (λ _, false).

Lemma file_store_retrieve_witness :
  ∃ b1 b2 b3, FileBackend.file_store [Byte.x01] (an_object 9) 5 (empty_disk, []) = (Ok (), (b1, [5])) ∧
    FileBackend.file_retrieve [Byte.x01] b1 = (Ok (Some (CipherText.to_vec (an_object 9))), b2) ∧
    FileBackend.file_retrieve [Byte.x01] b2 = (Ok (Some (CipherText.to_vec (an_object 9))), b3).
Proof. apply file_store_retrieve; [by intros n _|done]. Defined.

Lemma stale_miss_served_witness :
  ∃ b1 b2 b3, FileBackend.file_retrieve [Byte.x01] empty_disk = (Ok None, b1) ∧
    FileBackend.file_store [Byte.x01] (an_object 9) 5 (b1, []) = (Ok (), (b2, [5])) ∧
    FileBackend.files b2 !! hex_encode [Byte.x01] = Some (CipherText.to_vec (an_object 9)) ∧
    FileBackend.file_retrieve [Byte.x01] b2 = (Ok None, b3).
Proof. apply stale_miss_served; [by intros n _|done|done]. Defined.

Definition one_file : MemoryBackend.MemoryBackend :=
  MemoryBackend.mkMemory {[ [Byte.x01] := [Byte.x02] ]}.

Lemma memory_refusal_calls_back_witness :
  ∃ e, store [Byte.x01] (an_object 9) 5 (one_file, []) = (Err e, (one_file, [5])).
Proof. apply (memory_refusal_calls_back _ [Byte.x02]). reflexivity. Defined.

(** Seven objects; the second put fails and is started again. *)
Definition seven_objects : list (bytes * CipherText * nat) :=
  (λ i, ([byte_of_nat i], an_object i, i)) <$> seq 1 7.

#[local] Abbreviation flaky := (model_os (λ c, c =? 1)).

#[local] Abbreviation store_seven o :=
  (for_each (λ '(n, ct, cb), @cmd_store o _ nat 20 n ct cb) seven_objects (@new o nat new_world, [])).

Lemma cmd_callbacks_conserved_witness :
  ∃ b called, store_seven flaky = (Ok (), (b, called)) ∧
    owed b ++ called ≡ₚ [1; 2; 3; 4; 5; 6; 7] ∧ length (queue b) ≤ max_concurrent b ∧
    max_concurrent b = 5.
Proof.
  destruct (ok_run_split (store_seven flaky)) as ([] & [b called] & E); [vm_compute; reflexivity|].
  exists b, called. split; [exact E|].
  exact (@cmd_callbacks_conserved flaky _ nat 20 seven_objects new_world b called E).
Defined.

Lemma cmd_flush_calls_all_witness :
  ∃ b called b' called', store_seven flaky = (Ok (), (b, called)) ∧
    @flush_loop flaky nat 20 (b, called) = (Ok (), (b', called')) ∧
    queue b' = [] ∧ called' ≡ₚ owed b ++ called.
Proof.
  destruct (ok_run_snd (store_seven flaky)) as ([] & E); [vm_compute; reflexivity|].
  destruct (ok_run_split (@flush_loop flaky nat 20 (store_seven flaky).2)) as ([] & [b' called'] & E2);
    [vm_compute; reflexivity|].
  destruct (store_seven flaky).2 as [b called].
  exists b, called, b', called'. split; [exact E|]. split; [exact E2|].
  exact (@cmd_flush_calls_all flaky nat 20 b called b' called' E2).
Defined.

#[local] Abbreviation slow := (model_os (λ _, false)).

(** [store] returns although the put has only been started: nothing has been called, and
    the object is not there. (The blob store then marks the blob as committed.) *)
Theorem cmd_store_returns_early :
  match @cmd_store slow _ nat 1 [Byte.x01] (an_object 9) 5 (@new slow nat new_world, []) with
  | (Ok _, (b, called)) =>
      called = [] ∧ (@cmd_retrieve slow _ nat [Byte.x01] b).1 = Ok None
  | _ => False
  end.
Proof. vm_compute. done. Qed.

Lemma cmd_flush_ends_witness :
  ∃ b called, store_seven slow = (Ok (), (b, called)) ∧
  ∃ b' called', @flush_loop slow nat 4 (b, called) = (Ok (), (b', called')) ∧ queue b' = [].
Proof.
  destruct (check_run_true (store_seven slow) (λ _ w,
    forallb (λ p : @CmdPut slow nat, polls (@os slow nat w.1) (@put_child slow nat p) <? 4)
      (@queue slow nat w.1))) as ([] & [b called] & E & Hw).
  { vm_compute. reflexivity. }
  exists b, called. split; [exact E|].
  apply (@cmd_flush_ends slow nat polls model_poll_ends model_wait_ends 4 b called).
  apply Forall_forall. intros p Hp. apply Nat.ltb_lt.
  rewrite forallb_forall in Hw. apply Hw. by apply list_elem_of_In.
Defined.

End Runs.
