(* ===== verification/BlobSpec.v ===== *)
(** * Cryptography and blobs: the theorems

    What blob/blob.rs promises on top of crypto/mod.rs: what is put into a blob comes out of the
    sealed blob, at its fixed size; which texts the reader accepts; and the one case in which
    the room a blob accounts for is too small. *)

From S2P Require Import Prelude Cbor Codec Refs Crypto ModelSodium Blob.
From S2P Require Models.
Import Crypto.CipherText (ok).

Section Spec.
Context `{SodiumLaws} `{CborLaws Models.HashRef}.

(** The chunks a blob accepts out of a list, with their references; the others are skipped. *)
Fixpoint append_all (l : list (bytes * tree.HashRef))
    : M (Blob * rng) (list (bytes * tree.HashRef)) :=
  match l with
  | [] => mret []
  | (c, h) :: l =>
      '(accepted, h') ← try_append c h;
      rest ← append_all l;
      mret (if accepted : bool then (c, h') :: rest else rest)
  end.

Lemma try_append_cases b l c h r o b' r' :
  Blob_ok b l → 8 ≤ length (tree.hash h) → try_append c h (b, r) = (Ok o, (b', r')) →
  (o.1 = false ∧ b' = b ∧ l ≠ []) ∨
  (o.1 = true ∧ Blob_ok b' (l ++ [(c, o.2)]) ∧ keys_ b' = keys_ b ∧ max_len b' = max_len b ∧
   (l ≠ [] → upperbound_len b' ≤ max_len b)).
Proof.
  intros Hb Hh Hrun. destruct (try_append_run b l c h r Hb Hh)
    as (h1 & b1 & r1 & Hp & E & Hk & Hm & Hcl & Hfl & Hok).
  cbv zeta in E. rewrite E in Hrun. destruct (decide _) as [Hlen|]; [|done].
  destruct (decide _) as [Hfull|Hroom].
  { destruct (decide (l = [])); [done|]. injection Hrun as <- <- <-. by left. }
  injection Hrun as <- <- <-. right. specialize (Hok Hlen). split_and!; try done.
  intros Hl. unfold upperbound_len in *. rewrite (ok_overhead _ _ Hb) in Hroom.
  rewrite (ok_overhead _ _ Hok). rewrite decide_False in Hroom by (by rewrite (ok_len_0 b l)).
  rewrite decide_False by (rewrite (ok_len_0 _ _ Hok); by intros [_ ?]%app_nil). lia.
Qed.

Lemma append_all_ok l : ∀ b acc r o b' r',
  Blob_ok b acc → Forall (λ ch, 8 ≤ length (tree.hash ch.2)) l →
  append_all l (b, r) = (Ok o, (b', r')) →
  Blob_ok b' (acc ++ o) ∧ keys_ b' = keys_ b ∧ max_len b' = max_len b.
Proof.
  induction l as [|[c h] l IH]; intros b acc r o b' r' Hb Hl Hrun.
  { injection Hrun as <- <- _. by rewrite app_nil_r. }
  apply Forall_cons in Hl as [Hh Hl]. simpl in Hrun.
  apply bind_Ok_inv in Hrun as ([ac h'] & [b1 r1] & E1 & Hrun).
  apply bind_Ok_inv in Hrun as (rest & [b2 r2] & E2 & Hrun). injection Hrun as <- <- <-.
  destruct (try_append_cases _ _ _ _ _ _ _ _ Hb Hh E1)
    as [(Ha & -> & _)|(Ha & Hb1 & Hk & Hm & _)]; simpl in Ha; subst ac.
  - by eapply IH.
  - destruct (IH _ _ _ _ _ _ Hb1 Hl E2) as (Hb2 & Hk2 & Hm2). simpl in Hb2.
    rewrite <- app_assoc in Hb2. split_and!; [done|congruence..].
Qed.

Lemma to_ciphertext_fits b r out s :
  to_ciphertext_blob (b, r) = (Ok (Some out), s) → fits b.
Proof.
  unfold to_ciphertext_blob. rewrite bind_gets. simpl. intros Hrun. unfold fits, upperbound_len.
  case_decide; [done|]. apply bind_Ok_inv in Hrun as (k & s1 & E1 & Hrun).
  apply zoom_Ok_inv in E1 as (r1 & _ & ->). rewrite bind_zoom_modify in Hrun.
  apply bind_Ok_inv in Hrun as (f & s2 & E2 & Hrun). apply zoom_Ok_inv in E2 as (r2 & _ & ->).
  rewrite bind_zoom_modify in Hrun. apply bind_Ok_inv in Hrun as ([] & s3 & E3 & _).
  unfold lift in E3. injection E3 as E3 _. apply assert_Ok_inv in E3. lia.
Qed.

(** C15: Fill a new blob with any chunks, seal it, and read it: when sealing succeeds the
    ciphertext has exactly the length the blob was made for; a reader made with the same keys
    returns, for each chunk the blob accepted, the chunk for its reference (also once the
    reference has been renamed), and lists the references in order. When nothing was accepted
    there is nothing to seal. The blob is empty again and can be used once more. *)
Theorem fill_seal_read k max r0 b0 r1 l acc b1 r2 o b2 r3 :
  keys.Keeper_ok k → (Z.of_nat max < 2 ^ 62)%Z →
  Forall (λ ch, 8 ≤ length (tree.hash ch.2)) l →
  Blob_new k max r0 = (Ok b0, r1) → append_all l (b0, r1) = (Ok acc, (b1, r2)) →
  to_ciphertext_blob (b1, r2) = (Ok o, (b2, r3)) →
  Blob_ok b2 [] ∧
  match o with
  | None => acc = []
  | Some out => length (CipherText.to_vec out) = max ∧ reads_as k (CipherText.to_vec out) acc
  end.
Proof.
  intros Hk Hmax Hl Hnew Happ Hseal.
  destruct (Blob_new_ok k max r0 Hk Hmax) as (b & r & E & Hb & Hm & Hkb).
  rewrite E in Hnew. injection Hnew as <- <-.
  destruct (append_all_ok _ _ _ _ _ _ _ Hb Hl Happ) as (Hb1 & Hk1 & Hm1). simpl in Hb1.
  destruct (decide (acc = [])) as [->|Hne].
  { rewrite (to_ciphertext_empty b1 r2 Hb1) in Hseal. by injection Hseal as <- <- _. }
  destruct o as [out|].
  - pose proof (to_ciphertext_fits _ _ _ _ Hseal) as Hf.
    destruct (to_ciphertext_run b1 acc r2 Hb1 Hne Hf)
      as (out' & b' & r' & E' & Hb' & _ & _ & _ & Hlen & Hr).
    rewrite E' in Hseal. injection Hseal as <- <- _. split; [done|].
    split; [congruence|]. congruence.
  - exfalso. unfold to_ciphertext_blob in Hseal. rewrite bind_gets in Hseal. simpl in Hseal.
    rewrite decide_False in Hseal by (by rewrite (ok_len_0 b1 acc)).
    repeat (apply bind_Ok_inv in Hseal as (? & ? & _ & Hseal)). done.
Qed.

(** C28: A blob that can be sealed stays so: once a first chunk is in and fits, appending more
    chunks never makes the sealing fail, because a chunk without room is refused and leaves the
    blob as it was. *)
Theorem appending_keeps_sealable b acc l r o b' r' :
  Blob_ok b acc → acc ≠ [] → fits b → Forall (λ ch, 8 ≤ length (tree.hash ch.2)) l →
  append_all l (b, r) = (Ok o, (b', r')) →
  ∃ out s, to_ciphertext_blob (b', r') = (Ok (Some out), s) ∧
    length (CipherText.to_vec out) = max_len b.
Proof.
  intros Hb Hne Hf Hl Hrun.
  assert (Blob_ok b' (acc ++ o) ∧ fits b' ∧ max_len b' = max_len b) as (Hb' & Hf' & Hm).
  { revert b acc r o Hb Hne Hf Hrun. induction l as [|[c h] l IH]; intros b acc r o Hb Hne Hf Hrun.
    { injection Hrun as <- <- _. by rewrite app_nil_r. }
    apply Forall_cons in Hl as [Hh Hl]. simpl in Hrun.
    apply bind_Ok_inv in Hrun as ([ac h'] & [b1 r1] & E1 & Hrun).
    apply bind_Ok_inv in Hrun as (rest & [b2 r2] & E2 & Hrun). injection Hrun as <- <- <-.
    destruct (try_append_cases _ _ _ _ _ _ _ _ Hb Hh E1)
      as [(Ha & -> & _)|(Ha & Hb1 & Hk & Hm & Hu)]; simpl in Ha; subst ac; [by eapply IH|].
    simpl in Hb1. destruct (IH Hl b1 (acc ++ [(c, h')]) r1 rest) as (? & ? & ?); try done.
    - by intros [_ ?]%app_nil.
    - unfold fits. rewrite Hm. by apply Hu.
    - rewrite <- app_assoc in *. split_and!; [done..|congruence]. }
  destruct (to_ciphertext_run b' (acc ++ o) r' Hb') as (out & b2 & r2 & E & _ & _ & _ & _ & Hlen & _).
  - by intros [? _]%app_nil.
  - done.
  - exists out. eexists. split; [done|]. congruence.
Qed.

(** C29: The reader accepts a blob only if it ends in the keyed digest of everything before it,
    and then hands on exactly that. *)
Theorem authentication_required k ct :
  keys.Keeper_ok k →
  match strip_authentication ct k with
  | Ok rest => ∃ tag, ct = rest ++ tag ∧ keys.blob_authentication k rest 64 = Ok tag ∧
      length tag = 64
  | _ => ∀ rest tag, ct = rest ++ tag → length tag = 64 →
      keys.blob_authentication k rest 64 ≠ Ok tag
  end.
Proof.
  intros Hk. pose proof (λ rest, strip_authentication_spec k ct rest Hk) as Hspec.
  destruct (strip_authentication ct k) as [rest|e| |] eqn:E.
  - destruct (proj1 (Hspec rest) eq_refl) as (tag & -> & Et). exists tag. split_and!; [done..|].
    destruct (keys.blob_authentication_ok k rest Hk) as (tag' & E' & Hl). congruence.
  - intros rest tag Hct Hl Et. pose proof (proj2 (Hspec rest) ltac:(eauto)). congruence.
  - intros rest tag Hct Hl Et. pose proof (proj2 (Hspec rest) ltac:(eauto)). congruence.
  - intros rest tag Hct Hl Et. pose proof (proj2 (Hspec rest) ltac:(eauto)). congruence.
Qed.

(** Every key gives a keeper, with all its keys derived and its key pairs matching. *)
Theorem keeper_derives_all_keys key :
  length key = 32 → ∃ k, keys.Keeper_new key = Ok k ∧ keys.Keeper_ok k.
Proof. intros Hk. apply keys.Keeper_new_ok. lia. Qed.

(** A digest is salted with the kind of its node: two kinds never share a salt. *)
Theorem salt_separates n1 l1 n2 l2 :
  n1 ≠ chunk.Branch 0 → n2 ≠ chunk.Branch 0 →
  is_u64 (chunk.NodeType_into_u64 n1) → is_u64 (chunk.NodeType_into_u64 n2) →
  keys.compute_salt n1 l1 = keys.compute_salt n2 l2 → n1 = n2 ∧ l1 = l2.
Proof.
  intros Hn1 Hn2 Hu1 Hu2 E. unfold keys.compute_salt in E.
  apply app_inj_1 in E as [E1 E2]; [|by rewrite !length_le_encode].
  apply le_encode_inj in E1; [|simpl; lia..]. apply le_encode_inj in E2; [|by destruct l1|by destruct l2].
  split.
  - rewrite <- (chunk.NodeType_from_into n1), <- (chunk.NodeType_from_into n2) by done. by rewrite E1.
  - by destruct l1, l2.
Qed.

End Spec.

(** ** Runs *)
Section Runs.

#[local] Existing Instance ModelSodium.model_sodium.
#[local] Existing Instance ModelSodium.model_laws.
#[local] Instance href_cbor : Cbor Models.HashRef := codec_cbor.
#[local] Instance href_laws : CborLaws Models.HashRef := codec_cbor_laws.

Definition zero_key : bytes := replicate 32 Byte.x00.

Definition no_keeper : keys.Keeper :=
  keys.mkKeeper [] None None None None None None None None.

Definition the_keeper : keys.Keeper :=
  match keys.Keeper_new zero_key with Ok k => k | _ => no_keeper end.

Lemma the_keeper_ok : keys.Keeper_ok the_keeper.
Proof.
  destruct (keys.Keeper_new_ok zero_key) as (k & E & Hk); [simpl; lia|].
  assert (the_keeper = k) as ->; [|done].
  unfold the_keeper. by rewrite E.
Qed.

Definition some_href : tree.HashRef :=
  tree.mkHashRef (replicate 64 Byte.x02) chunk.Leaf Models.FileChunk
    (chunk.mkChunkRef None [Byte.x03] 0 0 None None) None.

(** A chunk of [n] bytes. *)
Definition some_chunk (n : nat) : bytes * tree.HashRef := (replicate n Byte.x05, some_href).

Definition empty_blob (max : nat) : Blob :=
  mkBlob _ the_keeper (replicate 32 Byte.x00) CipherText.empty [] 256 max.

#[local] Abbreviation three_chunks := [some_chunk 10; some_chunk 20; some_chunk 30].

Lemma fill_seal_read_witness :
  ∃ acc s out s', append_all three_chunks (empty_blob 1500, 1) = (Ok acc, s) ∧
    to_ciphertext_blob s = (Ok (Some out), s') ∧
    length (CipherText.to_vec out) = 1500 ∧ reads_as the_keeper (CipherText.to_vec out) acc.
Proof.
  destruct (ok_run_split (append_all three_chunks (empty_blob 1500, 1)))
    as (acc & [b1 r2] & E); [vm_compute; reflexivity|].
  destruct (ok_run_split (to_ciphertext_blob (b1, r2))) as (o & [b2 r3] & E2).
  { replace (b1, r2) with (append_all three_chunks (empty_blob 1500, 1)).2 by (by rewrite E).
    vm_compute. reflexivity. }
  pose proof (fill_seal_read the_keeper 1500 0 (empty_blob 1500) 1 three_chunks acc b1 r2 o b2 r3
    the_keeper_ok ltac:(lia) ltac:(repeat constructor; simpl; lia) eq_refl E E2) as [_ Ho].
  destruct o as [out|].
  - exists acc, (b1, r2), out, (b2, r3). exact (conj E (conj E2 Ho)).
  - exfalso. subst acc. assert (match (append_all three_chunks (empty_blob 1500, 1)).1 with
      Ok l => length l | _ => 0 end = 3) as E3 by (vm_compute; reflexivity).
    rewrite E in E3. discriminate E3.
Defined.

Lemma appending_keeps_sealable_witness :
  ∃ b acc r o s out s', append_all three_chunks (b, r) = (Ok o, s) ∧
    Blob_ok b acc ∧ length acc = 1 ∧
    to_ciphertext_blob s = (Ok (Some out), s') ∧ length (CipherText.to_vec out) = 700.
Proof.
  destruct (Blob_new_ok the_keeper 700 (0 : @rng ModelSodium.model_sodium) the_keeper_ok ltac:(lia)) as (b0 & r0 & E0 & Hb0 & _).
  assert (Blob_new the_keeper 700 (0 : @rng ModelSodium.model_sodium) =
    (Ok (empty_blob 700), 1)) as E0' by reflexivity.
  rewrite E0' in E0. injection E0 as <- <-.
  destruct (ok_run_split (append_all [some_chunk 5] (empty_blob 700, 1)))
    as (acc & [b1 r1] & E1); [vm_compute; reflexivity|].
  destruct (append_all_ok [some_chunk 5] _ _ _ _ _ _ Hb0 ltac:(repeat constructor; simpl; lia) E1)
    as (Hb1 & _ & Hm1).
  assert ((match (append_all [some_chunk 5] (empty_blob 700, 1)) with
    | (Ok l, s) => (length l, bool_decide (upperbound_len s.1 ≤ 700)) | _ => (0, false) end)
    = (1, true)) as Ec by (vm_compute; reflexivity).
  rewrite E1 in Ec. injection Ec as Hl Hu%bool_decide_eq_true.
  destruct (ok_run_split (append_all three_chunks (b1, r1))) as (o & [b2 r2] & E2).
  { replace (b1, r1) with (append_all [some_chunk 5] (empty_blob 700, 1)).2 by (by rewrite E1).
    vm_compute. reflexivity. }
  destruct (appending_keeps_sealable b1 acc three_chunks r1 o b2 r2) as (out & s & E3 & Hlen).
  - exact Hb1.
  - intros ->. discriminate Hl.
  - unfold fits. rewrite Hm1. exact Hu.
  - repeat constructor; simpl; lia.
  - exact E2.
  - exists b1, acc, r1, o, (b2, r2), out, s. rewrite Hm1 in Hlen.
    exact (conj E2 (conj Hb1 (conj Hl (conj E3 Hlen)))).
Defined.

Lemma authentication_required_witness :
  match strip_authentication zero_key the_keeper with
  | Ok rest => ∃ tag, zero_key = rest ++ tag ∧
      keys.blob_authentication the_keeper rest 64 = Ok tag ∧ length tag = 64
  | _ => ∀ rest tag, zero_key = rest ++ tag → length tag = 64 →
      keys.blob_authentication the_keeper rest 64 ≠ Ok tag
  end.
Proof. apply (authentication_required the_keeper zero_key the_keeper_ok). Defined.

Lemma keeper_derives_all_keys_witness :
  ∃ k, keys.Keeper_new zero_key = Ok k ∧ keys.Keeper_ok k.
Proof. apply (keeper_derives_all_keys zero_key). reflexivity. Defined.

Lemma salt_separates_witness :
  let salt := keys.compute_salt (chunk.Branch 7) Models.TreeList in
  length salt = 16 ∧ chunk.Branch 7 = chunk.Branch 7 ∧ Models.TreeList = Models.TreeList.
Proof.
  split; [reflexivity|].
  apply (salt_separates (chunk.Branch 7) Models.TreeList (chunk.Branch 7) Models.TreeList);
    done.
Defined.

(** [upperbound_len] counts nothing for an empty blob, not even the overhead, so that
    [try_append] accepts a first chunk for which there is no room: sealing the blob then fails
    its assertion. Here the blob has 400 bytes, the chunk 100. *)
Theorem first_chunk_overflows :
  match append_all [some_chunk 100] (empty_blob 400, 1) with
  | (Ok acc, s) => length acc = 1 ∧ (to_ciphertext_blob s).1 = Panic
  | _ => False
  end.
Proof. vm_compute. split; reflexivity. Qed.

End Runs.
