(* ===== verification/HashTree.v ===== *)
(** * Hash trees: hash/tree.rs

    [SimpleHashTreeWriter] turns a stream of chunks into a tree of references, [Walker] visits
    a stored tree, [LeafIterator] lists its chunks. The storage behind them is the class
    [HashTreeBackend] (the trait of that name), with its contract [HashTreeBackendLaws]. *)

From S2P Require Import Prelude Cbor Refs.
From S2P Require Models.

Class HashTreeBackend (St : Type) := {
  fetch_chunk : tree.HashRef → M St (option bytes);
  fetch_childs : bytes → M St (option (list Z));
  fetch_persistent_ref : bytes → M St (option chunk.ChunkRef);
  insert_chunk : bytes → chunk.NodeType → Models.LeafType → option (list Z) →
    option key.Info → M St (Z * tree.HashRef);
}.

(** ** The writer *)

(** [levels !! 0] holds the leaves that are not in a branch yet; the last level is the root's. *)
Record SimpleHashTreeWriter := mkWriter {
  order : nat;
  leaf_type : Models.LeafType;
  levels : list (list (Z * tree.HashRef));
}.

Definition Writer_new (leaf_type : Models.LeafType) (order : nat) : SimpleHashTreeWriter :=
  mkWriter order leaf_type [].

Definition set_levels (l : list (list (Z * tree.HashRef))) (w : SimpleHashTreeWriter) :=
  mkWriter (order w) (leaf_type w) l.

Definition top_level (w : SimpleHashTreeWriter) : option nat :=
  match levels w with [] => None | _ => Some (length (levels w) - 1) end.

(** [while self.top_level() < Some(level) { push }] *)
Definition grow_to (level : nat) (w : SimpleHashTreeWriter) : SimpleHashTreeWriter :=
  set_levels (levels w ++ replicate (level + 1 - length (levels w)) []) w.

(** [Vec::swap_remove]: the removed element, and the vector with its last one in that place. *)
Definition swap_remove {A} (i : nat) (l : list A) : res (A * list A) :=
  x ← expect (l !! i);
  y ← expect (last l);
  Ok (x, take (length l - 1) (<[i := y]> l)).

Section Writer.
Context {St : Type} `{!HashTreeBackend St} `{Cbor Models.HashRefs}.

Abbreviation WM := (M (SimpleHashTreeWriter * St)).

(** The source's [append_at], [append_hashref_at] and [collapse_level] call one another, one
    level up each round. The first two take the third as an argument, which the fuel of
    [collapse_level] ties: one unit per level. *)
Definition append_hashref_at (collapse : nat → option key.Info → WM unit)
    (level : nat) (id : Z) (hashref : tree.HashRef) (info : option key.Info) : WM unit :=
  w ← gets fst;
  lift (assert_ (level ≤ length (levels w))) ;;
  zoom fst_lens (modify (grow_to level)) ;;
  w ← gets fst;
  level_v ← lift (expect (levels w !! level));
  let level_v := level_v ++ [(id, hashref)] in
  zoom fst_lens (modify (λ w, set_levels (<[level := level_v]> (levels w)) w)) ;;
  if decide (length level_v = order w) then collapse level info else mret ().

Definition append_at (collapse : nat → option key.Info → WM unit)
    (level : nat) (data : bytes) (childs : option (list Z)) (info : option key.Info) : WM unit :=
  w ← gets fst;
  '(id, hash_ref) ← zoom snd_lens (insert_chunk data
     (chunk.NodeType_from_u64 (usize_as_u64 level)) (leaf_type w) childs info);
  append_hashref_at collapse level id hash_ref info.

Fixpoint collapse_level (fuel level : nat) (info : option key.Info) : WM unit :=
  match fuel with
  | O => diverge
  | S fuel =>
    w ← gets fst;
    lift (assert_ (level < length (levels w))) ;;
    '(level_v, levels') ← lift (swap_remove level (levels w ++ [[]]));
    zoom fst_lens (modify (set_levels levels')) ;;
    let ids := level_v.*1 in
    let data := tree.hash_refs_to_bytes level_v.*2 in
    append_at (collapse_level fuel) (level + 1) data (Some ids) info
  end.

(** Each collapse goes one level up and a new top level has one entry, so that the number of
    levels, and one more for a new one, is fuel enough for orders above 1. *)
Definition collapse_fuel (w : SimpleHashTreeWriter) : nat := length (levels w) + 2.

Definition append (chunk : bytes) : WM unit :=
  w ← gets fst;
  append_at (collapse_level (collapse_fuel w)) 0 chunk None None.

Definition collapse (level : nat) (info : option key.Info) : WM unit :=
  w ← gets fst;
  collapse_level (collapse_fuel w) level info.

(** [levels.iter().take_while(|level| level.is_empty()).count()] *)
Fixpoint count_empty {A} (l : list (list A)) : nat :=
  match l with [] :: l => S (count_empty l) | _ => 0 end.

(** [hash]: the [Result]s of the loop's rounds are dropped by [map(..).last()]. *)
Definition hash (info : option key.Info) : WM tree.HashRef :=
  w ← gets fst;
  (if decide (levels w = []) then append [] else mret ()) ;;
  w ← gets fst;
  let first_non_empty_level_idx := count_empty (levels w) in
  top ← lift (expect (top_level w));
  for_each (λ l, attempt (collapse l None) ;; mret ())
    (seq first_non_empty_level_idx (top - first_non_empty_level_idx)) ;;
  w ← gets fst;
  top ← lift (expect (top_level w));
  top_v ← lift (expect (levels w !! top));
  (if decide (is_Some info ∨ 1 < length top_v) then collapse top info else mret ()) ;;
  w ← gets fst;
  lift (assert_ (length <$> last (levels w) = Some 1)) ;;
  '(_, hashref) ← lift (expect (last (levels w) ≫= last));
  mret hashref.

(** The use the code makes of a writer. *)
Definition write_all (chunks : list bytes) (info : option key.Info) : WM tree.HashRef :=
  for_each append chunks ;; hash info.

End Writer.

(** ** The reader *)

(** A [Visitor] with state [V]; the trait's default methods are [default_visitor]'s. *)
Record Visitor (V : Type) := mkVisitor {
  branch_enter : tree.HashRef → list tree.HashRef → V → bool * V;
  branch_leave : tree.HashRef → V → bool * V;
  leaf_enter : tree.HashRef → V → bool * V;
  leaf_leave : bytes → tree.HashRef → V → bool * V;
}.
Arguments mkVisitor {V} _ _ _ _.
Arguments branch_enter {V} _ _ _ _.
Arguments branch_leave {V} _ _ _.
Arguments leaf_enter {V} _ _ _.
Arguments leaf_leave {V} _ _ _ _.

Definition default_visitor {V} : Visitor V :=
  mkVisitor (λ _ _ v, (true, v)) (λ _ v, (false, v)) (λ _ v, (true, v)) (λ _ _ v, (false, v)).

Inductive StackItem := Enter (href : tree.HashRef) | LeaveBranch (href : tree.HashRef).

(** The state of a traversal; the stack's top is its first element. *)
Record WalkState (St V : Type) := mkWalk {
  stack : list StackItem;
  visitor : V;
  backend : St;
}.
Arguments mkWalk {St V} _ _ _.
Arguments stack {St V} _.
Arguments visitor {St V} _.
Arguments backend {St V} _.

Definition stack_lens {St V} : lens (WalkState St V) (list StackItem) :=
  Lens stack (λ x w, mkWalk x (visitor w) (backend w)).
Definition visitor_lens {St V} : lens (WalkState St V) V :=
  Lens visitor (λ x w, mkWalk (stack w) x (backend w)).
Definition backend_lens {St V} : lens (WalkState St V) St :=
  Lens backend (λ x w, mkWalk (stack w) (visitor w) x).

Section Walker.
Context {St V : Type} `{!HashTreeBackend St} `{Cbor Models.HashRefs} (vis : Visitor V).

Abbreviation WalkM := (M (WalkState St V)).

Definition Walker_new (root_hash : tree.HashRef) : list StackItem := [Enter root_hash].

(** A visitor's method runs on the visitor's state. *)
Definition visit (f : V → bool * V) : WalkM bool :=
  zoom visitor_lens (λ v, let '(b, v') := f v in (Ok b, v')).

(** [fetch_chunk(child).map(|opt| opt.expect("Invalid hash ref"))] *)
Definition fetch (child : tree.HashRef) : WalkM bytes :=
  opt ← zoom backend_lens (fetch_chunk child);
  lift (expect opt).

(** The loop of [resume]: a round per stack item. *)
Fixpoint resume_loop (fuel : nat) (cycle_start : option bytes) : WalkM bool :=
  stk ← gets stack;
  match stk with
  | [] => mret true
  | item :: stk =>
    match fuel with
    | O => diverge
    | S fuel =>
      zoom stack_lens (modify (λ _, stk)) ;;
      match item with
      | LeaveBranch href =>
          stop ← visit (branch_leave vis href);
          if stop : bool then mret true else resume_loop fuel cycle_start
      | Enter node =>
          cycle_start ← match cycle_start with
                        | None => mret (Some (tree.hash node))
                        | Some hash => lift (assert_ (hash ≠ tree.hash node)) ;; mret cycle_start
                        end;
          match tree.node node with
          | chunk.Leaf =>
              entered ← visit (leaf_enter vis node);
              if entered : bool then
                data ← fetch node;
                stop ← visit (leaf_leave vis data node);
                if stop : bool then mret true else resume_loop fuel cycle_start
              else resume_loop fuel cycle_start
          | chunk.Branch _ =>
              data ← fetch node;
              new_childs ← lift (tree.hash_refs_from_bytes data);
              entered ← visit (branch_enter vis node new_childs);
              (if entered : bool then
                 zoom stack_lens (modify (λ stk, (Enter <$> new_childs) ++ LeaveBranch node :: stk))
               else mret ()) ;;
              resume_loop fuel cycle_start
          end
      end
    end
  end.

(** At least one work item is processed unless the stack is empty. *)
Definition resume (fuel : nat) : WalkM bool :=
  stk ← gets stack;
  if decide (length stk = 0) then mret false else resume_loop fuel None.

End Walker.

(** *** [LeafIterator] *)
Section LeafIterator.
Context {St : Type} `{!HashTreeBackend St} `{Cbor Models.HashRefs}.

(** The leaves read and not handed out yet, in order. *)
Definition LeafVisitor : Visitor (list bytes) :=
  mkVisitor (λ _ _ v, (true, v)) (λ _ v, (false, v)) (λ _ v, (true, v))
    (λ leaf _ leafs, (true, leafs ++ [leaf])).

Definition LeafIterator_new (root_ref : tree.HashRef) (s : St) : WalkState St (list bytes) :=
  mkWalk (Walker_new root_ref) [] s.

(** [while leafs.is_empty() && walker.resume(..).unwrap() {}; leafs.pop_front()] *)
Fixpoint leaf_next (fuel : nat) : M (WalkState St (list bytes)) (option bytes) :=
  leafs ← gets visitor;
  match leafs with
  | leaf :: leafs => zoom visitor_lens (modify (λ _, leafs)) ;; mret (Some leaf)
  | [] =>
    more ← unwrapM (resume LeafVisitor fuel);
    if more : bool then
      match fuel with O => diverge | S fuel => leaf_next fuel end
    else
      leafs ← gets visitor;
      match leafs with
      | leaf :: leafs => zoom visitor_lens (modify (λ _, leafs)) ;; mret (Some leaf)
      | [] => mret None
      end
  end.

(** [for leaf in it]: all the leaves left. *)
Fixpoint collect_leafs (fuel : nat) : M (WalkState St (list bytes)) (list bytes) :=
  o ← leaf_next fuel;
  match o with
  | None => mret []
  | Some leaf =>
    match fuel with
    | O => diverge
    | S fuel => rest ← collect_leafs fuel; mret (leaf :: rest)
    end
  end.

End LeafIterator.

(** ** The contract of a backend

    [stored s h d]: in state [s] the reference [h] is a promise to give back [d], kept by all
    later operations; a chunk that was inserted is [stored]. In a [readable] state (in the
    source: everything flushed, no collision of digests) the promise can be called in. *)
Class HashTreeBackendLaws (St : Type) `{!HashTreeBackend St} := {
  backend_ok : St → Prop;
  readable : St → Prop;
  stored : St → tree.HashRef → bytes → Prop;
  stored_norm : ∀ s h d, stored s h d → stored s (tree.norm h) d;
  stored_inj : ∀ s h1 d1 h2 d2, readable s → stored s h1 d1 → stored s h2 d2 →
    tree.hash h1 = tree.hash h2 → tree.node h1 = tree.node h2;
  insert_chunk_ok : ∀ d n l c i s, backend_ok s → n ≠ chunk.Branch 0 →
    wp (insert_chunk d n l c i) s (λ '(_, h) s',
      backend_ok s' ∧ stored s' h d ∧ tree.node h = n ∧ tree.leaf h = l ∧ tree.HashRef_wf h ∧
      ∀ h' d', stored s h' d' → stored s' h' d');
  fetch_chunk_ok : ∀ h d s, readable s → stored s h d →
    twp (fetch_chunk h) s (λ o s',
      o = Some d ∧ readable s' ∧ ∀ h' d', stored s h' d' → stored s' h' d');
}.

(** ** What a reference stands for *)

(** A tree is summed up by its leaves, from left to right, and by the heights of its branches
    that have no leaf below them (finishing a tree can create some). *)
Abbreviation summary := (list bytes * list nat)%type.

(** Branches without leaves come after every leaf. *)
Fixpoint trailing (l : list summary) : Prop :=
  match l with
  | [] => True
  | a :: l => (a.2 ≠ [] → Forall (λ b, b.1 = []) l) ∧ trailing l
  end.

Definition all_leaves (l : list summary) : list bytes := concat l.*1.
Definition all_bare (l : list summary) : list nat := concat l.*2.

(** A branch of height [n] above the trees [l]. *)
Definition merge (n : nat) (l : list summary) : summary :=
  (all_leaves l, (if decide (all_leaves l = []) then [n] else []) ++ all_bare l).

Lemma all_leaves_app l1 l2 : all_leaves (l1 ++ l2) = all_leaves l1 ++ all_leaves l2.
Proof. unfold all_leaves. by rewrite fmap_app, concat_app. Qed.

Lemma all_bare_app l1 l2 : all_bare (l1 ++ l2) = all_bare l1 ++ all_bare l2.
Proof. unfold all_bare. by rewrite fmap_app, concat_app. Qed.

Lemma all_leaves_one a : all_leaves [a] = a.1.
Proof. unfold all_leaves. simpl. by rewrite app_nil_r. Qed.

Lemma all_bare_one a : all_bare [a] = a.2.
Proof. unfold all_bare. simpl. by rewrite app_nil_r. Qed.

Lemma all_leaves_nil l : all_leaves l = [] ↔ Forall (λ b : summary, b.1 = []) l.
Proof.
  induction l as [|a l IH]; [done|]. rewrite (all_leaves_app [a] l : _ (a :: l) = _).
  rewrite all_leaves_one, Forall_cons, <- IH. split; [apply app_nil|]. by intros [-> ->].
Qed.

Lemma all_bare_nil l : all_bare l = [] ↔ Forall (λ b : summary, b.2 = []) l.
Proof.
  induction l as [|a l IH]; [done|]. rewrite (all_bare_app [a] l : _ (a :: l) = _).
  rewrite all_bare_one, Forall_cons, <- IH. split; [apply app_nil|]. by intros [-> ->].
Qed.

Lemma trailing_app l1 l2 :
  trailing (l1 ++ l2) ↔
  trailing l1 ∧ trailing l2 ∧ (all_bare l1 ≠ [] → Forall (λ b, b.1 = []) l2).
Proof.
  induction l1 as [|a l1 IH]; simpl; [naive_solver|].
  rewrite IH, Forall_app, (all_bare_app [a] l1 : _ (a :: l1) = _), all_bare_one.
  destruct a as [ls [|n tr]]; simpl; split.
  - naive_solver.
  - naive_solver.
  - intros (H1 & H2 & H3 & H4). split_and!; [|done..|].
    + intros _. by apply H1.
    + intros _. by apply H1.
  - intros ((H1 & H2) & H3 & H4). split_and!; [|done..|].
    + intros _. split; [by apply H1|by apply H4].
    + intros _. by apply H4.
Qed.

Lemma trailing_merge n l1 l2 : trailing (l1 ++ l2) → trailing (l1 ++ [merge n l2]).
Proof.
  rewrite !trailing_app. intros (H1 & H2 & H3). split_and!; [done|by simpl|].
  intros Hb%H3. apply Forall_singleton. simpl. by apply all_leaves_nil.
Qed.

Section repr.
Context {St : Type} `{HashTreeBackendLaws St} `{CborLaws Models.HashRefs}.
Implicit Types (s : St) (nd : summary) (lx : list summary) (lys : list (list summary)).

Definition later s s' : Prop := ∀ h d, stored s h d → stored s' h d.

#[global] Instance later_preorder : PreOrder later.
Proof. split; unfold later; [by intros ?|]. intros ???; eauto. Qed.

(** [h] is the root of a tree of height [n] summed up by [nd]. *)
Fixpoint repr s (lf : Models.LeafType) (n : nat) (h : tree.HashRef) nd : Prop :=
  tree.node h = chunk.NodeType_from_u64 (usize_as_u64 n) ∧ tree.leaf h = lf ∧
  tree.HashRef_wf h ∧
  match n with
  | O => ∃ d, stored s h d ∧ nd = ([d], [])
  | S m => ∃ refs lx, stored s h (tree.hash_refs_to_bytes refs) ∧
      Forall2 (repr s lf m) refs lx ∧ trailing lx ∧ nd = merge n lx
  end.

(** The tree behind [h] has the leaves [ls] (and at most one bare branch of each height). *)
Definition denotes s (lf : Models.LeafType) (h : tree.HashRef) (ls : list bytes) : Prop :=
  ∃ n bare, repr s lf n h (ls, bare) ∧ NoDup bare.

Lemma repr_node s lf n h nd : repr s lf n h nd →
  tree.node h = chunk.NodeType_from_u64 (usize_as_u64 n) ∧ tree.leaf h = lf ∧ tree.HashRef_wf h.
Proof. destruct n; intros (?&?&?&_); done. Qed.

Lemma repr_later s s' lf n h nd : later s s' → repr s lf n h nd → repr s' lf n h nd.
Proof.
  intros Hs. revert h nd. induction n as [|n IH]; intros h nd (Hn & Hl & Hw & Hr).
  - destruct Hr as (d & Hd & ->). split_and!; eauto.
  - destruct Hr as (refs & lx & Hd & Hf & Hr & ->). split_and!; [done..|].
    exists refs, lx. split_and!; eauto. eapply Forall2_impl; eauto.
Qed.

Lemma repr_norm s lf n h nd : repr s lf n h nd → repr s lf n (tree.norm h) nd.
Proof.
  destruct n; intros (Hn & Hl & Hw & Hr).
  - destruct Hr as (d & Hd & ->).
    split_and!; [done|done|by apply tree.norm_wf|eauto using stored_norm].
  - destruct Hr as (refs & lx & Hd & Hf & Hr & ->).
    split_and!; [done|done|by apply tree.norm_wf|]. exists refs, lx. eauto using stored_norm.
Qed.

Lemma denotes_later s s' lf h ls : later s s' → denotes s lf h ls → denotes s' lf h ls.
Proof. intros Hl (n & bare & Hr & Hnd). exists n, bare. split; [by eapply repr_later|done]. Qed.

Lemma denotes_norm s lf h ls : denotes s lf h ls → denotes s lf (tree.norm h) ls.
Proof. intros (n & bare & Hr & Hnd). exists n, bare. split; [by apply repr_norm|done]. Qed.

Lemma denotes_wf s lf h ls : denotes s lf h ls → tree.HashRef_wf h.
Proof. intros (n & bare & Hr & _). by apply repr_node in Hr as (_ & _ & ?). Qed.

(** *** The levels of a writer, from some level up *)

Fixpoint levels_repr s lf (lvl : nat) (suf : list (list (Z * tree.HashRef))) lys : Prop :=
  match suf, lys with
  | [], [] => True
  | x :: suf, lx :: lys => Forall2 (repr s lf lvl) x.*2 lx ∧ levels_repr s lf (S lvl) suf lys
  | _, _ => False
  end.

(** Their trees in order: those of the upper levels come first. *)
Fixpoint flat lys : list summary :=
  match lys with
  | [] => []
  | lx :: lys => flat lys ++ lx
  end.

(** No level is full, no entry is without leaves, and the top level is not empty. *)
Definition good_level (o : nat) lx : Prop :=
  length lx < o ∧ Forall (λ nd, nd.1 ≠ []) lx.

Definition good (o : nat) lys : Prop :=
  Forall (good_level o) lys ∧ last lys ≠ Some [].

Lemma levels_repr_later s s' lf lvl suf lys :
  later s s' → levels_repr s lf lvl suf lys → levels_repr s' lf lvl suf lys.
Proof.
  intros Hs. revert lvl lys. induction suf as [|x suf IH]; intros lvl [|lx lys]; simpl; try done.
  intros [Hx Hr]. split; [|by apply IH]. eapply Forall2_impl; [done|].
  intros; by eapply repr_later.
Qed.

Lemma levels_repr_length s lf lvl suf lys :
  levels_repr s lf lvl suf lys → length suf = length lys.
Proof.
  revert lvl lys. induction suf as [|x suf IH]; intros lvl [|lx lys]; simpl; try done.
  intros [_ Hr]. f_equal. eauto.
Qed.

Lemma level_length s lf lvl (x : list (Z * tree.HashRef)) lx :
  Forall2 (repr s lf lvl) x.*2 lx → length x = length lx.
Proof. intros Hx%Forall2_length. by rewrite length_fmap in Hx. Qed.

(** *** Appending *)

Lemma swap_remove_snoc {A} (pre suf : list A) x y :
  swap_remove (length pre) ((pre ++ x :: suf) ++ [y]) = Ok (x, pre ++ y :: suf).
Proof.
  unfold swap_remove. rewrite lookup_app_l by (rewrite length_app; simpl; lia).
  rewrite list_lookup_middle by done. cbn [expect mbind res_bind].
  rewrite last_snoc. cbn [expect mbind res_bind]. do 2 f_equal.
  rewrite <- app_assoc, insert_app_r_alt, Nat.sub_diag by lia. simpl.
  rewrite !length_app. simpl. rewrite length_app. simpl.
  replace (length pre + S (length suf + 1) - 1) with (length pre + S (length suf)) by lia.
  rewrite take_app_add. simpl. by rewrite take_app_length.
Qed.

(** The levels after the tree [nd] was put on the lowest of the levels [suf], whose trees were
    [old]. *)
Record appended (o : nat) (suf : list (list (Z * tree.HashRef))) (old : list summary) nd
    (suf' : list (list (Z * tree.HashRef))) lys' : Prop := {
  app_leaves : all_leaves (flat lys') = all_leaves old ++ nd.1;
  app_bare : all_bare (flat lys') = all_bare old ++ nd.2;
  app_trailing : trailing (flat lys');
  app_shape : ∃ lx lys, lys' = lx :: lys ∧ length lx < o ∧
    (nd.1 ≠ [] → Forall (λ nd, nd.1 ≠ []) lx) ∧ Forall (good_level o) lys;
  app_last : last lys' ≠ Some [];
  app_length : length suf' = length suf ∨
    ∃ root, suf' = replicate (length suf) [] ++ [[root]];
}.

(** The state after it. *)
Definition append_post (w : SimpleHashTreeWriter) s
    (pre suf : list (list (Z * tree.HashRef))) (old : list summary) nd
    (ws : SimpleHashTreeWriter * St) : Prop :=
  let '(w', s') := ws in
  order w' = order w ∧ leaf_type w' = leaf_type w ∧ backend_ok s' ∧ later s s' ∧
  ∃ suf' lys', levels w' = pre ++ suf' ∧
    levels_repr s' (leaf_type w) (length pre) suf' lys' ∧ appended (order w) suf old nd suf' lys'.

(** A level that does not fill up takes the entry, and nothing else changes. *)
Lemma append_hashref_at_push coll pre x suf id h info w s :
  levels w = pre ++ x :: suf → length x + 1 ≠ order w →
  append_hashref_at coll (length pre) id h info (w, s) =
    (Ok (), (set_levels (pre ++ (x ++ [(id, h)]) :: suf) w, s)).
Proof.
  intros Hw Ho. unfold append_hashref_at. run_pure. rewrite Hw.
  run_assert ltac:(rewrite length_app; simpl; lia). run_pure.
  assert (grow_to (length pre) w = w) as Hg.
  { destruct w as [o l ls]. unfold grow_to, set_levels. simpl in *. f_equal.
    rewrite Hw, length_app. simpl.
    replace (length pre + 1 - _) with 0 by lia. simpl. by rewrite app_nil_r. }
  rewrite Hg. rewrite (bind_lift _ _ _ x) by (by rewrite Hw, list_lookup_middle).
  run_pure. rewrite Hw, insert_app_r_alt, Nat.sub_diag by lia.
  rewrite decide_False by (rewrite length_app; simpl; lia). done.
Qed.

Lemma append_hashref_at_new coll pre id h info w s :
  levels w = pre → 2 ≤ order w →
  append_hashref_at coll (length pre) id h info (w, s) =
    (Ok (), (set_levels (pre ++ [[(id, h)]]) w, s)).
Proof.
  intros Hw Ho. unfold append_hashref_at. run_pure. rewrite Hw.
  run_assert ltac:(lia). run_pure.
  assert (levels (grow_to (length pre) w) = pre ++ [[]]) as Hg.
  { unfold grow_to. simpl. rewrite Hw. by replace (length pre + 1 - length pre) with 1 by lia. }
  rewrite (bind_lift _ _ _ []) by (by rewrite Hg, list_lookup_middle).
  run_pure. rewrite Hg, insert_app_r_alt, Nat.sub_diag by lia.
  rewrite decide_False by (simpl; lia). done.
Qed.

(** A level that fills up is collapsed. *)
Lemma append_hashref_at_full coll pre x suf id h info w s :
  levels w = pre ++ x :: suf → length x + 1 = order w →
  append_hashref_at coll (length pre) id h info (w, s) =
    coll (length pre) info (set_levels (pre ++ (x ++ [(id, h)]) :: suf) w, s).
Proof.
  intros Hw Ho. unfold append_hashref_at. run_pure. rewrite Hw.
  run_assert ltac:(rewrite length_app; simpl; lia). run_pure.
  assert (grow_to (length pre) w = w) as Hg.
  { destruct w as [o l ls]. unfold grow_to, set_levels. simpl in *. f_equal.
    rewrite Hw, length_app. simpl.
    replace (length pre + 1 - _) with 0 by lia. simpl. by rewrite app_nil_r. }
  rewrite Hg. rewrite (bind_lift _ _ _ x) by (by rewrite Hw, list_lookup_middle).
  run_pure. rewrite Hw, insert_app_r_alt, Nat.sub_diag by lia.
  rewrite decide_True by (rewrite length_app; simpl; lia). done.
Qed.

(** Collapsing a level inserts its branch and appends that one level up. *)
Lemma collapse_level_run fuel pre x suf info w s lx (Q : () → _ → Prop) :
  levels w = pre ++ x :: suf → backend_ok s →
  Forall2 (repr s (leaf_type w) (length pre)) x.*2 lx → trailing lx →
  (∀ id h s', backend_ok s' → later s s' →
    repr s' (leaf_type w) (S (length pre)) h (merge (S (length pre)) lx) →
    wp (append_hashref_at (collapse_level fuel) (length (pre ++ [[]])) id h info)
      (set_levels ((pre ++ [[]]) ++ suf) w, s') Q) →
  wp (collapse_level (S fuel) (length pre) info) (w, s) Q.
Proof.
  intros Hw Hs Hx Hr HQ. cbn [collapse_level].
  apply wp_bind. eapply wp_Ok; [reflexivity|]. cbn [fst].
  apply wp_bind. eapply wp_Ok.
  { unfold lift. rewrite assert_Ok; [reflexivity|]. rewrite Hw, length_app. simpl. lia. }
  apply wp_bind. eapply wp_Ok.
  { unfold lift. by rewrite Hw, swap_remove_snoc. }
  apply wp_bind. eapply wp_Ok; [reflexivity|]. cbn [fst snd lset fst_lens lget].
  unfold append_at. apply wp_bind. eapply wp_Ok; [reflexivity|]. cbn [fst].
  apply wp_bind. apply wp_zoom. eapply wp_mono; [apply insert_chunk_ok|].
  { done. }
  { unfold usize_as_u64, chunk.NodeType_from_u64. destruct (length pre); done. }
  intros [id h] s' (Hs' & Hst & Hn & Hl & Hwf & Hlater). cbn [lset snd_lens fst].
  replace (length pre + 1) with (length (pre ++ [[] : list (Z * tree.HashRef)]))
    by (rewrite length_app; simpl; lia).
  replace (pre ++ [] :: suf) with ((pre ++ [[]]) ++ suf) by (by rewrite <- app_assoc).
  apply HQ; [done|done|]. cbn [repr]. split_and!; [|done..|].
  - rewrite Hn. f_equal. unfold usize_as_u64. lia.
  - exists x.*2, lx. split_and!; [done| |done..]. eapply Forall2_impl; [done|].
    intros; by eapply repr_later.
Qed.

(** One more empty level below. *)
Lemma appended_cons_nil o k x suf old nd lx suf' lys' :
  appended o suf old (merge k (lx ++ [nd])) suf' lys' → lx ≠ [] →
  Forall (λ nd, nd.1 ≠ []) lx →
  appended o (x :: suf) (old ++ lx) nd ([] :: suf') ([] :: lys').
Proof.
  intros [Hl Hb Ht (ly & lys & -> & Ho & Hne & Hg) Hlast Hlen] Hlx Hx.
  assert (all_leaves (lx ++ [nd]) ≠ []) as Hnn.
  { intros Hnil. apply all_leaves_nil, Forall_app in Hnil as [Hnil _].
    destruct lx as [|a lx]; [done|]. apply Forall_cons in Hnil as [? _].
    by apply Forall_cons in Hx as [? _]. }
  unfold merge in *. rewrite decide_False in * by done. simpl in Hl, Hb, Hne.
  rewrite (all_leaves_app lx [nd]), all_leaves_one in Hl.
  rewrite (all_bare_app lx [nd]), all_bare_one in Hb.
  split.
  - simpl. by rewrite app_nil_r, (all_leaves_app old), Hl, app_assoc.
  - simpl. by rewrite app_nil_r, (all_bare_app old), Hb, app_assoc.
  - simpl. by rewrite app_nil_r.
  - exists [], (ly :: lys). split_and!; [done|simpl; lia|by constructor|].
    constructor; [|done]. split; [done|]. by apply Hne.
  - done.
  - destruct Hlen as [Hlen|(root & ->)]; [left; simpl; lia|]. right. by exists root.
Qed.

(** A level that is not there yet, and one that has room, just take the entry. *)
Lemma append_new_ok coll pre nd id h info w s :
  levels w = pre → 2 ≤ order w → trailing [nd] → repr s (leaf_type w) (length pre) h nd → backend_ok s →
  wp (append_hashref_at coll (length pre) id h info) (w, s) (λ _, append_post w s pre [] [] nd).
Proof.
  intros Hw Ho Htr Hh Hs. eapply wp_Ok; [by apply append_hashref_at_new|].
  split_and!; [done..|]. exists [[(id, h)]], [[nd]]. split_and!; [done| |].
  - split; [|done]. by constructor.
  - split; [apply all_leaves_one|apply all_bare_one|done| |done|right; by exists (id, h)].
    exists [nd], []. split_and!; [done|simpl; lia| |done]. by constructor.
Qed.

Lemma append_room_ok coll pre x suf lx lys nd id h info w s :
  levels w = pre ++ x :: suf → length x + 1 ≠ order w →
  levels_repr s (leaf_type w) (length pre) (x :: suf) (lx :: lys) → good (order w) (lx :: lys) →
  trailing (flat (lx :: lys) ++ [nd]) → repr s (leaf_type w) (length pre) h nd → backend_ok s →
  wp (append_hashref_at coll (length pre) id h info) (w, s)
    (λ _, append_post w s pre (x :: suf) (flat (lx :: lys)) nd).
Proof.
  intros Hw Hroom [Hx Hlr] [[[Hlo Hne] Hgs]%Forall_cons Hlast] Htr Hh Hs.
  pose proof (level_length _ _ _ _ _ Hx) as Hlen. simpl in Htr. rewrite <- app_assoc in Htr.
  eapply wp_Ok; [by apply append_hashref_at_push|].
  split_and!; [done..|]. exists ((x ++ [(id, h)]) :: suf), ((lx ++ [nd]) :: lys).
  split_and!; [done| |].
  { split; [|done]. rewrite fmap_app. by apply Forall2_app; [|constructor]. }
  split.
  - simpl. by rewrite app_assoc, all_leaves_app, all_leaves_one.
  - simpl. by rewrite app_assoc, all_bare_app, all_bare_one.
  - done.
  - exists (lx ++ [nd]), lys. rewrite length_app. simpl.
    split_and!; [done|lia| |done]. intros. apply Forall_app. by split; [|constructor].
  - destruct lys; [|done]. simpl. by destruct lx.
  - by left.
Qed.

Lemma append_hashref_at_ok fuel pre suf lys nd id h info w s :
  length suf < fuel → 2 ≤ order w → levels w = pre ++ suf →
  levels_repr s (leaf_type w) (length pre) suf lys → good (order w) lys →
  trailing (flat lys ++ [nd]) → repr s (leaf_type w) (length pre) h nd → backend_ok s →
  wp (append_hashref_at (collapse_level fuel) (length pre) id h info) (w, s)
    (λ _, append_post w s pre suf (flat lys) nd).
Proof.
  revert pre suf lys nd id h w s. induction fuel as [|fuel IH];
    intros pre suf lys nd id h w s Hfuel Ho Hw Hlr Hg Htr Hh Hs; [lia|].
  destruct suf as [|x suf], lys as [|lx lys]; try done.
  - apply append_new_ok; [by rewrite app_nil_r in Hw|done..].
  - destruct (decide (length x + 1 = order w)) as [Hfull|Hroom]; [|by apply append_room_ok].
    destruct Hlr as [Hx Hlr]. destruct Hg as [[[Hlo Hne] Hgs]%Forall_cons Hlast].
    pose proof (level_length _ _ _ _ _ Hx) as Hlen.
    assert (Forall2 (repr s (leaf_type w) (length pre)) (x ++ [(id, h)]).*2 (lx ++ [nd])) as Hx'.
    { rewrite fmap_app. by apply Forall2_app; [|constructor]. }
    simpl in Htr. rewrite <- app_assoc in Htr. pose proof Htr as (_ & Htr' & _)%trailing_app.
    eapply wp_run; [by apply append_hashref_at_full|].
    eapply collapse_level_run with (lx := lx ++ [nd]); [done..|].
    intros id' h' s' Hs' Hlater Hh'.
    eapply wp_mono; [apply (IH (pre ++ [[]]) suf lys (merge (S (length pre)) (lx ++ [nd])))|].
    + simpl in Hfuel. lia.
    + done.
    + done.
    + rewrite length_app, Nat.add_1_r. by eapply levels_repr_later.
    + split; [done|]. destruct lys; [done|]. exact Hlast.
    + by apply trailing_merge.
    + by rewrite length_app, Nat.add_1_r.
    + done.
    + intros _ [w2 s2] (Ho2 & Hl2 & Hs2 & Hla & suf' & lys' & Hw2 & Hlr2 & Happ).
      split_and!; [done..|by etrans|]. exists ([] :: suf'), ([] :: lys').
      rewrite length_app, Nat.add_1_r in Hlr2.
      split_and!; [by rewrite Hw2, <- app_assoc|by split|].
      eapply appended_cons_nil; [done| |done]. intros ->. simpl in *. lia.
Qed.

(** The state of a writer between two appends: [ls] was appended so far. *)
Definition Writer_ok (w : SimpleHashTreeWriter) s (ls : list bytes) : Prop :=
  2 ≤ order w ∧ backend_ok s ∧ ∃ lys, levels_repr s (leaf_type w) 0 (levels w) lys ∧
    good (order w) lys ∧ all_leaves (flat lys) = ls ∧ all_bare (flat lys) = [] ∧
    trailing (flat lys) ∧ (levels w = [] ↔ ls = []).

Lemma Writer_new_ok lf o s : 2 ≤ o → backend_ok s → Writer_ok (Writer_new lf o) s [].
Proof. intros. split_and!; [done..|]. exists []. split_and!; try done. Qed.

Lemma Writer_later w s s' ls : backend_ok s' → later s s' → Writer_ok w s ls → Writer_ok w s' ls.
Proof.
  intros Hs' Hl (Ho & _ & lys & Hr & Hrest). split_and!; [done..|]. exists lys.
  split; [by eapply levels_repr_later|done].
Qed.

Lemma append_wp chunk w s ls :
  Writer_ok w s ls →
  wp (append chunk) (w, s) (λ _ '(w', s'),
    Writer_ok w' s' (ls ++ [chunk]) ∧ order w' = order w ∧ leaf_type w' = leaf_type w ∧
    later s s').
Proof.
  intros (Ho & Hs & lys & Hlr & Hg & <- & Hb & Ht & _). unfold append.
  apply wp_bind. eapply wp_Ok; [reflexivity|]. cbn [fst]. unfold append_at.
  apply wp_bind. eapply wp_Ok; [reflexivity|]. cbn [fst].
  apply wp_bind, wp_zoom. eapply wp_mono; [by apply insert_chunk_ok|].
  intros [id h] s' (Hs' & Hst & Hn & Hl & Hwf & Hlater). cbn [lset snd_lens fst].
  eapply wp_mono; [apply (append_hashref_at_ok _ [] (levels w) lys ([chunk], []))|].
  - unfold collapse_fuel. lia.
  - done.
  - done.
  - by eapply levels_repr_later.
  - done.
  - apply trailing_app. by rewrite Hb.
  - split_and!; [done..|]. by exists chunk.
  - done.
  - intros _ [w' s''] (Ho' & Hl' & Hs'' & Hla & suf' & lys' & Hw' & Hlr' & Happ).
    destruct Happ as [Hls Hb' Ht' (lx & lys0 & -> & Hlx & Hne & Hgs) Hlast _].
    split_and!; [|done|done|by etrans]. split; [by rewrite Ho'|]. split; [done|].
    exists (lx :: lys0). rewrite Hw', Hl', Ho'. split_and!; [done| |done| |done|].
    + split; [|done]. constructor; [|done]. split; [done|]. by apply Hne.
    + by rewrite Hb', Hb.
    + split; [by destruct suf'|]. intros Hnil. by apply app_nil in Hnil as [_ ?].
Qed.

(** *** Finishing: the loop of [hash] *)

Lemma levels_repr_replicate s lf lvl l suf lys :
  levels_repr s lf lvl (replicate l [] ++ suf) lys →
  ∃ lys2, lys = replicate l [] ++ lys2 ∧ levels_repr s lf (lvl + l) suf lys2 ∧
    flat lys = flat lys2.
Proof.
  revert lvl lys. induction l as [|l IH]; intros lvl lys; simpl.
  - exists lys. by rewrite Nat.add_0_r.
  - destruct lys as [|lx lys]; [done|]. intros [Hx (lys2 & -> & Hr & Hl)%IH].
    apply Forall2_nil_inv_l in Hx as ->. exists lys2. rewrite Nat.add_succ_r. split_and!; [done..|].
    simpl. by rewrite app_nil_r.
Qed.

Lemma levels_repr_last s lf lvl suf lys :
  levels_repr s lf lvl suf lys → last lys ≠ Some [] → last suf ≠ Some [].
Proof.
  revert lvl lys. induction suf as [|x suf IH]; intros lvl [|lx lys]; try done.
  intros [Hx Hr] Hl. destruct suf as [|y suf], lys as [|ly lys]; try done.
  - simpl in *. intros [= ->]. apply Forall2_nil_inv_l in Hx as ->. done.
  - by eapply IH.
Qed.

Lemma count_empty_split {A} (l : list (list A)) :
  l ≠ [] → last l ≠ Some [] → ∃ x ys, l = replicate (count_empty l) [] ++ x :: ys.
Proof.
  induction l as [|[|a x] l IH]; intros Hn Hl; [done|..].
  - destruct l as [|y l]; [done|]. destruct IH as (x & ys & E); [done|done|].
    exists x, ys. change (count_empty ([] :: y :: l)) with (S (count_empty (y :: l))).
    simpl replicate. rewrite <- app_comm_cons. by f_equal.
  - by exists (a :: x), l.
Qed.

(** Before the loop's round for level [l], below the top level [T] it started with: either no
    new top level was made, or there is one, with the root, and nothing but branches without
    leaves is left below it. *)
Definition loop_inv (lf : Models.LeafType) (o T : nat) (ls : list bytes) (l : nat)
    (ws : SimpleHashTreeWriter * St) : Prop :=
  let '(w, s) := ws in
  l ≤ T ∧ order w = o ∧ leaf_type w = lf ∧ backend_ok s ∧
  ∃ x ys lx lys, levels w = replicate l [] ++ x :: ys ∧
    levels_repr s lf l (x :: ys) (lx :: lys) ∧
    (all_leaves (flat (lx :: lys)) = ls ∧ trailing (flat (lx :: lys)) ∧
     NoDup (all_bare (flat (lx :: lys))) ∧ Forall (λ n, n ≤ l) (all_bare (flat (lx :: lys)))) ∧
    ((length ys = T - l ∧ length lx < o ∧ Forall (good_level o) lys ∧ last (lx :: lys) ≠ Some []) ∨
     (∃ root, ys = replicate (T - l) [] ++ [[root]] ∧ length lx ≤ 1 ∧ all_leaves lx = [])).

Lemma replicate_snoc {A} n (x : A) : replicate n x ++ [x] = replicate (S n) x.
Proof. rewrite <- replicate_cons_app. done. Qed.

(** Merging the lowest trees into a branch one level up keeps the sequence's properties. *)
Lemma merge_flat l lx old :
  trailing (old ++ lx) → NoDup (all_bare (old ++ lx)) →
  Forall (λ n, n ≤ l) (all_bare (old ++ lx)) →
  let m := merge (S l) lx in
  all_leaves (old ++ [m]) = all_leaves (old ++ lx) ∧ trailing (old ++ [m]) ∧
  NoDup (all_bare (old ++ [m])) ∧ Forall (λ n, n ≤ S l) (all_bare (old ++ [m])).
Proof.
  intros Ht Hnd Hle m. rewrite !all_leaves_app, all_leaves_one. rewrite !all_bare_app in *.
  rewrite all_bare_one. split; [done|]. split; [by apply trailing_merge|].
  assert (all_bare old ++ m.2 ≡ₚ
    (if decide (all_leaves lx = []) then [S l] else []) ++ all_bare old ++ all_bare lx) as ->.
  { simpl. rewrite !(assoc_L (++)). f_equiv. apply Permutation_app_comm. }
  assert (Forall (λ n, n ≤ S l) (all_bare old ++ all_bare lx)) as Hle'.
  { eapply Forall_impl; [done|]. simpl. lia. }
  case_decide; simpl; [|done]. split; [|by constructor]. constructor; [|done].
  intros Hin. eapply Forall_forall in Hle; [|done]. simpl in Hle. lia.
Qed.

(** Going up one level: the levels from [l] on, without what has been merged into [h]. *)
Definition lifted (lf : Models.LeafType) (o T : nat) (ls : list bytes) (l : nat)
    (w : SimpleHashTreeWriter) s ys lys h nd : Prop :=
  l ≤ T ∧ 2 ≤ o ∧ order w = o ∧ leaf_type w = lf ∧ backend_ok s ∧
  levels w = replicate l [] ++ ys ∧ levels_repr s lf l ys lys ∧ repr s lf l h nd ∧
  all_leaves (flat lys ++ [nd]) = ls ∧ trailing (flat lys ++ [nd]) ∧
  NoDup (all_bare (flat lys ++ [nd])) ∧ Forall (λ n, n ≤ l) (all_bare (flat lys ++ [nd])).

(** The reference is appended to the levels that are filled, *)
Lemma round_append lf o T ls l w s ys lys id h nd fuel :
  lifted lf o T ls l w s ys lys h nd → length ys < fuel → length ys = S (T - l) → good o lys →
  wp (append_hashref_at (collapse_level fuel) l id h None) (w, s)
    (λ _ ws, loop_inv lf o T ls l ws ∧ later s ws.2).
Proof.
  intros (HlT & Ho & <- & <- & Hs & Hw & Hlr & Hh & Mls & Mtr & Mnd & Mle) Hfuel Hlen Hg.
  assert (length (replicate l ([] : list (Z * tree.HashRef))) = l) as Hrep
    by apply length_replicate.
  eapply wp_mono; [refine (eq_ind _ (λ k, wp (append_hashref_at _ k _ _ _) _ _)
    (append_hashref_at_ok _ (replicate l []) ys lys nd _ _ _ _ _ _ _ _ _ _ _ _ _) _ Hrep)|];
    rewrite ?Hrep; [done..|].
  intros _ [w2 s2] (Ho2 & Hl2 & Hs2 & Hla2 & suf' & lys' & Hw2 & Hlr2 & Happ).
  destruct Happ as [Hls' Hb' Htr' (ly & lys2 & -> & Hly & _ & Hgs') Hlast' Hlen'].
  rewrite Hrep in Hlr2. split; [|done].
  destruct suf' as [|y suf']; [done|]. split_and!; [done..|].
  exists y, suf', ly, lys2. split; [exact Hw2|]. split; [exact Hlr2|]. split.
  { rewrite all_leaves_app, all_leaves_one in Mls.
    rewrite all_bare_app, all_bare_one in Mnd, Mle.
    rewrite Hls', Hb', Mls. done. }
  destruct Hlen' as [Hlen'|(root & Hsuf)]; [left; simpl in Hlen'; split_and!; [lia|done..]|].
  right. exists root. rewrite Hlen in Hsuf.
  injection Hsuf as -> ->. split; [done|]. destruct Hlr2 as [Hy _].
  apply Forall2_nil_inv_l in Hy as ->. simpl. split; [lia|done].
Qed.

(** and is alone in its level below the root otherwise. *)
Lemma round_root lf o T ls l w s root lys id h nd fuel :
  lifted lf o T ls l w s (replicate (S (T - l)) [] ++ [[root]]) lys h nd → nd.1 = [] →
  wp (append_hashref_at (collapse_level fuel) l id h None) (w, s)
    (λ _ ws, loop_inv lf o T ls l ws ∧ later s ws.2).
Proof.
  intros (HlT & Ho & <- & <- & Hs & Hw & Hlr & Hh & Mls & Mtr & Mnd & Mle) Hnil.
  destruct lys as [|ly lys]; [done|]. destruct Hlr as [Hy Hlr].
  apply Forall2_nil_inv_l in Hy as ->. simpl flat in *. rewrite app_nil_r in *.
  eapply wp_Ok.
  { pose proof (append_hashref_at_push (collapse_level fuel) (replicate l []) []
      (replicate (T - l) [] ++ [[root]]) id h None w s Hw) as Hpush.
    rewrite length_replicate in Hpush. apply Hpush. simpl. lia. }
  split; [|done]. split_and!; [done..|]. eexists _, _, [nd], lys. split; [done|].
  split_and!; [|done..|].
  { split; [by constructor|exact Hlr]. }
  right. exists root. split_and!; [done|simpl; lia|].
  by rewrite all_leaves_one.
Qed.

Lemma loop_round lf o T ls l w s :
  2 ≤ o → l < T → loop_inv lf o T ls l (w, s) →
  wp (collapse l None) (w, s) (λ _ ws, loop_inv lf o T ls (S l) ws ∧ later s ws.2).
Proof.
  intros Ho HlT (_ & <- & <- & Hs & x & ys & lx & lys & Hw & [Hx Hlr] & Hflat & Hcase).
  simpl flat in Hflat. destruct Hflat as (Hls & Htr & Hnd & Hle).
  unfold collapse. apply wp_bind. eapply wp_Ok; [reflexivity|]. cbn [fst].
  unfold collapse_fuel. rewrite Nat.add_succ_r.
  assert (length (replicate l ([] : list (Z * tree.HashRef))) = l) as Hrep
    by apply length_replicate.
  match goal with |- wp _ _ ?Q => set (Q0 := Q) end.
  refine (eq_ind _ (λ k, wp (collapse_level _ k None) _ Q0) _ _ Hrep). subst Q0.
  eapply collapse_level_run with (lx := lx); [done|done|by rewrite Hrep| |].
  { by apply trailing_app in Htr as (_ & ? & _). }
  intros id h s' Hs' Hla Hh. rewrite replicate_snoc, length_replicate. rewrite Hrep in Hh.
  set (w1 := set_levels _ w).
  destruct (merge_flat l lx (flat lys) Htr Hnd Hle) as (Mls & Mtr & Mnd & Mle).
  assert (lifted (leaf_type w) (order w) T ls (S l) w1 s' ys lys h (merge (S l) lx)) as Hlift.
  { split_and!; try done; [by eapply levels_repr_later|by rewrite Mls]. }
  apply wp_mono with (Q := λ _ ws, loop_inv (leaf_type w) (order w) T ls (S l) ws ∧ later s' ws.2);
    [|intros _ ws [Hinv Hlater]; split; [exact Hinv|by etrans]].
  destruct Hcase as [(Hlen & Hlo & Hgs & Hlast)|(root & -> & Hle1 & Hnil)].
  - apply (round_append _ _ _ _ _ _ _ ys lys _ _ _ _ Hlift).
    + rewrite Hw, length_app. simpl. lia.
    + lia.
    + split; [done|]. destruct lys; [|exact Hlast].
      apply levels_repr_length in Hlr. simpl in *. lia.
  - replace (T - l) with (S (T - S l)) in Hlift by lia.
    apply (round_root _ _ _ _ _ _ _ root lys _ _ _ _ Hlift). done.
Qed.

(** The source drops the [Result] of each round; no round fails. *)
Lemma loop_rounds lf o T ls l n w s :
  2 ≤ o → l + n = T → loop_inv lf o T ls l (w, s) →
  wp (for_each (λ l, attempt (collapse l None) ;; mret ()) (seq l n)) (w, s)
    (λ _ ws, loop_inv lf o T ls T ws ∧ later s ws.2).
Proof.
  intros Ho. revert l w s. induction n as [|n IH]; intros l w s HT Hinv; simpl.
  - rewrite Nat.add_0_r in HT. by subst.
  - apply wp_bind, wp_bind, wp_attempt.
    eapply wp_mono; [apply loop_round; [done| |done]|]; [lia|].
    intros _ [w' s'] [Hinv' Hla]. eapply wp_Ok; [reflexivity|].
    eapply wp_mono; [apply IH; [lia|done]|]. intros _ ws [? ?]. split; [done|]. by etrans.
Qed.

(** The end of [hash], once the loop is done. *)
Definition finish (info : option key.Info) : M (SimpleHashTreeWriter * St) tree.HashRef :=
  w ← gets fst;
  top ← lift (expect (top_level w));
  top_v ← lift (expect (levels w !! top));
  (if decide (is_Some info ∨ 1 < length top_v) then collapse top info else mret ()) ;;
  w ← gets fst;
  lift (assert_ (length <$> last (levels w) = Some 1)) ;;
  '(_, hashref) ← lift (expect (last (levels w) ≫= last));
  mret hashref.

Lemma top_level_snoc w pre x :
  levels w = pre ++ [x] → top_level w = Some (length pre) ∧ levels w !! length pre = Some x.
Proof.
  intros Hw. split; [|by rewrite Hw, list_lookup_middle].
  unfold top_level. rewrite Hw. destruct (pre ++ [x]) eqn:E; [by destruct pre|].
  rewrite <- E, length_app. simpl. f_equal. lia.
Qed.

Lemma finish_wp info w s pre x lx :
  levels w = pre ++ [x] → 2 ≤ order w → backend_ok s → x ≠ [] → trailing lx →
  NoDup (all_bare lx) → Forall (λ n, n ≤ length pre) (all_bare lx) →
  Forall2 (repr s (leaf_type w) (length pre)) x.*2 lx →
  wp (finish info) (w, s) (λ root '(w', s'),
    backend_ok s' ∧ later s s' ∧ denotes s' (leaf_type w) root (all_leaves lx)).
Proof.
  intros Hw Ho Hs Hx Htr Hnd Hle Hr. destruct (top_level_snoc w pre x Hw) as [Htop Hlook].
  unfold finish. apply wp_bind. eapply wp_Ok; [reflexivity|]. cbn [fst].
  apply wp_bind. eapply wp_Ok; [unfold lift; by rewrite Htop|].
  apply wp_bind. eapply wp_Ok; [unfold lift; by rewrite Hlook|].
  assert (∀ root w' s', last (levels w') = Some [root] →
    (gets fst ≫= λ w, lift (assert_ (length <$> last (levels w) = Some 1)) ≫= λ _,
     lift (expect (last (levels w) ≫= last)) ≫= λ '(_, hashref), mret hashref) (w', s')
    = (Ok root.2 : res tree.HashRef, (w', s'))) as Hend.
  { intros [i h] w' s' Hl. run_pure. rewrite Hl. run_assert done. done. }
  apply wp_bind. case_decide as Hdec.
  - unfold collapse. apply wp_bind. eapply wp_Ok; [reflexivity|]. cbn [fst].
    unfold collapse_fuel. rewrite Nat.add_succ_r.
    eapply collapse_level_run with (lx := lx); [done|done|done|done|].
    intros id h s' Hs' Hla Hh. rewrite app_nil_r.
    eapply wp_Ok; [by apply append_hashref_at_new|].
    eapply wp_Ok; [apply (Hend (id, h)); simpl; by rewrite last_snoc|].
    split_and!; [done..|]. eexists _, _. split; [exact Hh|].
    destruct (merge_flat (length pre) lx [] Htr Hnd Hle) as (_ & _ & Hm & _).
    by rewrite all_bare_app, all_bare_one in Hm.
  - eapply wp_Ok; [reflexivity|]. assert (length x = 1) as Hx1.
    { destruct x as [|? [|??]]; [done..|]. exfalso. apply Hdec. right. simpl. lia. }
    destruct x as [|[i h] [|??]]; try done.
    destruct lx as [|[ls tr] [|??]]; [by inversion Hr| |by apply Forall2_length in Hr].
    eapply wp_Ok; [apply (Hend (i, h)); by rewrite Hw, last_snoc|].
    split_and!; [done..|]. exists (length pre), tr. rewrite all_leaves_one.
    rewrite all_bare_one in Hnd. split; [|done]. by apply Forall2_cons in Hr as [? _].
Qed.

(** An empty stream counts as one empty chunk. *)
Definition stream (ls : list bytes) : list bytes := if decide (ls = []) then [[]] else ls.

Lemma finish_inv lf o T ls info w s :
  2 ≤ o → loop_inv lf o T ls T (w, s) →
  wp (finish info) (w, s) (λ root '(w', s'),
    backend_ok s' ∧ later s s' ∧ denotes s' lf root ls).
Proof.
  intros Ho (_ & <- & <- & Hs & x & ys & lx & lys & Hw & [Hx Hlr] & Hflat & Hcase).
  rewrite Nat.sub_diag in Hcase. destruct Hflat as (<- & Htr & Hnd & Hle).
  assert (length (replicate T ([] : list (Z * tree.HashRef))) = T) as Hrep
    by apply length_replicate.
  destruct Hcase as [(Hys & Hlo & _ & Hlast)|(root & -> & Hle1 & Hnil)].
  - destruct ys; [|done]. destruct lys; [|done]. simpl flat in *.
    eapply finish_wp; [done|done|done| |done|done|by rewrite Hrep|by rewrite Hrep].
    intros ->. apply Forall2_nil_inv_l in Hx as ->. done.
  - destruct lys as [|ly lys]; [done|]. destruct Hlr as [Hy Hlr]. destruct lys; [|done].
    simpl flat in *. rewrite all_leaves_app, Hnil, app_nil_r.
    rewrite all_bare_app in Hnd, Hle. apply Forall_app in Hle as [Hle _].
    eapply finish_wp with (pre := replicate T [] ++ [x]);
      [by rewrite <- app_assoc|done|done|done| | | |].
    + by apply trailing_app in Htr as (? & _).
    + by apply NoDup_app in Hnd as (? & _).
    + rewrite length_app, Hrep. eapply Forall_impl; [done|]. simpl. lia.
    + rewrite length_app, Hrep. simpl length. by rewrite Nat.add_1_r.
Qed.

Lemma hash_wp info w s ls :
  Writer_ok w s ls →
  wp (hash info) (w, s) (λ root '(w', s'),
    backend_ok s' ∧ later s s' ∧ denotes s' (leaf_type w) root (stream ls)).
Proof.
  intros Hw. unfold hash. apply wp_bind. eapply wp_Ok; [reflexivity|]. cbn [fst].
  apply wp_bind. eapply wp_mono with (Q := λ _ '(w', s'), Writer_ok w' s' (stream ls) ∧
    later s s' ∧ leaf_type w' = leaf_type w).
  { pose proof Hw as (_ & _ & lsss & _ & _ & _ & _ & _ & Hnil). unfold stream.
    case_decide as Hd; case_decide as Hd2; try (exfalso; tauto).
    - eapply wp_mono; [by apply append_wp|]. intros _ [w' s'] (? & ? & ? & ?). by subst.
    - eapply wp_Ok; [reflexivity|]. done. }
  assert (stream ls ≠ []) as Hne by (unfold stream; by case_decide).
  clear Hw. revert Hne. generalize (stream ls). clear ls. intros ls Hne _ [w' s'] (Hw & Hla & Hlf).
  destruct Hw as (Ho & Hs & lys0 & Hlr & [Hg Hlast] & Hls & Hb & Htr & Hnil). rewrite <- Hlf.
  apply wp_bind. eapply wp_Ok; [reflexivity|]. cbn [fst].
  destruct (count_empty_split (levels w')) as (x & ys & E);
    [tauto|by eapply levels_repr_last|].
  set (l := count_empty (levels w')) in *. set (T := l + length ys).
  assert (top_level w' = Some T) as Htop.
  { unfold top_level. rewrite E. destruct (replicate l [] ++ x :: ys) eqn:E2; [by destruct l|].
    rewrite <- E2, length_app, length_replicate. simpl. f_equal. unfold T. lia. }
  apply wp_bind. eapply wp_Ok; [unfold lift; by rewrite Htop|].
  rewrite E in Hlr. apply levels_repr_replicate in Hlr as (lys2 & -> & Hlr & Hl2).
  destruct lys2 as [|lx lys]; [done|]. apply Forall_app in Hg.
  destruct Hg as [_ [[Hlo Hall] Hgs]%Forall_cons]. rewrite Hl2 in Hls, Hb, Htr.
  apply wp_bind. eapply wp_mono; [apply (loop_rounds (leaf_type w') (order w') T ls)|].
  - done.
  - unfold T. lia.
  - split_and!; [unfold T; lia|done..|]. exists x, ys, lx, lys.
    split; [done|]. split; [exact Hlr|]. split.
    { rewrite Hb. split_and!; [done|done|constructor|done]. }
    left. split_and!; [unfold T; lia|done|done|]. intros Hl. by rewrite last_app, Hl in Hlast.
  - intros _ [w2 s2] [Hinv Hla2]. eapply wp_mono; [by eapply finish_inv|].
    intros root [w3 s3] (? & ? & ?). split_and!; [done| |done]. by repeat (etrans; [done|]).
Qed.

Lemma write_all_wp lf o chunks info s :
  2 ≤ o → backend_ok s →
  wp (write_all chunks info) (Writer_new lf o, s) (λ root '(w', s'),
    backend_ok s' ∧ later s s' ∧ denotes s' lf root (stream chunks)).
Proof.
  intros Ho Hs. unfold write_all. apply wp_bind.
  eapply (wp_for_each (λ l '(w', s'), ∃ done_, chunks = done_ ++ l ∧
    Writer_ok w' s' done_ ∧ leaf_type w' = lf ∧ later s s')).
  - intros x l [w' s'] (dn & -> & Hw & Hl & Hla). eapply wp_mono; [by apply append_wp|].
    intros _ [w2 s2] (? & ? & ? & ?). exists (dn ++ [x]). rewrite <- app_assoc.
    split_and!; [done|done|congruence|by etrans].
  - exists []. split_and!; [done|by apply Writer_new_ok|done|done].
  - intros [w' s'] (dn & E & Hw & <- & Hla). rewrite app_nil_r in E. subst dn.
    eapply wp_mono; [by apply hash_wp|]. intros root [w2 s2] (? & ? & ?).
    split_and!; [done|by etrans|done].
Qed.

(** *** Reading: one step of the loop *)

Definition no_cycle (c : option bytes) (h : tree.HashRef) : Prop := c ≠ Some (tree.hash h).

Lemma loop_leave fuel c href stk v s :
  resume_loop LeafVisitor (S fuel) c (mkWalk (LeaveBranch href :: stk) v s) =
  resume_loop LeafVisitor fuel c (mkWalk stk v s).
Proof. done. Qed.

Lemma loop_enter_cycle {B} c h (f : option bytes → M (WalkState St (list bytes)) B) ws :
  no_cycle c h →
  (match c with
   | None => mret (Some (tree.hash h))
   | Some hash => lift (assert_ (hash ≠ tree.hash h)) ;; mret c
   end ≫= f) ws = f (Some (default (tree.hash h) c)) ws.
Proof.
  destruct c as [hash|]; [|done]. intros Hc. rewrite bind_assoc. run_assert ltac:(congruence).
  done.
Qed.

Lemma loop_leaf fuel c h d stk v s s' :
  tree.node h = chunk.Leaf → no_cycle c h → fetch_chunk h s = (Ok (Some d), s') →
  resume_loop LeafVisitor (S fuel) c (mkWalk (Enter h :: stk) v s) =
  (Ok true, mkWalk stk (v ++ [d]) s').
Proof.
  intros Hn Hc Hf. cbn [resume_loop]. rewrite bind_gets. cbn [stack]. rewrite bind_zoom_modify.
  cbn [lset stack_lens]. rewrite loop_enter_cycle by done. rewrite Hn.
  rewrite (bind_Ok _ _ _ true (mkWalk stk v s)) by done.
  assert (fetch h (mkWalk stk v s) = (Ok d, mkWalk stk v s')) as Hfetch.
  { unfold fetch. erewrite bind_zoom by exact Hf. done. }
  rewrite (bind_Ok _ _ _ _ _ Hfetch). done.
Qed.

Lemma loop_branch fuel c h k refs stk v s s' :
  tree.node h = chunk.Branch k → no_cycle c h → Forall tree.HashRef_wf refs →
  fetch_chunk h s = (Ok (Some (tree.hash_refs_to_bytes refs)), s') →
  resume_loop LeafVisitor (S fuel) c (mkWalk (Enter h :: stk) v s) =
  resume_loop LeafVisitor fuel (Some (default (tree.hash h) c))
    (mkWalk ((Enter ∘ tree.norm <$> refs) ++ LeaveBranch h :: stk) v s').
Proof.
  intros Hn Hc Hwf Hf. cbn [resume_loop]. rewrite bind_gets. cbn [stack].
  rewrite bind_zoom_modify. cbn [lset stack_lens]. rewrite loop_enter_cycle by done. rewrite Hn.
  assert (fetch h (mkWalk stk v s) = (Ok (tree.hash_refs_to_bytes refs), mkWalk stk v s'))
    as Hfetch by (unfold fetch; erewrite bind_zoom by exact Hf; done).
  rewrite (bind_Ok _ _ _ _ _ Hfetch).
  rewrite (bind_lift _ _ _ _ (tree.hash_refs_from_to_bytes _ Hwf)).
  rewrite (bind_Ok _ _ _ true (mkWalk stk v s')) by done.
  rewrite bind_zoom_modify. cbn [lget lset stack_lens stack visitor backend].
  by rewrite list_fmap_compose.
Qed.

(** *** Reading: a subtree *)

Lemma repr_stored s lf n h nd : repr s lf n h nd → ∃ d, stored s h d.
Proof. destruct n; intros (_ & _ & _ & Hr); naive_solver. Qed.

(** Nodes of different heights have different hashes. *)
Lemma repr_hash_ne s lf n1 n2 h1 h2 nd1 nd2 :
  readable s → repr s lf n1 h1 nd1 → repr s lf n2 h2 nd2 → n1 ≠ n2 →
  tree.hash h1 ≠ tree.hash h2.
Proof.
  intros Hs H1' H2' Hne Hh.
  destruct (repr_stored _ _ _ _ _ H1') as [d1 Hd1], (repr_stored _ _ _ _ _ H2') as [d2 Hd2].
  pose proof (stored_inj s h1 d1 h2 d2 Hs Hd1 Hd2 Hh) as Hn.
  apply repr_node in H1' as [E1 _], H2' as [E2 _]. rewrite E1, E2 in Hn.
  unfold usize_as_u64, chunk.NodeType_from_u64 in Hn. destruct n1, n2; simpl in Hn; try done.
  injection Hn. lia.
Qed.

(** The loop's hash is that of a node of a height in [ns]. *)
Definition cycle_at s lf (c : option bytes) (P : nat → Prop) : Prop :=
  match c with
  | None => True
  | Some hash => ∃ n0 h0 nd0, hash = tree.hash h0 ∧ repr s lf n0 h0 nd0 ∧ P n0
  end.

Lemma cycle_no_cycle s lf c P n h nd :
  readable s → cycle_at s lf c P → repr s lf n h nd → ¬ P n → no_cycle c h.
Proof.
  intros Hs Hc Hh HP. destruct c as [hash|]; [|done].
  destruct Hc as (n0 & h0 & nd0 & -> & Hr & Hn0). intros [= E].
  eapply (repr_hash_ne s lf n0 n); eauto. by intros ->.
Qed.

Lemma cycle_at_later s s' lf c P : later s s' → cycle_at s lf c P → cycle_at s' lf c P.
Proof.
  intros Hs. destruct c; [|done]. intros (n0 & h0 & nd0 & ? & ? & ?).
  exists n0, h0, nd0. split_and!; [done|by eapply repr_later|done].
Qed.

Lemma cycle_at_next s lf c h n nd (P Q : nat → Prop) :
  cycle_at s lf c P → repr s lf n h nd → (∀ m, P m → Q m) → Q n →
  cycle_at s lf (Some (default (tree.hash h) c)) Q.
Proof.
  intros Hc Hr HPQ HQ. destruct c as [hash|]; simpl.
  - destruct Hc as (n0 & h0 & nd0 & ? & ? & ?). exists n0, h0, nd0. eauto.
  - exists n, h, nd. done.
Qed.

Lemma repr_wf_list s lf n refs lx :
  Forall2 (repr s lf n) refs lx → Forall tree.HashRef_wf refs.
Proof.
  intros Hf. eapply Forall2_Forall_l; [done|]. apply Forall_true. intros nd h Hr.
  by apply repr_node in Hr as (_ & _ & ?).
Qed.

Lemma node_branch n : ∃ k, chunk.NodeType_from_u64 (usize_as_u64 (S n)) = chunk.Branch k.
Proof. by eexists. Qed.

(** The items of a stack, without the branches to leave. *)
Fixpoint stack_repr s lf (stk : list StackItem) lx : Prop :=
  match stk with
  | [] => lx = []
  | LeaveBranch _ :: stk => stack_repr s lf stk lx
  | Enter h :: stk => ∃ n nd lx', lx = nd :: lx' ∧ repr s lf n h nd ∧ stack_repr s lf stk lx'
  end.

Lemma stack_repr_later s s' lf stk lx :
  later s s' → stack_repr s lf stk lx → stack_repr s' lf stk lx.
Proof.
  intros Hs. revert lx. induction stk as [|[h|h] stk IH]; intros lx; simpl; auto.
  intros (n & nd & lx' & -> & Hr & Hst). exists n, nd, lx'. eauto using repr_later.
Qed.

Lemma stack_repr_app s lf stk1 stk2 lx1 lx2 :
  stack_repr s lf stk1 lx1 → stack_repr s lf stk2 lx2 →
  stack_repr s lf (stk1 ++ stk2) (lx1 ++ lx2).
Proof.
  revert lx1. induction stk1 as [|[h|h] stk IH]; intros lx1; simpl.
  - by intros ->.
  - intros (n & nd & lx' & -> & Hr & Hst) H2. exists n, nd, (lx' ++ lx2). eauto.
  - eauto.
Qed.

Lemma stack_repr_enter s lf n refs lx :
  Forall2 (repr s lf n) refs lx → stack_repr s lf (Enter ∘ tree.norm <$> refs) lx.
Proof.
  induction 1 as [|h nd refs lx Hr Hf IH]; simpl; [done|].
  exists n, nd, lx. eauto using repr_norm.
Qed.

Abbreviation loop := (resume_loop LeafVisitor).

(** [passes c c' items s s']: the loop goes over [items] without reading a leaf. *)
Definition passes (c c' : option bytes) (items : list StackItem) (v : list bytes) s : Prop :=
  ∀ stk, ∃ k s', readable s' ∧ later s s' ∧ ∀ fuel,
    loop (k + fuel) c (mkWalk (items ++ stk) v s) = loop fuel c' (mkWalk stk v s').

Lemma cycle_at_impl s s' lf c (P Q : nat → Prop) :
  later s s' → (∀ n, P n → Q n) → cycle_at s lf c P → cycle_at s' lf c Q.
Proof.
  intros Hs HPQ. destruct c; [|done]. intros (n0 & h0 & nd0 & ? & ? & ?).
  exists n0, h0, nd0. split_and!; [done|by eapply repr_later|auto].
Qed.

Lemma not_in_l {A} (m : A) l1 l2 : m ∉ l1 ++ l2 → m ∉ l1.
Proof. rewrite elem_of_app. tauto. Qed.

Lemma not_in_r {A} (m : A) l1 l2 : m ∉ l1 ++ l2 → m ∉ l2.
Proof. rewrite elem_of_app. tauto. Qed.

Lemma items_leafless lf n hash v refs lx s :
  (∀ s h bare, readable s → repr s lf n h ([], bare) → NoDup bare →
    cycle_at s lf (Some hash) (λ m, m ∉ bare) →
    passes (Some hash) (Some hash) [Enter h] v s) →
  readable s → Forall2 (repr s lf n) refs lx → Forall (λ b, b.1 = []) lx →
  NoDup (all_bare lx) → cycle_at s lf (Some hash) (λ m, m ∉ all_bare lx) →
  passes (Some hash) (Some hash) (Enter ∘ tree.norm <$> refs) v s.
Proof.
  intros IH. revert lx s. induction refs as [|r refs IHr]; intros lx s Hs Hf Hls Hnd Hc stk.
  { exists 0, s. done. }
  destruct lx as [|[ls1 bare1] lx]; [by inversion Hf|]. apply Forall2_cons in Hf as [Hr Hf].
  apply Forall_cons in Hls as [Hnil Hls]. simpl in Hnil. subst ls1.
  change (all_bare (([], bare1) :: lx)) with (bare1 ++ all_bare lx) in *.
  apply NoDup_app in Hnd as (Hnd1 & _ & Hnd2).
  destruct (IH s (tree.norm r) bare1 Hs (repr_norm _ _ _ _ _ Hr) Hnd1)
    with (stk := (Enter ∘ tree.norm <$> refs) ++ stk) as (k1 & s2 & Hs2 & Hl2 & Hrun1).
  { eapply cycle_at_impl; [done| |done]. intros m. apply not_in_l. }
  destruct (IHr lx s2 Hs2) with (stk := stk) as (k2 & s3 & Hs3 & Hl3 & Hrun2).
  { eapply Forall2_impl; [done|]. intros; by eapply repr_later. }
  { done. } { done. }
  { eapply cycle_at_impl; [done| |done]. intros m. apply not_in_r. }
  exists (k1 + k2), s3. split_and!; [done|by etrans|]. intros fuel.
  rewrite <- Nat.add_assoc. etrans; [apply Hrun1|]. apply Hrun2.
Qed.

(** A tree without leaves is passed over. *)
Lemma enter_leafless lf n s h bare c v :
  readable s → repr s lf n h ([], bare) → NoDup bare → cycle_at s lf c (λ m, m ∉ bare) →
  passes c (Some (default (tree.hash h) c)) [Enter h] v s.
Proof.
  revert s h bare c. induction n as [|n IH]; intros s h bare c Hs Hr Hnd Hc stk.
  { by destruct Hr as (_ & _ & _ & d & _ & ?). }
  pose proof Hr as (Hn & _ & _ & refs & lx & Hst & Hf & _ & Em). unfold merge in Em.
  injection Em as Hls ->. symmetry in Hls. rewrite decide_True in * by done.
  apply NoDup_app in Hnd as (_ & Hdis & Hnd).
  destruct (twp_inv _ _ _ (fetch_chunk_ok h _ s Hs Hst)) as (o & s1 & Hfetch & -> & Hs1 & Hl1).
  change (later s s1) in Hl1.
  assert (S n ∈ [S n] ++ all_bare lx) as Hin by (rewrite elem_of_app; left; by constructor).
  assert (no_cycle c h) as Hno.
  { eapply cycle_no_cycle; [exact Hs|exact Hc|exact Hr|]. tauto. }
  set (hash := default (tree.hash h) c).
  destruct (items_leafless lf n hash v refs lx s1) with (stk := LeaveBranch h :: stk)
    as (k & s2 & Hs2 & Hl2 & Hrun).
  { intros s' h' bare' Hs' Hr' Hnd' Hc'. by apply (IH s' h' bare' (Some hash)). }
  { done. }
  { eapply Forall2_impl; [done|]. intros; by eapply repr_later. }
  { by apply all_leaves_nil. }
  { done. }
  { apply (cycle_at_next s1 lf c h (S n) _ _ _ (cycle_at_later _ _ _ _ _ Hl1 Hc)
      (repr_later _ _ _ _ _ _ Hl1 Hr)).
    - intros m. apply not_in_r.
    - apply Hdis. by constructor. }
  exists (S (k + 1)), s2. split_and!; [done|by etrans|]. intros fuel.
  destruct (node_branch n) as [kk Hk]. rewrite Nat.add_succ_l, <- Nat.add_assoc. simpl app.
  erewrite loop_branch; [|by rewrite Hn|done|by eapply repr_wf_list|done].
  fold hash. by rewrite Hrun.
Qed.

Lemma repr_bare s lf n h bare : repr s lf n h ([], bare) → bare ≠ [].
Proof.
  destruct n; intros (_ & _ & _ & Hr); [naive_solver|].
  destruct Hr as (refs & lx & _ & _ & _ & [= Hls ->]). by rewrite decide_True by done.
Qed.

(** Under a branch that has a leaf, the first child has the first leaf. *)
Lemma leafy_first s lf n refs lx d ls :
  Forall2 (repr s lf n) refs lx → trailing lx → d :: ls = all_leaves lx →
  ∃ r refs' ls1 bare1 lx', refs = r :: refs' ∧ lx = (d :: ls1, bare1) :: lx' ∧
    repr s lf n r (d :: ls1, bare1) ∧ Forall2 (repr s lf n) refs' lx' ∧
    ls = ls1 ++ all_leaves lx'.
Proof.
  intros Hf Htr Hls. destruct Hf as [|r [ls1 bare1] refs lx Hr Hf]; [done|].
  destruct Htr as [Htr _]. simpl in Htr.
  rewrite (all_leaves_app [(ls1, bare1)] lx : _ (_ :: lx) = _), all_leaves_one in Hls. simpl in Hls.
  destruct ls1 as [|d1 ls1].
  - exfalso. simpl in Hls. apply repr_bare in Hr as Hb. apply Htr in Hb.
    apply all_leaves_nil in Hb. by rewrite Hb in Hls.
  - injection Hls as <- ->. by exists r, refs, ls1, bare1, lx.
Qed.

(** From a tree with leaves, the first is read and the rest is left on the stack. *)
Lemma enter_leafy lf n s h d ls bare c stk v :
  readable s → repr s lf n h (d :: ls, bare) → cycle_at s lf c (λ m, n < m) →
  ∃ k s' stk' lx', readable s' ∧ later s s' ∧ stack_repr s' lf stk' lx' ∧ trailing lx' ∧
    all_leaves lx' = ls ∧ all_bare lx' = bare ∧ ∀ fuel,
    loop (k + fuel) c (mkWalk (Enter h :: stk) v s) =
    (Ok true, mkWalk (stk' ++ stk) (v ++ [d]) s').
Proof.
  revert s h d ls bare c stk. induction n as [|n IH]; intros s h d ls bare c stk Hs Hr Hc.
  - pose proof Hr as (Hn & _ & _ & d' & Hst & [= <- -> ->]).
    destruct (twp_inv _ _ _ (fetch_chunk_ok h _ s Hs Hst)) as (o & s1 & Hfetch & -> & Hs1 & Hl1).
  change (later s s1) in Hl1.
    exists 1, s1, [], []. split_and!; [done..|]. intros fuel. simpl.
    apply loop_leaf; [done| |done]. eapply cycle_no_cycle; [exact Hs|exact Hc|exact Hr|]. simpl. lia.
  - pose proof Hr as (Hn & _ & _ & refs & lx & Hst & Hf & Htr & Em).
    injection Em as Hls ->.
    destruct (twp_inv _ _ _ (fetch_chunk_ok h _ s Hs Hst)) as (o & s1 & Hfetch & -> & Hs1 & Hl1).
  change (later s s1) in Hl1.
    assert (no_cycle c h) as Hno.
    { eapply cycle_no_cycle; [exact Hs|exact Hc|exact Hr|]. simpl. lia. }
    assert (cycle_at s1 lf (Some (default (tree.hash h) c)) (λ m, n < m)) as Hc1.
    { apply (cycle_at_next s1 lf c h (S n) _ _ _ (cycle_at_later _ _ _ _ _ Hl1 Hc)
        (repr_later _ _ _ _ _ _ Hl1 Hr)); simpl; lia. }
    clear Hr Hc.
    destruct (leafy_first _ _ _ _ _ _ _ Hf Htr Hls)
      as (r & refs' & ls1 & bare1 & lx' & -> & -> & Hr1 & Hf' & ->).
    rewrite <- Hls, decide_False by done. destruct Htr as [Htr1 Htr]. simpl in Htr1. clear Hf Hls.
    rewrite (all_bare_app [(d :: ls1, bare1)] lx' : _ (_ :: lx') = _), all_bare_one. simpl.
    destruct (IH s1 (tree.norm r) d ls1 bare1 (Some (default (tree.hash h) c))
      ((Enter ∘ tree.norm <$> refs') ++ LeaveBranch h :: stk))
      as (k & s2 & stk1 & lx1 & Hs2 & Hl2 & Hstk & Htr2 & Hls1 & Hb1 & Hrun).
    { done. } { apply repr_norm. by eapply repr_later. }
    { exact Hc1. }
    exists (S k), s2, (stk1 ++ (Enter ∘ tree.norm <$> refs') ++ [LeaveBranch h]), (lx1 ++ lx').
    split_and!.
    + done.
    + by etrans.
    + apply stack_repr_app; [done|]. rewrite <- (app_nil_r lx'). apply stack_repr_app; [|done].
      apply stack_repr_enter with (n := n). eapply Forall2_impl; [done|].
      intros; eapply repr_later; [|done]. by etrans.
    + apply trailing_app. split_and!; [done|done|]. by rewrite Hb1.
    + by rewrite all_leaves_app, Hls1.
    + by rewrite all_bare_app, Hb1.
    + intros fuel. destruct (node_branch n) as [kk Hk].
      change (S k + fuel) with (S (k + fuel)).
      erewrite loop_branch; [|by rewrite Hn| done| |done].
      2: { constructor; [by apply repr_node in Hr1 as (_&_&?)|by eapply repr_wf_list]. }
      simpl app. rewrite Hrun. by rewrite <- !app_assoc.
Qed.

(** *** Reading: the iterator *)

(** [ls] are the leaves that the items of the stack still have to give. *)
Definition pending s lf (stk : list StackItem) (ls : list bytes) : Prop :=
  ∃ lx, stack_repr s lf stk lx ∧ trailing lx ∧ NoDup (all_bare lx) ∧ all_leaves lx = ls.

Lemma stack_leafless lf stk lx s c v :
  readable s → stack_repr s lf stk lx → Forall (λ b, b.1 = []) lx → NoDup (all_bare lx) →
  cycle_at s lf c (λ m, m ∉ all_bare lx) →
  ∃ k s', readable s' ∧ later s s' ∧ ∀ fuel,
    loop (k + fuel) c (mkWalk stk v s) = (Ok true, mkWalk [] v s').
Proof.
  revert lx s c. induction stk as [|[h|h] stk IH]; intros lx s c Hs Hr Hls Hnd Hc.
  - exists 0, s. split_and!; [done..|]. by intros [|].
  - destruct Hr as (n & [ls bare] & lx' & -> & Hr & Hst).
    apply Forall_cons in Hls as [Hnil Hls]. simpl in Hnil. subst ls.
    change (all_bare (([], bare) :: lx')) with (bare ++ all_bare lx') in *.
    apply NoDup_app in Hnd as (Hnd1 & Hdis & Hnd2).
    destruct (enter_leafless lf n s h bare c v Hs Hr Hnd1) with (stk := stk)
      as (k & s1 & Hs1 & Hl1 & Hrun).
    { eapply cycle_at_impl; [done| |done]. intros m. apply not_in_l. }
    destruct (IH lx' s1 (Some (default (tree.hash h) c)) Hs1) as (k2 & s2 & Hs2 & Hl2 & Hrun2).
    { by eapply stack_repr_later. } { done. } { done. }
    { apply (cycle_at_next s1 lf c h n _ _ _ (cycle_at_later _ _ _ _ _ Hl1 Hc)
        (repr_later _ _ _ _ _ _ Hl1 Hr)); [intros m; apply not_in_r|].
      apply Hdis. destruct n; [by destruct Hr as (_ & _ & _ & d & _ & ?)|].
      destruct Hr as (_ & _ & _ & refs & lx & _ & _ & _ & [= E ->]).
      rewrite decide_True by done. by constructor. }
    exists (k + k2), s2. split_and!; [done|by etrans|]. intros fuel. rewrite <- Nat.add_assoc.
    etrans; [apply Hrun|]. apply Hrun2.
  - destruct (IH lx s c Hs Hr Hls Hnd Hc) as (k & s' & Hs' & Hl' & Hrun).
    exists (S k), s'. split_and!; [done..|]. intros fuel. change (S k + fuel) with (S (k + fuel)).
    by rewrite loop_leave.
Qed.

Lemma loop_next lf stk d ls s v :
  readable s → pending s lf stk (d :: ls) →
  ∃ k s' stk', readable s' ∧ later s s' ∧ pending s' lf stk' ls ∧ stk ≠ [] ∧ ∀ fuel,
    loop (k + fuel) None (mkWalk stk v s) = (Ok true, mkWalk stk' (v ++ [d]) s').
Proof.
  intros Hs (lx & Hr & Htr & Hnd & Hls). revert Hr.
  induction stk as [|[h|h] stk IH]; intros Hr; [by simpl in Hr; subst lx| |].
  - destruct Hr as (n & [ls1 bare1] & lx' & -> & Hr & Hst). destruct Htr as [Htr1 Htr].
    change (all_bare ((ls1, bare1) :: lx')) with (bare1 ++ all_bare lx') in Hnd.
    change (all_leaves ((ls1, bare1) :: lx')) with (ls1 ++ all_leaves lx') in Hls.
    destruct ls1 as [|d1 ls1].
    { exfalso. apply repr_bare in Hr. apply Htr1 in Hr.
      apply all_leaves_nil in Hr. by rewrite Hr in Hls. }
    injection Hls as -> <-.
    destruct (enter_leafy lf n s h d ls1 bare1 None stk v Hs Hr I)
      as (k & s' & stk1 & lx1 & Hs' & Hla & Hst1 & Htr2 & Hl1 & Hb1 & Hrun).
    exists k, s', (stk1 ++ stk). split_and!; [done|done| |done|done].
    exists (lx1 ++ lx'). split_and!.
    + apply stack_repr_app; [done|]. by eapply stack_repr_later.
    + apply trailing_app. split_and!; [done|done|]. by rewrite Hb1.
    + by rewrite all_bare_app, Hb1.
    + by rewrite all_leaves_app, Hl1.
  - destruct (IH Hr) as (k & s' & stk' & Hs' & Hl & Hp & _ & Hrun).
    exists (S k), s', stk'. split_and!; [done..|]. intros fuel.
    change (S k + fuel) with (S (k + fuel)). by rewrite loop_leave.
Qed.

Lemma resume_loop_run fuel stk v s :
  stk ≠ [] → resume LeafVisitor fuel (mkWalk stk v s) = loop fuel None (mkWalk stk v s).
Proof. intros Hstk. unfold resume. run_pure. simpl. by destruct stk. Qed.

(** [next] gives the leaves one by one, then nothing. *)
Lemma leaf_next_some lf stk d ls s :
  readable s → pending s lf stk (d :: ls) →
  ∃ N s' stk', readable s' ∧ later s s' ∧ pending s' lf stk' ls ∧ ∀ fuel, N ≤ fuel →
    leaf_next fuel (mkWalk stk [] s) = (Ok (Some d), mkWalk stk' [] s').
Proof.
  intros Hs Hp. destruct (loop_next lf stk d ls s [] Hs Hp)
    as (k & s' & stk' & Hs' & Hl & Hp' & Hne & Hrun).
  exists (S k), s', stk'. split_and!; [done..|]. intros fuel Hfuel.
  destruct fuel as [|fuel]; [lia|].
  assert (unwrapM (resume LeafVisitor (S fuel)) (mkWalk stk [] s) = (Ok true, mkWalk stk' [d] s'))
    as Hres.
  { unfold unwrapM. rewrite resume_loop_run by done.
    replace (S fuel) with (k + (S fuel - k)) by lia. by rewrite Hrun. }
  cbn [leaf_next]. rewrite bind_gets. cbn [visitor]. rewrite (bind_Ok _ _ _ _ _ Hres).
  destruct fuel; done.
Qed.

Lemma leaf_next_none lf stk s :
  readable s → pending s lf stk [] →
  ∃ N s', readable s' ∧ later s s' ∧ ∀ fuel, N ≤ fuel →
    leaf_next fuel (mkWalk stk [] s) = (Ok None, mkWalk [] [] s').
Proof.
  intros Hs (lx & Hr & Htr & Hnd & Hls). destruct (decide (stk = [])) as [->|Hne].
  { exists 0, s. split_and!; [done..|]. intros [|fuel] _; done. }
  apply all_leaves_nil in Hls.
  destruct (stack_leafless lf stk lx s None [] Hs Hr Hls Hnd I) as (k & s' & Hs' & Hl & Hrun).
  exists (S k), s'. split_and!; [done..|]. intros fuel Hfuel. destruct fuel as [|fuel]; [lia|].
  assert (unwrapM (resume LeafVisitor (S fuel)) (mkWalk stk [] s) = (Ok true, mkWalk [] [] s'))
    as Hres.
  { unfold unwrapM. rewrite resume_loop_run by done.
    replace (S fuel) with (k + (S fuel - k)) by lia. by rewrite Hrun. }
  cbn [leaf_next]. rewrite bind_gets. cbn [visitor]. rewrite (bind_Ok _ _ _ _ _ Hres).
  destruct fuel; done.
Qed.

Lemma collect_leafs_run lf ls stk s :
  readable s → pending s lf stk ls →
  ∃ N s', readable s' ∧ ∀ fuel, N ≤ fuel →
    collect_leafs fuel (mkWalk stk [] s) = (Ok ls, mkWalk [] [] s').
Proof.
  revert stk s. induction ls as [|d ls IH]; intros stk s Hs Hp.
  - destruct (leaf_next_none lf stk s Hs Hp) as (N & s' & Hs' & _ & Hrun).
    exists N, s'. split; [done|]. intros fuel Hfuel.
    specialize (Hrun fuel Hfuel). destruct fuel; cbn [collect_leafs];
      by rewrite (bind_Ok _ _ _ _ _ Hrun).
  - destruct (leaf_next_some lf stk d ls s Hs Hp) as (N & s1 & stk1 & Hs1 & _ & Hp1 & Hrun).
    destruct (IH stk1 s1 Hs1 Hp1) as (N2 & s2 & Hs2 & Hrun2).
    exists (S (N + N2)), s2. split; [done|]. intros fuel Hfuel. destruct fuel as [|fuel]; [lia|].
    cbn [collect_leafs]. rewrite (bind_Ok _ _ _ _ _ (Hrun (S fuel) ltac:(lia))).
    by rewrite (bind_Ok _ _ _ _ _ (Hrun2 fuel ltac:(lia))).
Qed.

Lemma denotes_pending s lf root ls :
  denotes s lf root ls → pending s lf (Walker_new root) ls.
Proof.
  intros (n & bare & Hr & Hnd). exists [(ls, bare)]. split_and!.
  - exists n, (ls, bare), []. done.
  - done.
  - by rewrite all_bare_one.
  - by rewrite all_leaves_one.
Qed.

Lemma collect_denotes s lf root ls :
  readable s → denotes s lf root ls →
  ∃ N s', readable s' ∧ ∀ fuel, N ≤ fuel →
    collect_leafs fuel (LeafIterator_new root s) = (Ok ls, mkWalk [] [] s').
Proof. intros Hs Hd. by apply collect_leafs_run with (lf := lf), denotes_pending. Qed.

End repr.
