(* ===== verification/TestBackend.v ===== *)
(** * The in-memory backend of hash/tests.rs

    [MemoryBackend] keeps every chunk in a map keyed by its digest. It is the simplest
    implementation of [HashTreeBackend]; it discharges the contract of HashTree.v when the
    digest ([Hash::new] with the test keeper, a parameter here) is free of collisions. *)

From S2P Require Import Prelude Codec Refs HashTree.
From S2P Require Models.

Record MemoryBackend := mkMemory {
  chunks : gmap bytes (chunk.NodeType * Models.LeafType * option (list Z) * bytes);
  seen_chunks : gset bytes;
}.

Definition MemoryBackend_new : MemoryBackend := mkMemory ∅ ∅.

Definition saw_chunk (s : MemoryBackend) (chunk : bytes) : bool :=
  bool_decide (chunk ∈ seen_chunks s).

Section MemoryBackend.
Context (digest : chunk.NodeType → Models.LeafType → bytes → bytes).

Definition memory_ref (hash : bytes) (len : nat) : chunk.ChunkRef :=
  chunk.mkChunkRef None hash 0 len None None.

Definition mem_fetch_chunk (href : tree.HashRef) : M MemoryBackend (option bytes) :=
  gets (λ s, snd <$> chunks s !! tree.hash href).

Definition mem_fetch_childs (hash : bytes) : M MemoryBackend (option (list Z)) :=
  gets (λ s, chunks s !! hash ≫= λ '(_, _, childs, _), childs).

Definition mem_fetch_persistent_ref (hash : bytes) : M MemoryBackend (option chunk.ChunkRef) :=
  gets (λ s, (λ '(_, _, _, chunk), memory_ref hash (length chunk)) <$> chunks s !! hash).

Definition mem_insert_chunk (chunk : bytes) (node : chunk.NodeType) (leaf : Models.LeafType)
    (childs : option (list Z)) (_info : option key.Info)
    : M MemoryBackend (Z * tree.HashRef) :=
  let hash := digest node leaf chunk in
  modify (λ s, mkMemory (<[hash := (node, leaf, childs, chunk)]> (chunks s))
    ({[chunk]} ∪ seen_chunks s)) ;;
  mret (0%Z, tree.mkHashRef hash node leaf (memory_ref hash (length chunk)) None).

Definition memory_backend : HashTreeBackend MemoryBackend := {|
  fetch_chunk := mem_fetch_chunk;
  fetch_childs := mem_fetch_childs;
  fetch_persistent_ref := mem_fetch_persistent_ref;
  insert_chunk := mem_insert_chunk;
|}.

Definition mem_stored (s : MemoryBackend) (h : tree.HashRef) (d : bytes) : Prop :=
  tree.hash h = digest (tree.node h) (tree.leaf h) d ∧
  ∃ childs, chunks s !! tree.hash h = Some (tree.node h, tree.leaf h, childs, d).

(** Without collisions the map never loses a chunk, and the contract holds. *)
Definition memory_backend_laws
    (digest_inj : ∀ n1 l1 d1 n2 l2 d2, digest n1 l1 d1 = digest n2 l2 d2 →
      n1 = n2 ∧ l1 = l2 ∧ d1 = d2) :
  @HashTreeBackendLaws MemoryBackend memory_backend.
Proof.
  refine (@Build_HashTreeBackendLaws _ memory_backend (λ _, True) (λ _, True) mem_stored _ _ _ _).
  - done.
  - intros s h1 d1 h2 d2 _ (E1 & c1 & _) (E2 & c2 & _) Hh. rewrite E1, E2 in Hh.
    by destruct (digest_inj _ _ _ _ _ _ Hh).
  - intros d n l c i s _ Hn. unfold wp. simpl. split; [done|]. split.
    { split; [done|]. exists c. apply lookup_insert_eq. }
    split; [done|]. split; [done|]. split; [by constructor|]. intros h' d' (E & c' & Hc). split; [done|].
    destruct (decide (digest n l d = tree.hash h')) as [Heq|Hne].
    + exists c. pose proof Heq as Hd. rewrite E in Hd. destruct (digest_inj _ _ _ _ _ _ Hd)
        as (<- & <- & <-). rewrite <- Heq. apply lookup_insert_eq.
    + exists c'. etrans; [by apply lookup_insert_ne|done].
  - intros h d s _ (E & c & Hc). unfold twp. simpl. unfold mem_fetch_chunk, gets. simpl.
    by rewrite Hc.
Defined.

End MemoryBackend.

(** A digest without collisions, for examples: the salt and the text themselves. *)
Definition plain_digest (n : chunk.NodeType) (l : Models.LeafType) (d : bytes) : bytes :=
  enc (match n with chunk.Branch k => inl k | chunk.Leaf => inr () end,
       match l with Models.FileChunk => 1 | Models.TreeList => 2 | Models.SnapshotList => 3 end, d)%Z.

Lemma enc_inj `{Codec A} (x y : A) : enc x = enc y → x = y.
Proof.
  intros E. pose proof (dec_enc x []) as Hx. rewrite E, dec_enc in Hx. by injection Hx.
Qed.

Lemma plain_digest_inj n1 l1 d1 n2 l2 d2 :
  plain_digest n1 l1 d1 = plain_digest n2 l2 d2 → n1 = n2 ∧ l1 = l2 ∧ d1 = d2.
Proof.
  intros E%enc_inj. injection E as En El ->. destruct n1, n2, l1, l2; naive_solver.
Qed.

(** A short digest for longer runs: a polynomial in the bytes, modulo 2^64. *)
Definition short_digest (n : chunk.NodeType) (l : Models.LeafType) (d : bytes) : bytes :=
  le_encode 8 (foldl (λ acc b, (acc * 257 + byte_to_Z b + 1) mod 2 ^ 64)
    (chunk.NodeType_into_u64 n * 4 + chunk.LeafType_into_u64 l + 1) d)%Z.
