(* ===== verification/HashTreeSim.v ===== *)
(** * Two backends that agree make the same trees

    A map [π] between the states of two backends that commutes with their operations
    ([BackendMorphism]) commutes with writing and reading a tree. This carries the theorems on
    the backend with a record of its insertions (HashStore.v) over to the one without. *)

From S2P Require Import Prelude Cbor Refs HashTree.
From S2P Require Models.

(** [m2] does on the image of the state what [m1] does. *)
Definition tracks {S1 S2 A} (π : S1 → S2) (m1 : M S1 A) (m2 : M S2 A) : Prop :=
  ∀ s, m2 (π s) = ((m1 s).1, π (m1 s).2).

Class BackendMorphism {S1 S2 : Type} `{!HashTreeBackend S1} `{!HashTreeBackend S2}
    (π : S1 → S2) := {
  m_fetch_chunk : ∀ h, tracks π (fetch_chunk h) (fetch_chunk h);
  m_insert_chunk : ∀ d n l c i, tracks π (insert_chunk d n l c i) (insert_chunk d n l c i);
}.

Section tracks.
Context {S1 S2 : Type} (π : S1 → S2).

Lemma tracks_ret {A} (a : A) : tracks π (mret a) (mret a).
Proof. done. Qed.

Lemma tracks_lift {A} (r : res A) : tracks π (lift r) (lift r).
Proof. done. Qed.

Lemma tracks_diverge {A} : tracks π (@diverge S1 A) diverge.
Proof. done. Qed.

Lemma tracks_bind {A B} (m1 : M S1 A) (m2 : M S2 A) (f1 : A → M S1 B) (f2 : A → M S2 B) :
  tracks π m1 m2 → (∀ a, tracks π (f1 a) (f2 a)) → tracks π (m1 ≫= f1) (m2 ≫= f2).
Proof.
  intros Hm Hf s. unfold mbind, M_bind. rewrite Hm. destruct (m1 s) as [[a|e| |] s']; simpl; [|done..].
  apply Hf.
Qed.

Lemma tracks_gets {A} (g1 : S1 → A) (g2 : S2 → A) :
  (∀ s, g2 (π s) = g1 s) → tracks π (gets g1) (gets g2).
Proof. intros Hg s. unfold gets. simpl. by rewrite Hg. Qed.

(** A lens onto a part that the map leaves alone, and one onto the part it maps. *)
Lemma tracks_zoom_same {P A} (l1 : lens S1 P) (l2 : lens S2 P) (m : M P A) :
  (∀ s, lget l2 (π s) = lget l1 s) → (∀ x s, lset l2 x (π s) = π (lset l1 x s)) →
  tracks π (zoom l1 m) (zoom l2 m).
Proof.
  intros Hg Hs s. unfold zoom. rewrite Hg. destruct (m (lget l1 s)) as [r x]. simpl. by rewrite Hs.
Qed.

Lemma tracks_zoom {P1 P2 A} (ρ : P1 → P2) (l1 : lens S1 P1) (l2 : lens S2 P2)
    (m1 : M P1 A) (m2 : M P2 A) :
  tracks ρ m1 m2 → (∀ s, lget l2 (π s) = ρ (lget l1 s)) →
  (∀ x s, lset l2 (ρ x) (π s) = π (lset l1 x s)) → tracks π (zoom l1 m1) (zoom l2 m2).
Proof.
  intros Hm Hg Hs s. unfold zoom. rewrite Hg, Hm. destruct (m1 (lget l1 s)) as [r x]. simpl.
  by rewrite Hs.
Qed.

Lemma tracks_attempt {A} (m1 : M S1 A) (m2 : M S2 A) :
  tracks π m1 m2 → tracks π (attempt m1) (attempt m2).
Proof. intros Hm s. unfold attempt. rewrite Hm. by destruct (m1 s) as [[]?]. Qed.

Lemma tracks_unwrap {A} (m1 : M S1 A) (m2 : M S2 A) :
  tracks π m1 m2 → tracks π (unwrapM m1) (unwrapM m2).
Proof. intros Hm s. unfold unwrapM. rewrite Hm. by destruct (m1 s) as [[]?]. Qed.

Lemma tracks_for_each {A} (f1 : A → M S1 unit) (f2 : A → M S2 unit) l :
  (∀ a, tracks π (f1 a) (f2 a)) → tracks π (for_each f1 l) (for_each f2 l).
Proof. intros Hf. induction l; simpl; [apply tracks_ret|by apply tracks_bind]. Qed.

End tracks.

Create HintDb tracks.
#[export] Hint Resolve tracks_ret tracks_lift tracks_diverge tracks_attempt tracks_unwrap
  tracks_for_each : tracks.

(** One step down the program text. *)
Ltac track := repeat first
  [ progress intros
  | match goal with
    | |- tracks _ (mbind _ _) _ => apply tracks_bind
    | |- tracks _ (gets _) _ => apply tracks_gets
    | |- tracks _ (for_each _ _) _ => apply tracks_for_each
    | |- tracks _ (match ?x with _ => _ end) _ => destruct x
    end
  | solve [eauto with tracks] ].

Section morphism.
Context {S1 S2 : Type} (π : S1 → S2) `{BackendMorphism S1 S2 π} `{Cbor Models.HashRefs}.

(** ** Writing *)

Definition on_writer (w : SimpleHashTreeWriter * S1) : SimpleHashTreeWriter * S2 := (w.1, π w.2).

Lemma tracks_writer {A} (m : M SimpleHashTreeWriter A) :
  tracks on_writer (zoom fst_lens m) (zoom fst_lens m).
Proof. by apply tracks_zoom_same. Qed.
#[local] Hint Resolve tracks_writer : tracks.

Lemma append_hashref_tracks c1 c2 level id h i :
  (∀ l i, tracks on_writer (c1 l i) (c2 l i)) →
  tracks on_writer (append_hashref_at c1 level id h i) (append_hashref_at c2 level id h i).
Proof. intros Hc. unfold append_hashref_at. track; done. Qed.

Lemma append_at_tracks c1 c2 level d c i :
  (∀ l i, tracks on_writer (c1 l i) (c2 l i)) →
  tracks on_writer (append_at c1 level d c i) (append_at c2 level d c i).
Proof using All.
  intros Hc. unfold append_at. apply tracks_bind; [by apply tracks_gets|]. intros w.
  apply tracks_bind; [apply (tracks_zoom _ π); [apply m_insert_chunk|done..]|].
  intros [id h]. by apply append_hashref_tracks.
Qed.

Lemma collapse_level_tracks fuel level i :
  tracks on_writer (collapse_level fuel level i) (collapse_level fuel level i).
Proof using All.
  revert level i. induction fuel as [|fuel IH]; intros level i; simpl; [apply tracks_diverge|].
  apply tracks_bind; [by apply tracks_gets|]. intros w. apply tracks_bind; [done|]. intros _.
  apply tracks_bind; [done|]. intros [lv ls]. apply tracks_bind; [apply tracks_writer|]. intros _.
  by apply append_at_tracks.
Qed.

Lemma append_tracks d : tracks on_writer (append d) (append d).
Proof using All.
  apply tracks_bind; [by apply tracks_gets|]. intros w. apply append_at_tracks. intros; apply collapse_level_tracks.
Qed.

Lemma collapse_tracks l i : tracks on_writer (collapse l i) (collapse l i).
Proof using All. unfold collapse. track; try done. apply collapse_level_tracks. Qed.
#[local] Hint Resolve append_tracks collapse_tracks : tracks.

Lemma hash_tracks i : tracks on_writer (hash i) (hash i).
Proof using All.
  unfold hash. track; try done.
Qed.

Lemma write_all_tracks l i : tracks on_writer (write_all l i) (write_all l i).
Proof using All. unfold write_all. track. apply hash_tracks. Qed.

(** ** Reading *)

Definition on_walk {V} (w : WalkState S1 V) : WalkState S2 V :=
  mkWalk (stack w) (visitor w) (π (backend w)).

Lemma tracks_stack {V A} (m : M (list StackItem) A) :
  tracks (@on_walk V) (zoom stack_lens m) (zoom stack_lens m).
Proof. by apply tracks_zoom_same. Qed.

Lemma visit_tracks {V} (f : V → bool * V) : tracks on_walk (visit f) (visit f).
Proof. by apply tracks_zoom_same. Qed.

Lemma fetch_tracks {V} h : tracks (@on_walk V) (fetch h) (fetch h).
Proof using All.
  unfold fetch. track. by apply (tracks_zoom _ π); [apply m_fetch_chunk|..].
Qed.
#[local] Hint Resolve tracks_stack visit_tracks fetch_tracks : tracks.

Lemma resume_loop_tracks {V} (vis : Visitor V) fuel c :
  tracks on_walk (resume_loop vis fuel c) (resume_loop vis fuel c).
Proof using All.
  revert c. induction fuel as [|fuel IH]; intros c; simpl; track; done.
Qed.

Lemma resume_tracks {V} (vis : Visitor V) fuel :
  tracks on_walk (resume vis fuel) (resume vis fuel).
Proof using All.
  unfold resume. track; try done. apply resume_loop_tracks.
Qed.
#[local] Hint Resolve resume_tracks : tracks.

Lemma leaf_next_tracks fuel : tracks on_walk (leaf_next fuel) (leaf_next fuel).
Proof using All.
  induction fuel as [|fuel IH]; simpl; track; try done; by apply tracks_zoom_same.
Qed.
#[local] Hint Resolve leaf_next_tracks : tracks.

Lemma collect_leafs_tracks fuel : tracks on_walk (collect_leafs fuel) (collect_leafs fuel).
Proof using All.
  induction fuel as [|fuel IH]; cbn [collect_leafs]; track.
Qed.

End morphism.
