(* ===== verification/HashTreeSpec.v ===== *)
(** * Hash trees: the theorems

    For any backend that keeps the contract of HashTree.v: what is written is read back, the
    writer terminates without an error, its levels stay below the order. For the in-memory
    backend of the tests: concrete runs, among them the ones where [hash] does not do what its
    documentation says. *)

From S2P Require Import Prelude Cbor Codec Refs HashTree TestBackend.
From S2P Require Models.

Section Spec.
Context {St : Type} `{HashTreeBackendLaws St} `{CborLaws Models.HashRefs}.
Implicit Types s : St.

(** C13: Write a stream of chunks with [append], finish it with [hash], and iterate over the
    reference returned: the iterator gives exactly the chunks, in order and split at the same
    boundaries (an empty stream reads as one empty chunk), and then ends. Any order of at least
    two, any leaf type, with or without a file's information, any backend that keeps its
    contract. *)
Theorem write_read_roundtrip lf o chunks info s root w' s' :
  2 ≤ o → backend_ok s →
  write_all chunks info (Writer_new lf o, s) = (Ok root, (w', s')) → readable s' →
  ∃ N s'', ∀ fuel, N ≤ fuel →
    collect_leafs fuel (LeafIterator_new root s') = (Ok (stream chunks), mkWalk [] [] s'').
Proof.
  intros Ho Hs Hrun Hr.
  pose proof (wp_Ok_inv _ _ _ _ _ (write_all_wp lf o chunks info s Ho Hs) Hrun) as (_ & _ & Hd).
  destruct (collect_denotes s' lf root _ Hr Hd) as (N & s'' & _ & Hc). eauto.
Qed.

(** C17: Writing a stream always terminates and never returns an error when the order is at
    least two: the recursion over the levels has fuel enough, and the only other outcome is a
    panic of the backend. *)
Theorem write_all_terminates lf o chunks info s :
  2 ≤ o → backend_ok s →
  (∃ root ws, write_all chunks info (Writer_new lf o, s) = (Ok root, ws)) ∨
  (∃ ws, write_all chunks info (Writer_new lf o, s) = (Panic, ws)).
Proof.
  intros Ho Hs. pose proof (write_all_wp lf o chunks info s Ho Hs) as Hw. unfold wp in Hw.
  destruct (write_all chunks info (Writer_new lf o, s)) as [[root|e| |] ws]; naive_solver.
Qed.

Lemma levels_below s lf lvl suf lys o :
  levels_repr s lf lvl suf lys → Forall (good_level o) lys → Forall (λ l, length l < o) suf.
Proof.
  revert lvl lys. induction suf as [|x suf IH]; intros lvl [|lx lys]; try done.
  intros [Hx Hr] [[Hlt _] Hg]%Forall_cons. constructor; [|by eapply IH].
  by rewrite (level_length _ _ _ _ _ Hx).
Qed.

(** C18: Between two appends every level of the writer holds fewer entries than the order, and
    the writer keeps its order and leaf type. *)
Theorem append_levels_bounded lf o chunks s w' s' :
  2 ≤ o → backend_ok s →
  for_each append chunks (Writer_new lf o, s) = (Ok (), (w', s')) →
  order w' = o ∧ leaf_type w' = lf ∧ Forall (λ l, length l < o) (levels w').
Proof.
  intros Ho Hs Hrun. eapply (wp_Ok_inv _ _ (λ _ '(w', _), _)) in Hrun; [exact Hrun|].
  eapply (wp_for_each (λ l '(w', s'), ∃ done_,
    Writer_ok w' s' done_ ∧ leaf_type w' = lf ∧ order w' = o)).
  - intros x l [w1 s1] (dn & Hw & Hl & Hor). eapply wp_mono; [by apply append_wp|].
    intros _ [w2 s2] (? & ? & ? & ?). exists (dn ++ [x]). split_and!; [done|congruence..].
  - exists []. split_and!; [by apply Writer_new_ok|done..].
  - intros [w1 s1] (dn & (_ & _ & lys & Hr & [Hg _] & _) & Hl & <-).
    split_and!; [done..|]. by eapply levels_below.
Qed.

End Spec.

(** ** Order one *)

(** With order one no append ever returns: each level is full with its first entry and
    collapses into the next one, whatever the fuel (as long as the backend stores chunks). *)
Theorem order_one_diverges {St : Type} `{!HashTreeBackend St} `{Cbor Models.HashRefs}
    (total : ∀ d n l c i (s : St), ∃ id h s', insert_chunk d n l c i s = (Ok (id, h), s'))
    fuel lf chunk (s : St) :
  (append_at (collapse_level fuel) 0 chunk None None (Writer_new lf 1, s)).1 = Diverge.
Proof.
  assert (∀ fuel lvl d c i s, (append_at (collapse_level fuel) lvl d c i
    (mkWriter 1 lf (replicate lvl []), s)).1 = Diverge) as Hall; [|apply (Hall fuel 0)].
  clear s. induction fuel0 as [|fuel0 IH]; intros lvl d c i s; unfold append_at; run_pure;
    destruct (total d (chunk.NodeType_from_u64 (usize_as_u64 lvl)) lf c i s)
      as (id & h & s' & E); erewrite bind_zoom by exact E; cbn [lset snd_lens fst];
    unfold append_hashref_at; run_pure; run_assert ltac:(by simpl; rewrite length_replicate);
    run_pure; unfold grow_to; cbn [levels set_levels];
    rewrite length_replicate; replace (lvl + 1 - lvl) with 1 by lia; cbn [replicate];
    (rewrite (bind_lift _ _ _ []);
      [|by rewrite list_lookup_middle by (by rewrite length_replicate)]); run_pure;
    cbn [levels set_levels order app length]; (rewrite decide_True by done); [done|].
  cbn [collapse_level]. run_pure. cbn [levels set_levels].
  set (pre := replicate lvl []). rewrite insert_app_r_alt by (unfold pre; by rewrite length_replicate).
  replace (lvl - length pre) with 0 by (unfold pre; rewrite length_replicate; lia).
  cbn [insert list_insert].
  assert (length pre = lvl) as Hl by (apply length_replicate).
  run_assert ltac:(rewrite length_app; simpl; lia).
  rewrite <- Hl at 1. rewrite (bind_lift _ _ _ _ (swap_remove_snoc pre [] [(id, h)] [])).
  run_pure. replace (pre ++ [[]]) with (replicate (lvl + 1) ([] : list (Z * tree.HashRef))).
  - apply IH.
  - by rewrite replicate_add.
Qed.

(** ** Runs of the in-memory backend *)

Definition numbered (n : nat) : list bytes := (λ i, [byte_of_nat i]) <$> seq 1 n.

#[local] Abbreviation write_numbered o n :=
  (write_all (numbered n) None (Writer_new Models.FileChunk o, MemoryBackend_new)).

Section Runs.

#[local] Instance plain_backend : HashTreeBackend MemoryBackend := memory_backend plain_digest.
#[local] Instance plain_laws : HashTreeBackendLaws MemoryBackend :=
  memory_backend_laws plain_digest plain_digest_inj.
#[local] Instance refs_cbor : Cbor Models.HashRefs := codec_cbor.
#[local] Instance refs_laws : CborLaws Models.HashRefs := codec_cbor_laws.

Lemma write_read_roundtrip_witness :
  ∃ root w s', write_numbered 4 3 = (Ok root, (w, s')) ∧
    ∃ N s'', ∀ fuel, N ≤ fuel →
      collect_leafs fuel (LeafIterator_new root s') = (Ok (numbered 3), mkWalk [] [] s'').
Proof.
  destruct (ok_run_split (write_numbered 4 3)) as (root & [w s'] & E).
  { vm_compute. reflexivity. }
  exists root, w, s'. split; [exact E|].
  exact (write_read_roundtrip Models.FileChunk 4 (numbered 3) None MemoryBackend_new root w s'
    ltac:(lia) I E I).
Defined.

Lemma write_all_terminates_witness :
  (∃ root ws, write_numbered 3 10 = (Ok root, ws)) ∨ (∃ ws, write_numbered 3 10 = (Panic, ws)).
Proof. apply (write_all_terminates Models.FileChunk 3 (numbered 10) None); [lia|exact I]. Defined.

Lemma append_levels_bounded_witness :
  ∃ w' s', for_each append (numbered 3) (Writer_new Models.FileChunk 4, MemoryBackend_new)
    = (Ok (), (w', s')) ∧ order w' = 4 ∧ leaf_type w' = Models.FileChunk ∧
    Forall (λ l, length l < 4) (levels w').
Proof.
  destruct (ok_run_split (for_each append (numbered 3)
    (Writer_new Models.FileChunk 4, MemoryBackend_new))) as ([] & [w' s'] & E).
  { vm_compute. reflexivity. }
  exists w', s'. split; [exact E|].
  exact (append_levels_bounded Models.FileChunk 4 (numbered 3) MemoryBackend_new w' s'
    ltac:(lia) I E).
Defined.

Lemma order_one_diverges_witness :
  (append_at (collapse_level 5) 0 [Byte.x01] None None
    (Writer_new Models.FileChunk 1, MemoryBackend_new)).1 = Diverge.
Proof.
  apply order_one_diverges. intros d n l c i s. simpl. unfold mem_insert_chunk, modify.
  eexists _, _, _. reflexivity.
Defined.

End Runs.

Section ShortRuns.

#[local] Instance short_backend : HashTreeBackend MemoryBackend := memory_backend short_digest.
#[local] Instance short_cbor : Cbor Models.HashRefs := codec_cbor.

(** The nodes of two consecutive results of [hash]. *)
Definition hash_twice (info : option key.Info)
    (r : res tree.HashRef * (SimpleHashTreeWriter * MemoryBackend)) :=
  match r with
  | (Ok h1, ws) =>
      match hash info ws with
      | (Ok h2, _) => Some (tree.node h1, tree.node h2)
      | _ => None
      end
  | _ => None
  end.

(** The comment on [hash] says it may be called again. After seven appends at order two
    the first call leaves an entry below the top level (the branch made of an empty level), and
    the second call returns another reference, one level higher. *)
Theorem hash_twice_differs :
  hash_twice None (write_numbered 2 7) = Some (chunk.Branch 3, chunk.Branch 4).
Proof. vm_compute. reflexivity. Qed.

Definition some_info : key.Info :=
  key.Info_new 0 (Models.FileName_from_string []) None.

(** Nor does a second call with a file's information return the same reference: each one
    puts a branch on top. *)
Theorem hash_info_twice_differs :
  hash_twice (Some some_info) (write_all (numbered 1) (Some some_info)
    (Writer_new Models.FileChunk 8, MemoryBackend_new)) = Some (chunk.Branch 1, chunk.Branch 2).
Proof. vm_compute. reflexivity. Qed.

(** A backend that fails to store the branch of a single entry. *)
Definition flaky_backend : HashTreeBackend MemoryBackend := {|
  fetch_chunk := fetch_chunk;
  fetch_childs := fetch_childs;
  fetch_persistent_ref := fetch_persistent_ref;
  insert_chunk d n l c i :=
    if decide (c = Some [0%Z]) then throw (IoError "disk full") else insert_chunk d n l c i;
|}.

(** An error of the backend while the lower levels are collapsed is lost: [hash] returns a
    reference, and the third of the three chunks written cannot be read back. *)
Theorem hash_drops_errors :
  match @write_all _ flaky_backend _ (numbered 3) None
          (Writer_new Models.FileChunk 2, MemoryBackend_new) with
  | (Ok root, (_, s)) => (collect_leafs 20 (LeafIterator_new root s)).1 = Ok (numbered 2)
  | _ => False
  end.
Proof. vm_compute. reflexivity. Qed.

End ShortRuns.
