(* ===== verification/FileReader.v ===== *)
(** * Reading a stored file at offsets: vfs/fs.rs ([FileReader])

    A reader takes the chunks of a file one by one from an iterator and answers reads at
    offsets that do not go back. The iterator is a boxed [Iterator] in the source: the class
    [ChunkIterator], with the iterator over a list and [HashTree]'s over the leaves of a tree
    as instances. *)

From S2P Require Import Prelude Cbor Refs HashTree.
From S2P Require Models.

(** [Box<Iterator<Item = Vec<u8>>>]; the fuel bounds the steps of one [next]. *)
Class ChunkIterator (It : Type) := iter_next : nat → M It (option bytes).

Record FileReader (It : Type) := mkFileReader {
  rest : option It;
  offset : Z; (* u64 *)
  buf : bytes;
  eof : bool;
}.
Arguments mkFileReader {It} _ _ _ _.
Arguments rest {It} _.
Arguments offset {It} _.
Arguments buf {It} _.
Arguments eof {It} _.

Definition set_offset {It} (z : Z) (r : FileReader It) := mkFileReader (rest r) z (buf r) (eof r).
Definition set_buf {It} (b : bytes) (r : FileReader It) :=
  mkFileReader (rest r) (offset r) b (eof r).
Definition set_eof {It} (e : bool) (r : FileReader It) :=
  mkFileReader (rest r) (offset r) (buf r) e.
Definition set_rest {It} (i : option It) (r : FileReader It) :=
  mkFileReader i (offset r) (buf r) (eof r).

Definition new_from_iter {It} (rest : option It) : FileReader It :=
  mkFileReader rest 0 [] (if rest is Some _ then false else true).

Definition FileReader_new {St} (s : St) (file : tree.HashRef)
    : FileReader (WalkState St (list bytes)) :=
  new_from_iter (Some (LeafIterator_new file s)).

Section Reader.
Context {It : Type} `{!ChunkIterator It}.

Abbreviation RM := (M (FileReader It)).

(** Where the buffer ends in the file: [self.offset + self.buf.len() as u64]. *)
Definition buf_end (r : FileReader It) : Z := as_u64 (offset r + usize_as_u64 (length (buf r))).

(** The iterator advances inside the reader. *)
Definition rest_next (fuel : nat) (it : It) : RM (option bytes) := λ r,
  let '(o, it') := iter_next fuel it in (o, set_rest (Some it') r).

(** [self.buf.clear(); self.eof = true; vec![]] *)
Definition at_end : RM bytes :=
  modify (set_buf []) ;; modify (set_eof true) ;; mret [].

(** [next]: its result, the replaced buffer, is not used by its caller. *)
Definition next (fuel : nat) : RM bytes :=
  r ← get;
  match rest r with
  | Some it =>
      modify (λ r, set_offset (buf_end r) r) ;;
      o ← rest_next fuel it;
      match o with
      | Some b => old ← gets buf; modify (set_buf b) ;; mret old
      | None => at_end
      end
  | None => at_end
  end.

(** [while self.offset + self.buf.len() <= offset || self.buf.is_empty() { .. }] *)
Fixpoint advance (fuel : nat) (off : Z) : RM unit :=
  r ← get;
  if decide (buf_end r ≤ off ∨ buf r = [])%Z then
    match fuel with
    | O => diverge
    | S fuel =>
        next (S fuel) ;;
        e ← gets eof;
        if e : bool then mret () else advance fuel off
    end
  else mret ().

(** The two [assert!]s, and the slice from the offset on. *)
Definition from_ (off : Z) (r : FileReader It) : res bytes :=
  assert_ (offset r ≤ off)%Z ;;
  assert_ (off - offset r ≤ usize_as_u64 (length (buf r)))%Z ;;
  slice (u64_as_usize off - u64_as_usize (offset r)) (length (buf r)) (buf r).

Definition take_ (off : Z) (size : nat) (r : FileReader It) : res bytes :=
  l ← from_ off r; slice 0 size l.

Fixpoint read (fuel : nat) (off : Z) (size : nat) : RM (option bytes) :=
  match fuel with
  | O => diverge
  | S fuel =>
      advance (S fuel) off ;;
      r ← get;
      if eof r then mret None else
      here ← lift (from_ off r);
      if decide (here = []) then mret None else
      let avail := length here in
      if decide (size ≤ avail) then
        l ← lift (take_ off size r); mret (Some l)
      else
        l ← lift (take_ off avail r);
        more ← read fuel (as_u64 (off + usize_as_u64 avail)) (size - avail);
        mret (Some (l ++ default [] more))
  end.

(** A client's requests, in turn. *)
Definition read_all (fuel : nat) (reqs : list (Z * nat)) : RM (list (option bytes)) :=
  mapM' (λ '(off, size), read fuel off size) reqs.

End Reader.

(** ** Iterators *)

(** [Vec::into_iter]. *)
#[export] Instance list_iterator : ChunkIterator (list bytes) := λ _ l,
  match l with [] => (Ok None, []) | b :: l => (Ok (Some b), l) end.

#[export] Instance leaf_iterator {St} `{!HashTreeBackend St} `{Cbor Models.HashRefs}
  : ChunkIterator (WalkState St (list bytes)) := leaf_next.

(** The contract: [yields it ls] when [it] gives the chunks [ls] and then nothing for ever. *)
Class ChunkIteratorLaws (It : Type) `{!ChunkIterator It} := {
  yields : It → list bytes → Prop;
  yields_some : ∀ it b ls, yields it (b :: ls) →
    ∃ N it', yields it' ls ∧ ∀ fuel, N ≤ fuel → iter_next fuel it = (Ok (Some b), it');
  yields_none : ∀ it, yields it [] →
    ∃ N it', yields it' [] ∧ ∀ fuel, N ≤ fuel → iter_next fuel it = (Ok None, it');
}.

#[export] Program Instance list_iterator_laws : ChunkIteratorLaws (list bytes) :=
  {| yields := eq |}.
Next Obligation. intros it b ls ->. by exists 0, ls. Qed.
Next Obligation. intros it ->. by exists 0, []. Qed.

(** A tree's leaves, in whatever state of its backend. *)
#[export] Program Instance leaf_iterator_laws {St} `{HashTreeBackendLaws St}
    `{CborLaws Models.HashRefs} : ChunkIteratorLaws (WalkState St (list bytes)) :=
  {| yields := λ w ls, visitor w = [] ∧ readable (backend w) ∧
       ∃ lf, pending (backend w) lf (stack w) ls |}.
Next Obligation.
  intros St HB HL C CL [stk v s] b ls (Hv & Hs & lf & Hp). simpl in *. subst v.
  destruct (leaf_next_some lf stk b ls s Hs Hp) as (N & s' & stk' & Hs' & _ & Hp' & Hrun).
  exists N, (mkWalk stk' [] s'). split; [by eauto|exact Hrun].
Qed.
Next Obligation.
  intros St HB HL C CL [stk v s] (Hv & Hs & lf & Hp). simpl in *. subst v.
  destruct (leaf_next_none lf stk s Hs Hp) as (N & s' & Hs' & _ & Hrun).
  exists N, (mkWalk [] [] s'). split; [|exact Hrun]. split_and!; [done..|].
  exists lf, []. repeat split; constructor.
Qed.
