(* ===== verification/FileReaderSpec.v ===== *)
(** * Reading a stored file at offsets: the theorems

    In-order reads, with gaps or without, give what the file holds at these offsets. A reader
    that has met the end of its file gives nothing any more, and a read before the buffer
    panics. *)

From S2P Require Import Prelude Cbor Codec Refs HashTree TestBackend FileReader.
From S2P Require Models.

#[local] Coercion Z.of_nat : nat >-> Z.

(** What a read of a file's contents [c] means: nothing from the end on, otherwise as much of
    what was asked for as there is. *)
Definition pread (c : bytes) (off : Z) (size : nat) : option bytes :=
  if decide (off < length c)%Z then Some (take size (drop (Z.to_nat off) c)) else None.

(** Requests that start where the one before ended, or later. *)
Fixpoint in_order (pos : Z) (reqs : list (Z * nat)) : Prop :=
  match reqs with
  | [] => True
  | (off, size) :: reqs => (pos ≤ off)%Z ∧ in_order (off + size) reqs
  end.

Section Reader.
Context {It : Type} `{ChunkIteratorLaws It}.
Implicit Types (r : FileReader It) (c : bytes).

(** A reader in the middle of a file with contents [c], and one that has met its end. *)
Definition live r c : Prop :=
  eof r = false ∧ ∃ it ls pre, rest r = Some it ∧ yields it ls ∧
    c = pre ++ buf r ++ concat ls ∧ offset r = length pre.

Definition spent r : Prop :=
  eof r = true ∧ buf r = [] ∧ ∀ it, rest r = Some it → yields it [].

Lemma live_end r c : live r c → (length c < 2 ^ 64)%Z →
  buf_end r = (offset r + length (buf r))%Z ∧ (0 ≤ offset r ≤ buf_end r)%Z ∧
  (buf_end r ≤ length c)%Z.
Proof.
  intros (_ & it & ls & pre & _ & _ & -> & Ho) Hlen. rewrite !length_app in *.
  unfold buf_end, usize_as_u64. rewrite wrap_u_id; lia.
Qed.

Lemma rest_next_run fuel it o it' r :
  iter_next fuel it = (Ok o, it') → rest_next fuel it r = (Ok o, set_rest (Some it') r).
Proof. unfold rest_next. by intros ->. Qed.

Lemma next_some r c it b ls pre :
  eof r = false → rest r = Some it → yields it (b :: ls) → (length c < 2 ^ 64)%Z →
  c = pre ++ buf r ++ concat (b :: ls) → offset r = length pre →
  ∃ N it', yields it' ls ∧ ∀ fuel, N ≤ fuel →
    next fuel r = (Ok (buf r), mkFileReader (Some it') (length (pre ++ buf r)) b false).
Proof.
  intros He Hr Hy Hlen Hc Ho.
  destruct (yields_some it b ls Hy) as (N & it' & Hy' & Hrun). exists N, it'.
  split; [done|]. intros fuel Hf. destruct r as [ro oo bo eo]; simpl in *. subst.
  unfold next. run_pure. cbn [rest]. run_pure. erewrite bind_Ok by exact (rest_next_run _ _ _ _ _ (Hrun fuel Hf)).
  change ((Ok bo, mkFileReader (Some it') (as_u64 (length pre + length bo)) b false)
    = (Ok bo, mkFileReader (Some it') (length (pre ++ bo)) b false)).
  rewrite !length_app in *. rewrite wrap_u_id by lia. by rewrite Nat2Z.inj_add.
Qed.

Lemma next_none r it :
  rest r = Some it → yields it [] →
  ∃ N r', spent r' ∧ ∀ fuel, N ≤ fuel → next fuel r = (Ok [], r').
Proof.
  intros Hr Hy. destruct (yields_none it Hy) as (N & it' & Hy' & Hrun).
  exists N, (mkFileReader (Some it') (buf_end r) [] true). split.
  { split_and!; [done..|]. intros ? [= <-]. done. }
  intros fuel Hf. destruct r as [ro oo bo eo]; simpl in *. subst.
  unfold next. run_pure. cbn [rest]. run_pure.
  by erewrite bind_Ok by exact (rest_next_run _ _ _ _ _ (Hrun fuel Hf)).
Qed.

Lemma next_spent r : spent r → ∃ N r', spent r' ∧ ∀ fuel, N ≤ fuel → next fuel r = (Ok [], r').
Proof.
  intros Hs. pose proof Hs as (He & Hb & Hr). destruct (rest r) as [it|] eqn:E.
  - eapply next_none; eauto.
  - exists 0, r. split; [done|]. intros fuel _. unfold next. run_pure. rewrite E.
    destruct r as [ro oo bo eo]; simpl in *. subst. reflexivity.
Qed.

(** [advance] stops in the chunk that holds the offset, or at the end. *)
Lemma advance_run r c off :
  live r c → (length c < 2 ^ 64)%Z → (offset r ≤ off)%Z →
  ∃ N r', (∀ fuel, N ≤ fuel → advance fuel off r = (Ok (), r')) ∧
    ((off < length c ∧ live r' c ∧ offset r' ≤ off < buf_end r')%Z ∨
     (length c ≤ off)%Z ∧ spent r').
Proof.
  intros Hl Hlen Hoff. pose proof Hl as (He & it & ls & pre & Hr & Hy & Hc & Ho).
  revert r it pre Hl Hoff He Hr Hy Hc Ho. induction ls as [|b ls IH]; intros.
  all: destruct (live_end r c Hl Hlen) as (Hend & Hpos & Hle).
  all: destruct (decide (buf_end r ≤ off ∨ buf r = [])%Z) as [Hd|Hd].
  2, 4: exists 0, r; split; [intros [|fuel] _; simpl; run_pure; by rewrite decide_False|]; left;
    split_and!; [lia|done|lia|lia].
  - destruct (next_none r it Hr Hy) as (N & r' & Hsp & Hn). exists (S N), r'. split.
    + intros [|fuel] Hf; [lia|]. cbn [advance]. run_pure. rewrite decide_True by done.
      run_with (Hn (S fuel) ltac:(lia)). run_pure. by rewrite (proj1 Hsp).
    + right. split; [|done]. simpl in Hc. rewrite app_nil_r in Hc. subst c.
      rewrite length_app in *. destruct Hd as [Hd|Hd]; [|rewrite Hd in *; simpl in *]; lia.
  - destruct (next_some r c it b ls pre He Hr Hy Hlen Hc Ho) as (N & it' & Hy' & Hn).
    set (r1 := mkFileReader (Some it') (length (pre ++ buf r)) b false) in Hn.
    assert (live r1 c) as Hl1.
    { split; [done|]. exists it', ls, (pre ++ buf r). rewrite Hc.
      split_and!; [done|done| |done]. simpl. by rewrite <- !app_assoc. }
    destruct (IH r1 it' (pre ++ buf r)) as (N2 & r' & Ha & Hpost); [done| |done..| | |].
    + simpl. rewrite length_app. destruct Hd as [Hd|Hd]; [lia|].
      rewrite Hd in *; simpl in *. lia.
    + rewrite Hc. simpl. by rewrite <- !app_assoc.
    + done.
    + exists (S (N + N2)), r'. split; [|done]. intros [|fuel] Hf; [lia|]. cbn [advance].
      run_pure. rewrite decide_True by done. run_with (Hn (S fuel) ltac:(lia)). run_pure.
      cbn [eof r1]. apply Ha. lia.
Qed.

Lemma advance_spent r off :
  spent r → ∃ N r', spent r' ∧ ∀ fuel, N ≤ fuel → advance fuel off r = (Ok (), r').
Proof.
  intros Hs. destruct (next_spent r Hs) as (N & r' & Hs' & Hn). exists (S N), r'.
  split; [done|]. intros [|fuel] Hf; [lia|]. cbn [advance]. run_pure.
  rewrite decide_True by (right; apply Hs). run_with (Hn (S fuel) ltac:(lia)). run_pure.
  by rewrite (proj1 Hs').
Qed.

Lemma read_spent r off size :
  spent r → ∃ N r', spent r' ∧ ∀ fuel, N ≤ fuel → read fuel off size r = (Ok None, r').
Proof.
  intros Hs. destruct (advance_spent r off Hs) as (N & r' & Hs' & Ha). exists (S N), r'.
  split; [done|]. intros [|fuel] Hf; [lia|]. cbn [read]. run_with (Ha (S fuel) ltac:(lia)).
  run_pure. by rewrite (proj1 Hs').
Qed.

(** The buffer from an offset inside it on is the file from there on, up to the next chunk. *)
Lemma from_live r c off :
  live r c → (length c < 2 ^ 64)%Z → (offset r ≤ off < buf_end r)%Z →
  ∃ here more, from_ off r = Ok here ∧ here ≠ [] ∧ drop (Z.to_nat off) c = here ++ more ∧
    (off + length here = buf_end r)%Z.
Proof.
  intros Hl Hlen Hoff. destruct (live_end r c Hl Hlen) as (Hend & Hpos & Hle).
  destruct Hl as (He & it & ls & pre & Hr & Hy & Hc & Ho).
  exists (drop (Z.to_nat off - length pre) (buf r)), (concat ls).
  assert (Z.to_nat off - length pre < length (buf r)) as Hlt by lia.
  split_and!.
  - unfold from_, u64_as_usize. rewrite Ho, !assert_Ok by (unfold usize_as_u64; lia). simpl.
    rewrite slice_Ok by lia. rewrite Nat2Z.id. f_equal. apply take_ge. rewrite length_drop. lia.
  - intros E. apply (f_equal length) in E. rewrite length_drop in E. simpl in E. lia.
  - rewrite Hc. rewrite drop_app_ge by lia. by rewrite drop_app_le by lia.
  - rewrite length_drop. lia.
Qed.

Lemma take_from off size r here :
  from_ off r = Ok here → size ≤ length here → take_ off size r = Ok (take size here).
Proof.
  intros Hf Hs. unfold take_. rewrite Hf. simpl. rewrite slice_Ok by lia.
  by rewrite drop_0, Nat.sub_0_r.
Qed.

(** A read not before the reader's position is [pread], and what comes next may start where
    it ended. *)
Lemma read_run r c off size :
  live r c → (length c < 2 ^ 64)%Z → (offset r ≤ off)%Z →
  ∃ N r', (∀ fuel, N ≤ fuel → read fuel off size r = (Ok (pread c off size), r')) ∧
    (live r' c ∧ (offset r' ≤ off + size ≤ length c)%Z ∨ spent r' ∧ (length c ≤ off + size)%Z).
Proof.
  revert r off. induction (lt_wf size) as [size _ IH]. intros r off Hl Hlen Hoff.
  destruct (advance_run r c off Hl Hlen Hoff) as (N & r1 & Ha & Hpost).
  destruct Hpost as [(Hlt & Hl1 & Ho1)|(Hge & Hs)].
  2: { exists (S N), r1. split; [|right; split; [done|lia]].
    intros [|fuel] Hf; [lia|]. cbn [read]. run_with (Ha (S fuel) ltac:(lia)). run_pure.
    rewrite (proj1 Hs). unfold pread. by rewrite decide_False by lia. }
  destruct (from_live r1 c off Hl1 Hlen Ho1) as (here & more & Hfrom & Hne & Hdrop & Hend).
  pose proof (live_end r1 c Hl1 Hlen) as (_ & Hp0 & Hle).
  destruct (decide (size ≤ length here)) as [Hs|Hs].
  - exists (S N), r1. split; [|left; split; [done|lia]].
    intros [|fuel] Hf; [lia|]. cbn [read]. run_with (Ha (S fuel) ltac:(lia)). run_pure.
    rewrite (proj1 Hl1). run_lift Hfrom. rewrite decide_False, decide_True by done.
    run_lift (take_from _ _ _ _ Hfrom Hs). unfold pread. rewrite decide_True by lia.
    rewrite Hdrop, take_app_le by done. done.
  - assert (0 < length here) as Hpos by (destruct here; [done|simpl; lia]).
    assert (as_u64 (off + usize_as_u64 (length here)) = off + length here)%Z as Hu.
    { unfold usize_as_u64. pose proof (live_end r1 c Hl1 Hlen). rewrite wrap_u_id; lia. }
    destruct (IH (size - length here) ltac:(lia) r1 (off + length here)%Z Hl1 Hlen ltac:(lia))
      as (N2 & r2 & Hrd & Hpost).
    exists (S (N + N2)), r2. split.
    + intros [|fuel] Hf; [lia|]. cbn [read]. run_with (Ha (S fuel) ltac:(lia)). run_pure.
      rewrite (proj1 Hl1). run_lift Hfrom. rewrite !decide_False by (done || lia).
      run_lift (take_from _ _ _ _ Hfrom (le_n _)). rewrite firstn_all, Hu.
      run_with (Hrd fuel ltac:(lia)). unfold mret, M_ret. do 3 f_equal.
      unfold pread. rewrite (decide_True _ _ (P := (off < _)%Z)) by lia. f_equal.
      rewrite Hdrop, take_app_ge by lia. f_equal.
      assert (drop (Z.to_nat (off + length here)) c = more) as Hm.
      { rewrite Z2Nat.inj_add, Nat2Z.id by lia. rewrite <- drop_drop, Hdrop.
        by rewrite drop_app_length. }
      case_decide as Hd; simpl; [by rewrite Hm|].
      rewrite drop_ge in Hm by lia. by rewrite <- Hm, take_nil.
    + destruct Hpost as [[Hl2 Ho2]|[Hs2 Ho2]]; [left|right]; split; try done; lia.
Qed.

Lemma read_all_spent reqs r pos c :
  spent r → in_order pos reqs → (length c ≤ pos)%Z →
  ∃ N r', ∀ fuel, N ≤ fuel →
    read_all fuel reqs r = (Ok ((λ '(off, size), pread c off size) <$> reqs), r').
Proof.
  revert r pos. induction reqs as [|[off size] reqs IH]; intros r pos Hs Ho Hc.
  { exists 0, r. done. }
  destruct Ho as [Ho1 Ho2]. destruct (read_spent r off size Hs) as (N & r1 & Hs1 & Hr1).
  destruct (IH r1 (off + size)%Z Hs1 Ho2 ltac:(lia)) as (N2 & r2 & Hr2).
  exists (N + N2), r2. intros fuel Hf. unfold read_all in *. cbn [mapM'].
  run_with (Hr1 fuel ltac:(lia)). run_with (Hr2 fuel ltac:(lia)). unfold mret, M_ret.
  cbn [fmap list_fmap]. unfold pread at 2. by rewrite decide_False by lia.
Qed.

Lemma read_all_live reqs r pos c :
  live r c → (length c < 2 ^ 64)%Z → (offset r ≤ pos)%Z → in_order pos reqs →
  ∃ N r', ∀ fuel, N ≤ fuel →
    read_all fuel reqs r = (Ok ((λ '(off, size), pread c off size) <$> reqs), r').
Proof.
  intros Hl Hlen. revert r pos Hl. induction reqs as [|[off size] reqs IH]; intros r pos Hl Hp Ho.
  { exists 0, r. done. }
  destruct Ho as [Ho1 Ho2]. destruct (read_run r c off size Hl Hlen ltac:(lia))
    as (N & r1 & Hr1 & Hpost).
  assert (∃ N r', ∀ fuel, N ≤ fuel →
    read_all fuel reqs r1 = (Ok ((λ '(off, size), pread c off size) <$> reqs), r'))
    as (N2 & r2 & Hr2).
  { destruct Hpost as [[Hl1 [Hp1 _]]|[Hs1 Hp1]]; [by eapply IH|by eapply read_all_spent]. }
  exists (N + N2), r2. intros fuel Hf. unfold read_all in *. cbn [mapM'].
  run_with (Hr1 fuel ltac:(lia)). by run_with (Hr2 fuel ltac:(lia)).
Qed.

Lemma new_live it ls : yields it ls → live (new_from_iter (Some it)) (concat ls).
Proof. intros Hy. split; [done|]. by exists it, ls, []. Qed.

(** A read before the buffer panics. *)
Lemma read_back_panics r c off size fuel :
  live r c → (length c < 2 ^ 64)%Z → buf r ≠ [] → (off < offset r)%Z →
  (read (S fuel) off size r).1 = Panic.
Proof.
  intros Hl Hlen Hb Hoff. destruct (live_end r c Hl Hlen) as (Hend & Hpos & Hle).
  assert (advance (S fuel) off r = (Ok (), r)) as Ha.
  { cbn [advance]. run_pure. rewrite decide_False; [done|]. intros [?|?]; [lia|done]. }
  cbn [read]. run_with Ha. run_pure. rewrite (proj1 Hl).
  erewrite bind_Panic; [done|]. unfold lift, from_. by rewrite (assert_Panic (offset r ≤ off)%Z) by lia.
Qed.

End Reader.

Section Spec.
Context {It : Type} `{ChunkIteratorLaws It}.

(** Once a read has reached past the end of the file the reader gives nothing any more,
    at whatever offset: also what it has given before is not found again. *)
Theorem nothing_after_end (it : It) ls off (size : nat) off' (size' : nat) :
  yields it ls → (length (concat ls) < 2 ^ 64)%Z → (0 ≤ off)%Z →
  (length (concat ls) < off + size)%Z →
  ∃ N, ∀ fuel, N ≤ fuel →
    (read_all fuel [(off, size); (off', size')] (new_from_iter (Some it))).1 =
      Ok [pread (concat ls) off size; None].
Proof.
  intros Hy Hlen Hoff Hend.
  destruct (read_run _ _ off size (new_live it ls Hy) Hlen Hoff) as (N & r1 & Hr1 & Hpost).
  destruct Hpost as [[_ Hl]|[Hs _]]; [lia|].
  destruct (read_spent r1 off' size' Hs) as (N2 & r2 & _ & Hr2).
  exists (N + N2). intros fuel Hf. unfold read_all. cbn [mapM'].
  run_with (Hr1 fuel ltac:(lia)). unfold mbind at 1, M_bind.
  by run_with (Hr2 fuel ltac:(lia)).
Qed.

End Spec.

Section Stored.
Context {St : Type} `{HashTreeBackendLaws St} `{CborLaws Models.HashRefs}.

(** C16: Write a file's chunks to a hash tree and open the reference with a [FileReader]: any
    requests, each starting at or after the end of the one before, are answered with what the
    file holds there, short or empty at its end, as if the file were one sequence of bytes. *)
Theorem stored_file_slices lf o chunks info (s : St) root w' s' reqs :
  2 ≤ o → backend_ok s →
  write_all chunks info (Writer_new lf o, s) = (Ok root, (w', s')) → readable s' →
  (length (concat chunks) < 2 ^ 64)%Z → in_order 0 reqs →
  ∃ N, ∀ fuel, N ≤ fuel →
    (read_all fuel reqs (FileReader_new s' root)).1 =
      Ok ((λ '(off, size), pread (concat chunks) off size) <$> reqs).
Proof.
  intros Ho Hs Hrun Hr Hlen Hreqs.
  pose proof (wp_Ok_inv _ _ _ _ _ (write_all_wp lf o chunks info s Ho Hs) Hrun) as (_ & _ & Hd).
  assert (concat (stream chunks) = concat chunks) as Hc by (by destruct chunks).
  assert (yields (LeafIterator_new root s') (stream chunks)) as Hy.
  { split_and!; [done..|]. exists lf. by apply denotes_pending. }
  rewrite <- Hc in *.
  destruct (read_all_live reqs _ 0 _ (new_live _ _ Hy) Hlen ltac:(done) Hreqs) as (N & r' & Hall).
  exists N. intros fuel Hf. unfold FileReader_new. by rewrite Hall.
Qed.

End Stored.

(** ** Concrete runs *)

Section Runs.

#[local] Instance run_backend : HashTreeBackend MemoryBackend := memory_backend plain_digest.
#[local] Instance run_laws : HashTreeBackendLaws MemoryBackend :=
  memory_backend_laws plain_digest plain_digest_inj.
#[local] Instance run_cbor : Cbor Models.HashRefs := codec_cbor.
#[local] Instance run_cbor_laws : CborLaws Models.HashRefs := codec_cbor_laws.

Definition three : list bytes := [lit "abc"; lit "de"; lit "fgh"].

Lemma nothing_after_end_witness :
  ∃ N, ∀ fuel, N ≤ fuel →
    (read_all fuel [(2%Z, 10); (2%Z, 1)] (new_from_iter (Some three))).1 =
      Ok [pread (concat three) 2 10; None].
Proof.
  exact (nothing_after_end three three 2 10 2 1 eq_refl ltac:(done) ltac:(done) ltac:(done)).
Defined.

Lemma stored_file_slices_witness :
  ∃ root w' s', write_all three None (Writer_new Models.FileChunk 2, MemoryBackend_new)
      = (Ok root, (w', s')) ∧
  ∃ N, ∀ fuel, N ≤ fuel →
    (read_all fuel [(1%Z, 3); (4%Z, 1); (6%Z, 9); (20%Z, 1)] (FileReader_new s' root)).1 =
      Ok [Some (lit "bcd"); Some (lit "e"); Some (lit "gh"); None].
Proof.
  destruct (ok_run_split (write_all three None (Writer_new Models.FileChunk 2, MemoryBackend_new)))
    as (root & [w s'] & E).
  { vm_compute. reflexivity. }
  exists root, w, s'. split; [exact E|].
  exact (stored_file_slices Models.FileChunk 2 three None MemoryBackend_new root w s'
    [(1%Z, 3); (4%Z, 1); (6%Z, 9); (20%Z, 1)] ltac:(lia) I E I ltac:(done)
    ltac:(repeat split; done)).
Defined.

End Runs.
