(* ===== verification/HashStore.v ===== *)
(** * Hashes over blobs: key/hash_store_backend.rs

    [HashStoreBackend] is the backend of the real hash trees: a chunk is reserved in the hash
    index under its digest, appended to the current blob, and committed by a callback when its
    blob has been stored. The callback of a chunk is its hash id. *)

From S2P Require Import Prelude Cbor Refs Ordered Upq Timer Db Crypto HashIndex Backend Blob.
From S2P Require Import BlobStore HashTree.
From S2P Require Models.

(** What a store was asked to insert. *)
Abbreviation history := (list (chunk.NodeType * Models.LeafType * bytes)).

Section HashStore.
Context `{Sodium} `{LruCache} `{Cbor Models.ChunkRef} `{Cbor Models.HashIds} `{Cbor Models.HashRef}.
Context {B : Type} `{!StoreBackend (list Z) B}.

Abbreviation HS := (M (Store Z B)).

(** The closure given to the blob store: [local_hash_index.commit(id, None)]. It waits for the
    mutex that [insert_chunk] holds until the entry is updated, so it runs after that. *)
Definition commit_callback (id : Z) : HI unit := commit id None.

(** A chunk whose digest is not the one asked for is as good as none. *)
Definition hs_fetch_chunk (href : tree.HashRef) : HS (option bytes) :=
  lift (assert_ (tree.hash href ≠ [])) ;;
  data ← retrieve_chunk href;
  match data with
  | None => mret None
  | Some data =>
      k ← gets st_keys;
      actual_hash ← lift (hash.Hash_new k (tree.node href) (tree.leaf href) data);
      if decide (tree.hash href = actual_hash) then mret (Some data) else mret None
  end.

(** The loop runs until the thread that reserved the hash has updated its entry; no operation
    leaves an entry in that state, so that a [RetryError] seen here would come back for ever. *)
Definition hs_fetch_persistent_ref (hash : bytes) : HS (option chunk.ChunkRef) :=
  lift (assert_ (hash ≠ [])) ;;
  r ← attempt (zoom hi_lens (HashIndex.fetch_persistent_ref hash));
  match r with
  | inl r => mret r
  | inr RetryError => diverge
  | inr e => throw e
  end.

Definition hs_fetch_childs (hash : bytes) : HS (option (list Z)) :=
  r ← zoom hi_lens (HashIndex.fetch_childs hash);
  match r with Some p => mret p | None => mret None end.

Definition hs_insert_chunk (chunk : bytes) (node : chunk.NodeType) (leaf : Models.LeafType)
    (childs : option (list Z)) (info : option key.Info) : HS (Z * tree.HashRef) :=
  k ← gets st_keys;
  h ← lift (hash.Hash_new k node leaf chunk);
  let hash_entry := hash.mkEntry h node leaf childs None in
  r ← zoom hi_lens (reserve hash_entry);
  match r with
  | HashKnown id =>
      pref ← hs_fetch_persistent_ref h;
      pref ← lift (expect pref);
      mret (id, tree.mkHashRef h node leaf pref None)
  | ReserveOk id =>
      href ← store_chunk commit_callback chunk h node leaf info id;
      let hash_entry := hash.mkEntry h node leaf childs (Some (tree.persistent_ref href)) in
      zoom hi_lens (update_reserved id hash_entry) ;;
      mret (id, href)
  end.

#[global] Instance hash_store_backend : HashTreeBackend (Store Z B) := {|
  fetch_chunk := hs_fetch_chunk;
  fetch_childs := hs_fetch_childs;
  fetch_persistent_ref := hs_fetch_persistent_ref;
  insert_chunk := hs_insert_chunk;
|}.

(** The same backend, keeping a record of what it was asked to insert. The record is for the
    statements only: nothing reads it. *)
Definition logged : HashTreeBackend (Store Z B * history) := {|
  fetch_chunk h := zoom fst_lens (hs_fetch_chunk h);
  fetch_childs h := zoom fst_lens (hs_fetch_childs h);
  fetch_persistent_ref h := zoom fst_lens (hs_fetch_persistent_ref h);
  insert_chunk d n l c i :=
    zoom snd_lens (modify (λ hist, (n, l, d) :: hist)) ;; zoom fst_lens (hs_insert_chunk d n l c i);
|}.

End HashStore.
