(* ===== verification/StoreIndex.v ===== *)
(** * The hash index as the blob store sees it

    [index_ok E R out os]: the queue in front of its table, where [E] holds of the entries (with
    their status), [R] of the ready rows, [out] is the hash that is being inserted and [os] are
    the hashes whose callback has not run: exactly the pending ones. Unlike [HashIndex_ok] this
    says nothing of the order of the ids, and so holds whatever becomes of the id counter. *)

From S2P Require Import Prelude Cbor Refs Ordered Upq Timer Db HashIndex.
From S2P Require Models.
Import UniquePriorityQueue (Upq, Upq_ok, priority, key_to_priority, Status, Pending, Ready).

Abbreviation rows h := (schema.hashes (cur (index h))).

Definition same_blobs (h h' : HashIndex) : Prop :=
  schema.blobs (cur (index h')) = schema.blobs (cur (index h)).

Lemma as_i64_inj a b : is_u64 a → is_u64 b → as_i64 a = as_i64 b → a = b.
Proof.
  intros Ha Hb E. apply (f_equal as_u64) in E. by rewrite !as_u64_as_i64 in E by done.
Qed.

Record index_ok (E : Status → bytes → QueueEntry → Prop) (R : schema.Hash → Prop)
    (out : option Z) (os : list Z) (h : HashIndex) : Prop := {
  ix_upq : Upq_ok (queue h);
  ix_queued : ∀ p st k qe, priority (queue h) !! p = Some (st, k, qe) →
    is_u64 p ∧ q_id qe = p ∧
    (∃ row, rows h !! as_i64 p = Some row ∧ schema.hash row = k ∧ schema.ready row = false) ∧
    (if decide (out = Some p) then st = Pending else E st k qe);
  ix_not_ready : ∀ i row, rows h !! i = Some row → schema.ready row = false →
    is_i64 i ∧ is_Some (priority (queue h) !! as_u64 i);
  ix_unique : unique_hashes (rows h);
  ix_rows : ∀ i row, rows h !! i = Some row → schema.ready row = true → R row;
  ix_nodup : NoDup os;
  ix_outstanding : ∀ p, p ∈ os ↔
    out ≠ Some p ∧ ∃ k qe, priority (queue h) !! p = Some (Pending, k, qe);
}.

Section index_ok.
Context `{CborLaws Models.ChunkRef} `{CborLaws Models.HashIds} `{CborLaws Models.HashRef}.
Implicit Types (h : HashIndex) (E : Status → bytes → QueueEntry → Prop) (R : schema.Hash → Prop).

Lemma index_ok_ext E R out os h h' :
  queue h' = queue h → rows h' = rows h → index_ok E R out os h → index_ok E R out os h'.
Proof. intros Hq Hr []. split; rewrite ?Hq, ?Hr; done. Qed.

Lemma index_ok_mono E E' R R' out os h :
  (∀ st k qe, E st k qe → E' st k qe) → (∀ row, R row → R' row) →
  index_ok E R out os h → index_ok E' R' out os h.
Proof.
  intros HE HR [Hu Hq Hn Hun Hr Hnd Ho]. split; [done| |done|done|eauto|done|done].
  intros p st k qe Hp. destruct (Hq _ _ _ _ Hp) as (? & ? & ? & Hc). do 3 (split; [done|]).
  destruct (decide (out = Some p)); auto.
Qed.

Lemma index_ok_perm E R out os os' h :
  os ≡ₚ os' → index_ok E R out os h → index_ok E R out os' h.
Proof.
  intros Hp [Hu Hq Hn Hun Hr Hnd Ho]. split; [done..| |]; [by rewrite <- Hp|].
  intros p. rewrite <- Hp. done.
Qed.

(** A result that is neither an error nor a run without end. *)
Definition no_error {A} (r : res A) : Prop :=
  match r with Ok _ | Panic => True | _ => False end.

Lemma no_error_bind {A A'} (r : res A) (f : A → res A') :
  no_error r → (∀ a, no_error (f a)) → no_error (r ≫= f).
Proof. destruct r; simpl; auto. Qed.

Lemma no_error_unwrap_decode {A} `{Cbor A} l : no_error (unwrap (decode l)).
Proof. unfold decode. by destruct (from_slice l). Qed.

Lemma queue_entry_no_error t i row : no_error (queue_entry_of_row t i row).
Proof.
  unfold queue_entry_of_row. apply no_error_bind.
  - unfold childs_of_row. destruct (schema.childs row) as [b|]; [|done]. case_decide; [done|].
    apply no_error_bind; [|done]. unfold decode_childs, decode. by destruct (from_slice b).
  - intros cs. apply no_error_bind.
    + unfold decode_chunk_ref. destruct (schema.blob_ref row) as [c|]; [|done].
      apply no_error_bind.
      * unfold chunk.from_bytes, decode. by destruct (from_slice c).
      * intros r. apply no_error_bind; [|done]. case_decide; [|done].
        by destruct (joined_blob t row).
    + intros p. apply no_error_bind; [|done].
      unfold chunk.LeafType_from_u64. by repeat case_match.
Qed.

(** An operation that leaves the tables of hashes and blobs as they are. *)
Lemma maybe_flush_index_wp E R out os h :
  index_ok E R out os h →
  wp (zoom index_lens maybe_flush) h (λ _ h',
    index_ok E R out os h' ∧ same_blobs h h' ∧ queue h' = queue h).
Proof.
  intros Hh. apply wp_zoom. destruct (maybe_flush_run (index h)) as (x & E1 & Hc & _).
  refine (wp_Ok _ _ _ _ _ E1 _). split_and!; [|unfold same_blobs; simpl; by rewrite Hc|done].
  apply (index_ok_ext E R out os h); [done| |done]. simpl. by rewrite Hc.
Qed.

(** Rows get new tags. *)
Lemma set_tag_index_wp E R out os o t h :
  (∀ z row, R row → R (Db.set_tag z row)) → index_ok E R out os h →
  wp (zoom index_lens (hash_set_tag o t)) h (λ _ h',
    index_ok E R out os h' ∧ same_blobs h h' ∧ queue h' = queue h).
Proof.
  intros HR [Hu Hq Hn Hun Hr Hnd Ho]. apply wp_zoom. unfold hash_set_tag.
  refine (wp_Ok _ _ _ _ _ (on_hashes_modify _ _) _). split_and!; [|done..].
  assert (∀ p z i row', update p (Db.set_tag z) (rows h) !! i = Some row' →
    ∃ row, rows h !! i = Some row ∧ (row' = row ∨ row' = Db.set_tag z row)) as Hinv.
  { intros p z i row' Hi. rewrite lookup_update, fmap_Some in Hi. destruct Hi as (row & Hrow & ->).
    exists row. split; [done|]. destruct (p i row); auto. }
  split; cbn [queue index lset index_lens cur_lens hashes_lens cur schema.hashes]; try done.
  - intros p st k qe Hp. destruct (Hq _ _ _ _ Hp) as (? & ? & (row & Hrow & Hk & Hready) & HE).
    do 2 (split; [done|]). split; [|done]. setoid_rewrite lookup_update. cbn [lget index_lens].
    rewrite Hrow. eexists. split; [done|]. by destruct (match o with Some _ => _ | None => _ end).
  - intros i row (row0 & Hrow & [->| ->])%Hinv Hready; by eapply Hn.
  - intros i j a b (a0 & Ha & Ea)%Hinv (b0 & Hb & Eb)%Hinv E'. eapply Hun; [done..|].
    by destruct Ea as [->| ->], Eb as [->| ->].
  - intros i row (row0 & Hrow & [->| ->])%Hinv Hready; [by eapply Hr|]. apply HR. by eapply Hr.
Qed.

(** A hash that is located is queued, or has a ready row. *)
Lemma locate_index_wp E R out os bs h :
  index_ok E R out os h →
  wp (locate bs) h (λ o h', h' = h ∧
    match o with
    | None => ∀ i row, rows h !! i = Some row → schema.hash row ≠ bs
    | Some qe =>
        (∃ p st, priority (queue h) !! p = Some (st, bs, qe)) ∨
        (∃ i row, rows h !! i = Some row ∧ schema.ready row = true ∧ schema.hash row = bs ∧
           queue_entry_of_row (cur (index h)) i row = Ok qe)
    end).
Proof.
  intros Hh. unfold wp. pose proof (locate_state bs h) as Hs.
  destruct (locate bs h) as [r h'] eqn:El. simpl in Hs. subst h'.
  assert (∀ qe, r = Ok (Some qe) → key_to_priority (queue h) !! bs ≠ None →
    ∃ p st, priority (queue h) !! p = Some (st, bs, qe)) as Hqueue.
  { intros qe -> Hk. unfold locate in El. rewrite bind_gets in El.
    unfold UniquePriorityQueue.find_value_of_key in El.
    destruct (key_to_priority (queue h) !! bs) as [p|] eqn:Ek; [|done].
    destruct (UniquePriorityQueue.key_prio _ (ix_upq _ _ _ _ _ Hh) _ _ Ek) as (st & v & Hp).
    simpl in El. rewrite Hp in El. simpl in El. injection El as ->. eauto. }
  destruct (key_to_priority (queue h) !! bs) as [p|] eqn:Ek.
  - assert (∃ qe, r = Ok (Some qe)) as [qe ->].
    { unfold locate in El. rewrite bind_gets in El.
      unfold UniquePriorityQueue.find_value_of_key in El.
      destruct (UniquePriorityQueue.key_prio _ (ix_upq _ _ _ _ _ Hh) _ _ Ek) as (st & v & Hp).
      rewrite Ek in El. simpl in El. rewrite Hp in El. simpl in El. injection El as <-. eauto. }
    split; [done|]. left. by apply Hqueue.
  - clear Hqueue. assert (zoom index_lens (hash_locate bs) h = (r, h)) as Ez.
    { unfold locate in El. rewrite bind_gets in El.
      unfold UniquePriorityQueue.find_value_of_key in El. by rewrite Ek in El. }
    unfold zoom, hash_locate in Ez. unfold lift, assert_, mbind, M_bind, gets in Ez. simpl in Ez.
    case_decide; [|by injection Ez as <-]. simpl in Ez.
    destruct (select _ (rows h)) as [|[i row] l] eqn:Es; simpl in Ez.
    + injection Ez as <-. split; [done|]. intros i row Hi.
      apply (proj1 (select_nil _ _) Es) in Hi. by apply bool_decide_eq_false in Hi.
    + assert ((i, row) ∈ select (λ _ rw, bool_decide (schema.hash rw = bs)) (rows h)) as Hin
        by (rewrite Es; constructor).
      apply elem_of_select in Hin as [Hi Hb%bool_decide_eq_true].
      unfold mret, M_ret, res_ret in Ez.
      destruct (queue_entry_of_row (cur (index h)) i row) as [qe|e| |] eqn:Eq;
        injection Ez as <-; try done.
      * split; [done|]. right. exists i, row. split_and!; try done.
        destruct (schema.ready row) eqn:Er; [done|].
        destruct (ix_not_ready _ _ _ _ _ Hh _ _ Hi Er) as [Hir [[[st k] v] Hp]].
        destruct (ix_queued _ _ _ _ _ Hh _ _ _ _ Hp) as (_ & _ & (row' & Hrow & Hk & _) & _).
        rewrite as_i64_as_u64 in Hrow by done. rewrite Hi in Hrow. injection Hrow as <-.
        apply (UniquePriorityQueue.prio_key _ (ix_upq _ _ _ _ _ Hh)) in Hp. congruence.
      * pose proof (queue_entry_no_error (cur (index h)) i row) as Hne. by rewrite Eq in Hne.
      * pose proof (queue_entry_no_error (cur (index h)) i row) as Hne. by rewrite Eq in Hne.
Qed.

Lemma hash_next_id_wp x : wp hash_next_id x (λ id x', is_u64 id ∧ cur x' = cur x).
Proof.
  unfold hash_next_id. apply wp_bind, wp_zoom. refine (wp_Ok _ _ _ _ _ eq_refl _).
  apply wp_ret. split; [apply as_u64_range|done].
Qed.

Lemma hash_insert_new_wp id bs e x :
  wp (hash_insert_new id bs e) x (λ _ x', schema.hashes (cur x) !! as_i64 id = None ∧
    (∀ i row, schema.hashes (cur x) !! i = Some row → schema.hash row ≠ bs) ∧
    schema.hashes (cur x') = <[as_i64 id := new_row bs e]> (schema.hashes (cur x)) ∧
    schema.blobs (cur x') = schema.blobs (cur x)).
Proof.
  unfold hash_insert_new, on_hashes. apply wp_bind, wp_zoom, wp_zoom.
  unfold wp. destruct (insert_into _ _ _ _) as [q t] eqn:Ei.
  apply insert_into_inv in Ei as [[-> _]|(-> & -> & Hk & Hc)]; [done|].
  split_and!; try done. intros i row Hi Heq. apply Hc in Hi. by apply bool_decide_eq_false in Hi.
Qed.

Lemma put_value_wp (p : Z) (k : bytes) (v : QueueEntry) q :
  Upq_ok q →
  wp (UniquePriorityQueue.put_value p k v) q (λ ok q', ok = true → Upq_ok q' ∧
    priority q !! p = None ∧ key_to_priority q !! k = None ∧
    q' = UniquePriorityQueue.MkUpq (<[p := (Pending, k, v)]> (priority q))
           (<[k := p]> (key_to_priority q))).
Proof.
  intros Hq. unfold wp. destruct (UniquePriorityQueue.put_value p k v q) as [r q'] eqn:E.
  pose proof (UniquePriorityQueue.put_value_ok _ _ _ _ _ _ Hq E) as Hq'.
  unfold UniquePriorityQueue.put_value, OrderedCollection.insert_unique in E.
  case_decide as Hd; [by injection E as <- _|]. apply Decidable.not_or in Hd as [Hp Hk].
  apply eq_None_not_Some in Hp, Hk. rewrite Hp in E. by injection E as <- <-.
Qed.

(** A pending entry that is added or changed keeps the queue settled. *)
Lemma settled_pending (q : Queue) p k v m :
  settled q → settled (UniquePriorityQueue.MkUpq (<[p := (Pending, k, v)]> (priority q)) m).
Proof.
  intros Hs. right. cbn [priority].
  assert (∃ p0 k0 v0, <[p := (Pending, k, v)]> (priority q) !! p0 = Some (Pending, k0, v0) ∧
    (p0 ≤ p)%Z ∧ ∀ p', is_Some (priority q !! p') → (p0 ≤ p')%Z) as (p0 & k0 & v0 & Hp0 & Hle & Hmin).
  { destruct Hs as [E|(p1 & k1 & v1 & Hp1 & Hmin)].
    - exists p, k, v. rewrite lookup_insert_eq. split_and!; [done|lia|].
      intros p'. rewrite E, lookup_empty. by intros [].
    - destruct (decide (p1 < p)%Z) as [Hlt|Hge].
      + exists p1, k1, v1. rewrite lookup_insert_ne by lia. split_and!; [done|lia|done].
      + exists p, k, v. rewrite lookup_insert_eq. split_and!; [done|lia|].
        intros p' Hp'. specialize (Hmin p' Hp'). lia. }
  exists p0, k0, v0. split; [done|]. intros p'. rewrite lookup_insert_is_Some'.
  intros [<-|?]; [done|by apply Hmin].
Qed.

(** Reserving a new hash: it is queued, pending, and its row is not ready. *)
Lemma reserve_entry_index_wp E R os e h :
  index_ok E R None os h →
  wp (reserve_entry e) h (λ id h', index_ok E R (Some id) os h' ∧ same_blobs h h' ∧
    (settled (queue h) → settled (queue h')) ∧
    priority (queue h') !! id = Some (Pending, hash.hash e, new_queue_entry id e)).
Proof.
  intros Hh. unfold reserve_entry. apply wp_bind.
  eapply wp_mono; [by apply (maybe_flush_index_wp E R)|]. intros [] h1 (Hh1 & Hb1 & Hq1).
  rewrite <- Hq1. clear Hq1 Hh. unfold same_blobs in *. rewrite <- Hb1. clear Hb1 h.
  apply wp_assert. intros Hne. apply wp_bind, wp_zoom.
  eapply wp_mono; [apply hash_next_id_wp|]. intros id x1 [Hid Hx1]. cbn [lget index_lens] in Hx1.
  apply wp_bind, wp_zoom. eapply wp_mono; [apply hash_insert_new_wp|].
  cbn [lget lset index_lens queue index]. rewrite Hx1.
  intros [] x2 (Hfree & Hnew & Hrows & Hblobs). apply wp_bind, wp_zoom.
  cbn [lget lset queue_lens index_lens queue index].
  eapply wp_mono; [apply put_value_wp, (ix_upq _ _ _ _ _ Hh1)|]. intros ok q' Hok. apply wp_assert. intros ->.
  destruct (Hok eq_refl) as (Hu' & Hp & Hk & ->). clear Hok. apply wp_ret.
  cbn [lget lset queue_lens index_lens queue index]. split_and!; [|done|apply settled_pending|apply lookup_insert_eq].
  destruct Hh1 as [Hu Hq Hn Hun Hr Hnd Ho]. split; cbn [queue index]; rewrite ?Hrows.
  - done.
  - intros p st k qe. cbn [priority]. rewrite lookup_insert_Some.
    intros [[<- [= <- <- <-]]|[Hne' Hp']].
    + do 2 (split; [done|]). rewrite decide_True by done. split; [|done].
      eexists. by rewrite lookup_insert_eq.
    + destruct (Hq _ _ _ _ Hp') as (Hpr & ? & (row & Hrow & ?) & HE). do 2 (split; [done|]).
      rewrite decide_False by congruence. rewrite decide_False in HE by done. split; [|done].
      exists row. rewrite lookup_insert_ne; [done|]. congruence.
  - intros i row. cbn [priority]. rewrite lookup_insert_Some. intros [[<- <-]|[Hne' Hi]] Hr'.
    + split; [apply as_i64_range|]. rewrite as_u64_as_i64, lookup_insert_eq by done. eauto.
    + destruct (Hn _ _ Hi Hr') as [? ?]. split; [done|]. rewrite lookup_insert_is_Some'. auto.
  - intros i j a b. rewrite !lookup_insert_Some.
    intros [[<- <-]|[Hi Ha]] [[<- <-]|[Hj Hb]] Eh; [done| | |by eapply Hun].
    + by apply Hnew in Hb.
    + by apply Hnew in Ha.
  - intros i row. rewrite lookup_insert_Some. intros [[<- <-]|[Hne' Hi]] Hr'; [done|eauto].
  - done.
  - intros p. cbn [priority]. rewrite Ho. split.
    + intros (_ & k & qe & Hp'). split; [congruence|]. exists k, qe.
      rewrite lookup_insert_ne; [done|]. congruence.
    + intros (Hne' & k & qe & Hp'). split; [done|]. exists k, qe.
      rewrite lookup_insert_ne in Hp' by congruence. done.
Qed.

(** What the caller gets from [reserve]. *)
Lemma reserve_index_wp E R os e h :
  index_ok E R None os h →
  wp (reserve e) h (λ r h',
    match r with
    | HashKnown id => h' = h ∧ ∃ qe, locate (hash.hash e) h = (Ok (Some qe), h) ∧
        ((∃ p st, priority (queue h) !! p = Some (st, hash.hash e, qe)) ∨
         (∃ i row, rows h !! i = Some row ∧ schema.ready row = true ∧
            schema.hash row = hash.hash e ∧ queue_entry_of_row (cur (index h)) i row = Ok qe))
    | ReserveOk id => index_ok E R (Some id) os h' ∧ same_blobs h h' ∧
        (settled (queue h) → settled (queue h')) ∧
        priority (queue h') !! id = Some (Pending, hash.hash e, new_queue_entry id e)
    end).
Proof.
  intros Hh. unfold reserve. apply wp_assert. intros _. apply wp_bind.
  pose proof (locate_index_wp E R None os (hash.hash e) h Hh) as Hl. unfold wp at 1 in Hl.
  unfold wp at 1. destruct (locate (hash.hash e) h) as [[[qe|]| | |] h'] eqn:El; try done;
    destruct Hl as [-> Hl].
  - apply wp_ret. split; [done|]. exists qe. done.
  - apply wp_bind. eapply wp_mono; [by apply (reserve_entry_index_wp E R os)|].
    intros id h1 Hh1. by apply wp_ret.
Qed.

(** The entry being inserted gets its reference: from now on it is one of the pending ones. *)
Lemma update_reserved_index_wp E R id k qe e os h :
  index_ok E R (Some id) os h → priority (queue h) !! id = Some (Pending, k, qe) →
  hash.hash e = k →
  E Pending k (mkQueueEntry (q_id qe) (hash.node e) (hash.leaf e) (hash.childs e)
    (hash.persistent_ref e) (q_tag qe)) →
  wp (update_reserved id e) h (λ _ h', index_ok E R None (id :: os) h' ∧ same_blobs h h' ∧
    (settled (queue h) → settled (queue h'))).
Proof.
  intros Hh Hp Hk HE. unfold update_reserved. apply wp_assert. intros _. apply wp_gets.
  unfold UniquePriorityQueue.find_key. rewrite Hk.
  pose proof (UniquePriorityQueue.prio_key _ (ix_upq _ _ _ _ _ Hh) _ _ _ _ Hp) as Hkey.
  rewrite Hkey. apply wp_assert. intros _. apply wp_zoom. cbn [lget queue_lens].
  unfold UniquePriorityQueue.update_value, wp. rewrite Hkey, Hp.
  split; [|split; [done|apply settled_pending]].
  pose proof Hh as [Hu Hq Hn Hun Hr Hnd Ho].
  split; cbn [queue index lset queue_lens]; [| | |done|done| |].
  - by eapply UniquePriorityQueue.upd_ok.
  - intros p st k1 qe1. cbn [priority]. rewrite lookup_insert_Some.
    intros [[<- [= <- <- <-]]|[Hne Hp']].
    + destruct (Hq _ _ _ _ Hp) as (? & ? & ? & _). by do 3 (split; [done|]).
    + destruct (Hq _ _ _ _ Hp') as (? & ? & ? & HE'). do 3 (split; [done|]).
      by rewrite decide_False in HE' by congruence.
  - intros i row Hi Hrd. destruct (Hn _ _ Hi Hrd) as [? ?]. split; [done|]. cbn [priority].
    rewrite lookup_insert_is_Some'. auto.
  - constructor; [|done]. rewrite Ho. naive_solver.
  - intros p. cbn [priority]. rewrite elem_of_cons, Ho. split.
    + intros [->|(Hne & k1 & qe1 & Hp')]; (split; [done|]).
      * eexists _, _. by rewrite lookup_insert_eq.
      * exists k1, qe1. rewrite lookup_insert_ne; [done|]. congruence.
    + intros (_ & k1 & qe1 & Hp'). destruct (decide (p = id)) as [->|Hne]; [by left|right].
      split; [congruence|]. exists k1, qe1. by rewrite lookup_insert_ne in Hp' by done.
Qed.

(** The row of a ready entry. *)
Definition row_from (k : bytes) (qe : QueueEntry) (row : schema.Hash) : Prop :=
  ∃ pref b, q_persistent_ref qe = Some pref ∧ chunk.blob_id pref = Some b ∧
    schema.hash row = k ∧ schema.ready row = true ∧
    schema.blob_ref row = Some (chunk.as_bytes_no_name pref) ∧ schema.blob_id row = b.

Section commit.
Context (E : Status → bytes → QueueEntry → Prop) (R : schema.Hash → Prop).
Context (HER : ∀ k qe row, E Ready k qe → row_from k qe row → R row).

(** Taking a ready entry out of the queue makes its row ready. *)
Lemma pop_ready_index out os p k qe h :
  index_ok E R out os h → priority (queue h) !! p = Some (Ready, k, qe) →
  p = q_id qe ∧
  wp (hash_set_ready p qe) (index h) (λ _ x', ∀ q',
    q' = UniquePriorityQueue.MkUpq (delete p (priority (queue h)))
           (delete k (key_to_priority (queue h))) →
    index_ok E R out os (mkHashIndex q' x') ∧
    schema.blobs (cur x') = schema.blobs (cur (index h)) ∧
    (∀ o, out = Some o → priority q' !! o = priority (queue h) !! o)).
Proof.
  intros Hh Hp. pose proof Hh as [Hu Hq Hn Hun Hr Hnd Ho].
  destruct (Hq _ _ _ _ Hp) as (Hpr & Hid & (row & Hrow & Hk & Hrd) & HE).
  split; [exact (eq_sym Hid)|].
  destruct (decide (out = Some p)) as [|Hout]; [discriminate HE|].
  eapply wp_mono; [apply hash_set_ready_wp|].
  intros [] x' (pref & b & f & Hpref & Hb & Hf & ->) q' ->. cbn [cur lset cur_lens hashes_lens
    schema.hashes schema.blobs].
  assert (∀ j, j ≠ as_i64 p → update (λ i _, bool_decide (i = as_i64 p)) f (rows h) !! j
    = rows h !! j) as Hne.
  { intros j Hj. rewrite lookup_update, bool_decide_eq_false_2 by done. by destruct (_ !! j). }
  assert (update (λ i _, bool_decide (i = as_i64 p)) f (rows h) !! as_i64 p = Some (f row)) as Heq.
  { rewrite lookup_update, Hrow. simpl. by rewrite bool_decide_eq_true_2. }
  split; [|split; [done|]].
  - split; cbn [queue index cur schema.hashes priority key_to_priority].
    + by eapply UniquePriorityQueue.del_ok.
    + intros p' st' k' qe' [Hpp Hp']%lookup_delete_Some.
      destruct (Hq _ _ _ _ Hp') as (? & ? & (row' & ? & ? & ?) & ?). do 2 (split; [done|]).
      split; [|done]. exists row'. rewrite Hne; [done|]. intros ?%as_i64_inj; [done..|].
      congruence.
    + intros i r. destruct (decide (i = as_i64 p)) as [->|Hi].
      * rewrite Heq. intros [= <-]. destruct (Hf row) as (_ & ? & _). congruence.
      * rewrite Hne by done. intros Hir Hrr. destruct (Hn _ _ Hir Hrr) as [? ?].
        split; [done|]. rewrite lookup_delete_ne; [done|]. intros ->.
        by rewrite as_i64_as_u64 in Hi.
    + apply unique_update_hashes; [|done]. intros r. by destruct (Hf r) as (? & _).
    + intros i r. destruct (decide (i = as_i64 p)) as [->|Hi].
      * rewrite Heq. intros [= <-] _. eapply HER; [done|]. exists pref, b.
        destruct (Hf row) as (E1 & E2 & _ & E4 & E5). rewrite E1, E2, E4, E5. done.
      * rewrite Hne by done. apply Hr.
    + done.
    + intros p'. rewrite Ho. split; intros (Ho' & k' & qe' & Hp'); (split; [done|]);
        exists k', qe'.
      * rewrite lookup_delete_ne; [done|]. congruence.
      * by apply lookup_delete_Some in Hp' as [_ ?].
  - intros o Ho'. cbn [priority]. rewrite lookup_delete_ne; [done|]. congruence.
Qed.

Definition committed_ok (out : option Z) (os : list Z) (h h' : HashIndex) : Prop :=
  index_ok E R out os h' ∧ same_blobs h h' ∧
  (∀ o, out = Some o → priority (queue h') !! o = priority (queue h) !! o).

Lemma committed_ok_trans out os h1 h2 h3 :
  committed_ok out os h1 h2 → committed_ok out os h2 h3 → committed_ok out os h1 h3.
Proof.
  intros (_ & Hb1 & Ho1) (Hh & Hb2 & Ho2). split; [done|]. unfold same_blobs in *.
  split; [congruence|]. intros o Ho. by rewrite Ho2, Ho1.
Qed.

Lemma pop_loop_index_wp out os fuel h :
  index_ok E R out os h → UniquePriorityQueue.len (queue h) < fuel →
  wp (pop_loop fuel) h (λ _ h', committed_ok out os h h' ∧ settled (queue h')).
Proof using All.
  revert h. induction fuel as [|fuel IH]; intros h Hh Hl; [lia|]. simpl.
  destruct (UniquePriorityQueue.pop_cases Z.le (queue h)) as [[Ep Hc]|(p & k & v & Hp & Hmin & Ep)].
  - apply wp_bind, wp_zoom. refine (wp_Ok _ _ _ _ _ Ep _). apply wp_ret. by destruct h.
  - apply wp_bind, wp_zoom. refine (wp_Ok _ _ _ _ _ Ep _). cbn [lset queue_lens].
    destruct (pop_ready_index _ _ _ _ _ _ Hh Hp) as [Hid Hw].
    apply wp_assert. intros _. apply wp_bind, wp_zoom. cbn [lget index_lens index].
    eapply wp_mono; [exact Hw|]. intros [] x' Hx'. destruct (Hx' _ eq_refl) as (Hh' & Hb & Ho).
    cbn [lset index_lens queue]. eapply wp_mono; [apply IH; [exact Hh'|]|].
    + cbn. unfold UniquePriorityQueue.len in *. simpl. rewrite map_size_delete_Some by eauto.
      assert (size (priority (queue h)) ≠ 0) by (apply map_size_ne_0_lookup; eauto). lia.
    + intros [] h' [Hc ?]. split; [|done]. eapply committed_ok_trans; [|exact Hc]. by split.
Qed.

(** Running the callback of a pending hash. *)
Lemma commit_index_wp out os id h :
  index_ok E R out (id :: os) h →
  (∀ k qe, priority (queue h) !! id = Some (Pending, k, qe) → E Ready k qe) →
  wp (commit id None) h (λ _ h', committed_ok out os h h' ∧ settled (queue h')).
Proof using All.
  intros Hh HE. unfold commit. apply wp_bind, wp_ret, wp_bind, wp_zoom.
  cbn [lget queue_lens]. destruct (proj1 (ix_outstanding _ _ _ _ _ Hh id)) as (Hout & k & qe & Hp);
    [by constructor|].
  unfold wp at 1, UniquePriorityQueue.set_ready. rewrite Hp. cbn [lset queue_lens index].
  set (q' := UniquePriorityQueue.MkUpq _ _). set (h1 := mkHashIndex q' (index h)).
  assert (index_ok E R out os h1) as Hh1.
  { pose proof Hh as [Hu Hq Hn Hun Hr [Hnin Hnd]%NoDup_cons Ho]. specialize (HE _ _ Hp).
    destruct (Hq _ _ _ _ Hp) as (? & ? & ? & _).
    split; cbn [h1 q' queue index priority]; [| | |done|done|done|].
    - by eapply UniquePriorityQueue.upd_ok.
    - intros p st k1 qe1. rewrite lookup_insert_Some. intros [[<- [= <- <- <-]]|[Hne Hp']].
      + do 3 (split; [done|]). by rewrite decide_False.
      + eauto.
    - intros i row Hi Hrd. destruct (Hn _ _ Hi Hrd) as [? ?]. split; [done|].
      rewrite lookup_insert_is_Some'. auto.
    - intros p. transitivity (p ≠ id ∧ p ∈ id :: os).
      + rewrite elem_of_cons. set_solver.
      + rewrite Ho. split.
        * intros (Hne & Hop & k1 & qe1 & Hp'). split; [done|]. exists k1, qe1.
          by rewrite lookup_insert_ne.
        * intros (Hop & k1 & qe1 & Hp'). destruct (decide (p = id)) as [->|Hne].
          -- by rewrite lookup_insert_eq in Hp'.
          -- split; [done|]. split; [done|]. exists k1, qe1. by rewrite lookup_insert_ne in Hp'. }
  assert (∀ o, out = Some o → priority q' !! o = priority (queue h) !! o) as Hkeep.
  { intros o Ho. unfold q'. cbn [priority]. rewrite lookup_insert_ne; [done|]. congruence. }
  unfold insert_completed_in_order. apply wp_gets, wp_bind.
  eapply wp_mono; [apply (pop_loop_index_wp out os); [exact Hh1|simpl; lia]|].
  intros [] h2 ((Hh2 & Hb2 & Ho2) & Hset).
  eapply wp_mono; [by apply (maybe_flush_index_wp E R out os)|].
  intros [] h3 (Hh3 & Hb3 & Hq3). unfold committed_ok, same_blobs in *. rewrite Hq3.
  split; [|done]. split; [done|]. split; [by rewrite Hb3, Hb2|]. intros o Ho.
  rewrite Ho2 by done. by apply Hkeep.
Qed.

(** Running the callbacks of a blob, when the status of an entry does not matter to [E]. *)
Lemma callbacks_index_wp out cbs os h :
  (∀ st st' k qe, E st k qe → E st' k qe) →
  index_ok E R out (cbs ++ os) h →
  wp (for_each (λ id, commit id None) cbs) h (λ _ h', committed_ok out os h h' ∧
    (cbs = [] ∧ h' = h ∨ settled (queue h'))).
Proof using All.
  intros HE. revert h. induction cbs as [|id cbs IH]; intros h Hh.
  { apply wp_ret. split; [by split|by left]. }
  simpl. apply wp_bind. eapply wp_mono; [apply (commit_index_wp out (cbs ++ os)); [exact Hh|]|].
  - intros k qe Hp. destruct (ix_queued _ _ _ _ _ Hh _ _ _ _ Hp) as (_ & _ & _ & Hc).
    destruct (proj1 (ix_outstanding _ _ _ _ _ Hh id)) as [Hout _]; [by constructor|].
    rewrite decide_False in Hc by done. by eapply HE.
  - intros [] h1 [Hc1 Hs1]. eapply wp_mono; [apply IH, Hc1|]. intros [] h2 [Hc2 Hs2].
    destruct Hc1 as (_ & Hb1 & Ho1), Hc2 as (Hh2 & Hb2 & Ho2).
    split; [|right; by destruct Hs2 as [[_ ->]|]]. split; [done|].
    unfold same_blobs in *. split; [congruence|]. intros o Ho. by rewrite Ho2, Ho1.
Qed.

End commit.

(** *** The database operations of the blob index *)

Definition blob_name_at (x : InternalIndex) (i : Z) : option bytes :=
  schema.b_name <$> schema.blobs (cur x) !! i.

Lemma blob_in_air_wp b x :
  wp (blob_in_air b) x (λ _ x', blob_name_at x (id b) = None ∧
    (∀ i, blob_name_at x i ≠ Some (name b)) ∧
    (∀ i, blob_name_at x' i = if decide (i = id b) then Some (name b) else blob_name_at x i) ∧
    schema.hashes (cur x') = schema.hashes (cur x)).
Proof.
  unfold blob_in_air, on_blobs. apply wp_bind, wp_zoom, wp_zoom. unfold wp at 1.
  destruct (insert_into _ _ _ _) as [q t] eqn:Ei. cbn [lget cur_lens blobs_lens] in Ei.
  apply insert_into_inv in Ei as [[-> _]|(-> & -> & Hk & Hc)]; [done|].
  apply wp_modify. unfold wp, Db.flush, modify. unfold blob_name_at.
  cbn [cur lset cur_lens blobs_lens set_last_rowid schema.blobs schema.hashes].
  split_and!; [by rewrite Hk| | |done].
  - intros i (r & Hr & Hn)%fmap_Some. apply Hc, bool_decide_eq_false in Hr. congruence.
  - intros i. case_decide as Hi; [subst i; by rewrite lookup_insert_eq|].
    by rewrite lookup_insert_ne.
Qed.

Lemma blob_commit_wp b x :
  wp (blob_commit b) x (λ _ x', (∀ i, blob_name_at x' i = blob_name_at x i) ∧
    schema.hashes (cur x') = schema.hashes (cur x)).
Proof.
  unfold blob_commit, on_blobs, wp. unfold zoom, modify, Db.flush, mbind, M_bind, modify.
  unfold blob_name_at. cbn [cur lset lget cur_lens blobs_lens schema.blobs schema.hashes].
  split; [|done]. intros i. rewrite lookup_update.
  destruct (schema.blobs (cur x) !! i) as [r|]; [|done]. simpl. by case_match.
Qed.

End index_ok.
