(* ===== verification/HashStoreOk.v ===== *)
(** * The hash store keeps the contract of the hash trees

    What a reference is good for ([promised]) while its chunk is in the current blob and once
    the blob is stored; the invariant [HashStore_ok] that ties the index, the blob, the backend
    and the cache together; and the proofs that inserting a chunk keeps all promises and makes
    a new one, and that after a flush they can be called in. *)

From S2P Require Import Prelude Cbor Refs Ordered Upq Timer Db Crypto HashIndex Backend Blob.
From S2P Require Import BlobStore HashTree HashStore StoreIndex.
From S2P Require Models.
Import UniquePriorityQueue (priority, Status, Pending, Ready).

Section HashStoreOk.
Context `{SodiumLaws} `{LruCacheLaws}.
Context `{CborLaws Models.ChunkRef} `{CborLaws Models.HashIds} `{CborLaws Models.HashRef}.
Context {B : Type} `{StoreBackendLaws (list Z) B}.
Implicit Types (s : Store Z B) (h : tree.HashRef) (d : bytes).

Abbreviation db s := (index (hi s)).
Abbreviation pref h := (tree.persistent_ref h).

Definition known s (n : bytes) : Prop := ∃ i, blob_name_at (db s) i = Some n.

Definition digest_of (k : keys.Keeper) h d : Prop :=
  hash.Hash_new k (tree.node h) (tree.leaf h) d = Ok (tree.hash h).

(** [h] is the place of [d] among the chunks [l]. *)
Definition place_in (l : list (bytes * tree.HashRef)) h d : Prop :=
  ∃ e, (d, e) ∈ l ∧ same_seal h e ∧ chunk.offset (pref h) = chunk.offset (pref e).

Definition in_blob (b : Blob) h d : Prop := ∃ l, Blob_ok b l ∧ place_in l h d.

Definition in_backend s h d : Prop :=
  ∃ out l, durable (BlobStore.backend s) (chunk.blob_name (pref h)) out ∧
    known s (chunk.blob_name (pref h)) ∧ reads_as (st_keys s) out l ∧ place_in l h d.

(** The current blob is the one [h] names. *)
Definition in_current s h d : Prop :=
  in_blob (blob s) h d ∧ chunk.blob_name (pref h) = name (blob_desc s).

Definition promised s h d : Prop :=
  digest_of (st_keys s) h d ∧
  ((d = [] ∧ chunk.offset (pref h) = 0 ∧ chunk.length (pref h) = 0 ∧
      chunk.blob_name (pref h) = [Byte.x00]) ∨
   (0 < chunk.length (pref h) ∧ (in_backend s h d ∨ in_current s h d))).

(** *** What the index knows *)

(** The blob of a reference, by its local id. *)
Definition located s (st : Status) (b : Z) (n : bytes) : Prop :=
  blob_name_at (db s) b = Some n ∨
  (st = Pending ∧ b = id (blob_desc s) ∧ n = name (blob_desc s) ∧
     CipherText.len (chunks (blob s)) ≠ 0).

Definition entry_ok (hist : history) s (st : Status) (k : bytes) (qe : QueueEntry) : Prop :=
  ∃ p b d, q_persistent_ref qe = Some p ∧ (q_node qe, q_leaf qe, d) ∈ hist ∧
    promised s (tree.mkHashRef k (q_node qe) (q_leaf qe) p None) d ∧
    chunk.blob_id p = Some b ∧ (0 < chunk.length p → located s st b (chunk.blob_name p)).

Definition row_ok (hist : history) s (row : schema.Hash) : Prop :=
  ∃ n l d p, (n, l, d) ∈ hist ∧ schema.blob_ref row = Some (chunk.as_bytes_no_name p) ∧
    promised s (tree.mkHashRef (schema.hash row) n l p None) d ∧
    (0 < chunk.length p → blob_name_at (db s) (schema.blob_id row) = Some (chunk.blob_name p)).

Record HashStore_ok (hist : history) s (out : option Z) (os : list Z) : Prop := {
  ok_keeper : keys.Keeper_ok (st_keys s);
  ok_blob_keys : keys_ (blob s) = st_keys s;
  ok_blob : ∃ l, Blob_ok (blob s) l;
  ok_healthy : healthy (BlobStore.backend s);
  ok_fresh : ∀ n, fresh (BlobStore.backend s) n ∨ known s n;
  ok_cache : ∀ n reader, lru_map (read_cache s) !! n = Some reader →
    known s n ∧ ∃ data, durable (BlobStore.backend s) n data ∧ BlobReader_new (st_keys s) data = Ok reader;
  ok_refs : CipherText.len (chunks (blob s)) = 0 → blob_refs s = [];
  ok_settled : settled (queue (hi s));
  ok_index : index_ok (entry_ok hist s) (row_ok hist s) out os (hi s);
}.

(** *** Promises from one state to the next *)

(** The parts of the state that a promise depends on. *)
Record same_promises s s' : Prop := {
  same_keys : st_keys s' = st_keys s;
  same_backend : BlobStore.backend s' = BlobStore.backend s;
  same_blob : blob s' = blob s;
  same_desc : blob_desc s' = blob_desc s;
  same_names : ∀ i, blob_name_at (db s') i = blob_name_at (db s) i;
}.

Lemma same_promises_refl s : same_promises s s.
Proof. done. Qed.

Lemma known_same s s' n : same_promises s s' → known s n → known s' n.
Proof. intros [_ _ _ _ Hn] [i Hi]. exists i. by rewrite Hn. Qed.

Lemma promised_same s s' h d : same_promises s s' → promised s h d → promised s' h d.
Proof.
  intros Hs. pose proof (known_same s s' (chunk.blob_name (pref h)) Hs) as Hk.
  destruct Hs as [E1 E2 E3 E4 _]. unfold promised, in_backend, in_current.
  rewrite E1, E2, E3, E4. intros [? [?|[? [(out & l & ? & ? & ?)|?]]]]; split; try done;
    [by left|right; split; [done|]; left..|right; split; [done|by right]].
  exists out, l. auto.
Qed.

Lemma entry_same hist s s' st k qe :
  same_promises s s' → entry_ok hist s st k qe → entry_ok hist s' st k qe.
Proof.
  intros Hs (p & b & d & ? & ? & ? & ? & Hl). exists p, b, d. split_and!; try done.
  - by eapply promised_same.
  - intros Hlen. unfold located. rewrite (same_names _ _ Hs), (same_desc _ _ Hs), (same_blob _ _ Hs).
    by apply Hl.
Qed.

Lemma row_same hist s s' row : same_promises s s' → row_ok hist s row → row_ok hist s' row.
Proof.
  intros Hs (n & l & d & p & ? & ? & ? & Hl). exists n, l, d, p. split_and!; try done.
  - by eapply promised_same.
  - by rewrite (same_names _ _ Hs).
Qed.

Lemma entry_status hist s k qe st :
  entry_ok hist s Ready k qe → entry_ok hist s st k qe.
Proof.
  intros (p & b & d & ? & ? & ? & ? & Hl). exists p, b, d. split_and!; try done.
  intros Hlen. destruct (Hl Hlen) as [?|[? _]]; [by left|done].
Qed.

(** A ready entry becomes a ready row. *)
Lemma entry_row hist s k qe row :
  entry_ok hist s Ready k qe → row_from k qe row → row_ok hist s row.
Proof.
  intros (p & b & d & Hp & ? & ? & Hb & Hl) (p' & b' & Hp' & Hb' & Hk & Hr & Href & Hid).
  rewrite Hp in Hp'. injection Hp' as <-. rewrite Hb in Hb'. injection Hb' as <-.
  exists (q_node qe), (q_leaf qe), d, p. split_and!; try done.
  - by rewrite Hk.
  - intros Hlen. rewrite Hid. by destruct (Hl Hlen) as [?|[? _]].
Qed.

Lemma history_mono hist hist' s out os :
  hist ⊆ hist' → HashStore_ok hist s out os → HashStore_ok hist' s out os.
Proof.
  intros Hsub [? ? ? ? ? ? ? ? Hi]. split; try done. eapply index_ok_mono; [| |exact Hi].
  - intros st k qe (p & b & d & ? & Hin & ?). exists p, b, d. split_and!; try done; set_solver.
  - intros row (n & l & d & p & Hin & ?). exists n, l, d, p. split; [set_solver|done].
Qed.

(** *** Steps on the hash index only *)

Definition names_kept (x x' : InternalIndex) : Prop :=
  ∀ i, blob_name_at x' i = blob_name_at x i.

Lemma same_blobs_names y y' : same_blobs y y' → names_kept (index y) (index y').
Proof. intros Hb i. unfold blob_name_at. by rewrite Hb. Qed.

Lemma same_promises_hi s (y : HashIndex) :
  names_kept (db s) (index y) → same_promises s (lset hi_lens y s).
Proof. done. Qed.

Lemma HashStore_ok_hi hist s (y : HashIndex) o os out os' :
  HashStore_ok hist s o os → names_kept (db s) (index y) →
  settled (queue y) → index_ok (entry_ok hist s) (row_ok hist s) out os' y →
  HashStore_ok hist (lset hi_lens y s) out os'.
Proof.
  intros [? ? ? ? Hf Hc ? _ Hi] Hb Hset Hh. pose proof (same_promises_hi s y Hb) as Hs.
  split; simpl; try done.
  - intros n. destruct (Hf n); [by left|right]. by eapply known_same.
  - intros n reader Hn. destruct (Hc n reader Hn) as [? ?]. split; [|done]. by eapply known_same.
  - eapply index_ok_mono; [| |exact Hh].
    + intros st k qe. by apply entry_same.
    + intros row. by apply row_same.
Qed.

(** *** Sealing the current blob *)

Lemma reserve_new_blob_run s :
  keys.Keeper_ok (st_keys s) →
  ∃ nid dd r, reserve_new_blob s = (Ok (blob_desc s),
    mkStore (hi s) nid (st_keys s) (BlobStore.backend s) dd (blob_refs s) (blob s)
      (read_cache s) r (spawned s)).
Proof.
  intros Hk. set (nid := as_i64 (next_id s + 1)).
  destruct (keys.naming_lock_ok (st_keys s) (PlainText.from_i64 nid) (random s) Hk)
    as (ct & r & E & _).
  exists nid, (mkBlobDesc (CipherText.to_vec (CipherText.new ct)) nid), r.
  unfold reserve_new_blob, reserve_blob, new_blob_desc.
  set (s1 := lset next_id_lens nid s).
  assert (take_next_id s = (Ok nid, s1)) as E1 by done.
  assert (name_of_id nid s1 = (Ok (CipherText.to_vec (CipherText.new ct)), lset rng_lens r s1)) as E2.
  { unfold name_of_id. rewrite bind_get. unfold FixedKey.seal_blob_name.
    erewrite bind_zoom; [done|]. cbn [st_keys s1 lset next_id_lens lget rng_lens random].
    by rewrite (bind_Ok _ _ _ _ _ E). }
  rewrite bind_assoc. rewrite (bind_Ok _ _ _ _ _ E1). rewrite bind_assoc.
  rewrite (bind_Ok _ _ _ _ _ E2). done.
Qed.

(** Sealing a footer returns no error, whatever its length. *)
Lemma FixedKey_seal_wp k access_key pt r :
  keys.Keeper_ok k → wp (FixedKey.seal k access_key pt) r (λ _ _, True).
Proof.
  intros Hk. unfold FixedKey.seal, FixedKey.seal_blob_data, FixedKey.seal_blob_access.
  destruct (gen_key_ok r) as (ik & r1 & E1 & Hik). eapply wp_step_run; [exact E1|].
  destruct (keys.random_bytes_ok NPUBBYTES r1) as (nc & r2 & E2 & Hnc).
  eapply wp_step_run; [exact E2|]. rewrite NPUBBYTES_eq in Hnc.
  destruct (to_ciphertext_ok pt (lit "hat_blob_seal~") nc ik) as (ct & E3 & _ & _); [done..|].
  apply wp_lift. rewrite E3. apply wp_assert. intros _. apply wp_bind.
  match goal with |- wp (keys.data_lock k ?m ≫= _) _ _ =>
    destruct (keys.data_lock_ok k m r2 Hk) as (foot & r3 & E4 & _) end.
  eapply wp_step_run; [exact E4|]. apply wp_ret, wp_assert. intros _. apply wp_assert. intros _.
  apply wp_bind.
  match goal with |- wp (keys.access_lock k ?m ≫= _) _ _ =>
    destruct (keys.access_lock_ok k m r3 Hk) as (acc & r4 & E5 & _) end.
  eapply wp_step_run; [exact E5|]. apply wp_ret, wp_assert. intros _. by apply wp_assert.
Qed.

(** What sealing does to a blob that holds the chunks [l]. *)
Lemma to_ciphertext_wp b l r :
  Blob_ok b l →
  wp to_ciphertext_blob (b, r) (λ o '(b', r'),
    match o with
    | None => b' = b ∧ CipherText.len (chunks b) = 0
    | Some out => Blob_ok b' [] ∧ keys_ b' = keys_ b ∧
        ∀ l', Blob_ok b l' → reads_as (keys_ b) (CipherText.to_vec out) l'
    end).
Proof.
  intros Hb. destruct (decide (l = [])) as [->|Hl].
  { refine (wp_Ok _ _ _ _ _ (to_ciphertext_empty b r Hb) _). split; [done|].
    by apply (ok_len_0 b []). }
  destruct (decide (upperbound_len b ≤ max_len b)) as [Hf|Hf].
  { destruct (to_ciphertext_run b l r Hb Hl Hf) as (out & b' & r' & E & Hb' & Hk & _ & _ & _ & _).
    refine (wp_Ok _ _ _ _ _ E _). split_and!; [done|done|].
    intros l' Hb2. destruct (to_ciphertext_run b l' r Hb2) as (out' & b2 & r2 & E' & _ & _ & _ & _ & _ & Hr).
    - rewrite <- (ok_len_0 b l'), (ok_len_0 b l) by done. done.
    - done.
    - rewrite E in E'. by injection E' as -> _ _. }
  destruct (gen_key_ok r) as (nk & r1 & E1 & _).
  assert (CipherText.len (chunks b) ≠ 0) as Hz by (by rewrite (ok_len_0 b l)).
  unfold to_ciphertext_blob. apply wp_gets. cbn [fst]. rewrite decide_False by done.
  apply wp_bind, wp_zoom. refine (wp_Ok _ _ _ _ _ E1 _). apply wp_zoom_modify.
  apply wp_bind, wp_zoom. eapply wp_mono; [apply FixedKey_seal_wp, Hb|].
  intros foot r2 _. apply wp_zoom_modify. apply wp_assert. intros Hroom. exfalso. apply Hf.
  unfold fits, upperbound_len. rewrite decide_False by done. lia.
Qed.

(** The moment the blob is in the backend: all promises are kept by the backend now. *)
Section stored_blob.
Context (hist : history) (s : Store Z B) (y : HashIndex) (nid : Z) (bk : B) (dd : BlobDesc)
  (b' : Blob) (r : rng) (ct : CipherText.CipherText) (out : option Z) (os : list Z).
Context (Hok : HashStore_ok hist s out os).
Context (Hq : queue y = queue (hi s)) (Hrows : rows y = rows (hi s)).
Context (Hnone : blob_name_at (db s) (id (blob_desc s)) = None).
Context (Hnew : ∀ i, blob_name_at (db s) i ≠ Some (name (blob_desc s))).
Context (Hnames : ∀ i, blob_name_at (index y) i =
  if decide (i = id (blob_desc s)) then Some (name (blob_desc s)) else blob_name_at (db s) i).
Context (Hct : ∀ l, Blob_ok (blob s) l → reads_as (st_keys s) (CipherText.to_vec ct) l).
Context (Hbk : healthy bk) (Hdur : durable bk (name (blob_desc s)) (CipherText.to_vec ct)).
Context (Hkeep : ∀ n d, n ≠ name (blob_desc s) → durable (BlobStore.backend s) n d → durable bk n d).
Context (Hfr : ∀ n, n ≠ name (blob_desc s) → fresh (BlobStore.backend s) n → fresh bk n).
Context (Hb' : Blob_ok b' []) (Hk' : keys_ b' = st_keys s).

#[local] Abbreviation s5 := (mkStore y nid (st_keys s) bk dd [] b' (read_cache s) r (spawned s)).

Lemma stored_names i n : blob_name_at (db s) i = Some n → blob_name_at (db s5) i = Some n.
Proof using Hnames Hnone.
  simpl. rewrite Hnames. case_decide as Hi; [|done]. subst i. by rewrite Hnone.
Qed.

Lemma stored_known n : known s n → n ≠ name (blob_desc s) ∧ known s5 n.
Proof using Hnames Hnone Hnew.
  intros [i Hi]. split; [|exists i; by apply stored_names]. intros ->. by apply Hnew in Hi.
Qed.

Lemma stored_promised h d : promised s h d → promised s5 h d.
Proof using Hnames Hnone Hnew Hct Hdur Hkeep.
  intros [Hd [?|[Hl [(o & l & Ho & Hk & Hr & Hp)|((l & Hl' & Hp) & Hn)]]]]; split; try done;
    [by left|right; split; [done|]; left..].
  - destruct (stored_known _ Hk) as [Hne Hk5]. exists o, l. split_and!; try done. by apply Hkeep.
  - exists (CipherText.to_vec ct), l. rewrite Hn. split_and!; [done| |by apply Hct|done].
    exists (id (blob_desc s)). simpl. rewrite Hnames. by rewrite decide_True.
Qed.

Lemma stored_entry st k qe : entry_ok hist s st k qe → entry_ok hist s5 Ready k qe.
Proof using Hnames Hnone Hnew Hct Hdur Hkeep.
  intros (p & b & d & ? & ? & ? & ? & Hl). exists p, b, d. split_and!; try done.
  - by apply stored_promised.
  - intros Hlen. left. destruct (Hl Hlen) as [?|(_ & -> & -> & _)]; [by apply stored_names|].
    simpl. rewrite Hnames. by rewrite decide_True.
Qed.

Lemma stored_row row : row_ok hist s row → row_ok hist s5 row.
Proof using Hnames Hnone Hnew Hct Hdur Hkeep.
  intros (n & l & d & p & ? & ? & ? & Hl). exists n, l, d, p. split_and!; try done.
  - by apply stored_promised.
  - intros Hlen. by apply stored_names, Hl.
Qed.

Lemma stored_blob_ok :
  HashStore_ok hist s5 out os ∧
  index_ok (λ _ k qe, entry_ok hist s5 Ready k qe) (row_ok hist s5) out os y.
Proof using All.
  assert (index_ok (λ _ k qe, entry_ok hist s5 Ready k qe) (row_ok hist s5) out os y) as Hy.
  { apply (index_ok_ext _ _ _ _ (hi s)); [done..|].
    eapply index_ok_mono; [| |apply Hok]; [apply stored_entry|apply stored_row]. }
  split; [|done]. destruct Hok as [? ? ? ? Hf Hc ? ? ?]. split; simpl; try done; [by exists []|..|by rewrite Hq|].
  - intros n. destruct (decide (n = name (blob_desc s))) as [->|Hn].
    + right. exists (id (blob_desc s)). simpl. rewrite Hnames. by rewrite decide_True.
    + destruct (Hf n) as [?|Hk]; [left; by apply Hfr|right]. by apply stored_known.
  - intros n reader Hn. destruct (Hc n reader Hn) as (Hk & data & Hd & ?).
    destruct (stored_known _ Hk) as [Hne Hk5]. split; [done|]. exists data. split; [|done].
    by apply Hkeep.
  - eapply index_ok_mono; [| |exact Hy]; [|done]. intros st k qe. apply entry_status.
Qed.

End stored_blob.

(** Flushing: all chunks are in the backend, all promises are kept, and the callbacks that are
    left are those of the threads. *)
Definition flushed_from (hist : history) s (out : option Z) s' : Prop :=
  HashStore_ok hist s' out (spawned s') ∧ spawned s' = spawned s ∧ blob_refs s' = [] ∧
  CipherText.len (chunks (blob s')) = 0 ∧ st_keys s' = st_keys s ∧
  (∀ h d, promised s h d → promised s' h d) ∧
  (∀ o, out = Some o → priority (queue (hi s')) !! o = priority (queue (hi s)) !! o).

(** What a failing backend has called is run before the failure is looked at: it must come to
    an end, nothing more. *)
Lemma backend_store_wp E R out os s n ct cbs (Q : () → Store Z B → Prop) :
  healthy (BlobStore.backend s) → fresh (BlobStore.backend s) n →
  index_ok E R out (cbs ++ os) (hi s) →
  (∀ b, healthy b → durable b n (CipherText.to_vec ct) →
    (∀ n' d, n' ≠ n → durable (BlobStore.backend s) n' d → durable b n' d) →
    (∀ n', n' ≠ n → fresh (BlobStore.backend s) n' → fresh b n') →
    wp (for_each commit_callback cbs) (hi s) (λ _ y, Q () (lset hi_lens y (lset BlobStore.backend_lens b s)))) →
  wp (unwrapM (backend_store commit_callback n ct cbs)) s Q.
Proof.
  intros Hh Hf Hi HQ. pose proof (store_ok _ _ ct cbs Hh Hf) as Hs.
  unfold backend_store, wp, unwrapM. destruct (store _ _ _ _) as [[[]|e| |] [b called]]; try done.
  2-3: assert (wp (for_each commit_callback (concat called)) (hi s) (λ _ _, True)) as Hw
    by (eapply (index_ok_mono E (λ _ _ _, True) R (λ _, True)) in Hi; [|done..];
      destruct Hs as [->| ->]; [done|]; cbn [concat]; rewrite app_nil_r;
      eapply wp_mono; [by eapply (callbacks_index_wp (λ _ _ _, True) (λ _, True))|done]);
    unfold wp in Hw; unfold zoom, mbind, M_bind; cbn [lget hi_lens hi lset BlobStore.backend_lens] in *;
    by destruct (for_each _ _ _) as [[[]| | |] y].
  destruct Hs as (-> & Hb & Hd & Hk & Hfr). specialize (HQ b Hb Hd Hk Hfr).
  cbn [concat]. rewrite app_nil_r. unfold wp in HQ. unfold zoom, mbind, M_bind.
  cbn [lget hi_lens hi lset BlobStore.backend_lens] in *.
  by destruct (for_each _ _ _) as [[[]| | |] y].
Qed.

(** Without a chunk in the blob there is nothing to store and nothing to call back. *)
Lemma flush_nothing hist s out os r :
  HashStore_ok hist s out os → os ≡ₚ blob_refs s ++ spawned s →
  CipherText.len (chunks (blob s)) = 0 →
  flushed_from hist s out (mkStore (hi s) (next_id s) (st_keys s) (BlobStore.backend s)
    (blob_desc s) (blob_refs s) (blob s) (read_cache s) r (spawned s)).
Proof.
  intros Hok Hos Hz. pose proof (ok_refs _ _ _ _ Hok Hz) as Hrefs.
  set (s1 := mkStore _ _ _ _ _ _ _ _ _ _). assert (same_promises s s1) as Hsame by done.
  split_and!; try done.
  destruct Hok as [? ? ? ? Hf Hc ? ? Hi]. split; try done.
  eapply index_ok_mono; [by intros ???; apply entry_same|by intros ?; apply row_same|].
  eapply index_ok_perm; [|exact Hi]. by rewrite Hos, Hrefs.
Qed.

Lemma flush_store_wp hist s out os :
  HashStore_ok hist s out os → os ≡ₚ blob_refs s ++ spawned s →
  wp (flush_store commit_callback) s (λ _ s', flushed_from hist s out s').
Proof.
  intros Hok Hos. destruct (ok_blob _ _ _ _ Hok) as [l Hl]. unfold flush_store.
  apply wp_bind, wp_zoom. eapply wp_mono; [by apply (to_ciphertext_wp (blob s) l)|].
  intros [ct|] [b' r1]; cbn [lset blob_lens fst snd].
  2:{ intros [-> Hz]. by apply wp_ret, (flush_nothing _ _ _ os). }
  intros (Hb' & Hk' & Hct). rewrite (ok_blob_keys _ _ _ _ Hok) in Hk', Hct.
  apply wp_bind. destruct (reserve_new_blob_run (mkStore (hi s) (next_id s) (st_keys s)
    (BlobStore.backend s) (blob_desc s) (blob_refs s) b' (read_cache s) r1 (spawned s)))
    as (nid & dd & r & E1); [apply Hok|]. refine (wp_Ok _ _ _ _ _ E1 _). clear E1.
  cbn [hi st_keys BlobStore.backend blob_refs blob read_cache spawned BlobStore.blob_desc].
  apply wp_gets. cbn [blob_refs]. apply wp_zoom_modify. cbn [lset lget refs_lens].
  apply wp_bind. unfold in_air, on_db. do 2 apply wp_zoom. cbn [lget hi_lens index_lens hi].
  eapply wp_mono; [apply blob_in_air_wp|]. intros [] x' (Hnone & Hnew & Hnames & Hrows).
  cbn [lset hi_lens index_lens hi queue].
  set (y := mkHashIndex (queue (hi s)) x').
  apply wp_bind.
  destruct (ok_fresh _ _ _ _ Hok (name (blob_desc s))) as [Hfresh|[i Hi]];
    [|by apply Hnew in Hi].
  eapply (backend_store_wp _ _ out (spawned s)); [by apply Hok|done| |].
  { cbn [hi]. apply (index_ok_ext _ _ _ _ (hi s)); [done..|]. eapply index_ok_perm; [done|apply Hok]. }
  cbn [hi BlobStore.backend]. intros bk Hbk Hdur Hkeep Hfr.
  destruct (stored_blob_ok hist s y nid bk dd b' r ct out os) as [Hok5 Hi5]; [done..|].
  set (s5 := mkStore y nid _ bk dd [] b' _ r _) in *.
  eapply wp_mono; [eapply (callbacks_index_wp (λ _ k qe, entry_ok hist s5 Ready k qe)
    (row_ok hist s5) (entry_row hist s5) out (blob_refs s) (spawned s)); [done|]|].
  { eapply index_ok_perm; [exact Hos|exact Hi5]. }
  intros [] y6 [(Hi6 & Hb6 & Ho6) Hs6].
  assert (settled (queue y6)) as Hset6 by (destruct Hs6 as [[_ ->]|?]; [apply Hok5|done]).
  change (wp (commit_done (blob_desc s)) (lset hi_lens y6 s5) (λ _ s', flushed_from hist s out s')).
  unfold commit_done, on_db. do 2 apply wp_zoom.
  eapply wp_mono; [apply blob_commit_wp|]. intros [] x7 [Hn7 Hr7].
  set (y7 := mkHashIndex (queue y6) x7).
  change (flushed_from hist s out (lset hi_lens y7 s5)).
  assert (names_kept (db s5) (index y7)) as Hnk.
  { intros i. simpl. rewrite Hn7. exact (same_blobs_names y y6 Hb6 i). }
  assert (same_promises s5 (lset hi_lens y7 s5)) as Hsame by by apply same_promises_hi.
  split_and!; try done.
  - eapply (HashStore_ok_hi hist s5 y7 out os); [exact Hok5|done|done|].
    apply (index_ok_ext _ _ _ _ y6); [done|exact Hr7|].
    eapply index_ok_mono; [|done|exact Hi6]. intros st k qe. apply entry_status.
  - apply (ok_len_0 b' []); done.
  - intros h d Hp. eapply promised_same; [exact Hsame|]. by eapply stored_promised.
Qed.

(** *** Appending to the current blob *)

Lemma try_append_wp b l chunk h r :
  Blob_ok b l → 8 ≤ length (tree.hash h) →
  wp (try_append chunk h) (b, r) (λ '(ok, h') '(b', r'), placed b chunk h h' ∧
    if ok : bool then keys_ b' = keys_ b ∧ CipherText.len (chunks b') ≠ 0 ∧
      ∀ l', Blob_ok b l' → Blob_ok b' (l' ++ [(chunk, h')])
    else b' = b).
Proof.
  intros Hb Hh.
  assert (∀ l', Blob_ok b l' → ∀ h1 b1 r1, try_append chunk h (b, r) = (Ok (true, h1), (b1, r1)) →
    Blob_ok b1 (l' ++ [(chunk, h1)])) as Hall.
  { intros l' Hl' h1 b1 r1 E. destruct (try_append_run b l' chunk h r Hl' Hh)
      as (h2 & b2 & r2 & _ & E' & _ & _ & _ & _ & Hok). cbv zeta in E'. rewrite E in E'.
    repeat case_decide; try done. injection E' as -> -> ->. by apply Hok. }
  destruct (try_append_run b l chunk h r Hb Hh) as (h1 & b1 & r1 & Hp & E & Hk & _ & Hlen & _ & _).
  cbv zeta in E. unfold wp. specialize (λ l' H h1 b1 r1, Hall l' H h1 b1 r1).
  repeat case_decide; rewrite E in Hall |- *; try done.
  split; [done|]. split_and!; [done|lia|]. intros l' Hl'. by eapply Hall.
Qed.

(** A chunk and its reference have been added to the current blob. *)
Record appended (d : bytes) (h' : tree.HashRef) s s' : Prop := {
  app_hi : hi s' = hi s;
  app_keys : st_keys s' = st_keys s;
  app_backend : BlobStore.backend s' = BlobStore.backend s;
  app_desc : blob_desc s' = blob_desc s;
  app_refs : blob_refs s' = blob_refs s;
  app_cache : read_cache s' = read_cache s;
  app_spawned : spawned s' = spawned s;
  app_blob_keys : keys_ (blob s') = keys_ (blob s);
  app_len : CipherText.len (chunks (blob s')) ≠ 0;
  app_blob : ∀ l, Blob_ok (blob s) l → Blob_ok (blob s') (l ++ [(d, h')]);
}.

Lemma appended_promised d h' s s' h2 d2 :
  appended d h' s s' → promised s h2 d2 → promised s' h2 d2.
Proof.
  intros [E1 E2 E3 E4 _ _ _ _ _ Hb]. unfold promised, in_backend, in_current, in_blob, known.
  rewrite E1, E2, E3, E4. intros [? [?|[? [?|((l & Hl & e & He & ?) & ?)]]]]; split; try done;
    [by left|right; split; [done|by left]|right; split; [done|right]].
  split; [|done]. exists (l ++ [(d, h')]). split; [by apply Hb|]. exists e. split; [set_solver|done].
Qed.

Lemma appended_ok hist d h' s s' out os :
  appended d h' s s' → HashStore_ok hist s out os → HashStore_ok hist s' out os.
Proof.
  intros Ha [? Hk [l Hl] ? Hf Hc ? ? Hi]. pose proof (appended_promised d h' s s') as Hp.
  pose proof Ha as [E1 E2 E3 E4 E5 E6 E7 E8 E9 Hb].
  split; rewrite ?E1, ?E2, ?E3, ?E6, ?E8; try done.
  - exists (l ++ [(d, h')]). by apply Hb.
  - intros n. destruct (Hf n) as [?|Hn]; [by left|right]. unfold known. by rewrite E1.
  - intros n reader Hn. unfold known. rewrite E1. by apply Hc.
  - eapply index_ok_mono; [| |exact Hi].
    + intros st k qe (p & b & d0 & ? & ? & ? & ? & Hloc). exists p, b, d0. split_and!; try done.
      * by apply Hp.
      * intros Hlen. unfold located. rewrite E1, E4. destruct (Hloc Hlen) as [?|(?&?&?&_)]; auto.
    + intros row (n & lf & d0 & p & ? & ? & ? & ?). exists n, lf, d0, p. rewrite E1.
      split_and!; try done. by apply Hp.
Qed.

Lemma append_chunk_wp s d href :
  (∃ l, Blob_ok (blob s) l) → 8 ≤ length (tree.hash href) →
  wp (append_chunk d href) s (λ '(ok, h') s',
    h' = tree.with_persistent_ref (pref h') href ∧
    chunk.blob_name (pref h') = name (blob_desc s) ∧ chunk.blob_id (pref h') = Some (id (blob_desc s)) ∧
    0 < chunk.length (pref h') ∧
    if ok : bool then appended d h' s s' else ∃ r, s' = lset blob_lens (blob s, r) s).
Proof.
  intros [l Hl] Hh. unfold append_chunk. apply wp_gets, wp_zoom. cbn [lget blob_lens].
  eapply wp_mono; [by apply (try_append_wp _ l)|]. intros [ok h'] [b' r'] [[Heq Hn Hi _ Hlen] Hok].
  split_and!; [by rewrite Heq|by rewrite Hn|by rewrite Hi|lia|].
  destruct ok.
  - destruct Hok as (Hk & Hz & Hb). by split.
  - subst b'. by exists r'.
Qed.

Lemma appended_makes d h' s s' :
  appended d h' s s' → (∃ l, Blob_ok (blob s) l) → digest_of (st_keys s) h' d →
  0 < chunk.length (pref h') → chunk.blob_name (pref h') = name (blob_desc s) →
  promised s' (tree.with_info None h') d.
Proof.
  intros Ha [l Hl] Hd Hlen Hn. destruct Ha as [_ Ek _ Ed _ _ _ _ _ Hb].
  split; [by rewrite Ek|]. right. split; [done|]. right. split; [|by rewrite Ed].
  exists (l ++ [(d, h')]). split; [by apply Hb|]. exists h'. split; [set_solver|]. by split.
Qed.

(** A chunk has been taken in for the hash [o]: its callback is kept, and its reference is a
    promise, for an entry that is pending. *)
Record chunk_taken (hist : history) s (o : Z) (d : bytes) (h0 h : tree.HashRef) s' : Prop := {
  ct_ok : ∃ os, HashStore_ok hist s' (Some o) os ∧ o :: os ≡ₚ blob_refs s' ++ spawned s';
  ct_keys : st_keys s' = st_keys s;
  ct_kept : ∀ h1 d1, promised s h1 d1 → promised s' h1 d1;
  ct_entry : priority (queue (hi s')) !! o = priority (queue (hi s)) !! o;
  ct_href : h = tree.with_persistent_ref (pref h) (tree.with_info None h0);
  ct_promised : promised s' h d;
  ct_located : ∃ b, chunk.blob_id (pref h) = Some b ∧
    (0 < chunk.length (pref h) → located s' Pending b (chunk.blob_name (pref h)));
}.

Lemma digest_length k h d : keys.Keeper_ok k → digest_of k h d → 8 ≤ length (tree.hash h).
Proof.
  intros Hk E. unfold digest_of, hash.Hash_new in E.
  destruct (keys.fingerprint_ok k d (keys.compute_salt (tree.node h) (tree.leaf h)) 64)
    as (out & E' & Hl); [done|done|lia|]. rewrite E in E'. injection E' as ->. lia.
Qed.

(** The last step: the callback of the chunk waits with its blob. *)
Lemma appended_taken hist s s1 s2 d h0 h1 h' os o :
  HashStore_ok hist s1 (Some o) os → os ≡ₚ blob_refs s1 ++ spawned s1 → st_keys s1 = st_keys s →
  (∀ h1 d1, promised s h1 d1 → promised s1 h1 d1) →
  priority (queue (hi s1)) !! o = priority (queue (hi s)) !! o →
  digest_of (st_keys s) h0 d → h1 = tree.with_persistent_ref (pref h1) h0 →
  h' = tree.with_persistent_ref (pref h') h1 →
  chunk.blob_name (pref h') = name (blob_desc s1) → chunk.blob_id (pref h') = Some (id (blob_desc s1)) →
  0 < chunk.length (pref h') → appended d h' s1 s2 →
  chunk_taken hist s o d h0 (tree.with_info None h')
    (lset refs_lens (blob_refs s2 ++ [o]) s2).
Proof.
  intros Hok Hos Hk Hkeep Hprio Hd Heq1 Heq Hn Hi Hlen Ha.
  set (s3 := lset refs_lens _ s2). assert (same_promises s2 s3) as H23 by done.
  pose proof (appended_ok _ _ _ _ _ _ _ Ha Hok) as Hok2.
  assert (digest_of (st_keys s1) h' d) as Hd'.
  { rewrite Hk. rewrite Heq, Heq1. exact Hd. }
  pose proof (appended_makes d h' s1 s2 Ha (ok_blob _ _ _ _ Hok) Hd' Hlen Hn) as Hp.
  pose proof Ha as [E1 E2 _ E4 E5 _ E7 _ E9 _]. split.
  - exists os. split.
    + destruct Hok2 as [? ? ? ? Hf Hc Hr Hset Hx]. split; try done.
    + simpl. rewrite E5, E7, Hos. solve_Permutation.
  - simpl. by rewrite E2.
  - intros h d1 Hh. eapply promised_same; [exact H23|]. eapply appended_promised; [done|auto].
  - simpl. by rewrite E1.
  - rewrite Heq, Heq1. done.
  - by eapply promised_same.
  - exists (id (blob_desc s1)). split; [exact Hi|]. intros _. right. simpl. rewrite E4.
    split_and!; done.
Qed.

Lemma store_chunk_wp hist s o os d hs n l i :
  HashStore_ok hist s (Some o) os → os ≡ₚ blob_refs s ++ spawned s →
  hash.Hash_new (st_keys s) n l d = Ok hs →
  wp (store_chunk commit_callback d hs n l i o) s
    (λ href s', chunk_taken hist s o d (tree.mkHashRef hs n l empty_ref i) href s').
Proof.
  intros Hok Hos Hd. set (h0 := tree.mkHashRef hs n l empty_ref i).
  assert (digest_of (st_keys s) h0 d) as Hdig by exact Hd.
  pose proof (digest_length _ _ _ (ok_keeper _ _ _ _ Hok) Hdig) as Hlen.
  unfold store_chunk. cbv zeta. fold h0. case_decide as Hempty.
  - apply wp_zoom_modify, wp_ret. subst d. set (s' := lset spawned_lens _ s).
    assert (same_promises s s') as Hs by done. split; try done.
    + exists os. split; [by destruct Hok; split|]. simpl. rewrite Hos. solve_Permutation.
    + split; [exact Hdig|]. by left.
    + exists 0%Z. split; [done|]. simpl. lia.
  - apply wp_bind. eapply wp_mono; [by apply append_chunk_wp; [apply Hok|]|].
    intros [ok h1] s1 (E1 & Hn1 & Hi1 & Hl1 & Ha). destruct ok.
    + apply wp_bind, wp_ret, wp_zoom_modify, wp_ret. simpl lget.
      by eapply (appended_taken hist s s s1 d h0 h0 h1 os o).
    + destruct Ha as [r ->]. set (s1 := lset blob_lens _ s).
      assert (HashStore_ok hist s1 (Some o) os) as Hok1 by (by destruct Hok; split).
      apply wp_bind, wp_bind. eapply wp_mono; [by apply (flush_store_wp hist s1 (Some o) os)|].
      intros [] s2 (Hok2 & Hs2 & Hr2 & Hz2 & Hk2 & Hkeep & Hprio).
      apply wp_bind. eapply wp_mono; [apply append_chunk_wp; [apply Hok2|by rewrite E1]|].
      intros [ok h2] s3 (E2 & Hn2 & Hi2 & Hl2 & Ha). apply wp_assert. intros ->.
      apply wp_ret, wp_zoom_modify, wp_ret. simpl lget.
      eapply (appended_taken hist s s2 s3 d h0 h1 h2 (spawned s2) o); try done.
      * by rewrite Hr2.
      * by apply Hprio.
Qed.

(** *** Inserting a chunk *)

(** No two things that were inserted have the same digest. *)
Definition collision_free (k : keys.Keeper) (hist : history) : Prop :=
  ∀ n l d n' l' d' x, (n, l, d) ∈ hist → (n', l', d') ∈ hist →
    hash.Hash_new k n l d = Ok x → hash.Hash_new k n' l' d' = Ok x → (n, l, d) = (n', l', d').

Lemma collision_free_mono k hist hist' :
  hist ⊆ hist' → collision_free k hist' → collision_free k hist.
Proof. intros Hs Hc n l d n' l' d' x ? ?. by apply Hc; apply Hs. Qed.

(** Other fields than these do not matter to a promise. *)
Lemma promised_ref s h h' d :
  promised s h d → same_seal h' h → chunk.offset (pref h') = chunk.offset (pref h) →
  chunk.blob_name (pref h') = chunk.blob_name (pref h) → promised s h' d.
Proof.
  intros [Hd Hp] Hs Eo En. pose proof Hs as (E1 & E2 & E3 & E4 & E5).
  assert (∀ l, place_in l h d → place_in l h' d) as Hpl.
  { intros l (e & He & (F1 & F2 & F3 & F4 & F5) & F6). exists e. split; [done|].
    split; [|congruence]. unfold same_seal. split_and!; congruence. }
  unfold promised, digest_of, in_backend, in_current, in_blob in *. rewrite E1, E2, E3, E4, Eo, En.
  split; [done|]. destruct Hp as [?|[? Hp]]; [by left|right]. split; [done|].
  destruct Hp as [(o & l & ? & ? & ? & ?)|((l & ? & ?) & ?)]; [left|right].
  - exists o, l. split_and!; auto.
  - split; [exists l; auto|done].
Qed.

(** What [locate] finds is good for what was inserted under that digest. *)
Lemma located_promised hist s os bs qe :
  HashStore_ok hist s None os →
  ((∃ p st, priority (queue (hi s)) !! p = Some (st, bs, qe)) ∨
   (∃ i row, rows (hi s) !! i = Some row ∧ schema.ready row = true ∧
      schema.hash row = bs ∧ queue_entry_of_row (cur (db s)) i row = Ok qe)) →
  ∃ p n l d, q_persistent_ref qe = Some p ∧ (n, l, d) ∈ hist ∧
    promised s (tree.mkHashRef bs n l p None) d.
Proof.
  intros Hok [(p & st & Hp)|(i & row & Hi & Hr & <- & Hq)].
  - destruct (ix_queued _ _ _ _ _ (ok_index _ _ _ _ Hok) _ _ _ _ Hp) as (_ & _ & _ & He).
    rewrite decide_False in He by done. destruct He as (p' & b & d & ? & ? & ? & _).
    by exists p', (q_node qe), (q_leaf qe), d.
  - destruct (ix_rows _ _ _ _ _ (ok_index _ _ _ _ Hok) _ _ Hi Hr)
      as (n & l & d & p & Hin & Href & Hp & Hloc).
    unfold queue_entry_of_row, joined_blob in Hq. unfold blob_name_at in Hloc. rewrite Href in Hq.
    destruct (childs_of_row row) as [cs| | |]; try done. cbn [mbind res_bind] in Hq.
    rewrite decode_chunk_ref_no_name in Hq.
    2:{ intros Hl. apply Hloc in Hl. by destruct (schema.blobs _ !! _). }
    cbn [mbind res_bind] in Hq. destruct (chunk.LeafType_from_u64 _) as [lt| | |]; try done.
    injection Hq as <-. eexists _, n, l, d. split_and!; [done|done|].
    eapply promised_ref; [exact Hp|by split_and!|done|]. cbn [pref tree.persistent_ref].
    destruct Hp as [_ [(_ & _ & Hz & Hn)|[Hl _]]]; unfold located_ref; cbn in *.
    + rewrite decide_False by lia. done.
    + rewrite decide_True by done. apply Hloc in Hl. simpl.
      destruct (schema.blobs _ !! _) as [b|]; [|done]. simpl in *. congruence.
Qed.

(** The state between two operations. *)
Definition store_ready (hist : history) s : Prop :=
  HashStore_ok hist s None (blob_refs s ++ spawned s).

Record inserted (hist : history) s (d : bytes) (n : chunk.NodeType) (l : Models.LeafType)
    (h : tree.HashRef) s' : Prop := {
  ins_ready : store_ready hist s';
  ins_keys : st_keys s' = st_keys s;
  ins_kept : ∀ h1 d1, promised s h1 d1 → promised s' h1 d1;
  ins_node : tree.node h = n;
  ins_leaf : tree.leaf h = l;
  ins_info : tree.info h = None;
  ins_promised : collision_free (st_keys s) hist → promised s' h d;
}.

Lemma hs_fetch_persistent_ref_run bs qe p s :
  bs ≠ [] → locate bs (hi s) = (Ok (Some qe), hi s) → q_persistent_ref qe = Some p →
  hs_fetch_persistent_ref bs s = (Ok (Some p), s).
Proof.
  intros Hne El Hp. unfold hs_fetch_persistent_ref. run_assert ltac:(done).
  assert (zoom hi_lens (HashIndex.fetch_persistent_ref bs) s = (Ok (Some p), s)) as E.
  { unfold HashIndex.fetch_persistent_ref, zoom. cbn [lget hi_lens].
    assert ((lift (assert_ (bs ≠ [])) ;; e ← locate bs;
      match e with
      | Some qe => match q_persistent_ref qe with None => throw RetryError | Some r => mret (Some r) end
      | None => mret None
      end) (hi s) = (Ok (Some p), hi s)) as ->; [|by destruct s].
    run_assert ltac:(done). rewrite (bind_Ok _ _ _ _ _ El). by rewrite Hp. }
  unfold attempt, mbind, M_bind. by rewrite E.
Qed.

Lemma hs_insert_chunk_wp hist s d n l c i :
  store_ready hist s → (n, l, d) ∈ hist →
  wp (hs_insert_chunk d n l c i) s (λ '(_, h) s', inserted hist s d n l h s').
Proof.
  intros Hok Hin. pose proof (ok_keeper _ _ _ _ Hok) as Hk.
  unfold hs_insert_chunk. apply wp_gets.
  destruct (keys.fingerprint_ok (st_keys s) d (keys.compute_salt n l) 64) as (bs & Ebs & Hbs);
    [done|apply keys.length_compute_salt|lia|].
  apply wp_lift. unfold hash.Hash_new. rewrite Ebs. cbv zeta.
  assert (bs ≠ []) as Hne by (intros ->; simpl in Hbs; lia).
  apply wp_bind, wp_zoom. cbn [lget hi_lens].
  eapply wp_mono; [eapply (reserve_index_wp _ _ _ _ _ (ok_index _ _ _ _ Hok))|].
  intros [id|id] y; cbn [hash.hash].
  - intros (-> & qe & El & Hfound). assert (lset hi_lens (hi s) s = s) as -> by by destruct s.
    destruct (located_promised _ _ _ _ _ Hok Hfound) as (p & n' & l' & d' & Hp & Hin' & Hpr).
    eapply wp_step_run; [by eapply hs_fetch_persistent_ref_run|]. apply wp_lift. simpl expect.
    apply wp_ret. split; try done. intros Hcf. cbn [tree.node] in *.
    assert ((n, l, d) = (n', l', d')) as [= -> -> ->]; [|done].
    eapply Hcf; [done|done|exact Ebs|]. apply Hpr.
  - intros (Hy & Hb & Hset & Hprio). apply wp_bind.
    pose proof (HashStore_ok_hi _ _ _ _ _ _ _ Hok (same_blobs_names _ _ Hb)
      (Hset (ok_settled _ _ _ _ Hok)) Hy) as Hok1.
    set (s1 := lset hi_lens y s) in *.
    assert (same_promises s s1) as H01 by (by apply same_promises_hi, same_blobs_names).
    eapply wp_mono; [eapply store_chunk_wp; [exact Hok1|done|exact Ebs]|].
    intros h s2 [(os & Hok2 & Hos) Hk2 Hkept Hentry Hh Hprom (b & Hbid & Hloc)].
    apply wp_bind, wp_zoom. cbn [lget hi_lens].
    change (priority (queue (hi s1)) !! id) with (priority (queue y) !! id) in Hentry.
    rewrite Hprio in Hentry.
    assert (tree.mkHashRef bs n l (pref h) None = h) as Eh by (by rewrite Hh).
    eapply wp_mono; [eapply (update_reserved_index_wp _ _ _ _ _ _ _ _ (ok_index _ _ _ _ Hok2)
      Hentry); [done|]|].
    { cbn [new_queue_entry q_id q_tag hash.node hash.leaf hash.childs hash.persistent_ref hash.hash].
      exists (pref h), b, d. cbn [q_persistent_ref q_node q_leaf]. rewrite Eh. by split_and!. }
    intros [] y3 (Hy3 & Hb3 & Hset3). apply wp_ret.
    pose proof (same_promises_hi s2 y3 (same_blobs_names _ _ Hb3)) as H23.
    split; try (by rewrite Hh).
    + refine (HashStore_ok_hi _ _ _ _ _ _ _ Hok2 (same_blobs_names _ _ Hb3)
        (Hset3 (ok_settled _ _ _ _ Hok2)) _).
      eapply index_ok_perm; [|exact Hy3]. done.
    + simpl. by rewrite Hk2.
    + intros h1 d1 H1p. eapply promised_same; [exact H23|]. by apply Hkept, (promised_same _ _ _ _ H01).
    + intros _. by eapply promised_same.
Qed.

(** *** Reading a chunk *)

(** Everything that was taken in is in the backend. *)
Definition flushed s : Prop := CipherText.len (chunks (blob s)) = 0.

Lemma promised_in_backend hist s out os h d :
  HashStore_ok hist s out os → flushed s → promised s h d → 0 < chunk.length (pref h) →
  in_backend s h d.
Proof.
  intros Hok Hz [_ [(_ & _ & ? & _)|[_ [?|((l & Hl & e & He & _) & _)]]]] Hlen; [lia|done|].
  apply (ok_len_0 _ _ Hl) in Hz. subst l. by apply elem_of_nil in He.
Qed.

(** A read: the backend may cache, the blob store caches the reader. *)
Record read_only (s s' : Store Z B) : Prop := {
  ro_hi : hi s' = hi s;
  ro_keys : st_keys s' = st_keys s;
  ro_desc : blob_desc s' = blob_desc s;
  ro_refs : blob_refs s' = blob_refs s;
  ro_blob : blob s' = blob s;
  ro_spawned : spawned s' = spawned s;
  ro_durable : ∀ n d, durable (BlobStore.backend s) n d → durable (BlobStore.backend s') n d;
}.

Lemma read_only_promised s s' h d : read_only s s' → promised s h d → promised s' h d.
Proof.
  intros [E1 E2 E3 E4 E5 _ Hd]. unfold promised, in_backend, in_current, known.
  rewrite E1, E2, E3, E5. intros [? [?|[? [(out & l & ? & ? & ?)|?]]]]; split; try done;
    [by left|right; split; [done|]; left..|right; split; [done|by right]].
  exists out, l. auto.
Qed.

(** The state after the backend and the cache have changed. *)
Lemma read_only_ok hist s b (c : lru BlobReader) out os
    (s' := lset cache_lens c (lset BlobStore.backend_lens b s)) :
  HashStore_ok hist s out os → healthy b →
  (∀ n d, durable (BlobStore.backend s) n d → durable b n d) →
  (∀ n, fresh (BlobStore.backend s) n → fresh b n ∨ known s n) →
  (∀ n reader, lru_map c !! n = Some reader →
    known s n ∧ ∃ data, durable b n data ∧ BlobReader_new (st_keys s) data = Ok reader) →
  HashStore_ok hist s' out os ∧ read_only s s'.
Proof.
  intros [? ? ? ? Hf Hc ? ? Hi] Hb Hd Hfr Hcache.
  assert (read_only s s') as Hro by by split.
  split; [|done]. split; simpl; try done.
  - intros n. destruct (Hf n) as [?%Hfr|?]; [done|by right].
  - eapply index_ok_mono; [| |exact Hi].
    + intros st k qe (p & b0 & d & ? & ? & ? & ? & ?). exists p, b0, d. split_and!; try done.
      by eapply read_only_promised.
    + intros row (n & l & d & p & ? & ? & ? & ?). exists n, l, d, p. split_and!; try done.
      by eapply read_only_promised.
Qed.

(** The cache after a lookup or after the reader of [n] has been put there. *)
Lemma cache_kept (s : Store Z B) (b : B) (c : lru BlobReader) n reader data :
  (∀ n reader, lru_map (read_cache s) !! n = Some reader →
    known s n ∧ ∃ data, durable b n data ∧ BlobReader_new (st_keys s) data = Ok reader) →
  lru_map c ⊆ <[n := reader]> (lru_map (read_cache s)) →
  known s n → durable b n data → BlobReader_new (st_keys s) data = Ok reader →
  ∀ n' reader', lru_map c !! n' = Some reader' →
    known s n' ∧ ∃ data, durable b n' data ∧ BlobReader_new (st_keys s) data = Ok reader'.
Proof.
  intros Hc Hsub Hk Hd Hr n' reader' Hn.
  eapply lookup_weaken in Hn; [|exact Hsub].
  apply lookup_insert_Some in Hn as [[<- <-]|[_ Hn]]; [|by apply Hc].
  split; [done|]. by exists data.
Qed.

(** A lookup changes at most the order of the cache. *)
Lemma cache_get_run (s : Store Z B) n :
  ∃ c, cache_get n s = (Ok (lru_map (read_cache s) !! n), lset cache_lens c s) ∧
    lru_map c = lru_map (read_cache s).
Proof.
  destruct (lru_get_mut_ok n (read_cache s)) as [E1 E2].
  exists (lru_get_mut n (read_cache s)).2. split; [|done].
  unfold cache_get, zoom. cbn [lget cache_lens]. destruct (lru_get_mut _ _). simpl in *. by subst.
Qed.

(** The chunk [d] is what the blob [n] of the backend has under [h]. *)
Definition readable_at (s : Store Z B) (n : bytes) h (d data : bytes) (reader : BlobReader) : Prop :=
  durable (BlobStore.backend s) n data ∧ known s n ∧ BlobReader_new (st_keys s) data = Ok reader ∧
  read_chunk h reader = (Ok d, reader).

(** It is read from the cache, *)
Lemma retrieve_cached_twp hist s out os h d n data reader reader' c1 :
  HashStore_ok hist s out os → readable_at s n h d data reader →
  lru_map c1 = lru_map (read_cache s) → lru_map (read_cache s) !! n = Some reader' →
  twp (o ← cache_get n; reader ← lift (expect o); chunk ← on_reader n reader (read_chunk h);
      mret (Some chunk)) (lset cache_lens c1 s)
    (λ o s', o = Some d ∧ HashStore_ok hist s' out os ∧ read_only s s').
Proof.
  intros Hok (Hdur & Hk & Hr & Hread) Hc1 Hl.
  apply twp_bind. destruct (cache_get_run (lset cache_lens c1 s) n) as (c2 & E2 & Hc2).
  refine (twp_Ok _ _ _ _ _ E2 _). cbn [read_cache lset cache_lens] in Hc2 |- *.
  rewrite Hc1 in Hc2 |- *. rewrite Hl. pose proof (ok_cache _ _ _ _ Hok) as Hcache.
  destruct (Hcache _ _ Hl) as (_ & data' & Hdur' & Hr').
  rewrite (durable_det _ _ _ _ Hdur' Hdur), Hr in Hr'. injection Hr' as <-.
  set (s2 := mkStore _ _ _ _ _ _ _ _ _ _).
  assert ((reader ← lift (expect (Some reader)); chunk ← on_reader n reader (read_chunk h);
    mret (Some chunk)) s2 = (Ok (Some d), lset cache_lens (lru_set n reader c2) s2)) as E.
  { unfold on_reader, lift, mbind, M_bind. simpl. by rewrite Hread. }
  refine (twp_Ok _ _ _ _ _ E _). split; [done|].
  refine (read_only_ok hist s (BlobStore.backend s) _ out os Hok (ok_healthy _ _ _ _ Hok) _ _ _);
    [done|by left|].
  eapply (cache_kept s _ _ n reader data); try done. rewrite <- Hc2. apply lru_set_ok.
Qed.

(** or fetched from the backend, and the cache takes the blob. *)
Lemma retrieve_stored_twp hist s out os h d n data reader c1 :
  HashStore_ok hist s out os → readable_at s n h d data reader →
  lru_map c1 = lru_map (read_cache s) →
  twp (found ← zoom BlobStore.backend_lens (retrieve n);
      match found with
      | Some text =>
          k ← gets st_keys; reader ← lift (BlobReader_new k text);
          '(chunk, reader) ← lift (let '(r, reader) := read_chunk h reader in
                                   c ← r; Ok (c, reader));
          zoom cache_lens (modify (lru_insert n reader)) ;; mret (Some chunk)
      | None => mret None
      end) (lset cache_lens c1 s)
    (λ o s', o = Some d ∧ HashStore_ok hist s' out os ∧ read_only s s').
Proof.
  intros Hok (Hdur & Hk & Hr & Hread) Hc1.
  apply twp_bind, twp_zoom. cbn [lget BlobStore.backend_lens BlobStore.backend lset cache_lens].
  eapply twp_mono; [apply (retrieve_ok _ n data); [apply Hok|done]|].
  intros o b (-> & Hb & Hkeep & Hfr). cbn [lset BlobStore.backend_lens hi next_id st_keys
    blob_desc blob_refs blob read_cache random spawned].
  set (s2 := mkStore _ _ _ _ _ _ _ _ _ _).
  assert ((k ← gets st_keys; reader ← lift (BlobReader_new k data);
    '(chunk, reader) ← lift (let '(r, reader) := read_chunk h reader in c ← r; Ok (c, reader));
    zoom cache_lens (modify (lru_insert n reader)) ;; mret (Some chunk)) s2 =
    (Ok (Some d), lset cache_lens (lru_insert n reader c1) s2)) as E.
  { rewrite bind_gets. cbn [st_keys s2]. rewrite Hr. unfold lift, mbind, M_bind. cbn.
    by rewrite Hread. }
  refine (twp_Ok _ _ _ _ _ E _). split; [done|].
  refine (read_only_ok hist s b _ out os Hok Hb Hkeep _ _).
  - intros n' Hf. destruct (decide (n' = n)) as [->|Hn]; [by right|left; by apply Hfr].
  - eapply (cache_kept s _ _ n reader data); [|rewrite <- Hc1; apply lru_insert_ok|done| |done].
    + intros n' r' Hn'. destruct (ok_cache _ _ _ _ Hok _ _ Hn') as (? & data' & ? & ?). eauto.
    + by apply Hkeep.
Qed.

Lemma retrieve_chunk_twp hist s out os h d :
  HashStore_ok hist s out os → flushed s → promised s h d →
  twp (retrieve_chunk h) s (λ o s', o = Some d ∧ HashStore_ok hist s' out os ∧ read_only s s').
Proof.
  intros Hok Hz Hp. unfold retrieve_chunk. cbv zeta. case_decide as He.
  { refine (twp_Ok _ _ _ _ _ eq_refl _). split_and!; [|done|by split].
    destruct Hp as [_ [[-> _]|[? _]]]; [done|lia]. }
  assert (0 < chunk.length (pref h)) as Hlen by (destruct Hp as [_ [(?&?&?&?)|[? _]]]; lia).
  destruct (promised_in_backend _ _ _ _ _ _ Hok Hz Hp Hlen)
    as (data & l & Hdur & Hk & (reader & Hr & Hread & _) & (e & Hin & Hs & Ho)).
  specialize (Hread (d, e) h Hin Hs Ho). simpl in Hread.
  set (n := chunk.blob_name (pref h)) in *.
  destruct (cache_get_run s n) as (c1 & E1 & Hc1).
  apply twp_bind. refine (twp_Ok _ _ _ _ _ E1 _).
  case_decide as Hcached.
  - destruct Hcached as [reader' Hl]. by eapply retrieve_cached_twp.
  - by eapply retrieve_stored_twp.
Qed.

Lemma hs_fetch_chunk_twp hist s out os h d :
  HashStore_ok hist s out os → flushed s → promised s h d →
  twp (hs_fetch_chunk h) s (λ o s', o = Some d ∧ HashStore_ok hist s' out os ∧ read_only s s').
Proof.
  intros Hok Hz Hp. pose proof (proj1 Hp) as Hd.
  pose proof (digest_length _ _ _ (ok_keeper _ _ _ _ Hok) Hd) as Hl.
  unfold hs_fetch_chunk. apply twp_bind.
  refine (twp_Ok _ _ _ () s _ _).
  { unfold lift, assert_. rewrite decide_True; [done|]. intros E. rewrite E in Hl. simpl in Hl. lia. }
  apply twp_bind. eapply twp_mono; [by eapply retrieve_chunk_twp|].
  intros o s' (-> & Hok' & Hro). pose proof (ro_keys _ _ Hro) as Ek.
  assert ((k ← gets st_keys; actual ← lift (hash.Hash_new k (tree.node h) (tree.leaf h) d);
    if decide (tree.hash h = actual) then mret (Some d) else mret None) s' = (Ok (Some d), s')) as E.
  { rewrite bind_gets, Ek. unfold digest_of in Hd. rewrite Hd. unfold lift, mbind, M_bind.
    by rewrite decide_True. }
  by refine (twp_Ok _ _ _ _ _ E _).
Qed.

(** *** The contract of the hash trees *)

Definition stored_as (hist : history) s h d : Prop :=
  collision_free (st_keys s) hist → promised s h d ∧ (tree.node h, tree.leaf h, d) ∈ hist.

#[export] Instance logged_laws : @HashTreeBackendLaws (Store Z B * history) logged.
Proof.
  refine (@Build_HashTreeBackendLaws _ logged
    (λ w, store_ready w.2 w.1)
    (λ w, store_ready w.2 w.1 ∧ flushed w.1 ∧ collision_free (st_keys w.1) w.2)
    (λ w h d, stored_as w.2 w.1 h d) _ _ _ _).
  - intros [s hist] h d Hs Hc. destruct (Hs Hc) as [Hp Hin]. split; [|done].
    eapply promised_ref; [exact Hp|by split_and!|done..].
  - intros [s hist] h1 d1 h2 d2 (_ & _ & Hc) H1s H2s E.
    destruct (H1s Hc) as [[Hd1 _] Hin1], (H2s Hc) as [[Hd2 _] Hin2].
    unfold digest_of in *. rewrite <- E in Hd2.
    by injection (Hc _ _ _ _ _ _ _ Hin1 Hin2 Hd1 Hd2).
  - intros d n l c i [s hist] Hok Hn. simpl in Hok. simpl insert_chunk.
    apply wp_zoom_modify, wp_zoom. cbn [lget lset fst_lens snd_lens fst snd].
    assert (hist ⊆ (n, l, d) :: hist) as Hsub by set_solver.
    eapply wp_mono; [apply (hs_insert_chunk_wp ((n, l, d) :: hist));
      [by eapply history_mono|by constructor]|].
    intros [id h] s' [Hr Hk Hkept Hnode Hleaf Hinfo Hp]. cbn [fst snd].
    split_and!; try done.
    + intros Hc. cbn [fst snd] in *. rewrite Hnode, Hleaf. rewrite Hk in Hc.
      split; [by apply Hp|by constructor].
    + split; [by rewrite Hnode|by rewrite Hinfo].
    + intros h' d' Hs Hc. cbn [fst snd] in *. rewrite Hk in Hc.
      destruct (Hs (collision_free_mono _ _ _ Hsub Hc)) as [? ?]. split; [by apply Hkept|set_solver].
  - intros h d [s hist] (Hok & Hz & Hc) Hs. destruct (Hs Hc) as [Hp Hin].
    simpl fetch_chunk. apply twp_zoom. cbn [lget lset fst_lens fst snd] in *.
    eapply twp_mono; [by apply (hs_fetch_chunk_twp hist s None (blob_refs s ++ spawned s))|].
    intros o s' (-> & Hok' & Hro). pose proof Hro as [Eh Ek Ed Er Eb Es _].
    split; [done|]. split.
    + cbn [fst snd]. unfold store_ready, flushed. by rewrite Er, Es, Ek, Eb.
    + intros h' d' Hs' Hc'. cbn [fst snd] in *. rewrite Ek in Hc'.
      destruct (Hs' Hc') as [? ?]. split; [by eapply read_only_promised|done].
Defined.

(** *** Flushing and the threads *)

Lemma entry_flushed hist s st k qe :
  flushed s → entry_ok hist s st k qe → entry_ok hist s Ready k qe.
Proof.
  intros Hz (p & b & d & ? & ? & ? & ? & Hl). exists p, b, d. split_and!; try done.
  intros Hlen. destruct (Hl Hlen) as [?|(_ & _ & _ & Hn)]; [by left|done].
Qed.

(** A callback that a thread runs. *)
Lemma run_spawned_wp hist s :
  store_ready hist s → flushed s →
  wp (run_spawned commit_callback) s (λ _ s', store_ready hist s' ∧ flushed s' ∧
    spawned s' = tail (spawned s) ∧ same_promises s s').
Proof.
  intros Hok Hz. unfold run_spawned. apply wp_gets.
  pose proof (ok_refs _ _ _ _ Hok Hz) as Hrefs.
  destruct (spawned s) as [|o os] eqn:Es; [by apply wp_ret|].
  apply wp_zoom_modify, wp_zoom. cbn [lget hi_lens].
  unfold store_ready in Hok. rewrite Hrefs, Es in Hok.
  eapply wp_mono; [eapply (commit_index_wp (λ _ k qe, entry_ok hist s Ready k qe)
    (row_ok hist s) (entry_row hist s) None os o)|].
  - eapply index_ok_mono; [|done|apply Hok]. intros st k qe. by apply entry_flushed.
  - intros k qe Hp. destruct (ix_queued _ _ _ _ _ (ok_index _ _ _ _ Hok) _ _ _ _ Hp) as (_ & _ & _ & He).
    rewrite decide_False in He by done. by eapply entry_flushed.
  - intros [] y [(Hy & Hb & _) Hset]. pose proof (same_blobs_names _ _ Hb) as Hn.
    split_and!; [|done..]. unfold store_ready. simpl. rewrite Hrefs.
    assert (HashStore_ok hist (lset hi_lens y s) None os) as [].
    { eapply HashStore_ok_hi; [exact Hok|done|done|]. eapply index_ok_mono; [|done|exact Hy].
      intros st k qe. apply entry_status. }
    by split.
Qed.

End HashStoreOk.
