(* ===== verification/HashStoreSpec.v ===== *)
(** * Hash store: the theorems

    The hash trees on the hash index on the blob store on a backend: what is written and
    flushed is read back, and after a flush and its callbacks every hash of the index is ready
    and its chunk can be fetched. *)

From S2P Require Import Prelude Cbor Codec Refs Ordered Upq Timer Db Crypto ModelSodium.
From S2P Require Import HashIndex Backend Blob BlobStore ModelWorld BlobSpec HashTree HashTreeSim.
From S2P Require Import HashStore StoreIndex HashStoreOk.
From S2P Require Models.
Import UniquePriorityQueue (priority).

Section Spec.
Context `{SodiumLaws} `{LruCacheLaws}.
Context `{CborLaws Models.ChunkRef} `{CborLaws Models.HashIds} `{CborLaws Models.HashRef}.
Context `{CborLaws Models.HashRefs}.
Context {B : Type} `{StoreBackendLaws (list Z) B}.
Implicit Types s : Store Z B.

#[local] Existing Instance hash_store_backend.
#[local] Existing Instance logged.

(** The record of insertions changes nothing. *)
#[local] Instance logged_morphism :
  @BackendMorphism (Store Z B * history) (Store Z B) logged hash_store_backend fst.
Proof.
  split.
  - intros h [s hist]. simpl. unfold zoom. simpl. by destruct (hs_fetch_chunk h s).
  - intros d n l c i [s hist]. simpl. unfold zoom, mbind, M_bind. simpl.
    by destruct (hs_insert_chunk d n l c i s).
Qed.

(** What a run of [write_all] asks the store to insert, after what it was asked before. *)
Definition inserts (lf : Models.LeafType) (o : nat) (chunks : list bytes) (info : option key.Info)
    s (hist : history) : history :=
  (@write_all _ logged _ chunks info (Writer_new lf o, (s, hist))).2.2.2.

(** All threads that hold a callback run. *)
Definition run_threads : M (Store Z B) unit :=
  l ← gets spawned;
  for_each (λ _, run_spawned commit_callback) l.

(** *** Flushing *)

Record flush_done (hist : history) s s' : Prop := {
  fd_ready : store_ready hist s';
  fd_flushed : flushed s';
  fd_keys : st_keys s' = st_keys s;
  fd_kept : ∀ h d, promised s h d → promised s' h d;
}.

(** The database's transaction is not what the store promises. *)
Lemma flush_db_wp hist s :
  store_ready hist s → wp (zoom hi_lens flush_index) s (λ _ s', store_ready hist s' ∧
    blob s' = blob s ∧ st_keys s' = st_keys s ∧ ∀ h d, promised s h d → promised s' h d).
Proof.
  intros Hs. unfold flush_index. do 2 apply wp_zoom.
  unfold wp, Db.flush, modify. cbn [lget lset hi_lens index_lens hi].
  set (x := mkIndex _ _ _ _ _ _ _ _). set (y := mkHashIndex (queue (hi s)) x).
  change (store_ready hist (lset hi_lens y s) ∧ blob (lset hi_lens y s) = blob s ∧
    st_keys (lset hi_lens y s) = st_keys s ∧
    ∀ h d, promised s h d → promised (lset hi_lens y s) h d).
  split_and!; try done. unfold store_ready in *.
  eapply HashStore_ok_hi; [exact Hs|done|apply Hs|].
  eapply index_ok_ext; [| |apply Hs]; done.
Qed.

Lemma flush_wp hist s :
  store_ready hist s → wp (BlobStore.flush commit_callback) s (λ _ s', flush_done hist s s').
Proof.
  intros Hs. unfold BlobStore.flush. apply wp_bind.
  eapply wp_mono; [by apply (flush_store_wp hist s None (blob_refs s ++ spawned s))|].
  intros [] s1 (Hok & Hsp & Hr & Hz & Hk & Hkept & _).
  assert (store_ready hist s1) as Hs1 by (unfold store_ready; by rewrite Hr).
  eapply wp_mono; [by apply (flush_db_wp hist)|]. intros [] s2 (Hs2 & Hb & Hk2 & Hkept2).
  split; [done| |congruence|by auto]. unfold flushed. by rewrite Hb.
Qed.

Lemma run_threads_wp hist s :
  store_ready hist s → flushed s →
  wp run_threads s (λ _ s', store_ready hist s' ∧ flushed s' ∧ spawned s' = []).
Proof.
  intros Hs Hz. unfold run_threads. apply wp_gets.
  eapply (wp_for_each (λ l s', store_ready hist s' ∧ flushed s' ∧ length (spawned s') = length l)).
  - intros o l s1 (H1s & H1z & Hl). eapply wp_mono; [by apply (run_spawned_wp hist)|].
    intros [] s2 (? & ? & E & _). split_and!; [done..|]. rewrite E.
    destruct (spawned s1); simpl in *; lia.
  - done.
  - intros s1 (? & ? & Hl%length_zero_iff_nil). done.
Qed.

(** A run of the writer, with the record. *)
Lemma logged_run lf o chunks info s hist root w1 s1 :
  write_all chunks info (Writer_new lf o, s) = (Ok root, (w1, s1)) →
  ∃ hist1, write_all chunks info (Writer_new lf o, (s, hist)) = (Ok root, (w1, (s1, hist1))).
Proof.
  intros Hrun. pose proof (write_all_tracks fst chunks info (Writer_new lf o, (s, hist))) as Ht.
  unfold on_writer in Ht. cbn [fst snd] in Ht. rewrite Hrun in Ht.
  destruct (write_all chunks info (Writer_new lf o, (s, hist))) as [r [w' [s' hist1]]].
  exists hist1. cbn [fst snd] in Ht. by injection Ht as <- <- <-.
Qed.

(** ** Theorems *)

(** C1: Write a stream of chunks to the hash store with [append] and [hash], flush the blob
    store, and iterate over the reference returned: the chunks come back, in order, through
    the backend, decryption, the digests and the tree. This holds from any state between two
    operations, for chunks that were stored before as well as for new ones, any tree order of
    at least two, and any backend that keeps its contract, as long as no two of the things
    inserted have the same digest. *)
Theorem backup_read_back lf o chunks info s hist root w1 s1 s2 :
  2 ≤ o → store_ready hist s →
  write_all chunks info (Writer_new lf o, s) = (Ok root, (w1, s1)) →
  BlobStore.flush commit_callback s1 = (Ok (), s2) →
  collision_free (st_keys s2) (inserts lf o chunks info s hist) →
  ∃ N s3, ∀ fuel, N ≤ fuel →
    collect_leafs fuel (LeafIterator_new root s2) = (Ok (stream chunks), mkWalk [] [] s3).
Proof.
  intros Ho Hs Hrun Hflush Hc. destruct (logged_run _ _ _ _ _ hist _ _ _ Hrun) as [hist1 Elog].
  unfold inserts in Hc. rewrite Elog in Hc. cbn [snd] in Hc.
  pose proof (wp_Ok_inv _ _ _ _ _ (write_all_wp lf o chunks info (s, hist) Ho Hs) Elog)
    as (Hok1 & _ & Hd).
  pose proof (wp_Ok_inv _ _ _ _ _ (flush_wp hist1 s1 Hok1) Hflush) as [Hok2 Hz Hk Hkept].
  assert (denotes (s2, hist1) lf root (stream chunks)) as Hd2.
  { destruct Hd as (n & bare & Hr & Hnd). exists n, bare. split; [|done].
    eapply repr_later; [|exact Hr]. intros h d Hst Hc2. cbn [fst snd] in *. rewrite Hk in Hc2.
    destruct (Hst Hc2) as [? ?]. split; [by apply Hkept|done]. }
  assert (readable (s2, hist1)) as Hread by exact (conj Hok2 (conj Hz Hc)).
  destruct (collect_denotes (s2, hist1) lf root _ Hread Hd2)
    as (N & s3 & _ & Hrd).
  exists N, s3.1. intros fuel Hf.
  pose proof (collect_leafs_tracks fst fuel (LeafIterator_new root (s2, hist1))) as Ht.
  unfold on_walk, LeafIterator_new in *. cbn [stack visitor backend fst] in Ht.
  rewrite (Hrd fuel Hf) in Ht. exact Ht.
Qed.

(** C6: When the blob store has been flushed and the threads it handed callbacks to have run,
    nothing waits in the hash index: the queue is empty, every hash is ready, and its chunk,
    at the place its row and its blob's row name, is fetched from the backend and has the
    digest of the row. *)
Theorem flush_settles_index hist s s1 s2 :
  store_ready hist s →
  BlobStore.flush commit_callback s = (Ok (), s1) → run_threads s1 = (Ok (), s2) →
  priority (queue (hi s2)) = ∅ ∧
  ∀ i row, rows (hi s2) !! i = Some row → schema.ready row = true ∧
    ∃ n l d p, (n, l, d) ∈ hist ∧ schema.blob_ref row = Some (chunk.as_bytes_no_name p) ∧
      (0 < chunk.length p → blob_name_at (index (hi s2)) (schema.blob_id row)
         = Some (chunk.blob_name p)) ∧
      hash.Hash_new (st_keys s2) n l d = Ok (schema.hash row) ∧
      ∃ s3, hs_fetch_chunk (tree.mkHashRef (schema.hash row) n l p None) s2 = (Ok (Some d), s3).
Proof.
  intros Hs Hflush Hthreads.
  pose proof (wp_Ok_inv _ _ _ _ _ (flush_wp hist s Hs) Hflush) as [Hok1 Hz1 _ _].
  pose proof (wp_Ok_inv _ _ _ _ _ (run_threads_wp hist s1 Hok1 Hz1) Hthreads) as (Hok & Hz & Hsp).
  pose proof Hok as Hok'. unfold store_ready in Hok'.
  rewrite Hsp, (ok_refs _ _ _ _ Hok Hz) in Hok'. cbn [app] in Hok'.
  destruct (ok_index _ _ _ _ Hok') as [Hu Hq Hn _ Hr _ Ho].
  assert (priority (queue (hi s2)) = ∅) as Hempty.
  { destruct (ok_settled _ _ _ _ Hok') as [?|(p & k & v & Hp & _)]; [done|]. exfalso.
    assert (p ∈ []) as Hin by (apply Ho; eauto). by apply elem_of_nil in Hin. }
  split; [done|]. intros i row Hi. assert (schema.ready row = true) as Hrd.
  { destruct (schema.ready row) eqn:E; [done|]. destruct (Hn _ _ Hi E) as [_ Hp].
    rewrite Hempty, lookup_empty in Hp. by destruct Hp. }
  split; [done|]. destruct (Hr _ _ Hi Hrd) as (n & l & d & p & Hin & Href & Hp & Hb).
  exists n, l, d, p. split_and!; [done..|apply Hp|].
  destruct (twp_inv _ _ _ (hs_fetch_chunk_twp _ _ _ _ _ _ Hok' Hz Hp)) as (o & s3 & E & -> & _).
  by exists s3.
Qed.

(** C12: Writing, flushing and running the callbacks never returns an error and never runs for
    ever; it may panic (which is how the code reacts to a backend that fails). *)
Theorem backup_no_error lf o chunks info s hist :
  2 ≤ o → store_ready hist s →
  match write_all chunks info (Writer_new lf o, s) with
  | (Ok _, (_, s1)) =>
      match (BlobStore.flush commit_callback ;; run_threads) s1 with
      | (Ok _, _) | (Panic, _) => True
      | _ => False
      end
  | (Panic, _) => True
  | _ => False
  end.
Proof.
  intros Ho Hs.
  pose proof (write_all_tracks fst chunks info (Writer_new lf o, (s, hist))) as Ht.
  pose proof (write_all_wp lf o chunks info (s, hist) Ho Hs) as Hw. unfold wp in Hw.
  unfold on_writer in Ht. cbn [fst snd] in Ht. rewrite Ht.
  destruct (@write_all _ logged _ chunks info (Writer_new lf o, (s, hist)))
    as [[root|e| |] [w1 [s1 hist1]]]; try done. cbn [fst snd]. destruct Hw as (Hok1 & _).
  assert (wp (BlobStore.flush commit_callback ;; run_threads) s1 (λ _ _, True)) as Hf.
  { apply wp_bind. eapply wp_mono; [by apply (flush_wp hist1)|]. intros [] s2 [Hok2 Hz _ _].
    eapply wp_mono; [by apply (run_threads_wp hist1)|done]. }
  unfold wp in Hf. by destruct ((BlobStore.flush commit_callback ;; run_threads) s1) as [[]?].
Qed.

(** After a run of [write_all] the store is ready, with the run's insertions on record. *)
Lemma write_all_ready lf o chunks info s hist root w1 s1 :
  2 ≤ o → store_ready hist s →
  write_all chunks info (Writer_new lf o, s) = (Ok root, (w1, s1)) →
  store_ready (inserts lf o chunks info s hist) s1.
Proof.
  intros Ho Hs Hrun. destruct (logged_run _ _ _ _ _ hist _ _ _ Hrun) as [hist1 Elog].
  unfold inserts. rewrite Elog.
  pose proof (write_all_wp lf o chunks info (s, hist) Ho Hs) as Hw.
  by destruct (wp_Ok_inv _ _ _ _ _ Hw Elog).
Qed.

(** *** A new store *)

(** A store on an empty index and a backend without objects is ready. *)
Lemma Store_new_ready k y b r max :
  keys.Keeper_ok k → (Z.of_nat max < 2 ^ 62)%Z → healthy b → (∀ n, fresh b n) →
  queue y = UniquePriorityQueue.new → rows y = ∅ →
  ∃ s, Store_new k y b r max = Ok s ∧ store_ready [] s ∧ st_keys s = k.
Proof.
  intros Hk Hmax Hb Hf Hq Hr. destruct (Blob_new_ok k max r Hk Hmax) as (nb & r1 & E1 & Hnb & _ & Hkb).
  unfold Store_new. rewrite E1. cbn [mbind res_bind].
  set (s0 := mkStore y 0 k b _ [] nb _ r1 []). set (nid := as_i64 (1 + default 0%Z (max_key
    (schema.blobs (cur (index y)))))). set (s1 := lset next_id_lens nid s0).
  destruct (reserve_new_blob_run s1 Hk) as (nid2 & dd & r2 & E2).
  assert (refresh_next_id s0 = (Ok (), s1)) as E3 by (destruct y as [q [[] ?]]; reflexivity).
  rewrite (bind_Ok _ _ _ _ _ E3), E2. eexists. split; [done|]. split; [|done].
  unfold store_ready. cbn [blob_refs spawned s1 s0 lset next_id_lens app]. split; cbn; try done.
  - by exists [].
  - by left.
  - intros n reader. by rewrite lru_map_new, lookup_empty.
  - left. by rewrite Hq.
  - split; cbn; rewrite ?Hq, ?Hr.
    + apply UniquePriorityQueue.upq_new_ok.
    + intros p st q qe. by rewrite lookup_empty.
    + intros i row. by rewrite lookup_empty.
    + intros i j a a'. by rewrite lookup_empty.
    + intros i row. by rewrite lookup_empty.
    + constructor.
    + intros p. rewrite elem_of_nil. split; [done|]. intros (_ & q & qe & Hp).
      simpl in Hp. by rewrite lookup_empty in Hp.
Qed.

End Spec.

(** ** Runs *)

(** Digests can be compared on a record that is at hand. *)
Definition digested `{Sodium} (k : keys.Keeper) (hist : history) :
    list (res bytes * (chunk.NodeType * Models.LeafType * bytes)) :=
  (λ a, (hash.Hash_new k a.1.1 a.1.2 a.2, a)) <$> hist.

Definition free_of_collisions `{Sodium} (k : keys.Keeper) (hist : history) : bool :=
  let ds := digested k hist in
  bool_decide (Forall (λ a, Forall (λ b, a.1 = b.1 → a.2 = b.2) ds) ds).

Lemma free_of_collisions_sound `{Sodium} k hist :
  free_of_collisions k hist = true → collision_free k hist.
Proof.
  intros Hf%bool_decide_eq_true n l d n' l' d' x Hin Hin' E E'.
  assert (∀ a, a ∈ hist → (hash.Hash_new k a.1.1 a.1.2 a.2, a) ∈ digested k hist) as Hd.
  { intros a Ha. apply list_elem_of_fmap. by exists a. }
  rewrite Forall_forall in Hf. specialize (Hf _ (Hd _ Hin)). rewrite Forall_forall in Hf.
  apply (Hf _ (Hd _ Hin')). simpl. by rewrite E, E'.
Qed.

Section Runs.

Import ModelSodium ModelWorld MemoryBackend.

#[local] Existing Instance model_sodium.
#[local] Existing Instance model_laws.
#[local] Existing Instance model_lru.
#[local] Existing Instance model_lru_laws.
#[local] Existing Instance hash_store_backend.
#[local] Instance chunk_ref_cbor : Cbor Models.ChunkRef := codec_cbor.
#[local] Instance chunk_ref_laws : CborLaws Models.ChunkRef := codec_cbor_laws.
#[local] Instance ids_cbor : Cbor Models.HashIds := codec_cbor.
#[local] Instance ids_laws : CborLaws Models.HashIds := codec_cbor_laws.
#[local] Instance href_cbor : Cbor Models.HashRef := codec_cbor.
#[local] Instance href_laws : CborLaws Models.HashRef := codec_cbor_laws.
#[local] Instance hrefs_cbor : Cbor Models.HashRefs := codec_cbor.
#[local] Instance hrefs_laws : CborLaws Models.HashRefs := codec_cbor_laws.

Definition zero_clock : Clock := mkClock (λ _, 0%Z) 0.

Definition new_index : HashIndex :=
  mkHashIndex UniquePriorityQueue.new (mkIndex schema.empty schema.empty 0 (Counter.new 0)
    (PeriodicTimer.mkTimer 0 10) true zero_clock zero_clock).

Definition first_random : @rng model_sodium := 0.

(** A new store with blobs of 4000 bytes, on an empty memory backend. *)
Definition new_store : res (Store Z MemoryBackend) :=
  Store_new the_keeper new_index MemoryBackend.new first_random 4000.

(** Five chunks, two of them equal and one empty: more than one blob takes. *)
Definition five_chunks : list bytes :=
  [replicate 1300 Byte.x01; replicate 1400 Byte.x02; []; replicate 1300 Byte.x01;
   replicate 1500 Byte.x03].

Abbreviation write_five s := (write_all five_chunks None (Writer_new Models.FileChunk 4, s)).

(** The store and the run of the examples. *)
Lemma backup_runs :
  ∃ s root ws s2, new_store = Ok s ∧ write_five s = (Ok root, ws) ∧
    BlobStore.flush commit_callback ws.2 = (Ok (), s2) ∧ ok_run (run_threads s2) = true ∧
    free_of_collisions (st_keys s2) (inserts Models.FileChunk 4 five_chunks None s []) = true.
Proof.
  destruct (check_Ok new_store (λ s, check_run (write_five s) (λ _ ws,
    check_run (BlobStore.flush commit_callback ws.2) (λ _ s2, ok_run (run_threads s2) &&
      free_of_collisions (st_keys s2) (inserts Models.FileChunk 4 five_chunks None s []))))) as (s & E & Hs).
  { vm_compute. reflexivity. }
  apply check_run_true in Hs as (root & ws & Ew & Hs).
  apply check_run_true in Hs as ([] & s2 & Ef & [Ht Hs]%andb_true_iff).
  by exists s, root, ws, s2.
Qed.

Lemma new_store_ready s : new_store = Ok s → store_ready [] s.
Proof.
  destruct (Store_new_ready the_keeper new_index MemoryBackend.new first_random 4000)
    as (s' & E & Hs & _); [apply the_keeper_ok|lia|done..|].
  intros E'. unfold new_store in E'. rewrite E in E'. by injection E' as <-.
Qed.

Lemma backup_read_back_witness :
  ∃ s root w1 s1 s2, new_store = Ok s ∧
    write_five s = (Ok root, (w1, s1)) ∧
    BlobStore.flush commit_callback s1 = (Ok (), s2) ∧
    ∃ N s3, ∀ fuel, N ≤ fuel →
      collect_leafs fuel (LeafIterator_new root s2) = (Ok five_chunks, mkWalk [] [] s3).
Proof.
  destruct backup_runs as (s & root & [w1 s1] & s2 & E & Ew & Ef & _ & Hc).
  exists s, root, w1, s1, s2. split; [exact E|]. split; [exact Ew|]. split; [exact Ef|].
  exact (backup_read_back Models.FileChunk 4 five_chunks None s [] root w1 s1 s2
    ltac:(lia) (new_store_ready s E) Ew Ef (free_of_collisions_sound _ _ Hc)).
Defined.

Lemma flush_settles_index_witness :
  ∃ s1 s2 s3 : Store Z MemoryBackend, BlobStore.flush commit_callback s1 = (Ok (), s2) ∧ run_threads s2 = (Ok (), s3) ∧
  ∃ hist : history, priority (queue (hi s3)) = ∅ ∧
  ∀ i row, rows (hi s3) !! i = Some row → schema.ready row = true ∧
    ∃ n l d p, (n, l, d) ∈ hist ∧ schema.blob_ref row = Some (chunk.as_bytes_no_name p) ∧
      (0 < chunk.length p → blob_name_at (index (hi s3)) (schema.blob_id row)
         = Some (chunk.blob_name p)) ∧
      hash.Hash_new (st_keys s3) n l d = Ok (schema.hash row) ∧
      ∃ s4, hs_fetch_chunk (tree.mkHashRef (schema.hash row) n l p None) s3 = (Ok (Some d), s4).
Proof.
  destruct backup_runs as (s & root & [w1 s1] & s2 & E & Ew & Ef & Ht & _).
  destruct (ok_run_split _ Ht) as ([] & s3 & Et).
  exists s1, s2, s3. split; [exact Ef|]. split; [exact Et|].
  exists (inserts Models.FileChunk 4 five_chunks None s []).
  exact (flush_settles_index _ s1 s2 s3 (write_all_ready Models.FileChunk 4 five_chunks None s []
    root w1 s1 ltac:(lia) (new_store_ready s E) Ew) Ef Et).
Defined.

Lemma backup_no_error_witness :
  ∃ s, new_store = Ok s ∧
  match write_five s with
  | (Ok _, (_, s1)) =>
      match (BlobStore.flush commit_callback ;; run_threads) s1 with
      | (Ok _, _) | (Panic, _) => True
      | _ => False
      end
  | (Panic, _) => True
  | _ => False
  end.
Proof.
  destruct backup_runs as (s & _ & _ & _ & E & _). exists s. split; [exact E|].
  exact (backup_no_error Models.FileChunk 4 five_chunks None s [] ltac:(lia) (new_store_ready s E)).
Defined.

End Runs.
