(* ===== verification/Gc.v ===== *)
(** * Garbage collection: gc/mod.rs, rc.rs and noop.rs

    A collector works on a [GcBackend]: hashes with a tag, a counter per family and the hashes
    they name. [GcRc] counts, for each top hash, the snapshots that need it, and finds the
    hashes that no counted hash leads to. The channels are lists: every sender has finished
    when its receiver is read. *)

From S2P Require Import Prelude Ordered Db.
Import Ordered.tags.

Inductive GcStatus := GcInProgress | GcComplete.

#[global] Instance GcStatus_eq_dec : EqDecision GcStatus.
Proof. solve_decision. Defined.

Class GcBackend (S : Type) := {
  get_data : Z → Z → M S GcData;
  update_data : Z → Z → UpdateFn → M S GcData;
  update_all_data_by_family : Z → list UpdateFn → M S unit;
  set_tag : Z → Tag → M S unit;
  get_tag : Z → M S (option Tag);
  set_all_tags : Tag → M S unit;
  reverse_refs : Z → M S (list Z);
  list_ids_by_tag : Tag → M S (list Z);
  manual_commit : M S unit;
}.

(** The recursion ends because each call below the first has marked one more hash. *)
Fixpoint mark_tree {S} `{!GcBackend S} (fuel : nat) (root : Z) (tag : Tag) : M S unit :=
  match fuel with
  | O => diverge
  | Datatypes.S fuel =>
      set_tag root tag ;;
      rs ← reverse_refs root;
      for_each (λ r,
        current ← get_tag r;
        if decide (current = Some tag) then mret ()
        else set_tag r tag ;; mark_tree fuel r tag) rs
  end.

(** The trait; [deregister] gets its references from a closure that is called once. *)
Class Gc (S : Type) := {
  is_exact : bool;
  register_final : SnapshotInfo → Z → M S unit;
  register_cleanup : SnapshotInfo → Z → M S unit;
  deregister : SnapshotInfo → Z → M S (list Z) → M S unit;
  list_unused_ids : M S (list Z);
  status : Z → M S (option GcStatus);
}.

(** ** rc.rs *)
Module GcRc.
Section GcRc.
Context {S : Type} `{!GcBackend S}.

Definition DATA_FAMILY : Z := 0.

(** [num] is an i64. *)
Definition add_num (n : Z) : UpdateFn := λ d, Some (mkGcData (as_i64 (g_num d + n)) (g_bytes d)).

Definition rc_register_final (_snapshot : SnapshotInfo) (ref_final : Z) : M S unit :=
  manual_commit ;;
  set_tag ref_final Reserved ;;
  ids ← list_ids_by_tag Reserved;
  for_each (λ r, update_data r DATA_FAMILY (add_num 1) ;; mret ()) ids ;;
  set_tag ref_final InProgress.

Definition rc_register_cleanup (_snapshot : SnapshotInfo) (_ref_final : Z) : M S unit :=
  set_all_tags Done.

Definition rc_deregister (_snapshot : SnapshotInfo) (ref_final : Z) (refs : M S (list Z)) : M S unit :=
  set_all_tags Done ;;
  rs ← refs;
  for_each (λ r, set_tag r Reserved) rs ;;
  manual_commit ;;
  ids ← list_ids_by_tag Reserved;
  for_each (λ r, update_data r DATA_FAMILY (add_num (-1)) ;; mret ()) ids ;;
  set_tag ref_final ReadyDelete.

(** All hashes are 'Done' in the loop's listing, so that their number is fuel enough. *)
Definition rc_list_unused_ids : M S (list Z) :=
  set_all_tags Done ;;
  ids ← list_ids_by_tag Done;
  for_each (λ r,
    data ← get_data r DATA_FAMILY;
    lift (assert_ (0 ≤ g_num data)%Z) ;;
    if decide (0 < g_num data)%Z then mark_tree (Datatypes.S (length ids)) r Reserved else mret ()) ids ;;
  list_ids_by_tag Done.

Definition rc_status (final_ref : Z) : M S (option GcStatus) :=
  t ← get_tag final_ref;
  mret (match t with
        | Some Complete | Some ReadyDelete => Some GcComplete
        | Some InProgress => Some GcInProgress
        | _ => None
        end).

#[global] Instance gc_rc : Gc S := {|
  is_exact := true;
  register_final := rc_register_final;
  register_cleanup := rc_register_cleanup;
  deregister := rc_deregister;
  list_unused_ids := rc_list_unused_ids;
  status := rc_status;
|}.

End GcRc.
End GcRc.

(** ** noop.rs *)
Module GcNoop.

Definition gc_noop {S} : Gc S := {|
  is_exact := false;
  register_final _ _ := mret ();
  register_cleanup _ _ := mret ();
  deregister _ _ _ := mret ();
  list_unused_ids := mret [];
  status _ := mret (Some GcComplete);
|}.

End GcNoop.

(** ** The backend of the unit tests *)
Module GcMemory.

(** [commit] holds the state to roll back to. *)
Inductive MemoryBackend := mkMemory {
  gc_data : gmap (Z * Z) GcData;
  tags : gmap Z Tag;
  parents : gmap Z (list Z);
  snapshot_refs : gmap Z (list Z);
  commit : option MemoryBackend;
}.

Definition new : MemoryBackend := mkMemory ∅ ∅ ∅ ∅ None.

Definition set_gc_data x b := mkMemory x (tags b) (parents b) (snapshot_refs b) (commit b).
Definition set_tags x b := mkMemory (gc_data b) x (parents b) (snapshot_refs b) (commit b).

Definition insert_snapshot (info : SnapshotInfo) (refs : list Z) : M MemoryBackend unit :=
  modify (λ b, mkMemory (gc_data b) (tags b) (parents b)
    (<[unique_id info := refs]> (snapshot_refs b)) (commit b)).

Definition list_snapshot_refs (info : SnapshotInfo) : M MemoryBackend (list Z) :=
  gets (λ b, default [] (snapshot_refs b !! unique_id info)).

(** The copy holds the commit before it. *)
Definition do_commit : M MemoryBackend unit :=
  modify (λ b, mkMemory (gc_data b) (tags b) (parents b) (snapshot_refs b) (Some b)).

Definition rollback : M MemoryBackend unit :=
  modify (λ b, match commit b with
    | None => b
    | Some c => mkMemory (gc_data c) (tags c) (parents c) (snapshot_refs c) None
    end).

Definition no_data : GcData := mkGcData 0 [].

Definition mem_get_data (hash_id family_id : Z) : M MemoryBackend GcData :=
  gets (λ b, default no_data (gc_data b !! (hash_id, family_id))).

Definition mem_update_data (hash_id family_id : Z) (f : UpdateFn) : M MemoryBackend GcData :=
  d ← mem_get_data hash_id family_id;
  let new := default no_data (f d) in
  modify (λ b, set_gc_data (<[(hash_id, family_id) := new]> (gc_data b)) b) ;;
  mret new.

(** One function is taken for each entry of the family. *)
Fixpoint update_entries (family_id : Z) (l : list (Z * Z * GcData)) (fns : list UpdateFn)
    : M MemoryBackend unit :=
  match l with
  | [] => mret ()
  | (k, v) :: l =>
      if decide (k.2 = family_id) then
        match fns with
        | [] => panic
        | f :: fns =>
            modify (λ b, set_gc_data (<[k := default no_data (f v)]> (gc_data b)) b) ;;
            update_entries family_id l fns
        end
      else update_entries family_id l fns
  end.

Definition mem_set_all_tags (tag : Tag) : M MemoryBackend unit :=
  vals ← gets (λ b, concat (map_to_list (snapshot_refs b)).*2);
  for_each (λ r, modify (λ b, set_tags (<[r := tag]> (tags b)) b)) vals.

Definition mem_list_ids_by_tag (tag : Tag) : M MemoryBackend (list Z) :=
  gets (λ b, (filter (λ e : Z * Tag, e.2 = tag) (map_to_list (tags b))).*1).

#[global] Instance memory_backend : GcBackend MemoryBackend := {|
  get_data := mem_get_data;
  update_data := mem_update_data;
  update_all_data_by_family f fns :=
    l ← gets (λ b, map_to_list (gc_data b)); update_entries f l fns;
  set_tag id tag := modify (λ b, set_tags (<[id := tag]> (tags b)) b);
  get_tag id := gets (λ b, tags b !! id);
  set_all_tags := mem_set_all_tags;
  reverse_refs id := gets (λ b, default [] (parents b !! id));
  list_ids_by_tag := mem_list_ids_by_tag;
  manual_commit := do_commit;
|}.

End GcMemory.
