(* ===== verification/GcOk.v ===== *)
(** * The contract of a collector's backend, and what the collector does on it

    [GcBackendLaws] says what [GcBackend]'s operations do to the known hashes: their tag, their
    counter (of the one family [GcRc] uses) and the hashes they name. On it: marking a tree
    reaches exactly what the root leads to, and the counters are the numbers of registered
    snapshots. *)

From S2P Require Import Prelude Ordered Db Gc.
Import Ordered.tags GcRc.

Class GcBackendLaws (S : Type) `{!GcBackend S} := {
  gc_ok : S → Prop;
  known : S → gset Z;
  tag_of : S → Z → option Tag;
  num_of : S → Z → Z;
  kids_of : S → Z → list Z;
  tag_known : ∀ s i, gc_ok s → is_Some (tag_of s i) → i ∈ known s;
  kids_known : ∀ s i j, gc_ok s → i ∈ known s → j ∈ kids_of s i → j ∈ known s;
  get_data_ok : ∀ s i, gc_ok s → i ∈ known s →
    twp (get_data i DATA_FAMILY) s (λ d s', s' = s ∧ g_num d = num_of s i);
  update_data_ok : ∀ s i n, gc_ok s → i ∈ known s →
    twp (update_data i DATA_FAMILY (add_num n)) s (λ _ s', gc_ok s' ∧ known s' = known s ∧
      (∀ j, tag_of s' j = tag_of s j) ∧ (∀ j, kids_of s' j = kids_of s j) ∧
      ∀ j, num_of s' j = if decide (j = i) then as_i64 (num_of s i + n) else num_of s j);
  set_tag_ok : ∀ s i t, gc_ok s → i ∈ known s →
    twp (set_tag i t) s (λ _ s', gc_ok s' ∧ known s' = known s ∧
      (∀ j, num_of s' j = num_of s j) ∧ (∀ j, kids_of s' j = kids_of s j) ∧
      ∀ j, tag_of s' j = if decide (j = i) then Some t else tag_of s j);
  get_tag_ok : ∀ s i, gc_ok s → i ∈ known s →
    twp (get_tag i) s (λ t s', s' = s ∧ t = tag_of s i);
  set_all_tags_ok : ∀ s t, gc_ok s →
    twp (set_all_tags t) s (λ _ s', gc_ok s' ∧ known s' = known s ∧
      (∀ j, num_of s' j = num_of s j) ∧ (∀ j, kids_of s' j = kids_of s j) ∧
      ∀ j, tag_of s' j = if decide (j ∈ known s) then Some t else None);
  reverse_refs_ok : ∀ s i, gc_ok s → i ∈ known s →
    twp (reverse_refs i) s (λ l s', s' = s ∧ l = kids_of s i);
  list_ids_ok : ∀ s t, gc_ok s →
    twp (list_ids_by_tag t) s (λ l s', s' = s ∧ NoDup l ∧ ∀ i, i ∈ l ↔ tag_of s i = Some t);
  manual_commit_ok : ∀ s, gc_ok s →
    twp manual_commit s (λ _ s', gc_ok s' ∧ known s' = known s ∧
      (∀ j, num_of s' j = num_of s j) ∧ (∀ j, kids_of s' j = kids_of s j) ∧
      ∀ j, tag_of s' j = tag_of s j);
}.

Section Gc.
Context {S : Type} `{GcBackendLaws S}.
Implicit Types s : S.

(** Only tags differ. *)
Record same_graph s s' : Prop := {
  sg_ok : gc_ok s';
  sg_known : known s' = known s;
  sg_num : ∀ i, num_of s' i = num_of s i;
  sg_kids : ∀ i, kids_of s' i = kids_of s i;
}.

Lemma same_graph_refl s : gc_ok s → same_graph s s.
Proof. by split. Qed.

Lemma same_graph_trans s1 s2 s3 : same_graph s1 s2 → same_graph s2 s3 → same_graph s1 s3.
Proof. intros [? ? E1 E2] [? ? E3 E4]. split; [done|congruence|..]; intros i; by rewrite ?E3, ?E4. Qed.

(** [child s i j]: [i] names [j]. *)
Definition child s (i j : Z) : Prop := j ∈ kids_of s i.
Definition leads s : Z → Z → Prop := rtc (child s).

Lemma leads_same s s' i j : same_graph s s' → leads s' i j → leads s i j.
Proof.
  intros Hs. apply rtc_subrel. intros x y Hxy. unfold child in *. by rewrite (sg_kids _ _ Hs) in Hxy.
Qed.

Lemma leads_known s i j : gc_ok s → i ∈ known s → leads s i j → j ∈ known s.
Proof. intros Hs Hi Hl. induction Hl as [|i k j Hik _ IH]; [done|]. by eapply IH, kids_known. Qed.

(** ** Marking *)

Definition marked s (t : Tag) (i : Z) : Prop := tag_of s i = Some t.

#[global] Instance marked_dec s t i : Decision (marked s t i).
Proof. unfold marked. apply _. Defined.

Definition unmarked s t : gset Z := filter (λ i, ¬ marked s t i) (known s).

(** What [mark_tree] does with the roots [rs]: their trees are marked, down to what was marked
    before, and nothing else is. *)
Record marks t (rs : list Z) s s' : Prop := {
  mk_graph : same_graph s s';
  mk_kept : ∀ i, marked s t i → marked s' t i;
  mk_roots : ∀ r, r ∈ rs → marked s' t r;
  mk_only : ∀ i, tag_of s' i = tag_of s i ∨ marked s' t i;
  mk_reached : ∀ i, marked s' t i → marked s t i ∨ ∃ r, r ∈ rs ∧ leads s r i;
  mk_closed : ∀ i j, marked s' t i → ¬ marked s t i → child s i j → marked s' t j;
}.

Lemma marks_refl t s : gc_ok s → marks t [] s s.
Proof. intros Hs. split; auto using same_graph_refl; set_solver. Qed.

Lemma marks_trans t rs1 rs2 s1 s2 s3 :
  marks t rs1 s1 s2 → marks t rs2 s2 s3 → marks t (rs1 ++ rs2) s1 s3.
Proof.
  intros [G1 K1 R1 O1 H1r C1] [G2 K2 R2 O2 H2r C2]. split.
  - by eapply same_graph_trans.
  - auto.
  - intros r [?|?]%elem_of_app; auto.
  - intros i. destruct (O2 i) as [->|?]; [|by right]. destruct (O1 i) as [?|?]; [by left|].
    right. by apply K2.
  - intros i [[?|(r & ? & ?)]%H1r|(r & ? & ?)]%H2r; [by left|right; exists r; set_solver|right].
    exists r. split; [set_solver|]. by eapply leads_same.
  - intros i j Hi Hn Hij. destruct (decide (marked s2 t i)) as [Hm|Hm].
    + by eapply K2, C1.
    + apply (C2 i j Hi Hm). unfold child. by rewrite (sg_kids _ _ G1).
Qed.

Lemma unmarked_marks t rs s s' : marks t rs s s' → unmarked s' t ⊆ unmarked s t.
Proof.
  intros [G K _ _ _ _] i. unfold unmarked. rewrite !elem_of_filter, (sg_known _ _ G). naive_solver.
Qed.

(** Tagging one hash, whose children are to follow. *)
Lemma set_tag_marks t s r :
  gc_ok s → r ∈ known s →
  twp (set_tag r t) s (λ _ s', same_graph s s' ∧
    ∀ j, tag_of s' j = if decide (j = r) then Some t else tag_of s j).
Proof.
  intros Hs Hr. eapply twp_mono; [by apply set_tag_ok|]. intros _ s' (? & ? & ? & ? & ?).
  split; [by split|done].
Qed.

Lemma marks_root t s s1 s2 r :
  same_graph s s1 → (∀ j, tag_of s1 j = if decide (j = r) then Some t else tag_of s j) →
  marks t (kids_of s r) s1 s2 → marks t [r] s s2.
Proof.
  intros G1 T1 [G2 K2 R2 O2 H2r C2].
  assert (marked s1 t r) as Hr by (unfold marked; by rewrite T1, decide_True).
  split.
  - by eapply same_graph_trans.
  - intros i Hi. apply K2. unfold marked in *. rewrite T1. by case_decide.
  - intros i ->%list_elem_of_singleton. by apply K2.
  - intros i. destruct (O2 i) as [E|?]; [|by right]. rewrite E, T1. case_decide; [|by left].
    subst. right. by apply K2.
  - intros i [Hi|(k & Hk & Hl)]%H2r.
    + unfold marked in *. rewrite T1 in Hi. case_decide; [right|by left]. subst.
      exists r. split; [set_solver|apply rtc_refl].
    + right. exists r. split; [set_solver|]. eapply rtc_l; [exact Hk|]. by eapply leads_same.
  - intros i j Hi Hn Hij. destruct (decide (i = r)) as [->|Hne]; [by apply R2|].
    apply (C2 i j Hi).
    + unfold marked in *. by rewrite T1, decide_False.
    + unfold child. by rewrite (sg_kids _ _ G1).
Qed.

Lemma unmarked_tagged t s s1 r :
  same_graph s s1 → (∀ j, tag_of s1 j = if decide (j = r) then Some t else tag_of s j) →
  unmarked s1 t ⊆ unmarked s t ∧ (¬ marked s t r → r ∈ known s →
    size (unmarked s1 t) < size (unmarked s t)).
Proof.
  intros G T. assert (unmarked s1 t = unmarked s t ∖ {[r]}) as E.
  { apply set_eq. intros i. unfold unmarked, marked. rewrite elem_of_difference, !elem_of_filter,
      (sg_known _ _ G), T, elem_of_singleton. case_decide; naive_solver. }
  rewrite E. split; [set_solver|]. intros Hr Hk. apply subset_size.
  assert (r ∈ unmarked s t) by (by apply elem_of_filter). set_solver.
Qed.

(** A kid that was tagged and then marked as a tree of its own. *)
Lemma marks_tagged t s2 s3 s4 k :
  same_graph s2 s3 → (∀ j, tag_of s3 j = if decide (j = k) then Some t else tag_of s2 j) →
  marks t [k] s3 s4 → (∀ j, child s3 k j → marked s4 t j) → marks t [k] s2 s4.
Proof.
  intros G3 T3 [G4 K4 R4 O4 E4 C4] Hc.
  assert (marked s3 t k) as Hk3 by (unfold marked; by rewrite T3, decide_True).
  split.
  - by eapply same_graph_trans.
  - intros i Hi. apply K4. unfold marked in *. rewrite T3. by case_decide.
  - done.
  - intros i. destruct (O4 i) as [E|?]; [|by right]. rewrite E, T3. case_decide; [|by left].
    subst. right. by apply K4.
  - intros i [Hi|(q & Hq & Hl')]%E4; [|right; exists q; split; [done|by eapply leads_same]].
    unfold marked in *. rewrite T3 in Hi. case_decide; [right|by left]. subst.
    exists k. split; [set_solver|apply rtc_refl].
  - intros i j Hi Hn Hij. assert (child s3 i j) as Hij3 by (unfold child; by rewrite (sg_kids _ _ G3)).
    destruct (decide (i = k)) as [->|Hne]; [by apply Hc|]. apply (C4 i j Hi); [|done].
    unfold marked in *. by rewrite T3, decide_False.
Qed.

Abbreviation mark_kid fuel t := (λ r,
  current ← get_tag r;
  if decide (current = Some t) then mret () else set_tag r t ;; mark_tree fuel r t).

(** The loop over the kids, given what the recursive calls do. *)
Lemma mark_kids_marks fuel t l s :
  (∀ r s, gc_ok s → r ∈ known s → size (unmarked s t) < fuel →
    twp (mark_tree fuel r t) s (λ _ s', marks t [r] s s' ∧ ∀ j, child s r j → marked s' t j)) →
  gc_ok s → (∀ j, j ∈ l → j ∈ known s) → size (unmarked s t) ≤ fuel →
  twp (for_each (mark_kid fuel t) l) s (λ _ s', marks t l s s').
Proof.
  intros IH. revert s. induction l as [|k l IHl]; intros s Hs Hl Hf; cbn [for_each].
  { refine (twp_Ok _ _ _ _ _ eq_refl _). by apply marks_refl. }
  assert (k ∈ known s) as Hk by (apply Hl; set_solver).
  apply twp_bind. apply (twp_mono _ _ (λ _ s', marks t [k] s s')).
  - apply twp_bind. eapply twp_mono; [by apply get_tag_ok|]. intros cur s2' [-> ->].
    case_decide as Hm.
    + refine (twp_Ok _ _ _ _ _ eq_refl _). destruct (marks_refl t s Hs) as [? ? _ ? ? ?].
      split; auto; set_solver.
    + apply twp_bind. eapply twp_mono; [by apply (set_tag_marks t)|]. intros [] s3 [G3 T3].
      destruct (unmarked_tagged t s s3 k G3 T3) as [_ Hlt]. specialize (Hlt Hm Hk).
      eapply twp_mono; [apply IH; [apply G3|by rewrite (sg_known _ _ G3)|lia]|].
      intros [] s4 [Hm4 Hc4]. by eapply marks_tagged.
  - intros [] s2 M2. pose proof (mk_graph _ _ _ _ M2) as G2.
    pose proof (subseteq_size _ _ (unmarked_marks _ _ _ _ M2)).
    eapply twp_mono; [apply IHl; [apply G2| |lia]|].
    + intros j Hj. rewrite (sg_known _ _ G2). apply Hl. set_solver.
    + intros [] s3 M3. by apply (marks_trans t [k] l s s2 s3).
Qed.

Lemma mark_tree_marks fuel r t s :
  gc_ok s → r ∈ known s → size (unmarked s t) < fuel →
  twp (mark_tree fuel r t) s (λ _ s', marks t [r] s s' ∧ ∀ j, child s r j → marked s' t j).
Proof.
  revert r s. induction fuel as [|fuel IH]; intros r s Hs Hr Hf; [lia|]. cbn [mark_tree].
  apply twp_bind. eapply twp_mono; [by apply (set_tag_marks t)|]. intros [] s1 [G1 T1].
  pose proof (sg_ok _ _ G1) as Hs1.
  destruct (unmarked_tagged t s s1 r G1 T1) as [Hsub _]. apply subseteq_size in Hsub.
  apply twp_bind. eapply twp_mono; [apply reverse_refs_ok; [done|by rewrite (sg_known _ _ G1)]|].
  intros rs s1' [-> ->]. rewrite (sg_kids _ _ G1).
  eapply twp_mono; [apply (mark_kids_marks fuel t (kids_of s r) s1 IH Hs1)|].
  - intros j Hj. rewrite (sg_known _ _ G1). by eapply kids_known.
  - lia.
  - intros [] s2 M2. split; [by eapply marks_root|]. intros j Hj. by apply (mk_roots _ _ _ _ M2).
Qed.

(** ** Unused hashes *)

(** [i] is needed: a counted hash leads to it. *)
Definition used s (i : Z) : Prop := ∃ r, r ∈ known s ∧ (0 < num_of s r)%Z ∧ leads s r i.

Lemma marks_all t rs s s' :
  (∀ i, ¬ marked s t i) → marks t rs s s' →
  ∀ i, marked s' t i ↔ ∃ r, r ∈ rs ∧ leads s r i.
Proof.
  intros Hn M i. split.
  - intros [Hi|?]%(mk_reached _ _ _ _ M); [by apply Hn in Hi|done].
  - intros (r & Hr & Hl). apply (mk_roots _ _ _ _ M) in Hr. induction Hl as [|x y z Hxy _ IH]; [done|].
    apply IH. by eapply (mk_closed _ _ _ _ M).
Qed.

Abbreviation mark_used fuel := (λ r,
  data ← get_data r DATA_FAMILY;
  lift (assert_ (0 ≤ g_num data)%Z) ;;
  if decide (0 < g_num data)%Z then mark_tree fuel r Reserved else mret ()).

Lemma mark_used_marks fuel l s :
  gc_ok s → size (known s) < fuel → (∀ i, i ∈ l → i ∈ known s ∧ (0 ≤ num_of s i)%Z) →
  twp (for_each (mark_used fuel) l) s (λ _ s',
    marks Reserved (filter (λ i, 0 < num_of s i)%Z l) s s').
Proof.
  revert s. induction l as [|k l IHl]; intros s Hs Hf Hl; cbn [for_each].
  { refine (twp_Ok _ _ _ _ _ eq_refl _). by apply marks_refl. }
  destruct (Hl k) as [Hk Hk0]; [by constructor|].
  assert (size (unmarked s Reserved) ≤ size (known s)) as Hsz.
  { apply subseteq_size. unfold unmarked. set_solver. }
  apply twp_bind. apply (twp_mono _ _ (λ _ s', marks Reserved (filter (λ i, 0 < num_of s i)%Z [k]) s s')).
  - apply twp_bind. eapply twp_mono; [by apply get_data_ok|]. intros d s' [-> Ed].
    apply twp_bind. refine (twp_Ok _ _ _ () s _ _).
    { unfold lift. by rewrite assert_Ok by lia. }
    rewrite Ed, filter_cons, filter_nil. case_decide.
    + eapply twp_mono; [apply mark_tree_marks; [done|done|lia]|]. by intros _ s' [? _].
    + refine (twp_Ok _ _ _ _ _ eq_refl _). by apply marks_refl.
  - intros [] s2 M2. pose proof (mk_graph _ _ _ _ M2) as G2.
    eapply twp_mono; [apply IHl; [apply G2|by rewrite (sg_known _ _ G2)|]|].
    + intros j Hj. rewrite (sg_known _ _ G2), (sg_num _ _ G2). apply Hl. by constructor.
    + intros [] s3 M3. pose proof (marks_trans _ _ _ _ _ _ M2 M3) as M.
      assert (filter (λ i, 0 < num_of s2 i)%Z l = filter (λ i, 0 < num_of s i)%Z l) as E
        by (apply list_filter_iff; intros i; by rewrite (sg_num _ _ G2)).
      rewrite E, <- filter_app in M. exact M.
Qed.

Lemma list_unused_ok s :
  gc_ok s → (∀ i, i ∈ known s → (0 ≤ num_of s i)%Z) →
  twp rc_list_unused_ids s (λ l s', same_graph s s' ∧ NoDup l ∧
    (∀ i, i ∈ l ↔ i ∈ known s ∧ ¬ used s i) ∧ (∀ i, i ∈ known s → i ∈ l ∨ used s i) ∧
    ∀ i, used s i → marked s' Reserved i).
Proof.
  intros Hs Hnum. unfold rc_list_unused_ids. apply twp_bind.
  eapply twp_mono; [by apply set_all_tags_ok|]. intros [] s1 (Hs1 & Kn1 & N1 & K1 & T1).
  assert (same_graph s s1) as G1 by by split.
  apply twp_bind. eapply twp_mono; [by apply list_ids_ok|]. intros ids s1' (-> & Hnd & Hids).
  assert (∀ i, i ∈ ids ↔ i ∈ known s) as Hids'.
  { intros i. rewrite Hids, T1. case_decide; naive_solver. }
  apply twp_bind. eapply twp_mono; [apply mark_used_marks; [done| |]|].
  - rewrite Kn1. assert (known s = list_to_set ids) as ->.
    { apply set_eq. intros i. by rewrite elem_of_list_to_set, Hids'. }
    rewrite size_list_to_set by done. lia.
  - intros i Hi%Hids'. rewrite Kn1, N1. auto.
  - intros [] s2 M. pose proof (mk_graph _ _ _ _ M) as G2.
    eapply twp_mono; [apply list_ids_ok, G2|]. intros l s2' (-> & Hndl & Hl).
    split; [by eapply same_graph_trans|]. split; [done|].
    assert (∀ j, ¬ marked s1 Reserved j) as Hno.
    { intros j. unfold marked. rewrite T1. by case_decide. }
    assert (∀ i, marked s2 Reserved i ↔ used s i) as Hm.
    { intros i. rewrite (marks_all _ _ _ _ Hno M). unfold used. split.
      - intros (r & [Hr0 Hr%Hids']%list_elem_of_filter & Hlr). exists r. rewrite N1 in Hr0.
        split_and!; [done|done|by eapply leads_same].
      - intros (r & Hr & Hr0 & Hlr). exists r. rewrite list_elem_of_filter, Hids', N1.
        split; [done|]. eapply (rtc_subrel (child s)); [|exact Hlr]. intros x y. unfold child. by rewrite K1. }
    assert (∀ i, i ∈ known s → i ∈ l ∨ used s i) as Hor.
    { intros i Hk. rewrite Hl, <- Hm. destruct (mk_only _ _ _ _ M i) as [->|?]; [|by right].
      left. by rewrite T1, decide_True. }
    split; [|split; [done|intros i; apply Hm]]. intros i. split.
    + intros Hd%Hl. split; [|rewrite <- Hm; unfold marked; congruence].
      rewrite <- Kn1, <- (sg_known _ _ G2). apply tag_known; [apply G2|by eauto].
    + intros [Hk Hn]. by destruct (Hor i Hk).
Qed.

(** ** What the listing leaves alone: whatever its backend's operations do *)

Definition frames {A} (R : relation S) (m : M S A) : Prop := ∀ s, R s (m s).2.

Section frames.
Context (R : relation S) `{!PreOrder R}.

Lemma frames_ret {A} (a : A) : frames R (mret a).
Proof. intros s. done. Qed.

Lemma frames_lift {A} (r : res A) : frames R (lift r).
Proof. intros s. done. Qed.

Lemma frames_bind {A B} (m : M S A) (f : A → M S B) :
  frames R m → (∀ a, frames R (f a)) → frames R (m ≫= f).
Proof.
  intros Hm Hf s. specialize (Hm s). unfold mbind, M_bind. destruct (m s) as [[] s1]; try done.
  etrans; [exact Hm|apply Hf].
Qed.

Lemma frames_for_each {A} (f : A → M S unit) l : (∀ a, frames R (f a)) → frames R (for_each f l).
Proof. intros Hf. induction l; [apply frames_ret|by apply frames_bind]. Qed.

Lemma list_unused_frames :
  (∀ i t, frames R (set_tag i t)) → (∀ t, frames R (set_all_tags t)) → (∀ i, frames R (get_tag i)) →
  (∀ i f, frames R (get_data i f)) → (∀ i, frames R (reverse_refs i)) →
  (∀ t, frames R (list_ids_by_tag t)) → frames R rc_list_unused_ids.
Proof.
  intros Hst Hsa Hgt Hgd Hrr Hli.
  assert (∀ fuel r t, frames R (mark_tree fuel r t)) as Hmark.
  { induction fuel as [|fuel IH]; intros r t; cbn [mark_tree]; [by intros s|].
    apply frames_bind; [done|]. intros _. apply frames_bind; [done|]. intros rs.
    apply frames_for_each. intros k. apply frames_bind; [done|]. intros cur. case_decide; [apply frames_ret|].
    by apply frames_bind. }
  unfold rc_list_unused_ids. apply frames_bind; [done|]. intros _. apply frames_bind; [done|].
  intros ids. apply frames_bind; [|done]. apply frames_for_each. intros r.
  apply frames_bind; [done|]. intros d. apply frames_bind; [apply frames_lift|]. intros _.
  case_decide; [apply Hmark|apply frames_ret].
Qed.

End frames.

(** ** Counting *)

(** Only counters and tags differ. *)
Record same_hashes s s' : Prop := {
  sh_ok : gc_ok s';
  sh_known : known s' = known s;
  sh_kids : ∀ i, kids_of s' i = kids_of s i;
}.

Lemma same_graph_hashes s s' : same_graph s s' → same_hashes s s'.
Proof. by intros []. Qed.

Lemma same_hashes_trans s1 s2 s3 : same_hashes s1 s2 → same_hashes s2 s3 → same_hashes s1 s3.
Proof. intros [? ? E2] [? ? E4]. split; [done|congruence|]; intros i; by rewrite ?E4. Qed.

Lemma add_all_ok n l s :
  gc_ok s → NoDup l → (∀ i, i ∈ l → i ∈ known s) →
  twp (for_each (λ r, update_data r DATA_FAMILY (add_num n) ;; mret ()) l) s (λ _ s',
    same_hashes s s' ∧ (∀ j, tag_of s' j = tag_of s j) ∧
    ∀ j, num_of s' j = if decide (j ∈ l) then as_i64 (num_of s j + n) else num_of s j).
Proof.
  revert s. induction l as [|k l IH]; intros s Hs Hnd Hl; cbn [for_each].
  { refine (twp_Ok _ _ _ _ _ eq_refl _). split; [by split|]. split; [done|]. intros j.
    rewrite decide_False; [done|]. apply not_elem_of_nil. }
  apply NoDup_cons in Hnd as [Hk Hnd]. apply twp_bind.
  apply twp_bind. eapply twp_mono; [apply update_data_ok; [done|apply Hl; by constructor]|].
  intros d s1 (Hs1 & Kn1 & T1 & K1 & N1). refine (twp_Ok _ _ _ () s1 eq_refl _).
  eapply twp_mono; [apply IH; [done|done|]|].
  - intros i Hi. rewrite Kn1. apply Hl. by constructor.
  - intros [] s2 (G2 & T2 & N2). split; [by eapply same_hashes_trans; [split|]|].
    split; [intros j; by rewrite T2|]. intros j. rewrite N2, N1.
    destruct (decide (j = k)) as [->|Hj].
    + rewrite (decide_False (P := k ∈ l)) by done. rewrite (decide_True (P := k ∈ k :: l)); [done|set_solver].
    + destruct (decide (j ∈ l)); [rewrite decide_True|rewrite decide_False]; set_solver.
Qed.

Lemma set_tags_ok t l s :
  gc_ok s → (∀ i, i ∈ l → i ∈ known s) →
  twp (for_each (λ r, set_tag r t) l) s (λ _ s', same_graph s s' ∧
    ∀ j, tag_of s' j = if decide (j ∈ l) then Some t else tag_of s j).
Proof.
  revert s. induction l as [|k l IH]; intros s Hs Hl; cbn [for_each].
  { refine (twp_Ok _ _ _ _ _ eq_refl _). split; [by apply same_graph_refl|]. intros j.
    rewrite decide_False; [done|]. apply not_elem_of_nil. }
  apply twp_bind. eapply twp_mono; [apply (set_tag_marks t); [done|apply Hl; by constructor]|].
  intros [] s1 [G1 T1]. eapply twp_mono; [apply IH; [apply G1|]|].
  - intros i Hi. rewrite (sg_known _ _ G1). apply Hl. by constructor.
  - intros [] s2 [G2 T2]. split; [by eapply same_graph_trans|]. intros j. rewrite T2, T1.
    destruct (decide (j ∈ l)), (decide (j = k)), (decide (j ∈ k :: l)); set_solver.
Qed.

(** The snapshots that are registered, each as the set of its top hashes: a hash is counted
    once for each that has it. *)
Definition count (regs : list (gset Z)) (i : Z) : nat := length (filter (λ R, i ∈ R) regs).

Record counted s (regs : list (gset Z)) : Prop := {
  cnt_ok : gc_ok s;
  cnt_num : ∀ i, num_of s i = Z.of_nat (count regs i);
  cnt_known : ∀ R i, R ∈ regs → i ∈ R → i ∈ known s;
}.

Lemma count_cons R regs i :
  count (R :: regs) i = if decide (i ∈ R) then 1 + count regs i else count regs i.
Proof. unfold count. rewrite filter_cons. by case_decide. Qed.

Lemma count_pos regs i : 0 < count regs i ↔ ∃ R, R ∈ regs ∧ i ∈ R.
Proof.
  unfold count. split.
  - intros Hl. destruct (filter _ regs) as [|R l] eqn:E; [simpl in Hl; lia|].
    assert (R ∈ filter (λ R, i ∈ R) regs) as [? ?]%list_elem_of_filter by (rewrite E; constructor).
    by exists R.
  - intros (R & HR & Hi). assert (R ∈ filter (λ R, i ∈ R) regs) as Hin by (by apply list_elem_of_filter).
    destruct (filter _ regs); [by apply elem_of_nil in Hin|simpl; lia].
Qed.

Lemma count_le regs i : count regs i ≤ length regs.
Proof. apply length_filter. Qed.

Lemma counted_graph s s' regs : same_graph s s' → counted s regs → counted s' regs.
Proof.
  intros G [Hs Hn Hk]. split; [apply G| |].
  - intros i. by rewrite (sg_num _ _ G).
  - intros R i. rewrite (sg_known _ _ G). apply Hk.
Qed.

(** What is reserved when a snapshot is registered. *)
Definition reserved s : gset Z := filter (λ i, marked s Reserved i) (known s).

Lemma register_ok info r s regs :
  counted s regs → r ∈ known s → (Z.of_nat (length regs) < 2 ^ 63 - 1)%Z →
  twp (rc_register_final info r) s (λ _ s', counted s' (({[r]} ∪ reserved s) :: regs) ∧
    same_hashes s s' ∧ ∀ j, tag_of s' j = if decide (j = r) then Some InProgress else tag_of s j).
Proof.
  intros [Hs Hn Hk] Hr Hb. unfold rc_register_final. apply twp_bind.
  eapply twp_mono; [by apply manual_commit_ok|]. intros [] s1 (Hs1 & Kn1 & N1 & K1 & T1).
  apply twp_bind. eapply twp_mono; [apply (set_tag_marks Reserved); [done|by rewrite Kn1]|].
  intros [] s2 [G2 T2]. apply twp_bind. eapply twp_mono; [apply list_ids_ok, G2|].
  intros ids s2' (-> & Hnd & Hids).
  assert (∀ i, i ∈ ids ↔ i ∈ {[r]} ∪ reserved s) as Hids'.
  { intros i. rewrite Hids, T2, T1, elem_of_union, elem_of_singleton. unfold reserved, marked.
    rewrite elem_of_filter. case_decide as Hi; [naive_solver|]. split; [|naive_solver].
    intros E. right. split; [done|]. apply tag_known; [done|by eauto]. }
  assert (∀ i, i ∈ ids → i ∈ known s2) as Hik.
  { intros i [->%elem_of_singleton|[_ ?]%elem_of_filter]%Hids'%elem_of_union;
      by rewrite (sg_known _ _ G2), Kn1. }
  apply twp_bind. eapply twp_mono; [apply (add_all_ok 1); [apply G2|done|done]|].
  intros [] s3 (H3s & T3 & N3).
  eapply twp_mono; [apply (set_tag_marks InProgress); [apply H3s|]|].
  { by rewrite (sh_known _ _ H3s), (sg_known _ _ G2), Kn1. }
  intros [] s4 [G4 T4].
  assert (same_hashes s s4) as H04.
  { eapply same_hashes_trans; [split; [exact Hs1|exact Kn1|exact K1]|].
    eapply same_hashes_trans; [by apply same_graph_hashes|].
    eapply same_hashes_trans; [exact H3s|by apply same_graph_hashes]. }
  split; [|split; [exact H04|]].
  - split; [apply G4| |].
    + intros i. rewrite (sg_num _ _ G4), N3, (sg_num _ _ G2), N1, Hn, count_cons.
      destruct (decide (i ∈ ids)) as [Hi|Hi]; rewrite Hids' in Hi;
        [rewrite decide_True by done|by rewrite decide_False by done].
      pose proof (count_le regs i). rewrite as_i64_id; lia.
    + intros R i [->|HR]%elem_of_cons Hi; rewrite (sh_known _ _ H04); [|by eapply Hk].
      rewrite <- Kn1, <- (sg_known _ _ G2). by apply Hik, Hids'.
  - intros j. rewrite T4, T3, T2, T1. by repeat case_decide.
Qed.

(** The closure that lists the references reads the hashes only. *)
Definition lists_refs (refs : M S (list Z)) s (l : list Z) : Prop :=
  ∀ s1, same_graph s s1 → twp refs s1 (λ l' s2, l' = l ∧ same_graph s1 s2 ∧
    ∀ j, tag_of s2 j = tag_of s1 j).

Lemma deregister_ok info r refs l s R regs regs' :
  counted s regs → r ∈ known s → lists_refs refs s l → (∀ i, i ∈ l ↔ i ∈ R) →
  regs ≡ₚ R :: regs' → (Z.of_nat (length regs) < 2 ^ 63)%Z →
  twp (rc_deregister info r refs) s (λ _ s', counted s' regs' ∧ same_hashes s s' ∧
    tag_of s' r = Some ReadyDelete).
Proof.
  intros [Hs Hn Hk] Hr Hrefs HlR Hp Hb. unfold rc_deregister.
  assert (∀ i, i ∈ l → i ∈ known s) as Hlk.
  { intros i Hi%HlR. eapply Hk; [|exact Hi]. rewrite Hp. by constructor. }
  apply twp_bind. eapply twp_mono; [by apply set_all_tags_ok|].
  intros [] s1 (Hs1 & Kn1 & N1 & K1 & T1). assert (same_graph s s1) as G1 by by split.
  apply twp_bind. eapply twp_mono; [by apply Hrefs|]. intros l' s2 (-> & G2 & T2).
  apply twp_bind. eapply twp_mono; [apply (set_tags_ok Reserved l); [apply G2|]|].
  { intros i Hi. rewrite (sg_known _ _ G2), Kn1. auto. }
  intros [] s3 [G3 T3]. apply twp_bind. eapply twp_mono; [apply manual_commit_ok, G3|].
  intros [] s4 (Hs4 & Kn4 & N4 & K4 & T4). assert (same_graph s3 s4) as G4 by by split.
  assert (same_graph s s4) as G.
  { eapply same_graph_trans; [exact G1|]. eapply same_graph_trans; [exact G2|].
    by eapply same_graph_trans. }
  apply twp_bind. eapply twp_mono; [by apply list_ids_ok|]. intros ids s4' (-> & Hnd & Hids).
  assert (∀ i, i ∈ ids ↔ i ∈ R) as Hids'.
  { intros i. rewrite Hids, T4, T3, <- HlR. case_decide; [done|]. rewrite T2, T1. case_decide; naive_solver. }
  apply twp_bind. eapply twp_mono; [apply (add_all_ok (-1)); [done|done|]|].
  { intros i Hi%Hids'%HlR. rewrite (sg_known _ _ G). auto. }
  intros [] s5 (H5s & T5 & N5).
  eapply twp_mono; [apply (set_tag_marks ReadyDelete); [apply H5s|]|].
  { by rewrite (sh_known _ _ H5s), (sg_known _ _ G). }
  intros [] s6 [G6 T6].
  assert (same_hashes s s6) as H06.
  { eapply same_hashes_trans; [by apply same_graph_hashes|].
    eapply same_hashes_trans; [exact H5s|by apply same_graph_hashes]. }
  assert (∀ i, count regs i = count (R :: regs') i) as Hc.
  { intros i. unfold count. by rewrite Hp. }
  split; [|split; [exact H06|by rewrite T6, decide_True]]. split; [apply G6| |].
  - intros i. rewrite (sg_num _ _ G6), N5, (sg_num _ _ G), Hn, Hc, count_cons.
    assert (count regs' i < length regs) as Hlt.
    { pose proof (count_le regs' i). apply Permutation_length in Hp. simpl in Hp. lia. }
    destruct (decide (i ∈ ids)) as [Hi|Hi]; rewrite Hids' in Hi;
      [rewrite decide_True by done|by rewrite decide_False by done].
    rewrite as_i64_id; lia.
  - intros R' i HR' Hi. rewrite (sh_known _ _ H06). eapply Hk; [|exact Hi]. rewrite Hp. by constructor.
Qed.

Lemma counted_used s regs i :
  counted s regs → used s i ↔ ∃ R r, R ∈ regs ∧ r ∈ R ∧ leads s r i.
Proof.
  intros [Hs Hn Hk]. unfold used. split.
  - intros (r & Hr & Hr0 & Hl). rewrite Hn in Hr0. destruct (proj1 (count_pos regs r)) as (R & ? & ?);
      [lia|]. by exists R, r.
  - intros (R & r & HR & Hr & Hl). exists r. split_and!; [by eapply Hk| |done]. rewrite Hn.
    assert (0 < count regs r) by (apply count_pos; eauto). lia.
Qed.

End Gc.
