(* ===== verification/GcSpec.v ===== *)
(** * What the collector guarantees

    The collector as a state machine: snapshots are registered and deregistered, hashes are
    added by the client and collected when they are unused. The registered snapshots, each the
    set of its top hashes, are recorded beside the backend's state. The unit tests' backend
    keeps the contract the theorems are proved against. *)

From S2P Require Import Prelude Ordered Db Gc GcOk.
Import Ordered.tags GcRc.

Section Steps.
Context {S : Type} `{GcBackendLaws S}.
Implicit Types s : S.

(** The client forgets exactly the hashes [l]. *)
Record forgotten (l : list Z) s s' : Prop := {
  fg_ok : gc_ok s';
  fg_known : ∀ i, i ∈ known s' ↔ i ∈ known s ∧ i ∉ l;
  fg_num : ∀ i, num_of s' i = num_of s i;
  fg_kids : ∀ i, i ∈ known s' → kids_of s' i = kids_of s i;
}.

(** The client adds hashes and tags some. *)
Record grown s s' : Prop := {
  gr_ok : gc_ok s';
  gr_known : known s ⊆ known s';
  gr_num : ∀ i, num_of s' i = num_of s i;
  gr_kids : ∀ i, i ∈ known s → kids_of s' i = kids_of s i;
}.

Inductive gc_step : S * list (gset Z) → S * list (gset Z) → Prop :=
  | gs_client s s' regs :
      grown s s' → gc_step (s, regs) (s', regs)
  | gs_register info r s s' regs :
      r ∈ known s → (Z.of_nat (length regs) < 2 ^ 63 - 1)%Z →
      rc_register_final info r s = (Ok (), s') →
      gc_step (s, regs) (s', ({[r]} ∪ reserved s) :: regs)
  | gs_cleanup info r s s' regs :
      rc_register_cleanup info r s = (Ok (), s') → gc_step (s, regs) (s', regs)
  | gs_deregister info r refs l R s s' regs regs' :
      r ∈ known s → lists_refs refs s l → (∀ i, i ∈ l ↔ i ∈ R) →
      regs ≡ₚ R :: regs' → rc_deregister info r refs s = (Ok (), s') →
      gc_step (s, regs) (s', regs')
  | gs_collect l s s1 s' regs :
      rc_list_unused_ids s = (Ok l, s1) → forgotten l s1 s' → gc_step (s, regs) (s', regs).

Lemma twp_result {A} (m : M S A) s Q a s' : twp m s Q → m s = (Ok a, s') → Q a s'.
Proof. unfold twp. intros Hm E. by rewrite E in Hm. Qed.

Lemma counted_nonneg s regs i : counted s regs → (0 ≤ num_of s i)%Z.
Proof. intros [_ Hn _]. rewrite Hn. lia. Qed.

Lemma register_cleanup_ok info r s :
  gc_ok s → twp (rc_register_cleanup info r) s (λ _ s', same_graph s s' ∧
    ∀ i, i ∈ known s → tag_of s' i = Some Done).
Proof.
  intros Hs. eapply twp_mono; [by apply set_all_tags_ok|]. intros _ s' (? & ? & ? & ? & HT).
  split; [by split|]. intros i Hi. by rewrite HT, decide_True.
Qed.

(** The tree of a hash is kept from [s] to [s']. *)
Definition tree_kept s s' (r : Z) : Prop :=
  r ∈ known s' ∧ ∀ i, leads s r i → kids_of s' i = kids_of s i.

Lemma tree_kept_leads s s' r i : tree_kept s s' r → leads s r i → leads s' r i.
Proof.
  intros [_ HK] Hl. unfold leads in *. induction Hl as [r|r k i Hrk Hl IH]; [done|].
  eapply rtc_l; [|apply IH].
  - unfold child. rewrite HK; [done|apply rtc_refl].
  - intros j Hj. apply HK. by eapply rtc_l.
Qed.

Lemma tree_kept_trans s1 s2 s3 r : tree_kept s1 s2 r → tree_kept s2 s3 r → tree_kept s1 s3 r.
Proof.
  intros K1 [? K2]. split; [done|]. intros i Hi. rewrite K2; [|by eapply tree_kept_leads]. by apply K1.
Qed.

Lemma tree_kept_hashes s s' r : same_hashes s s' → r ∈ known s → tree_kept s s' r.
Proof. intros [_ Hk HK] ?. split; [by rewrite Hk|auto]. Qed.

(** Every step keeps the counters, and the trees of the snapshots that stay registered. *)
Lemma gc_step_kept x y :
  gc_step x y → counted x.1 x.2 → (Z.of_nat (length x.2) < 2 ^ 63)%Z →
  counted y.1 y.2 ∧ (Z.of_nat (length y.2) < 2 ^ 63)%Z ∧
  ∀ R r, R ∈ x.2 → R ∈ y.2 → r ∈ R → tree_kept x.1 y.1 r.
Proof.
  intros Hst Hc Hb. pose proof (cnt_ok _ _ Hc) as Hs.
  assert (∀ R r, R ∈ x.2 → r ∈ R → r ∈ known x.1) as Hk by (intros; by eapply cnt_known).
  destruct Hst as [s s' regs [Gok Gk Gn GK]|info r s s' regs Hr Hlt Hrun|info r s s' regs Hrun
    |info r refs l R s s' regs regs' Hr Hrefs HlR Hp Hrun|l s s1 s' regs Hrun [Fok Fk Fn FK]];
    cbn [fst snd] in *.
  - split_and!; [|done|].
    + split; [done|intros i; rewrite Gn; by apply Hc|]. intros R i HR Hi. by eapply Gk, Hk.
    + intros R r HR _ Hr. split; [by eapply Gk, Hk|]. intros i Hl. by eapply GK, leads_known, Hl; [|eapply Hk].
  - eapply twp_result in Hrun; [|by apply register_ok]. destruct Hrun as (Hc' & Hh & _).
    split_and!; [done|rewrite length_cons; lia|]. intros R q HR _ Hq.
    by eapply tree_kept_hashes, Hk.
  - eapply twp_result in Hrun; [|by apply register_cleanup_ok]. destruct Hrun as [G _].
    split_and!; [by eapply counted_graph|done|]. intros R q HR _ Hq.
    by eapply tree_kept_hashes, Hk; [apply same_graph_hashes|..].
  - eapply twp_result in Hrun; [|by eapply deregister_ok]. destruct Hrun as (Hc' & Hh & _).
    split_and!; [done|apply Permutation_length in Hp; simpl in Hp; lia|]. intros R' q HR _ Hq.
    by eapply tree_kept_hashes, Hk.
  - eapply twp_result in Hrun; [|apply list_unused_ok; [done|intros i _; by eapply counted_nonneg]].
    destruct Hrun as (G & _ & Hl & _).
    assert (∀ R r i, R ∈ regs → r ∈ R → leads s r i → i ∈ known s') as Hkept.
    { intros R r i HR Hr Hri. apply Fk. rewrite (sg_known _ _ G).
      split; [by eapply leads_known, Hri; [|eapply Hk]|]. rewrite Hl. intros [_ []].
      apply (counted_used _ regs); [done|]. by exists R, r. }
    split_and!; [|done|].
    + split; [done|intros i; rewrite Fn, (sg_num _ _ G); by apply Hc|].
      intros R i HR Hi. by eapply Hkept, rtc_refl.
    + intros R r HR _ Hr. split; [by eapply Hkept, rtc_refl|]. intros i Hi.
      rewrite FK by (by eapply Hkept). apply G.
Qed.

Lemma gc_steps_counted x y :
  rtc gc_step x y → counted x.1 x.2 → (Z.of_nat (length x.2) < 2 ^ 63)%Z →
  counted y.1 y.2 ∧ (Z.of_nat (length y.2) < 2 ^ 63)%Z.
Proof.
  induction 1 as [|x z y Hst _ IH]; [done|]. intros Hc Hb.
  destruct (gc_step_kept _ _ Hst Hc Hb) as (? & ? & _). auto.
Qed.

(** C11: From a state without counts, whatever is registered, deregistered, added and collected,
    the collector then ends without a panic and lists each unused hash once: the known hashes to
    which no top hash of a registered snapshot leads. *)
Theorem unused_exactly s0 s regs :
  counted s0 [] → rtc gc_step (s0, []) (s, regs) →
  ∃ l s', rc_list_unused_ids s = (Ok l, s') ∧ same_graph s s' ∧ NoDup l ∧
    ∀ i, i ∈ l ↔ i ∈ known s ∧ ¬ ∃ R r, R ∈ regs ∧ r ∈ R ∧ leads s r i.
Proof.
  intros H0 Hst. destruct (gc_steps_counted _ _ Hst H0) as [Hc Hb]; [done|]. cbn [fst snd] in *.
  destruct (twp_inv _ _ _ (list_unused_ok s (cnt_ok _ _ Hc) (λ i _, counted_nonneg _ _ i Hc)))
    as (l & s' & Hrun & G & Hnd & Hl & _).
  exists l, s'. split_and!; [done..|]. intros i. by rewrite Hl, (counted_used _ _ _ Hc).
Qed.

(** C10: As long as a snapshot stays registered, its hashes stay known, with the children they
    had: no sequence of registrations, deregistrations of others, additions and collections
    loses one. *)
Theorem registered_survives s0 s regs s' regs' R r i :
  counted s0 [] → rtc gc_step (s0, []) (s, regs) → R ∈ regs → r ∈ R → leads s r i →
  rtc (λ x y, gc_step x y ∧ R ∈ y.2) (s, regs) (s', regs') →
  i ∈ known s' ∧ leads s' r i ∧ kids_of s' i = kids_of s i.
Proof.
  intros H0 Hst HR Hr Hl Hst'. destruct (gc_steps_counted _ _ Hst H0) as [Hc Hb]; [done|].
  cbn [fst snd] in *. assert (counted s' regs' ∧ tree_kept s s' r) as [Hc' HK].
  { clear i Hl Hst H0 s0. remember (s, regs) as x eqn:Ex. remember (s', regs') as y eqn:Ey.
    revert s regs Ex HR Hc Hb. induction Hst' as [x|x [s2 regs2] y [Hst HR2] Hst' IH];
      intros s regs -> HR Hc Hb.
    - simplify_eq. split; [done|]. split; [by eapply cnt_known|done].
    - destruct (gc_step_kept _ _ Hst Hc Hb) as (Hc2 & Hb2 & HK).
      destruct (IH Ey s2 regs2) as [Hc' HK']; [done..|]. split; [done|].
      eapply tree_kept_trans, HK'. by eapply HK. }
  assert (leads s' r i) as Hl' by by eapply tree_kept_leads.
  split_and!; [|done|by apply HK]. eapply leads_known, Hl'; [apply Hc'|apply HK].
Qed.

(** The status that tells a restarted commit or deletion how far it got: a registered
    snapshot is in progress, a deregistered one complete, and after the cleanup there is none.
    Each of the three ends without an error, and the counters count the snapshot, or no longer
    do. *)
Theorem status_protocol info r s regs :
  counted s regs → r ∈ known s → (Z.of_nat (length regs) < 2 ^ 63 - 1)%Z →
  twp (rc_register_final info r ;; rc_status r) s (λ st s1,
    st = Some GcInProgress ∧ counted s1 (({[r]} ∪ reserved s) :: regs)) ∧
  twp (rc_register_cleanup info r ;; rc_status r) s (λ st s1, st = None ∧ counted s1 regs) ∧
  ∀ refs l R regs', lists_refs refs s l → (∀ i, i ∈ l ↔ i ∈ R) → regs ≡ₚ R :: regs' →
    twp (rc_deregister info r refs ;; rc_status r) s (λ st s1,
      st = Some GcComplete ∧ counted s1 regs').
Proof.
  intros Hc Hr Hb. pose proof (cnt_ok _ _ Hc) as Hs.
  assert (∀ s1 t, gc_ok s1 → r ∈ known s1 → tag_of s1 r = Some t →
    twp (rc_status r) s1 (λ st s2, s2 = s1 ∧ st = match t with
      | Complete | ReadyDelete => Some GcComplete | InProgress => Some GcInProgress | _ => None end))
    as Hst.
  { intros s1 t Hs1 Hr1 Ht. apply twp_bind. eapply twp_mono; [by apply get_tag_ok|].
    intros o s2 [-> ->]. refine (twp_Ok _ _ _ _ _ eq_refl _). by rewrite Ht. }
  split_and!.
  - apply twp_bind. eapply twp_mono; [by apply register_ok|]. intros [] s1 (Hc1 & Hh & HT).
    eapply twp_mono; [eapply Hst; [apply Hc1|by rewrite (sh_known _ _ Hh)|by rewrite HT, decide_True]|].
    by intros st s2 [-> ->].
  - apply twp_bind. eapply twp_mono; [by apply register_cleanup_ok|]. intros [] s1 [G HT].
    eapply twp_mono; [eapply Hst; [apply G|by rewrite (sg_known _ _ G)|by apply HT]|].
    intros st s2 [-> ->]. split; [done|]. by eapply counted_graph.
  - intros refs l R regs' Hrefs HlR Hp. apply twp_bind.
    eapply twp_mono; [eapply deregister_ok; try done; lia|]. intros [] s1 (Hc1 & Hh & HT).
    eapply twp_mono; [eapply Hst; [apply Hc1|by rewrite (sh_known _ _ Hh)|done]|].
    by intros st s2 [-> ->].
Qed.

(** A collection leaves its marks: everything that is used stays tagged as reserved. *)
Lemma collect_marks s regs l s1 s2 :
  counted s regs → rc_list_unused_ids s = (Ok l, s1) → forgotten l s1 s2 →
  (∀ i, i ∈ known s2 → tag_of s2 i = tag_of s1 i) →
  counted s2 regs ∧ ∀ i, used s i → i ∈ reserved s2.
Proof.
  intros Hc Hrun Hf Htag. assert (gc_step (s, regs) (s2, regs)) as Hst by by eapply gs_collect.
  eapply twp_result in Hrun; [|apply list_unused_ok; [apply Hc|intros i _; by eapply counted_nonneg]].
  destruct Hrun as (G & _ & Hl & _ & Hm). destruct Hf as [Fok Fk Fn FK].
  assert (∀ i, used s i → i ∈ known s2) as Hk.
  { intros i Hi. apply Fk. rewrite (sg_known _ _ G), Hl. split; [|naive_solver].
    destruct Hi as (q & Hq & _ & Hqi). by eapply leads_known; [apply Hc| |exact Hqi]. }
  split.
  - split; [done|intros i; rewrite Fn, (sg_num _ _ G); by apply Hc|].
    intros R i HR Hi. apply Hk. apply (counted_used _ regs); [done|]. exists R, i.
    split_and!; [done..|constructor].
  - intros i Hi. unfold reserved. rewrite elem_of_filter. split; [|by apply Hk].
    unfold marked. rewrite Htag by by apply Hk. by apply Hm.
Qed.

Lemma lists_ret s l : lists_refs (mret l) s l.
Proof.
  intros s1 [Hs1 _ _ _]. refine (twp_Ok _ _ _ _ _ eq_refl _). split; [done|]. by split.
Qed.

(** A counter does not tell a snapshot from two that share its hashes. *)
Lemma counted_split s A own regs :
  own ⊆ A → counted s (A :: regs) → counted s (own :: A ∖ own :: regs).
Proof.
  intros Hsub [Hs Hn Hk]. split; [done| |].
  - intros i. rewrite Hn, !count_cons. do 3 case_decide; set_solver.
  - intros R i. rewrite !elem_of_cons. intros [->|[->|HR]] Hi; [| |by eapply Hk; [right|]].
    all: eapply Hk; [by left|set_solver].
Qed.

(** C27: A collection leaves the tag [Reserved] on every hash that is used, and the next
    registration takes each for a top hash of its snapshot. After a collection, a registration
    and the deregistration of that same snapshot with its own top hashes, the counters count a
    set [P] that no snapshot has, and in it is everything that was used before the collection
    (but for the snapshot's own): deregistering the other snapshots does not free it. *)
Theorem collection_then_commit_leaks s regs l s1 s2 s3 info r refs own s4 s5 :
  counted s regs → (Z.of_nat (length regs) < 2 ^ 63 - 2)%Z →
  rc_list_unused_ids s = (Ok l, s1) → forgotten l s1 s2 →
  (∀ i, i ∈ known s2 → tag_of s2 i = tag_of s1 i) →
  grown s2 s3 → (∀ i, marked s2 Reserved i → marked s3 Reserved i) →
  r ∈ known s3 → rc_register_final info r s3 = (Ok (), s4) →
  list_to_set own ⊆ {[r]} ∪ reserved s3 → lists_refs refs s4 own →
  rc_deregister info r refs s4 = (Ok (), s5) →
  ∃ P, counted s5 (P :: regs) ∧ ∀ i, used s i → i ∉ own → i ∈ P.
Proof.
  intros Hc Hb Hlist Hf Htag Hg Hmark Hr Hreg Hown Hrefs Hde.
  destruct (collect_marks _ _ _ _ _ Hc Hlist Hf Htag) as [Hc2 Hused].
  destruct (gc_step_kept (s2, regs) (s3, regs) ltac:(by constructor) Hc2 ltac:(simpl; lia)) as (Hc3 & _).
  cbn [fst snd] in Hc3.
  eapply twp_result in Hreg; [|apply register_ok; [done..|lia]]. destruct Hreg as (Hc4 & Hh4 & _).
  apply (counted_split _ _ (list_to_set own)) in Hc4; [|done].
  eapply twp_result in Hde; [|eapply (deregister_ok info r refs own s4 (list_to_set own)); [done| |done| |done|]].
  - destruct Hde as (Hc5 & _). eexists. split; [exact Hc5|]. intros i Hi Hni.
    apply elem_of_difference. rewrite elem_of_list_to_set. split; [|done]. apply elem_of_union_r.
    apply Hused in Hi. unfold reserved in *. rewrite elem_of_filter in Hi |- *.
    destruct Hi as [Hm Hk]. split; [by apply Hmark|]. by apply Hg.
  - by rewrite (sh_known _ _ Hh4).
  - intros i. by rewrite elem_of_list_to_set.
  - rewrite !length_cons. lia.
Qed.

End Steps.

(** ** The unit tests' backend keeps the contract *)

Section MemoryLaws.
Import GcMemory.
Implicit Types b : MemoryBackend.

Definition mem_known b : gset Z := list_to_set (concat (map_to_list (snapshot_refs b)).*2).

(** Tags and children stay inside the snapshots' hashes. *)
Definition mem_ok b : Prop :=
  map_Forall (λ i (_ : Tag), i ∈ mem_known b) (tags b) ∧
  map_Forall (λ _ l, Forall (.∈ mem_known b) l) (parents b).

#[global] Instance mem_ok_dec b : Decision (mem_ok b).
Proof. unfold mem_ok. apply _. Defined.

Definition mem_num b (i : Z) : Z := g_num (default no_data (gc_data b !! (i, DATA_FAMILY))).
Definition mem_kids b (i : Z) : list Z := default [] (parents b !! i).

Lemma mem_kids_known b i j : mem_ok b → j ∈ mem_kids b i → j ∈ mem_known b.
Proof.
  intros [_ Hp] Hj. unfold mem_kids in Hj. destruct (parents b !! i) as [l|] eqn:E.
  - eapply map_Forall_lookup_1 in E; [|exact Hp]. rewrite Forall_forall in E. auto.
  - by apply elem_of_nil in Hj.
Qed.

(** Only the tags differ, by those of [l]. *)
Lemma mem_tag_all t l b : mem_ok b → (∀ i, i ∈ l → i ∈ mem_known b) →
  twp (for_each (λ r, modify (λ b, set_tags (<[r := t]> (tags b)) b)) l) b (λ _ b',
    mem_ok b' ∧ mem_known b' = mem_known b ∧
    (∀ j, mem_num b' j = mem_num b j) ∧ (∀ j, mem_kids b' j = mem_kids b j) ∧
    ∀ j, tags b' !! j = if decide (j ∈ l) then Some t else tags b !! j).
Proof.
  revert b. induction l as [|k l IH]; intros b [Ht Hp] Hl; cbn [for_each].
  { refine (twp_Ok _ _ _ _ _ eq_refl _). split_and!; try done. }
  apply twp_bind. refine (twp_Ok _ _ _ () _ eq_refl _).
  eapply twp_mono; [apply IH|].
  - split; [|done]. apply map_Forall_insert_2; [|done]. apply Hl. by constructor.
  - intros i Hi. apply Hl. by constructor.
  - intros [] b' (Hok & Hk & Hn & HK & HT). split_and!; try done. intros j. rewrite HT.
    cbn [tags set_tags]. destruct (decide (j = k)) as [->|Hj].
    + rewrite lookup_insert_eq. rewrite (decide_True (P := k ∈ k :: l)) by constructor.
      by case_decide.
    + rewrite lookup_insert_ne by done. destruct (decide (j ∈ l)), (decide (j ∈ k :: l)); set_solver.
Qed.

#[global, refine] Instance memory_laws : GcBackendLaws MemoryBackend := {|
  gc_ok := mem_ok; known := mem_known; tag_of b i := tags b !! i;
  num_of := mem_num; kids_of := mem_kids;
|}.
Proof.
  - intros b i [Ht _] [t E]. by eapply map_Forall_lookup_1 in E; [|exact Ht].
  - intros b i j Hb _. by apply mem_kids_known.
  - intros b i Hb Hi. by refine (twp_Ok _ _ _ _ _ eq_refl _).
  - intros b i n [Ht Hp] Hi. refine (twp_Ok _ _ _ _ _ eq_refl _). split_and!; try done.
    intros j. unfold mem_num. cbn [gc_data set_gc_data]. case_decide as Hj.
    + subst. by rewrite lookup_insert_eq.
    + by rewrite lookup_insert_ne by congruence.
  - intros b i t Hb Hi. destruct (twp_inv _ _ _ (mem_tag_all t [i] b Hb ltac:(set_solver)))
      as (u & b' & [= <- <-] & ? & ? & ? & ? & HT).
    refine (twp_Ok _ _ _ _ _ eq_refl _). split_and!; try done. intros j. rewrite HT.
    destruct (decide (j = i)), (decide (j ∈ [i])); set_solver.
  - intros b i Hb Hi. by refine (twp_Ok _ _ _ _ _ eq_refl _).
  - intros b t Hb. cbn [set_all_tags memory_backend]. unfold mem_set_all_tags. apply twp_bind.
    refine (twp_Ok _ _ _ _ _ eq_refl _).
    eapply twp_mono; [apply (mem_tag_all t); [done|]|].
    + intros i Hi. unfold mem_known. by apply elem_of_list_to_set.
    + intros u b' (? & ? & ? & ? & HT). split_and!; try done. intros j. rewrite HT.
      unfold mem_known at 1. destruct Hb as [Ht _].
      assert (is_Some (tags b !! j) → j ∈ mem_known b) as Hj.
      { intros [q E]. by eapply map_Forall_lookup_1 in E; [|exact Ht]. }
      unfold mem_known in Hj. rewrite elem_of_list_to_set in Hj.
      destruct (decide (j ∈ _)) as [Hin|Hin], (decide (j ∈ list_to_set _)) as [Hin'|Hin'];
        rewrite elem_of_list_to_set in Hin'; try done.
      destruct (tags b !! j) eqn:E; [|done]. exfalso. eauto.
  - intros b i Hb Hi. by refine (twp_Ok _ _ _ _ _ eq_refl _).
  - intros b t Hb. refine (twp_Ok _ _ _ _ _ eq_refl _). split_and!; [done|..].
    + apply (NoDup_fmap_fst _).
      * intros i x y [Hx ?]%list_elem_of_filter [Hy ?]%list_elem_of_filter. naive_solver.
      * apply NoDup_filter, NoDup_map_to_list.
    + intros i. rewrite list_elem_of_fmap. split.
      * intros ([j q] & -> & [Hq Hin]%list_elem_of_filter). apply elem_of_map_to_list in Hin. naive_solver.
      * intros E. exists (i, t). split; [done|]. apply list_elem_of_filter. split; [done|].
        by apply elem_of_map_to_list.
  - intros b Hb. by refine (twp_Ok _ _ _ _ _ eq_refl _).
Defined.

End MemoryLaws.

(** ** A run: two hashes below a third that is registered, and one that is not *)

Module GcRun.
Import GcMemory.

Definition info : SnapshotInfo := mkSnapshotInfo 1 1 1.

(** The client has tagged the hashes below [3]. *)
Definition start : MemoryBackend :=
  mkMemory ∅ (<[1%Z := Reserved]> (<[2%Z := Reserved]> ∅)) (<[3%Z := [1%Z; 2%Z]]> ∅)
    (<[1%Z := [1%Z; 2%Z; 3%Z]]> (<[2%Z := [4%Z]]> ∅)) None.

Definition registered : MemoryBackend := (rc_register_final info 3%Z start).2.
Definition listed : MemoryBackend := (rc_list_unused_ids registered).2.
Definition collected : MemoryBackend :=
  mkMemory (gc_data listed) (base.delete 4%Z (tags listed)) (parents listed)
    (base.delete 2%Z (snapshot_refs listed)) (commit listed).
Definition top : gset Z := {[3%Z]} ∪ reserved start.

Lemma start_counted : counted start [].
Proof. split; [by apply (bool_decide_unpack (mem_ok start)); vm_compute|done|]. intros R i []%elem_of_nil. Qed.

Lemma known_start i : i ∈ ({[1; 2; 3; 4]} : gset Z)%Z → i ∈ known start.
Proof. assert (known start = {[1; 2; 3; 4]}%Z) as -> by by apply (bool_decide_unpack _); vm_compute. done. Qed.

Lemma step_register : gc_step (start, []) (registered, [top]).
Proof.
  apply (gs_register info 3%Z); [apply known_start; set_solver|simpl; lia|].
  unfold registered. destruct (rc_register_final info 3%Z start) as [r b] eqn:E.
  assert (r = Ok ()) as ->; [|done]. change r with (r, b).1. rewrite <- E. by vm_compute.
Qed.

Lemma listed_run : rc_list_unused_ids registered = (Ok [4%Z], listed).
Proof.
  unfold listed. destruct (rc_list_unused_ids registered) as [r b] eqn:E.
  assert (r = Ok [4%Z]) as ->; [|done]. change r with (r, b).1. rewrite <- E. by vm_compute.
Qed.

Lemma collected_forgotten : forgotten [4%Z] listed collected.
Proof.
  split; [|intros i|done|done].
  - by apply (bool_decide_unpack (mem_ok collected)); vm_compute.
  - assert (known collected = known listed ∖ {[4%Z]}) as ->
      by by apply (bool_decide_unpack _); vm_compute.
    set_solver.
Qed.

Lemma step_collect : gc_step (registered, [top]) (collected, [top]).
Proof. apply (gs_collect [4%Z] _ listed); [apply listed_run|apply collected_forgotten]. Qed.

Lemma leads_3_1 : leads registered 3%Z 1%Z.
Proof. apply rtc_once. unfold child. by apply (bool_decide_unpack _); vm_compute. Qed.

(** [4] is unused. *)
Lemma unused_exactly_witness :
  counted start [] ∧ rtc gc_step (start, []) (registered, [top]) ∧
  ∃ l s', rc_list_unused_ids registered = (Ok l, s') ∧ same_graph registered s' ∧ NoDup l ∧
    ∀ i, i ∈ l ↔ i ∈ known registered ∧ ¬ ∃ R r, R ∈ [top] ∧ r ∈ R ∧ leads registered r i.
Proof.
  split; [apply start_counted|]. split; [apply rtc_once, step_register|].
  apply (unused_exactly start); [apply start_counted|apply rtc_once, step_register].
Defined.

(** The collection keeps [1]. *)
Lemma registered_survives_witness :
  rtc gc_step (start, []) (registered, [top]) ∧ 1%Z ∈ known collected ∧
  leads collected 3%Z 1%Z ∧ kids_of collected 1%Z = kids_of registered 1%Z.
Proof.
  split; [apply rtc_once, step_register|].
  apply (registered_survives start registered [top] collected [top] top 3%Z 1%Z).
  - apply start_counted.
  - apply rtc_once, step_register.
  - by constructor.
  - unfold top. set_solver.
  - apply leads_3_1.
  - apply rtc_once. split; [apply step_collect|by constructor].
Defined.

Lemma status_protocol_witness :
  counted start [] ∧ 3%Z ∈ known start ∧
  twp (rc_register_final info 3%Z ;; rc_status 3%Z) start (λ st s1,
    st = Some GcInProgress ∧ counted s1 [{[3%Z]} ∪ reserved start]).
Proof.
  assert (3%Z ∈ known start) as H3 by (apply known_start; set_solver).
  split; [apply start_counted|]. split; [done|].
  apply (status_protocol info 3%Z start []); [apply start_counted|done|simpl; lia].
Defined.

(** A second snapshot is added, registered and deregistered again. *)
Definition extended : MemoryBackend :=
  mkMemory (gc_data collected) (tags collected) (parents collected)
    (<[3%Z := [5%Z]]> (snapshot_refs collected)) (commit collected).
Definition info5 : SnapshotInfo := mkSnapshotInfo 3 1 3.
Definition registered5 : MemoryBackend := (rc_register_final info5 5%Z extended).2.
Definition deregistered5 : MemoryBackend := (rc_deregister info5 5%Z (mret [5%Z]) registered5).2.

Lemma unit_run {S} (m : M S unit) s : ok_run (m s) = true → m s = (Ok (), (m s).2).
Proof. intros (u & s' & E)%ok_run_split. rewrite E. by destruct u. Qed.

Lemma registered_counted : counted registered [top].
Proof.
  destruct (gc_step_kept _ _ step_register start_counted) as (Hc & _); [simpl; lia|exact Hc].
Qed.

Lemma known_extended : known extended = known collected ∪ {[5%Z]}.
Proof. by apply (bool_decide_unpack _); vm_compute. Qed.

Lemma sole_top (i : Z) (X : gset Z) : list_to_set [i] ⊆ {[i]} ∪ X.
Proof. set_solver. Qed.

Lemma collected_tags i : i ∈ known collected → tag_of collected i = tag_of listed i.
Proof.
  intros Hi. apply (fg_known _ _ _ collected_forgotten) in Hi as [_ Hi].
  apply lookup_delete_ne. set_solver.
Qed.

Lemma extended_grown : grown collected extended.
Proof.
  split; [|by rewrite known_extended; apply union_subseteq_l|done|done].
  by apply (bool_decide_unpack (mem_ok extended)); vm_compute.
Qed.

(** The hashes [1], [2] and [3] are counted for the second snapshot, too, and stay counted
    when it is gone. *)
Lemma collection_then_commit_leaks_witness :
  rc_list_unused_ids registered = (Ok [4%Z], listed) ∧
  rc_register_final info5 5%Z extended = (Ok (), registered5) ∧
  rc_deregister info5 5%Z (mret [5%Z]) registered5 = (Ok (), deregistered5) ∧
  ∃ P, counted deregistered5 [P; top] ∧ ∀ i, used registered i → i ∉ [5%Z] → i ∈ P.
Proof.
  assert (rc_register_final info5 5%Z extended = (Ok (), registered5)) as Hreg.
  { apply unit_run. by vm_compute. }
  assert (rc_deregister info5 5%Z (mret [5%Z]) registered5 = (Ok (), deregistered5)) as Hde.
  { apply unit_run. by vm_compute. }
  split; [exact listed_run|]. split; [exact Hreg|]. split; [exact Hde|].
  refine (collection_then_commit_leaks registered [top] [4%Z] listed collected extended
    info5 5%Z (mret [5%Z]) [5%Z] registered5 deregistered5 registered_counted _ listed_run
    collected_forgotten collected_tags extended_grown _ _ Hreg _ _ Hde).
  - simpl. lia.
  - done.
  - rewrite known_extended. by apply elem_of_union_r, elem_of_singleton.
  - apply sole_top.
  - apply lists_ret.
Defined.

End GcRun.
