(* ===== verification/HatGc.v ===== *)
(** * The collector on the hash index: [GcBackend] of hat/mod.rs

    The repository's collector works on the hash index: tags and counters are columns of the
    database, and the hashes a hash names are its children. The contract of [GcOk] holds of it
    while nothing waits in the queue. *)

From S2P Require Import Prelude Cbor Refs Ordered Upq Timer Db Crypto HashIndex IndexSpec.
From S2P Require Import Gc GcOk.
From S2P Require Models.
Import Ordered.tags (Tag, num, tag_from_num).
Import UniquePriorityQueue (priority).

Section HatGc.
Context `{Cbor Models.ChunkRef} `{Cbor Models.HashIds} `{Cbor Models.HashRef}.

Definition hat_reverse_refs (hash_id : Z) : HI (list Z) :=
  entry ← get_hash hash_id;
  match entry with
  | None => panic
  | Some entry => mret (default [] (e_childs entry))
  end.

#[global] Instance hat_gc_backend : GcBackend HashIndex := {|
  get_data := read_gc_data;
  update_data := update_gc_data;
  update_all_data_by_family := update_family_gc_data;
  Gc.set_tag := HashIndex.set_tag;
  Gc.get_tag := HashIndex.get_tag;
  Gc.set_all_tags := HashIndex.set_all_tags;
  reverse_refs := hat_reverse_refs;
  list_ids_by_tag tag := get_ids_by_tag (num tag);
  Gc.manual_commit := HashIndex.manual_commit;
|}.

End HatGc.

Section laws.
Context `{CborLaws Models.ChunkRef} `{CborLaws Models.HashIds} `{CborLaws Models.HashRef}.
Implicit Types s : HashIndex.

Abbreviation rows s := (schema.hashes (cur (index s))).

(** What [get_hash] and [list] read of a row. *)
Definition row_decodes (t : schema.Tables) (h : schema.Hash) : Prop :=
  (∃ leaf, chunk.LeafType_from_u64 (as_u64 (schema.leaf_type h)) = Ok leaf) ∧
  schema.childs h ≠ Some [] ∧ (∃ cs, childs_of_row h = Ok cs) ∧
  ∃ pref, decode_chunk_ref (schema.blob_ref h) (joined_blob t h) = Ok pref.

Record hat_gc_ok s : Prop := {
  hg_ok : HashIndex_ok s;
  hg_idle : priority (queue s) = ∅;
  hg_rows : ∀ i h, rows s !! i = Some h → row_decodes (cur (index s)) h;
}.

Definition hat_known s : gset Z := dom (rows s).
Definition hat_tag s (i : Z) : option Tag := rows s !! i ≫= λ h, tag_from_num (schema.tag h).
Definition hat_num s (i : Z) : Z :=
  from_option schema.gc_int 0%Z (schema.gc_metadata (cur (index s)) !! (i, GcRc.DATA_FAMILY)).
Definition row_kids (h : schema.Hash) : list Z :=
  match childs_of_row h with Ok (Some cs) => cs | _ => [] end.
Definition hat_kids s (i : Z) : list Z := from_option row_kids [] (rows s !! i).

Lemma hat_id s i : hat_gc_ok s → i ∈ hat_known s → ∃ h, rows s !! i = Some h ∧ (0 < i < 2 ^ 63)%Z.
Proof.
  intros Hs Hi. unfold hat_known in Hi. apply elem_of_dom in Hi as [h Hh]. exists h. split; [done|].
  pose proof (index_counter _ (hi_index _ (hg_ok _ Hs)) _ _ Hh).
  pose proof (hi_counter _ (hg_ok _ Hs)). lia.
Qed.

Lemma hat_ready s i h : hat_gc_ok s → rows s !! i = Some h → schema.ready h = true.
Proof.
  intros Hs Hh. destruct (schema.ready h) eqn:E; [done|].
  destruct (not_ready_queued _ _ (hi_rows _ (hg_ok _ Hs)) _ _ Hh E) as [x Hx].
  by rewrite (hg_idle _ Hs), lookup_empty in Hx.
Qed.

(** Rows may change their tags. *)
Lemma hat_update_tags p t s :
  hat_gc_ok s →
  let x := lset cur_lens (lset hashes_lens (update p (Db.set_tag t) (rows s)) (cur (index s))) (index s) in
  hat_gc_ok (mkHashIndex (queue s) x) ∧ hat_known (mkHashIndex (queue s) x) = hat_known s ∧
  ∀ j, hat_kids (mkHashIndex (queue s) x) j = hat_kids s j.
Proof.
  intros [Hok Hq Hr] x. split_and!.
  - split; [|done|].
    + apply HashIndex_ok_same_view; try done.
      * by apply Index_ok_hashes_update; [apply Hok|].
      * by apply same_view_update.
    + intros i h Hi. change (rows (mkHashIndex (queue s) x)) with (update p (Db.set_tag t) (rows s)) in Hi.
      rewrite lookup_update, fmap_Some in Hi. destruct Hi as (h0 & Hh0 & ->).
      pose proof (Hr _ _ Hh0) as Hd. unfold row_decodes, childs_of_row, joined_blob in *.
      by destruct (p i h0).
  - apply set_eq. intros i. unfold hat_known. rewrite !elem_of_dom.
    change (rows (mkHashIndex (queue s) x)) with (update p (Db.set_tag t) (rows s)).
    rewrite lookup_update. apply fmap_is_Some.
  - intros j. unfold hat_kids. change (rows (mkHashIndex (queue s) x)) with (update p (Db.set_tag t) (rows s)).
    rewrite lookup_update. destruct (rows s !! j) as [h|]; [|done]. simpl. by destruct (p j h).
Qed.

Lemma hat_tag_update p t s j :
  hat_tag (mkHashIndex (queue s) (lset cur_lens (lset hashes_lens
    (update p (Db.set_tag (num t)) (rows s)) (cur (index s))) (index s))) j =
  rows s !! j ≫= λ h, if p j h then Some t else tag_from_num (schema.tag h).
Proof.
  unfold hat_tag. cbn [index cur lset cur_lens hashes_lens schema.hashes]. rewrite lookup_update.
  destruct (rows s !! j) as [h|]; [|done]. simpl. destruct (p j h); [|done].
  apply tags.tag_from_num_num.
Qed.

(** Changing the collector's table alone. *)
Lemma hat_gc_table t s :
  hat_gc_ok s → hat_gc_ok (mkHashIndex (queue s) (lset cur_lens (lset gc_lens t (cur (index s))) (index s))).
Proof.
  intros [Hok Hq Hr]. split; [|done|done].
  apply HashIndex_ok_same_view; try done. by apply Index_ok_gc, Hok.
Qed.

Lemma update_gc_ok h f u x : ∃ d x', hash_update_gc_data h f u x = (Ok d, x').
Proof.
  unfold hash_update_gc_data. rewrite (bind_Ok _ _ _ _ _ (read_gc_run h f x)).
  destruct (u (gc_at x h f)) as [new|]; [|by eexists _, _].
  unfold hash_set_gc_data. cbv zeta. set (k := (as_i64 h, as_i64 f)).
  rewrite bind_assoc, (bind_Ok _ _ _ (schema.gc_metadata (cur x) !! k) x) by (by destruct x as [[]]).
  destruct (schema.gc_metadata (cur x) !! k) as [row|] eqn:E; [by eexists _, _|].
  unfold on_gc. erewrite bind_zoom; [by eexists _, _|]. by apply zoom_Ok, insert_into_Ok.
Qed.

Lemma hat_get_hash s i h : hat_gc_ok s → (0 < i < 2 ^ 63)%Z → rows s !! i = Some h →
  ∃ e, get_hash i s = (Ok (Some e), s) ∧ default [] (e_childs e) = row_kids h.
Proof.
  intros Hs Hi Hh. destruct (hg_rows _ Hs _ _ Hh) as ([leaf El] & _ & [cs Ec] & [pref Ep]).
  unfold get_hash, zoom, hash_locate_by_id, gets, lift, mbind, M_bind.
  cbn [lget index_lens]. rewrite as_i64_id, Hh by lia.
  cbn [mbind res_bind]. rewrite El. cbn [mbind res_bind]. rewrite Ec. cbn [mbind res_bind].
  rewrite Ep. cbn [mbind res_bind].
  eexists. split; [by destruct s|]. cbn [e_childs]. unfold row_kids. rewrite Ec. by destruct cs.
Qed.

Lemma hat_reverse_refs_ok s i h : hat_gc_ok s → (0 < i < 2 ^ 63)%Z → rows s !! i = Some h →
  hat_reverse_refs i s = (Ok (row_kids h), s).
Proof.
  intros Hs Hi Hh. destruct (hat_get_hash _ _ _ Hs Hi Hh) as (e & E & Ek).
  unfold hat_reverse_refs. rewrite (bind_Ok _ _ _ _ _ E). by rewrite <- Ek.
Qed.

Lemma as_i64_num t : as_i64 (num t) = num t.
Proof. by destruct t. Qed.

Lemma select_NoDup {K R} `{Countable K} p (t : gmap K R) : NoDup (select p t).*1.
Proof.
  apply (NoDup_fmap_fst _).
  - intros k x y [Hx _]%elem_of_select [Hy _]%elem_of_select. congruence.
  - apply NoDup_filter, NoDup_map_to_list.
Qed.

Lemma hat_list_ids s t : hat_gc_ok s →
  ∃ l, get_ids_by_tag (num t) s = (Ok l, s) ∧ NoDup l ∧ ∀ i, i ∈ l ↔ hat_tag s i = Some t.
Proof.
  intros Hs. set (sel := select (λ _ h, bool_decide (schema.tag h = as_i64 (num t))) (rows s)).
  exists ((λ r : Z * schema.Hash, as_u64 r.1) <$> order_desc (λ r, schema.height r.2) sel). split.
  { unfold sel. destruct s as [q [[]]]. reflexivity. }
  assert ((λ r : Z * schema.Hash, as_u64 r.1) <$> order_desc (λ r, schema.height r.2) sel
    ≡ₚ sel.*1) as Hp.
  { unfold order_desc. rewrite merge_sort_Permutation.
    apply reflexive_eq, list_fmap_ext. intros k [i h] Hk. apply list_elem_of_lookup_2, elem_of_select in Hk as [Hi _].
    simpl. destruct (hat_id s i Hs) as (? & ? & ?); [by apply elem_of_dom_2 in Hi|].
    rewrite as_u64_id; lia. }
  split; [rewrite Hp; apply select_NoDup|].
  intros i. rewrite Hp, list_elem_of_fmap. unfold hat_tag. split.
  - intros ([j h] & -> & [Hj Ht%bool_decide_eq_true]%elem_of_select). simpl. rewrite as_i64_num in Ht.
    change (rows s !! j = Some h) in Hj. rewrite Hj. simpl. rewrite Ht. apply tags.tag_from_num_num.
  - intros Ht. destruct (rows s !! i) as [h|] eqn:Hh; [|done]. simpl in Ht.
    exists (i, h). split; [done|]. apply elem_of_select. split; [done|].
    apply bool_decide_eq_true. rewrite as_i64_num. symmetry. by apply tags.num_tag_from_num.
Qed.

Lemma hat_kids_known s i j :
  hat_gc_ok s → i ∈ hat_known s → j ∈ hat_kids s i → j ∈ hat_known s.
Proof.
  intros Hs Hi Hj. destruct (hat_id _ _ Hs Hi) as (h & Hh & _). unfold hat_kids in Hj.
  rewrite Hh in Hj. cbn in Hj. unfold row_kids in Hj.
  destruct (childs_of_row h) as [[cs|]| | |] eqn:Ec; try by apply elem_of_nil in Hj.
  pose proof (rows_closed _ _ (hi_rows _ (hg_ok _ Hs)) i h cs Hh (hat_ready _ _ _ Hs Hh) Ec) as Hc.
  rewrite Forall_forall in Hc. destruct (Hc j Hj) as (h' & Hh' & _). by eapply elem_of_dom_2.
Qed.

(** The number of a hash is in its row of the collector's table. *)
Lemma num_gc_at s i :
  (0 < i < 2 ^ 63)%Z → g_num (gc_at (index s) i GcRc.DATA_FAMILY) = hat_num s i.
Proof.
  intros Hi. unfold gc_at, hat_num. rewrite as_i64_id by lia.
  change (as_i64 GcRc.DATA_FAMILY) with GcRc.DATA_FAMILY. by destruct (schema.gc_metadata _ !! _).
Qed.

Lemma hat_update_data s i n : hat_gc_ok s → i ∈ hat_known s →
  twp (update_gc_data i GcRc.DATA_FAMILY (GcRc.add_num n)) s (λ _ s',
    hat_gc_ok s' ∧ hat_known s' = hat_known s ∧ (∀ j, hat_tag s' j = hat_tag s j) ∧
    (∀ j, hat_kids s' j = hat_kids s j) ∧
    ∀ j, hat_num s' j = if decide (j = i) then as_i64 (hat_num s i + n) else hat_num s j).
Proof.
  intros Hs Hi. destruct (hat_id _ _ Hs Hi) as (h & Hh & Hi').
  destruct (update_gc_ok i GcRc.DATA_FAMILY (GcRc.add_num n) (index s)) as (d & x' & E).
  refine (twp_Ok _ _ _ d (mkHashIndex (queue s) x') _ _).
  { unfold update_gc_data, zoom. cbn. by rewrite E. }
  destruct (update_gc_table _ _ _ _ _ _ E) as (t & -> & _ & Ht & Hne).
  split_and!; [by apply hat_gc_table|done..|]. intros j.
  rewrite <- (num_gc_at s i) by done. unfold hat_num.
  cbn [index cur lset cur_lens gc_lens schema.gc_metadata].
  rewrite as_i64_id in Ht, Hne by lia.
  change (as_i64 GcRc.DATA_FAMILY) with GcRc.DATA_FAMILY in Ht, Hne. case_decide as Hj.
  - subst j. by rewrite Ht.
  - rewrite Hne; [done|congruence].
Qed.

#[global, refine] Instance hat_gc_laws : GcBackendLaws HashIndex := {|
  gc_ok := hat_gc_ok; known := hat_known; tag_of := hat_tag; num_of := hat_num;
  kids_of := hat_kids;
|}.
Proof.
  - intros s i Hs [t Ht]. unfold hat_tag in Ht. destruct (rows s !! i) eqn:E; [|done].
    by apply elem_of_dom_2 in E.
  - exact hat_kids_known.
  - intros s i Hs Hi. destruct (hat_id _ _ Hs Hi) as (h & Hh & Hi').
    refine (twp_Ok _ _ _ (gc_at (index s) i GcRc.DATA_FAMILY) s _ _).
    { cbn. unfold read_gc_data, zoom. cbn. rewrite read_gc_run. by destruct s. }
    split; [done|]. by apply num_gc_at.
  - exact hat_update_data.
  - intros s i t Hs Hi. destruct (hat_id _ _ Hs Hi) as (h & Hh & Hi').
    refine (twp_Ok _ _ _ _ _ eq_refl _).
    destruct (hat_update_tags (λ id _, bool_decide (id = as_i64 i)) (num t) s Hs) as (? & ? & ?).
    split_and!; try done. intros j.
    etrans; [apply (hat_tag_update (λ id _, bool_decide (id = as_i64 i)))|]. rewrite as_i64_id by lia.
    unfold hat_tag. case_decide as Hj.
    + subst j. rewrite Hh. simpl. by rewrite bool_decide_eq_true_2.
    + rewrite bool_decide_eq_false_2; done.
  - intros s i Hs Hi. destruct (hat_id _ _ Hs Hi) as (h & Hh & Hi').
    refine (twp_Ok _ _ _ (hat_tag s i) s _ _); [|done].
    cbn. unfold HashIndex.get_tag. rewrite bind_gets. unfold UniquePriorityQueue.find_mut_value_of_priority.
    rewrite (hg_idle _ Hs), lookup_empty. cbn. unfold hash_get_tag, zoom, on_hashes.
    unfold hat_tag. cbn. rewrite as_i64_id by lia. by destruct s as [q [[]]].
  - intros s t Hs. refine (twp_Ok _ _ _ _ _ eq_refl _).
    destruct (hat_update_tags (λ _ _, true) (num t) s Hs) as (? & ? & ?).
    split_and!; try done. intros j.
    etrans; [apply (hat_tag_update (λ _ _, true))|]. unfold hat_known.
    destruct (rows s !! j) as [h|] eqn:Hh; simpl.
    + rewrite decide_True; [done|]. by apply elem_of_dom_2 in Hh.
    + rewrite decide_False; [done|]. by apply not_elem_of_dom.
  - intros s i Hs Hi. destruct (hat_id _ _ Hs Hi) as (h & Hh & Hi').
    refine (twp_Ok _ _ _ _ _ (hat_reverse_refs_ok _ _ _ Hs Hi' Hh) _). split; [done|].
    unfold hat_kids. by rewrite Hh.
  - intros s t Hs. destruct (hat_list_ids s t Hs) as (l & E & ? & ?).
    by refine (twp_Ok _ _ _ _ _ E _).
  - intros s Hs. refine (twp_Ok _ _ _ _ _ eq_refl _). split_and!; try done.
    destruct Hs as [Hok Hq Hr]. split; [|done|done].
    pose proof (flush_pres s Hok) as [? Hi ? ? ? ?]. split; try done. by destruct Hi; split.
Defined.

End laws.
