(* ===== verification/Hat.v ===== *)
(** * The repository: [Hat] of hat/mod.rs

    [gc] removes the hashes that the collector lists as unused, and then the blobs that no hash
    that is left refers to. *)

From S2P Require Import Prelude Cbor Refs Ordered Upq Timer Db Crypto HashIndex Backend Blob.
From S2P Require Import BlobStore HashStore Gc GcOk HatGc.
From S2P Require Models.
Import Ordered.tags.

Section Hat.
Context `{Sodium} `{LruCache} `{Cbor Models.ChunkRef} `{Cbor Models.HashIds} `{Cbor Models.HashRef}.
Context {B : Type} `{!StoreBackend (list Z) B}.

Abbreviation HatM := (M (Store Z B)).

(** The closure that [commit] gives to the family's: the collector is to count the hash. *)
Definition reserve_hash (hash : bytes) : HatM unit :=
  o ← zoom hi_lens (get_id hash);
  id ← lift (expect o);
  zoom hi_lens (HashIndex.set_tag id Reserved).

(** [self.blob_store.tag(pref, Reserved)], for an entry that has a reference. *)
Definition tag_entry (entry : Db.Entry) : HatM unit :=
  match e_persistent_ref entry with
  | Some pref => tag_chunk pref Reserved
  | None => mret ()
  end.

(** What it returns: the numbers of deleted hashes and of entries with a reference. *)
Definition gc : HatM (nat * nat) :=
  ids ← zoom hi_lens list_unused_ids;
  for_each (λ id, zoom hi_lens (delete_hash id)) ids ;;
  zoom hi_lens flush_index ;;
  entries ← zoom hi_lens list_hashes;
  tag_all_blobs InProgress ;;
  for_each tag_entry entries ;;
  delete_by_tag InProgress ;;
  tag_all_blobs Done ;;
  BlobStore.flush commit_callback ;;
  mret (length ids, length (omap e_persistent_ref entries)).

End Hat.
