(* ===== verification/HatGcOk.v ===== *)
(** * What a garbage collection does to the index, the blobs and the backend

    Step by step: deleting the unused hashes, listing the others, tagging their blobs, deleting
    the blobs without a tag. *)

From S2P Require Import Prelude Cbor Refs Ordered Upq Timer Db Crypto HashIndex IndexSpec Backend Blob.
From S2P Require Import BlobStore HashStore Gc GcOk GcSpec HatGc Hat.
From S2P Require Models.
Import Ordered.tags.
Import UniquePriorityQueue (priority).

Abbreviation rows y := (schema.hashes (cur (index y))).

(** ** Deleting hashes *)
Section forget.
Context `{CborLaws Models.ChunkRef} `{CborLaws Models.HashIds} `{CborLaws Models.HashRef}.
Implicit Types (y : HashIndex) (ids : list Z).

Definition forget ids (t : schema.Tables) : schema.Tables :=
  schema.mkTables (delete_where (λ i _, bool_decide (i ∈ ids)) (schema.hashes t))
    (delete_where (λ k _, bool_decide (k.1 ∈ ids)) (schema.gc_metadata t))
    (schema.blobs t) (schema.family t) (schema.snapshots t).

Definition forget_hashes ids y : HashIndex :=
  mkHashIndex (queue y) (lset cur_lens (forget ids (cur (index y))) (index y)).

Lemma delete_where_none {K R} `{Countable K} p (t : gmap K R) :
  (∀ k r, t !! k = Some r → p k r = false) → delete_where p t = t.
Proof.
  intros Hp. apply map_eq. intros k. apply option_eq. intros r. rewrite lookup_delete_where. naive_solver.
Qed.

Lemma forget_nil t : forget [] t = t.
Proof.
  destruct t. unfold forget. cbn. f_equal; apply delete_where_none; intros k r _;
    apply bool_decide_eq_false_2, not_elem_of_nil.
Qed.

Lemma delete_hash_run i y : (0 < i < 2 ^ 63)%Z → delete_hash i y = (Ok (), forget_hashes [i] y).
Proof.
  intros Hi. unfold delete_hash, zoom, hash_delete, forget_hashes, forget. cbn. rewrite as_i64_id by lia.
  do 2 f_equal. unfold index_lens, cur_lens. cbn. f_equal. f_equal. f_equal.
  - apply map_eq. intros k. apply option_eq. intros r.
    rewrite lookup_delete_where, lookup_delete_Some, bool_decide_eq_false, list_elem_of_singleton. naive_solver.
  - apply map_eq. intros k. apply option_eq. intros r.
    by rewrite !lookup_delete_where, !bool_decide_eq_false, list_elem_of_singleton.
Qed.

Lemma forget_cons i ids y : forget_hashes ids (forget_hashes [i] y) = forget_hashes (i :: ids) y.
Proof.
  unfold forget_hashes, forget. cbn. do 2 f_equal. f_equal; apply map_eq; intros k; apply option_eq; intros r;
    rewrite !lookup_delete_where, !bool_decide_eq_false; set_solver.
Qed.

Lemma delete_hashes_run ids y :
  Forall (λ i, 0 < i < 2 ^ 63)%Z ids → for_each delete_hash ids y = (Ok (), forget_hashes ids y).
Proof.
  intros Hi. revert y. induction Hi as [|i ids Hi _ IH]; intros y; cbn [for_each].
  - unfold forget_hashes. rewrite forget_nil. by destruct y as [? []].
  - run_with (delete_hash_run i y Hi). by rewrite IH, forget_cons.
Qed.

Lemma forget_rows ids y i h :
  rows (forget_hashes ids y) !! i = Some h ↔ rows y !! i = Some h ∧ i ∉ ids.
Proof.
  change (rows (forget_hashes ids y)) with (delete_where (λ i _, bool_decide (i ∈ ids)) (rows y)).
  by rewrite lookup_delete_where, bool_decide_eq_false.
Qed.

(** The parents of a forgotten hash are forgotten with it. *)
Definition with_parents ids y : Prop := ∀ i j, i ∈ known y → child y i j → j ∈ ids → i ∈ ids.

Lemma forget_ok ids y : hat_gc_ok y → with_parents ids y → hat_gc_ok (forget_hashes ids y).
Proof.
  intros Hy Hp. pose proof Hy as [Hok Hq Hr]. split; [|done|].
  - split; [apply Hok| | |apply Hok..].
    + assert (rows (forget_hashes ids y) ⊆ rows y) as Hsub by apply delete_where_sub.
      destruct (hi_index _ Hok) as [[? ? ? ?] ? Hc ?]. split; [split; try done|done| |done].
      * by eapply unique_hashes_sub.
      * intros i h Hi. eapply Hc. by eapply lookup_weaken.
    + destruct (hi_rows _ Hok) as [Hrq Hrn Hrb Hrc]. split.
      * intros p st k qe Hp'. change (queue (forget_hashes ids y)) with (queue y) in Hp'.
        by rewrite Hq, lookup_empty in Hp'.
      * intros i h [Hi _]%forget_rows. by eapply Hrn.
      * intros i h p [Hi _]%forget_rows. by eapply Hrb.
      * intros i h cs [Hi Hn]%forget_rows Hrd Hcs. apply Forall_forall. intros c Hc.
        pose proof (Hrc _ _ _ Hi Hrd Hcs) as Hall. rewrite Forall_forall in Hall.
        destruct (Hall c Hc) as (h' & Hh' & ?). exists h'. split; [|done]. apply forget_rows.
        split; [done|]. intros Hin. apply Hn. apply (Hp i c).
        -- unfold known, hat_gc_laws, hat_known. by eapply elem_of_dom_2.
        -- unfold child, kids_of, hat_gc_laws, hat_kids. rewrite Hi. cbn. unfold row_kids. by rewrite Hcs.
        -- done.
  - intros i h [Hi _]%forget_rows. by apply Hr in Hi.
Qed.

(** For the collector, they are what its contract calls forgotten. *)
Lemma forget_forgotten ids y :
  hat_gc_ok y → with_parents ids y → (∀ i, i ∈ ids → num_of y i = 0%Z) →
  forgotten ids y (forget_hashes ids y).
Proof.
  intros Hy Hp Hn. split.
  - by apply forget_ok.
  - intros i. unfold known, hat_gc_laws, hat_known. rewrite !elem_of_dom. unfold is_Some.
    setoid_rewrite forget_rows. naive_solver.
  - intros i. unfold num_of, hat_gc_laws, hat_num in *.
    change (schema.gc_metadata (cur (index (forget_hashes ids y)))) with
      (delete_where (λ k : Z * Z, λ _, bool_decide (k.1 ∈ ids)) (schema.gc_metadata (cur (index y)))).
    destruct (delete_where _ _ !! (i, GcRc.DATA_FAMILY)) as [r|] eqn:E.
    + apply lookup_delete_where in E as [-> _]. done.
    + destruct (schema.gc_metadata (cur (index y)) !! (i, GcRc.DATA_FAMILY)) as [r|] eqn:E'; [|done].
      destruct (decide (i ∈ ids)) as [Hi|Hi].
      * specialize (Hn i Hi). by rewrite E' in Hn.
      * assert (delete_where (λ k : Z * Z, λ _, bool_decide (k.1 ∈ ids))
          (schema.gc_metadata (cur (index y))) !! (i, GcRc.DATA_FAMILY) = Some r) as E2; [|congruence].
        apply lookup_delete_where. split; [done|]. by apply bool_decide_eq_false.
  - intros i Hi. unfold known, hat_gc_laws, hat_known in Hi. apply elem_of_dom in Hi as [h Hh].
    unfold kids_of, hat_gc_laws, hat_kids. rewrite Hh. apply forget_rows in Hh as [-> _]. done.
Qed.

End forget.

(** ** The collector changes nothing but the hashes' tags *)
Section tags_only.
Context `{Cbor Models.ChunkRef} `{Cbor Models.HashIds} `{Cbor Models.HashRef}.
Implicit Types y : HashIndex.

(** A table with other hashes. *)
Definition with_hashes (t : schema.Tables) (hs : gmap Z schema.Hash) : schema.Tables :=
  lset hashes_lens hs t.

Definition untag (h : schema.Hash) : schema.Hash := Db.set_tag 0 h.

Record tags_only y y' : Prop := {
  to_queue : queue y' = queue y;
  to_rows : ∀ i, untag <$> rows y' !! i = untag <$> rows y !! i;
  to_rest : with_hashes (cur (index y')) ∅ = with_hashes (cur (index y)) ∅;
}.

#[global] Instance tags_only_preorder : PreOrder tags_only.
Proof.
  split; [by split|]. intros y1 y2 y3 [Q1 R1 T1] [Q2 R2 T2].
  split; [congruence|intros i; by rewrite R2|congruence].
Qed.

Lemma tags_only_same y : tags_only y y.
Proof. done. Qed.

Lemma hash_set_tag_only o t : frames tags_only (zoom index_lens (hash_set_tag o t)).
Proof.
  intros y. split; [done| |done]. intros i. cbn. rewrite lookup_update.
  destruct (rows y !! i) as [h|]; [|done]. cbn. by destruct o; [case_bool_decide|].
Qed.

Lemma frames_reads {A} (m : M InternalIndex A) :
  (∀ x, (m x).2 = x) → frames tags_only (zoom index_lens m).
Proof.
  intros Hm y. unfold zoom. specialize (Hm (index y)). cbn [lget index_lens].
  destruct (m (index y)) as [r x]. cbn in *. subst x. by split.
Qed.

Lemma locate_by_id_state i x : (hash_locate_by_id i x).2 = x.
Proof. done. Qed.

Lemma list_unused_tags_only : frames tags_only list_unused_ids.
Proof.
  apply (list_unused_frames (S := HashIndex)); [apply _|intros..].
  - apply hash_set_tag_only.
  - apply hash_set_tag_only.
  - unfold Gc.get_tag, hat_gc_backend, HashIndex.get_tag. intros y. rewrite bind_gets.
    destruct (UniquePriorityQueue.find_mut_value_of_priority _ _); [done|].
    apply frames_reads. by intros [[]].
  - apply frames_reads. by intros [[]].
  - apply frames_bind; [apply _|by apply frames_reads|]. intros [e|]; by intros y.
  - apply frames_reads. by intros [[]].
Qed.

End tags_only.

(** ** The references of the rows *)
Section refs.
Context `{CborLaws Models.ChunkRef} `{CborLaws Models.HashIds} `{CborLaws Models.HashRef}.

Definition row_ref (t : schema.Tables) (h : schema.Hash) : option chunk.ChunkRef :=
  match decode_chunk_ref (schema.blob_ref h) (joined_blob t h) with Ok r => r | _ => None end.

(** The chunk of [h] is in the blob [i]. *)
Definition needs (t : schema.Tables) (h : schema.Hash) (i : Z) : Prop :=
  schema.blob_id h = i ∧ ∃ r, row_ref t h = Some r ∧ 0 < chunk.length r.

(** A reference read from a row has no blob id, and the name of the blob of the row. *)
Lemma row_ref_name t h r :
  row_ref t h = Some r →
  chunk.blob_id r = None ∧
  (chunk.length r = 0 ∧ chunk.blob_name r = [Byte.x00] ∨
   0 < chunk.length r ∧ ∃ b, schema.blobs t !! schema.blob_id h = Some b ∧ chunk.blob_name r = schema.b_name b).
Proof.
  unfold row_ref, decode_chunk_ref, joined_blob. destruct (schema.blob_ref h) as [c|]; [|done].
  destruct (chunk.from_bytes c) as [r0| | |] eqn:E; try done. cbn [unwrap mbind res_bind].
  assert (chunk.blob_id r0 = None) as E0.
  { unfold chunk.from_bytes in E. apply res_bind_Ok_inv in E as (m & _ & [= <-]). done. }
  case_decide as Hl.
  - destruct (_ !! _) as [b|]; [|done]. cbn. intros [= <-]. split; [done|]. right. eauto.
  - cbn. intros [= <-]. split; [done|]. left. cbn. split; [lia|done].
Qed.

(** It stays the same as long as the blob it needs keeps its name. *)
Lemma row_ref_kept t t' h :
  row_decodes t h →
  (∀ i, needs t h i → schema.b_name <$> schema.blobs t' !! i = schema.b_name <$> schema.blobs t !! i) →
  row_decodes t' h ∧ row_ref t' h = row_ref t h.
Proof.
  unfold row_decodes, needs, row_ref, decode_chunk_ref, joined_blob.
  intros (? & ? & ? & pref & Hp) Hk. destruct (schema.blob_ref h) as [c|]; [|eauto 10].
  destruct (chunk.from_bytes c) as [r0| | |]; try done. cbn [unwrap mbind res_bind] in *.
  destruct (decide (0 < chunk.length r0)); [|eauto 10].
  destruct (schema.blobs t !! schema.blob_id h) as [b|] eqn:Eb; [|done]. cbn in Hk.
  assert (schema.b_name <$> schema.blobs t' !! schema.blob_id h = Some (schema.b_name b)) as Eb'.
  { rewrite (Hk (schema.blob_id h)); [by rewrite Eb|]. split; [done|]. by eexists. }
  destruct (schema.blobs t' !! schema.blob_id h) as [b'|]; [|done]. cbn in Eb'. injection Eb' as Eb'.
  cbn. rewrite Eb'. eauto 10.
Qed.

Lemma res_map_Ok {A B} (f : A → res B) (g : A → B) l :
  (∀ x, x ∈ l → f x = Ok (g x)) → res_map f l = Ok (g <$> l).
Proof.
  induction l as [|x l IH]; intros Hf; [done|]. cbn. rewrite Hf by constructor. cbn.
  rewrite IH; [done|]. intros y Hy. apply Hf. by constructor.
Qed.

Lemma entry_of_row_run t h : row_decodes t h →
  ∃ e, entry_of_row t h = Ok e ∧ e_persistent_ref e = row_ref t h.
Proof.
  intros ([leaf El] & Hne & [cs Ec] & [pref Ep]). unfold entry_of_row, row_ref. rewrite El, Ep. cbn.
  unfold childs_of_row in Ec. destruct (schema.childs h) as [b|]; cbn; [|eauto].
  rewrite decide_False in Ec by congruence. destruct (decode_childs b); cbn in *; eauto; discriminate.
Qed.

(** The listing gives the reference of each row. *)
Lemma list_hashes_run y : hat_gc_ok y →
  ∃ es, list_hashes y = (Ok es, y) ∧
    omap e_persistent_ref es = omap (λ r : Z * _, row_ref (cur (index y)) r.2) (map_to_list (rows y)).
Proof.
  intros Hy. set (t := cur (index y)).
  set (g := λ r : Z * schema.Hash, match entry_of_row t r.2 with Ok e => e
    | _ => Db.mkEntry [] chunk.Leaf Models.FileChunk None None false end).
  assert (∀ r, r ∈ map_to_list (rows y) → entry_of_row t r.2 = Ok (g r) ∧
    e_persistent_ref (g r) = row_ref t r.2) as Hg.
  { intros [i h] Hi%elem_of_map_to_list. destruct (entry_of_row_run t h) as (e & E & Er);
      [by eapply (hg_rows _ Hy)|]. unfold g. cbn. by rewrite E. }
  exists (g <$> map_to_list (rows y)). split.
  - unfold list_hashes, zoom, hash_list. rewrite bind_gets. cbn [lget index_lens].
    fold t. unfold lift. rewrite (res_map_Ok _ g); [by destruct y|]. intros r Hr. by apply Hg.
  - assert (∀ l : list (Z * schema.Hash), (∀ r, r ∈ l → e_persistent_ref (g r) = row_ref t r.2) →
      omap e_persistent_ref (g <$> l) = omap (λ r : Z * _, row_ref t r.2) l) as Hl.
    { induction l as [|r l IH]; intros Hr; [done|]. cbn. rewrite (Hr r) by constructor.
      rewrite IH by (intros; apply Hr; by constructor). done. }
    apply Hl. intros r Hr. by apply Hg.
Qed.

End refs.

(** ** The blobs *)

#[global] Instance hi_lens_laws `{Sodium} `{LruCache} {Cb B} : LensLaws (@hi_lens _ _ Cb B).
Proof. by split; intros; try destruct w. Qed.

#[global] Instance backend_lens_laws `{Sodium} `{LruCache} {Cb B} : LensLaws (@backend_lens _ _ Cb B).
Proof. by split; intros; try destruct w. Qed.

Section blobs.
Context `{Sodium} `{LruCache} `{CborLaws Models.ChunkRef} `{CborLaws Models.HashIds}.
Context `{CborLaws Models.HashRef} {B : Type} `{StoreBackendDeleteLaws (list Z) B}.
Implicit Types s : Store Z B.

Abbreviation blobs_of s := (schema.blobs (cur (index (hi s)))).

Definition set_blobs (m : gmap Z schema.Blob) s : Store Z B :=
  lset hi_lens (lset index_lens (lset cur_lens (lset blobs_lens m (cur (index (hi s))))
    (index (hi s))) (hi s)) s.

Definition tagged (t : Tag) (names : list bytes) (m : gmap Z schema.Blob) : gmap Z schema.Blob :=
  update (λ _ b, bool_decide (schema.b_name b ∈ names)) (set_blob_tag (num t)) m.

Definition all_tagged (t : Tag) (m : gmap Z schema.Blob) : gmap Z schema.Blob :=
  update (λ _ _, true) (set_blob_tag (num t)) m.

Lemma tag_all_run t s : tag_all_blobs t s = (Ok (), set_blobs (all_tagged t (blobs_of s)) s).
Proof. done. Qed.

Lemma tagged_nil t m : tagged t [] m = m.
Proof.
  unfold tagged. apply map_eq. intros i. rewrite lookup_update. destruct (m !! i); [|done].
  cbn [fmap option_fmap option_map]. by rewrite bool_decide_eq_false_2 by apply not_elem_of_nil.
Qed.

Lemma tagged_app t l1 l2 m : tagged t l2 (tagged t l1 m) = tagged t (l1 ++ l2) m.
Proof.
  unfold tagged. apply map_eq. intros i. rewrite !lookup_update. destruct (m !! i) as [b|]; [|done].
  cbn [fmap option_fmap option_map]. f_equal. destruct (decide (schema.b_name b ∈ l1)) as [Hin|Hin].
  - rewrite (bool_decide_eq_true_2 (_ ∈ l1)) by done.
    rewrite (bool_decide_eq_true_2 (_ ∈ l1 ++ l2)) by set_solver. by case_bool_decide.
  - rewrite (bool_decide_eq_false_2 (_ ∈ l1)) by done.
    rewrite (bool_decide_ext (schema.b_name b ∈ l2) (schema.b_name b ∈ l1 ++ l2)) by set_solver. done.
Qed.

Lemma tag_chunk_run c t s :
  chunk.blob_id c = None → chunk.blob_name c ≠ [] →
  tag_chunk c t s = (Ok (), set_blobs (tagged t [chunk.blob_name c] (blobs_of s)) s).
Proof.
  intros Hi Hn. unfold tag_chunk, tag_blob, on_db, zoom, blob_set_tag. rewrite Hi. cbn [id name default].
  rewrite decide_False by (cbn; lia). rewrite decide_True by done.
  trans (Ok (), set_blobs (update (λ _ b, bool_decide (schema.b_name b = chunk.blob_name c))
    (set_blob_tag (num t)) (blobs_of s)) s); [done|]. do 2 f_equal. unfold tagged.
  apply map_eq. intros i. rewrite !lookup_update. destruct (_ !! i) as [b|]; [|done].
  cbn [fmap option_fmap option_map].
  by rewrite (bool_decide_ext (schema.b_name b ∈ [chunk.blob_name c]) (schema.b_name b = chunk.blob_name c))
    by (by rewrite list_elem_of_singleton).
Qed.

Lemma tag_entry_run e c s :
  e_persistent_ref e = Some c → chunk.blob_id c = None → chunk.blob_name c ≠ [] →
  tag_entry e s = (Ok (), set_blobs (tagged Reserved [chunk.blob_name c] (blobs_of s)) s).
Proof. intros Ee Hi Hn. unfold tag_entry. rewrite Ee. by apply tag_chunk_run. Qed.

Lemma tag_entries_run es s :
  (∀ c, c ∈ omap e_persistent_ref es → chunk.blob_id c = None ∧ chunk.blob_name c ≠ []) →
  for_each tag_entry es s =
    (Ok (), set_blobs (tagged Reserved (chunk.blob_name <$> omap e_persistent_ref es) (blobs_of s)) s).
Proof.
  revert s. induction es as [|e es IH]; intros s Hc; cbn [for_each].
  - cbn. rewrite tagged_nil. by destruct s as [[? [[] ?]]].
  - cbn [omap list_omap] in *. destruct (e_persistent_ref e) as [c|] eqn:Ee.
    + destruct (Hc c) as [Hi Hn]; [by constructor|].
      rewrite (bind_Ok (tag_entry e) _ _ _ _ (tag_entry_run e c s Ee Hi Hn)).
      rewrite IH by (intros; apply Hc; by constructor). cbn [fmap list_fmap].
      change (chunk.blob_name c :: (chunk.blob_name <$> omap e_persistent_ref es)) with
        ([chunk.blob_name c] ++ (chunk.blob_name <$> omap e_persistent_ref es)).
      by rewrite <- tagged_app.
    + rewrite (bind_Ok (tag_entry e) _ s () s) by (unfold tag_entry; by rewrite Ee). by apply IH.
Qed.

Lemma list_blobs_run t s :
  unique_names (blobs_of s) →
  ∃ l, list_blobs_by_tag t s = (Ok l, s) ∧ NoDup (name <$> l) ∧
    ∀ n, n ∈ name <$> l ↔ ∃ i b, blobs_of s !! i = Some b ∧ schema.b_tag b = num t ∧ schema.b_name b = n.
Proof.
  intros Hu. set (sel := select (λ _ b, bool_decide (schema.b_tag b = num t)) (blobs_of s)).
  exists ((λ r : Z * schema.Blob, mkBlobDesc (schema.b_name r.2) r.1) <$> order_desc fst sel).
  split; [by destruct s as [[? [[] ?]]]|].
  rewrite <- list_fmap_compose.
  assert ((name ∘ λ r : Z * schema.Blob, mkBlobDesc (schema.b_name r.2) r.1) <$> order_desc fst sel
    ≡ₚ (λ r : Z * schema.Blob, schema.b_name r.2) <$> sel) as Hp.
  { unfold order_desc. by rewrite merge_sort_Permutation. }
  split.
  - rewrite Hp. apply NoDup_fmap_2_strong.
    + intros [i b] [j b'] [Hi _]%elem_of_select [Hj _]%elem_of_select E. simpl in E.
      pose proof (Hu _ _ _ _ Hi Hj E). congruence.
    + apply NoDup_filter, NoDup_map_to_list.
  - intros n. rewrite Hp, list_elem_of_fmap. split.
    + intros ([i b] & -> & [Hi Ht%bool_decide_eq_true]%elem_of_select). by exists i, b.
    + intros (i & b & Hi & Ht & <-). exists (i, b). split; [done|]. apply elem_of_select.
      by rewrite bool_decide_eq_true.
Qed.

Lemma twp_zoom_for_each {W A} (l : lens W B) `{!LensLaws l} (f : A → M B unit) xs w Q :
  twp (for_each f xs) (lget l w) (λ a b, Q a (lset l b w)) →
  twp (for_each (λ x, zoom l (f x)) xs) w Q.
Proof. intros Ht. unfold twp. rewrite zoom_for_each by done. by apply twp_zoom. Qed.

Lemma delete_names_twp (l : list BlobDesc) (b : B) :
  healthy b → NoDup (name <$> l) → (∀ d, d ∈ l → ∃ x, durable b (name d) x) →
  twp (for_each (λ d, delete (name d)) l) b (λ _ b', healthy b' ∧
    (∀ n x, n ∉ name <$> l → durable b n x → durable b' n x) ∧
    (∀ n x, durable b' n x → durable b n x ∧ n ∉ name <$> l)).
Proof.
  revert b. induction l as [|d l IH]; intros b Hb Hnd Hl; cbn [for_each].
  { refine (twp_Ok _ _ _ _ _ eq_refl _). split_and!; [done..|]. intros n x Hx. split; [done|].
    apply not_elem_of_nil. }
  cbn in Hnd. apply NoDup_cons in Hnd as [Hd Hnd]. destruct (Hl d) as [x Hx]; [by constructor|].
  apply twp_bind. eapply twp_mono; [by apply (delete_ok (Cb := list Z) b _ x)|].
  intros [] b1 (Hb1 & Hgone & Hkept & Hold & _). eapply twp_mono; [apply IH; [done|done|]|].
  - intros d' Hd'. destruct (Hl d') as [x' Hx']; [by constructor|]. exists x'. apply Hkept; [|done].
    intros E. apply Hd. rewrite <- E. by apply list_elem_of_fmap_2.
  - intros [] b2 (Hb2 & Hk2 & Ho2). split_and!; [done|..].
    + intros n y [Hn Hn']%not_elem_of_cons Hy. apply Hk2; [done|]. by apply Hkept.
    + intros n y [Hy Hn]%Ho2. split; [by apply Hold|]. cbn. intros [->|?]%elem_of_cons; [|done].
      by apply Hgone in Hy.
Qed.

(** *** The second half of [gc]: from the entries on *)

(** No blob has the name that stands for none, and every blob is in the backend. *)
Record blobs_ok s : Prop := {
  bo_unique : unique_names (blobs_of s);
  bo_names : ∀ i b, blobs_of s !! i = Some b → schema.b_name b ≠ [] ∧ schema.b_name b ≠ [Byte.x00];
  bo_durable : ∀ i b, blobs_of s !! i = Some b → ∃ d, durable (backend s) (schema.b_name b) d;
  bo_healthy : healthy (backend s);
}.

Definition sweep (es : list Db.Entry) : M (Store Z B) unit :=
  tag_all_blobs InProgress ;;
  for_each tag_entry es ;;
  delete_by_tag InProgress ;;
  tag_all_blobs Done.

(** What it leaves of the table: the blobs with one of the names. *)
Definition named (names : list bytes) (m : gmap Z schema.Blob) : gmap Z schema.Blob :=
  set_blob_tag (num Done) <$> delete_where (λ _ b, negb (bool_decide (schema.b_name b ∈ names))) m.

Lemma lookup_named names m i b :
  named names m !! i = Some b ↔
  ∃ b0, m !! i = Some b0 ∧ schema.b_name b0 ∈ names ∧ b = set_blob_tag (num Done) b0.
Proof.
  unfold named. rewrite lookup_fmap, fmap_Some. setoid_rewrite lookup_delete_where.
  setoid_rewrite negb_false_iff. setoid_rewrite bool_decide_eq_true. naive_solver.
Qed.

Lemma swept_table names m :
  all_tagged Done (delete_where (λ _ b, bool_decide (schema.b_tag b = num InProgress))
    (tagged Reserved names (all_tagged InProgress m))) = named names m.
Proof.
  apply map_eq. intros i. apply option_eq. intros b. rewrite lookup_named.
  unfold all_tagged at 1. rewrite lookup_update, fmap_Some. setoid_rewrite lookup_delete_where.
  unfold tagged, all_tagged. rewrite !lookup_update. destruct (m !! i) as [b0|]; [|naive_solver].
  cbn [fmap option_fmap option_map]. split.
  - intros (b1 & [[= <-] Ht%bool_decide_eq_false] & ->). exists b0. split; [done|].
    case_bool_decide as Hn; [done|]. by destruct Ht.
  - intros (b1 & [= <-] & Hn & ->). cbn [schema.b_name set_blob_tag]. eexists.
    rewrite (bool_decide_eq_true_2 (schema.b_name b0 ∈ names)) by done.
    split; [split; [done|]|done]. by apply bool_decide_eq_false.
Qed.

(** Up to the deletions: the blobs without a tag are listed. *)
Lemma sweep_run es s :
  unique_names (blobs_of s) →
  (∀ c, c ∈ omap e_persistent_ref es → chunk.blob_id c = None ∧ chunk.blob_name c ≠ []) →
  let names := chunk.blob_name <$> omap e_persistent_ref es in
  ∃ l, sweep es s = (for_each (λ b, zoom backend_lens (delete (name b))) l ;;
      delete_blobs_by_tag InProgress ;; tag_all_blobs Done)
      (set_blobs (tagged Reserved names (all_tagged InProgress (blobs_of s))) s) ∧
    NoDup (name <$> l) ∧
    ∀ n, n ∈ name <$> l ↔ n ∉ names ∧ ∃ i b, blobs_of s !! i = Some b ∧ schema.b_name b = n.
Proof.
  intros Hu Hc names. unfold sweep. run_with (tag_all_run InProgress s).
  run_with (tag_entries_run es (set_blobs (all_tagged InProgress (blobs_of s)) s) Hc). fold names.
  set (m := tagged Reserved names _). change (blobs_of (set_blobs _ _)) with (all_tagged InProgress (blobs_of s)) in m.
  change (set_blobs m _) with (set_blobs m s).
  assert (unique_names m) as Hum by by apply unique_names_update, unique_names_update.
  destruct (list_blobs_run InProgress (set_blobs m s) Hum) as (l & El & Hnd & Hl).
  exists l. split_and!; [|done|].
  - unfold delete_by_tag. rewrite bind_assoc. run_with El. by rewrite bind_assoc.
  - intros n. rewrite Hl. change (blobs_of (set_blobs m s)) with m. unfold m, tagged, all_tagged. split.
    + intros (i & b & Hi & Ht & <-). rewrite !lookup_update in Hi.
      destruct (blobs_of s !! i) as [b0|] eqn:E0; [|done]. cbn [fmap option_fmap option_map] in Hi.
      case_bool_decide as Hin; injection Hi as <-; [done|]. split; [done|]. by exists i, b0.
    + intros (Hin & i & b & Hi & <-). exists i. eexists. rewrite !lookup_update, Hi.
      cbn [fmap option_fmap option_map]. split; [done|].
      rewrite bool_decide_eq_false_2 by done. done.
Qed.

Lemma sweep_twp es s :
  blobs_ok s →
  (∀ c, c ∈ omap e_persistent_ref es → chunk.blob_id c = None ∧ chunk.blob_name c ≠ []) →
  let names := chunk.blob_name <$> omap e_persistent_ref es in
  twp (sweep es) s (λ _ s', ∃ b',
    s' = set_blobs (named names (blobs_of s)) (lset backend_lens b' s) ∧ blobs_ok s' ∧
    (∀ n x, (∀ i b, blobs_of s !! i = Some b → schema.b_name b = n → n ∈ names) →
       durable (backend s) n x → durable b' n x) ∧
    (∀ i b x, blobs_of s !! i = Some b → schema.b_name b ∉ names → ¬ durable b' (schema.b_name b) x)).
Proof.
  intros [Hu Hn Hd Hh] Hc names. destruct (sweep_run es s Hu Hc) as (l & Erun & Hnd & Hl'). fold names in Erun, Hl'.
  set (m := tagged Reserved names _) in Erun. unfold twp. rewrite Erun. clear Erun. fold (@twp (Store Z B) unit).
  apply (twp_bind (for_each (λ b, zoom backend_lens (delete (name b))) l)).
  apply (twp_zoom_for_each _ _). eapply twp_mono; [apply delete_names_twp; [done|done|]|].
  { intros d Hdl. assert (name d ∈ name <$> l) as (_ & i & b & Hi & <-)%Hl' by by apply list_elem_of_fmap_2.
    by eapply Hd. }
  intros [] b' (Hh' & Hkept & Hgone). apply twp_bind. refine (twp_Ok _ _ _ _ _ eq_refl _).
  eapply twp_Ok.
  { trans (Ok (), set_blobs (all_tagged Done (delete_where
      (λ _ b, bool_decide (schema.b_tag b = num InProgress)) m)) (lset backend_lens b' s)); [done|].
    unfold m. by rewrite swept_table. }
  exists b'. split; [done|].
  assert (∀ i b, named names (blobs_of s) !! i = Some b → ∃ b0, blobs_of s !! i = Some b0 ∧
    schema.b_name b0 ∈ names ∧ schema.b_name b = schema.b_name b0) as Hnamed.
  { intros i b (b0 & ? & ? & ->)%lookup_named. by exists b0. }
  split_and!.
  - split; [| | |exact Hh'].
    + intros i j a b Ha Hb E. destruct (Hnamed i a Ha) as (a0 & ? & _ & Ea), (Hnamed j b Hb) as (b0 & ? & _ & Eb).
      apply (Hu i j a0 b0); congruence.
    + intros i b Hi. destruct (Hnamed i b Hi) as (b0 & H0' & _ & ->). by eapply Hn.
    + intros i b Hi. destruct (Hnamed i b Hi) as (b0 & H0' & Hin & ->).
      destruct (Hd _ _ H0') as [d Hdd]. exists d. apply Hkept; [|done]. rewrite Hl'. tauto.
  - intros n x Hall Hx. apply Hkept; [|done]. rewrite Hl'. intros (Hni & i & b & Hi & Hb).
    apply Hni. by eapply Hall.
  - intros i b x Hi Hni [_ Hx]%Hgone. apply Hx, Hl'. eauto.
Qed.

End blobs.
