(* ===== verification/HatSpec.v ===== *)
(** * What a garbage collection guarantees

    [gc] of hat/mod.rs on an idle repository: exactly the hashes that no registered snapshot
    leads to are forgotten, exactly the blobs that no remaining hash needs are deleted, from
    the index and from the backend, and the result is on disk. *)

From S2P Require Import Prelude Cbor Refs Ordered Upq Timer Db Crypto HashIndex IndexSpec Backend Blob.
From S2P Require Import BlobStore HashStore Gc GcOk GcSpec HatGc Hat HatGcOk ModelSodium ModelWorld.
From S2P Require Models BlobSpec.
Import Ordered.tags.

(** ** The hashes *)
Section hashes.
Context `{CborLaws Models.ChunkRef} `{CborLaws Models.HashIds} `{CborLaws Models.HashRef}.
Implicit Types (y : HashIndex) (regs : list (gset Z)).

(** A top hash of a registered snapshot leads to [i]. *)
Definition wanted y regs (i : Z) : Prop := ∃ R r, R ∈ regs ∧ r ∈ R ∧ leads y r i.

Record hashes_collected regs y y' : Prop := {
  hc_ok : hat_gc_ok y';
  hc_counted : counted y' regs;
  hc_known : ∀ i, i ∈ known y' ↔ i ∈ known y ∧ wanted y regs i;
  hc_rows : ∀ i h, rows y' !! i = Some h → ∃ h0, rows y !! i = Some h0 ∧ untag h = untag h0;
  hc_rest : schema.blobs (cur (index y')) = schema.blobs (cur (index y));
}.

Lemma hat_flush_ok y : hat_gc_ok y → hat_gc_ok (flush_index y).2.
Proof. intros [Hok Hq Hr]. split; [by apply flush_pres|done|done]. Qed.

Lemma collect_hashes y regs :
  counted y regs →
  ∃ l y1 y3, list_unused_ids y = (Ok l, y1) ∧ for_each delete_hash l y1 = (Ok (), forget_hashes l y1) ∧
    flush_index (forget_hashes l y1) = (Ok (), y3) ∧ hashes_collected regs y y3 ∧ NoDup l ∧
    ∀ i, i ∈ l ↔ i ∈ known y ∧ ¬ wanted y regs i.
Proof.
  intros Hc. pose proof (cnt_ok _ _ Hc) as Hy.
  destruct (twp_inv _ _ _ (list_unused_ok y Hy (λ i _, counted_nonneg _ _ i Hc)))
    as (l & y1 & Hrun & G & Hnd & Hl & Hor & _).
  assert (∀ i, i ∈ l ↔ i ∈ known y ∧ ¬ wanted y regs i) as Hl'.
  { intros i. by rewrite Hl, (counted_used _ _ _ Hc). }
  pose proof (list_unused_tags_only y) as Hto. change (list_unused_ids y) with (GcRc.rc_list_unused_ids y) in Hto.
  rewrite Hrun in Hto. cbn [snd] in Hto. destruct Hto as [_ Hrows Hrest].
  pose proof (sg_ok _ _ G) as Hy1.
  assert (with_parents l y1) as Hp.
  { intros i j Hi Hij Hj. apply Hl. rewrite (sg_known _ _ G) in Hi. split; [done|].
    intros (r & Hr & Hr0 & Hri). apply Hl in Hj as [_ Hj]. apply Hj. exists r.
    split_and!; [done|done|]. eapply rtc_r; [exact Hri|]. unfold child in *. by rewrite <- (sg_kids _ _ G). }
  assert (∀ i, i ∈ l → num_of y1 i = 0%Z) as Hz.
  { intros i [Hi Hn]%Hl. rewrite (sg_num _ _ G). pose proof (counted_nonneg _ _ i Hc).
    destruct (decide (0 < num_of y i)%Z) as [Hp0|]; [|lia]. destruct Hn. exists i.
    split_and!; [done|done|apply rtc_refl]. }
  pose proof (forget_forgotten l y1 Hy1 Hp Hz) as Hf.
  eexists l, y1, (flush_index (forget_hashes l y1)).2. split_and!; [exact Hrun| |done| |done|done].
  - apply delete_hashes_run, Forall_forall. intros i [Hi _]%Hl.
    by destruct (hat_id _ _ Hy Hi) as (? & _ & ?).
  - split.
    + by apply hat_flush_ok, forget_ok.
    + split; [by apply hat_flush_ok, forget_ok| |].
      * intros i. etrans; [apply (fg_num _ _ _ Hf)|]. rewrite (sg_num _ _ G). apply Hc.
      * intros R i HR Hi. apply (fg_known _ _ _ Hf). rewrite (sg_known _ _ G).
        split; [by eapply cnt_known|]. rewrite Hl'. intros [_ []]. exists R, i.
        split_and!; [done|done|apply rtc_refl].
    + intros i. etrans; [apply (fg_known _ _ _ Hf)|]. rewrite (sg_known _ _ G), Hl'.
      split; [|naive_solver]. intros [Hi Hn]. split; [done|].
      destruct (Hor i Hi) as [Hil%Hl'|Hu]; [by destruct Hn|].
      exact (proj1 (counted_used _ _ _ Hc) Hu).
    + intros i h Hi. apply forget_rows in Hi as [Hi _]. specialize (Hrows i). rewrite Hi in Hrows.
      destruct (rows y !! i) as [h0|]; [|done]. exists h0. split; [done|]. exact (inj Some _ _ Hrows).
    + apply (f_equal schema.blobs) in Hrest. exact Hrest.
Qed.

End hashes.

(** ** The whole collection *)
Section gc.
Context `{Sodium} `{LruCache} `{CborLaws Models.ChunkRef} `{CborLaws Models.HashIds}.
Context `{CborLaws Models.HashRef} {B : Type} `{StoreBackendDeleteLaws (list Z) B}.
Implicit Types s : Store Z B.

Abbreviation tables s := (cur (index (hi s))).

(** Nothing is waiting: neither in the queue nor in the current blob. *)
Record gc_ready s : Prop := {
  gy_hashes : hat_gc_ok (hi s);
  gy_blobs : blobs_ok s;
  gy_flushed : Crypto.CipherText.len (chunks (blob s)) = 0;
}.

Lemma flush_store_empty s :
  Crypto.CipherText.len (chunks (blob s)) = 0 → flush_store commit_callback s = (Ok (), s).
Proof.
  intros Hz. unfold flush_store. rewrite (bind_Ok _ _ _ None s); [done|].
  unfold zoom, to_ciphertext_blob. rewrite bind_gets. cbn [lget blob_lens fst].
  rewrite decide_True by done. by destruct s.
Qed.

Lemma sweep_bind {A} es (k : M (Store Z B) A) s :
  (tag_all_blobs InProgress ;; for_each tag_entry es ;; delete_by_tag InProgress ;;
   tag_all_blobs Done ;; k) s = (sweep es ;; k) s.
Proof.
  unfold sweep, mbind, M_bind. destruct (tag_all_blobs InProgress s) as [[]s1]; try done.
  destruct (for_each tag_entry es s1) as [[]s2]; try done.
  by destruct (delete_by_tag InProgress s2) as [[]s3].
Qed.

(** The hashes' table with other blobs. *)
Definition hat_blobs (m : gmap Z schema.Blob) (y : HashIndex) : HashIndex :=
  mkHashIndex (queue y) (lset cur_lens (lset blobs_lens m (cur (index y))) (index y)).

Lemma HashIndex_ok_blobs m y : HashIndex_ok y → unique_names m → HashIndex_ok (hat_blobs m y).
Proof.
  intros Hok Hm. apply HashIndex_ok_same_view; try done. apply Index_ok_blobs; [apply Hok|done].
Qed.

Lemma hat_blobs_ok m y :
  hat_gc_ok y → unique_names m →
  (∀ i h j, rows y !! i = Some h → needs (cur (index y)) h j →
     schema.b_name <$> m !! j = schema.b_name <$> schema.blobs (cur (index y)) !! j) →
  hat_gc_ok (hat_blobs m y) ∧
  ∀ i h, rows y !! i = Some h → row_ref (cur (index (hat_blobs m y))) h = row_ref (cur (index y)) h.
Proof.
  intros [Hok Hq Hr] Hm Hn.
  assert (∀ i h, rows y !! i = Some h → row_decodes (cur (index (hat_blobs m y))) h ∧
    row_ref (cur (index (hat_blobs m y))) h = row_ref (cur (index y)) h) as Hrow.
  { intros i h Hi. apply row_ref_kept; [by eapply Hr|]. intros j. by eapply Hn. }
  split; [|intros i h Hi; by eapply Hrow]. split; [by apply HashIndex_ok_blobs|done|].
  intros i h Hi. by eapply Hrow.
Qed.

(** A row's reference depends on no other table, and not on the tag. *)
Lemma row_ref_blobs t t' h : schema.blobs t = schema.blobs t' → row_ref t h = row_ref t' (untag h).
Proof. unfold row_ref, joined_blob. by intros ->. Qed.

(** What is left once the hashes are collected: the names that get a tag are those of the
    blobs that a hash needs. *)
Lemma entry_refs es y :
  omap e_persistent_ref es = omap (λ r : Z * _, row_ref (cur (index y)) r.2) (map_to_list (rows y)) →
  ∀ c, c ∈ omap e_persistent_ref es ↔ ∃ j h, rows y !! j = Some h ∧ row_ref (cur (index y)) h = Some c.
Proof.
  intros E c. rewrite E, list_elem_of_omap. split.
  - intros ([j h] & Hj%elem_of_map_to_list & Hc). by exists j, h.
  - intros (j & h & Hj & Hc). exists (j, h). by rewrite elem_of_map_to_list.
Qed.

Section swept.
Context s (y := hi s) (t := tables s) (names : list bytes).
Context (Hb : blobs_ok s) (Hy : hat_gc_ok y).
Context (Hnames : ∀ n, n ∈ names ↔ ∃ j h c, rows y !! j = Some h ∧ row_ref t h = Some c ∧ chunk.blob_name c = n).

Lemma names_needed i b :
  schema.blobs t !! i = Some b →
  schema.b_name b ∈ names ↔ ∃ j h, rows y !! j = Some h ∧ needs t h i.
Proof using All.
  intros Hi. rewrite Hnames. split.
  - intros (j & h & c & Hj & Hc & E). exists j, h. split; [done|].
    destruct (row_ref_name _ _ _ Hc) as [_ [[_ E']|(Hl & b' & Hb' & E')]].
    + destruct (bo_names _ Hb _ _ Hi) as [_ Hn]. congruence.
    + split; [|eauto]. apply (bo_unique _ Hb _ _ b' b); [done|done|congruence].
  - intros (j & h & Hj & <- & c & Hc & Hl). exists j, h, c. split_and!; [done|done|].
    destruct (row_ref_name _ _ _ Hc) as [_ [[? _]|(_ & b' & Hb' & E')]]; [lia|].
    fold t in Hb'. congruence.
Qed.

(** The blob that a row needs is kept, under its name. *)
Lemma needed_kept j h i :
  rows y !! j = Some h → needs t h i →
  schema.b_name <$> named names (schema.blobs t) !! i = schema.b_name <$> schema.blobs t !! i.
Proof using All.
  intros Hj Hn. pose proof Hn as (<- & c & Hc & Hl).
  destruct (row_ref_name _ _ _ Hc) as [_ [[? _]|(_ & b & Hbl & _)]]; [lia|]. fold t in Hbl.
  assert (named names (schema.blobs t) !! schema.blob_id h = Some (set_blob_tag (num Done) b)) as ->.
  { apply lookup_named. exists b. split; [done|]. split; [|done]. apply (names_needed _ _ Hbl). eauto. }
  by rewrite Hbl.
Qed.

Lemma swept_blobs i b :
  named names (schema.blobs t) !! i = Some b ↔
    (∃ tg, schema.blobs t !! i = Some (schema.mkBlob (schema.b_name b) tg)) ∧
    schema.b_tag b = num Done ∧ ∃ j h, rows y !! j = Some h ∧ needs t h i.
Proof using All.
  rewrite lookup_named. split.
  - intros (b0 & Hi & Hin & ->). split_and!; [|done|by apply (names_needed _ b0)].
    exists (schema.b_tag b0). by destruct b0.
  - intros ([tg Hi] & Ht & Hn). eexists. split; [exact Hi|]. split; [|by destruct b; simpl in *; subst].
    apply (names_needed _ _ Hi) in Hn. done.
Qed.

End swept.

(** The blobs' half of the collection. *)
Lemma collect_blobs es s :
  blobs_ok s → hat_gc_ok (hi s) →
  (∀ c, c ∈ omap e_persistent_ref es ↔ ∃ j h, rows (hi s) !! j = Some h ∧ row_ref (tables s) h = Some c) →
  ∃ s' m, sweep es s = (Ok (), s') ∧ hi s' = hat_blobs m (hi s) ∧ blob s' = blob s ∧
    hat_gc_ok (hi s') ∧ blobs_ok s' ∧
    (∀ i h, rows (hi s) !! i = Some h → row_ref (tables s') h = row_ref (tables s) h) ∧
    (∀ i b, m !! i = Some b ↔
       (∃ tg, schema.blobs (tables s) !! i = Some (schema.mkBlob (schema.b_name b) tg)) ∧
       schema.b_tag b = num Done ∧ ∃ j h, rows (hi s) !! j = Some h ∧ needs (tables s) h i) ∧
    (∀ x d, (∀ i b, schema.blobs (tables s) !! i = Some b → schema.b_name b = x → is_Some (m !! i)) →
       durable (backend s) x d → durable (backend s') x d) ∧
    (∀ i b d, schema.blobs (tables s) !! i = Some b → m !! i = None →
       ¬ durable (backend s') (schema.b_name b) d).
Proof.
  intros Hb Hy Hes. set (names := chunk.blob_name <$> omap e_persistent_ref es).
  assert (∀ n, n ∈ names ↔ ∃ j h c, rows (hi s) !! j = Some h ∧ row_ref (tables s) h = Some c ∧
    chunk.blob_name c = n) as Hnames.
  { intros n. unfold names. rewrite list_elem_of_fmap. setoid_rewrite Hes. naive_solver. }
  assert (∀ i b, schema.blobs (tables s) !! i = Some b →
    schema.b_name b ∈ names ↔ is_Some (named names (schema.blobs (tables s)) !! i)) as Hin.
  { intros i b Hi. split.
    - intros ?. eexists. apply lookup_named. by exists b.
    - intros [b' (b0 & ? & ? & _)%lookup_named]. naive_solver. }
  destruct (twp_inv _ _ _ (sweep_twp es s Hb ltac:(
    intros c (j & h & Hj & Hc)%Hes; destruct (row_ref_name _ _ _ Hc) as [E [[_ ->]|(_ & b & Hbl & ->)]];
    split; [done|done|done|by eapply (bo_names _ Hb)])))
    as ([] & s' & Hrun & b' & -> & Hb' & Hkept & Hgone). fold names in Hb', Hkept, Hgone, Hrun |- *.
  destruct (hat_blobs_ok (named names (schema.blobs (tables s))) (hi s) Hy (bo_unique _ Hb')) as [Hok Hrefs].
  { intros i h j Hi Hj. by eapply needed_kept. }
  eexists _, (named names (schema.blobs (tables s))). split; [exact Hrun|].
  split_and!; [done|done|exact Hok|exact Hb'|exact Hrefs| | |].
  - intros i b. by apply swept_blobs.
  - intros x d Hx. apply Hkept. intros i b Hi E. rewrite <- E. by apply (Hin _ _ Hi), (Hx i b).
  - intros i b d Hi Hn. eapply Hgone; [done|]. intros Hn'%(Hin _ _ Hi). rewrite Hn in Hn'. by destruct Hn'.
Qed.

(** The collection as its two halves. *)
Lemma gc_run s regs :
  counted (hi s) regs →
  ∃ (l : list Z) es y3, let s3 := lset hi_lens y3 s in
    gc s = (sweep es ;; BlobStore.flush commit_callback ;;
            mret (length l, length (omap e_persistent_ref es))) s3 ∧
    hashes_collected regs (hi s) y3 ∧
    ∀ c, c ∈ omap e_persistent_ref es ↔ ∃ j h, rows y3 !! j = Some h ∧ row_ref (tables s3) h = Some c.
Proof.
  intros Hc. destruct (collect_hashes _ _ Hc) as (l & y1 & y3 & E1 & E2 & E3 & Hcol & _ & _).
  destruct (list_hashes_run y3 (hc_ok _ _ _ Hcol)) as (es & E4 & Hes).
  exists l, es, y3. cbv zeta. set (s3 := lset hi_lens y3 s).
  split; [|split; [done|by apply entry_refs]].
  unfold gc. rewrite (bind_zoom _ _ _ _ _ _ E1).
  rewrite (bind_Ok _ _ _ () (lset hi_lens (forget_hashes l y1) (lset hi_lens y1 s)))
    by (rewrite zoom_for_each by apply _; by apply zoom_Ok).
  rewrite (bind_zoom hi_lens _ _ (lset hi_lens (forget_hashes l y1) (lset hi_lens y1 s)) _ _ E3).
  change (lset hi_lens y3 _) with s3. rewrite (bind_zoom hi_lens _ _ s3 _ _ E4).
  change (lset hi_lens y3 s3) with s3. by rewrite sweep_bind.
Qed.

Lemma blobs_ok_hi s y :
  schema.blobs (cur (index y)) = schema.blobs (tables s) → blobs_ok s → blobs_ok (lset hi_lens y s).
Proof.
  intros E [B1 B2 B3 B4].
  split; change (schema.blobs (tables (lset hi_lens y s))) with (schema.blobs (cur (index y))); by rewrite ?E.
Qed.

(** C7: A collection on an idle repository, whose counters are the registered snapshots: it
    ends without an error. Of the hashes it keeps those that a registered snapshot leads to,
    with their digests, children and references, and forgets the others; of the blobs it keeps,
    as done, those with the chunk of a hash that is left. The backend still has what it had
    under the names of these blobs, and under names that are no blob's; it no longer has
    anything under the other blobs' names. The counters still count, and all is committed. *)
Theorem gc_exact s regs :
  gc_ready s → counted (hi s) regs →
  ∃ n m s', gc s = (Ok (n, m), s') ∧ gc_ready s' ∧ counted (hi s') regs ∧
    (∀ i, i ∈ known (hi s') ↔ i ∈ known (hi s) ∧ wanted (hi s) regs i) ∧
    (∀ i h, rows (hi s') !! i = Some h → ∃ h0, rows (hi s) !! i = Some h0 ∧ untag h = untag h0 ∧
       row_ref (tables s') h = row_ref (tables s) h0) ∧
    (∀ i b, schema.blobs (tables s') !! i = Some b ↔
       (∃ t, schema.blobs (tables s) !! i = Some (schema.mkBlob (schema.b_name b) t)) ∧
       schema.b_tag b = num Done ∧ ∃ j h, rows (hi s') !! j = Some h ∧ needs (tables s') h i) ∧
    (∀ x d, (∀ i b, schema.blobs (tables s) !! i = Some b → schema.b_name b = x →
       is_Some (schema.blobs (tables s') !! i)) →
       durable (backend s) x d → durable (backend s') x d) ∧
    (∀ i b d, schema.blobs (tables s) !! i = Some b → schema.blobs (tables s') !! i = None →
       ¬ durable (backend s') (schema.b_name b) d) ∧
    committed (index (hi s')) = tables s'.
Proof.
  intros [Hy Hb Hz] Hc. destruct (gc_run s regs Hc) as (l & es & y3 & Hrun & Hcol & Hes).
  pose proof (hc_ok _ _ _ Hcol) as Hy3. pose proof (hc_rest _ _ _ Hcol) as Hbl.
  set (s3 := lset hi_lens y3 s) in *. pose proof (blobs_ok_hi s y3 Hbl Hb : blobs_ok s3) as Hb3.
  destruct (collect_blobs es s3 Hb3 Hy3 Hes)
    as (s5 & m & E5 & Ehi & Ebl & Hy5 & Hb5 & Hrefs & Hm & Hkept & Hgone).
  set (s6 := lset hi_lens (flush_index (hi s5)).2 s5).
  assert (BlobStore.flush commit_callback s5 = (Ok (), s6)) as E6.
  { unfold BlobStore.flush. rewrite (bind_Ok _ _ _ () s5); [done|].
    apply flush_store_empty. by rewrite Ebl. }
  assert (rows (hi s6) = rows y3) as Er by (change (rows (hi s6)) with (rows (hi s5)); by rewrite Ehi).
  assert (schema.blobs (tables s6) = m) as Em
    by (change (schema.blobs (tables s6)) with (schema.blobs (tables s5)); by rewrite Ehi).
  change (tables s3) with (cur (index y3)) in *. change (hi s3) with y3 in *. rewrite Hbl in *.
  eexists _, _, s6. split; [rewrite Hrun; run_with E5; by run_with E6|].
  split_and!.
  - split; [by apply hat_flush_ok|by destruct Hb5; split|]. change (Crypto.CipherText.len (chunks (blob s5)) = 0). by rewrite Ebl.
  - destruct (hc_counted _ _ _ Hcol) as [_ Hn Hk]. split; [by apply hat_flush_ok| |].
    + intros i. rewrite <- Hn. change (num_of (hi s6) i) with (num_of (hi s5) i). by rewrite Ehi.
    + intros R i HR Hi. unfold known, hat_gc_laws, hat_known. rewrite Er. by eapply Hk.
  - intros i. unfold known, hat_gc_laws, hat_known. rewrite Er. apply (hc_known _ _ _ Hcol).
  - intros i h. rewrite Er. intros Hi. destruct (hc_rows _ _ _ Hcol i h Hi) as (h0 & H0' & Eu).
    exists h0. split_and!; [done..|]. etrans; [apply (Hrefs i h Hi)|].
    etrans; [by apply (row_ref_blobs _ (tables s))|]. change (row_ref (tables s) (untag h) = row_ref (tables s) (untag h0)).
    by rewrite Eu.
  - intros i b. rewrite Em, Hm, Er. do 2 (apply and_iff_compat_l).
    change (tables s6) with (tables s5). unfold needs.
    split; intros (j & h & Hj & Hn); exists j, h; (split; [done|]); revert Hn; by rewrite (Hrefs j h Hj).
  - intros x d. rewrite Em. by apply Hkept.
  - intros i b d. rewrite Em. by apply Hgone.
  - done.
Qed.

End gc.

(** ** A blob that never reached the disk *)
Section missing.
Context `{Sodium} `{LruCache} `{CborLaws Models.ChunkRef} `{CborLaws Models.HashIds}.
Context `{CborLaws Models.HashRef} `{HexLaws}.
Import FileBackend.

Lemma file_delete_run n b :
  ∃ r b', file_delete n b = (r, b') ∧ (r = Ok () ∨ r = Err io_error) ∧
    (∀ p, files b !! p = None → files b' !! p = None) ∧
    (files b !! hex_encode n = None → r = Err io_error).
Proof.
  unfold file_delete, guarded_cache_delete, set_cache, os, gets, set_files, modify, mbind, M_bind.
  cbn. destruct (fails b (calls b)); cbn; [by eauto 10|]. case_bool_decide as Hf; cbn.
  - eexists _, _. split_and!; [done|by left|..]; cbn.
    + intros p Hp. apply lookup_delete_None. by right.
    + intros E. rewrite E in Hf. by destruct Hf.
  - eauto 10.
Qed.

(** Deleting one file that is missing is an error, and it ends the loop. *)
Lemma file_delete_missing (l : list BlobDesc) d b :
  d ∈ l → files b !! hex_encode (name d) = None →
  ∃ b', for_each (λ d, file_delete (name d)) l b = (Err io_error, b').
Proof.
  revert b. induction l as [|d' l IH]; intros b Hd Hb; [by apply elem_of_nil in Hd|]. cbn [for_each].
  destruct (file_delete_run (name d') b) as (r & b1 & E & [->| ->] & Hk & He).
  - run_with E. apply elem_of_cons in Hd as [->|Hd]; [by apply He in Hb|]. apply IH; auto.
  - exists b1. by apply bind_Err.
Qed.

(** C25: A crash after a blob is recorded and before its file is written leaves a row without a
    file. As long as no hash refers to it, every garbage collection on the file backend then
    ends in an error, although the row is there to be deleted. *)
Theorem gc_fails_on_missing_file (s : Store Z FileBackend) regs i b :
  counted (hi s) regs → schema.blobs (cur (index (hi s))) !! i = Some b →
  (∀ i b, schema.blobs (cur (index (hi s))) !! i = Some b → schema.b_name b ≠ []) →
  schema.b_name b ≠ [Byte.x00] → files (backend s) !! hex_encode (schema.b_name b) = None →
  (∀ j h, rows (hi s) !! j = Some h → ¬ needs (cur (index (hi s))) h i) →
  ∃ s', gc s = (Err io_error, s').
Proof.
  intros Hc Hi Hnil H0' Hf Hn. destruct (gc_run s regs Hc) as (l & es & y3 & Hrun & Hcol & Hes).
  pose proof (hc_rest _ _ _ Hcol) as Hbl. rewrite <- Hbl in Hi, Hnil. set (s3 := lset hi_lens y3 s) in *.
  pose proof (tables_blobs _ (index_cur _ (hi_index _ (hg_ok _ (hc_ok _ _ _ Hcol))))) as Hu.
  assert (∀ c, c ∈ omap e_persistent_ref es → chunk.blob_id c = None ∧ chunk.blob_name c ≠ []) as Hrefs.
  { intros c (j & h & _ & Hc')%Hes. destruct (row_ref_name _ _ _ Hc') as [E [[_ ->]|(_ & b' & Hb' & ->)]];
      split; [done|done|done|by eapply Hnil]. }
  destruct (sweep_run es s3 Hu Hrefs) as (lb & E & _ & Hl).
  assert (schema.b_name b ∈ name <$> lb) as Hin.
  { apply Hl. split; [|by exists i, b]. intros Hin. apply list_elem_of_fmap in Hin as (c & Ec & Hc').
    apply Hes in Hc' as (j & h & Hj & Hr). destruct (hc_rows _ _ _ Hcol j h Hj) as (h0 & Hj0 & Eu).
    assert (row_ref (cur (index (hi s))) h0 = Some c) as Hr0.
    { etrans; [by apply (row_ref_blobs _ (cur (index y3)))|]. rewrite <- Eu. exact Hr. }
    destruct (row_ref_name _ _ _ Hr0) as [_ [[_ E0]|(Hlen & b' & Hb' & E0)]]; [congruence|].
    apply (Hn j h0 Hj0). split; [|eauto]. rewrite <- Hbl in Hb'.
    apply (Hu _ _ b' b); [done|done|congruence]. }
  apply list_elem_of_fmap in Hin as (d & Ed & Hd). rewrite Ed in Hf.
  destruct (file_delete_missing lb d (backend s) Hd Hf) as (b' & Eb).
  eexists. rewrite Hrun. apply bind_Err. rewrite E. apply bind_Err.
  rewrite zoom_for_each by apply _. unfold zoom.
  change (for_each (λ d, delete (name d)) lb) with (for_each (λ d, file_delete (name d)) lb).
  change (lget backend_lens _) with (backend s). by rewrite Eb.
Qed.

End missing.

(** ** A run: a registered tree of two hashes in one blob, a stray hash in another, and a third
    blob that nothing refers to *)
Module HatRun.
Import ModelSodium ModelWorld.

#[local] Existing Instance model_sodium.
#[local] Existing Instance model_lru.
#[local] Existing Instance model_hex.
#[local] Existing Instance model_hex_laws.
#[local] Existing Instance cref_cbor.
#[local] Existing Instance cref_laws.
#[local] Existing Instance ids_cbor.
#[local] Existing Instance ids_laws.
#[local] Existing Instance href_cbor.
#[local] Existing Instance href_laws.

#[local] Instance blob_row_eq_dec : EqDecision schema.Blob.
Proof. solve_decision. Defined.
#[local] Instance gc_row_eq_dec : EqDecision schema.GcMetadata.
Proof. solve_decision. Defined.

Definition row_check (t : schema.Tables) (h : schema.Hash) : bool :=
  match chunk.LeafType_from_u64 (as_u64 (schema.leaf_type h)), childs_of_row h,
        decode_chunk_ref (schema.blob_ref h) (joined_blob t h) with
  | Ok _, Ok _, Ok _ => bool_decide (schema.childs h ≠ Some [])
  | _, _, _ => false
  end.

Lemma row_check_sound t h : row_check t h = true → row_decodes t h.
Proof.
  unfold row_check, row_decodes. intros Hc. destruct (chunk.LeafType_from_u64 _); try done.
  destruct (childs_of_row h); try done. destruct (decode_chunk_ref _ _); try done.
  apply bool_decide_eq_true in Hc. eauto 10.
Qed.

Definition stray_entry : hash.Entry :=
  hash.mkEntry [Byte.x03] chunk.Leaf Models.FileChunk None
    (Some (chunk.mkChunkRef (Some 2%Z) [Byte.x0b] 3 5 None None)).

Definition run6 : HashIndex := (reserve stray_entry run5).2.
Definition run7 : HashIndex := (commit 3 None run6).2.

Definition three_blobs : gmap Z schema.Blob :=
  <[1%Z := schema.mkBlob [Byte.x0a] 0]> (<[2%Z := schema.mkBlob [Byte.x0b] 0]>
    (<[3%Z := schema.mkBlob [Byte.x0c] 2]> ∅)).

(** The leaf is tagged while its tree is being stored. *)
Definition idle : HashIndex := (HashIndex.set_tag 1 Reserved (hat_blobs three_blobs run7)).2.
Definition registered : HashIndex := (GcRc.rc_register_final (mkSnapshotInfo 1 1 1) 2 idle).2.

Lemma run7_ok : HashIndex_ok run7.
Proof.
  apply (reachable_ok run0); [apply run0_ok|]. etrans; [exact run5_reachable|].
  eapply rtc_l; [|eapply rtc_l; [|apply rtc_refl]].
  - destruct (ok_run_snd (reserve stray_entry run5)) as [r E]; [vm_compute; reflexivity|].
    eapply hs_reserve; [| |exact E]; [vm_compute; reflexivity|constructor].
  - destruct (ok_run_snd (commit 3 None run6)) as [[] E]; [vm_compute; reflexivity|].
    eapply hs_commit; [|exact E]. done.
Qed.

Lemma three_names : unique_names three_blobs.
Proof.
  assert (map_Forall (λ i a, map_Forall (λ j b, schema.b_name a = schema.b_name b → i = j) three_blobs) three_blobs)
    as Hu by (apply (bool_decide_unpack _); vm_compute; exact I).
  intros i j a b Ha Hb. eapply map_Forall_lookup_1 in Ha; [|exact Hu].
  cbv beta in Ha. eapply map_Forall_lookup_1 in Hb; [|exact Ha]. exact Hb.
Qed.

Lemma idle_ok : hat_gc_ok idle.
Proof.
  pose proof (HashIndex_ok_blobs three_blobs run7 run7_ok three_names) as Hok.
  split; [exact (set_tag_pres (Some 1%Z) Reserved _ Hok)|by vm_compute|].
  assert (map_Forall (λ _ h, row_check (cur (index idle)) h = true) (rows idle)) as Hr
    by (apply (bool_decide_unpack _); vm_compute; exact I).
  intros i h Hi. apply row_check_sound. by eapply map_Forall_lookup_1 in Hi; [|exact Hr].
Qed.

Lemma idle_counted : counted idle [].
Proof.
  split; [apply idle_ok| |by intros R i ?%elem_of_nil]. intros i.
  assert (schema.gc_metadata (cur (index idle)) = ∅) as Hg by by apply (bool_decide_unpack _); vm_compute.
  unfold num_of, hat_gc_laws, hat_num. by rewrite Hg, lookup_empty.
Qed.

Definition top : gset Z := {[2%Z]} ∪ GcOk.reserved idle.

Lemma both_counted : counted registered [top].
Proof.
  assert (2%Z ∈ known idle) as H2 by (by apply (bool_decide_unpack _); vm_compute).
  destruct (twp_inv _ _ _ (register_ok (mkSnapshotInfo 1 1 1) 2 idle [] idle_counted H2 ltac:(simpl; lia)))
    as ([] & y & E & Hc & _). unfold registered. by rewrite E.
Qed.

(** The files of the blobs and of an object that is no blob. *)
Definition all_files : gmap bytes bytes :=
  <[[Byte.x0a] := [Byte.x01]]> (<[[Byte.x0b] := [Byte.x02]]> (<[[Byte.x0c] := [Byte.x04]]>
    (<[lit "root" := [Byte.x03]]> ∅))).

Definition repository {B} (b : B) : Store Z B :=
  mkStore registered 2 BlobSpec.the_keeper b (mkBlobDesc [] 3) []
    (mkBlob _ BlobSpec.the_keeper [] Crypto.CipherText.empty [] 0 4000) (lru_new 10) 0 [].

Lemma registered_blobs : schema.blobs (cur (index registered)) = three_blobs.
Proof. by apply (bool_decide_unpack _); vm_compute. Qed.

Lemma repository_ready : gc_ready (repository (MemoryBackend.mkMemory all_files)).
Proof.
  split; [apply both_counted| |done].
  split; rewrite ?registered_blobs; [apply three_names| | |done].
  - assert (map_Forall (λ _ b, schema.b_name b ≠ [] ∧ schema.b_name b ≠ [Byte.x00]) three_blobs) as Hb
      by (apply (bool_decide_unpack _); vm_compute; exact I).
    intros i b Hi. by eapply map_Forall_lookup_1 in Hi; [|exact Hb].
  - assert (map_Forall (λ _ b, is_Some (all_files !! schema.b_name b)) three_blobs) as Hb
      by (apply (bool_decide_unpack _); vm_compute; exact I).
    intros i b Hi. eapply map_Forall_lookup_1 in Hi; [|exact Hb]. exact Hi.
Qed.

(** The stray hash and its blob go, the tree stays. *)
Lemma gc_exact_witness :
  ∃ n m s', gc (repository (MemoryBackend.mkMemory all_files)) = (Ok (n, m), s') ∧
    1%Z ∈ known (hi s') ∧ durable (Cb := list Z) (backend s') (lit "root") [Byte.x03].
Proof.
  destruct (gc_exact (repository (MemoryBackend.mkMemory all_files)) [top] repository_ready both_counted)
    as (n & m & s' & E & _ & _ & Hk & _ & _ & Hd & _).
  exists n, m, s'. split; [exact E|]. split.
  - apply Hk. split; [by apply (bool_decide_unpack _); vm_compute|]. exists top, 1%Z.
    split; [by constructor|]. split; [|apply rtc_refl].
    by apply (bool_decide_unpack _); vm_compute.
  - apply Hd; [|done]. intros i b Hi E'. exfalso.
    assert (map_Forall (λ _ b, schema.b_name b ≠ lit "root") three_blobs) as Hb
      by (apply (bool_decide_unpack _); vm_compute; exact I).
    change (cur (index (hi (repository (MemoryBackend.mkMemory all_files))))) with (cur (index registered)) in Hi.
    rewrite registered_blobs in Hi. exact (map_Forall_lookup_1 _ _ _ _ Hb Hi E').
Defined.

(** The same tables on a disk that lacks the third blob's file. *)
Lemma gc_fails_on_missing_file_witness :
  ∃ s', gc (repository (FileBackend.new ∅ (λ _, false))) = (Err FileBackend.io_error, s').
Proof.
  apply (gc_fails_on_missing_file (repository (FileBackend.new ∅ (λ _, false))) [top] 3 (schema.mkBlob [Byte.x0c] 2)).
  - exact both_counted.
  - change (schema.blobs (cur (index registered)) !! 3%Z = Some (schema.mkBlob [Byte.x0c] 2)).
    by rewrite registered_blobs.
  - intros i b Hi. apply (bo_names _ (gy_blobs _ repository_ready) i b Hi).
  - done.
  - done.
  - intros j h Hj [Hn _]. assert (map_Forall (λ _ h, schema.blob_id h ≠ 3%Z) (rows registered)) as Hr
      by (apply (bool_decide_unpack _); vm_compute; exact I).
    by eapply map_Forall_lookup_1 in Hj; [|exact Hr].
Defined.

End HatRun.
