(* ===== verification/KeyIndex.v ===== *)
(** * The index of keys: key/index.rs, key/schema.rs and the migration create_keys

    One SQLite database per family with two tables: [key_tree], the directory tree (a node's
    parent and name), and [key_data], what is known of a node, under [(node_id, committed)]: a
    row of the snapshot in progress and one of the last snapshot. Tables, queries, transaction
    and crash are modelled as in Db.v. [PRAGMA foreign_keys = ON]: a parent and a row's node
    must exist, and deleting a node deletes what is below it and its rows. *)

From S2P Require Import Prelude Utf8 Cbor Refs Ordered Timer Db.
From S2P Require Models.
Import Ordered.tags (Tag, num).

(** ** key/schema.rs *)
Module key_schema.

Record KeyNode := mkKeyNode { parent_id : option Z; name : bytes }.

Record KeyData := mkKeyData {
  tag : Z;
  created : option Z;
  modified : option Z;
  accessed : option Z;
  permissions : option Z;
  user_id : option Z;
  group_id : option Z;
  symbolic_link_path : option bytes;
  file_size : option Z;
  hash : option bytes;
  hash_ref : option bytes;
}.

Record Tables := mkTables {
  key_tree : gmap Z KeyNode;
  key_data : gmap (Z * bool) KeyData;
}.

Definition empty : Tables := mkTables ∅ ∅.

#[global] Instance KeyNode_eq_dec : EqDecision KeyNode.
Proof. solve_decision. Defined.

#[global] Instance KeyData_eq_dec : EqDecision KeyData.
Proof. solve_decision. Defined.

(** [SET tag = ..] *)
Definition set_tag (t : Tag) (d : KeyData) : KeyData :=
  mkKeyData (num t) (created d) (modified d) (accessed d) (permissions d) (user_id d)
    (group_id d) (symbolic_link_path d) (file_size d) (hash d) (hash_ref d).

End key_schema.
Import key_schema (KeyNode, mkKeyNode, KeyData, mkKeyData, key_tree, key_data).

(** ** Constraints and joins *)

(** A node is below [top] (or [top] itself) when its chain of parents meets [top]; a chain has
    at most as many nodes as the table. *)
Fixpoint below_go (fuel : nat) (t : gmap Z KeyNode) (top k : Z) : bool :=
  if decide (k = top) then true
  else match fuel, t !! k with
       | S fuel, Some n =>
           match key_schema.parent_id n with
           | Some p => below_go fuel t top p
           | None => false
           end
       | _, _ => false
       end.

Definition below (t : gmap Z KeyNode) (top k : Z) : bool := below_go (size t) t top k.

(** [DELETE FROM key_tree WHERE node_id = id], with its [ON DELETE CASCADE]s. *)
Definition delete_node (id : Z) (t : key_schema.Tables) : key_schema.Tables :=
  match key_tree t !! id with
  | None => t
  | Some _ => key_schema.mkTables
      (delete_where (λ k _, below (key_tree t) id k) (key_tree t))
      (delete_where (λ k _, below (key_tree t) id k.1) (key_data t))
  end.

(** [INSERT INTO key_tree]: the parent must exist, (parent, name) is unique where there is a
    parent (a unique index takes no NULL for equal to another). *)
Definition insert_node (n : KeyNode) (t : key_schema.Tables) : res (Z * key_schema.Tables) :=
  match key_schema.parent_id n with
  | Some p => if decide (is_Some (key_tree t !! p)) then Ok () else Err DieselError
  | None => Ok ()
  end ;;
  let row_id := next_rowid (key_tree t) in
  let taken (n' : KeyNode) :=
    bool_decide (is_Some (key_schema.parent_id n)) && bool_decide (n' = n) in
  tree ← insert_row taken row_id n (key_tree t);
  Ok (row_id, key_schema.mkTables tree (key_data t)).

(** [INSERT INTO key_data]: the node must exist; a row with the same key is replaced. *)
Definition insert_data (id : Z) (committed : bool) (d : KeyData) (t : key_schema.Tables)
    : res key_schema.Tables :=
  if decide (is_Some (key_tree t !! id)) then
    Ok (key_schema.mkTables (key_tree t) (<[(id, committed) := d]> (key_data t)))
  else Err DieselError.

(** [key_tree INNER JOIN key_data]: node, id, whether committed, and row. *)
Definition join_row (t : key_schema.Tables) (r : (Z * bool) * KeyData)
    : option (Z * KeyNode * bool * KeyData) :=
  (λ n, (r.1.1, n, r.1.2, r.2)) <$> key_tree t !! r.1.1.

Definition inner_join (t : key_schema.Tables) : list (Z * KeyNode * bool * KeyData) :=
  omap (join_row t) (map_to_list (key_data t)).

(** The rows of a parent's children: [parent_id = p], or [parent_id IS NULL]. *)
Definition children_rows (parent : option Z) (t : key_schema.Tables) :=
  filter (λ '(_, n, _, _), key_schema.parent_id n = parent) (inner_join t).

(** [ORDER BY committed]: false comes first. *)
Definition order_by_committed (l : list (Z * KeyNode * bool * KeyData)) :=
  filter (λ '(_, _, c, _), c = false) l ++ filter (λ '(_, _, c, _), c = true) l.

(** [UPDATE key_data SET committed = true WHERE tag = Reserved AND committed = false]: the
    row takes the place of one that is already there. *)
Definition reserved_data (d : KeyData) : bool :=
  bool_decide (key_schema.tag d = num tags.Reserved).

Definition promote (m : gmap (Z * bool) KeyData) : gmap (Z * bool) KeyData :=
  foldr (λ r m, <[(r.1.1, true) := r.2]> (base.delete r.1 m)) m
    (select (λ k d, negb k.2 && reserved_data d) m).

(** ** key/index.rs *)

Record InternalKeyIndex := mkKeyIndex {
  cur : key_schema.Tables;
  committed : key_schema.Tables;
  last_rowid : Z;
  flush_timer : PeriodicTimer.PeriodicTimer;
  clock : Clock;
}.

Definition set_cur (t : key_schema.Tables) (x : InternalKeyIndex) : InternalKeyIndex :=
  mkKeyIndex t (committed x) (last_rowid x) (flush_timer x) (clock x).

Definition kcur_lens : lens InternalKeyIndex key_schema.Tables := Lens cur set_cur.
Definition ktimer_lens : lens InternalKeyIndex (PeriodicTimer.PeriodicTimer * Clock) :=
  Lens (λ x, (flush_timer x, clock x))
    (λ tc x, mkKeyIndex (cur x) (committed x) (last_rowid x) tc.1 tc.2).

Abbreviation KI := (M InternalKeyIndex).

(** A statement that can violate a constraint changes nothing when it does. *)
Definition execute (f : key_schema.Tables → res key_schema.Tables) : KI unit := λ x,
  match f (cur x) with
  | Ok t => (Ok (), set_cur t x)
  | Err e => (Err e, x)
  | Panic => (Panic, x)
  | Diverge => (Diverge, x)
  end.

Section Index.
Context `{Cbor Models.HashRef}.

(** [InternalKeyIndex::new] on the tables of the file; five seconds in the clock's unit. *)
Definition KeyIndex_new (file : key_schema.Tables) (five_seconds : Z) (clk : Clock)
    : res InternalKeyIndex :=
  let '(t, clk) := PeriodicTimer.new five_seconds clk in
  t ← t;
  let not_done _ d := negb (bool_decide (key_schema.tag d = num tags.Done)) in
  Ok (mkKeyIndex
    (key_schema.mkTables (key_tree file)
       (update not_done (key_schema.set_tag tags.Done) (key_data file)))
    file 0 t clk).

(** What the next process finds. *)
Definition crash (x : InternalKeyIndex) : key_schema.Tables := committed x.

Definition last_insert_rowid : KI Z := gets last_rowid.

Definition flush : KI unit :=
  modify (λ x, mkKeyIndex (cur x) (cur x) (last_rowid x) (flush_timer x) (clock x)).

Definition maybe_flush : KI unit :=
  fired ← zoom ktimer_lens PeriodicTimer.did_fire;
  if fired : bool then flush else mret ().

(** [insert_into(key_tree)]; the connection remembers the rowid. *)
Definition insert_into_tree (n : KeyNode) : KI unit := λ x,
  match insert_node n (cur x) with
  | Ok (i, t) => (Ok (), mkKeyIndex t (committed x) i (flush_timer x) (clock x))
  | Err e => (Err e, x)
  | Panic => (Panic, x)
  | Diverge => (Diverge, x)
  end.

Definition set_node_id (i : option Z) (e : key.Entry) : key.Entry :=
  key.mkEntry i (key.parent_id e) (key.data e) (key.info e).

(** The row of an entry; [path.to_str()] is nothing for a link that is no UTF-8. *)
Definition new_key_data (e : key.Entry) (link_path : option bytes)
    (hash_ref_opt : option tree.HashRef) : KeyData := {|
  key_schema.tag := num tags.Reserved;
  key_schema.created := key.created_ts_secs (key.info e);
  key_schema.modified := key.modified_ts_secs (key.info e);
  key_schema.accessed := key.accessed_ts_secs (key.info e);
  key_schema.permissions := key.permissions (key.info e);
  key_schema.user_id := (λ u, as_i64 u) <$> key.user_id (key.info e);
  key_schema.group_id := (λ u, as_i64 u) <$> key.group_id (key.info e);
  key_schema.symbolic_link_path := link_path;
  key_schema.file_size := (λ b, as_i64 b) <$> key.byte_length (key.info e);
  key_schema.hash := tree.hash <$> hash_ref_opt;
  key_schema.hash_ref := tree.as_bytes <$> hash_ref_opt;
|}.

Definition link_path_of (d : key.Data) : res (option bytes) :=
  match d with
  | key.DirPlaceholder | key.FilePlaceholder => Ok None
  | key.Symlink path => Ok (from_utf8 path)
  | key.FileHash _ => Panic
  end.

Definition insert (entry : key.Entry) (hash_ref_opt : option tree.HashRef) : KI key.Entry :=
  let name_bytes := Models.FileName_into_vec (key.name (key.info entry)) in
  entry ← match key.node_id entry with
          | Some _ => mret entry
          | None =>
              insert_into_tree (mkKeyNode ((λ p, as_i64 p) <$> key.parent_id entry) name_bytes) ;;
              i ← last_insert_rowid;
              mret (set_node_id (Some (as_u64 i)) entry)
          end;
  link_path ← lift (link_path_of (key.data entry));
  lift (assert_ (¬ (is_Some link_path ∧ is_Some hash_ref_opt))) ;;
  id ← lift (expect (key.node_id entry));
  execute (insert_data (as_i64 id) false (new_key_data entry link_path hash_ref_opt)) ;;
  maybe_flush ;;
  mret entry.

(** The information of a row under a name. *)
Definition row_info (name : Models.FileName) (d : KeyData) : key.Info := {|
  key.name := name;
  key.created_ts_secs := key_schema.created d;
  key.modified_ts_secs := key_schema.modified d;
  key.accessed_ts_secs := key_schema.accessed d;
  key.permissions := (λ m, as_u32 m) <$> key_schema.permissions d;
  key.user_id := (λ x, as_u64 x) <$> key_schema.user_id d;
  key.group_id := (λ x, as_u64 x) <$> key_schema.group_id d;
  key.byte_length := (λ x, as_u64 x) <$> key_schema.file_size d;
  key.snapshot_ts_utc := 0;
|}.

Definition lookup (parent : option Z) (name_ : Models.FileName) : KI (option key.Entry) :=
  t ← gets cur;
  let name_bytes := Models.FileName_into_vec name_ in
  let rows := filter (λ '(_, n, _, _), key_schema.name n = name_bytes)
                (children_rows ((λ p, as_i64 p) <$> parent) t) in
  match head (order_by_committed rows) with
  | None => mret None
  | Some (id, node, _, d) =>
      mret (Some (key.mkEntry (Some (as_u64 id)) ((λ p, as_u64 p) <$> key_schema.parent_id node)
        (match key_schema.hash d with Some h => key.FileHash h | None => key.DirPlaceholder end)
        (row_info name_ d)))
  end.

(** One row of a listing. *)
Definition list_row (r : Z * KeyNode * bool * KeyData) : res (key.Entry * option tree.HashRef) :=
  let '(id, node, _, d) := r in
  data ← match key_schema.hash d, key_schema.symbolic_link_path d with
         | Some _, None => Ok key.FilePlaceholder
         | None, None => Ok key.DirPlaceholder
         | None, Some path => p ← expect (from_utf8 path); Ok (key.Symlink p)
         | Some _, Some _ => Panic
         end;
  href ← match key_schema.hash_ref d with
         | None => Ok None
         | Some p => h ← unwrap (tree.from_bytes p); Ok (Some h)
         end;
  Ok (key.mkEntry (Some (as_u64 id)) ((λ i, as_u64 i) <$> key_schema.parent_id node) data
        (row_info (Models.FileName_from_vec (key_schema.name node)) d), href).

Definition list_dir (parent_opt : option Z) : KI (list (key.Entry * option tree.HashRef)) :=
  t ← gets cur;
  let rows := filter (λ '(_, _, c, _), c = true)
                (children_rows ((λ p, as_i64 p) <$> parent_opt) t) in
  mapM' (λ r, lift (list_row r)) rows.

Definition on_data (f : gmap (Z * bool) KeyData → gmap (Z * bool) KeyData) : KI unit :=
  execute (λ t, Ok (key_schema.mkTables (key_tree t) (f (key_data t)))).

Definition mark_reserved (entry : key.Entry) : KI unit :=
  id ← lift (expect (key.node_id entry));
  on_data (update (λ k _, bool_decide (k.1 = as_i64 id)) (key_schema.set_tag tags.Reserved)).

Definition commit_reserved_nodes : KI unit := on_data promote.

(** The recursion goes down the tree: the number of nodes is enough for its depth. *)
Fixpoint cleanup_unused_go (fuel : nat) (parent_opt : option Z) : KI unit :=
  match fuel with
  | O => diverge
  | S fuel =>
      t ← gets cur;
      for_each (λ '(id, _, _, d),
        if reserved_data d then cleanup_unused_go fuel (Some (as_u64 id))
        else execute (λ t, Ok (delete_node id t)))
        (children_rows ((λ p, as_i64 p) <$> parent_opt) t) ;;
      flush
  end.

Definition cleanup_unused (parent_opt : option Z) : KI unit :=
  t ← gets cur;
  cleanup_unused_go (S (S (size (key_tree t)))) parent_opt.

End Index.
