(* ===== verification/KeyIndexOk.v ===== *)
(** * The index of keys: its invariant and its operations

    The tables stay in order over all operations: ids grow from parent to child, a parent's
    names differ, every node has a row and every row a node. *)

From S2P Require Import Prelude Utf8 Cbor Refs Ordered Timer Db KeyIndex.
From S2P Require Models.
Import Ordered.tags (Tag, num).
Import key_schema (KeyNode, mkKeyNode, KeyData, mkKeyData, key_tree, key_data).

(** ** Ancestors *)

Definition parent_step (t : gmap Z KeyNode) (k p : Z) : Prop :=
  ∃ n, t !! k = Some n ∧ key_schema.parent_id n = Some p.

(** Ids grow from parent to child, and a parent is there. *)
Definition tree_ok (t : gmap Z KeyNode) : Prop :=
  ∀ k n, t !! k = Some n → (0 < k < 2 ^ 63)%Z ∧
    ∀ p, key_schema.parent_id n = Some p → (p < k)%Z ∧ is_Some (t !! p).

Lemma parent_step_lt t k p : tree_ok t → parent_step t k p → (p < k)%Z ∧ is_Some (t !! p).
Proof. intros Ht (n & Hk & Hp). by apply (Ht k n Hk). Qed.

Lemma chain_le t k p : tree_ok t → rtc (parent_step t) k p → (p ≤ k)%Z.
Proof.
  intros Ht. induction 1 as [|k q p Hs _ IH]; [lia|].
  apply parent_step_lt in Hs as [? _]; [lia|done].
Qed.

Lemma chain_in t k p : tree_ok t → is_Some (t !! k) → rtc (parent_step t) k p → is_Some (t !! p).
Proof.
  intros Ht Hk. induction 1 as [|k q p Hs _ IH]; [done|].
  apply IH. by apply parent_step_lt in Hs as [_ ?].
Qed.

(** The number of nodes up to an id. *)
Definition count_upto (t : gmap Z KeyNode) (k : Z) : nat :=
  size (filter (λ kr, kr.1 ≤ k)%Z t).

Lemma count_upto_lt t k p : is_Some (t !! k) → (p < k)%Z → count_upto t p < count_upto t k.
Proof.
  intros [n Hn] Hlt. unfold count_upto.
  rewrite <- !size_dom. apply subset_size. split.
  - intros i Hi%elem_of_dom. apply elem_of_dom. destruct Hi as [m Hm].
    apply map_lookup_filter_Some in Hm as [Hm Hle]. exists m.
    apply map_lookup_filter_Some. simpl in *. split; [done|lia].
  - intros Hsub. assert (k ∈ dom (filter (λ kr, kr.1 ≤ p)%Z t)) as Hin.
    { apply Hsub, elem_of_dom. exists n. apply map_lookup_filter_Some. simpl. split; [done|lia]. }
    apply elem_of_dom in Hin as [m Hm]. apply map_lookup_filter_Some in Hm as [_ Hle].
    simpl in Hle. lia.
Qed.

Lemma count_upto_size t k : count_upto t k ≤ size t.
Proof.
  unfold count_upto. rewrite <- !size_dom. apply subseteq_size.
  apply dom_filter_subseteq.
Qed.

Lemma below_go_spec t top k fuel :
  tree_ok t → count_upto t k ≤ fuel → is_Some (t !! k) →
  below_go fuel t top k = true ↔ rtc (parent_step t) k top.
Proof.
  intros Ht. revert k. induction fuel as [|fuel IH]; intros k Hf Hk.
  { exfalso. pose proof (count_upto_lt t k (k - 1) Hk ltac:(lia)). lia. }
  cbn [below_go]. case_decide as Hd; [subst; split; [constructor|done]|].
  pose proof Hk as [n Hn]. rewrite Hn. destruct (key_schema.parent_id n) as [p|] eqn:Hp.
  - assert (parent_step t k p) as Hs by (by exists n).
    pose proof (parent_step_lt _ _ _ Ht Hs) as [Hlt Hip].
    pose proof (count_upto_lt t k p Hk Hlt). rewrite IH by (done || lia). split.
    + intros. by eapply rtc_l.
    + intros Hc. inversion Hc as [|? q ? (n' & Hn' & Hq) Hc']; [done|]. simplify_eq. done.
  - split; [done|]. intros Hc. inversion Hc as [|? q ? (n' & Hn' & Hq) Hc']; [done|]. simplify_eq.
Qed.

(** [below] is the reflexive transitive closure of [parent_step]. *)
Lemma below_spec t top k :
  tree_ok t → is_Some (t !! k) → below t top k = true ↔ rtc (parent_step t) k top.
Proof. intros. apply below_go_spec; [done| |done]. apply count_upto_size. Qed.

(** ** The invariant *)

Section Ok.
Context `{CborLaws Models.HashRef}.

(** A row that a listing can show. *)
Definition listable (d : KeyData) : Prop := ∀ i n, ∃ r, list_row (i, n, true, d) = Ok r.

Record Tables_ok (t : key_schema.Tables) : Prop := {
  ok_tree : tree_ok (key_tree t);
  ok_unique : ∀ k1 k2 n, key_tree t !! k1 = Some n → key_tree t !! k2 = Some n → k1 = k2;
  ok_node : ∀ k c d, key_data t !! (k, c) = Some d → is_Some (key_tree t !! k) ∧ listable d;
  ok_data : ∀ k n, key_tree t !! k = Some n → ∃ c, is_Some (key_data t !! (k, c));
}.

Lemma no_keys_ok : Tables_ok key_schema.empty.
Proof. split; repeat intro; exfalso; simpl in *; simplify_map_eq. Qed.

Lemma listable_set_tag tg d : listable d → listable (key_schema.set_tag tg d).
Proof. intros Hd i n. destruct (Hd i n) as [r Hr]. exists r. by destruct d. Qed.

Lemma update_tags_ok t tg p :
  Tables_ok t → Tables_ok (key_schema.mkTables (key_tree t)
    (update p (key_schema.set_tag tg) (key_data t))).
Proof.
  intros [Ht Hu Hn Hd]. split; simpl; [done|done| |].
  - intros k c d. rewrite lookup_update. destruct (key_data t !! (k, c)) as [d'|] eqn:E; [|done].
    simpl. destruct (Hn _ _ _ E) as [? Hl]. intros [= <-]. split; [done|].
    case_match; [by apply listable_set_tag|done].
  - intros k n Hk. destruct (Hd k n Hk) as [c [d Hc]]. exists c.
    rewrite lookup_update, Hc. by eexists.
Qed.

Lemma KeyIndex_new_ok t s c x :
  Tables_ok t → KeyIndex_new t s c = Ok x → Tables_ok (cur x) ∧ committed x = t ∧
    key_tree (cur x) = key_tree t ∧
    ∀ k d, key_data (cur x) !! k = Some d → key_schema.tag d = num tags.Done.
Proof.
  intros Ht. unfold KeyIndex_new. cbn. intros [= <-]. split_and!; simpl; [|done|done|].
  - by apply update_tags_ok.
  - intros k d. rewrite lookup_update. destruct (key_data t !! k) as [d'|]; [|done].
    simpl. case_bool_decide; simpl; intros [= <-]; [done|]. by destruct d'.
Qed.

Lemma max_key_fresh (t : gmap Z KeyNode) : t !! next_rowid t = None.
Proof.
  destruct (t !! next_rowid t) as [n|] eqn:E; [|done].
  destruct (max_key_bound _ _ _ E) as (m & Hm & Hle). unfold next_rowid in *.
  rewrite Hm in Hle. simpl in Hle. lia.
Qed.

Lemma next_rowid_above t k : is_Some (t !! k) → tree_ok t → (0 < k < next_rowid t)%Z.
Proof.
  intros [n Hn] Ht. destruct (max_key_bound _ _ _ Hn) as (m & Hm & Hle). unfold next_rowid.
  rewrite Hm. simpl. destruct (Ht _ _ Hn). lia.
Qed.

Lemma next_rowid_pos t : tree_ok t → (0 < next_rowid t)%Z.
Proof.
  intros Ht. unfold next_rowid. destruct (max_key t) as [m|] eqn:E; simpl; [|lia].
  destruct (max_key_in _ _ E) as [n Hn]. destruct (Ht _ _ Hn). lia.
Qed.

Lemma next_rowid_insert t n : tree_ok t → (next_rowid (<[next_rowid t := n]> t) ≤ next_rowid t + 1)%Z.
Proof.
  intros Ht. pose proof (next_rowid_pos t Ht). set (k := next_rowid t) in *.
  assert (∀ m, is_Some (<[k := n]> t !! m) → (m ≤ k)%Z) as Hle.
  { intros m [->|[_ Hm]]%lookup_insert_is_Some; [done|]. apply next_rowid_above in Hm; [|done]. unfold k. lia. }
  unfold next_rowid. destruct (max_key (<[k := n]> t)) as [m|] eqn:E; simpl; [|lia].
  specialize (Hle m ltac:(by apply max_key_in in E)). lia.
Qed.

(** Where no node has this parent and name, one is inserted if the parent is there. *)
Lemma insert_node_run t n :
  Tables_ok t → (∀ k, key_tree t !! k ≠ Some n) →
  (∀ p, key_schema.parent_id n = Some p → is_Some (key_tree t !! p)) →
  insert_node n t = Ok (next_rowid (key_tree t),
    key_schema.mkTables (<[next_rowid (key_tree t) := n]> (key_tree t)) (key_data t)).
Proof.
  intros Ht Hn Hp. unfold insert_node.
  assert (∀ k n' b, key_tree t !! k = Some n' → b && bool_decide (n' = n) = false) as Hfr.
  { intros k n' b Hk. rewrite bool_decide_false by naive_solver. apply andb_false_r. }
  destruct (key_schema.parent_id n) as [p|] eqn:E.
  - rewrite decide_True by auto. simpl.
    rewrite insert_row_Ok; [done|apply max_key_fresh|intros ?? Hk; apply (Hfr _ _ true Hk)].
  - simpl. rewrite insert_row_Ok; [done|apply max_key_fresh|done].
Qed.

Lemma insert_tree_ok t n :
  tree_ok t → (next_rowid t < 2 ^ 63)%Z →
  (∀ p, key_schema.parent_id n = Some p → is_Some (t !! p)) →
  tree_ok (<[next_rowid t := n]> t).
Proof.
  intros Ht Hlt Hp k m. destruct (decide (k = next_rowid t)) as [->|Hne].
  - rewrite lookup_insert_eq. intros [= <-]. split; [split; [by apply next_rowid_pos|done]|].
    intros p Hpp. specialize (Hp p Hpp). split; [by apply next_rowid_above|].
    by apply lookup_insert_is_Some'; right.
  - rewrite lookup_insert_ne by done. intros Hk. destruct (Ht k m Hk) as [? Hq]. split; [done|].
    intros p Hpp. destruct (Hq p Hpp). split; [done|].
    by apply lookup_insert_is_Some'; right.
Qed.

(** A new node with its row. *)
Lemma insert_new_ok t n d :
  Tables_ok t → (next_rowid (key_tree t) < 2 ^ 63)%Z → (∀ k, key_tree t !! k ≠ Some n) →
  (∀ p, key_schema.parent_id n = Some p → is_Some (key_tree t !! p)) → listable d →
  Tables_ok (key_schema.mkTables (<[next_rowid (key_tree t) := n]> (key_tree t))
    (<[(next_rowid (key_tree t), false) := d]> (key_data t))).
Proof.
  intros [Ht Hu Hn Hd] Hlt Hfr Hp Hl. split; simpl.
  - by apply insert_tree_ok.
  - intros k1 k2 m. rewrite !lookup_insert_Some. naive_solver.
  - intros k c d'. rewrite lookup_insert_Some. intros [[[= <- <-] <-]|[_ Hk]].
    + split; [|done]. apply lookup_insert_is_Some'. by left.
    + destruct (Hn _ _ _ Hk). split; [|done]. apply lookup_insert_is_Some'. by right.
  - intros k m. rewrite lookup_insert_Some. intros [[<- <-]|[Hne Hk]].
    + exists false. apply lookup_insert_is_Some'. by left.
    + destruct (Hd _ _ Hk) as [c Hc]. exists c. apply lookup_insert_is_Some'. by right.
Qed.

Lemma insert_data_ok t k d :
  Tables_ok t → is_Some (key_tree t !! k) → listable d →
  Tables_ok (key_schema.mkTables (key_tree t) (<[(k, false) := d]> (key_data t))).
Proof.
  intros [Ht Hu Hn Hd] Hk Hl. split; simpl; [done|done| |].
  - intros k' c d'. rewrite lookup_insert_Some. naive_solver.
  - intros k' m Hm. destruct (Hd _ _ Hm) as [c Hc]. exists c.
    apply lookup_insert_is_Some'. by right.
Qed.

(** Deleting a node with what is below it. *)
Lemma delete_node_ok t id :
  Tables_ok t → Tables_ok (delete_node id t).
Proof.
  intros Hok. pose proof Hok as [Ht Hu Hn Hd]. unfold delete_node.
  destruct (key_tree t !! id) as [nid|] eqn:Eid; [|done].
  assert (∀ k n, delete_where (λ k _, below (key_tree t) id k) (key_tree t) !! k = Some n ↔
    key_tree t !! k = Some n ∧ ¬ rtc (parent_step (key_tree t)) k id) as Hdel.
  { intros k n. rewrite lookup_delete_where. split; intros [Hk Hb]; (split; [done|]).
    - intros Hc. apply below_spec in Hc; [|done|by eexists]. congruence.
    - apply not_true_is_false. intros Hb'. apply Hb. by apply below_spec; [done|eexists|]. }
  split; simpl.
  - intros k n [Hk Hb]%Hdel. destruct (Ht k n Hk) as [? Hp]. split; [done|].
    intros p Hpp. destruct (Hp p Hpp) as [? [m Hm]]. split; [done|]. exists m.
    apply Hdel. split; [done|]. intros Hc. apply Hb. eapply rtc_l; [|done]. by exists n.
  - intros k1 k2 n [Hk1 _]%Hdel [Hk2 _]%Hdel. by eapply Hu.
  - intros k c d [Hk Hb]%lookup_delete_where. simpl in Hb. destruct (Hn _ _ _ Hk) as [[n Hn'] ?].
    split; [|done]. exists n. by apply lookup_delete_where.
  - intros k n [Hk Hb]%Hdel. destruct (Hd k n Hk) as [c [d Hc]]. exists c, d.
    apply lookup_delete_where. split; [done|]. simpl. apply not_true_is_false.
    intros Hb'. apply Hb. by apply below_spec; [done|eexists|].
Qed.

End Ok.

(** ** Promotion of the rows in progress *)

Section promote.
Implicit Types (m : gmap (Z * bool) KeyData) (l : list ((Z * bool) * KeyData)).

Abbreviation step := (λ (r : (Z * bool) * KeyData) (m : gmap (Z * bool) KeyData),
  <[(r.1.1, true) := r.2]> (base.delete r.1 m)).

Lemma promote_fold m l :
  (∀ k c d, ((k, c), d) ∈ l → c = false) → NoDup l.*1 →
  (∀ k d, ((k, false), d) ∈ l →
    foldr step m l !! (k, true) = Some d ∧ foldr step m l !! (k, false) = None) ∧
  (∀ k, (k, false) ∉ l.*1 → ∀ c, foldr step m l !! (k, c) = m !! (k, c)).
Proof.
  induction l as [|[[k0 c0] d0] l IH]; intros Hf Hnd; [by split; [intros ?? ?%elem_of_nil|]|].
  assert (c0 = false) as -> by (eapply Hf; by left). simpl in *.
  apply NoDup_cons in Hnd as [Hni Hnd]. destruct IH as [IH1 IH2]; [|done|].
  { intros. eapply Hf. by right. }
  split.
  - intros k d [[= -> ->]|Hin]%elem_of_cons.
    + split; [apply lookup_insert_eq|]. rewrite lookup_insert_ne by congruence.
      apply lookup_delete_eq.
    + destruct (decide (k = k0)) as [->|Hne].
      { destruct Hni. apply (list_elem_of_fmap_2 fst) in Hin. done. }
      rewrite !lookup_insert_ne, !lookup_delete_ne by congruence. by apply IH1.
  - intros k [Hne Hk]%not_elem_of_cons c.
    rewrite lookup_insert_ne, lookup_delete_ne by naive_solver. by apply IH2.
Qed.

Lemma NoDup_select p m : NoDup (select p m).*1.
Proof.
  apply NoDup_fmap_fst; [|apply NoDup_filter, NoDup_map_to_list].
  intros k d1 d2 [Hd1 _]%elem_of_select [Hd2 _]%elem_of_select. congruence.
Qed.

Lemma promote_reserved m k d :
  m !! (k, false) = Some d → reserved_data d = true →
  promote m !! (k, true) = Some d ∧ promote m !! (k, false) = None.
Proof.
  intros Hk Hd. unfold promote. apply promote_fold.
  - intros k' c' d' [_ Hp]%elem_of_select. simpl in Hp. by destruct c'.
  - apply NoDup_select.
  - apply elem_of_select. by rewrite Hd.
Qed.

Lemma promote_other m k :
  (∀ d, m !! (k, false) = Some d → reserved_data d = false) →
  ∀ c, promote m !! (k, c) = m !! (k, c).
Proof.
  intros Hk. unfold promote. apply promote_fold.
  - intros k' c' d' [_ Hp]%elem_of_select. simpl in Hp. by destruct c'.
  - apply NoDup_select.
  - intros ([[k' c'] d'] & [= <- <-] & [Hm Hp]%elem_of_select)%list_elem_of_fmap. simpl in Hp.
    by rewrite (Hk _ Hm) in Hp.
Qed.

End promote.

Lemma promote_ok `{CborLaws Models.HashRef} t :
  Tables_ok t → Tables_ok (key_schema.mkTables (key_tree t) (promote (key_data t))).
Proof.
  intros [Ht Hu Hn Hd]. split; simpl; [done|done| |].
  - intros k c d Hk. destruct (key_data t !! (k, false)) as [d'|] eqn:E.
    + destruct (reserved_data d') eqn:Er.
      * destruct (promote_reserved _ _ _ E Er) as [Hpt Hpf]. destruct c; [|congruence].
        assert (d' = d) as -> by congruence. by eapply Hn.
      * rewrite promote_other in Hk; [by eapply Hn|]. intros; by simplify_eq.
    + rewrite promote_other in Hk; [by eapply Hn|]. intros; by simplify_eq.
  - intros k n Hk. destruct (key_data t !! (k, false)) as [d'|] eqn:E.
    + destruct (reserved_data d') eqn:Er.
      * exists true. destruct (promote_reserved _ _ _ E Er) as [-> _]. by eexists.
      * destruct (Hd k n Hk) as [c Hc]. exists c. rewrite promote_other; [done|].
        intros; by simplify_eq.
    + destruct (Hd k n Hk) as [c Hc]. exists c. rewrite promote_other; [done|].
      intros; by simplify_eq.
Qed.
