(* ===== verification/KeyIndexScan.v ===== *)
(** * The index of keys: a scan of a directory and its clean-up

    [V] maps the nodes a scan has visited to what it saw. After [commit_reserved_nodes] the
    visited nodes have one row, the one the scan left; [cleanup_unused] then deletes, below the
    scanned directory, what was not visited. *)

From S2P Require Import Prelude Utf8 Cbor Refs Ordered Timer Db KeyIndex KeyIndexOk.
From S2P Require Models.
Import Ordered.tags (Tag, num).
Import key_schema (KeyNode, mkKeyNode, KeyData, mkKeyData, key_tree, key_data).

Abbreviation visited := (gmap Z (KeyNode * KeyData)).
Abbreviation jrow := (Z * KeyNode * bool * KeyData)%type.

Lemma elem_of_children po t k n c d :
  (k, n, c, d) ∈ children_rows po t ↔
  key_data t !! (k, c) = Some d ∧ key_tree t !! k = Some n ∧ key_schema.parent_id n = po.
Proof.
  unfold children_rows, inner_join. rewrite list_elem_of_filter, list_elem_of_omap. split.
  - intros [Hp ([[k' c'] d'] & Hin%elem_of_map_to_list & Hj)]. unfold join_row in Hj. simpl in Hj.
    destruct (key_tree t !! k') as [n'|] eqn:E; simplify_eq. simpl in *. by simplify_eq.
  - intros (Hd & Ht & Hp). split; [done|]. exists ((k, c), d).
    rewrite elem_of_map_to_list. split; [done|]. unfold join_row. simpl. by rewrite Ht.
Qed.

(** The nodes whose contents the scan knows, going down from [po] over visited nodes. *)
Inductive reach (V : visited) (po : option Z) : option Z → Prop :=
  | reach_top : reach V po po
  | reach_child q k n d : reach V po q → V !! k = Some (n, d) → key_schema.parent_id n = q →
      reach V po (Some k).

Lemma reach_split V po q :
  reach V po q → q = po ∨
  ∃ c n d, V !! c = Some (n, d) ∧ key_schema.parent_id n = po ∧ reach V (Some c) q.
Proof.
  induction 1 as [|q k n d Hr IH Hk Hp]; [by left|]. right.
  destruct IH as [->|(c & n' & d' & Hc & Hpc & Hr')].
  - exists k, n, d. split_and!; [done..|]. constructor.
  - exists c, n', d'. split_and!; [done..|]. by econstructor.
Qed.

Section Scan.
Context `{CborLaws Models.HashRef}.

(** After the commit: one row for a visited node, no row of the scan for another. *)
Record Committed_ok (V : visited) (t : key_schema.Tables) : Prop := {
  co_tables : Tables_ok t;
  co_node : ∀ k n d m, V !! k = Some (n, d) → key_tree t !! k = Some m →
    m = n ∧ key_data t !! (k, true) = Some d;
  co_row : ∀ k c d, key_data t !! (k, c) = Some d → reserved_data d = true ↔ is_Some (V !! k);
  co_single : ∀ k d, V !! k = Some d → key_data t !! (k, false) = None;
}.

(** [j] is strictly below [po]. *)
Definition under (t : gmap Z KeyNode) (po : option Z) (j : Z) : Prop :=
  match po with Some p => tc (parent_step t) j p | None => True end.

(** [t] is [t0] without some nodes below unvisited ones below [po]. *)
Record trimmed (V : visited) (po : option Z) (t0 t : key_schema.Tables) : Prop := {
  tr_tree : key_tree t ⊆ key_tree t0;
  tr_data : ∀ k c, is_Some (key_tree t !! k) → key_data t !! (k, c) = key_data t0 !! (k, c);
  tr_gone : ∀ k, is_Some (key_tree t0 !! k) → key_tree t !! k = None →
    ∃ j, V !! j = None ∧ is_Some (key_tree t0 !! j) ∧
      rtc (parent_step (key_tree t0)) k j ∧ under (key_tree t0) po j;
}.

(** Below [po] only visited nodes are children of visited ones. *)
Definition clean (V : visited) (po : option Z) (t : key_schema.Tables) : Prop :=
  ∀ q k n, reach V po q → key_tree t !! k = Some n → key_schema.parent_id n = q →
    is_Some (V !! k).

Lemma parent_step_mono t t' k p : t ⊆ t' → parent_step t k p → parent_step t' k p.
Proof. intros Hs (n & Hk & Hp). exists n. split; [|done]. by eapply lookup_weaken. Qed.

Lemma chain_lt t k p : tree_ok t → tc (parent_step t) k p → (p < k)%Z.
Proof.
  intros Ht. induction 1 as [k p Hs|k q p Hs _ IH].
  - by apply parent_step_lt in Hs as [? _].
  - apply parent_step_lt in Hs as [? _]; [lia|done].
Qed.

Lemma trimmed_refl V po t : trimmed V po t t.
Proof. split; [done|done|]. intros k [n Hn] Hk. congruence. Qed.

Lemma Committed_trimmed V po t0 t :
  Committed_ok V t0 → trimmed V po t0 t → Tables_ok t → Committed_ok V t.
Proof.
  intros [_ Hn Hr Hs] [Ht Hd _] Hok. split; [done| | |].
  - intros k n d m Hk Hm. rewrite Hd by eauto. eapply Hn; [done|]. by eapply lookup_weaken.
  - intros k c d Hk. eapply Hr. rewrite <- Hd; [done|]. by eapply ok_node.
  - intros k d Hk. destruct (key_data t !! (k, false)) as [d'|] eqn:E; [|done].
    rewrite Hd in E by (by eapply ok_node). rewrite <- E. by eapply Hs.
Qed.

(** What a step below one visited child does, seen from its parent. *)
Lemma trimmed_trans V po po' t0 t1 t2 :
  trimmed V po t0 t1 → trimmed V po' t1 t2 →
  (∀ j, under (key_tree t0) po' j → under (key_tree t0) po j) → trimmed V po t0 t2.
Proof.
  intros [Ht1 Hd1 Hg1] [Ht2 Hd2 Hg2] Hu. split.
  - by etrans.
  - intros k c Hk. rewrite Hd2 by done. apply Hd1. destruct Hk as [n Hn].
    exists n. by eapply lookup_weaken.
  - intros k Hk Hk2. destruct (key_tree t1 !! k) as [n|] eqn:E; [|by apply Hg1].
    destruct (Hg2 k) as (j & Hj & [m Hm] & Hkj & Hun); [by eexists|done|].
    exists j. split_and!; [done| | |].
    + exists m. by eapply lookup_weaken.
    + eapply rtc_subrel; [|done]. intros ??. by apply parent_step_mono.
    + apply Hu. destruct po' as [p'|]; [|done]. simpl in *.
      apply (tc_congruence (R := parent_step (key_tree t1)) Datatypes.id (parent_step (key_tree t0)));
        [|done]. intros ??. by apply parent_step_mono.
Qed.

Lemma clean_mono V po t t' : key_tree t' ⊆ key_tree t → clean V po t → clean V po t'.
Proof. intros Hs Hc q k n Hq Hk Hp. eapply Hc; [done| |done]. by eapply lookup_weaken. Qed.

Lemma trimmed_delete V po t k n :
  Tables_ok t → key_tree t !! k = Some n → key_schema.parent_id n = po → V !! k = None →
  trimmed V po t (delete_node k t) ∧ key_tree (delete_node k t) !! k = None.
Proof.
  intros Hok Hk Hp HV. unfold delete_node. rewrite Hk. split; [split; simpl|].
  - apply map_filter_subseteq.
  - intros j c [m Hm]. apply lookup_delete_where in Hm as [Hm Hb].
    destruct (key_data t !! (j, c)) as [d|] eqn:E.
    + by apply lookup_delete_where.
    + destruct (delete_where _ _ !! _) as [d|] eqn:E2; [|done].
      apply lookup_delete_where in E2 as [E2 _]. congruence.
  - intros j Hj Hnone. exists k. split_and!; [done|by eexists| |].
    + apply below_spec; [apply Hok|done|]. destruct Hj as [m Hm].
      destruct (below (key_tree t) k j) eqn:E; [done|].
      assert (delete_where (λ k' _, below (key_tree t) k k') (key_tree t) !! j = Some m) as E2
        by (by apply lookup_delete_where). congruence.
    + destruct po as [p|]; [|done]. simpl. apply tc_once. by exists n.
  - simpl. destruct (delete_where _ _ !! k) as [m|] eqn:E; [|done].
    apply lookup_delete_where in E as [_ E].
    assert (below (key_tree t) k k = true) as E2.
    { apply below_spec; [apply Hok|by eexists|constructor]. }
    congruence.
Qed.

(** A visited chain that ends in the table is in the table. *)
Lemma reach_in V t c q :
  Committed_ok V t → reach V (Some c) q → ∀ k, q = Some k → is_Some (key_tree t !! k) →
  is_Some (key_tree t !! c).
Proof.
  intros Hc. induction 1 as [|q k n d Hr IH Hk Hp]; intros k' [= <-] Hin; [done|].
  destruct Hin as [m Hm]. destruct (co_node _ _ Hc _ _ _ _ Hk Hm) as [-> _].
  destruct q as [q|].
  - eapply (IH q eq_refl). by eapply (ok_tree _ (co_tables _ _ Hc)).
  - by inversion Hr.
Qed.

(** *** The recursion *)

(** The nodes that may be below: those with a greater id. *)
Definition count_above (t : gmap Z KeyNode) (po : option Z) : nat :=
  match po with Some p => size t - count_upto t p | None => size t end.

Lemma count_above_child t po k n :
  tree_ok t → t !! k = Some n → key_schema.parent_id n = po →
  count_above t (Some k) < count_above t po.
Proof.
  intros Ht Hk Hp. pose proof (count_upto_size t k) as Hle. destruct po as [p|]; simpl.
  - assert (p < k)%Z as Hlt by (by eapply Ht).
    pose proof (count_upto_lt t k p ltac:(by eexists) Hlt). lia.
  - pose proof (count_upto_lt t k (k - 1) ltac:(by eexists) ltac:(lia)). lia.
Qed.

Lemma count_above_filter t k : size t - count_upto t k = size (filter (λ kr, k < kr.1)%Z t).
Proof.
  unfold count_upto.
  assert (size t = size (filter (λ kr, kr.1 ≤ k)%Z t) + size (filter (λ kr, k < kr.1)%Z t)); [|lia].
  rewrite <- map_size_disj_union.
  - f_equal. apply map_eq. intros i. destruct (t !! i) as [n|] eqn:E.
    + symmetry. destruct (decide (i ≤ k)%Z).
      * apply lookup_union_Some_l, map_lookup_filter_Some. done.
      * rewrite lookup_union_r; [apply map_lookup_filter_Some; simpl; split; [done|lia]|].
        apply map_lookup_filter_None. right. intros ? _. done.
    + symmetry. apply lookup_union_None. split; apply map_lookup_filter_None; by left.
  - apply map_disjoint_spec. intros i n1 n2 [_ Hn1]%map_lookup_filter_Some
      [_ Hn2]%map_lookup_filter_Some. simpl in *. lia.
Qed.

Lemma count_above_mono t t' k : t' ⊆ t → count_above t' (Some k) ≤ count_above t (Some k).
Proof.
  intros Hs. unfold count_above. rewrite !count_above_filter. rewrite <- !size_dom.
  apply subseteq_size. intros i [n Hn]%elem_of_dom. apply elem_of_dom. exists n.
  apply map_lookup_filter_Some in Hn as [Hn Hlt]. apply map_lookup_filter_Some.
  split; [by eapply lookup_weaken|done].
Qed.

Definition cast_id (po : option Z) : Prop := (λ p, as_i64 p) <$> po = po.

Lemma as_u64_id_node t k : tree_ok t → is_Some (t !! k) → as_u64 k = k ∧ as_i64 k = k.
Proof.
  intros Ht [n Hn]. destruct (Ht k n Hn) as [? _]. rewrite as_u64_id, as_i64_id by lia. done.
Qed.

Definition on_tables (x : InternalKeyIndex) (Q : key_schema.Tables → Prop) : Prop := Q (cur x).

(** What the clean-up of [po] leaves. *)
Definition cleaned (V : visited) (po : option Z) (t0 t : key_schema.Tables) : Prop :=
  Tables_ok t ∧ trimmed V po t0 t ∧ clean V po t.

Lemma cleaned_top V po t0 t :
  Committed_ok V t0 → Tables_ok t → trimmed V po t0 t →
  (∀ k n c d, (k, n, c, d) ∈ children_rows po t0 →
    if reserved_data d then clean V (Some k) t else key_tree t !! k = None) →
  clean V po t.
Proof.
  intros Hc Hok Htr Hall q k n Hq Hk Hp.
  assert (∀ c m, key_tree t !! c = Some m → key_schema.parent_id m = po →
    is_Some (V !! c) ∧ clean V (Some c) t) as Hchild.
  { intros c m Hm Hpm. pose proof (lookup_weaken _ _ _ _ Hm (tr_tree _ _ _ _ Htr)) as Hm0.
    destruct (ok_data _ (co_tables _ _ Hc) _ _ Hm0) as [b [d Hd]].
    assert ((c, m, b, d) ∈ children_rows po t0) as Hin by (by apply elem_of_children).
    specialize (Hall _ _ _ _ Hin). destruct (reserved_data d) eqn:Er; [|congruence].
    split; [|done]. by eapply (co_row _ _ Hc). }
  apply reach_split in Hq as [->|(c & nc & dc & HV & Hpc & Hr)]; [by destruct (Hchild k n Hk Hp)|].
  pose proof (Committed_trimmed _ _ _ _ Hc Htr Hok) as Hct.
  assert (is_Some (key_tree t !! c)) as [m Hm].
  { destruct q as [q|]; [|by inversion Hr].
    eapply (reach_in V t c _ Hct Hr q eq_refl). by eapply (ok_tree _ Hok). }
  destruct (co_node _ _ Hct _ _ _ _ HV Hm) as [-> _].
  destruct (Hchild c nc Hm Hpc) as [_ Hcl]. by eapply Hcl.
Qed.

(** One child: a visited one is cleaned below, another one deleted. *)
Lemma cleanup_child_twp V fuel :
  (∀ po x, Committed_ok V (cur x) → cast_id po → count_above (key_tree (cur x)) po < fuel →
    twp (cleanup_unused_go fuel po) x (λ _ y, cleaned V po (cur x) (cur y) ∧ committed y = cur y)) →
  ∀ po x y k n c d, Committed_ok V (cur x) → count_above (key_tree (cur x)) po < S fuel →
  Tables_ok (cur y) → trimmed V po (cur x) (cur y) →
  key_data (cur x) !! (k, c) = Some d → key_tree (cur x) !! k = Some n →
  key_schema.parent_id n = po →
  twp (if reserved_data d then cleanup_unused_go fuel (Some (as_u64 k))
    else execute (λ t, Ok (delete_node k t))) y (λ _ z, Tables_ok (cur z) ∧
      trimmed V po (cur x) (cur z) ∧ key_tree (cur z) ⊆ key_tree (cur y) ∧
      if reserved_data d then clean V (Some k) (cur z) else key_tree (cur z) !! k = None).
Proof.
  intros IH po x y k n c d Hc Hf Hok Htr Hd Hn Hp. pose proof (co_tables _ _ Hc) as Hx.
  pose proof (co_row _ _ Hc _ _ _ Hd) as Hr. destruct (reserved_data d).
  - destruct (as_u64_id_node _ _ (ok_tree _ Hx) ltac:(by eexists)) as [-> Hi].
    eapply twp_mono; [apply IH|].
    + by eapply Committed_trimmed.
    + unfold cast_id. simpl. by rewrite Hi.
    + pose proof (count_above_mono _ _ k (tr_tree _ _ _ _ Htr)).
      pose proof (count_above_child _ _ _ _ (ok_tree _ Hx) Hn Hp). lia.
    + intros _ z [(Hokz & Htrz & Hcl) _]. split_and!; [done| |apply Htrz|done].
      eapply trimmed_trans; [done..|]. intros j Hj. destruct po as [p|]; [|done].
      eapply tc_r; [done|]. by exists n.
  - assert (V !! k = None) as HV.
    { destruct (V !! k) eqn:E; [|done]. destruct Hr as [_ Hr]. by discriminate Hr. }
    eapply twp_Ok; [done|]. cbn [cur set_cur].
    destruct (key_tree (cur y) !! k) as [m|] eqn:Em.
    + pose proof (lookup_weaken _ _ _ _ Em (tr_tree _ _ _ _ Htr)). simplify_eq.
      destruct (trimmed_delete V _ _ _ _ Hok Em eq_refl HV) as [Ht Hnone].
      split_and!; [by apply delete_node_ok| |apply Ht|done].
      by eapply trimmed_trans.
    + unfold delete_node. by rewrite Em.
Qed.

Lemma cleanup_go_twp V fuel po x :
  Committed_ok V (cur x) → cast_id po → count_above (key_tree (cur x)) po < fuel →
  twp (cleanup_unused_go fuel po) x (λ _ y, cleaned V po (cur x) (cur y) ∧ committed y = cur y).
Proof.
  revert po x. induction fuel as [|fuel IH]; intros po x Hc Hpo Hf; [lia|].
  cbn [cleanup_unused_go]. apply twp_step_run with (a := cur x) (s' := x); [done|].
  rewrite Hpo. apply twp_bind.
  eapply (twp_for_each (λ l y, Tables_ok (cur y) ∧ trimmed V po (cur x) (cur y) ∧
    (∀ r, r ∈ l → r ∈ children_rows po (cur x)) ∧
    ∀ k n c d, (k, n, c, d) ∈ children_rows po (cur x) → (k, n, c, d) ∈ l ∨
      if reserved_data d then clean V (Some k) (cur y) else key_tree (cur y) !! k = None)).
  - intros [[[k n] c] d] l y (Hok & Htr & Hl & Hall).
    assert ((k, n, c, d) ∈ children_rows po (cur x)) as Hin by (apply Hl; by left).
    pose proof Hin as (Hd & Hn & Hp)%elem_of_children.
    eapply twp_mono; [by eapply (cleanup_child_twp V fuel IH po x y k n c d)|]. intros _ z (Hokz & Htrz & Hsub & Hk).
    split_and!; [done|done|intros r Hr; apply Hl; by right|].
    intros k' n' c' d' Hin'. destruct (Hall _ _ _ _ Hin') as [[[= -> -> -> ->]|Hi]%elem_of_cons|Hdn].
    + by right.
    + by left.
    + right. destruct (reserved_data d'); [by eapply clean_mono|].
      by eapply lookup_weaken_None.
  - split_and!; [apply Hc|apply trimmed_refl|done|]. intros; by left.
  - intros y (Hok & Htr & _ & Hall). eapply twp_Ok; [done|]. simpl. split; [|done].
    split_and!; [done|done|]. eapply cleaned_top; [done..|].
    intros k n c d Hin. by destruct (Hall _ _ _ _ Hin) as [?%elem_of_nil|].
Qed.

(** What was visited is not deleted. *)
Lemma reach_survives V po po' t0 t q :
  Committed_ok V t0 → (∀ k d, V !! k = Some d → is_Some (key_tree t0 !! k)) →
  trimmed V po t0 t → po' = po ∨ po' = None → reach V po' q → ∀ k, q = Some k →
  is_Some (key_tree t0 !! k) → is_Some (key_tree t !! k).
Proof.
  intros Hc Hin Htr Hpo Hr k Hk Hk0. destruct (key_tree t !! k) as [n|] eqn:E; [by eexists|].
  exfalso. destruct (tr_gone _ _ _ _ Htr k Hk0 E) as (j & Hj & Hj0 & Hkj & Hu).
  pose proof (ok_tree _ (co_tables _ _ Hc)) as Ht.
  clear E Hk0. revert k Hk Hkj. induction Hr as [|q k n d Hr IH HV Hp]; intros k' Hk Hkj.
  - destruct Hpo as [->|]; [|congruence]. subst po. simpl in Hu. pose proof (chain_le _ _ _ Ht Hkj).
    apply chain_lt in Hu; [lia|done].
  - injection Hk as <-. apply rtc_inv in Hkj as [->|(p & (m & Hm & Hpm) & Hpj)]; [congruence|].
    destruct (co_node _ _ Hc _ _ _ _ HV Hm) as [-> _].
    by apply (IH p); [congruence|].
Qed.

(** *** During the scan *)

Lemma head_elem {A} (l : list A) x : x ∈ l → ∃ r, head l = Some r ∧ r ∈ l.
Proof. destruct l as [|r l]; [by intros ?%elem_of_nil|]. exists r. split; [done|by left]. Qed.

Lemma head_app_some {A} (l1 l2 : list A) x : head l1 = Some x → head (l1 ++ l2) = Some x.
Proof. by destruct l1. Qed.

(** The row a lookup finds: the one in progress, or else the committed one. *)
Definition top_row (t : key_schema.Tables) (k : Z) : option KeyData :=
  match key_data t !! (k, false) with
  | Some d => Some d
  | None => key_data t !! (k, true)
  end.

Record Scan_ok (V : visited) (x : InternalKeyIndex) : Prop := {
  sc_tables : Tables_ok (cur x);
  sc_file : Tables_ok (committed x);
  sc_node : ∀ k n d, V !! k = Some (n, d) → key_tree (cur x) !! k = Some n ∧
    top_row (cur x) k = Some d ∧ reserved_data d = true;
  sc_row : ∀ k c d, key_data (cur x) !! (k, c) = Some d → reserved_data d = true →
    is_Some (V !! k);
}.

(** A scan starts where the index is opened, on whatever tables a crash has left. *)
Lemma Scan_start t s c x :
  Tables_ok t → KeyIndex_new t s c = Ok x → Scan_ok ∅ x ∧ key_tree (cur x) = key_tree t.
Proof.
  intros Ht Hx. destruct (KeyIndex_new_ok _ _ _ _ Ht Hx) as (Hok & Hf & Htr & Hdone).
  split; [split|done]; [done|by rewrite Hf| |].
  - intros k n d. by rewrite lookup_empty.
  - intros k b d Hk Hr. specialize (Hdone _ _ Hk). unfold reserved_data in Hr.
    rewrite Hdone in Hr. done.
Qed.

Lemma top_row_in t k n :
  Tables_ok t → key_tree t !! k = Some n → ∃ d, top_row t k = Some d ∧ listable d.
Proof.
  intros Hok Hk. unfold top_row. destruct (ok_data _ Hok _ _ Hk) as [c [d Hd]].
  destruct (key_data t !! (k, false)) as [d'|] eqn:E.
  - exists d'. split; [done|]. by eapply ok_node.
  - destruct c; [|congruence]. exists d. split; [done|]. by eapply ok_node.
Qed.

Lemma key_maybe_flush_run x :
  ∃ y, maybe_flush x = (Ok (), y) ∧ cur y = cur x ∧
    (committed y = committed x ∨ committed y = cur x) ∧ last_rowid y = last_rowid x.
Proof.
  unfold maybe_flush, mbind, M_bind, zoom. cbn [lget lset ktimer_lens].
  rewrite PeriodicTimer.did_fire_run. case_decide; eexists; split_and!; eauto.
Qed.

(** The entry a lookup gives for a node. *)
Definition lookup_entry (k : Z) (po : option Z) (name : Models.FileName) (d : KeyData)
    : key.Entry :=
  key.mkEntry (Some (as_u64 k)) ((λ p, as_u64 p) <$> po)
    (match key_schema.hash d with Some h => key.FileHash h | None => key.DirPlaceholder end)
    (row_info name d).

Lemma lookup_rows po (b : bytes) t k n c d :
  (k, n, c, d) ∈ filter (λ '(_, n, _, _), key_schema.name n = b) (children_rows po t) ↔
  key_data t !! (k, c) = Some d ∧ key_tree t !! k = Some n ∧ n = mkKeyNode po b.
Proof.
  rewrite list_elem_of_filter, elem_of_children. destruct n as [p b']. simpl. naive_solver.
Qed.

Lemma lookup_found x po name k d :
  Tables_ok (cur x) → cast_id po →
  key_tree (cur x) !! k = Some (mkKeyNode po (Models.FileName_into_vec name)) →
  top_row (cur x) k = Some d →
  lookup po name x = (Ok (Some (lookup_entry k po name d)), x).
Proof.
  intros Hok Hpo Hk Htop. unfold lookup. run_pure. rewrite Hpo.
  set (b := Models.FileName_into_vec name) in *. set (rows := filter _ _).
  assert (∀ r : jrow, r ∈ rows → ∃ c d', r = (k, mkKeyNode po b, c, d') ∧
    key_data (cur x) !! (k, c) = Some d') as Hrows.
  { intros [[[k' n] c] d'] (Hd & Hn & ->)%lookup_rows. exists c, d'.
    by rewrite (ok_unique _ Hok _ _ _ Hn Hk) in *. }
  assert (∀ c d', key_data (cur x) !! (k, c) = Some d' →
    (k, mkKeyNode po b, c, d') ∈ rows) as Hin by (intros; by apply lookup_rows).
  assert (∃ c, head (order_by_committed rows) = Some (k, mkKeyNode po b, c, d)) as [c ->]; [|done].
  unfold order_by_committed, top_row in *.
  destruct (key_data (cur x) !! (k, false)) as [d0|] eqn:E.
  - injection Htop as ->. exists false.
    destruct (head_elem (filter (λ '(_, _, c, _), c = false) rows) (k, mkKeyNode po b, false, d))
      as ([[[k' n'] c'] d'] & Hh & Hr); [by apply list_elem_of_filter; auto|].
    rewrite (head_app_some _ _ _ Hh). apply list_elem_of_filter in Hr as [-> Hr].
    destruct (Hrows _ Hr) as (c & d1 & [= -> -> <- <-] & Hd1). congruence.
  - exists true. assert (filter (λ '(_, _, c, _), c = false) rows = []) as ->.
    { apply elem_of_nil_inv. intros [[[k' n'] c'] d'] [-> Hr]%list_elem_of_filter.
      destruct (Hrows _ Hr) as (c & d1 & [= -> -> <- <-] & Hd1). congruence. }
    destruct (head_elem (filter (λ '(_, _, c, _), c = true) rows) (k, mkKeyNode po b, true, d))
      as ([[[k' n'] c'] d'] & Hh & Hr); [by apply list_elem_of_filter; auto|].
    simpl. rewrite Hh. apply list_elem_of_filter in Hr as [-> Hr].
    destruct (Hrows _ Hr) as (c & d1 & [= -> -> <- <-] & Hd1). congruence.
Qed.

Lemma lookup_missing x po name :
  cast_id po → (∀ k, key_tree (cur x) !! k ≠ Some (mkKeyNode po (Models.FileName_into_vec name))) →
  lookup po name x = (Ok None, x).
Proof.
  intros Hpo Hno. unfold lookup. run_pure. rewrite Hpo.
  set (rows := filter _ _). assert (rows = []) as ->; [|done].
  apply elem_of_nil_inv. intros [[[k n] c] d] (Hd & Hn & ->)%lookup_rows. by eapply Hno.
Qed.

(** *** The operations of a scan *)

(** What the file keeps of a transaction. *)
Definition file_ok (x y : InternalKeyIndex) : Prop :=
  committed y = committed x ∨ committed y = cur y.

(** The entries the code inserts: no data of an earlier listing, and not both a link and
    contents. *)
Definition insertable (e : key.Entry) (h : option tree.HashRef) : Prop :=
  match key.data e with
  | key.FileHash _ => False
  | key.Symlink _ => h = None
  | key.FilePlaceholder | key.DirPlaceholder => from_option tree.HashRef_wf True h
  end.

(** The link of an entry's row. *)
Definition entry_link (e : key.Entry) : option bytes :=
  match key.data e with key.Symlink path => from_utf8 path | _ => None end.

Definition entry_row (e : key.Entry) (h : option tree.HashRef) : KeyData :=
  new_key_data e (entry_link e) h.

Definition entry_node (e : key.Entry) : KeyNode :=
  mkKeyNode ((λ p, as_i64 p) <$> key.parent_id e)
    (Models.FileName_into_vec (key.name (key.info e))).

Lemma entry_row_listable e h : insertable e h → listable (entry_row e h).
Proof.
  intros He i n. unfold list_row, entry_row, entry_link, insertable in *.
  destruct (key.data e) as [|?| |path]; [|done| |].
  1, 2: destruct h as [h|]; simpl in *; [|by eexists];
    rewrite tree.href_from_bytes_as_bytes by done; by eexists.
  subst h. simpl. unfold from_utf8. destruct (valid_utf8 path) eqn:Ev; simpl; [|by eexists].
  unfold from_utf8. rewrite Ev. by eexists.
Qed.

Lemma link_path_run e h : insertable e h →
  link_path_of (key.data e) = Ok (entry_link e) ∧ ¬ (is_Some (entry_link e) ∧ is_Some h).
Proof.
  unfold insertable, entry_link. destruct (key.data e); simpl; [|done| |].
  1, 2: intros _; split; [done|]; intros [[? ?] _]; done.
  intros ->. split; [done|]. by intros [_ [? ?]].
Qed.

(** The second half of [insert], for an entry with its node. *)
Lemma insert_old_run e h k x :
  key.node_id e = Some k → as_i64 k = k → insertable e h → is_Some (key_tree (cur x) !! k) →
  ∃ y, insert e h x = (Ok e, y) ∧ file_ok x y ∧ last_rowid y = last_rowid x ∧
    cur y = key_schema.mkTables (key_tree (cur x))
      (<[(k, false) := entry_row e h]> (key_data (cur x))).
Proof.
  intros Hk Hi He Hin. destruct (link_path_run e h He) as [Hl Ha].
  set (x1 := set_cur (key_schema.mkTables (key_tree (cur x))
    (<[(k, false) := entry_row e h]> (key_data (cur x)))) x).
  assert (execute (insert_data (as_i64 k) false (entry_row e h)) x = (Ok (), x1)) as Hex.
  { unfold execute, insert_data. by rewrite Hi, decide_True. }
  destruct (key_maybe_flush_run x1) as (y & Hy & Hcur & Hcom & Hrow). exists y.
  split_and!; [| |done|done].
  - unfold insert. rewrite Hk. run_pure. run_lift Hl. run_assert ltac:(exact Ha).
    rewrite Hk. run_lift (eq_refl : expect (Some k) = Ok k). run_with Hex. by run_with Hy.
  - destruct Hcom as [Hcom|Hcom]; [by left|right]. by rewrite Hcur, Hcom.
Qed.

(** A new node: the tree gets the next id. *)
Lemma insert_new_run e h x :
  Tables_ok (cur x) → key.node_id e = None → insertable e h →
  (next_rowid (key_tree (cur x)) < 2 ^ 63)%Z →
  (∀ k, key_tree (cur x) !! k ≠ Some (entry_node e)) →
  (∀ p, key_schema.parent_id (entry_node e) = Some p → is_Some (key_tree (cur x) !! p)) →
  let k := next_rowid (key_tree (cur x)) in
  ∃ y, insert e h x = (Ok (set_node_id (Some k) e), y) ∧ file_ok x y ∧
    cur y = key_schema.mkTables (<[k := entry_node e]> (key_tree (cur x)))
      (<[(k, false) := entry_row e h]> (key_data (cur x))).
Proof.
  intros Hok Hid He Hroom Hfr Hpar k.
  pose proof (next_rowid_pos _ (ok_tree _ Hok)) as Hpos. fold k in Hroom, Hpos.
  set (x1 := mkKeyIndex (key_schema.mkTables (<[k := entry_node e]> (key_tree (cur x)))
    (key_data (cur x))) (committed x) k (flush_timer x) (clock x)).
  assert (insert_into_tree (entry_node e) x = (Ok (), x1)) as Htree.
  { unfold insert_into_tree. by rewrite insert_node_run. }
  destruct (insert_old_run (set_node_id (Some k) e) h k x1 eq_refl) as (y & Hy & Hf & _ & Hc).
  { apply as_i64_id. lia. } { done. } { apply lookup_insert_is_Some'. by left. }
  exists y. split_and!; [| |by rewrite Hc].
  - rewrite <- Hy. unfold insert at 1. rewrite Hid. rewrite bind_assoc.
    change (mkKeyNode _ _) with (entry_node e). run_with Htree. rewrite bind_assoc.
    unfold last_insert_rowid. rewrite bind_gets, bind_ret.
    cbn [last_rowid x1]. rewrite as_u64_id by lia. done.
  - by destruct Hf as [Hf|Hf]; [left|right].
Qed.

Lemma mark_run e k x :
  key.node_id e = Some k → as_i64 k = k →
  mark_reserved e x = (Ok (), set_cur (key_schema.mkTables (key_tree (cur x))
    (update (λ i _, bool_decide (i.1 = k)) (key_schema.set_tag tags.Reserved)
       (key_data (cur x)))) x).
Proof. intros Hk Hi. unfold mark_reserved. rewrite Hk. run_lift (eq_refl : expect (Some k) = Ok k).
  unfold on_data, execute. by rewrite Hi. Qed.

Lemma reserved_set_tag d : reserved_data (key_schema.set_tag tags.Reserved d) = true.
Proof. by destruct d. Qed.

Lemma entry_row_reserved e h : reserved_data (entry_row e h) = true.
Proof. done. Qed.

(** A visit that writes the node's row keeps the scan's invariant; so does marking it. *)
Lemma Scan_insert V x y k n d :
  Scan_ok V x → file_ok x y → Tables_ok (cur y) → reserved_data d = true →
  key_tree (cur y) !! k = Some n →
  (∀ j m, key_tree (cur x) !! j = Some m → key_tree (cur y) !! j = Some m) →
  key_data (cur y) = <[(k, false) := d]> (key_data (cur x)) →
  Scan_ok (<[k := (n, d)]> V) y.
Proof.
  intros [Hok Hfile Hn Hr] Hf Hy Hd Hk Htree Hdata. split; [done| | |].
  - by destruct Hf as [Hf|Hf]; rewrite Hf.
  - intros j m d'. rewrite lookup_insert_Some. unfold top_row. rewrite Hdata.
    intros [[<- [= <- <-]]|[Hne HV]].
    + by rewrite lookup_insert_eq.
    + destruct (Hn _ _ _ HV) as (? & Htop & ?). rewrite !lookup_insert_ne by congruence.
      split_and!; [by apply Htree|done|done].
  - intros j c d'. rewrite Hdata, lookup_insert_Some.
    intros [[[= <- <-] <-]|[Hne Hj]] Hres; apply lookup_insert_is_Some'; [by left|].
    right. by eapply Hr.
Qed.

Lemma Scan_mark V x k n d t :
  Scan_ok V x → key_tree (cur x) !! k = Some n → top_row (cur x) k = Some d →
  t = key_schema.mkTables (key_tree (cur x))
    (update (λ i _, bool_decide (i.1 = k)) (key_schema.set_tag tags.Reserved)
       (key_data (cur x))) →
  Scan_ok (<[k := (n, key_schema.set_tag tags.Reserved d)]> V) (set_cur t x).
Proof.
  intros [Hok Hfile Hn Hr] Hk Htop ->. split; [by apply update_tags_ok|done| |].
  - intros j m d'. cbn [cur set_cur key_tree]. unfold top_row in *. cbn [key_data].
    rewrite !lookup_update. cbn [fst]. rewrite lookup_insert_Some.
    intros [[<- [= <- <-]]|[Hne HV]].
    + rewrite bool_decide_true by done. split_and!; [done| |apply reserved_set_tag].
      destruct (key_data (cur x) !! (k, false)); simpl; [congruence|].
      by rewrite Htop.
    + rewrite bool_decide_false by congruence. destruct (Hn _ _ _ HV) as (? & Ht & ?).
      split_and!; [done| |done].
      destruct (key_data (cur x) !! (j, false)); simpl; [done|]. by rewrite Ht.
  - intros j c d'. cbn [cur set_cur key_data]. rewrite lookup_update. cbn [fst].
    destruct (key_data (cur x) !! (j, c)) as [d0|] eqn:E; [|done].
    cbn [fmap option_fmap option_map]. case_bool_decide as Hj; intros [= <-] Hres;
      apply lookup_insert_is_Some'; [by left|right; by eapply Hr].
Qed.

(** *** Commit, clean-up and listing *)

Lemma commit_run V x :
  Scan_ok V x → ∃ y, commit_reserved_nodes x = (Ok (), y) ∧ Committed_ok V (cur y) ∧
    key_tree (cur y) = key_tree (cur x) ∧ committed y = committed x.
Proof.
  intros [Hok Hfile Hn Hr]. eexists. split; [done|]. cbn [cur set_cur committed].
  split_and!; [|done|done].
  assert (∀ k n d, V !! k = Some (n, d) → promote (key_data (cur x)) !! (k, true) = Some d ∧
    promote (key_data (cur x)) !! (k, false) = None) as HV.
  { intros k n d Hk. destruct (Hn _ _ _ Hk) as (_ & Htop & Hres). unfold top_row in Htop.
    destruct (key_data (cur x) !! (k, false)) as [d'|] eqn:E.
    - injection Htop as ->. by apply promote_reserved.
    - rewrite !promote_other by (intros; simplify_eq). done. }
  split; [by apply promote_ok| | |]; cbn [key_tree key_data].
  - intros k n d m Hk Hm. destruct (Hn _ _ _ Hk) as (Htree & _ & _).
    split; [congruence|]. by eapply HV.
  - intros k c d Hk. split.
    + intros Hres. destruct (key_data (cur x) !! (k, false)) as [d'|] eqn:E.
      * destruct (reserved_data d') eqn:E2; [by eapply (Hr _ _ _ E)|].
        rewrite promote_other in Hk by (intros; congruence). by eapply (Hr _ _ _ Hk).
      * rewrite promote_other in Hk by (intros; congruence). by eapply (Hr _ _ _ Hk).
    + intros [[n d'] HVk]. destruct (HV _ _ _ HVk) as [Ht Hf]. destruct c; [|congruence].
      assert (d' = d) as -> by congruence. by apply Hn in HVk as (_ & _ & ?).
  - intros k [n d] Hk. by eapply HV.
Qed.

(** What a listing of [q] has to show. *)
Definition visited_children (V : visited) (q : option Z) : list jrow :=
  omap (λ '(k, (n, d)), if decide (key_schema.parent_id n = q) then Some (k, n, true, d) else None)
    (map_to_list V).

Lemma elem_of_visited_children V q k n c d :
  (k, n, c, d) ∈ visited_children V q ↔
  V !! k = Some (n, d) ∧ key_schema.parent_id n = q ∧ c = true.
Proof.
  unfold visited_children. rewrite list_elem_of_omap. split.
  - intros ([k' [n' d']] & Hin%elem_of_map_to_list & Hd). case_decide; by simplify_eq.
  - intros (HV & Hp & ->). exists (k, (n, d)). rewrite elem_of_map_to_list.
    split; [done|]. by rewrite decide_True.
Qed.

Lemma NoDup_omap {A B} (f : A → option B) l :
  (∀ a1 a2 b, f a1 = Some b → f a2 = Some b → a1 = a2) → NoDup l → NoDup (omap f l).
Proof.
  intros Hf. induction 1 as [|a l Hni Hnd IH]; simpl; [constructor|].
  destruct (f a) as [b|] eqn:E; [|done]. constructor; [|done].
  intros (a' & Hin & Ha')%list_elem_of_omap. by rewrite (Hf a a' b) in Hni.
Qed.

Lemma NoDup_children po t : NoDup (children_rows po t).
Proof.
  apply NoDup_filter, NoDup_omap, NoDup_map_to_list.
  intros [[k1 c1] d1] [[k2 c2] d2] r. unfold join_row. simpl.
  destruct (key_tree t !! k1), (key_tree t !! k2); simpl; intros; by simplify_eq.
Qed.

Lemma NoDup_visited_children V q : NoDup (visited_children V q).
Proof.
  apply NoDup_omap, NoDup_map_to_list.
  intros [k1 [n1 d1]] [k2 [n2 d2]] r. repeat case_decide; intros; by simplify_eq.
Qed.

Lemma mapM_lift_Ok {W A B} (f : A → res B) l (s : W) :
  (∀ a, a ∈ l → ∃ b, f a = Ok b) →
  ∃ l', mapM' (λ a, lift (f a)) l s = (Ok l', s) ∧ Ok <$> l' = f <$> l.
Proof.
  induction l as [|a l IH]; intros Hl; [by exists []|].
  destruct (Hl a ltac:(by left)) as [b Hb]. destruct IH as (l' & Hrun & Hl').
  { intros; apply Hl. by right. }
  exists (b :: l'). cbn [mapM']. split; [|rewrite !fmap_cons; congruence].
  run_lift Hb. by run_with Hrun.
Qed.

(** A listing of a clean level shows what the scan has visited there. *)
Lemma list_visited V po q x :
  Committed_ok V (cur x) → clean V po (cur x) → cast_id q → reach V po q →
  (∀ k n d, V !! k = Some (n, d) → key_schema.parent_id n = q → is_Some (key_tree (cur x) !! k)) →
  ∃ l, list_dir q x = (Ok l, x) ∧ Ok <$> l ≡ₚ list_row <$> visited_children V q.
Proof.
  intros Hc Hcl Hq Hr Hin. unfold list_dir.
  set (rows := filter (λ '(_, _, c, _), c = true) (children_rows q (cur x))).
  assert (rows ≡ₚ visited_children V q) as Hperm.
  { apply NoDup_Permutation; [apply NoDup_filter, NoDup_children|apply NoDup_visited_children|].
    intros [[[k n] c] d]. unfold rows.
    rewrite list_elem_of_filter, elem_of_children, elem_of_visited_children. split.
    - intros (-> & Hd & Hk & Hp). destruct (Hcl _ _ _ Hr Hk Hp) as [[n' d'] HV].
      destruct (co_node _ _ Hc _ _ _ _ HV Hk) as [-> Hd']. split_and!; congruence.
    - intros (HV & Hp & ->). destruct (Hin _ _ _ HV Hp) as [m Hm].
      destruct (co_node _ _ Hc _ _ _ _ HV Hm) as [-> Hd]. done. }
  destruct (mapM_lift_Ok list_row rows x) as (l & Hl & Hrows).
  { intros [[[k n] c] d]. unfold rows. rewrite list_elem_of_filter, elem_of_children.
    intros (-> & Hd & _). by eapply (ok_node _ (co_tables _ _ Hc)). }
  exists l. split; [|by rewrite Hrows, Hperm].
  run_pure. rewrite Hq. exact Hl.
Qed.

Lemma cleanup_run V po x :
  Committed_ok V (cur x) → cast_id po →
  ∃ y, cleanup_unused po x = (Ok (), y) ∧ cleaned V po (cur x) (cur y) ∧ committed y = cur y.
Proof.
  intros Hc Hpo. unfold cleanup_unused.
  destruct (twp_inv _ _ _ (cleanup_go_twp V (S (S (size (key_tree (cur x))))) po x Hc Hpo
    ltac:(destruct po; simpl; lia))) as ([] & y & Hy & ?).
  exists y. by run_pure.
Qed.

(** A scan, its commit and the clean-up of the scanned directory leave tables that can be
    listed. *)
Record listed_ok V po t : Prop := {
  lo_committed : Committed_ok V t;
  lo_clean : clean V po t;
  lo_there : ∀ q k n d, reach V po q → V !! k = Some (n, d) → key_schema.parent_id n = q →
    is_Some (key_tree t !! k);
}.

(** What was not visited is below [po]. *)
Definition outside_visited (V : visited) (po : option Z) (t : gmap Z KeyNode) : Prop :=
  ∀ k, is_Some (t !! k) → V !! k = None → under t po k.

(** Going down from the top to [po] is going over visited nodes. *)
Lemma reach_below V t0 p k :
  Committed_ok V t0 → (∀ k d, V !! k = Some d → is_Some (key_tree t0 !! k)) →
  reach V None (Some k) → rtc (parent_step (key_tree t0)) k p → reach V (Some p) (Some k).
Proof.
  intros Hc Hin Hr. remember (Some k) as q eqn:E. revert k E.
  induction Hr as [|q k' n d Hr IH HV Hp]; intros k E Hrtc; [done|]. injection E as ->.
  apply rtc_inv in Hrtc as [->|(j & (m & Hm & Hpm) & Hj)]; [constructor|].
  destruct (co_node _ _ Hc _ _ _ _ HV Hm) as [-> _].
  rewrite Hpm in Hp. subst q. eapply reach_child; [by apply (IH j)|exact HV|exact Hpm].
Qed.

Lemma clean_from_top V po t0 t :
  Committed_ok V t0 → (∀ k d, V !! k = Some d → is_Some (key_tree t0 !! k)) →
  trimmed V po t0 t → clean V po t → outside_visited V po (key_tree t0) → clean V None t.
Proof.
  intros Hc Hin Htr Hcl Hout. destruct po as [p|]; [|done]. intros q k n Hq Hk Hp.
  destruct (V !! k) as [d|] eqn:HV; [by eexists|]. exfalso.
  pose proof (lookup_weaken _ _ _ _ Hk (tr_tree _ _ _ _ Htr)) as Hk0.
  pose proof (Hout k ltac:(by eexists) HV) as Hu. simpl in Hu.
  inversion Hu as [? ? (m & Hm & Hpm)|? j ? (m & Hm & Hpm) Hj]; subst; simplify_eq.
  - destruct (Hcl (Some p) k n) as [? ?]; [constructor|done..|congruence].
  - rewrite Hpm in Hq. destruct (Hcl (Some j) k n) as [? ?]; [|done..|congruence].
    eapply (reach_below V t0); [done..|]. by apply tc_rtc.
Qed.

Lemma scan_cleaned V x po :
  Scan_ok V x → cast_id po →
  ∃ y z, commit_reserved_nodes x = (Ok (), y) ∧ cleanup_unused po y = (Ok (), z) ∧
    listed_ok V po (cur z) ∧ committed z = cur z ∧
    (outside_visited V po (key_tree (cur x)) → listed_ok V None (cur z)).
Proof.
  intros Hs Hpo. destruct (commit_run V x Hs) as (y & Hy & Hc & Htree & _).
  destruct (cleanup_run V po y Hc Hpo) as (z & Hz & (Hok & Htr & Hcl) & Hf).
  assert (∀ k d, V !! k = Some d → is_Some (key_tree (cur y) !! k)) as HV.
  { intros k [n d] Hk. rewrite Htree. destruct (sc_node _ _ Hs _ _ _ Hk). by eexists. }
  assert (∀ po', po' = po ∨ po' = None → clean V po' (cur z) → listed_ok V po' (cur z)) as Hlisted.
  { intros po' Hpo' Hcl'. split; [by eapply Committed_trimmed|done|].
    intros q k n d Hr Hk Hp. eapply (reach_survives _ _ _ _ _ _ Hc HV Htr Hpo'); [|done|by eapply HV].
    by eapply reach_child. }
  exists y, z. split_and!; [done|done|apply Hlisted; [by left|done]|done|].
  intros Hout. apply Hlisted; [by right|]. rewrite <- Htree in Hout. by eapply clean_from_top.
Qed.

Lemma scan_listing V x po q :
  listed_ok V po (cur x) → cast_id po → reach V po q →
  ∃ l, list_dir q x = (Ok l, x) ∧ Ok <$> l ≡ₚ list_row <$> visited_children V q.
Proof.
  intros [Hc Hcl Hin] Hpo Hr. eapply list_visited; [done|done| |done|].
  - destruct Hr as [|q k n d Hr Hk Hp]; [done|]. unfold cast_id. simpl. f_equal.
    apply (as_u64_id_node (key_tree (cur x))); [apply Hc|by eapply Hin].
  - intros k n d Hk Hp. by eapply Hin.
Qed.

End Scan.
