(* ===== verification/KeyStore.v ===== *)
(** * The key store: key/mod.rs and util/file_iterator.rs

    One key store per thread of a family. It looks a file up in the index of keys, skips it if
    it looks unchanged and its contents are known, or reads it in pieces of 128 KiB into a hash
    tree, and enters it in the index.

    The index of hashes and the blob store behind it are the class [KeyBackend]: the backend
    of the hash trees with the three further calls that the key store makes of them. The
    instance [store_backend] is the real one. *)

From S2P Require Import Prelude Cbor Refs Ordered Upq Timer Db Crypto HashIndex Backend Blob.
From S2P Require Import BlobStore HashTree HashStore KeyIndex.
From S2P Require Models.

(** ** Reading: [std::io::Read] and util/file_iterator.rs *)

(** What one call of [read] with room for [n] bytes returns. *)
Inductive read_result := Interrupted | ReadError | ReadOk (b : bytes).

Class Reader (R : Type) := reader_read : nat → R → read_result * R.

(** A file of the operating system behind a [BufReader], or bytes with a position. *)
Inductive FileIterator (F : Type) := File (f : F) | Buf (vec : bytes) (pos : nat).
Arguments File {F} f.
Arguments Buf {F} vec pos.

Definition from_bytes {F} (contents : bytes) : FileIterator F := Buf contents 0.

Definition FileIterator_read {F} `{!Reader F} (n : nat) (it : FileIterator F)
    : read_result * FileIterator F :=
  match it with
  | File f => let '(r, f) := reader_read n f in (r, File f)
  | Buf vec pos =>
      if decide (length vec ≤ pos) then (ReadOk [], it)
      else
        let next := take ((pos + n) `min` length vec - pos) (drop pos vec) in
        (ReadOk next, Buf vec (pos + length next))
  end.

#[export] Instance file_iterator_reader {F} `{!Reader F} : Reader (FileIterator F) :=
  FileIterator_read.

(** ** The interface to the hash index and the blob store *)

Class KeyBackend (St : Type) := {
  kb_tree :: HashTreeBackend St;
  kb_hash_exists : bytes → M St bool;
  kb_fetch_hash_ref : bytes → M St (option tree.HashRef);
  kb_flush : M St unit;
}.

Section instance.
Context `{Sodium} `{LruCache} `{Cbor Models.ChunkRef} `{Cbor Models.HashIds} `{Cbor Models.HashRef}.
Context {B : Type} `{!StoreBackend (list Z) B}.

#[export] Instance store_backend : KeyBackend (Store Z B) := {|
  kb_tree := hash_store_backend;
  kb_hash_exists h := zoom hi_lens (hash_exists h);
  kb_fetch_hash_ref h := zoom hi_lens (fetch_hash_ref h);
  kb_flush := BlobStore.flush commit_callback ;; zoom hi_lens flush_index;
|}.

(** The same with the record of insertions, for statements. *)
Definition logged_store_backend : KeyBackend (Store Z B * history) := {|
  kb_tree := logged;
  kb_hash_exists h := zoom fst_lens (zoom hi_lens (hash_exists h));
  kb_fetch_hash_ref h := zoom fst_lens (zoom hi_lens (fetch_hash_ref h));
  kb_flush := zoom fst_lens (BlobStore.flush commit_callback ;; zoom hi_lens flush_index);
|}.

End instance.

(** ** Messages *)

(** [Option<Box<FnBox<(), Option<IT>>>>]: no data, or what opening it will give. *)
Inductive Msg (R : Type) :=
  | Insert (entry : key.Entry) (chunk_it_opt : option (option R))
  | ListDir (parent : option Z)
  | CommitReservedNodes (clean_parent_opt : option (option Z))
  | Flush.
Arguments Insert {R} entry chunk_it_opt.
Arguments ListDir {R} parent.
Arguments CommitReservedNodes {R} clean_parent_opt.
Arguments Flush {R}.

(** A [HashTreeReaderInitializer] is the reference that it opens. *)
Abbreviation DirElem := (key.Entry * option tree.HashRef * option tree.HashRef)%type.

Inductive Reply :=
  | Id (id : Z)
  | ListResult (l : list DirElem)
  | ReplyOk
  | FlushOk.

(** [HashTreeReaderInitializer::init] *)
Definition init {St} (self : tree.HashRef) (s : St) : WalkState St (list bytes) :=
  LeafIterator_new self s.

(** ** The store *)

Definition max_chunk_len : nat := Z.to_nat (128 * 1024).

Lemma max_chunk_pos : 0 < max_chunk_len.
Proof. unfold max_chunk_len. lia. Qed.

#[global] Opaque max_chunk_len.

Section KeyStore.
Context {St R : Type} `{!KeyBackend St} `{!Reader R}.
Context `{Cbor Models.HashRefs} `{Cbor Models.HashRef}.

(** The index of keys, shared by a family's key stores, and what is behind them. *)
Abbreviation KS := (M (InternalKeyIndex * St)).

Definition on_index {A} (m : KI A) : KS A := zoom fst_lens m.
Definition on_store {A} (m : M St A) : KS A := zoom snd_lens m.

Definition flush_all : KS unit :=
  on_store kb_flush ;; on_index KeyIndex.flush.

Definition hash_tree_writer (leaf : Models.LeafType) : SimpleHashTreeWriter := Writer_new leaf 8.

(** [while chunk_len < max { chunk_len += read(&mut chunk[chunk_len..]) .. }] *)
Fixpoint fill (fuel : nat) (chunk : bytes) (reader : R) : res (bytes * R) :=
  if decide (length chunk < max_chunk_len) then
    match fuel with
    | O => Diverge
    | S fuel =>
        match reader_read (max_chunk_len - length chunk) reader with
        | (Interrupted, reader) => fill fuel chunk reader
        | (ReadOk [], reader) | (ReadError, reader) => Ok (chunk, reader)
        | (ReadOk b, reader) => fill fuel (chunk ++ b) reader
        end
    end
  else Ok (chunk, reader).

(** The loop over the chunks: [tree] and [file_len]. *)
Fixpoint read_chunks (fuel : nat) (reader : R) (file_len : Z)
    : M (SimpleHashTreeWriter * St) Z :=
  '(chunk, reader) ← lift (fill fuel [] reader);
  if decide (length chunk = 0) then mret file_len
  else
    match fuel with
    | O => diverge
    | S fuel =>
        append chunk ;;
        read_chunks fuel reader (as_u64 (file_len + usize_as_u64 (length chunk)))
    end.

(** A tree writer of its own for one file. *)
Definition with_writer {A} (w : SimpleHashTreeWriter) (m : M (SimpleHashTreeWriter * St) A)
    : KS (A * SimpleHashTreeWriter) := λ ks,
  match m (w, ks.2) with
  | (Ok a, (w, s)) => (Ok (a, w), (ks.1, s))
  | (Err e, (_, s)) => (Err e, (ks.1, s))
  | (Panic, (_, s)) => (Panic, (ks.1, s))
  | (Diverge, (_, s)) => (Diverge, (ks.1, s))
  end.

Definition set_byte_length (len : Z) (e : key.Entry) : key.Entry :=
  let i := key.info e in
  key.mkEntry (key.node_id e) (key.parent_id e) (key.data e)
    (key.mkInfo (key.name i) (key.created_ts_secs i) (key.modified_ts_secs i)
       (key.accessed_ts_secs i) (key.permissions i) (key.user_id i) (key.group_id i)
       (Some len) (key.snapshot_ts_utc i)).

(** The short circuits: the stored entry is good enough. *)
Definition short_circuit (stored_entry : key.Entry) (has_data : bool) : KS bool :=
  match key.data stored_entry, has_data with
  | key.FileHash hash_bytes, true => on_store (kb_hash_exists hash_bytes)
  | _, false => mret true
  | _, true => mret false
  end.

(** The end of an insertion: read the contents, if there are any to read, and enter the file.
    ([file_size_warning] only prints.) *)
Definition insert_file (fuel : nat) (entry : key.Entry) (it_opt : option R) : KS Reply :=
  match it_opt with
  | None =>
      entry ← on_index (KeyIndex.insert entry None);
      i ← lift (expect (key.node_id entry)); mret (Id i)
  | Some reader =>
      '(file_len, tree) ← with_writer (hash_tree_writer Models.FileChunk)
                            (read_chunks fuel reader 0);
      let entry := set_byte_length file_len entry in
      '(hash_ref, _) ← with_writer tree (HashTree.hash (Some (key.info entry)));
      entry ← on_index (KeyIndex.insert entry (Some hash_ref));
      i ← lift (expect (key.node_id entry)); mret (Id i)
  end.

Definition handle_insert (fuel : nat) (insert_entry : key.Entry)
    (chunk_it_opt : option (option R)) : KS Reply :=
  let read entry := insert_file fuel entry (chunk_it_opt ≫= λ o, o) in
  stored ← on_index (KeyIndex.lookup (key.parent_id insert_entry) (key.name (key.info insert_entry)));
  match stored with
  | None => read insert_entry
  | Some stored_entry =>
      let entry := set_node_id (key.node_id stored_entry) insert_entry in
      if key.data_looks_unchanged insert_entry stored_entry then
        known ← short_circuit stored_entry (bool_decide (is_Some chunk_it_opt));
        if known : bool then
          on_index (mark_reserved stored_entry) ;;
          i ← lift (expect (key.node_id stored_entry)); mret (Id i)
        else read entry
      else read entry
  end.

Definition list_elem (e : key.Entry * option tree.HashRef) : KS DirElem :=
  let '(entry, hash_ref_opt) := e in
  hash_ref ← match hash_ref_opt, key.data entry with
             | Some h, _ => mret (Some h)
             | None, key.FileHash hash_bytes => unwrapM (on_store (kb_fetch_hash_ref hash_bytes))
             | None, _ => mret None
             end;
  mret (entry, hash_ref, hash_ref).

Definition handle (fuel : nat) (msg : Msg R) : KS Reply :=
  match msg with
  | Flush => flush_all ;; mret FlushOk
  | ListDir parent =>
      entries ← on_index (list_dir parent);
      my_entries ← mapM' list_elem entries;
      mret (ListResult my_entries)
  | CommitReservedNodes clean_parent_opt =>
      on_index commit_reserved_nodes ;;
      match clean_parent_opt with
      | Some parent => on_index (cleanup_unused parent)
      | None => mret ()
      end ;;
      mret ReplyOk
  | Insert insert_entry chunk_it_opt => handle_insert fuel insert_entry chunk_it_opt
  end.

End KeyStore.
