(* ===== verification/KeyStoreOk.v ===== *)
(** * The key store: an insertion

    For any backend that keeps its contract and any reader that gives the contents of a file:
    an [Insert] enters the node in the index of keys, with a reference under which the contents
    can be read, or marks the node it has found unchanged. *)

From S2P Require Import Prelude Utf8 Cbor Refs Ordered Timer Db HashTree.
From S2P Require Import KeyIndex KeyIndexOk KeyIndexScan KeyStore.
From S2P Require Models.
Import Ordered.tags (Tag, num).
Import key_schema (KeyNode, mkKeyNode, KeyData, mkKeyData, key_tree, key_data).

(** ** Contracts *)

Class KeyBackendLaws (St : Type) `{!KeyBackend St} := {
  kb_laws :: HashTreeBackendLaws St;
  kb_hash_exists_ok : ∀ h s, backend_ok s →
    wp (kb_hash_exists h) s (λ _ s', backend_ok s' ∧ later s s');
  kb_flush_ok : ∀ s, backend_ok s → wp kb_flush s (λ _ s', backend_ok s' ∧ later s s');
}.

(** [holds i r c]: the calls to [r] give [c] piece by piece, with at most [i] interruptions
    before the next piece, and then end, with an end of file or an error. *)
Class ReaderLaws (R : Type) `{!Reader R} := {
  holds : nat → R → bytes → Prop;
  reader_read_ok : ∀ i r c n, holds i r c → 0 < n →
    match reader_read n r with
    | (Interrupted, r') => ∃ j, j < i ∧ holds j r' c
    | (ReadError, r') => c = [] ∧ ∃ j, holds j r' []
    | (ReadOk b, r') => length b ≤ n ∧ (b = [] → c = []) ∧ ∃ c' j, c = b ++ c' ∧ holds j r' c'
    end;
}.

(** Bytes in memory are read from their position on. *)
#[export] Program Instance file_iterator_laws {F} `{ReaderLaws F} : ReaderLaws (FileIterator F) :=
  {| holds i it c := match it with
                     | File f => holds i f c
                     | Buf vec pos => c = drop pos vec
                     end |}.
Next Obligation.
  intros F RF RL i [f|vec pos] c n Hc Hn; unfold reader_read, file_iterator_reader, FileIterator_read.
  - pose proof (reader_read_ok i f c n Hc Hn) as Hr.
    destruct (reader_read n f) as [[| |b] f']; [|done..].
    destruct Hr as (j & ? & ?). by exists j.
  - simpl in Hc. subst c. case_decide as Hd.
    + assert (drop pos vec = []) as E by (by apply drop_ge). rewrite E.
      split_and!; [simpl; lia|done|]. by exists [], 0.
    + set (k := (pos + n) `min` length vec - pos).
      assert (0 < k ≤ length vec - pos) as Hk by (unfold k; lia).
      assert (length (take k (drop pos vec)) = k) as Hl.
      { rewrite length_take, length_drop. lia. }
      split_and!; [rewrite Hl; unfold k; lia| |].
      * intros E. rewrite E in Hl. simpl in Hl. lia.
      * exists (drop k (drop pos vec)). rewrite take_drop. eexists 0. split; [done|].
        by rewrite Hl, drop_drop.
Qed.

Section Reading.
Context {St R : Type} `{KeyBackendLaws St} `{ReaderLaws R}.
Context `{CborLaws Models.HashRefs}.

(** One piece: as much as fits, less only at the end. *)
Lemma fill_run i r c chunk :
  holds i r c → length chunk ≤ max_chunk_len →
  ∃ N b c' r' j, (∀ fuel, N ≤ fuel → fill fuel chunk r = Ok (chunk ++ b, r')) ∧
    c = b ++ c' ∧ holds j r' c' ∧ length (chunk ++ b) ≤ max_chunk_len ∧
    (length (chunk ++ b) < max_chunk_len → c' = []).
Proof.
  remember (length c) as lc eqn:Elc. revert c i r chunk Elc.
  induction (lt_wf lc) as [lc _ IHc]. intros c i r chunk ->. revert r.
  induction (lt_wf i) as [i _ IHi]. intros r Hr Hlen.
  destruct (decide (length chunk < max_chunk_len)) as [Hlt|Hge].
  2: { exists 0, [], c, r, i. rewrite app_nil_r. split_and!; [|done..|lia].
    intros [|fuel] _; cbn [fill]; by rewrite decide_False. }
  pose proof (reader_read_ok i r c (max_chunk_len - length chunk) Hr ltac:(lia)) as Hread.
  destruct (reader_read (max_chunk_len - length chunk) r) as [[| |b] r'] eqn:Er.
  - destruct Hread as (j & Hj & Hr').
    destruct (IHi j Hj r' Hr' Hlen) as (N & b & c' & r2 & j2 & Hf & Hpost).
    exists (S N), b, c', r2, j2. split; [|done]. intros [|fuel] Hfu; [lia|]. cbn [fill].
    rewrite decide_True, Er by done. apply Hf. lia.
  - destruct Hread as (-> & j & Hr'). exists 1, [], [], r', j. rewrite app_nil_r.
    split_and!; try done. intros [|fuel] Hfu; [lia|]. cbn [fill]. by rewrite decide_True, Er.
  - destruct Hread as (Hbn & Hb0 & c' & j & -> & Hr'). destruct b as [|b0 b].
    + assert (c' = []) as -> by exact (Hb0 eq_refl). exists 1, [], [], r', j.
      rewrite app_nil_r. split_and!; try done.
      intros [|fuel] Hfu; [lia|]. cbn [fill]. by rewrite decide_True, Er.
    + destruct (IHc (length c') ltac:(rewrite length_app; simpl; lia) c' j r' (chunk ++ b0 :: b)
        eq_refl Hr') as (N & b' & c2 & r2 & j2 & Hf & -> & Hr2 & Hl2 & He2).
      { rewrite length_app. lia. }
      exists (S N), ((b0 :: b) ++ b'), c2, r2, j2. rewrite !app_assoc in *.
      split_and!; [|done..]. intros [|fuel] Hfu; [lia|]. cbn [fill].
      rewrite decide_True, Er by done. apply Hf. lia.
Qed.

(** All pieces: the file's contents in leaves of at most 128 KiB. *)
Lemma read_chunks_wp i r c :
  holds i r c → ∃ N, ∀ fuel, N ≤ fuel → ∀ len w s ls, Writer_ok w s ls → is_u64 len →
  wp (read_chunks fuel r len) (w, s) (λ len' '(w', s'), ∃ ls',
    Writer_ok w' s' (ls ++ ls') ∧ concat ls' = c ∧
    Forall (λ l, 0 < length l ≤ max_chunk_len) ls' ∧ leaf_type w' = leaf_type w ∧
    later s s' ∧ len' = as_u64 (len + Z.of_nat (length c))).
Proof.
  remember (length c) as lc eqn:Elc. revert c i r Elc.
  induction (lt_wf lc) as [lc _ IH]. intros c i r -> Hr.
  destruct (fill_run i r c [] Hr) as (N & b & c' & r' & j & Hf & -> & Hr' & Hle & Hend);
    [simpl; lia|]. simpl app in *.
  destruct b as [|b0 b].
  - assert (c' = []) as -> by (apply Hend, max_chunk_pos).
    exists N. intros fuel Hfu len w s ls Hw Hlen. apply wp_Ok with (a := len) (s' := (w, s)).
    + destruct fuel; cbn [read_chunks]; by run_lift (Hf _ Hfu).
    + exists []. rewrite app_nil_r. simpl. rewrite Z.add_0_r, as_u64_id by done.
      split_and!; try done.
  - destruct (IH (length c') ltac:(rewrite length_app; simpl; lia) c' j r' eq_refl Hr')
      as (N2 & Hrest).
    exists (S (N + N2)). intros [|fuel] Hfu len w s ls Hw Hlen; [lia|]. cbn [read_chunks].
    eapply wp_run; [by rewrite (bind_lift _ _ _ _ (Hf (S fuel) ltac:(lia)))|].
    rewrite decide_False by done. apply wp_bind.
    eapply wp_mono; [by apply append_wp|]. intros [] [w1 s1] (Hw1 & _ & Hlf1 & Hl1).
    eapply wp_mono; [apply Hrest; [lia|done|apply as_u64_range]|].
    intros len' [w2 s2] (ls' & Hw2 & Hc & Hall & Hlf2 & Hl2 & ->). exists ((b0 :: b) :: ls').
    rewrite <- app_assoc in Hw2. split_and!; [done| | |congruence|by etrans|].
    + simpl. by rewrite Hc.
    + constructor; [simpl in *; lia|done].
    + unfold wrap_u, usize_as_u64. rewrite Zplus_mod_idemp_l. f_equal.
      rewrite length_app. lia.
Qed.

Lemma with_writer_wp {A} w (m : M (SimpleHashTreeWriter * St) A) ks Q :
  wp m (w, ks.2) (λ a '(w', s'), Q (a, w') (ks.1, s')) → wp (with_writer w m) ks Q.
Proof. unfold wp, with_writer. by destruct (m (w, ks.2)) as [[] [w' s']]. Qed.

End Reading.

(** ** More fuel changes nothing *)

Section Fuel.
Context {St R : Type} `{!KeyBackend St} `{!Reader R}.
Context `{Cbor Models.HashRefs} `{Cbor Models.HashRef}.

Lemma fill_fuel fuel fuel' chunk (r : R) a :
  fill fuel chunk r = Ok a → fuel ≤ fuel' → fill fuel' chunk r = Ok a.
Proof.
  revert fuel' chunk r. induction fuel as [|fuel IH]; intros fuel' chunk r Hrun Hle.
  - cbn [fill] in Hrun. case_decide as Hd; [done|]. destruct fuel'; cbn [fill];
      by rewrite decide_False.
  - destruct fuel' as [|fuel']; [lia|]. cbn [fill] in *. case_decide; [|done].
    destruct (reader_read _ r) as [[| |[|b0 b]] r']; try done; apply IH; (done || lia).
Qed.

Lemma read_chunks_fuel fuel fuel' (r : R) len (w : SimpleHashTreeWriter * St) a w' :
  read_chunks fuel r len w = (Ok a, w') → fuel ≤ fuel' → read_chunks fuel' r len w = (Ok a, w').
Proof.
  revert fuel' r len w. induction fuel as [|fuel IH]; intros fuel' r len w Hrun Hle.
  all: cbn [read_chunks] in Hrun; apply bind_Ok_inv in Hrun as ([chunk r'] & w1 & Hf & Hrun).
  all: injection Hf as Hf <-.
  - pose proof (fill_fuel 0 fuel' [] r _ Hf Hle) as Hf'.
    case_decide as Hd; [|done]. destruct fuel'; cbn [read_chunks]; run_lift Hf';
      by rewrite decide_True.
  - pose proof (fill_fuel (S fuel) fuel' [] r _ Hf Hle) as Hf'.
    destruct fuel' as [|fuel']; [lia|]. cbn [read_chunks]. run_lift Hf'. case_decide; [done|].
    apply bind_Ok_inv in Hrun as ([] & w2 & Ha & Hrun). run_with Ha. apply IH; (done || lia).
Qed.

Lemma with_writer_Ok {A} w (m : M (SimpleHashTreeWriter * St) A)
    (ks : InternalKeyIndex * St) a w' ks' :
  with_writer w m ks = (Ok (a, w'), ks') ↔
  ks'.1 = ks.1 ∧ m (w, ks.2) = (Ok a, (w', ks'.2)).
Proof.
  unfold with_writer. destruct (m (w, ks.2)) as [[b|e| |] [w2 s2]]; destruct ks'; naive_solver.
Qed.

Lemma insert_file_fuel fuel fuel' e (it : option R) (ks : InternalKeyIndex * St) a ks' :
  insert_file fuel e it ks = (Ok a, ks') → fuel ≤ fuel' →
  insert_file fuel' e it ks = (Ok a, ks').
Proof.
  intros Hrun Hle. destruct it as [r|]; [|done]. cbn [insert_file] in *.
  apply bind_Ok_inv in Hrun as ([len w] & ks1 & Hw & Hrun).
  assert (with_writer (hash_tree_writer Models.FileChunk) (read_chunks fuel' r 0) ks
    = (Ok (len, w), ks1)) as Hw'.
  { apply with_writer_Ok in Hw as [? Hw]. apply with_writer_Ok. split; [done|].
    by eapply read_chunks_fuel. }
  by run_with Hw'.
Qed.

Lemma handle_fuel fuel fuel' (msg : Msg R) (ks : InternalKeyIndex * St) a ks' :
  handle fuel msg ks = (Ok a, ks') → fuel ≤ fuel' → handle fuel' msg ks = (Ok a, ks').
Proof.
  intros Hrun Hle. destruct msg; [|done..]. cbn [handle] in *. unfold handle_insert in *.
  apply bind_Ok_inv in Hrun as (stored & ks1 & Hl & Hrun). run_with Hl.
  destruct stored as [stored|]; [|by eapply insert_file_fuel].
  destruct (key.data_looks_unchanged entry stored); [|by eapply insert_file_fuel].
  apply bind_Ok_inv in Hrun as (known & ks2 & Hk & Hrun). run_with Hk.
  destruct known; [done|by eapply insert_file_fuel].
Qed.

End Fuel.

(** ** Listings *)

Section Listing.
Context {St R : Type} `{!KeyBackend St} `{!Reader R}.
Context `{Cbor Models.HashRefs} `{Cbor Models.HashRef}.

Lemma list_elems (ks : InternalKeyIndex * St) (l : list (key.Entry * option tree.HashRef)) :
  (∀ e, e ∈ l → ∀ hash, key.data e.1 ≠ key.FileHash hash) →
  mapM' list_elem l ks = (Ok ((λ e, (e.1, e.2, e.2)) <$> l), ks).
Proof.
  intros Hl. induction l as [|[e h] l IH]; [done|]. cbn [mapM'].
  assert (list_elem (e, h) ks = (Ok (e, h, h), ks)) as Hel.
  { unfold list_elem. specialize (Hl (e, h) ltac:(by left)). simpl in Hl.
    destruct h; [done|]. by destruct (key.data e) eqn:E; try destruct (Hl _ eq_refl). }
  run_with Hel. run_with (IH ltac:(intros; apply Hl; by right)). done.
Qed.

(** Rows that are no bare digests are listed without the hash index. *)
Lemma list_dir_run (ks : InternalKeyIndex * St) q es :
  list_dir q ks.1 = (Ok es, ks.1) → (∀ e, e ∈ es → ∀ hash, key.data e.1 ≠ key.FileHash hash) →
  ∀ fuel, handle (R := R) fuel (ListDir q) ks = (Ok (ListResult ((λ e, (e.1, e.2, e.2)) <$> es)), ks).
Proof.
  intros Hl He fuel. cbn [handle]. unfold on_index.
  run_with (zoom_Ok fst_lens _ _ _ _ Hl). change (lset fst_lens ks.1 ks) with (ks.1, ks.2).
  replace (ks.1, ks.2) with ks by (by destruct ks).
  by run_with (list_elems ks es He).
Qed.

End Listing.

(** ** The invariant of a scan *)

Section Scan.
Context {St R : Type} `{KeyBackendLaws St} `{ReaderLaws R}.
Context `{CborLaws Models.HashRefs} `{CborLaws Models.HashRef}.
Implicit Types (s : St) (x : InternalKeyIndex) (V : visited) (C : gmap Z bytes).

(** The row is a file's, under whose reference [c] can be read. *)
Definition file_row s (d : KeyData) (c : bytes) : Prop :=
  ∃ b h ls, key_schema.hash_ref d = Some b ∧ tree.from_bytes b = Ok h ∧
    is_Some (key_schema.hash d) ∧ key_schema.symbolic_link_path d = None ∧
    denotes s Models.FileChunk h ls ∧ concat ls = c.

Lemma file_row_later s s' d c : later s s' → file_row s d c → file_row s' d c.
Proof.
  intros Hl (b & h & ls & ? & ? & ? & ? & Hd & ?). exists b, h, ls.
  split_and!; try done. by eapply denotes_later.
Qed.

Lemma file_row_set_tag s t d c : file_row s d c → file_row s (key_schema.set_tag t d) c.
Proof. by destruct d. Qed.

Lemma file_row_entry s e h ls :
  denotes s Models.FileChunk h ls → entry_link e = None →
  file_row s (entry_row e (Some h)) (concat ls).
Proof.
  intros Hd He. exists (tree.as_bytes h), (tree.norm h), ls.
  split_and!; try done.
  - apply tree.href_from_bytes_as_bytes. by eapply denotes_wf.
  - by apply denotes_norm.
Qed.

(** [C] holds the contents of the files that are known. *)
Definition Store_ok V C (ks : InternalKeyIndex * St) : Prop :=
  Scan_ok V ks.1 ∧ backend_ok ks.2 ∧
  ∀ k c, C !! k = Some c → ∃ d, top_row (cur ks.1) k = Some d ∧ file_row ks.2 d c.

(** *** Entering a file in the index *)

Lemma top_row_insert t k d j :
  top_row (key_schema.mkTables (key_tree t) (<[(k, false) := d]> (key_data t))) j =
  if decide (j = k) then Some d else top_row t j.
Proof.
  unfold top_row. cbn [key_data]. case_decide as Hd.
  - subst. by rewrite lookup_insert_eq.
  - by rewrite !lookup_insert_ne by congruence.
Qed.

(** [e] carries the id of the node with its parent and name, if there is one. *)
Definition found x (e : key.Entry) : Prop :=
  match key.node_id e with
  | Some k => key_tree (cur x) !! k = Some (entry_node e)
  | None => ∀ k, key_tree (cur x) !! k ≠ Some (entry_node e)
  end.

Record placed x (e : key.Entry) : Prop := {
  pl_parent : ∀ p, key.parent_id e = Some p → is_Some (key_tree (cur x) !! p);
  pl_room : (next_rowid (key_tree (cur x)) < 2 ^ 63)%Z;
}.

Lemma placed_cast x e : tree_ok (key_tree (cur x)) → placed x e → cast_id (key.parent_id e).
Proof.
  intros Ht [Hp _]. unfold cast_id. destruct (key.parent_id e) as [p|]; [|done]. simpl. f_equal.
  by apply (as_u64_id_node _ _ Ht), Hp.
Qed.

(** What an operation on the index that visits node [k] does. *)
Record visits V x y (k : Z) (n : KeyNode) (d : KeyData) : Prop := {
  vs_scan : Scan_ok (<[k := (n, d)]> V) y;
  vs_node : key_tree (cur y) !! k = Some n;
  vs_top : ∀ j, top_row (cur y) j = if decide (j = k) then Some d else top_row (cur x) j;
  vs_tree : ∀ j m, key_tree (cur x) !! j = Some m → key_tree (cur y) !! j = Some m;
  vs_new : key_tree (cur y) = key_tree (cur x) ∨
    k = next_rowid (key_tree (cur x)) ∧ key_tree (cur y) = <[k := n]> (key_tree (cur x));
}.

Lemma enter_run V x e h :
  Scan_ok V x → insertable e h → placed x e → found x e →
  ∃ k y, KeyIndex.insert e h x = (Ok (set_node_id (Some k) e), y) ∧
    visits V x y k (entry_node e) (entry_row e h).
Proof.
  intros Hs He Hpl Hfound. pose proof (sc_tables _ _ Hs) as Hok.
  pose proof (placed_cast _ _ (ok_tree _ Hok) Hpl) as Hcast.
  unfold found in Hfound. destruct (key.node_id e) as [k|] eqn:Ek.
  - destruct (as_u64_id_node _ k (ok_tree _ Hok) ltac:(by eexists)) as [_ Hi].
    destruct (insert_old_run e h k x Ek Hi He ltac:(by eexists)) as (y & Hy & Hf & _ & Hc).
    exists k, y. split; [by destruct e; simpl in *; subst|]. split.
    + eapply Scan_insert; try done; rewrite ?Hc; try done.
      apply insert_data_ok; [done|by eexists|by apply entry_row_listable].
    + by rewrite Hc.
    + intros j. by rewrite Hc, top_row_insert.
    + intros j m. by rewrite Hc.
    + left. by rewrite Hc.
  - destruct (insert_new_run e h x Hok Ek He (pl_room _ _ Hpl) Hfound) as (y & Hy & Hf & Hc).
    { intros p Hp. apply (pl_parent _ _ Hpl). by rewrite <- Hcast. }
    set (k := next_rowid (key_tree (cur x))) in *. exists k, y. split; [done|].
    assert (∀ j m, key_tree (cur x) !! j = Some m → key_tree (cur y) !! j = Some m) as Hsub.
    { intros j m Hj. rewrite Hc. cbn [key_tree]. rewrite lookup_insert_ne; [done|].
      intros <-. unfold k in Hj. by rewrite max_key_fresh in Hj. }
    assert (key_tree (cur y) !! k = Some (entry_node e)) as Hk.
    { rewrite Hc. apply lookup_insert_eq. }
    split; [|done| |done|right; by rewrite Hc].
    + eapply Scan_insert; try done; rewrite ?Hc; try done.
      apply insert_new_ok; [done|apply Hpl|done| |by apply entry_row_listable].
      intros p Hp. apply (pl_parent _ _ Hpl). by rewrite <- Hcast.
    + intros j. rewrite Hc. unfold top_row. cbn [key_data]. case_decide as Hd.
      * subst. by rewrite lookup_insert_eq.
      * by rewrite !lookup_insert_ne by congruence.
Qed.

Lemma mark_visits V x k n d :
  Scan_ok V x → key_tree (cur x) !! k = Some n → top_row (cur x) k = Some d →
  ∃ y, (∀ e, key.node_id e = Some k → mark_reserved e x = (Ok (), y)) ∧
    visits V x y k n (key_schema.set_tag tags.Reserved d) .
Proof.
  intros Hs Hk Htop. pose proof (sc_tables _ _ Hs) as Hok.
  destruct (as_u64_id_node _ k (ok_tree _ Hok) ltac:(by eexists)) as [_ Hi].
  eexists. split; [intros e He; by apply mark_run|]. split.
  - by eapply Scan_mark.
  - done.
  - intros j. cbn [cur set_cur]. unfold top_row in *. cbn [key_data].
    rewrite !lookup_update. cbn [fst]. case_decide as Hd.
    + subst. rewrite bool_decide_true by done.
      destruct (key_data (cur x) !! (k, false)); simpl; [congruence|]. by rewrite Htop.
    + rewrite bool_decide_false by done.
      destruct (key_data (cur x) !! (j, false)); simpl; [done|].
      by destruct (key_data (cur x) !! (j, true)).
  - done.
  - by left.
Qed.

(** *** One [Insert] *)

(** The known contents after a visit of [k]: what was read, nothing when nothing was. *)
Definition contents (k : Z) (c : option bytes) (C : gmap Z bytes) : gmap Z bytes :=
  partial_alter (λ _, c) k C.

(** The row of an entry whose contents [c] were read, or that has none. *)
Inductive read_row (e : key.Entry) : option bytes → KeyData → Prop :=
  | read_none : read_row e None (entry_row e None)
  | read_some c h : read_row e (Some c)
      (entry_row (set_byte_length (as_u64 (Z.of_nat (length c))) e) (Some h)).

Lemma Store_visits V C x s y s' k n d c :
  Store_ok V C (x, s) → visits V x y k n d → backend_ok s' → later s s' →
  (∀ c', c = Some c' → file_row s' d c') →
  Store_ok (<[k := (n, d)]> V) (contents k c C) (y, s').
Proof.
  intros (Hs & Hb & HC) [Hv Hk Htop _] Hb' Hl Hc. split_and!; [done|done|].
  intros j c'. unfold contents. cbn [fst snd]. rewrite Htop. case_decide as Hj.
  - subst. rewrite lookup_partial_alter_eq. intros ->. exists d. auto.
  - rewrite lookup_partial_alter_ne by done. intros Hcj.
    destruct (HC _ _ Hcj) as (d' & ? & ?). exists d'. split; [done|]. by eapply file_row_later.
Qed.

Lemma contents_id k C : contents k (C !! k) C = C.
Proof. apply map_eq. intros j. unfold contents. destruct (decide (j = k)) as [->|].
  - by rewrite lookup_partial_alter_eq.
  - by rewrite lookup_partial_alter_ne. Qed.

(** What is inserted: a directory or link without contents, or a file with something to
    open. *)
Definition insertable_msg (e : key.Entry) (src : option (option R)) : Prop :=
  match src with
  | Some _ => key.data e = key.FilePlaceholder
  | None => key.data e = key.DirPlaceholder ∨ ∃ p, key.data e = key.Symlink p
  end.

(** What opening and reading the source gives. *)
Definition source_holds (it : option R) (c : option bytes) : Prop :=
  match it with
  | Some r => ∃ i c', c = Some c' ∧ holds i r c'
  | None => c = None
  end.

Lemma insert_file_wp it c :
  source_holds it c → ∃ N, ∀ fuel, N ≤ fuel → ∀ V C x s e,
  Store_ok V C (x, s) → placed x e → found x e → insertable e None →
  (is_Some it → key.data e = key.FilePlaceholder) →
  wp (insert_file fuel e it) (x, s) (λ r ks', ∃ k d,
    r = Id k ∧ read_row e c d ∧ visits V x ks'.1 k (entry_node e) d ∧
    Store_ok (<[k := (entry_node e, d)]> V) (contents k c C) ks' ∧ later s ks'.2).
Proof.
  intros Hit. destruct it as [r|].
  - destruct Hit as (i & c' & -> & Hr).
    destruct (read_chunks_wp i r c' Hr) as (N & Hread). exists N.
    intros fuel Hfu V C x s e HS Hpl Hf He Hdata. pose proof HS as (Hs & Hb & _).
    cbn [fst snd] in *. specialize (Hdata ltac:(by eexists)).
    cbn [insert_file]. apply wp_bind, with_writer_wp. cbn [snd].
    eapply wp_mono; [apply Hread; [done| |done]|].
    { apply Writer_new_ok; [lia|done]. }
    intros len [w1 s1] (ls & Hw & Hcat & _ & Hlf & Hl1 & ->). apply wp_bind, with_writer_wp.
    cbn [fst snd] in *. eapply wp_mono; [by apply hash_wp|].
    intros root [w2 s2] (Hb2 & Hl2 & Hd). rewrite Hlf in Hd. cbn [leaf_type Writer_new] in Hd.
    set (e2 := set_byte_length _ e).
    destruct (enter_run V x e2 (Some root)) as (k & y & Hy & Hv); [done| |by destruct Hpl|done|].
    { unfold insertable, e2. cbn [key.data set_byte_length]. rewrite Hdata. simpl.
      by eapply denotes_wf. }
    unfold on_index. eapply wp_step_run; [by apply zoom_Ok|]. cbn [fst snd lset fst_lens].
    eapply wp_Ok; [reflexivity|]. exists k, (entry_row e2 (Some root)).
    assert (concat (stream ls) = c') as Hcs.
    { rewrite <- Hcat. unfold stream. by case_decide; subst. }
    assert (file_row s2 (entry_row e2 (Some root)) c') as Hrow.
    { rewrite <- Hcs. apply file_row_entry; [done|]. unfold entry_link, e2.
      cbn [key.data set_byte_length]. by rewrite Hdata. }
    split_and!; [done|constructor|exact Hv| |simpl; by etrans].
    eapply Store_visits; [done|exact Hv|done|by etrans|]. by intros ? [= <-].
  - simpl in Hit. subst c. exists 0. intros fuel _ V C x s e HS Hpl Hf He _.
    pose proof HS as (Hs & Hb & _). cbn [fst snd insert_file] in *. unfold on_index.
    destruct (enter_run V x e None) as (k & y & Hy & Hv); [done..|].
    eapply wp_step_run; [by apply zoom_Ok|]. cbn [fst snd lset fst_lens].
    eapply wp_Ok; [reflexivity|]. exists k, (entry_row e None).
    split_and!; [done|constructor|exact Hv| |done].
    by eapply Store_visits; [done|exact Hv| | |].
Qed.

(** The node with the entry's parent and name, or none. *)
Lemma find_node x e :
  (∃ k, key_tree (cur x) !! k = Some (entry_node e)) ∨
  (∀ k, key_tree (cur x) !! k ≠ Some (entry_node e)).
Proof.
  destruct (select (λ _ n, bool_decide (n = entry_node e)) (key_tree (cur x))) as [|[k n] l] eqn:E.
  - right. intros k Hk. destruct (select_nil (λ _ n, bool_decide (n = entry_node e))
      (key_tree (cur x))) as [Hno _]. specialize (Hno E _ _ Hk). by case_bool_decide.
  - left. exists k. assert ((k, n) ∈ select (λ _ n, bool_decide (n = entry_node e))
      (key_tree (cur x))) as Hin by (rewrite E; by left).
    apply elem_of_select in Hin as [Hk Hn]. by apply bool_decide_eq_true in Hn as ->.
Qed.

(** A file looks unchanged when its time of modification is that of its row. *)
Definition unchanged (e : key.Entry) (d : KeyData) : Prop :=
  is_Some (key.modified_ts_secs (key.info e)) ∧
  key_schema.modified d = key.modified_ts_secs (key.info e).

Lemma unchanged_spec k e d po :
  (λ p, as_u64 p) <$> po = key.parent_id e →
  key.data_looks_unchanged e (lookup_entry k po (key.name (key.info e)) d) = true ↔
  unchanged e d.
Proof.
  intros Hpo. unfold key.data_looks_unchanged, unchanged, lookup_entry. cbn [key.parent_id key.info
    key.name key.modified_ts_secs row_info]. rewrite Hpo, andb_true_iff, !bool_decide_eq_true.
  split; intros [? Hm]; (split; [done|]); [|by rewrite Hm]. by injection Hm.
Qed.

(** The outcome of an insertion: the node was read, or found unchanged and marked. *)
Definition inserted V C x s (e : key.Entry) (c : option bytes) (r : Reply)
    (ks' : InternalKeyIndex * St) : Prop :=
  ∃ k d, r = Id k ∧ visits V x ks'.1 k (entry_node e) d ∧ later s ks'.2 ∧
    (read_row e c d ∧ Store_ok (<[k := (entry_node e, d)]> V) (contents k c C) ks' ∨
     ∃ d0, top_row (cur x) k = Some d0 ∧ unchanged e d0 ∧
       d = key_schema.set_tag tags.Reserved d0 ∧
       Store_ok (<[k := (entry_node e, d)]> V) C ks').

Lemma insertable_msg_None e src : insertable_msg e src → insertable e None.
Proof.
  unfold insertable_msg, insertable. destruct src; [by intros ->|].
  by intros [->|[p ->]].
Qed.

(** A node that is read is entered, whatever the backend has stored in between. *)
Lemma insert_read_wp it c :
  source_holds it c → ∃ N, ∀ fuel, N ≤ fuel → ∀ V C x s s1 e o,
  Store_ok V C (x, s) → placed x e → insertable e None →
  (is_Some it → key.data e = key.FilePlaceholder) → found x (set_node_id o e) →
  backend_ok s1 → later s s1 →
  wp (insert_file fuel (set_node_id o e) it) (x, s1) (inserted V C x s e c).
Proof.
  intros Hsrc. destruct (insert_file_wp _ _ Hsrc) as (N & Hfile). exists N.
  intros fuel Hfu V C x s s1 e o (Hs & Hb & HC) Hpl Hins Hdata Hf Hb1 Hl1. cbn [fst snd] in *.
  eapply wp_mono; [apply Hfile with (V := V) (C := C); [done| |by destruct Hpl|done..]|].
  { split_and!; [done|done|]. intros k' c' Hk'. destruct (HC _ _ Hk') as (d' & ? & ?).
    exists d'. split; [done|]. by eapply file_row_later. }
  intros r ks' (k & d & -> & Hrow & Hv & HS' & Hl). exists k, d.
  split_and!; [done|exact Hv|by etrans|left].
  split; [destruct Hrow as [|c' h]; [exact (read_none e)|exact (read_some e c' h)]|exact HS'].
Qed.

Lemma short_circuit_wp stored b (x : InternalKeyIndex) s :
  backend_ok s →
  wp (short_circuit stored b) (x, s) (λ _ '(x1, s1), x1 = x ∧ backend_ok s1 ∧ later s s1).
Proof.
  intros Hb. unfold short_circuit.
  assert (wp (mret true : M (InternalKeyIndex * St) bool) (x, s)
    (λ _ '(x1, s1), x1 = x ∧ backend_ok s1 ∧ later s s1)) as Hret by (by split_and!).
  destruct (key.data stored), b; try exact Hret.
  apply wp_zoom. cbn [snd lset lget snd_lens]. eapply wp_mono; [by apply kb_hash_exists_ok|].
  by intros.
Qed.

(** A node that is there is marked when it looks unchanged, and read again otherwise. *)
Lemma insert_found_wp fuel V C x s e (src : option (option R)) c k :
  Store_ok V C (x, s) → placed x e → key_tree (cur x) !! k = Some (entry_node e) →
  (∀ s1, backend_ok s1 → later s s1 →
    wp (insert_file fuel (set_node_id (Some k) e) (src ≫= λ o, o)) (x, s1) (inserted V C x s e c)) →
  wp (handle fuel (Insert e src)) (x, s) (inserted V C x s e c).
Proof.
  intros HS Hpl Hk Hagain. pose proof HS as (Hs & Hb & HC). cbn [fst snd] in *.
  pose proof (sc_tables _ _ Hs) as Hok. pose proof (placed_cast _ _ (ok_tree _ Hok) Hpl) as Hcast.
  destruct (top_row_in _ _ _ Hok Hk) as (d & Htop & _). cbn [handle]. unfold handle_insert.
  assert (KeyIndex.lookup (key.parent_id e) (key.name (key.info e)) x = (Ok (Some
    (lookup_entry k (key.parent_id e) (key.name (key.info e)) d)), x)) as Hlook.
  { apply lookup_found; [done|done| |done]. rewrite Hk. unfold entry_node. by rewrite Hcast. }
  eapply wp_step_run; [by apply zoom_Ok|]. cbn [fst snd lset fst_lens].
  destruct (as_u64_id_node _ k (ok_tree _ Hok) ltac:(by eexists)) as [Hu Hi].
  set (stored := lookup_entry _ _ _ d).
  assert (key.node_id stored = Some k) as Hsid by (unfold stored; simpl; by rewrite Hu).
  rewrite Hsid. destruct (key.data_looks_unchanged e stored) eqn:Eun; [|by apply Hagain].
  assert (unchanged e d) as Hun.
  { eapply unchanged_spec; [|exact Eun]. destruct (key.parent_id e) as [p|] eqn:Ep; [|done].
    simpl. f_equal. eapply as_u64_id_node; [apply Hok|by eapply pl_parent]. }
  apply wp_bind. eapply wp_mono; [by apply short_circuit_wp|].
  intros known [x1 s1] (-> & Hb1 & Hl1). destruct known; [|by apply Hagain].
  destruct (mark_visits V x k _ d Hs Hk Htop) as (y & Hmark & Hv).
  eapply wp_step_run; [apply zoom_Ok, Hmark, Hsid|]. cbn [fst snd lset fst_lens].
  eapply wp_Ok; [reflexivity|]. exists k, (key_schema.set_tag tags.Reserved d).
  split_and!; [done|exact Hv|exact Hl1|right]. exists d. split_and!; [done..|].
  rewrite <- (contents_id k C). eapply Store_visits; [done|exact Hv|done|done|].
  intros c' Hc'. destruct (HC _ _ Hc') as (d' & Hd' & Hrow). simplify_eq.
  apply file_row_set_tag. by eapply file_row_later.
Qed.

Lemma handle_insert_wp e src c :
  key.node_id e = None → insertable_msg e src → source_holds (src ≫= λ o, o) c →
  ∃ N, ∀ fuel, N ≤ fuel → ∀ V C x s, Store_ok V C (x, s) → placed x e →
    wp (handle fuel (Insert e src)) (x, s) (inserted V C x s e c).
Proof.
  intros Hid Hmsg Hsrc. destruct (insert_read_wp _ _ Hsrc) as (N & Hread). exists N.
  intros fuel Hfu V C x s HS Hpl. pose proof HS as (Hs & Hb & HC). cbn [fst snd] in *.
  pose proof (sc_tables _ _ Hs) as Hok. pose proof (insertable_msg_None _ _ Hmsg) as Hins.
  assert (is_Some (src ≫= λ o, o) → key.data e = key.FilePlaceholder) as Hdata.
  { intros [r Hr]. destruct src; [done|discriminate Hr]. }
  destruct (find_node x e) as [[k Hk]|Hno].
  { apply (insert_found_wp _ V C x s e src c k HS Hpl Hk). intros s1 Hb1 Hl1. by eapply Hread. }
  assert (KeyIndex.lookup (key.parent_id e) (key.name (key.info e)) x = (Ok None, x)) as Hlook.
  { pose proof (placed_cast _ _ (ok_tree _ Hok) Hpl) as Hcast.
    apply lookup_missing; [done|]. intros k. unfold entry_node in Hno. rewrite Hcast in Hno.
    apply Hno. }
  cbn [handle]. unfold handle_insert.
  eapply wp_step_run; [by apply zoom_Ok|]. cbn [fst snd lset fst_lens].
  assert (e = set_node_id None e) as He by (destruct e; simpl in *; by subst).
  rewrite He at 1. by apply Hread.
Qed.

End Scan.
