(* ===== verification/KeyStoreSpec.v ===== *)
(** * The key store: the theorems

    A scan is a sequence of [Insert]s. After [CommitReservedNodes] and [Flush] a listing of a
    scanned directory shows what the scan saw there, and every file's contents can be read. *)

From S2P Require Import Prelude Utf8 Cbor Codec Refs Ordered Upq Timer Db Crypto ModelSodium.
From S2P Require Import HashIndex ModelWorld BlobSpec.
From S2P Require Import Backend Blob BlobStore HashTree HashTreeSim HashStore StoreIndex HashStoreOk.
From S2P Require Import HashStoreSpec KeyIndex KeyIndexOk KeyIndexScan KeyStore KeyStoreOk.
From S2P Require Models.
Import Ordered.tags (Tag, num).
Import key_schema (KeyNode, mkKeyNode, KeyData, mkKeyData, key_tree, key_data).

(** ** What a scan saw *)

(** The unsigned fields of an entry's information are in their ranges, its name is one that
    the code can make. *)
Record entry_wf (e : key.Entry) : Prop := {
  ew_id : key.node_id e = None;
  ew_name : Models.FileName_wf (key.name (key.info e));
  ew_info : key.Info_wf (key.info e);
  ew_mode : from_option (λ z, is_u32 z) True (key.permissions (key.info e));
}.

(** What was seen last: an entry, and whether it was read (and what), or found with the time of
    modification that its row [d] has; its contents are [c] then. *)
Inductive seen := Read (c : option bytes) | Unchanged (d : KeyData) (c : option bytes).

Abbreviation scan := (gmap Z (key.Entry * seen)).

Section Scan.
Context {St R : Type} `{KeyBackendLaws St} `{ReaderLaws R}.
Context `{CborLaws Models.HashRefs} `{CborLaws Models.HashRef}.
Implicit Types (s : St) (x : InternalKeyIndex) (C : gmap Z bytes) (vs : scan).
Implicit Types (ks : InternalKeyIndex * St).

Definition looks_like x (e : key.Entry) (k : Z) (d : KeyData) : Prop :=
  key_tree (cur x) !! k = Some (entry_node e) ∧ top_row (cur x) k = Some d ∧ unchanged e d.
Definition looks_unchanged x (e : key.Entry) : Prop := ∃ k d, looks_like x e k d.

(** What the code inserts, where the index has room. *)
Record visit_ok x (e : key.Entry) (src : option (option R)) (c : option bytes) : Prop := {
  vo_entry : entry_wf e;
  vo_msg : insertable_msg e src;
  vo_source : source_holds (src ≫= λ o, o) c;
  vo_placed : placed x e;
}.

(** [vs] is what was seen, [C] the contents that are known: at first those of [C0], which the
    index has from an earlier scan. A file that looks unchanged may be read or not: its
    contents stay known if they really are what they were. *)
Inductive scanned (C0 : gmap Z bytes) ks0 : scan → gmap Z bytes → InternalKeyIndex * St → Prop :=
  | scanned_start : scanned C0 ks0 ∅ C0 ks0
  | scanned_insert vs C ks e src c fuel i ks' :
      scanned C0 ks0 vs C ks → visit_ok ks.1 e src c →
      handle fuel (Insert e src) ks = (Ok (Id i), ks') →
      ¬ looks_unchanged ks.1 e →
      scanned C0 ks0 (<[i := (e, Read c)]> vs) (contents i c C) ks'
  | scanned_unchanged vs C ks e src c d fuel i ks' :
      scanned C0 ks0 vs C ks → visit_ok ks.1 e src c →
      handle fuel (Insert e src) ks = (Ok (Id i), ks') →
      looks_like ks.1 e i d →
      scanned C0 ks0 (<[i := (e, Unchanged d c)]> vs)
        (if decide (C !! i = c) then C else base.delete i C) ks'.

(** The directories that a scan of [po] has reached. *)
Inductive in_scan vs (po : option Z) : option Z → Prop :=
  | in_scan_top : in_scan vs po po
  | in_scan_child q i e sn : in_scan vs po q → vs !! i = Some (e, sn) → key.parent_id e = q →
      in_scan vs po (Some i).

(** The row of an entry that was read. *)
Definition was_read (e : key.Entry) (c : option bytes) (d : KeyData) : Prop :=
  read_row e c d ∧ (is_Some c → key.data e = key.FilePlaceholder).

(** What looks unchanged is marked, or read all the same when its hash is not known. *)
Definition seen_row (e : key.Entry) (sn : seen) (d : KeyData) : Prop :=
  match sn with
  | Read c => was_read e c d
  | Unchanged d0 c => d = key_schema.set_tag tags.Reserved d0 ∨ was_read e c d
  end.

(** The rows behind what was seen. *)
Record saw (V : visited) vs : Prop := {
  saw_row : ∀ i e sn, vs !! i = Some (e, sn) → entry_wf e ∧ cast_id (key.parent_id e) ∧
    ∃ d, V !! i = Some (entry_node e, d) ∧ seen_row e sn d;
  saw_only : ∀ i nd, V !! i = Some nd → is_Some (vs !! i);
}.

Lemma saw_insert V vs i e sn d :
  saw V vs → entry_wf e → cast_id (key.parent_id e) → seen_row e sn d →
  saw (<[i := (entry_node e, d)]> V) (<[i := (e, sn)]> vs).
Proof.
  intros [Hr Ho] He Hc Hsn. split.
  - intros j e' sn'. rewrite lookup_insert_Some. intros [[<- [= <- <-]]|[Hne Hj]].
    + split_and!; [done..|]. exists d. by rewrite lookup_insert_eq.
    + destruct (Hr _ _ _ Hj) as (? & ? & d' & ? & ?). split_and!; [done..|].
      exists d'. by rewrite lookup_insert_ne.
  - intros j nd. rewrite lookup_insert_Some. intros [[<- _]|[Hne Hj]];
      apply lookup_insert_is_Some'; [by left|right; by eapply Ho].
Qed.

(** One [Insert] that has returned. *)
Lemma visit_run V C x s e src c N i ks' :
  Store_ok V C (x, s) → visit_ok x e src c →
  handle N (Insert e src) (x, s) = (Ok (Id i), ks') →
  inserted V C x s e c (Id i) ks' ∧ cast_id (key.parent_id e) ∧
  (is_Some c → key.data e = key.FilePlaceholder).
Proof.
  intros HS [He Hmsg Hsrc Hpl] Hrun.
  destruct (handle_insert_wp e src c (ew_id _ He) Hmsg Hsrc) as (N2 & Hwp).
  pose proof (wp_Ok_inv _ _ _ _ _ (Hwp (N + N2) ltac:(lia) V C x s HS Hpl)
    (handle_fuel N (N + N2) _ _ _ _ Hrun ltac:(lia))) as Hins.
  split_and!; [done| |].
  - eapply placed_cast; [|done]. apply HS.
  - intros [c' Hc']. destruct src; [done|]. simpl in Hsrc. congruence.
Qed.

(** An entry found unchanged looked unchanged. *)
Lemma inserted_inv V C x s e c i ks' :
  Store_ok V C (x, s) → inserted V C x s e c (Id i) ks' →
  ∃ d, (read_row e c d ∧ Store_ok (<[i := (entry_node e, d)]> V) (contents i c C) ks') ∨
    (∃ d0, looks_like x e i d0 ∧ d = key_schema.set_tag tags.Reserved d0 ∧
      Store_ok (<[i := (entry_node e, d)]> V) C ks').
Proof.
  intros HS (k & d & [= <-] & Hv & Hl & Hout). exists d.
  destruct Hout as [?|(d0 & Htop & Hun & Hd & HS')]; [by left|right]. exists d0.
  split; [|done]. split_and!; [|done..].
  assert (is_Some (key_tree (cur x) !! i)) as [m Hm].
  { unfold top_row in Htop. pose proof (sc_tables _ _ (proj1 HS)) as Hok.
    destruct (key_data (cur x) !! (i, false)) eqn:E; by eapply ok_node. }
  rewrite Hm. f_equal. pose proof (vs_tree _ _ _ _ _ _ Hv _ _ Hm).
  pose proof (vs_node _ _ _ _ _ _ Hv). congruence.
Qed.

Lemma Store_ok_less V C C' ks : C' ⊆ C → Store_ok V C ks → Store_ok V C' ks.
Proof.
  intros Hsub (? & ? & HC). split_and!; [done..|]. intros k c Hk. apply HC.
  by eapply lookup_weaken.
Qed.

Lemma scanned_ok C0 ks0 vs C ks :
  Store_ok ∅ C0 ks0 → scanned C0 ks0 vs C ks → ∃ V, Store_ok V C ks ∧ saw V vs.
Proof.
  intros Hstart Hs. induction Hs as [|vs C ks e src c N i ks' Hs IH Hv Hrun Hun
    |vs C ks e src c d0 N i ks' Hs IH Hv Hrun Hun].
  - exists ∅. split; [done|]. split; intros i ? *; by rewrite lookup_empty.
  - destruct IH as (V & HS & Hsaw). destruct ks as [x s].
    destruct (visit_run V C x s e src c N i ks' HS Hv Hrun) as (Hins & Hcast & Hd).
    destruct (inserted_inv _ _ _ _ _ _ _ _ HS Hins) as [d [[Hrow HS']|(d0 & ? & _)]].
    2: { destruct Hun. by exists i, d0. }
    exists (<[i := (entry_node e, d)]> V). split; [done|]. by apply saw_insert; [|apply Hv|..].
  - destruct IH as (V & HS & Hsaw). destruct ks as [x s].
    destruct (visit_run V C x s e src c N i ks' HS Hv Hrun) as (Hins & Hcast & Hd).
    destruct (inserted_inv _ _ _ _ _ _ _ _ HS Hins) as [d HS'].
    exists (<[i := (entry_node e, d)]> V). split.
    2: { apply saw_insert; [done|apply Hv|done|]. destruct HS' as [[? _]|(d1 & (_ & Htop & _) & -> & _)].
      - by right.
      - left. destruct Hun as (_ & Htop0 & _). cbn [fst] in Htop0. by simplify_eq. }
    destruct HS' as [[_ HS']|(_ & _ & _ & HS')]; (eapply Store_ok_less; [|exact HS']).
    + case_decide as Hc; [by rewrite <- Hc, contents_id|]. apply map_subseteq_spec.
      intros j c'. unfold contents. destruct (decide (j = i)) as [->|Hne].
      * by rewrite lookup_delete_eq.
      * by rewrite lookup_delete_ne, lookup_partial_alter_ne.
    + case_decide; [done|]. apply delete_subseteq.
Qed.

(** *** What a listing shows *)

(** A file that was not read and a link that is no UTF-8 have a directory's row. *)
Definition shown_data (e : key.Entry) (c : option bytes) : key.Data :=
  match c, key.data e with
  | Some _, _ => key.FilePlaceholder
  | None, key.Symlink path => if valid_utf8 path then key.Symlink path else key.DirPlaceholder
  | None, _ => key.DirPlaceholder
  end.

Definition shown_info (e : key.Entry) (c : option bytes) : key.Info :=
  let i := key.info e in
  key.mkInfo (key.name i) (key.created_ts_secs i) (key.modified_ts_secs i)
    (key.accessed_ts_secs i) (key.permissions i) (key.user_id i) (key.group_id i)
    (match c with Some c => Some (as_u64 (Z.of_nat (length c))) | None => key.byte_length i end) 0.

(** [el] shows what was seen of [i]; its contents can be read if they are known. *)
Record shows (ks : InternalKeyIndex * St) C (i : Z) (e : key.Entry) (sn : seen) (el : DirElem)
    : Prop := {
  sh_id : key.node_id el.1.1 = Some i;
  sh_parent : key.parent_id el.1.1 = key.parent_id e;
  sh_name : key.name (key.info el.1.1) = key.name (key.info e);
  sh_read : ∀ c, sn = Read c →
    key.data el.1.1 = shown_data e c ∧ key.info el.1.1 = shown_info e c;
  sh_unchanged : ∀ d c, sn = Unchanged d c → key.info el.1.1 = row_info (key.name (key.info e)) d ∨
    key.data el.1.1 = shown_data e c ∧ key.info el.1.1 = shown_info e c;
  sh_contents : ∀ c, C !! i = Some c → key.data el.1.1 = key.FilePlaceholder ∧
    ∃ h ls, el = (el.1.1, Some h, Some h) ∧ concat ls = c ∧
    ∃ N w, ∀ fuel, N ≤ fuel → collect_leafs fuel (init h ks.2) = (Ok ls, w);
}.

Lemma as_u64_as_i64_opt o : from_option (λ z, is_u64 z) True o →
  (λ u, as_u64 u) <$> ((λ u, as_i64 u) <$> o) = o.
Proof. destruct o as [z|]; [|done]. simpl. intros Hz. by rewrite as_u64_as_i64. Qed.

Lemma row_info_entry e h : entry_wf e →
  row_info (Models.FileName_from_vec (key_schema.name (entry_node e))) (entry_row e h) =
  shown_info e None.
Proof.
  intros [_ Hn [Hl Hu Hg] Hm]. unfold row_info, shown_info, entry_row, new_key_data, entry_node.
  cbn [key_schema.name key_schema.created key_schema.modified key_schema.accessed
    key_schema.permissions key_schema.user_id key_schema.group_id key_schema.file_size].
  rewrite Models.FileName_from_into_vec, !as_u64_as_i64_opt by done. f_equal.
  destruct (key.permissions (key.info e)) as [m|]; [|done]. simpl in *. by rewrite wrap_u_id.
Qed.

Lemma entry_wf_length e z : entry_wf e → is_u64 z → entry_wf (set_byte_length z e).
Proof. intros [? ? [? ? ?] ?] Hz. by split. Qed.

(** The entry a row is listed as. *)
Lemma list_row_read i e c d e' h :
  entry_wf e → (is_Some c → key.data e = key.FilePlaceholder) → read_row e c d →
  list_row (i, entry_node e, true, d) = Ok (e', h) →
  key.data e' = shown_data e c ∧ key.info e' = shown_info e c.
Proof.
  intros He Hc Hrow. destruct Hrow as [|c hr].
  - unfold list_row, entry_row, entry_link, shown_data. cbn [key_schema.hash key_schema.hash_ref
      key_schema.symbolic_link_path new_key_data fmap option_fmap option_map].
    destruct (key.data e) as [|?| |path] eqn:Ed.
    4: unfold from_utf8; destruct (valid_utf8 path) eqn:Ev; cbn -[row_info];
      rewrite ?Ev; unfold from_utf8; rewrite ?Ev; cbn -[row_info].
    all: cbn -[row_info]; intros [= <- <-]; cbn [key.data key.info]; (split; [done|]);
      by rewrite <- (row_info_entry e None He).
  - specialize (Hc ltac:(by eexists)). set (e2 := set_byte_length _ e).
    assert (entry_wf e2) as He2 by (apply entry_wf_length; [done|apply as_u64_range]).
    unfold list_row, entry_row, entry_link. cbn [key_schema.hash key_schema.hash_ref
      key_schema.symbolic_link_path new_key_data fmap option_fmap option_map e2 set_byte_length
      key.data]. rewrite Hc.
    destruct (unwrap (tree.from_bytes (tree.as_bytes hr))) as [h0| | |]; cbn -[row_info]; try done.
    intros [= <- <-]. cbn [key.data key.info]. split; [done|].
    exact (row_info_entry e2 (Some hr) He2).
Qed.

Lemma list_row_ids i n c d e' h :
  list_row (i, n, c, d) = Ok (e', h) →
  key.node_id e' = Some (as_u64 i) ∧
  key.parent_id e' = (λ p, as_u64 p) <$> key_schema.parent_id n ∧
  key.name (key.info e') = Models.FileName_from_vec (key_schema.name n) ∧
  ∀ hash, key.data e' ≠ key.FileHash hash.
Proof.
  unfold list_row. intros (data & Hdata & (href & Hh & [= <- <-])%res_bind_Ok_inv)%res_bind_Ok_inv.
  split_and!; [done..|]. intros hash. cbn [key.data].
  destruct (key_schema.hash d), (key_schema.symbolic_link_path d) as [p|]; simplify_eq; try done.
  apply res_bind_Ok_inv in Hdata as (p' & _ & [= <-]). done.
Qed.

Lemma list_row_info i n c d e' h :
  list_row (i, n, c, d) = Ok (e', h) →
  key.info e' = row_info (Models.FileName_from_vec (key_schema.name n)) d.
Proof.
  unfold list_row. by intros (? & _ & (? & _ & [= <- <-])%res_bind_Ok_inv)%res_bind_Ok_inv.
Qed.

Lemma list_row_file s i n c d e' h cts :
  list_row (i, n, c, d) = Ok (e', h) → file_row s d cts →
  key.data e' = key.FilePlaceholder ∧
  ∃ hr ls, h = Some hr ∧ denotes s Models.FileChunk hr ls ∧ concat ls = cts.
Proof.
  intros Hrow (b & hr & ls & Hb & Hhr & [ha Hha] & Hlink & Hden & Hcat). revert Hrow.
  unfold list_row. rewrite Hb, Hha, Hlink. cbn [mbind res_bind]. rewrite Hhr. cbn -[row_info].
  intros [= <- <-]. split; [done|]. by exists hr, ls.
Qed.

(** *** Listing a scanned directory *)

Lemma in_scan_reach V vs po q : saw V vs → in_scan vs po q → reach V po q.
Proof.
  intros Hsaw. induction 1 as [|q i e sn Hq IH Hi Hp]; [constructor|].
  destruct (saw_row _ _ Hsaw _ _ _ Hi) as (_ & Hc & d & Hd & _).
  eapply reach_child; [exact IH|exact Hd|]. unfold entry_node. cbn [key_schema.parent_id].
  by rewrite Hc.
Qed.

(** The ids of what was seen in a directory. *)
Definition seen_in vs (q : option Z) : list Z :=
  (map_to_list (filter (λ ie, key.parent_id ie.2.1 = q) vs)).*1.

Lemma visited_ids V vs q :
  saw V vs → (λ r : jrow, r.1.1.1) <$> visited_children V q ≡ₚ seen_in vs q.
Proof.
  intros Hsaw. apply NoDup_Permutation.
  - apply NoDup_fmap_2_strong; [|apply NoDup_visited_children].
    intros [[[k1 n1] c1] d1] [[[k2 n2] c2] d2].
    rewrite !elem_of_visited_children. simpl. intros (H1k & _ & ->) (H2k & _ & ->) ->. congruence.
  - apply NoDup_fst_map_to_list.
  - intros i. unfold seen_in. rewrite !list_elem_of_fmap. split.
    + intros ([[[k n] c] d] & -> & Hin). apply elem_of_visited_children in Hin as (Hk & Hp & ->).
      destruct (saw_only _ _ Hsaw _ _ Hk) as [[e sn] He]. exists (k, (e, sn)). split; [done|].
      apply elem_of_map_to_list, map_lookup_filter_Some. split; [done|]. simpl.
      destruct (saw_row _ _ Hsaw _ _ _ He) as (_ & Hc & d' & Hd' & _). simplify_eq.
      unfold entry_node. cbn [key_schema.parent_id]. by rewrite Hc.
    + intros ([k [e sn]] & -> & Hin). apply elem_of_map_to_list, map_lookup_filter_Some in Hin as [He Hp].
      simpl in Hp. destruct (saw_row _ _ Hsaw _ _ _ He) as (_ & Hc & d & Hd & _).
      exists (k, entry_node e, true, d). split; [done|]. apply elem_of_visited_children.
      split_and!; [done| |done]. unfold entry_node. cbn [key_schema.parent_id]. by rewrite Hc.
Qed.

(** The listing [l] of [q] shows what was seen there, all of it once. *)
Definition listing vs C (q : option Z) ks (l : list DirElem) : Prop :=
  (λ el, key.node_id el.1.1) <$> l ≡ₚ Some <$> seen_in vs q ∧
  ∀ el, el ∈ l → ∃ i e sn, vs !! i = Some (e, sn) ∧ key.parent_id e = q ∧ shows ks C i e sn el.

(** The rows of a scanned directory, each with what was seen. *)
Lemma listed_rows V vs x po q :
  listed_ok V po (cur x) → saw V vs → cast_id po → reach V po q →
  ∃ l, list_dir q x = (Ok l, x) ∧ (λ e, key.node_id e.1) <$> l ≡ₚ Some <$> seen_in vs q ∧
    ∀ e', e' ∈ l → ∃ i e sn d, vs !! i = Some (e, sn) ∧ key.parent_id e = q ∧ as_u64 i = i ∧
      (λ p, as_u64 p) <$> key.parent_id e = key.parent_id e ∧ V !! i = Some (entry_node e, d) ∧
      list_row (i, entry_node e, true, d) = Ok e'.
Proof.
  intros Hlo Hsaw Hpo Hr. pose proof (lo_committed _ _ _ Hlo) as Hc.
  destruct (scan_listing V x po q Hlo Hpo Hr) as (l & Hl & Hperm). exists l. split_and!; [done| |].
  - rewrite <- (visited_ids _ _ _ Hsaw).
    pose (g := λ r : res (key.Entry * option tree.HashRef), match r with Ok e => key.node_id e.1 | _ => None end).
    assert (g <$> (Ok <$> l) ≡ₚ g <$> (list_row <$> visited_children V q)) as Hg by by rewrite Hperm.
    rewrite <- list_fmap_compose in Hg. etrans; [exact Hg|]. rewrite <- !list_fmap_compose.
    erewrite list_fmap_ext; [done|]. intros j [[[i n] c] d] Hj. cbn [compose fst].
    apply list_elem_of_lookup_2 in Hj.
    assert (list_row (i, n, c, d) ∈ Ok <$> l) as Hin by (rewrite Hperm; by apply list_elem_of_fmap_2).
    apply list_elem_of_fmap in Hin as ([e' h'] & Hrow & He'). rewrite Hrow. cbn [g fst].
    destruct (list_row_ids _ _ _ _ _ _ Hrow) as (Hid & _).
    apply elem_of_visited_children in Hj as (HV & Hp & ->).
    rewrite Hid. f_equal. eapply as_u64_id_node; [apply (co_tables _ _ Hc)|].
    by eapply (lo_there _ _ _ Hlo).
  - intros e' He'. assert (Ok e' ∈ list_row <$> visited_children V q) as Hin.
    { rewrite <- Hperm. by apply list_elem_of_fmap_2. }
    apply list_elem_of_fmap in Hin as ([[[i n] c] d] & Hrow & Hin).
    apply elem_of_visited_children in Hin as (HV & Hp & ->).
    destruct (saw_only _ _ Hsaw _ _ HV) as [[e sn] He].
    destruct (saw_row _ _ Hsaw _ _ _ He) as (_ & Hce & d' & Hd' & _). simplify_eq.
    pose proof (ok_tree _ (co_tables _ _ Hc)) as Ht.
    destruct (lo_there _ _ _ Hlo _ _ _ _ Hr HV eq_refl) as [m Hm].
    destruct (co_node _ _ Hc _ _ _ _ HV Hm) as [-> _].
    exists i, e, sn, d. split_and!; [done|unfold entry_node; cbn [key_schema.parent_id]; by rewrite Hce| | |done|done].
    + by eapply as_u64_id_node; [|eexists].
    + unfold cast_id in Hce. destruct (key.parent_id e) as [p|] eqn:Ep; [|done]. simpl. f_equal.
      apply (as_u64_id_node _ _ Ht). eapply (Ht _ _ Hm). unfold entry_node. cbn [key_schema.parent_id].
      by rewrite Ep, Hce.
Qed.

(** The theorem's core: tables that a scan has left, behind any store in which the contents
    that are known can be read. *)
Lemma listing_shows V vs C po q ks :
  listed_ok V po (cur ks.1) → saw V vs → cast_id po → in_scan vs po q → readable ks.2 →
  (∀ i n d c, V !! i = Some (n, d) → C !! i = Some c → file_row ks.2 d c) →
  ∃ l, (∀ fuel, handle fuel (ListDir q) ks = (Ok (ListResult l), ks)) ∧ listing vs C q ks l.
Proof.
  intros Hlo Hsaw Hpo Hq Hread HC.
  destruct (listed_rows V vs ks.1 po q Hlo Hsaw Hpo (in_scan_reach _ _ _ _ Hsaw Hq))
    as (l & Hl & Hids & Hrows).
  exists ((λ e, (e.1, e.2, e.2)) <$> l). split; [|split].
  - intros fuel. destruct ks as [x s]. apply list_dir_run; [exact Hl|].
    intros [e' h'] He'. destruct (Hrows _ He') as (i & e & sn & d & _ & _ & _ & _ & _ & Hrow).
    by apply list_row_ids in Hrow as (_ & _ & _ & ?).
  - by rewrite <- list_fmap_compose, <- Hids.
  - intros el (e' & -> & He')%list_elem_of_fmap. destruct e' as [e' h].
    destruct (Hrows _ He') as (i & e & sn & d & He & Hp & Hi & Hpu & HV & Hrow).
    exists i, e, sn. split_and!; [done|done|].
    destruct (list_row_ids _ _ _ _ _ _ Hrow) as (Hid & Hpar & Hname & _).
    destruct (saw_row _ _ Hsaw _ _ _ He) as (Hwf & Hce & d' & Hd' & Hsn). simplify_eq.
    split; cbn [fst snd].
    + by rewrite Hid, Hi.
    + rewrite Hpar. unfold entry_node. cbn [key_schema.parent_id]. by rewrite Hce, Hpu.
    + rewrite Hname. apply Models.FileName_from_into_vec, Hwf.
    + intros c ->. destruct Hsn. by eapply list_row_read.
    + intros d0 c ->. destruct Hsn as [->|[? ?]]; [left|right; by eapply list_row_read].
      rewrite (list_row_info _ _ _ _ _ _ Hrow). unfold entry_node. cbn [key_schema.name].
      by rewrite Models.FileName_from_into_vec by apply Hwf.
    + intros c HCi. destruct (list_row_file ks.2 _ _ _ _ _ _ c Hrow) as (Hdata & hr & ls & -> & Hden & Hcat).
      { by eapply HC. }
      split; [done|]. exists hr, ls. split_and!; [done|done|].
      destruct (collect_denotes _ _ _ _ Hread Hden) as (N & s' & _ & Hcol). eauto.
Qed.

Lemma Store_start t secs clk x s C :
  Tables_ok t → KeyIndex_new t secs clk = Ok x → backend_ok s →
  (∀ k c, C !! k = Some c → ∃ d, top_row (cur x) k = Some d ∧ file_row s d c) →
  Store_ok ∅ C (x, s).
Proof. intros Ht Hx Hb HC. split_and!; [|done|done]. by eapply Scan_start. Qed.

(** A flush of the key store keeps the index's tables, and what is stored. *)
Lemma flush_run fuel ks ks' :
  backend_ok ks.2 → handle fuel (Flush (R := R)) ks = (Ok FlushOk, ks') →
  cur ks'.1 = cur ks.1 ∧ committed ks'.1 = cur ks'.1 ∧ backend_ok ks'.2 ∧ later ks.2 ks'.2.
Proof.
  intros Hb Hflush. cbn [handle] in Hflush. unfold flush_all, on_index, on_store in Hflush.
  inv_run. repeat match goal with H : zoom _ _ _ = (Ok _, _) |- _ => apply zoom_Ok_inv in H as (? & ? & ->) end.
  match goal with H : kb_flush _ = _ |- _ => rename H into Hkb end.
  match goal with H : KeyIndex.flush _ = _ |- _ => injection H as <- end.
  destruct ks as [x s]. cbn [lget lset fst_lens snd_lens fst snd] in *.
  pose proof (wp_Ok_inv _ _ _ _ _ (kb_flush_ok _ Hb) Hkb) as [? ?]. done.
Qed.

(** A scan, its commit and a flush. *)
Lemma scan_shown C0 ks0 vs C ks1 po :
  Store_ok ∅ C0 ks0 → scanned C0 ks0 vs C ks1 → cast_id po →
  ∃ ks2, (∀ fuel, handle fuel (CommitReservedNodes (Some po)) ks1 = (Ok ReplyOk, ks2)) ∧
    backend_ok ks1.2 ∧ ks2.2 = ks1.2 ∧
    ∀ fuel ks3, handle fuel Flush ks2 = (Ok FlushOk, ks3) →
    committed ks3.1 = cur ks3.1 ∧ (readable ks3.2 →
    ∀ q, in_scan vs po q →
      ∃ l, (∀ fuel, handle fuel (ListDir q) ks3 = (Ok (ListResult l), ks3)) ∧
        listing vs C q ks3 l).
Proof.
  intros H0s Hscan Hpo. destruct (scanned_ok _ _ _ _ _ H0s Hscan) as (V & (Hs & Hb & HC) & Hsaw).
  destruct ks1 as [x1 s1]. cbn [fst snd] in *.
  destruct (scan_cleaned V x1 po Hs Hpo) as (y & x2 & Hy & Hx2 & Hlo & _).
  exists (x2, s1). split_and!; [|done|done|].
  { intros fuel. cbn [handle]. unfold on_index.
    run_with (zoom_Ok fst_lens _ (x1, s1) _ _ Hy). cbn [lset fst_lens fst snd].
    by run_with (zoom_Ok fst_lens _ (y, s1) _ _ Hx2). }
  intros fuel ks3 Hflush. destruct (flush_run fuel (x2, s1) ks3 Hb Hflush) as (Hcur & Hf & _ & Hl3).
  split; [done|]. intros Hread q Hq.
  eapply listing_shows; [rewrite Hcur; exact Hlo|exact Hsaw|done..|].
  intros i n d c HV HCi. destruct (HC _ _ HCi) as (d' & Htop & Hrow).
  destruct (sc_node _ _ Hs _ _ _ HV) as (_ & Htop' & _). simplify_eq. by eapply file_row_later.
Qed.

End Scan.

(** ** Stores that agree *)

Class KeyMorphism {S1 S2 : Type} `{!KeyBackend S1} `{!KeyBackend S2} (π : S1 → S2) := {
  km_tree :: BackendMorphism π;
  km_hash_exists : ∀ h, tracks π (kb_hash_exists h) (kb_hash_exists h);
  km_fetch_hash_ref : ∀ h, tracks π (kb_fetch_hash_ref h) (kb_fetch_hash_ref h);
  km_flush : tracks π kb_flush kb_flush;
}.

Section morphism.
Context {S1 S2 R : Type} (π : S1 → S2) `{KeyMorphism S1 S2 π} `{!Reader R}.
Context `{Cbor Models.HashRefs} `{Cbor Models.HashRef}.

Definition on_key (ks : InternalKeyIndex * S1) : InternalKeyIndex * S2 := (ks.1, π ks.2).

Lemma on_index_tracks {A} (m : KI A) : tracks on_key (on_index m) (on_index m).
Proof. by apply tracks_zoom_same. Qed.

Lemma on_store_tracks {A} (m1 : M S1 A) (m2 : M S2 A) :
  tracks π m1 m2 → tracks on_key (on_store m1) (on_store m2).
Proof. intros Hm. by apply (tracks_zoom _ π). Qed.

Lemma read_chunks_tracks fuel (r : R) len :
  tracks (on_writer π) (read_chunks fuel r len) (read_chunks fuel r len).
Proof using All.
  revert r len. induction fuel as [|fuel IH]; intros r len; cbn [read_chunks].
  all: apply tracks_bind; [done|]; intros [chunk r']; case_decide; try done.
  apply tracks_bind; [apply append_tracks, _|]. intros _. apply IH.
Qed.

Lemma with_writer_tracks {A} w (m1 : M (SimpleHashTreeWriter * S1) A) m2 :
  tracks (on_writer π) m1 m2 → tracks on_key (with_writer w m1) (with_writer w m2).
Proof.
  intros Hm ks. unfold with_writer. specialize (Hm (w, ks.2)). unfold on_writer in Hm. cbn [fst snd] in Hm.
  unfold on_key at 1. cbn [snd]. rewrite Hm. by destruct (m1 (w, ks.2)) as [[a|e| |] [w' s']].
Qed.

#[local] Hint Resolve on_index_tracks on_store_tracks with_writer_tracks read_chunks_tracks
  hash_tracks km_hash_exists km_fetch_hash_ref km_flush : tracks.

Lemma insert_file_tracks fuel e (it : option R) :
  tracks on_key (insert_file fuel e it) (insert_file fuel e it).
Proof using All. unfold insert_file. track. apply with_writer_tracks, hash_tracks, _. Qed.
#[local] Hint Resolve insert_file_tracks : tracks.

Lemma short_circuit_tracks e b : tracks on_key (short_circuit e b) (short_circuit e b).
Proof using All. unfold short_circuit. track; done. Qed.
#[local] Hint Resolve short_circuit_tracks : tracks.

Lemma list_elem_tracks e : tracks on_key (list_elem e) (list_elem e).
Proof using All. unfold list_elem. track; done. Qed.

Lemma mapM_tracks {T1 T2 A B} (ρ : T1 → T2) (f1 : A → M T1 B) (f2 : A → M T2 B) l :
  (∀ a, tracks ρ (f1 a) (f2 a)) → tracks ρ (mapM' f1 l) (mapM' f2 l).
Proof. intros Hf. induction l; cbn [mapM']; track; done. Qed.

Lemma handle_tracks fuel (msg : Msg R) : tracks on_key (handle fuel msg) (handle fuel msg).
Proof using All.
  destruct msg; cbn [handle]; unfold handle_insert, flush_all; track; try done.
  all: try (by apply mapM_tracks, list_elem_tracks).
Qed.

End morphism.

(** ** The real store *)

Section Real.
Context `{SodiumLaws} `{LruCacheLaws}.
Context `{CborLaws Models.ChunkRef} `{CborLaws Models.HashIds} `{CborLaws Models.HashRef}.
Context `{CborLaws Models.HashRefs}.
Context {B : Type} `{StoreBackendLaws (list Z) B}.
Context {R : Type} `{ReaderLaws R}.
Implicit Types s : Store Z B.

#[local] Existing Instance logged_store_backend | 5.
#[local] Existing Instance store_backend | 5.

Lemma hash_exists_wp hist h s :
  store_ready hist s → wp (zoom hi_lens (hash_exists h)) s (λ _ s', s' = s).
Proof.
  intros Hs. apply wp_zoom. unfold hash_exists. apply wp_assert. intros _. apply wp_bind.
  eapply wp_mono; [eapply locate_index_wp, (ok_index _ _ _ _ Hs)|].
  intros o y [-> _]. by destruct s.
Qed.

#[local] Instance logged_store_laws :
  @KeyBackendLaws (Store Z B * history) logged_store_backend.
Proof.
  refine (@Build_KeyBackendLaws _ logged_store_backend logged_laws _ _).
  - intros h [s hist] Hs. apply wp_zoom. eapply wp_mono; [by eapply (hash_exists_wp hist)|].
    intros b s' ->. split; [exact Hs|]. by intros h' d'.
  - intros [s hist] Hs. apply wp_zoom, wp_bind. eapply wp_mono; [by apply (flush_wp hist)|].
    intros [] s1 [Hs1 Hz Hk Hkept]. eapply wp_mono; [by apply (flush_db_wp hist)|].
    intros [] s2 (Hs2 & _ & Hk2 & Hkept2). split; [done|].
    intros h d Hst Hc. cbn [fst snd lset fst_lens] in *. rewrite Hk2, Hk in Hc.
    destruct (Hst Hc) as [? ?]. split; [by apply Hkept2, Hkept|done].
Defined.

#[local] Instance logged_store_morphism :
  @KeyMorphism (Store Z B * history) (Store Z B) logged_store_backend store_backend fst.
Proof.
  split.
  - apply logged_morphism.
  - intros h [s hist]. simpl. unfold zoom. simpl. by destruct (hash_exists h (hi s)).
  - intros h [s hist]. simpl. unfold zoom. simpl. by destruct (fetch_hash_ref h (hi s)).
  - intros [s hist]. cbn [kb_flush logged_store_backend store_backend fst].
    generalize (BlobStore.flush commit_callback ≫= λ _, zoom hi_lens flush_index : M (Store Z B) unit).
    intros m. unfold zoom. cbn [lget lset fst_lens fst snd]. by destruct (m s).
Defined.

(** What is known of the contents of nodes, from an earlier scan. *)
Definition known_contents s (hist : history) (x : InternalKeyIndex) (C : gmap Z bytes) : Prop :=
  ∀ k c, C !! k = Some c → ∃ d, top_row (cur x) k = Some d ∧ file_row (s, hist) d c.

(** A flush of the key store, and of the one with the record. *)
Lemma flush_ready hist fuel x s x3 s3 :
  store_ready hist s → handle fuel (Flush (R := R)) (x, s) = (Ok FlushOk, (x3, s3)) →
  store_ready hist s3 ∧ flushed s3 ∧
  handle fuel (Flush (R := R)) (x, (s, hist)) = (Ok FlushOk, (x3, (s3, hist))).
Proof.
  intros Hs Hrun.
  assert (wp (BlobStore.flush commit_callback ;; zoom hi_lens flush_index) s
    (λ _ s', store_ready hist s' ∧ flushed s')) as Hw.
  { apply wp_bind. eapply wp_mono; [by apply (flush_wp hist)|]. intros [] s1 [Hs1 Hz _ _].
    eapply wp_mono; [by apply (flush_db_wp hist)|]. intros [] s2 (Hs2 & Hb & _).
    split; [done|]. unfold flushed. by rewrite Hb. }
  revert Hrun Hw. cbn [handle]. unfold flush_all.
  cbn [kb_flush store_backend logged_store_backend].
  generalize (BlobStore.flush commit_callback ≫= λ _, zoom hi_lens flush_index : M (Store Z B) unit).
  intros m. unfold on_store, on_index, wp, zoom, mbind, M_bind.
  cbn [lget lset fst_lens snd_lens fst snd].
  destruct (m s) as [[[]|e| |] s']; try done. cbn. intros [= <- <-] [? ?]. done.
Qed.

(** C5: Open a family's index of keys on whatever tables in order a crash has left, and scan:
    insert directories, links and files one after the other. Commit with the clean-up of the
    scanned directory, and flush. Then the key store lists, for every directory that the scan
    has reached, exactly what it saw there, each with its name; what was read is listed with
    its kind and information, and its contents come back from the store, through the trees,
    decryption and the backend. A file that looked unchanged keeps the contents it had. *)
Theorem scan_listed_and_read (hist hist1 : history) t secs clk x0 s0 C0 vs C x1 s1 po :
  Tables_ok t → KeyIndex_new t secs clk = Ok x0 → store_ready hist s0 →
  known_contents s0 hist x0 C0 →
  scanned (R := R) C0 (x0, (s0, hist)) vs C (x1, (s1, hist1)) → cast_id po →
  ∃ ks2 : InternalKeyIndex * Store Z B,
    (∀ fuel, handle fuel (CommitReservedNodes (R := R) (Some po)) (x1, s1) = (Ok ReplyOk, ks2)) ∧
    ∀ fuel ks3, handle fuel (Flush (R := R)) ks2 = (Ok FlushOk, ks3) →
      collision_free (st_keys ks3.2) hist1 →
      ∀ q, in_scan vs po q →
        ∃ l, (∀ fuel, handle fuel (ListDir (R := R) q) ks3 = (Ok (ListResult l), ks3)) ∧
          listing vs C q ks3 l.
Proof.
  intros Ht Hx Hs0 HC Hscan Hpo.
  destruct (scan_shown C0 (x0, (s0, hist)) vs C (x1, (s1, hist1)) po)
    as ([x2 w2] & Hcom & Hs1 & Hs2 & Hrest); [by eapply Store_start|done|done|].
  cbn [fst snd] in Hs1, Hs2. subst w2. exists (x2, s1). split.
  { intros fuel. pose proof (handle_tracks fst fuel (CommitReservedNodes (R := R) (Some po))
      (x1, (s1, hist1))) as Htr. rewrite Hcom in Htr. exact Htr. }
  intros fuel [x3 s3] Hflush Hc q Hq. destruct (flush_ready hist1 fuel x2 s1 x3 s3 Hs1 Hflush)
    as (Hs3 & Hz & Hlog).
  destruct (Hrest fuel (x3, (s3, hist1)) Hlog) as [_ Hshow].
  destruct (Hshow (conj Hs3 (conj Hz Hc)) q Hq) as (l & Hl & Hperm & Hels). exists l. split.
  { intros fuel'. pose proof (handle_tracks fst fuel' (ListDir (R := R) q) (x3, (s3, hist1))) as Htr.
    rewrite Hl in Htr. exact Htr. }
  split; [exact Hperm|]. intros el Hel. destruct (Hels el Hel) as (i & e & sn & He & Hp & Hsh).
  exists i, e, sn. split_and!; [done|done|]. destruct Hsh as [H1h H2h H3h H4h H5h H6h]. split; try done.
  intros c Hci. destruct (H6h c Hci) as (Hd & h & ls & Hel' & Hcat & N & w & Hcol).
  split; [done|]. exists h, ls. split_and!; [done|done|]. exists N, (on_walk fst w).
  intros fuel' Hf. pose proof (collect_leafs_tracks fst fuel' (init h (s3, hist1))) as Htr.
  cbn [snd] in Hcol. rewrite (Hcol fuel' Hf) in Htr. exact Htr.
Qed.

End Real.

(** ** Runs *)

(** No file of the operating system: contents are in memory. *)
#[export] Instance no_file_reader : Reader Empty_set := λ _ f, match f with end.
#[export] Program Instance no_file_laws : ReaderLaws Empty_set :=
  {| holds _ f _ := match f with end |}.
Next Obligation. by intros ? []. Qed.

Section Checks.
Context {St : Type} `{!KeyBackend St} `{Cbor Models.HashRefs} `{Cbor Models.HashRef}.
Implicit Types x : InternalKeyIndex.

Definition placed_check x (e : key.Entry) : bool :=
  match key.parent_id e with
  | Some p => bool_decide (is_Some (key_tree (cur x) !! p))
  | None => true
  end && bool_decide (next_rowid (key_tree (cur x)) < 2 ^ 63)%Z.

Lemma placed_check_sound x e : placed_check x e = true → placed x e.
Proof.
  unfold placed_check. intros [Hp Hr%bool_decide_eq_true]%andb_true_iff. split; [|done].
  intros p Ep. rewrite Ep in Hp. by apply bool_decide_eq_true in Hp.
Qed.

Definition unseen x (e : key.Entry) : bool :=
  bool_decide (map_Forall (λ _ n, n ≠ entry_node e) (key_tree (cur x))).

Lemma unseen_sound x e : unseen x e = true → ¬ looks_unchanged x e.
Proof.
  intros Hu%bool_decide_eq_true (k & d & Hk & _ & _). by apply (map_Forall_lookup_1 _ _ _ _ Hu Hk).
Qed.

Definition unchanged_check x (k : Z) (e : key.Entry) : bool :=
  match key_tree (cur x) !! k, top_row (cur x) k with
  | Some n, Some d => bool_decide (n = entry_node e) &&
      bool_decide (is_Some (key.modified_ts_secs (key.info e))) &&
      bool_decide (key_schema.modified d = key.modified_ts_secs (key.info e))
  | _, _ => false
  end.

Lemma unchanged_check_sound x k e : unchanged_check x k e = true → ∃ d, looks_like x e k d.
Proof.
  unfold unchanged_check. destruct (key_tree (cur x) !! k) as [n|] eqn:En; [|done].
  destruct (top_row (cur x) k) as [d|] eqn:Ed; [|done].
  rewrite !andb_true_iff, !bool_decide_eq_true. intros [[-> ?] ?]. by exists d.
Qed.

(** A run of an [Insert] that returns the id [i]. *)
Definition insert_check (e : key.Entry) (src : option (option (FileIterator Empty_set)))
    (i : Z) (ks : InternalKeyIndex * St) (k : InternalKeyIndex * St → bool) : bool :=
  placed_check ks.1 e &&
  check_run (handle 5 (Insert e src) ks) (λ r ks',
    match r with Id j => bool_decide (j = i) && k ks' | _ => false end).

Lemma insert_check_sound e src i ks k :
  insert_check e src i ks k = true →
  placed ks.1 e ∧ ∃ ks', handle 5 (Insert e src) ks = (Ok (Id i), ks') ∧ k ks' = true.
Proof.
  intros [Hp Hrun]%andb_true_iff. split; [by apply placed_check_sound|].
  apply check_run_true in Hrun as (r & ks' & Hrun & Hk). destruct r as [j| | |]; try done.
  apply andb_true_iff in Hk as [->%bool_decide_eq_true Hk]. by exists ks'.
Qed.

End Checks.

Section Runs.

Import ModelSodium ModelWorld MemoryBackend.

#[local] Existing Instance model_sodium.
#[local] Existing Instance model_laws.
#[local] Existing Instance model_lru.
#[local] Existing Instance model_lru_laws.
#[local] Existing Instance chunk_ref_cbor.
#[local] Existing Instance chunk_ref_laws.
#[local] Existing Instance ids_cbor.
#[local] Existing Instance ids_laws.
#[local] Existing Instance href_cbor.
#[local] Existing Instance href_laws.
#[local] Existing Instance hrefs_cbor.
#[local] Existing Instance hrefs_laws.
#[local] Existing Instance logged_store_backend | 5.
#[local] Existing Instance store_backend | 5.

(** A directory with a file, a link and a file that cannot be opened. *)
Definition mode (data : key.Data) : Z :=
  match data with key.Symlink _ => 41471 | key.DirPlaceholder => 16877 | _ => 33188 end.

Definition an_entry (parent : option Z) (name : string) (data : key.Data) : key.Entry :=
  key.Entry_new 1000 parent (Models.FileName_from_string (lit name)) data
    (Some (key.mkMetadata None 500 600 (mode data) 1 2 5)).

Definition a_dir : key.Entry := an_entry None "d" key.DirPlaceholder.
Definition a_file : key.Entry := an_entry (Some 1%Z) "a" key.FilePlaceholder.
Definition a_link : key.Entry := an_entry (Some 1%Z) "l" (key.Symlink (lit "a")).
Definition no_access : key.Entry := an_entry (Some 1%Z) "x" key.FilePlaceholder.

Definition hello : FileIterator Empty_set := from_bytes (lit "hello").

Definition new_key_index : res InternalKeyIndex := KeyIndex_new key_schema.empty 5 zero_clock.

(** The directory, its contents, and the file again. *)
Definition scan_check (s : Store Z MemoryBackend) (x : InternalKeyIndex)
    (k : InternalKeyIndex * (Store Z MemoryBackend * history) → bool) : bool :=
  unseen x a_dir && insert_check a_dir None 1 (x, (s, [])) (λ ks1,
  unseen ks1.1 a_file && insert_check a_file (Some (Some hello)) 2 ks1 (λ ks2,
  unseen ks2.1 a_link && insert_check a_link None 3 ks2 (λ ks3,
  unseen ks3.1 no_access && insert_check no_access (Some None) 4 ks3 (λ ks4,
  unchanged_check ks4.1 2 a_file && insert_check a_file (Some (Some hello)) 2 ks4 k)))).

(** From a new store and a new index. *)
Definition scan_from_new (k : InternalKeyIndex * (Store Z MemoryBackend * history) → bool) : bool :=
  match new_store with
  | Ok s => match new_key_index with Ok x => scan_check s x k | _ => false end
  | _ => false
  end.

Lemma an_entry_wf p n d : valid_utf8 (lit n) = true → entry_wf (an_entry p n d).
Proof. intros Hn. split; try done. by destruct d. Qed.

Lemma an_entry_ok x p n d src c :
  valid_utf8 (lit n) = true → insertable_msg (an_entry p n d) src →
  source_holds (src ≫= λ o : option (FileIterator Empty_set), o) c → placed x (an_entry p n d) →
  visit_ok x (an_entry p n d) src c.
Proof. intros. split; [by apply an_entry_wf|done..]. Qed.

Lemma hello_holds : source_holds (Some hello) (Some (lit "hello")).
Proof. by exists 0, (lit "hello"). Qed.

Definition scan_seen (d : KeyData) : scan :=
  <[2%Z := (a_file, Unchanged d (Some (lit "hello")))]> (<[4%Z := (no_access, Read None)]> (<[3%Z := (a_link, Read None)]>
    (<[2%Z := (a_file, Read (Some (lit "hello")))]> (<[1%Z := (a_dir, Read None)]> ∅)))).

(** What the run is. *)
Lemma scan_run k :
  scan_from_new k = true →
  ∃ s x x5 s5 h5 C d, new_store = Ok s ∧ new_key_index = Ok x ∧
    scanned (R := FileIterator Empty_set) ∅ (x, (s, [] : history)) (scan_seen d) C (x5, (s5, h5)) ∧
    C !! 2%Z = Some (lit "hello") ∧ k (x5, (s5, h5)) = true.
Proof.
  intros Hcheck. unfold scan_from_new in Hcheck.
  destruct (check_Ok new_store (λ s, match new_key_index with Ok x => scan_check s x k | _ => false end))
    as (s & Es & Hs); [exact Hcheck|].
  destruct (check_Ok new_key_index (λ x, scan_check s x k) Hs) as (x & Ex & Hx). clear Hs Hcheck.
  rename Hx into Hcheck.
  apply andb_true_iff in Hcheck as [Hu1 Hcheck].
  apply insert_check_sound in Hcheck as (Hp1 & ks1 & Hr1 & Hcheck).
  apply andb_true_iff in Hcheck as [Hu2 Hcheck].
  apply insert_check_sound in Hcheck as (Hp2 & ks2 & Hr2 & Hcheck).
  apply andb_true_iff in Hcheck as [Hu3 Hcheck].
  apply insert_check_sound in Hcheck as (Hp3 & ks3 & Hr3 & Hcheck).
  apply andb_true_iff in Hcheck as [Hu4 Hcheck].
  apply insert_check_sound in Hcheck as (Hp4 & ks4 & Hr4 & Hcheck).
  apply andb_true_iff in Hcheck as [Hu5 Hcheck].
  apply insert_check_sound in Hcheck as (Hp5 & [x5 [s5 h5]] & Hr5 & Hk).
  destruct (unchanged_check_sound _ _ _ Hu5) as [d Hd].
  pose proof (scanned_start (R := FileIterator Empty_set) ∅ (x, (s, [] : history))) as Hscan.
  eapply scanned_insert in Hscan; [| |exact Hr1|by apply unseen_sound];
    [|by apply (an_entry_ok _ _ _ _ None None); [|left| |]].
  eapply scanned_insert in Hscan; [| |exact Hr2|by apply unseen_sound];
    [|by apply (an_entry_ok _ _ _ _ (Some (Some hello)) (Some (lit "hello"))); [| |exact hello_holds|]].
  eapply scanned_insert in Hscan; [| |exact Hr3|by apply unseen_sound];
    [|by apply (an_entry_ok _ _ _ _ None None); [|right; eexists| |]].
  eapply scanned_insert in Hscan; [| |exact Hr4|by apply unseen_sound];
    [|by apply (an_entry_ok _ _ _ _ (Some None) None)].
  eapply scanned_unchanged in Hscan; [| |exact Hr5|exact Hd];
    [|by apply (an_entry_ok _ _ _ _ (Some (Some hello)) (Some (lit "hello"))); [| |exact hello_holds|]].
  exists s, x, x5, s5, h5. eexists _, d. split_and!; [exact Es|exact Ex|exact Hscan|done|exact Hk].
Qed.

Lemma scan_listed_and_read_witness :
  ∃ (x1 : InternalKeyIndex) (s1 : Store Z MemoryBackend) hist1 C d, C !! 2%Z = Some (lit "hello") ∧
  ∃ ks2 : InternalKeyIndex * Store Z MemoryBackend,
    (∀ fuel, handle fuel (CommitReservedNodes (R := FileIterator Empty_set) (Some (Some 1%Z))) (x1, s1)
      = (Ok ReplyOk, ks2)) ∧
    ∀ fuel ks3, handle fuel (Flush (R := FileIterator Empty_set)) ks2 = (Ok FlushOk, ks3) →
      collision_free (st_keys ks3.2) hist1 →
      ∀ q, in_scan (scan_seen d) (Some 1%Z) q →
        ∃ l, (∀ fuel, handle fuel (ListDir (R := FileIterator Empty_set) q) ks3 = (Ok (ListResult l), ks3)) ∧
          listing (scan_seen d) C q ks3 l.
Proof.
  destruct (scan_run (λ _, true)) as (s & x & x5 & s5 & h5 & C & d & Es & Ex & Hscan & HC & _).
  { vm_compute. reflexivity. }
  exists x5, s5, h5, C, d. split; [exact HC|].
  exact (scan_listed_and_read (R := FileIterator Empty_set) [] h5 key_schema.empty 5 zero_clock
    x s ∅ (scan_seen d) C x5 s5 (Some 1%Z) no_keys_ok Ex (new_store_ready s Es)
    ltac:(intros k c Hk; by rewrite lookup_empty in Hk) Hscan eq_refl).
Defined.

End Runs.
