(* ===== verification/FileSystem.v ===== *)
(** * The file system that a checkout writes to

    What hat/mod.rs and hat/family.rs call of [std::fs], [std::path] and the filetime crate to
    restore a snapshot. A file system is a class with a contract for names it takes; a concrete
    one is a finite map of paths. *)

From S2P Require Import Prelude.

(** ** Paths *)

(** A path is the list of its components from the root. *)
Abbreviation Path := (list bytes).

Definition slash : byte := Byte.x2f.
Definition dot : byte := Byte.x2e.

Fixpoint split_slash (b : bytes) : list bytes :=
  match b with
  | [] => [[]]
  | c :: b =>
      if decide (c = slash) then [] :: split_slash b
      else match split_slash b with l :: ls => (c :: l) :: ls | [] => [[c]] end
  end.

(** [Path::components]: empty ones and [.] are left out. *)
Definition components (b : bytes) : list bytes :=
  filter (λ c, c ≠ [] ∧ c ≠ [dot]) (split_slash b).

(** [PathBuf::push]: an absolute path takes the place of what was there. *)
Definition push (name : bytes) (p : Path) : Path :=
  if decide (head name = Some slash) then components name else p ++ components name.

(** [PathBuf::pop] *)
Definition pop (p : Path) : Path := take (length p - 1) p.

(** A file's name: one component, which is not the parent's. *)
Definition plain (name : bytes) : Prop :=
  name ≠ [] ∧ name ≠ [dot] ∧ name ≠ [dot; dot] ∧ slash ∉ name ∧ Byte.x00 ∉ name.

#[global] Instance plain_dec name : Decision (plain name).
Proof. unfold plain. apply _. Defined.

Lemma split_slash_plain b : slash ∉ b → split_slash b = [b].
Proof.
  induction b as [|c b IH]; [done|]. rewrite not_elem_of_cons. intros [Hc Hb]. simpl.
  rewrite decide_False by congruence. by rewrite IH.
Qed.

Lemma push_plain name p : plain name → push name p = p ++ [name].
Proof.
  intros (Hn & Hd & _ & Hs & _). unfold push, components. rewrite split_slash_plain by done.
  rewrite decide_False; [|intros E; apply Hs; destruct name; simplify_eq/=; by left].
  by rewrite filter_cons_True by done.
Qed.

Lemma pop_snoc p (name : bytes) : pop (p ++ [name]) = p.
Proof. unfold pop. rewrite length_app. simpl. by rewrite Nat.add_sub, take_app_length. Qed.

(** ** The calls *)

(** Permissions are a mode with the bits of the kind of file, as [Metadata] gives them. An open
    file is named by its path. *)
Class FileSystem (Fs : Type) := {
  create_dir_all : Path → M Fs unit;
  create_file : Path → M Fs unit;
  write_all : Path → bytes → M Fs unit;
  flush_file : Path → M Fs unit;
  symlink : bytes → Path → M Fs unit;
  symlink_permissions : Path → M Fs Z;
  set_permissions : Path → Z → M Fs unit;
  set_symlink_file_times : Path → Z → Z → M Fs unit; (* accessed, modified *)
}.

(** ** The contract *)

Inductive Kind := KFile (c : bytes) | KDir | KLink (target : bytes).

(** [perm]: the twelve bits that [chmod] sets; [times]: accessed and modified. *)
Record FsNode := mkFsNode { kind : Kind; perm : Z; times : Z * Z }.

#[global] Instance Kind_eq_dec : EqDecision Kind.
Proof. solve_decision. Defined.

Definition kind_bits (k : Kind) : Z :=
  match k with KFile _ => 32768 | KDir => 16384 | KLink _ => 40960 end.

(** The mode of a symbolic link, which cannot be changed. *)
Definition link_perm : Z := 511.

(** [q] is a new node; the directory it is in may have new times. *)
Definition added (v v' : gmap Path FsNode) (q : Path) (k : Kind) : Prop :=
  (∃ n, v' !! q = Some n ∧ kind n = k ∧ (0 ≤ perm n < 4096)%Z ∧
    (∀ t, k = KLink t → perm n = link_perm)) ∧
  (∀ n, v !! pop q = Some n → ∃ ts, v' !! pop q = Some (mkFsNode (kind n) (perm n) ts)) ∧
  ∀ p, p ≠ q → p ≠ pop q → v' !! p = v !! p.

(** [q] can be made: its directory is there, it is not, and the system takes its name. *)
Record can_add (takes : Path → Prop) (v : gmap Path FsNode) (q : Path) : Prop := {
  ca_name : ∃ p name, q = p ++ [name] ∧ plain name;
  ca_dir : ∃ n, v !! pop q = Some n ∧ kind n = KDir;
  ca_new : v !! q = None;
  ca_takes : takes q;
}.

Class FileSystemLaws (Fs : Type) `{!FileSystem Fs} := {
  fs_ok : Fs → Prop;
  view : Fs → gmap Path FsNode;
  takes : Path → Prop;
  create_dir_all_new : ∀ q s, fs_ok s → can_add takes (view s) q →
    twp (create_dir_all q) s (λ _ s', fs_ok s' ∧ added (view s) (view s') q KDir);
  create_dir_all_old : ∀ q s n, fs_ok s → view s !! q = Some n → kind n = KDir →
    twp (create_dir_all q) s (λ _ s', fs_ok s' ∧ view s' = view s);
  create_file_ok : ∀ q s, fs_ok s → can_add takes (view s) q →
    twp (create_file q) s (λ _ s', fs_ok s' ∧ added (view s) (view s') q (KFile []));
  write_all_ok : ∀ q b s n c, fs_ok s → view s !! q = Some n → kind n = KFile c →
    twp (write_all q b) s (λ _ s', fs_ok s' ∧
      ∃ ts, view s' = <[q := mkFsNode (KFile (c ++ b)) (perm n) ts]> (view s));
  flush_file_ok : ∀ q s, fs_ok s → is_Some (view s !! q) →
    twp (flush_file q) s (λ _ s', fs_ok s' ∧ view s' = view s);
  symlink_ok : ∀ t q s, fs_ok s → can_add takes (view s) q → t ≠ [] → Byte.x00 ∉ t →
    twp (symlink t q) s (λ _ s', fs_ok s' ∧ added (view s) (view s') q (KLink t));
  symlink_permissions_ok : ∀ q s n, fs_ok s → view s !! q = Some n →
    twp (symlink_permissions q) s (λ m s', fs_ok s' ∧ view s' = view s ∧
      m = (kind_bits (kind n) + perm n)%Z);
  set_permissions_ok : ∀ q m s n, fs_ok s → view s !! q = Some n → (∀ t, kind n ≠ KLink t) →
    twp (set_permissions q m) s (λ _ s', fs_ok s' ∧
      view s' = <[q := mkFsNode (kind n) (m mod 4096) (times n)]> (view s));
  set_times_ok : ∀ q a m s n, fs_ok s → view s !! q = Some n →
    twp (set_symlink_file_times q a m) s (λ _ s', fs_ok s' ∧
      view s' = <[q := mkFsNode (kind n) (perm n) (a, m)]> (view s));
}.

(** ** A file system in memory *)

Section Memory.

Abbreviation Mem := (gmap Path FsNode).
Implicit Types (s : Mem) (p q : Path).

Definition mem_node q : M Mem FsNode := λ s, (ok_or (s !! q) (IoError "no such file"), s).

(** A new node in a directory; making it changes the directory's times. *)
Definition mem_add q (n : FsNode) : M Mem unit :=
  d ← mem_node (pop q);
  match kind d with
  | KDir => s ← get;
      if decide (is_Some (s !! q)) then throw (IoError "file exists")
      else modify (λ s, <[q := n]> (<[pop q := mkFsNode KDir (perm d) (1, 1)%Z]> s))
  | _ => throw (IoError "not a directory")
  end.

Fixpoint mem_create_dirs (done todo : Path) : M Mem unit :=
  match todo with
  | [] => mret ()
  | c :: todo =>
      let q := done ++ [c] in
      s ← get;
      match s !! q with
      | Some n => match kind n with KDir => mret () | _ => throw (IoError "not a directory") end
      | None => mem_add q (mkFsNode KDir 493 (1, 1)%Z)
      end ;;
      mem_create_dirs q todo
  end.

#[export] Instance memory_file_system : FileSystem Mem := {|
  create_dir_all q := mem_create_dirs [] q;
  create_file q :=
    s ← get;
    match s !! q with
    | Some n => match kind n with
                | KFile _ => modify (<[q := mkFsNode (KFile []) (perm n) (1, 1)%Z]>)
                | _ => throw (IoError "not a file")
                end
    | None => mem_add q (mkFsNode (KFile []) 420 (1, 1)%Z)
    end;
  write_all q b :=
    n ← mem_node q;
    match kind n with
    | KFile c => modify (<[q := mkFsNode (KFile (c ++ b)) (perm n) (1, 1)%Z]>)
    | _ => throw (IoError "not a file")
    end;
  flush_file q := mret ();
  symlink t q := mem_add q (mkFsNode (KLink t) link_perm (1, 1)%Z);
  symlink_permissions q := n ← mem_node q; mret (kind_bits (kind n) + perm n)%Z;
  set_permissions q m :=
    n ← mem_node q;
    match kind n with
    | KLink _ => throw (IoError "links are not followed")
    | k => modify (<[q := mkFsNode k (m mod 4096) (times n)]>)
    end;
  set_symlink_file_times q a m :=
    n ← mem_node q; modify (<[q := mkFsNode (kind n) (perm n) (a, m)]>);
|}.

(** Every node is in a directory. *)
Record mem_ok s : Prop := {
  mem_root : ∃ d, s !! [] = Some d ∧ kind d = KDir;
  mem_closed : ∀ p c n, s !! (p ++ [c]) = Some n → ∃ d, s !! p = Some d ∧ kind d = KDir;
}.

Lemma snoc_ne p (c : bytes) : p ++ [c] ≠ p.
Proof. intros E. apply (f_equal length) in E. rewrite length_app in E. simpl in E. lia. Qed.

Lemma mem_change s q n n' :
  mem_ok s → s !! q = Some n → (kind n = KDir → kind n' = KDir) → mem_ok (<[q := n']> s).
Proof.
  intros [(d & Hd & Hk) Hc] Hq Hn. split.
  - destruct (decide (q = [])) as [->|Hne].
    + exists n'. rewrite lookup_insert_eq. naive_solver.
    + exists d. by rewrite lookup_insert_ne.
  - intros p c m Hm. assert (∃ d, s !! p = Some d ∧ kind d = KDir) as (d' & Hd' & Hk').
    { destruct (decide (q = p ++ [c])) as [->|Hne]; [by eapply Hc|].
      rewrite lookup_insert_ne in Hm by done. by eapply Hc. }
    destruct (decide (q = p)) as [->|Hne].
    + exists n'. rewrite lookup_insert_eq. naive_solver.
    + exists d'. by rewrite lookup_insert_ne.
Qed.

Lemma mem_add_ok q k pm s :
  mem_ok s → can_add (λ _, True) s q → (0 ≤ pm < 4096)%Z → (∀ t, k = KLink t → pm = link_perm) →
  twp (mem_add q (mkFsNode k pm (1, 1)%Z)) s (λ _ s', mem_ok s' ∧ added s s' q k).
Proof.
  intros Hs [(p & c & -> & Hp) (d & Hd & Hk) Hnew _] Hpm Hl. unfold mem_add, mem_node.
  unfold twp. unfold mbind, M_bind. rewrite pop_snoc in Hd |- *. rewrite Hd. simpl. rewrite Hk.
  unfold get. cbn. rewrite Hnew, decide_False by (by intros [? ?]). cbn. split; [split|].
  - destruct (mem_root _ Hs) as (r & Hr & Hrk). destruct (decide (p = [])) as [->|Hne].
    + exists (mkFsNode KDir (perm d) (1, 1)%Z). rewrite lookup_insert_ne, lookup_insert_eq by done.
      done.
    + exists r. rewrite !lookup_insert_ne by (done || by destruct p). done.
  - intros p' c' m Hm.
    assert (∃ d, s !! p' = Some d ∧ kind d = KDir) as (d' & Hd' & Hk').
    { destruct (decide (p' ++ [c'] = p ++ [c])) as [[-> ->]%app_inj_tail|Hne]; [by eexists|].
      rewrite lookup_insert_ne in Hm by done.
      destruct (decide (p' ++ [c'] = p)) as [<-|Hne']; [by eapply Hs|].
      rewrite lookup_insert_ne in Hm by done. by eapply mem_closed. }
    assert (p' ≠ p ++ [c]) as Hne by (intros ->; congruence). rewrite lookup_insert_ne by done.
    destruct (decide (p' = p)) as [->|Hne'].
    + rewrite lookup_insert_eq. by eexists.
    + rewrite lookup_insert_ne by done. by eexists.
  - split_and!.
    + eexists. rewrite lookup_insert_eq. done.
    + intros n. rewrite pop_snoc, Hd. intros [= <-]. exists (1, 1)%Z.
      pose proof (snoc_ne p c). rewrite lookup_insert_ne, lookup_insert_eq by done. by rewrite Hk.
    + intros q H1 H2. rewrite pop_snoc in H2. by rewrite !lookup_insert_ne by done.
Qed.

(** Below directories that are there only the last one is made. *)
Lemma mem_create_dirs_old done_ todo s :
  mem_ok s → (∃ n, s !! (done_ ++ todo) = Some n ∧ kind n = KDir) →
  mem_create_dirs done_ todo s = (Ok (), s).
Proof.
  intros Hs. revert done_. induction todo as [|c todo IH]; intros done_ Hn; [done|].
  cbn [mem_create_dirs]. unfold mbind, M_bind, get.
  assert (∃ d, s !! (done_ ++ [c]) = Some d ∧ kind d = KDir) as (d & Hd & Hk).
  { replace (done_ ++ c :: todo) with ((done_ ++ [c]) ++ todo) in Hn by (by rewrite <- app_assoc).
    clear IH. revert Hn. induction todo as [|x l IH] using rev_ind.
    - by rewrite app_nil_r.
    - intros (n & Hn & _). rewrite app_assoc in Hn. apply IH. by eapply mem_closed. }
  rewrite Hd, Hk. cbn. apply IH. by rewrite <- app_assoc.
Qed.

(** The directories above a node. *)
Lemma mem_above s p l n :
  mem_ok s → s !! (p ++ l) = Some n → kind n = KDir → ∃ d, s !! p = Some d ∧ kind d = KDir.
Proof.
  intros Hs. revert n. induction l as [|x l IH] using rev_ind; intros n Hn Hk.
  - rewrite app_nil_r in Hn. by exists n.
  - rewrite app_assoc in Hn. destruct (mem_closed _ Hs _ _ _ Hn) as (d & Hd & Hkd). by eapply IH.
Qed.

Lemma mem_create_dirs_run done_ todo c s d :
  mem_ok s → s !! (done_ ++ todo) = Some d → kind d = KDir →
  s !! ((done_ ++ todo) ++ [c]) = None →
  mem_create_dirs done_ (todo ++ [c]) s =
    mem_add ((done_ ++ todo) ++ [c]) (mkFsNode KDir 493 (1, 1)%Z) s.
Proof.
  intros Hs. revert done_. induction todo as [|x todo IH]; intros done_ Hd Hk Hnew.
  - cbn [app mem_create_dirs]. rewrite app_nil_r in *. rewrite bind_get, Hnew.
    unfold mbind, M_bind. by destruct (mem_add _ _ s) as [[[]|e| |] s'].
  - cbn [app mem_create_dirs]. rewrite (app_assoc done_ [x] todo : done_ ++ x :: todo = _) in *.
    destruct (mem_above _ _ _ _ Hs Hd Hk) as (d' & Hd' & Hk').
    rewrite bind_get, Hd', Hk', bind_ret. by apply IH.
Qed.

#[export, refine] Instance memory_file_system_laws : FileSystemLaws Mem := {|
  fs_ok := mem_ok; view s := s; takes _ := True;
|}.
Proof.
  - intros q s Hs Hq. pose proof Hq as [(p & c & -> & Hp) (d & Hd & Hk) Hnew _].
    rewrite pop_snoc in Hd. cbn [create_dir_all memory_file_system].
    eapply twp_run; [by apply (mem_create_dirs_run [] p c s d)|]. by apply mem_add_ok.
  - intros q s n Hs Hq Hk. eapply twp_Ok; [|done]. apply mem_create_dirs_old; eauto.
  - intros q s Hs Hq. cbn [create_file memory_file_system].
    eapply twp_run; [by rewrite bind_get, (ca_new _ _ _ Hq)|]. by apply mem_add_ok.
  - intros q b s n c Hs Hq Hk. cbn [write_all memory_file_system].
    eapply twp_step_run; [unfold mem_node; by rewrite Hq|]. cbn. rewrite Hk.
    eapply twp_Ok; [done|]. split; [|by eexists]. eapply mem_change; [done..|]. by rewrite Hk.
  - intros q s Hs Hq. by eapply twp_Ok.
  - intros t q s Hs Hq Ht H0. apply mem_add_ok; [done..|]. by intros ? [= _].
  - intros q s n Hs Hq. cbn [symlink_permissions memory_file_system].
    eapply twp_step_run; [unfold mem_node; by rewrite Hq|]. by eapply twp_Ok.
  - intros q m s n Hs Hq Hl. cbn [set_permissions memory_file_system].
    eapply twp_step_run; [unfold mem_node; by rewrite Hq|]. cbn.
    destruct (kind n) eqn:Hk; [| |by edestruct Hl].
    all: eapply twp_Ok; [done|]; split; [|done]; by eapply mem_change; [| |rewrite Hk].
  - intros q a m s n Hs Hq. cbn [set_symlink_file_times memory_file_system].
    eapply twp_step_run; [unfold mem_node; by rewrite Hq|].
    eapply twp_Ok; [reflexivity|]. split; [|done]. by eapply mem_change.
Defined.

End Memory.
