(* ===== verification/ListDir.v ===== *)
(** * Reading a directory structure with a pool of threads: util/listdir.rs

    Every directory is a job of the pool: it is read, its entries are handled one after the
    other, and an entry that the handler descends into is a job of its own. Ten threads work at
    a time; a schedule says whose turn it is. *)

From S2P Require Import Prelude FileSystem.

(** [read_dir]'s iterator gives paths, or errors that are skipped. The payload [P] is what a
    directory hands to its entries. *)
Class PathHandler (P W : Type) := {
  read_dir : Path → M W (list (Path + error));
  handle_path : P → Path → M W (option P);
}.

(** A closure given to the pool, before and after its call of [read_dir]. *)
Inductive Job (P : Type) :=
  | Start (root : Path) (payload : P)
  | Entries (entries : list (Path + error)) (payload : P).
Arguments Start {P} _ _.
Arguments Entries {P} _ _.

Definition threads : nat := 10.

Section ListDir.
Context {P W : Type} `{!PathHandler P W}.
Implicit Types (j : Job P) (jobs : list (Job P)).

Definition in_progress j : bool := match j with Entries _ _ => true | _ => false end.

(** One step of a closure: the jobs that take its place. *)
Definition recurse_worker j : M W (list (Job P)) :=
  match j with
  | Start root payload =>
      dir ← attempt (read_dir root);
      mret (match dir with inl dir => [Entries dir payload] | inr _ => [] end)
  | Entries [] _ => mret []
  | Entries (inr _ :: entries) payload => mret [Entries entries payload]
  | Entries (inl path :: entries) payload =>
      dir ← handle_path payload path;
      mret (match dir with
            | Some dir => [Entries entries payload; Start path dir]
            | None => [Entries entries payload]
            end)
  end.

(** A new closure needs a thread. *)
Definition has_thread j jobs : Prop :=
  in_progress j = true ∨ length (filter (λ j, in_progress j = true) jobs) < threads.

#[global] Instance has_thread_dec j jobs : Decision (has_thread j jobs).
Proof. unfold has_thread. apply _. Defined.

(** Job number [i] has its turn; without a thread nothing happens. *)
Definition turn (i : nat) : M (list (Job P) * W) unit :=
  jobs ← gets fst;
  match jobs !! i with
  | Some j =>
      if decide (has_thread j jobs) then
        new ← zoom snd_lens (recurse_worker j);
        zoom fst_lens (modify (λ jobs, take i jobs ++ new ++ drop (S i) jobs))
      else mret ()
  | None => mret ()
  end.

(** [pool.scoped] returns when no job is left. *)
Definition recurse (schedule : list nat) (root : Path) (payload : P) : M W unit := λ w,
  match for_each turn schedule ([Start root payload], w) with
  | (Ok (), ([], w)) => (Ok (), w)
  | (Ok (), (_, w)) => (Diverge, w)
  | (r, (_, w)) => (r, w)
  end.

(** ** What the jobs visit *)

(** The listing [dir] of every directory, and the entries that the handler descends into. *)
Context (dir : Path → option (list (Path + error))) (goes : Path → bool).

(** The paths below, and the turns that they take. *)
Inductive below : Path → list Path → nat → Prop :=
  | below_unreadable root : dir root = None → below root [] 1
  | below_dir root es l n : dir root = Some es → entries es l n → below root l (S n)
with entries : list (Path + error) → list Path → nat → Prop :=
  | entries_nil : entries [] [] 1
  | entries_error e es l n : entries es l n → entries (inr e :: es) l (S n)
  | entries_leaf q es l n : goes q = false → entries es l n → entries (inl q :: es) (q :: l) (S n)
  | entries_dir q es lq nq l n : goes q = true → below q lq nq → entries es l n →
      entries (inl q :: es) (q :: lq ++ l) (S (nq + n)).

(** The same, computed. *)
Fixpoint walk (fuel : nat) (root : Path) : option (list Path * nat) :=
  match fuel with
  | O => None
  | S fuel =>
      match dir root with
      | None => Some ([], 1)
      | Some es =>
          '(l, n) ← foldr (λ e acc,
            '(l, n) ← acc;
            match e with
            | inr _ => Some (l, S n)
            | inl q =>
                if goes q then '(lq, nq) ← walk fuel q; Some (q :: lq ++ l, S (nq + n))
                else Some (q :: l, S n)
            end) (Some ([], 1)) es;
          Some (l, S n)
      end
  end.

Lemma walk_below fuel root l n : walk fuel root = Some (l, n) → below root l n.
Proof.
  revert root l n. induction fuel as [|fuel IH]; [done|]. intros root l n. cbn [walk].
  destruct (dir root) as [es|] eqn:Er; [|intros [= <- <-]; by constructor].
  intros ([l' n'] & Hes & [= <- <-])%bind_Some. apply (below_dir _ es); [done|]. clear Er.
  revert l' n' Hes. induction es as [|[q|e] es IHes]; intros l' n'; cbn [foldr].
  - intros [= <- <-]. constructor.
  - intros ([l1 n1] & Hes & Hq)%bind_Some. destruct (goes q) eqn:Eg.
    + apply bind_Some in Hq as ([lq nq] & Hq & [= <- <-]). apply entries_dir; auto.
    + injection Hq as <- <-. constructor; auto.
  - intros ([l1 n1] & Hes & [= <- <-])%bind_Some. constructor; auto.
Qed.

Definition job_visits j : list Path → nat → Prop :=
  match j with Start root _ => below root | Entries es _ => entries es end.

Inductive visits : list (Job P) → list Path → nat → Prop :=
  | visits_nil : visits [] [] 0
  | visits_cons j jobs lj nj l n : job_visits j lj nj → visits jobs l n →
      visits (j :: jobs) (lj ++ l) (nj + n).

(** The calls of the handler, with their results. *)
Definition Call : Type := P * Path * option P.
Implicit Types (c : list Call).

Context (root : Path) (payload : P).

(** The directory [r] was entered with the payload [pl]. *)
Definition entered c (r : Path) (pl : P) : Prop :=
  (r = root ∧ pl = payload) ∨ ∃ pl0, (pl0, r, Some pl) ∈ c.

(** [q] is listed in a directory with this payload. *)
Definition listed_in c (pl : P) (q : Path) : Prop :=
  ∃ r es, dir r = Some es ∧ inl q ∈ es ∧ entered c r pl.

(** An invariant over the calls so far, of a handler that keeps to the listing. *)
Record handler_keeps (I : list Call → W → Prop) : Prop := {
  hk_read : ∀ c p w r w', I c w → read_dir p w = (r, w') →
    I c w' ∧ match dir p with Some es => r = Ok es | None => ∃ e, r = Err e end;
  hk_handle : ∀ c pl q w o w', I c w → listed_in c pl q → q ∉ (λ x : Call, x.1.2) <$> c →
    handle_path pl q w = (Ok o, w') →
    I (c ++ [(pl, q, o)]) w' ∧ (goes q = true ↔ is_Some o);
}.

Abbreviation paths c := ((λ x : Call, x.1.2) <$> c).

(** Each call is for an entry of a directory that was entered before. *)
Definition in_order c : Prop :=
  ∀ c1 pl q o c2, c = c1 ++ (pl, q, o) :: c2 → listed_in c1 pl q.

Definition job_from c j : Prop :=
  match j with
  | Start r pl => entered c r pl
  | Entries es pl => ∃ r es0, dir r = Some es0 ∧ es ⊆ es0 ∧ entered c r pl
  end.

Lemma entered_app c c' r pl : entered c r pl → entered (c ++ c') r pl.
Proof. intros [?|[pl0 ?]]; [by left|]. right. exists pl0. set_solver. Qed.

Lemma job_from_app c c' j : job_from c j → job_from (c ++ c') j.
Proof.
  destruct j as [r pl|es pl]; simpl; [apply entered_app|].
  intros (r & es0 & ? & ? & ?). exists r, es0. auto using entered_app.
Qed.

Lemma in_order_snoc c pl q o : in_order c → listed_in c pl q → in_order (c ++ [(pl, q, o)]).
Proof.
  intros Hc Hq c1 pl1 q1 o1 c2 E. destruct c2 as [|y c2 _] using rev_ind.
  - apply app_inj_2 in E as [-> E]; [|done]. by simplify_eq.
  - rewrite app_comm_cons, app_assoc in E. apply app_inj_2 in E as [-> _]; [|done]. by eapply Hc.
Qed.

Lemma visits_app js1 js2 l1 l2 n1 n2 :
  visits js1 l1 n1 → visits js2 l2 n2 → visits (js1 ++ js2) (l1 ++ l2) (n1 + n2).
Proof.
  induction 1 as [|j jobs lj nj l n Hj _ IH]; [done|]. intros H2. simpl.
  rewrite <- !app_assoc, <- Nat.add_assoc. constructor; auto.
Qed.

Lemma visits_app_inv js1 js2 l n :
  visits (js1 ++ js2) l n →
  ∃ l1 l2 n1 n2, visits js1 l1 n1 ∧ visits js2 l2 n2 ∧ l = l1 ++ l2 ∧ n = n1 + n2.
Proof.
  revert l n. induction js1 as [|j js1 IH]; simpl; intros l n Hv.
  - exists [], l, 0, n. split_and!; [constructor|done..].
  - inversion Hv as [|? ? lj nj l' n' Hj Hv']; subst.
    destruct (IH _ _ Hv') as (l1 & l2 & n1 & n2 & ? & ? & -> & ->).
    exists (lj ++ l1), l2, (nj + n1), n2. rewrite app_assoc, Nat.add_assoc. by repeat constructor.
Qed.

Lemma visits_one j l n : job_visits j l n → visits [j] l n.
Proof.
  intros Hj. rewrite <- (app_nil_r l), <- (Nat.add_0_r n). constructor; [done|constructor].
Qed.

Lemma entries_pos es l n : entries es l n → 0 < n.
Proof. destruct 1; lia. Qed.

(** The next entry has not been handled. *)
Lemma head_fresh c q es pl l n :
  job_visits (Entries (inl q :: es) pl) l n → NoDup (paths c ++ l) → q ∉ paths c.
Proof.
  intros Hv (_ & Hnd & _)%NoDup_app Hq.
  inversion Hv; subst; (eapply Hnd; [exact Hq|by left]).
Qed.

Lemma NoDup_part {A} (l1 l2 l3 l4 : list A) : NoDup (l1 ++ l2 ++ l3 ++ l4) → NoDup (l1 ++ l3).
Proof.
  intros (? & Hne & (_ & _ & (? & _ & _)%NoDup_app)%NoDup_app)%NoDup_app.
  apply NoDup_app. split_and!; [done| |done]. intros x Hx ?. eapply Hne; [done|set_solver].
Qed.

(** What a turn of a job leaves. *)
Lemma worker_visits I c j lj nj w js w' :
  handler_keeps I → I c w → in_order c → job_from c j → job_visits j lj nj →
  NoDup (paths c ++ lj) → recurse_worker j w = (Ok js, w') →
  ∃ new l' n', I (c ++ new) w' ∧ in_order (c ++ new) ∧ visits js l' n' ∧ paths new ++ l' ≡ₚ lj ∧
    n' < nj ∧ Forall (job_from (c ++ new)) js.
Proof.
  intros HI Hc Ho Hj Hv Hnd Hrun. destruct j as [r pl|[|[q|e] es] pl]; cbn [recurse_worker job_visits] in *.
  - unfold mbind, M_bind, attempt in Hrun. destruct (read_dir r w) as [d w1] eqn:E.
    destruct (hk_read _ HI _ _ _ _ _ Hc E) as [Hc1 Hd]. exists []. rewrite !app_nil_r.
    destruct Hv as [r Hr|r es l n Hr Hes]; rewrite Hr in Hd.
    + destruct Hd as [e ->]. injection Hrun as <- <-. exists [], 0.
      split_and!; try done; [constructor|lia].
    + subst d. injection Hrun as <- <-. exists l, n. split_and!; try done.
      * by apply visits_one.
      * lia.
      * constructor; [|done]. by exists r, es.
  - injection Hrun as <- <-. inversion Hv; subst. exists [], [], 0. rewrite app_nil_r.
    split_and!; try done; [constructor|lia].
  - apply bind_Ok_inv in Hrun as (o & w1 & E & Hrun). injection Hrun as <- <-.
    destruct Hj as (r & es0 & Hr & Hsub & Hent).
    assert (listed_in c pl q) as Hin by (exists r, es0; split_and!; [done|set_solver|done]).
    assert (q ∉ paths c) as Hq by by eapply (head_fresh c q es pl).
    destruct (hk_handle _ HI _ _ _ _ _ _ Hc Hin Hq E) as [Hc1 Hgoes].
    assert (Forall (job_from (c ++ [(pl, q, o)])) [Entries es pl]) as Hrest.
    { constructor; [|done]. exists r, es0. split_and!; [done|set_solver|by apply entered_app]. }
    assert (in_order (c ++ [(pl, q, o)])) as Ho1 by by apply in_order_snoc.
    inversion Hv as [| |? ? l n Hg Hes|? ? lq nq l n Hg Hlq Hes]; subst.
    + destruct o as [d|]; [by rewrite (proj2 Hgoes) in Hg|].
      exists [(pl, q, None)], l, n. split_and!; try done; [by apply visits_one|lia].
    + destruct o as [d|]; [|by destruct (proj1 Hgoes Hg)].
      exists [(pl, q, Some d)], (l ++ lq), (n + nq). split_and!; try done.
      * apply (visits_app [_] [_]); by apply visits_one.
      * simpl. by rewrite (comm (++) l).
      * lia.
      * constructor; [by apply Forall_cons in Hrest as [? _]|]. constructor; [|done].
        right. exists pl. set_solver.
  - injection Hrun as <- <-. inversion Hv as [|? ? l n Hes| |]; subst. exists [], lj, n.
    rewrite app_nil_r. destruct Hj as (r & es0 & ? & ? & ?). split_and!; try done.
    + by apply visits_one.
    + lia.
    + constructor; [|done]. exists r, es0. split_and!; [done|set_solver|done].
Qed.

(** A turn takes something off what is left to visit, or does nothing. *)
Lemma turn_visits I c jobs l n w i jobs' w' :
  handler_keeps I → I c w → in_order c → Forall (job_from c) jobs → visits jobs l n →
  NoDup (paths c ++ l) → turn i (jobs, w) = (Ok (), (jobs', w')) →
  ∃ new l' n', I (c ++ new) w' ∧ in_order (c ++ new) ∧ Forall (job_from (c ++ new)) jobs' ∧
    visits jobs' l' n' ∧ paths new ++ l' ≡ₚ l ∧ n' ≤ n ∧
    (∀ j, jobs !! i = Some j → has_thread j jobs → n' < n).
Proof.
  intros HI Hc Ho Hj Hv Hnd. unfold turn. rewrite bind_gets. cbn [fst].
  destruct (jobs !! i) as [j|] eqn:Ei; [case_decide as Ht|].
  2,3: intros [= <- <-]; exists [], l, n; rewrite app_nil_r; split_and!; try done; naive_solver.
  intros (new & x1 & (js & E & ->)%zoom_Ok_inv & Hm)%bind_Ok_inv. injection Hm as <- <-.
  cbn [lget lset fst_lens snd_lens fst snd] in *.
  assert (jobs = take i jobs ++ j :: drop (S i) jobs) as Hjobs by by rewrite take_drop_middle.
  rewrite Hjobs in Hv, Hj. apply visits_app_inv in Hv as (l1 & l2 & n1 & n2 & Hv1 & Hv2 & -> & ->).
  inversion Hv2 as [|? ? lj nj l3 n3 Hvj Hv3]; subst.
  apply Forall_app in Hj as [Hj1 [Hjj Hj2]%Forall_cons].
  destruct (worker_visits I c j lj nj w new js) as (calls & lj' & nj' & Hc' & Ho' & Hvn & Hp & Hn & Hjn);
    [done..|by eapply NoDup_part|done|].
  exists calls, (l1 ++ lj' ++ l3), (n1 + (nj' + n3)). split_and!; try done.
  - apply Forall_app. split; [|apply Forall_app; split; [done|]].
    all: eapply Forall_impl; [eassumption|]; intros; by apply job_from_app.
  - by repeat apply visits_app.
  - rewrite <- Hp. rewrite !(assoc (++)). by rewrite (comm (++) (paths calls) l1).
  - lia.
  - intros; lia.
Qed.

(** The turns of a schedule. *)
Lemma turns_visit I sched c jobs l n w jobs' w' :
  handler_keeps I → I c w → in_order c → Forall (job_from c) jobs → visits jobs l n →
  NoDup (paths c ++ l) → for_each turn sched (jobs, w) = (Ok (), (jobs', w')) →
  ∃ new l' n', I (c ++ new) w' ∧ in_order (c ++ new) ∧ Forall (job_from (c ++ new)) jobs' ∧
    visits jobs' l' n' ∧ paths new ++ l' ≡ₚ l ∧ n' ≤ n.
Proof.
  intros HI. revert c jobs l n w. induction sched as [|i sched IH]; intros c jobs l n w Hc Ho Hj Hv Hnd.
  { intros [= <- <-]. exists [], l, n. by rewrite app_nil_r. }
  intros ([] & [jobs1 w1] & E & Hrun)%bind_Ok_inv.
  destruct (turn_visits I c jobs l n w i jobs1 w1) as (new1 & l1 & n1 & Hc1 & Ho1 & Hj1 & Hv1 & Hp1 & ? & _);
    [done..|].
  destruct (IH (c ++ new1) jobs1 l1 n1 w1) as (new2 & l2 & n2 & Hc2 & Ho2 & Hj2 & Hv2 & Hp2 & ?); try done.
  { by rewrite fmap_app, <- (assoc (++)), Hp1. }
  exists (new1 ++ new2), l2, n2. rewrite (assoc (++)). split_and!; try done; [|lia].
  by rewrite fmap_app, <- (assoc (++)), Hp2.
Qed.

(** What a schedule that ends has visited. *)
Lemma recurse_visited I l n sched w w' :
  handler_keeps I → below root l n → NoDup l → I [] w →
  recurse sched root payload w = (Ok (), w') →
  ∃ c, I c w' ∧ paths c ≡ₚ l ∧ in_order c.
Proof.
  intros HI Hb Hnd Hw. unfold recurse.
  destruct (for_each _ _ _) as [[[]|e| |] [[|j jobs] w1]] eqn:E; try done. intros [= ->].
  destruct (turns_visit I sched [] [Start root payload] l n w [] w') as (c & l' & n' & Hc & Ho & _ & Hv & Hp & _);
    try done.
  - intros c1 pl q o c2 Hc. by destruct c1.
  - constructor; [|done]. by left.
  - by apply visits_one.
  - inversion Hv; subst. exists c. by rewrite app_nil_r in Hp.
Qed.

(** C31: Whatever the schedule of the threads, when the recursion has ended every path below the
    root has been handled exactly once, with the payload that its directory was given when it
    was handled, and after it; unreadable directories and entries are skipped. Any invariant
    that the handler's calls keep holds in the end. *)
Theorem recurse_visits_all I l n sched w w' :
  handler_keeps I → below root l n → NoDup l → I [] w →
  recurse sched root payload w = (Ok (), w') →
  ∃ c, I c w' ∧ paths c ≡ₚ l ∧ in_order c.
Proof. apply recurse_visited. Qed.

(** The handler does not panic where the invariant holds. *)
Definition handler_returns (I : list Call → W → Prop) : Prop := ∀ c pl q w,
  I c w → listed_in c pl q → q ∉ paths c → ∃ o w', handle_path pl q w = (Ok o, w').

Lemma turn_returns I c jobs l n w i :
  handler_keeps I → handler_returns I → I c w → Forall (job_from c) jobs → visits jobs l n →
  NoDup (paths c ++ l) → ∃ x, turn i (jobs, w) = (Ok (), x).
Proof.
  intros HI Ht Hc Hj Hv Hnd. unfold turn. rewrite bind_gets. cbn [fst].
  destruct (jobs !! i) as [j|] eqn:Ei; [|by eexists]. case_decide; [|by eexists].
  pose proof (Forall_lookup_1 _ _ _ _ Hj Ei) as Hjj.
  rewrite <- (take_drop_middle _ _ _ Ei) in Hv.
  apply visits_app_inv in Hv as (l1 & l2 & n1 & n2 & _ & Hv2 & -> & ->).
  inversion Hv2 as [|? ? lj nj l3 n3 Hvj _]; subst. apply NoDup_part in Hnd.
  assert (∃ js w1, recurse_worker j w = (Ok js, w1)) as (js & w1 & E).
  { destruct j as [r pl|[|[q|e] es] pl]; cbn [recurse_worker]; [|by do 2 eexists| |by do 2 eexists].
    - unfold mbind, M_bind, attempt. destruct (read_dir r w) as [d w1] eqn:E.
      destruct (hk_read _ HI _ _ _ _ _ Hc E) as [_ Hd].
      destruct (dir r); [subst d|destruct Hd as [e ->]]; by do 2 eexists.
    - destruct Hjj as (r & es0 & ? & ? & ?). destruct (Ht c pl q w) as (o & w1 & E); [done| |by eapply (head_fresh c q es pl)|].
      { exists r, es0. split_and!; [done|set_solver|done]. }
      rewrite (bind_Ok _ _ _ _ _ E). by do 2 eexists. }
  rewrite (bind_zoom snd_lens _ _ (jobs, w) js w1 E). by eexists.
Qed.

(** While jobs are left one of them has a thread. *)
Lemma some_thread jobs : jobs ≠ [] → ∃ i j, jobs !! i = Some j ∧ has_thread j jobs.
Proof.
  intros Hne. destruct (decide (Exists (λ j, in_progress j = true) jobs)) as [He|Hn].
  - apply Exists_exists in He as (j & [i Hi]%list_elem_of_lookup_1 & Hj). exists i, j. by split; [|left].
  - destruct jobs as [|j jobs]; [done|]. exists 0, j. split; [done|]. right.
    rewrite <- Forall_Exists_neg in Hn. unfold threads.
    assert (filter (λ j, in_progress j = true) (j :: jobs) = []) as ->; [|simpl; lia].
    clear Hne. revert Hn. generalize (j :: jobs). induction 1 as [|x l Hx _ IH]; [done|].
    by rewrite filter_cons_False.
Qed.

Lemma jobs_end I c jobs l n w :
  handler_keeps I → handler_returns I → I c w → in_order c → Forall (job_from c) jobs →
  visits jobs l n → NoDup (paths c ++ l) →
  ∃ sched w', length sched ≤ n ∧ for_each turn sched (jobs, w) = (Ok (), ([], w')).
Proof.
  intros HI Ht. revert c jobs l w. induction (lt_wf n) as [n _ IH]. intros c jobs l w Hc Ho Hj Hv Hnd.
  destruct (decide (jobs = [])) as [->|Hne]; [by exists [], w; split; [simpl; lia|]|].
  destruct (some_thread jobs Hne) as (i & j & Hi & Hthr).
  destruct (turn_returns I c jobs l n w i) as [[jobs1 w1] E]; [done..|].
  destruct (turn_visits I c jobs l n w i jobs1 w1) as (new & l1 & n1 & Hc1 & Ho1 & Hj1 & Hv1 & Hp & _ & Hlt);
    [done..|].
  destruct (IH n1 (Hlt _ Hi Hthr) (c ++ new) jobs1 l1 w1) as (sched & w' & Hlen & Hrun); [done..| |].
  { by rewrite fmap_app, <- (assoc (++)), Hp. }
  exists (i :: sched), w'. split; [specialize (Hlt _ Hi Hthr); simpl; lia|].
  cbn [for_each]. by rewrite (bind_Ok _ _ _ _ _ E).
Qed.

(** C32: The recursion cannot get stuck, though only ten directories are read at a time: whatever
    turns the threads have had, as many turns as there are directories and entries below the
    root are enough to end it, if the handler does not panic. *)
Theorem recurse_can_end I l n sched w :
  handler_keeps I → handler_returns I → below root l n → NoDup l → I [] w →
  ∃ sched' w', length sched' ≤ n ∧ recurse (sched ++ sched') root payload w = (Ok (), w').
Proof.
  intros HI Ht Hb Hnd Hw.
  assert (∃ jobs w1, for_each turn sched ([Start root payload], w) = (Ok (), (jobs, w1)) ∧
    ∃ c l' n', I c w1 ∧ in_order c ∧ Forall (job_from c) jobs ∧ visits jobs l' n' ∧ paths c ++ l' ≡ₚ l ∧ n' ≤ n)
    as (jobs & w1 & E & c & l' & n' & Hc & Ho & Hj & Hv & Hp & Hn).
  { induction sched as [|i sched IH] using rev_ind.
    { exists [Start root payload], w. split; [done|]. exists [], l, n. split_and!; try done.
      - intros c1 pl q o c2 Hc. by destruct c1.
      - constructor; [|done]. by left.
      - by apply visits_one. }
    destruct IH as (jobs & w1 & E & c & l1 & n1 & Hc & Ho & Hj & Hv & Hp & Hn).
    destruct (turn_returns I c jobs l1 n1 w1 i) as [[jobs2 w2] E2]; [done..|by rewrite Hp|].
    destruct (turn_visits I c jobs l1 n1 w1 i jobs2 w2) as (new & l2 & n2 & ? & ? & ? & ? & Hp2 & ? & _);
      [done..|by rewrite Hp|done|].
    exists jobs2, w2. split.
    { rewrite (for_each_app _ _ _ _ _ E). cbn [for_each]. by rewrite (bind_Ok _ _ _ _ _ E2). }
    exists (c ++ new), l2, n2. split_and!; try done; [|lia].
    by rewrite fmap_app, <- (assoc (++)), Hp2. }
  destruct (jobs_end I c jobs l' n' w1) as (sched' & w' & Hlen & Hrun); [done..|by rewrite Hp|].
  exists sched', w'. split; [lia|]. unfold recurse. by rewrite (for_each_app _ _ _ _ _ E), Hrun.
Qed.

End ListDir.

(** ** The stub of the unit test *)

Module Stub.

(** The paths, and whether they have been visited; a [BTreeMap], whose order does not matter. *)
Abbreviation VisitedPaths := (gmap Path bool).

Definition parent_path (path : Path) : option Path := if decide (path = []) then None else Some (pop path).

Definition children (paths : gset Path) (dir : Path) : list Path :=
  filter (λ k, parent_path k = Some dir) (elements paths).

Definition visit (path : Path) : M VisitedPaths (option bool) :=
  old ← gets (lookup path); modify (<[path := true]>) ;; mret old.

Definition list_dir (dir : Path) : M VisitedPaths (list Path) := gets (λ m, children (dom m) dir).

Definition not_visited (m : VisitedPaths) : list Path :=
  filter (λ k, m !! k = Some false) (elements (dom m)).

#[export] Instance stub_handler : PathHandler (option Path) VisitedPaths := {|
  read_dir path := l ← list_dir path; mret (inl <$> l);
  handle_path p_opt path :=
    old ← visit path;
    lift (assert_ (old = Some false)) ;;
    match p_opt with Some p => lift (assert_ (parent_path path = Some p)) | None => mret () end ;;
    l ← list_dir path;
    mret ((λ _, Some path) <$> head l);
|}.

Definition stub_dir (paths : gset Path) (r : Path) : option (list (Path + error)) :=
  Some (inl <$> children paths r).
Definition stub_goes (paths : gset Path) (q : Path) : bool := bool_decide (children paths q ≠ []).

(** What is not handled is not visited, and a directory's payload is its path. *)
Record stub_inv (paths : gset Path) (c : list (Call (P := option Path))) (m : VisitedPaths) : Prop := {
  si_dom : dom m = paths;
  si_fresh : ∀ q, q ∈ paths → q ∉ (λ x : Call, x.1.2) <$> c → m !! q = Some false;
  si_payload : ∀ pl r d, (pl, r, Some d) ∈ c → d = Some r;
}.

Lemma elem_of_stub_children paths r q : q ∈ children paths r ↔ parent_path q = Some r ∧ q ∈ paths.
Proof. unfold children. by rewrite list_elem_of_filter, elem_of_elements. Qed.

Lemma is_Some_head {A} (l : list A) : is_Some (head l) ↔ l ≠ [].
Proof. destruct l; simpl; split; [by intros []|done|done|by eexists]. Qed.

Lemma listed_child paths root c (pl : option Path) q :
  listed_in (stub_dir paths) root None c pl q →
  (∀ pl0 r (d : option Path), (pl0, r, Some d) ∈ c → d = Some r) →
  q ∈ paths ∧ ∀ p, pl = Some p → parent_path q = Some p.
Proof.
  intros (r' & es & [= <-] & (q' & [= <-] & [Hq Hin]%elem_of_stub_children)%list_elem_of_fmap & He) Hp.
  split; [done|]. intros p ->. destruct He as [[_ [=]]|[pl0 Hc]].
  by apply Hp in Hc as [= ->].
Qed.

Lemma stub_run paths root c pl q m :
  stub_inv paths c m → listed_in (stub_dir paths) root None c pl q → q ∉ (λ x : Call, x.1.2) <$> c →
  handle_path pl q m = (Ok ((λ _, Some q) <$> head (children paths q)), <[q := true]> m) ∧
  dom (<[q := true]> m) = paths.
Proof.
  intros [Hd Hf Hp] Hin Hnew.
  destruct (listed_child _ _ _ _ _ Hin Hp) as [Hq Hpar].
  assert (dom (<[q := true]> m) = paths) as Hdom by (rewrite dom_insert_L; set_solver).
  split; [|done]. cbn [handle_path stub_handler]. unfold visit, list_dir.
  rewrite bind_assoc, bind_gets, bind_assoc, bind_modify, bind_ret, (Hf q Hq Hnew).
  rewrite bind_lift_assert by done.
  destruct pl as [p|]; [rewrite bind_lift_assert by by apply Hpar|];
    by rewrite ?bind_ret, bind_gets, Hdom.
Qed.

Lemma stub_keeps paths root :
  handler_keeps (stub_dir paths) (stub_goes paths) root None (stub_inv paths).
Proof.
  split.
  - intros c p m r m' Hm [= <- <-]. split; [done|]. unfold stub_dir. by rewrite (si_dom _ _ _ Hm).
  - intros c pl q o m m' Hm Hin Hnew Hrun.
    destruct (stub_run _ _ _ _ _ _ Hm Hin Hnew) as [E Hdom]. rewrite E in Hrun.
    injection Hrun as <- <-. destruct Hm as [Hd Hf Hp]. split; [split; [done| |]|].
    + intros q' Hq'. rewrite fmap_app, not_elem_of_app. intros [? ?].
      rewrite lookup_insert_ne by set_solver. by apply Hf.
    + intros pl0 r d [?|Hlast]%elem_of_app; [by eapply Hp|].
      apply list_elem_of_singleton in Hlast. destruct (children paths q); simplify_eq/=. done.
    + unfold stub_goes. rewrite bool_decide_eq_true. by rewrite fmap_is_Some, is_Some_head.
Qed.

Lemma stub_returns paths root : handler_returns (stub_dir paths) root None (stub_inv paths).
Proof.
  intros c pl q m Hm Hin Hnew. destruct (stub_run _ _ _ _ _ _ Hm Hin Hnew) as [E _]. by do 2 eexists.
Qed.

Definition path (s : string) : Path := components (lit s).

Definition test_paths : list Path := path <$> ["/"; "/foo"; "/bar/"; "/bar/baz/"; "/bar/baz/qux";
  "/bar/baz/foo"; "/bar/baz/bar/"; "/bar/baz/bar/foo"; "/bar/baz/bar/bar"; "/bar/baz/bar/bar/bar";
  "/empty/"; "/empty/1/"; "/empty/2/"; "/empty/3/"; "/empty/4/"; "/empty/5/"; "/empty/6/";
  "/empty/7/"; "/empty/8/"; "/empty/9/"].

Definition new (paths : list Path) : VisitedPaths := list_to_map ((λ p, (p, false)) <$> paths).

Definition test_set : gset Path := list_to_set test_paths.

(** Every second turn is the last job's. *)
Definition test_schedule : list nat :=
  concat (replicate 60 [5; 0; 3; 12; 1]).

Definition test_check : bool :=
  match walk (stub_dir test_set) (stub_goes test_set) 10 [] with
  | Some (l, n) => bool_decide (NoDup l) && bool_decide (length l = 19) &&
      check_run (recurse test_schedule [] None (new test_paths)) (λ _ m,
        bool_decide (not_visited m = [[]]))
  | None => false
  end.

Lemma can_visit_all : test_check = true.
Proof. vm_compute. reflexivity. Qed.

Lemma new_inv : stub_inv test_set [] (new test_paths).
Proof.
  split; [by apply (bool_decide_unpack _); vm_compute| |].
  - intros q Hq _. revert q Hq. apply (proj2 (set_Forall_elements _ _)).
    by apply (bool_decide_unpack _); vm_compute.
  - by intros ? ? ? ?%elem_of_nil.
Qed.

(** The test's run. *)
Lemma test_run : ∃ l n m, below (stub_dir test_set) (stub_goes test_set) [] l n ∧ NoDup l ∧
  recurse test_schedule [] None (new test_paths) = (Ok (), m) ∧ not_visited m = [[]].
Proof.
  pose proof can_visit_all as Ht. unfold test_check in Ht.
  destruct (walk _ _ _ _) as [[l n]|] eqn:E; [|done].
  apply andb_true_iff in Ht as [[Hn%bool_decide_eq_true _]%andb_true_iff Ht].
  apply check_run_true in Ht as ([] & m & Er & Hm%bool_decide_eq_true).
  exists l, n, m. split_and!; [by eapply walk_below|done..].
Qed.

Lemma recurse_visits_all_witness : ∃ l m, recurse test_schedule [] None (new test_paths) = (Ok (), m) ∧
  not_visited m = [[]] ∧ ∃ c, stub_inv test_set c m ∧ (λ x : Call, x.1.2) <$> c ≡ₚ l ∧
    in_order (stub_dir test_set) [] None c.
Proof.
  destruct test_run as (l & n & m & Hb & Hnd & Hrun & Hm). exists l, m. split; [exact Hrun|].
  split; [exact Hm|].
  exact (recurse_visits_all (stub_dir test_set) (stub_goes test_set) [] None (stub_inv test_set) l n
    test_schedule (new test_paths) m (stub_keeps test_set []) Hb Hnd new_inv Hrun).
Defined.

Lemma recurse_can_end_witness : ∃ n sched' m, length sched' ≤ n ∧
  recurse ([5; 0; 0; 0; 1] ++ sched') [] None (new test_paths) = (Ok (), m).
Proof.
  destruct test_run as (l & n & _ & Hb & Hnd & _). exists n.
  exact (recurse_can_end (stub_dir test_set) (stub_goes test_set) [] None (stub_inv test_set) l n
    [5; 0; 0; 0; 1] (new test_paths) (stub_keeps test_set []) (stub_returns test_set []) Hb Hnd new_inv).
Defined.

End Stub.
