(* ===== verification/Process.v ===== *)
(** * Processes and pools: util/process.rs, util/sync_pool.rs

    A process is a thread with a handler that takes messages one after the other; a pool lends
    its values. The bounded channels make callers wait, which is left to the order of the
    callers' operations. *)

From S2P Require Import Prelude.

(** ** process.rs *)

(** A thread waits for messages, is in a message for ever, or has panicked. *)
Inductive Thread := Waiting | Busy | Dead.

(** The handler's state and its thread. *)
Record Process (St : Type) := mkProcess { handler : St; thread : Thread }.
Arguments mkProcess {St} _ _.
Arguments handler {St} _.
Arguments thread {St} _.

Section Process.
Context {Msg Reply St : Type}.

(** [MsgHandler::handle(msg, callback)]: its [Result], and what it gave the callback, if it called
    it ([FnOnce]). *)
Context (handle : Msg → M (St * option (Reply + error)) unit).

Definition new (h : St) : Process St := mkProcess h Waiting.

(** What the other end of the reply's channel reads. *)
Definition received (r : option (Reply + error)) : res Reply :=
  match r with Some (inl r) => Ok r | Some (inr e) => Err e | None => Panic end.

(** A round of the thread's loop: the reply and the thread afterwards. *)
Definition serve (msg : Msg) (h : St) : res Reply * Process St :=
  let '(ret, (h, rep)) := handle msg (h, None) in
  match ret, rep with
  | Ok _, Some _ => (received rep, mkProcess h Waiting)
  | Ok _, None => (Panic, mkProcess h Dead)
  | Err _, Some _ => (received rep, mkProcess h Dead)
  | Err e, None => (Err e, mkProcess h Waiting)
  | Panic, _ => (received rep, mkProcess h Dead)
  | Diverge, Some _ => (received rep, mkProcess h Busy)
  | Diverge, None => (Diverge, mkProcess h Busy)
  end.

Definition send_reply (msg : Msg) : M (Process St) Reply := λ p,
  match thread p with
  | Waiting => serve msg (handler p)
  | Busy => (Diverge, p)
  | Dead => (Panic, p)
  end.

End Process.

Section transparent.
Context {Msg Reply St : Type} (h : Msg → M St Reply).

(** A handler that ends with its reply, as the key store's does ([reply_ok!], [?]). *)
Definition reply_last (msg : Msg) : M (St * option (Reply + error)) unit :=
  r ← zoom fst_lens (h msg); modify (λ s, (s.1, Some (inl r))).

Definition thread_after {A} (r : res A) : Thread :=
  match r with Ok _ | Err _ => Waiting | Panic => Dead | Diverge => Busy end.

(** Such a process is its handler, until a message panics or never ends. *)
Lemma send_reply_transparent msg s :
  send_reply reply_last msg (new s) = let '(r, s') := h msg s in (r, mkProcess s' (thread_after r)).
Proof.
  unfold send_reply, serve, reply_last, new, mbind, M_bind, zoom. cbn.
  by destruct (h msg s) as [[] s'].
Qed.

(** After a panic nobody gets an answer. *)
Lemma dead_process msg s : send_reply reply_last msg (mkProcess s Dead) = (Panic, mkProcess s Dead).
Proof. done. Qed.

End transparent.

(** ** sync_pool.rs *)

Module SyncPool.

(** The values that are not lent. *)
Record SyncPool (V : Type) := mkPool { vals : list V }.
Arguments mkPool {V} _.
Arguments vals {V} _.

Definition new {V} (vals : list V) : SyncPool V := mkPool vals.

(** [lock]: the last value; without one the caller waits. *)
Definition lock {V} : M (SyncPool V) (option V) := λ p,
  match last (vals p) with
  | Some v => (Ok (Some v), mkPool (take (length (vals p) - 1) (vals p)))
  | None => (Ok None, p)
  end.

(** The guard's [drop]. *)
Definition unlock {V} (v : V) : M (SyncPool V) unit := modify (λ p, mkPool (vals p ++ [v])).

Lemma lock_takes {V} (v : V) p : lock (mkPool (p ++ [v])) = (Ok (Some v), mkPool p).
Proof.
  unfold lock. cbn [vals]. rewrite last_snoc, length_app, Nat.add_sub. by rewrite take_app_length.
Qed.

(** With nobody else at the pool it always lends the same value. *)
Lemma lock_unlock {V} (v : V) p : unlock v (mkPool p) = (Ok (), mkPool (p ++ [v])).
Proof. done. Qed.

End SyncPool.
