(* ===== verification/Walker.v ===== *)
(** * Walking a snapshot: hat/walker.rs

    A [Walker] goes over the tree of a directory listing; the visitor of files says which
    entries to descend into, and a file's tree or another directory's [Walker] is then gone over
    before the listing goes on. *)

From S2P Require Import Prelude Cbor Refs HashTree.
From S2P Require Models.

Inductive Content :=
  | Data (hash_ref : tree.HashRef)
  | Dir (hash_ref : tree.HashRef)
  | Link (path : bytes).

#[global] Instance Content_eq_dec : EqDecision Content.
Proof. solve_decision. Defined.

Record FileEntry := mkFileEntry { hash_ref : Content; meta : key.Entry }.

(** The traits, with a visitor's state [V]; [&mut self] is the state passed on. *)
Record LikesFiles (V : Type) := mkLikesFiles {
  include_file : FileEntry → V → bool * V;
  include_dir : FileEntry → V → bool * V;
}.
Arguments mkLikesFiles {V} _ _.
Arguments include_file {V} _ _ _.
Arguments include_dir {V} _ _ _.

Definition default_likes_files {V} : LikesFiles V :=
  mkLikesFiles (λ _ v, (true, v)) (λ _ v, (true, v)).

Record HasFiles (V : Type) := mkHasFiles { files : V → list FileEntry * V }.
Arguments mkHasFiles {V} _.
Arguments files {V} _ _.

Definition default_has_files {V} : HasFiles V := mkHasFiles (λ v, ([], v)).

Inductive StackItem := ItemFile (f : FileEntry) | ItemDir (f : FileEntry).

(** [tree] is the state of a tree's walker ([HashTree.stack]); a child is a file's tree or a
    directory's walker. *)
Inductive Walker := mkWalker {
  walker_tree : list HashTree.StackItem;
  walker_child : option (list HashTree.StackItem + Walker);
  walker_stack : list StackItem;
}.

Section Walker.
Context {St FV DV : Type} `{!HashTreeBackend St} `{Cbor Models.HashRefs}.
Context (file_vis : HashTree.Visitor FV) (likes : LikesFiles FV).
Context (dir_vis : HashTree.Visitor DV) (has : HasFiles DV).

(** The two visitors and the backend. *)
Record World := mkWorld { file_v : FV; dir_v : DV; store : St }.

Definition file_v_lens : lens World FV := Lens file_v (λ v w, mkWorld v (dir_v w) (store w)).
Definition dir_v_lens : lens World DV := Lens dir_v (λ v w, mkWorld (file_v w) v (store w)).

Definition Walker_new (root_hash : tree.HashRef) : Walker :=
  mkWalker (HashTree.Walker_new root_hash) None [].

(** A method of a walker changes the walker and the world. *)
Abbreviation WM A := (M (Walker * World) A).

Definition set_tree (t : list HashTree.StackItem) (w : Walker) : Walker :=
  mkWalker t (walker_child w) (walker_stack w).
Definition set_child (c : option (list HashTree.StackItem + Walker)) (w : Walker) : Walker :=
  mkWalker (walker_tree w) c (walker_stack w).
Definition set_stack (s : list StackItem) (w : Walker) : Walker :=
  mkWalker (walker_tree w) (walker_child w) s.

Definition walker_lens : lens (Walker * World) Walker := fst_lens.

(** [tree.resume(visitor)], for the tree and the visitor of a child file or of the walker. *)
Definition resume_tree {V} (vis : HashTree.Visitor V) (l : lens World V) (fuel : nat)
    (put : list HashTree.StackItem → Walker → Walker) (t : list HashTree.StackItem) : WM bool :=
  λ '(w, wd),
    let '(r, ws) := resume vis fuel (mkWalk t (lget l wd) (store wd)) in
    let wd := lset l (visitor ws) wd in
    (r, (put (stack ws) w, mkWorld (file_v wd) (dir_v wd) (backend ws))).

(** [walker.resume(file_v, dir_v)] of a child. *)
Definition resume_child_dir (m : WM bool) (c : Walker) : WM bool := λ '(w, wd),
  let '(r, (c, wd)) := m (c, wd) in (r, (set_child (Some (inr c)) w, wd)).

(** The [for] over [dir_v.files()]. *)
Definition push_file (f : FileEntry) : WM unit :=
  is_file ← zoom snd_lens (zoom file_v_lens (λ v, let '(b, v) := include_file likes f v in (Ok b, v)));
  if is_file : bool then
    zoom walker_lens (modify (λ w, set_stack (walker_stack w ++ [ItemFile f]) w))
  else
    is_dir ← zoom snd_lens (zoom file_v_lens (λ v, let '(b, v) := include_dir likes f v in (Ok b, v)));
    if is_dir : bool then
      zoom walker_lens (modify (λ w, set_stack (walker_stack w ++ [ItemDir f]) w))
    else mret ().

(** [self.stack.pop_front()], turned into a child. *)
Definition next_child : WM (option (list HashTree.StackItem + Walker)) :=
  w ← gets fst;
  match walker_stack w with
  | [] => mret None
  | item :: rest =>
      zoom walker_lens (modify (set_stack rest)) ;;
      match item with
      | ItemFile f =>
          match hash_ref f with
          | Data href => mret (Some (inl (HashTree.Walker_new href)))
          | _ => panic
          end
      | ItemDir f =>
          match hash_ref f with
          | Dir href => mret (Some (inr (Walker_new href)))
          | _ => panic
          end
      end
  end.

Fixpoint resume (fuel : nat) : WM bool :=
  match fuel with
  | O => diverge
  | S fuel =>
      w ← gets fst;
      more ← match walker_child w with
             | Some (inl t) =>
                 resume_tree file_vis file_v_lens fuel (λ t, set_child (Some (inl t))) t
             | Some (inr c) => resume_child_dir (resume fuel) c
             | None => mret false
             end;
      if more : bool then mret true
      else
        child ← next_child;
        zoom walker_lens (modify (set_child child)) ;;
        if child is Some _ then resume fuel
        else
          w ← gets fst;
          more ← resume_tree dir_vis dir_v_lens fuel set_tree (walker_tree w);
          if more : bool then
            fs ← zoom snd_lens (zoom dir_v_lens (λ v, let '(l, v) := files has v in (Ok l, v)));
            for_each push_file fs ;;
            mret true
          else mret false
  end.

End Walker.
