(* ===== verification/Family.v ===== *)
(** * A family of snapshots: hat/family.rs

    A family has a key store of its own and processes that run key stores on the same tables.
    [commit] writes the directories of the index of keys into hash trees; [fetch_dir_data]
    reads a directory back, and the checkouts write directories to the file system. *)

From S2P Require Import Prelude Utf8 Cbor Refs HashTree KeyIndex KeyStore Walker FileSystem.
From S2P Require Models.

(** ** Directory listings *)

(** One entry of [parse_dir_data]'s loop. *)
Definition file_entry (f : Models.File) : res FileEntry :=
  '(data, href) ← match Models.content f with
                  | Models.Data r => Ok (key.FilePlaceholder, Data (tree.from_model r))
                  | Models.Directory d => Ok (key.DirPlaceholder, Dir (tree.from_model d))
                  | Models.SymbolicLink path =>
                      link ← expect (from_utf8 path); Ok (key.Symlink link, Link link)
                  end;
  Ok (mkFileEntry href
    (key.mkEntry (Some (Models.file_id f)) None data (key.Info_from_model (Models.info f)))).

(** The loop: an entry without a name ends it. *)
Fixpoint push_files (l : list Models.File) (out : list FileEntry) : res (list FileEntry) :=
  match l with
  | [] => Ok out
  | f :: l =>
      if Models.FileName_is_empty (Models.name (Models.info f)) then Ok out
      else e ← file_entry f; push_files l (out ++ [e])
  end.

Definition parse_dir_data `{Cbor Models.Files} (chunk : bytes) (out : list FileEntry)
    : res (list FileEntry) :=
  if decide (chunk = []) then Ok out
  else file_list ← decode chunk; push_files (Models.files file_list) out.

(** [for _ in 1..5 { if f() { return } } panic!()] *)
Fixpoint try_times {S} (n : nat) (f : M S unit) : M S unit :=
  match n with
  | O => panic
  | S n => r ← attempt f; if r is inl _ then mret () else try_times n f
  end.

Definition try_a_few_times_then_panic {S} (f : M S unit) : M S unit := try_times 4 f.

(** [for x in l { .. }] over a variable that the body changes. *)
Fixpoint fold_each {S A V} (f : V → A → M S V) (v : V) (l : list A) : M S V :=
  match l with
  | [] => mret v
  | x :: l => v ← f v x; fold_each f v l
  end.

Section Trees.
Context {St : Type} `{!HashTreeBackend St} `{Cbor Models.HashRefs}.

(** ** Reading a directory *)

Context `{Cbor Models.Files}.

Fixpoint fetch_chunks (fuel : nat) (out : list FileEntry)
    : M (WalkState St (list bytes)) (list FileEntry) :=
  o ← leaf_next fuel;
  match o with
  | None => mret out
  | Some chunk =>
      match fuel with
      | O => diverge
      | S fuel =>
          out ← lift (if decide (chunk = []) then Ok out else parse_dir_data chunk out);
          fetch_chunks fuel out
      end
  end.

(** A walk of its own on the backend. *)
Definition with_walk {A} (m : M (WalkState St (list bytes)) A) (href : tree.HashRef) : M St A :=
  λ s, let '(r, w) := m (LeafIterator_new href s) in (r, backend w).

Definition fetch_dir_data (fuel : nat) (dir_hash : tree.HashRef) : M St (list (key.Entry * Content)) :=
  out ← with_walk (fetch_chunks fuel []) dir_hash;
  mret ((λ f, (meta f, hash_ref f)) <$> out).

(** ** Writing a file *)

Context {Fs : Type} `{!FileSystem Fs}.

(** Each chunk is written, again from its start after an error; [fd] is the file's path. *)
Fixpoint write_file_chunks (fuel : nat) (fd : Path) : M (WalkState St (list bytes) * Fs) unit :=
  o ← zoom fst_lens (leaf_next fuel);
  match o with
  | Some chunk =>
      match fuel with
      | O => diverge
      | S fuel =>
          zoom snd_lens (try_a_few_times_then_panic (write_all fd chunk)) ;;
          write_file_chunks fuel fd
      end
  | None => zoom snd_lens (try_a_few_times_then_panic (flush_file fd))
  end.

(** The tree opened, written and dropped. *)
Definition write_file (fuel : nat) (fd : Path) (href : tree.HashRef) : M (St * Fs) unit := λ '(s, fs),
  let '(r, (w, fs)) := write_file_chunks fuel fd (LeafIterator_new href s, fs) in
  (r, (backend w, fs)).

(** Permissions and times of an entry that is there. *)
Definition restore_meta (info : key.Info) (path : Path) : M Fs unit :=
  match key.permissions info with
  | Some perms =>
      current ← symlink_permissions path;
      if decide (current = perms) then mret () else set_permissions path perms
  | None => mret ()
  end ;;
  match key.modified_ts_secs info, key.accessed_ts_secs info with
  | Some m, Some a => set_symlink_file_times path a m
  | _, _ => mret ()
  end.

End Trees.

(** ** The family *)

(** A process's state, the index of keys and what is behind it, is a part of a larger state. *)
Record Family (St Ps : Type) := mkFamily {
  name : bytes;
  key_store : lens Ps (InternalKeyIndex * St);
  key_store_process : list (lens Ps (InternalKeyIndex * St));
}.
Arguments mkFamily {St Ps} _ _ _.
Arguments name {St Ps} _.
Arguments key_store {St Ps} _.
Arguments key_store_process {St Ps} _.

Section Family.
Context {St R : Type} `{!KeyBackend St} `{!Reader R}.
Context `{Cbor Models.HashRefs} `{Cbor Models.HashRef} `{Cbor Models.Files}.

Context {Ps : Type}.
Implicit Types (self : Family St Ps).

(** [Process::send_reply]: the process handles one message after the other. *)
Definition send_reply (ks : lens Ps (InternalKeyIndex * St)) (fuel : nat) (msg : Msg R) : M Ps Reply :=
  zoom ks (handle fuel msg).

Definition last_process self : res (lens Ps (InternalKeyIndex * St)) :=
  expect (last (key_store_process self)).

Definition unexpected {A} : M Ps A := throw (Message "Unexpected reply from key store").

Definition snapshot_direct_no_commit self (fuel : nat) (file : key.Entry) (is_directory : bool)
    (contents : option R) : M Ps Z :=
  let f := if is_directory then None else Some contents in
  ks ← lift (last_process self);
  r ← send_reply ks fuel (Insert file f);
  match r with Id id => mret id | _ => unexpected end.

Definition snapshot_direct self (fuel : nat) (file : key.Entry) (is_directory : bool)
    (contents : option R) : M Ps Z :=
  id ← snapshot_direct_no_commit self fuel file is_directory contents;
  ks ← lift (last_process self);
  r ← attempt (send_reply ks fuel (CommitReservedNodes None));
  match r with
  | inl ReplyOk => mret id
  | _ => throw (Message "Unexpected reply from keystore")
  end.

Definition flush_family self : M Ps unit :=
  for_each (λ ks,
    r ← send_reply ks 0 Flush;
    match r with FlushOk => mret () | _ => unexpected end) (key_store_process self).

Definition list_from_key_store self (dir_id : option Z) : M Ps (list DirElem) :=
  ks ← lift (last_process self);
  r ← send_reply ks 0 (ListDir dir_id);
  match r with ListResult ls => mret ls | _ => unexpected end.

(** *** Committing *)

(** [key::Store::hash_tree_writer]'s tree: its writer's state is kept by the caller. *)
Definition on_tree self {A} (w : SimpleHashTreeWriter) (m : M (SimpleHashTreeWriter * St) A)
    : M Ps (A * SimpleHashTreeWriter) :=
  zoom (key_store self) (with_writer w m).

Definition files_at_a_time : nat := Z.to_nat 1024.

(** The file of one entry; [recurse] writes the listing of a directory. [top_hash_fn] has the
    hash index's state to work on. *)
Definition commit_entry self (recurse : option Z → M Ps SimpleHashTreeWriter)
    (top_hash_fn : bytes → M Ps unit) (el : DirElem) : M Ps Models.File :=
  let '(entry, data_ref, _) := el in
  content ← match key.data entry with
            | key.FilePlaceholder =>
                href ← lift (expect data_ref);
                top_hash_fn (tree.hash href) ;;
                mret (Models.Data (tree.to_model href))
            | key.DirPlaceholder =>
                inner_tree ← recurse (key.node_id entry);
                '(dir_hash_ref, _) ← on_tree self inner_tree (HashTree.hash (Some (key.info entry)));
                top_hash_fn (tree.hash dir_hash_ref) ;;
                mret (Models.Directory (tree.to_model dir_hash_ref))
            | key.Symlink path =>
                path ← lift (expect (from_utf8 path)); mret (Models.SymbolicLink path)
            | key.FileHash _ => panic
            end;
  mret (Models.mkFile (default 0%Z (key.node_id entry)) (key.Info_to_model (key.info entry)) content).

(** The rounds of the loop, of [files_at_a_time] entries each. *)
Fixpoint commit_rounds self (rounds : nat) (entry : DirElem → M Ps Models.File)
    (it : list DirElem) (tree : SimpleHashTreeWriter) : M Ps SimpleHashTreeWriter :=
  files ← mapM' entry (take files_at_a_time it);
  if decide (files = []) then mret tree
  else
    match rounds with
    | O => diverge
    | S rounds =>
        '(_, tree) ← on_tree self tree (append (to_vec (Models.mkFiles files)));
        commit_rounds self rounds entry (drop files_at_a_time it) tree
    end.

(** The fuel bounds the depth of the directories. *)
Fixpoint commit_to_tree self (fuel : nat) (tree : SimpleHashTreeWriter) (dir_id : option Z)
    (top_hash_fn : bytes → M Ps unit) : M Ps SimpleHashTreeWriter :=
  match fuel with
  | O => diverge
  | S fuel =>
      it ← list_from_key_store self dir_id;
      let recurse dir := commit_to_tree self fuel (hash_tree_writer Models.TreeList) dir top_hash_fn in
      commit_rounds self (length it) (commit_entry self recurse top_hash_fn) it tree
  end.

(** [now]: the clock's reading. *)
Definition commit self (fuel : nat) (now : Z) (top_hash_fn : bytes → M Ps unit) : M Ps tree.HashRef :=
  top_tree ← commit_to_tree self fuel (hash_tree_writer Models.TreeList) None top_hash_fn;
  let info := key.Info_new now (Models.FileName_from_string (name self)) None in
  '(href, _) ← on_tree self top_tree (HashTree.hash (Some info));
  mret href.

(** ** Writing to the file system *)

Section Checkout.
Context {Fs : Type} `{!FileSystem Fs}.

Definition process_lens (ks : lens Ps (InternalKeyIndex * St)) : lens (Ps * Fs) (St * Fs) :=
  Lens (λ x, ((lget ks x.1).2, x.2))
       (λ y x, (lset ks ((lget ks x.1).1, y.1) x.1, y.2)).

(** The family's [checkout_in_dir], from its index of keys. [path] grows and shrinks with the
    recursion. *)
Fixpoint checkout_in_dir self (fuel : nat) (dir_id : option Z) (path : Path) : M (Ps * Fs) unit :=
  match fuel with
  | O => diverge
  | S fuel =>
      ls ← zoom fst_lens (list_from_key_store self dir_id);
      fold_each (λ path el,
        let '(entry, _, read_fn_opt) := el in
        let path := push (Models.FileName_into_vec (key.name (key.info entry))) path in
        match key.data entry with
        | key.DirPlaceholder =>
            zoom snd_lens (create_dir_all path) ;;
            checkout_in_dir self fuel (key.node_id entry) path
        | key.FilePlaceholder =>
            zoom snd_lens (create_file path) ;;
            read_fn ← lift (expect read_fn_opt);
            ks ← lift (last_process self);
            zoom (process_lens ks) (write_file fuel path read_fn)
        | key.Symlink link_path => zoom snd_lens (symlink link_path path)
        | key.FileHash _ => panic
        end ;;
        zoom snd_lens (restore_meta (key.info entry) path) ;;
        mret (pop path)) path ls ;;
      mret ()
  end.

End Checkout.

End Family.
