(* ===== verification/Scan.v ===== *)
(** * Scanning a directory: hat/insert_path_handler.rs, and [snapshot_dir] of hat/family.rs

    Every path below a directory becomes an Insert message to one of the family's processes, with
    its information and a way to open it; the reply's id is the parent of what a directory
    holds. The operating system's calls are a class. *)

From S2P Require Import Prelude Cbor Refs HashTree KeyIndex KeyStore FileSystem ListDir Family.
From S2P Require Models.

(** What [fs::Metadata] says: the kind of file, and what an entry records. *)
Inductive FileKind := IsFile | IsDir | IsSymlink | OtherKind.

Record FileMeta := mkFileMeta { file_kind : FileKind; file_meta : key.Metadata }.

(** [std::fs], [FileIterator::new] and the clock; [R] is an opened file. *)
Class ScanOs (Os R : Type) := {
  symlink_metadata : Path → M Os FileMeta;
  read_link : Path → M Os bytes;
  fs_read_dir : Path → M Os (list (Path + error));
  open_file : Path → M Os R;
  canonicalize : Path → M Os Path;
  is_dir : Path → M Os bool;
  time_now : M Os Z;
}.

Record FileEntry := mkFileEntry { key_entry : key.Entry; metadata : FileMeta; full_path : Path }.

(** [Path::file_name] of an absolute path. *)
Definition file_name (p : Path) : option bytes :=
  match last p with
  | Some n => if decide (n = [dot; dot]) then None else Some n
  | None => None
  end.

Section Scan.
Context {Os R : Type} `{!ScanOs Os R}.

Definition FileEntry_new (full_path : Path) (parent : option Z) : M Os FileEntry :=
  match file_name full_path with
  | Some filename =>
      meta ← symlink_metadata full_path;
      data ← match file_kind meta with
             | IsFile => mret key.FilePlaceholder
             | IsDir => mret key.DirPlaceholder
             | IsSymlink => path ← read_link full_path; mret (key.Symlink path)
             | OtherKind => throw (Message "unknown file kind")
             end;
      now ← time_now;
      mret (mkFileEntry (key.Entry_new now parent (Models.FileName_from_os_string filename) data
              (Some (file_meta meta))) meta full_path)
  | None => throw (Message "Could not parse filename.")
  end.

Definition is_file (self : FileEntry) : bool :=
  match file_kind (metadata self) with IsFile => true | _ => false end.
Definition is_directory (self : FileEntry) : bool :=
  match file_kind (metadata self) with IsDir => true | _ => false end.

(** The closure that opens the file is called by the key store, if at all; here the file is
    opened before. *)
Definition open_or_skip (path : Path) : M Os (option R) :=
  it ← attempt (open_file path);
  mret (match it with inl it => Some it | inr _ => None end).

Context {St : Type} `{!KeyBackend St} `{!Reader R}.
Context `{Cbor Models.HashRefs} `{Cbor Models.HashRef} `{Cbor Models.Files}.
Context {Ps : Type}.

(** The operating system, the family's processes, and which of them the pool lends next: the
    last one that nobody holds, which the other threads decide. *)
Record ScanWorld := mkScanWorld { os : Os; processes : Ps; lent : nat → nat; turns : nat }.

Definition os_lens : lens ScanWorld Os :=
  Lens os (λ o w, mkScanWorld o (processes w) (lent w) (turns w)).
Definition processes_lens : lens ScanWorld Ps :=
  Lens processes (λ p w, mkScanWorld (os w) p (lent w) (turns w)).

(** [self.key_store.lock()] *)
Definition lend {A} (pool : list A) : M ScanWorld A := λ w,
  (expect (pool !! (lent w (turns w) mod length pool)), mkScanWorld (os w) (processes w) (lent w) (S (turns w))).

Context (self : Family St Ps) (fuel : nat).

(** Printing of the path that is handled is left out. *)
Definition insert_path (parent : option Z) (path : Path) : M ScanWorld (option (option Z)) :=
  entry ← attempt (zoom os_lens (FileEntry_new path parent));
  match entry with
  | inr _ => mret None
  | inl file_entry =>
      contents ← (if is_file file_entry
                  then it ← zoom os_lens (open_or_skip path); mret (Some it)
                  else mret None);
      ks ← lend (key_store_process self);
      reply ← unwrapM (zoom processes_lens (send_reply ks fuel (Insert (key_entry file_entry) contents)));
      match reply with
      | Id id => mret (if is_directory file_entry then Some (Some id) else None)
      | _ => panic
      end
  end.

#[export] Instance insert_path_handler : PathHandler (option Z) ScanWorld := {|
  read_dir path := zoom os_lens (fs_read_dir path);
  handle_path := insert_path;
|}.

(** [snapshot_dir]'s loop over the components of the path: the last directory's id, the path, and
    whether something on the way was no directory. *)
Record Descent := mkDescent {
  parent : option Z; parent_path : Path; inside_non_dir : bool; bailout : bool }.

Fixpoint descend (names : list bytes) (d : Descent) : M ScanWorld Descent :=
  match names with
  | [] => mret d
  | name :: names =>
      if inside_non_dir d then mret (mkDescent (parent d) (parent_path d) true true)
      else
        let path := push name (parent_path d) in
        new_parent ← insert_path (parent d) path;
        descend names
          match new_parent with
          | Some new_parent => mkDescent new_parent path false false
          | None => mkDescent (parent d) path true false
          end
  end.

Definition commit_reserved (clean : option (option Z)) : M ScanWorld unit :=
  ks ← lift (expect (head (key_store_process self)));
  reply ← unwrapM (zoom processes_lens (send_reply ks fuel (CommitReservedNodes clean)));
  match reply with ReplyOk => mret () | _ => panic end.

Definition snapshot_dir (schedule : list nat) (dir : Path) : M ScanWorld unit :=
  dir ← unwrapM (zoom os_lens (canonicalize dir));
  d ← descend dir (mkDescent None [] false false);
  whole ← (if bailout d then mret false else zoom os_lens (is_dir dir));
  if whole : bool then
    recurse schedule dir (parent d) ;; commit_reserved (Some (parent d))
  else commit_reserved None.

End Scan.
