(* ===== verification/Checkout.v ===== *)
(** * Checking a snapshot out: [Hat::checkout_dir_ref] of hat/mod.rs

    The directory behind a reference is read and written to the file system, with all that is
    below it. *)

From S2P Require Import Prelude Cbor Refs HashTree KeyIndex KeyStore Walker FileSystem Family.
From S2P Require Models.

Section Checkout.
Context {St : Type} `{!HashTreeBackend St} `{Cbor Models.HashRefs} `{Cbor Models.Files}.
Context {Fs : Type} `{!FileSystem Fs}.

(** The body of the loop; [recurse] is the function itself. *)
Definition checkout_entry (fuel : nat) (recurse : Path → tree.HashRef → M (St * Fs) Path)
    (output : Path) (e : key.Entry * Content) : M (St * Fs) Path :=
  let '(entry, href) := e in
  let info := key.info entry in
  lift (assert_ (Models.FileName_is_empty (key.name info) = false)) ;;
  let output := push (Models.FileName_into_vec (key.name info)) output in
  output ← match href with
           | Data hash_ref =>
               zoom snd_lens (create_file output) ;; write_file fuel output hash_ref ;; mret output
           | Dir hash_ref => recurse output hash_ref
           | Link link_path => zoom snd_lens (symlink link_path output) ;; mret output
           end;
  zoom snd_lens (restore_meta info output) ;;
  mret (pop output).

(** [output] grows and shrinks with the recursion; it is returned as it is left. *)
Fixpoint checkout_dir_ref (fuel : nat) (output : Path) (dir_hash : tree.HashRef)
    : M (St * Fs) Path :=
  match fuel with
  | O => diverge
  | S fuel =>
      zoom snd_lens (unwrapM (create_dir_all output)) ;;
      entries ← zoom fst_lens (fetch_dir_data fuel dir_hash);
      fold_each (checkout_entry fuel (checkout_dir_ref fuel)) output entries
  end.

End Checkout.
