(* ===== verification/Recover.v ===== *)
(** * The recovery's visitors: [recover] of hat/family.rs

    They record every node of the trees of a snapshot, with its children, and the hashes of the
    trees' tops; the contents of files are not read. *)

From S2P Require Import Prelude Cbor Refs HashTree Walker Family.
From S2P Require Models.

Record Node := mkNode { href : tree.HashRef; childs : option (list tree.HashRef) }.

Record FileVisitor := mkFileVisitor { file_tops : list bytes; file_nodes : list Node }.

Definition FileVisitor_new : FileVisitor := mkFileVisitor [] [].

(** [mem::replace] *)
Definition take_tops : M FileVisitor (list bytes) :=
  λ v, (Ok (file_tops v), mkFileVisitor [] (file_nodes v)).
Definition take_file_nodes : M FileVisitor (list Node) :=
  λ v, (Ok (file_nodes v), mkFileVisitor (file_tops v) []).

Definition push_file_node (n : Node) (v : FileVisitor) : FileVisitor :=
  mkFileVisitor (file_tops v) (file_nodes v ++ [n]).

(** The contents are not read, so that [leaf_leave] is not called; [branch_leave] is the
    trait's. *)
Definition file_visitor : HashTree.Visitor FileVisitor := {|
  branch_enter href childs v := (true, push_file_node (mkNode href (Some childs)) v);
  branch_leave := branch_leave default_visitor;
  leaf_enter href v := (false, push_file_node (mkNode href None) v);
  leaf_leave _ _ v := (false, v);
|}.

Definition file_likes : LikesFiles FileVisitor := {|
  include_file file v :=
    match hash_ref file with
    | Data h => (true, mkFileVisitor (file_tops v ++ [tree.hash h]) (file_nodes v))
    | _ => (false, v)
    end;
  include_dir file v :=
    match hash_ref file with
    | Dir h => (true, mkFileVisitor (file_tops v ++ [tree.hash h]) (file_nodes v))
    | _ => (false, v)
    end;
|}.

(** [dir_failed]: a visitor cannot panic in the model; a listing that does not parse is recorded
    and the walk's driver panics. *)
Record DirVisitor := mkDirVisitor {
  dir_nodes : list Node;
  dir_files : list FileEntry;
  dir_failed : bool;
}.

Definition DirVisitor_new : DirVisitor := mkDirVisitor [] [] false.

Definition take_dir_nodes : M DirVisitor (list Node) :=
  λ v, (Ok (dir_nodes v), mkDirVisitor [] (dir_files v) (dir_failed v)).

Definition dir_has : HasFiles DirVisitor :=
  mkHasFiles (λ v, (dir_files v, mkDirVisitor (dir_nodes v) [] (dir_failed v))).

Definition push_dir_node (n : Node) (v : DirVisitor) : DirVisitor :=
  mkDirVisitor (dir_nodes v ++ [n]) (dir_files v) (dir_failed v).

Definition fail_dir (v : DirVisitor) : DirVisitor := mkDirVisitor (dir_nodes v) (dir_files v) true.

Section Visitor.
Context `{Cbor Models.Files}.

Definition dir_visitor : HashTree.Visitor DirVisitor := {|
  branch_enter href childs v := (true, push_dir_node (mkNode href (Some childs)) v);
  branch_leave := branch_leave default_visitor;
  leaf_enter href v :=
    let v := push_dir_node (mkNode href None) v in
    match tree.leaf href with
    | Models.TreeList => (true, v)
    | Models.SnapshotList => (false, v)
    | Models.FileChunk => (false, fail_dir v)
    end;
  leaf_leave chunk _ v :=
    match parse_dir_data chunk (dir_files v) with
    | Ok files => (true, mkDirVisitor (dir_nodes v) files (dir_failed v))
    | _ => (true, fail_dir v)
    end;
|}.

End Visitor.
