(* ===== verification/Repo.v ===== *)
(** * The repository: the state of [Hat] and its commands, of hat/mod.rs

    One database, one hash index and one backend are shared by all blob stores: the repository's
    own and two of every open family. A family is an index of keys and three processes that
    work on it, each with its blob store. *)

From S2P Require Import Prelude Utf8 Cbor Refs Ordered Upq Timer Db Crypto HashIndex Backend Blob.
From S2P Require Import BlobStore HashTree HashStore Gc HatGc Hat KeyIndex KeyStore Walker.
From S2P Require Import FileSystem Family Checkout Recover.
From S2P Require Models Snapshot.
Import Ordered.tags.

(** ** The state *)

(** What a blob store has of its own ([StoreInner] but for what is shared). *)
Record Inner `{Sodium} `{LruCache} := mkInner {
  in_desc : BlobDesc;
  in_refs : list Z;
  in_blob : Blob;
  in_cache : lru BlobReader;
}.

Arguments mkInner {_ _} _ _ _ _.

(** An open family: its index of keys and the two blob stores of its own. *)
Record FamilyState `{Sodium} `{LruCache} := mkFamilyState {
  f_index : InternalKeyIndex;
  f_one : Inner;
  f_two : Inner;
}.

Arguments mkFamilyState {_ _} _ _ _.

(** [h_files]: the files of the families' indices of keys, or none when everything is in
    memory. [h_clock] is the clock. *)
Record Hat `{Sodium} `{LruCache} (B : Type) := mkHat {
  h_store : Store Z B;
  h_families : list (bytes * FamilyState);
  h_files : option (gmap bytes key_schema.Tables);
  h_max_size : nat;
  h_clock : Clock;
}.
Arguments mkHat {_ _ B} _ _ _ _ _.
Arguments h_store {_ _ B} _.
Arguments h_families {_ _ B} _.
Arguments h_files {_ _ B} _.
Arguments h_max_size {_ _ B} _.
Arguments h_clock {_ _ B} _.

Section lenses.
Context `{Sodium} `{LruCache} {B : Type}.

Definition store_lens : lens (Hat B) (Store Z B) :=
  Lens h_store (λ s h, mkHat s (h_families h) (h_files h) (h_max_size h) (h_clock h)).
Definition families_lens : lens (Hat B) (list (bytes * FamilyState)) :=
  Lens h_families (λ l h, mkHat (h_store h) l (h_files h) (h_max_size h) (h_clock h)).
Definition clock_lens : lens (Hat B) Clock :=
  Lens h_clock (λ c h, mkHat (h_store h) (h_families h) (h_files h) (h_max_size h) c).

(** The store as a blob store sees it whose own part is [i]. *)
Definition with_inner (i : Inner) (s : Store Z B) : Store Z B :=
  mkStore (hi s) (next_id s) (st_keys s) (BlobStore.backend s) (in_desc i) (in_refs i) (in_blob i)
    (in_cache i) (random s) (spawned s).

Definition inner_of (s : Store Z B) : Inner :=
  mkInner (blob_desc s) (blob_refs s) (blob s) (read_cache s).

(** *** The processes of a family *)

Definition with_index (x : InternalKeyIndex) (f : FamilyState) : FamilyState :=
  mkFamilyState x (f_one f) (f_two f).

Definition process_one : lens (FamilyState * Store Z B) (InternalKeyIndex * Store Z B) :=
  Lens (λ p, (f_index p.1, with_inner (f_one p.1) p.2))
       (λ x p, (mkFamilyState x.1 (inner_of x.2) (f_two p.1), with_inner (inner_of p.2) x.2)).

Definition process_two : lens (FamilyState * Store Z B) (InternalKeyIndex * Store Z B) :=
  Lens (λ p, (f_index p.1, with_inner (f_two p.1) p.2))
       (λ x p, (mkFamilyState x.1 (f_one p.1) (inner_of x.2), with_inner (inner_of p.2) x.2)).

(** The last process has the repository's blob store. *)
Definition main_process : lens (FamilyState * Store Z B) (InternalKeyIndex * Store Z B) :=
  Lens (λ p, (f_index p.1, p.2)) (λ x p, (with_index x.1 p.1, x.2)).

#[global] Instance process_one_laws : LensLaws process_one.
Proof. split; [by intros [x []] [[] []]|by intros [[? [] ?] []]|by intros ?? [[] []]]. Qed.

#[global] Instance process_two_laws : LensLaws process_two.
Proof. split; [by intros [x []] [[] []]|by intros [[? ? []] []]|by intros ?? [[] []]]. Qed.

#[global] Instance main_process_laws : LensLaws main_process.
Proof. split; [by intros [] []|by intros [[] ?]|by intros ?? []]. Qed.

Definition hat_family (name : bytes) : Family (Store Z B) (FamilyState * Store Z B) :=
  mkFamily name main_process [process_one; process_two; main_process].

(** An operation on an open family. *)
Definition on_family {A} (name : bytes) (m : M (FamilyState * Store Z B) A) : M (Hat B) A := λ h,
  match list_find (λ p, p.1 = name) (h_families h) with
  | None => (Panic, h)
  | Some (i, (_, f)) =>
      let '(r, (f, s)) := m (f, h_store h) in
      (r, mkHat s (<[i := (name, f)]> (h_families h)) (h_files h) (h_max_size h) (h_clock h))
  end.

End lenses.

Definition synthetic_roots_family : bytes := lit "__hat__roots__".

Section Repo.
Context `{Sodium} `{LruCache} `{Cbor Models.ChunkRef} `{Cbor Models.HashIds} `{Cbor Models.HashRef}.
Context `{Cbor Models.HashRefs} `{Cbor Models.Files} `{Cbor Models.Snapshots}.
Context {B : Type} `{!StoreBackend (list Z) B} {R : Type} `{!Reader R}.

Abbreviation HatM := (M (Hat B)).
Abbreviation StoreM := (M (Store Z B)).

#[local] Existing Instance store_backend | 5.

(** *** The parts *)

Definition on_store_of {A} (m : StoreM A) : HatM A := zoom store_lens m.

(** [self.snapshot_index] and [self.hash_index] *)
Definition snapshots {A} (m : DB A) : HatM A := on_store_of (on_db m).
Definition hashes {A} (m : HI A) : HatM A := on_store_of (zoom hi_lens m).

(** [self.gc] works on the hash index behind the store. *)
#[export] Instance store_gc_backend : GcBackend (Store Z B) := {|
  get_data h f := zoom hi_lens (get_data h f);
  update_data h f u := zoom hi_lens (update_data h f u);
  update_all_data_by_family f us := zoom hi_lens (update_all_data_by_family f us);
  Gc.set_tag i t := zoom hi_lens (Gc.set_tag i t);
  Gc.get_tag i := zoom hi_lens (Gc.get_tag i);
  Gc.set_all_tags t := zoom hi_lens (Gc.set_all_tags t);
  reverse_refs i := zoom hi_lens (reverse_refs i);
  list_ids_by_tag t := zoom hi_lens (list_ids_by_tag t);
  Gc.manual_commit := zoom hi_lens Gc.manual_commit;
|}.

Definition get_hash_id (hash : bytes) : HatM Z :=
  o ← hashes (get_id hash); lift (expect o).

Definition meta_flush : HatM unit := snapshots Db.flush.
Definition flush_snapshot_index : HatM unit := snapshots Snapshot.flush.
Definition flush_blob_store : HatM unit := on_store_of (BlobStore.flush commit_callback).
Definition list_snapshots : HatM (list SnapshotStatus) := snapshots Snapshot.list_all.

(** *** Opening *)

Definition five_seconds : Z := 5.
Definition ten_seconds : Z := 10.

(** [BlobStore::new] on the shared index of blobs *)
Definition new_blob_store (max_size : nat) : StoreM Inner :=
  k ← gets st_keys;
  nb ← zoom rng_lens (Blob_new k max_size);
  d ← reserve_blob;
  mret (mkInner d [] nb (lru_new 10)).

Definition open_family (name : bytes) : HatM unit :=
  fams ← gets h_families;
  if decide (is_Some (list_find (λ p, p.1 = name) fams)) then mret ()
  else
    files ← gets h_files;
    clk ← gets h_clock;
    let file := default key_schema.empty (files ≫= λ fs, fs !! name) in
    ki ← lift (KeyIndex_new file five_seconds clk);
    size ← gets h_max_size;
    one ← on_store_of (new_blob_store size);
    two ← on_store_of (new_blob_store size);
    zoom families_lens (modify (λ l, l ++ [(name, mkFamilyState ki one two)])).

Definition family_flush (name : bytes) : HatM unit :=
  on_family name (flush_family (R := R) (hat_family name)).

Definition data_flush : HatM unit :=
  fams ← gets h_families;
  for_each (λ f, family_flush f.1) fams ;;
  flush_blob_store ;;
  meta_flush.

(** *** Listing the trees of a snapshot *)

(** [SnapshotLister]'s queue; the end of the vector is the head of the list. *)
Abbreviation Queue := (list (Content * bool)).

Definition is_dir (c : Content) : bool := match c with Dir _ => true | _ => false end.

Definition lister_fetch (fuel : nat) (queue : Queue) (hash_ref : tree.HashRef) : StoreM Queue :=
  res ← fetch_dir_data fuel hash_ref;
  mret (fold_left (λ q e, (e.2, is_dir e.2) :: q) (reverse res) queue).

Definition lister_next (fuel : nat) (queue : Queue) : StoreM (option (Content + error) * Queue) :=
  match queue with
  | (c, true) :: queue =>
      match c with
      | Dir href =>
          r ← attempt (lister_fetch fuel queue href);
          match r with
          | inl queue => mret (Some (inl c), queue)
          | inr e => mret (Some (inr e), (c, false) :: queue)
          end
      | _ => panic
      end
  | (c, false) :: queue => mret (Some (inl c), queue)
  | [] => mret (None, [])
  end.

Definition list_snapshot (dir_hash : tree.HashRef) : Queue := [(Dir dir_hash, true)].

(** [deregister]'s loop over the lister. *)
Fixpoint listed_ids (fuel : nat) (queue : Queue) : StoreM (list Z) :=
  '(next, queue) ← lister_next fuel queue;
  match next with
  | None => mret []
  | Some r =>
      match fuel with
      | O => diverge
      | S fuel =>
          match r with
          | inr _ => panic
          | inl (Link _) => listed_ids fuel queue
          | inl (Data href) | inl (Dir href) =>
              o ← zoom hi_lens (get_id (tree.hash href));
              id ← lift (expect o);
              ids ← listed_ids fuel queue;
              mret (id :: ids)
          end
      end
  end.

(** The closure [listing]. *)
Definition snapshot_ids (fuel : nat) (top_ref : tree.HashRef) : StoreM (list Z) :=
  match tree.leaf top_ref with
  | Models.TreeList => listed_ids fuel (list_snapshot top_ref)
  | Models.SnapshotList =>
      o ← zoom hi_lens (get_id (tree.hash top_ref)); id ← lift (expect o); mret [id]
  | Models.FileChunk => panic
  end.

(** *** Committing *)

Definition commit_finalize (snap_info : SnapshotInfo) (hash : bytes) : HatM unit :=
  snapshots (Snapshot.ready_commit snap_info) ;;
  meta_flush ;;
  hash_id ← get_hash_id hash;
  on_store_of (GcRc.rc_register_cleanup snap_info hash_id) ;;
  meta_flush ;;
  snapshots (Snapshot.commit snap_info) ;;
  meta_flush.

(** The family's part: the closure reserves hashes in the index behind the family's store. *)
Definition commit_family (fuel : nat) (name : bytes) : HatM tree.HashRef :=
  now ← zoom clock_lens Timer.now;
  on_family name (Family.commit (R := R) (hat_family name) fuel now (λ h, zoom snd_lens (reserve_hash h))).

Definition commit (fuel : nat) (family : bytes) (resume_info : option SnapshotInfo) : HatM unit :=
  snap_info ← match resume_info with
              | Some info => mret info
              | None => snapshots (Snapshot.reserve family)
              end;
  meta_flush ;;
  top_ref ← commit_family fuel family;
  snapshots (Snapshot.update snap_info (tree.hash top_ref) top_ref) ;;
  meta_flush ;;
  hash_id ← get_hash_id (tree.hash top_ref);
  on_store_of (GcRc.rc_register_final snap_info hash_id) ;;
  meta_flush ;;
  commit_finalize snap_info (tree.hash top_ref).

Definition commit_by_name (fuel : nat) (family_name : bytes) (resume_info : option SnapshotInfo)
    : HatM unit :=
  open_family family_name ;; commit fuel family_name resume_info.

(** *** Deleting *)

Definition deregister_finalize (family : bytes) (snap_info : SnapshotInfo) (final_ref : Z) : HatM unit :=
  snapshots (Snapshot.ready_delete snap_info) ;;
  flush_snapshot_index ;;
  on_store_of (GcRc.rc_register_cleanup snap_info final_ref) ;;
  family_flush family ;;
  snapshots (Snapshot.delete snap_info) ;;
  flush_snapshot_index ;;
  snapshots Snapshot.flush ;;
  flush_snapshot_index.

Definition deregister_finalize_by_name (family_name : bytes) (snap_info : SnapshotInfo) (hash_id : Z)
    : HatM unit :=
  open_family family_name ;; deregister_finalize family_name snap_info hash_id.

Definition deregister (fuel : nat) (family : bytes) (snapshot_id : Z) : HatM unit :=
  found ← snapshots (Snapshot.lookup family snapshot_id);
  match found with
  | Some (info, top_hash, Some top_ref) =>
      snapshots (Snapshot.will_delete info) ;;
      flush_snapshot_index ;;
      final_ref ← get_hash_id top_hash;
      on_store_of (GcRc.rc_deregister info final_ref (snapshot_ids fuel top_ref)) ;;
      family_flush family ;;
      deregister_finalize family info final_ref
  | _ => throw (Message "No complete snapshot found for family")
  end.

Definition deregister_by_name (fuel : nat) (family_name : bytes) (snapshot_id : Z) : HatM unit :=
  open_family family_name ;; deregister fuel family_name snapshot_id.

Definition delete_all_snapshots (fuel : nat) : HatM unit :=
  all ← snapshots Snapshot.list_all;
  for_each (λ s, deregister_by_name fuel (st_family_name s) (snapshot_id (st_info s))) all.

(** *** The list of all snapshots *)

(** [self.hash_tree_writer(leaf)], the one chunk appended, and [hash(None)] *)
Definition write_tree (leaf : Models.LeafType) (chunk : bytes) : StoreM tree.HashRef := λ s,
  let '(r, (_, s)) := HashTree.write_all [chunk] None (Writer_new leaf 8, s) in (r, s).

Definition snapshot_model (snapshot : SnapshotStatus) : res Models.Snapshot :=
  b ← expect (st_hash_ref snapshot);
  href ← tree.from_bytes b;
  Ok (Models.mkSnapshot (snapshot_id (st_info snapshot)) (tree.to_model href)
        (st_family_name snapshot) (default [] (st_msg snapshot)) (st_created snapshot)).

(** Delete the old ones, but for ten of those there were. *)
Definition roots_to_delete (all_root_ids : list Z) : list Z :=
  drop 10 (reverse (merge_sort Z.le all_root_ids)).

Definition meta_commit (fuel : nat) : HatM unit :=
  all_snapshots ← snapshots Snapshot.list_all;
  models ← mapM' (λ s, lift (snapshot_model s)) all_snapshots;
  let all_root_ids := (λ s, snapshot_id (st_info s)) <$>
    filter (λ s, st_family_name s = synthetic_roots_family) all_snapshots in
  let listing := to_vec (Models.mkSnapshots models) in
  top_ref ← on_store_of (write_tree Models.SnapshotList listing);
  top_id ← get_hash_id (tree.hash top_ref);
  hashes (HashIndex.set_tag top_id Reserved) ;;
  snap_info ← snapshots (Snapshot.reserve synthetic_roots_family);
  snapshots (Snapshot.update snap_info (tree.hash top_ref) top_ref) ;;
  meta_flush ;;
  on_store_of (GcRc.rc_register_final snap_info top_id) ;;
  meta_flush ;;
  commit_finalize snap_info (tree.hash top_ref) ;;
  for_each (deregister_by_name fuel synthetic_roots_family) (roots_to_delete all_root_ids).

(** *** Recovery *)

Definition blob_root (refs : list tree.HashRef) : option tree.HashRef :=
  snd <$> list_find (λ r, tree.leaf r = Models.SnapshotList) refs.

Fixpoint find_root (blobs : list BlobDesc) : StoreM (option tree.HashRef) :=
  match blobs with
  | [] => mret None
  | b :: blobs =>
      refs ← retrieve_refs b;
      match blob_root (default [] refs) with
      | Some r => mret (Some r)
      | None => find_root blobs
      end
  end.

Definition recover_root : HatM (option tree.HashRef) :=
  on_store_of (blobs ← list_blobs_by_tag Done; find_root blobs).

Definition recovered_entry (href : tree.HashRef) (pref : chunk.ChunkRef) (childs : option (list Z))
    : hash.Entry :=
  hash.mkEntry (tree.hash href) (tree.node href) (tree.leaf href) childs (Some pref).

Definition reserve_child (h : tree.HashRef) : HI Z :=
  r ← reserve (recovered_entry h (tree.persistent_ref h) None);
  match r with HashKnown id | ReserveOk id => mret id end.

Definition recover_entry (node : Node) : StoreM unit :=
  let pref := tree.persistent_ref (href node) in
  found ← BlobStore.find (chunk.blob_name pref);
  d ← lift (expect found);
  let pref := chunk.set_blob_id (Some (id d)) pref in
  child_ids ← match Recover.childs node with
              | Some hs => ids ← mapM' (λ h, zoom hi_lens (reserve_child h)) hs; mret (Some ids)
              | None => mret None
              end;
  let entry := recovered_entry (href node) pref child_ids in
  r ← zoom hi_lens (reserve entry);
  match r with
  | HashKnown id =>
      reserved ← zoom hi_lens (reserved_id (hash.hash entry));
      match reserved with
      | None => mret ()
      | Some _ => zoom hi_lens (HashIndex.commit id (Some entry))
      end
  | ReserveOk id => zoom hi_lens (HashIndex.commit id (Some entry))
  end.

Abbreviation RecoverWorld := (World (St := Store Z B) (FV := FileVisitor) (DV := DirVisitor)).

Definition world_store : lens (Walker.Walker * RecoverWorld) (Store Z B) :=
  Lens (λ w, Walker.store w.2) (λ s w, (w.1, mkWorld (file_v w.2) (dir_v w.2) s)).
Definition world_files : lens (Walker.Walker * RecoverWorld) FileVisitor :=
  Lens (λ w, file_v w.2) (λ v w, (w.1, mkWorld v (dir_v w.2) (Walker.store w.2))).
Definition world_dirs : lens (Walker.Walker * RecoverWorld) DirVisitor :=
  Lens (λ w, dir_v w.2) (λ v w, (w.1, mkWorld (file_v w.2) v (Walker.store w.2))).

(** The loop over [walk.resume]; its condition is everything before the walk's answer. *)
Fixpoint recover_walk (fuel : nat) (tops : list bytes)
    : M (Walker.Walker * RecoverWorld) (list bytes) :=
  nodes ← zoom world_files take_file_nodes;
  for_each (λ n, zoom world_store (recover_entry n)) nodes ;;
  new_tops ← zoom world_files take_tops;
  nodes ← zoom world_dirs take_dir_nodes;
  for_each (λ n, zoom world_store (recover_entry n)) nodes ;;
  more ← Walker.resume file_visitor file_likes dir_visitor dir_has fuel;
  failed ← gets (λ w, dir_failed (dir_v w.2));
  if failed : bool then panic
  else if more : bool then
    match fuel with
    | O => diverge
    | S fuel => recover_walk fuel (tops ++ new_tops)
    end
  else mret (tops ++ new_tops).

Definition walk_snapshot (fuel : nat) (final_hash : tree.HashRef) : StoreM (list bytes) := λ s,
  let '(r, (_, w)) := recover_walk fuel []
    (Walker_new final_hash, mkWorld FileVisitor_new DirVisitor_new s) in
  (r, Walker.store w).

Definition recover_snapshot (fuel : nat) (info : SnapshotInfo) (final_hash : tree.HashRef) : HatM unit :=
  tops ← on_store_of (walk_snapshot fuel final_hash);
  hashes (HashIndex.set_all_tags Done) ;;
  for_each (λ hash,
    if decide (hash ≠ tree.hash final_hash) then
      id ← get_hash_id hash; hashes (HashIndex.set_tag id Reserved)
    else mret ()) tops ;;
  flush_blob_store ;;
  final_id ← get_hash_id (tree.hash final_hash);
  on_store_of (GcRc.rc_register_final info final_id) ;;
  commit_finalize info (tree.hash final_hash).

(** *** Resuming *)

(** How far an unfinished commit or recovery has got: its hash, if the collector has counted
    it. *)
Definition done_hash (snapshot : SnapshotStatus) : HatM (option bytes) :=
  match st_hash snapshot with
  | None => mret None
  | Some h =>
      o ← hashes (get_id h);
      match o with
      | None => mret None
      | Some id =>
          status ← on_store_of (GcRc.rc_status id);
          mret (match status with None => None | Some _ => Some h end)
      end
  end.

Definition resume_one (fuel : nat) (snapshot : SnapshotStatus) : HatM unit :=
  let info := st_info snapshot in
  match st_status snapshot with
  | CommitInProgress =>
      done ← done_hash snapshot;
      match done with
      | Some hash => commit_finalize info hash
      | None => commit_by_name fuel (st_family_name snapshot) (Some info)
      end
  | Db.RecoverInProgress =>
      done ← done_hash snapshot;
      match done with
      | Some _ => throw (Message "unexpected state")
      | None =>
          b ← lift (ok_or (st_hash_ref snapshot) (Message "Recovered hash tree has no root hash"));
          hash_ref ← lift (tree.from_bytes b);
          recover_snapshot fuel info hash_ref
      end
  | CommitComplete =>
      match st_hash snapshot with
      | Some h => commit_finalize info h
      | None => throw (Message "Snapshot is fully registered in GC, but has no hash")
      end
  | DeleteInProgress =>
      hash ← lift (expect (st_hash snapshot));
      hash_id ← get_hash_id hash;
      status ← on_store_of (GcRc.rc_status hash_id);
      match status with
      | None | Some GcInProgress =>
          deregister_by_name fuel (st_family_name snapshot) (snapshot_id info)
      | Some GcComplete => deregister_finalize_by_name (st_family_name snapshot) info hash_id
      end
  | Db.DeleteComplete =>
      hash ← lift (expect (st_hash snapshot));
      hash_id ← get_hash_id hash;
      deregister_finalize_by_name (st_family_name snapshot) info hash_id
  end.

Definition resume (fuel : nat) : HatM unit :=
  need_work ← snapshots Snapshot.list_not_done;
  for_each (resume_one fuel) need_work ;;
  need_work ← snapshots Snapshot.list_not_done;
  lift (assert_ (length need_work = 0)).

(** [recover]'s loop over the leaves of the list of snapshots. *)
Definition recover_status (s : Models.Snapshot) : StoreM unit :=
  on_db (Snapshot.recover (Models.snapshot_id s) (Models.family_name s) (Models.created_ts_utc s)
    (Models.msg s) (tree.from_model (Models.hash_ref s)) (Some Db.RecoverInProgress)).

Fixpoint recover_list (fuel : nat) (max_created : Z) : M (WalkState (Store Z B) (list bytes)) Z :=
  o ← leaf_next fuel;
  match o with
  | None => mret max_created
  | Some msg =>
      match fuel with
      | O => diverge
      | S fuel =>
          l ← lift (decode msg);
          let max_created := foldl Z.max max_created (Models.created_ts_utc <$> Models.snapshots l) in
          for_each (λ s, zoom HashTree.backend_lens (recover_status s)) (Models.snapshots l) ;;
          recover_list fuel max_created
      end
  end.

Definition recover (fuel : nat) : HatM unit :=
  on_store_of BlobStore.recover ;;
  root ← recover_root;
  root_href ← lift (expect root);
  max_created ← on_store_of (with_walk (recover_list fuel 0) root_href);
  flush_snapshot_index ;;
  resume fuel ;;
  latest ← snapshots (Snapshot.latest synthetic_roots_family);
  let next_id := match latest with
                 | Some (info, _, href) =>
                     if decide (tree.hash <$> href = Some (tree.hash root_href)) then None
                     else Some (as_u64 (snapshot_id info + 1))
                 | None => Some 1%Z
                 end in
  match next_id with
  | None => mret ()
  | Some next_id =>
      snapshots (Snapshot.recover next_id synthetic_roots_family max_created [] root_href
        (Some Db.RecoverInProgress)) ;;
      flush_snapshot_index ;;
      resume fuel
  end.

(** *** Opening a repository *)

(** The indices on the tables of the database's file; [files] are those of the families, or
    none for [new_for_testing]. *)
Definition new_hat (keys : keys.Keeper) (tables : schema.Tables)
    (files : option (gmap bytes key_schema.Tables)) (b : B) (r : rng) (steady utc : Clock)
    (max_blob_size : nat) : res (Hat B) :=
  x ← InternalIndex_new tables ten_seconds steady utc;
  let '(y, _) := HashIndex_new x in
  y ← y;
  s ← Store_new keys y b r max_blob_size;
  Ok (mkHat s [] files max_blob_size utc).

(** Unfinished commands are resumed. *)
Definition open_repository (fuel : nat) (keys : keys.Keeper) (tables : schema.Tables)
    (files : option (gmap bytes key_schema.Tables)) (b : B) (r : rng) (steady utc : Clock)
    (max_blob_size : nat) : res (Hat B) :=
  h ← new_hat keys tables files b r steady utc max_blob_size;
  let '(q, h) := resume fuel h in
  q ;; Ok h.

(** *** Checking out *)

Definition store_and_disk {Fs} : lens (Hat B * Fs) (Store Z B * Fs) :=
  Lens (λ p, (h_store p.1, p.2)) (λ x p, (lset store_lens x.1 p.1, x.2)).

Definition checkout_in_dir `{!FileSystem Fs} (fuel : nat) (family_name : bytes) (output_dir : Path)
    : M (Hat B * Fs) unit :=
  latest ← zoom fst_lens (snapshots (Snapshot.latest family_name));
  match latest with
  | Some (_, _, Some dir_ref) =>
      zoom fst_lens (unwrapM (open_family family_name)) ;;
      zoom store_and_disk (checkout_dir_ref fuel output_dir dir_ref) ;;
      mret ()
  | _ => panic
  end.

End Repo.
