(* ===== verification/Vfs.v ===== *)
(** * The view of the snapshots as a file system: [Filesystem] of vfs/fs.rs

    The first component of a path is a family, the second a snapshot's number, and the rest leads
    through the snapshot's directories. *)

From stdpp Require Import pretty.
From S2P Require Import Prelude Utf8 Cbor Refs Ordered Db Crypto HashIndex Backend Blob BlobStore.
From S2P Require Import HashTree HashStore KeyIndex KeyStore Walker FileSystem Family Repo.
From S2P Require Models.

(** [Path::components] as strings: the root is a slash; [.] counts at the start only. *)
Definition path_components (path : bytes) : list bytes :=
  if decide (head path = Some slash) then [slash] :: components path
  else
    match split_slash path with
    | first :: _ => if decide (first = [dot]) then [dot] :: components path else components path
    | [] => []
    end.

(** [format!] of an unsigned number. *)
Definition decimal (n : Z) : bytes := lit (pretty (Z.to_N n)).

Section Vfs.
Context `{Sodium} `{LruCache} `{Cbor Models.ChunkRef} `{Cbor Models.HashIds} `{Cbor Models.HashRef}.
Context `{Cbor Models.HashRefs} `{Cbor Models.Files} {B : Type} `{!StoreBackend (list Z) B}.

#[local] Existing Instance store_backend | 5.

Inductive List :=
  | Root (snapshots : list SnapshotStatus)
  | SnapshotsOf (snapshots : list SnapshotStatus)
  | DirList (files : list (key.Entry * Content)).

(** What [Filesystem] has is the repository. *)
Abbreviation HatM := (M (Hat B)).

Definition ls_ref (fuel : nat) (hash_ref : tree.HashRef) : HatM (list (key.Entry * Content)) :=
  on_store_of (fetch_dir_data fuel hash_ref).

(** The loop over the rest of the path; below what is no directory there is nothing. *)
Fixpoint ls_loop (fuel : nat) (href_opt : option tree.HashRef) (listing : list (key.Entry * Content))
    (components : list bytes) : HatM (option List) :=
  match components with
  | [] => mret (Some (DirList listing))
  | name :: components =>
      match href_opt with
      | None => mret None
      | Some _ =>
          let name := Models.FileName_from_os_string name in
          match snd <$> list_find (λ e, key.name (key.info e.1) = name) listing with
          | Some (entry, Data _ as content) | Some (entry, Link _ as content) =>
              ls_loop fuel None [(entry, content)] components
          | Some (_, Dir dir_href) =>
              listing ← ls_ref fuel dir_href;
              ls_loop fuel (Some dir_href) listing components
          | None => mret None
          end
      end
  end.

Definition ls (fuel : nat) (path : bytes) : HatM (option List) :=
  snapshots ← list_snapshots;
  match path_components path with
  | [] => mret (Some (Root snapshots))
  | f :: components =>
      if decide (f = [slash]) then mret (Some (Root snapshots))
      else
        let snapshots := filter (λ s, st_family_name s = from_utf8_lossy f) snapshots in
        match components with
        | [] => mret (Some (SnapshotsOf snapshots))
        | n :: components =>
            let snapshot_opt := snd <$> list_find
              (λ s, decimal (snapshot_id (st_info s)) = from_utf8_lossy n) snapshots in
            match snapshot_opt ≫= st_hash_ref with
            | Some href_bytes =>
                href ← lift (tree.from_bytes href_bytes);
                listing ← ls_ref fuel href;
                ls_loop fuel (Some href) listing components
            | None => mret None
            end
        end
  end.

End Vfs.
