(* ===== verification/Fuse.v ===== *)
(** * The FUSE file system: vfs/fuse.rs

    Inodes are numbered as they are met: the families and their snapshots when the file system is
    made, what is in a directory when it is first asked for. A reply is a value; no reply is
    [None] (the library then answers with an error). *)

From S2P Require Import Prelude Utf8 Cbor Refs Ordered Db Crypto HashIndex Backend Blob BlobStore.
From S2P Require Import HashTree HashStore FileReader KeyIndex KeyStore Walker FileSystem Family Repo Vfs.
From S2P Require Models.

Abbreviation INode := Z.

(** *** What the crate fuse has *)

Inductive Type_ := Directory | RegularFile | Symlink_.

(** The fields that are set; the others are zero. Times are seconds. *)
Record FileAttr := mkFileAttr {
  ino : INode; size : Z; atime : Z; mtime : Z; ctime : Z; kind : Type_; perm : Z }.

(** The buffer of a reply to [readdir]: [reply_add] says whether the buffer is full, and does not
    add the entry then. *)
Class ReplyDirectory (D : Type) := reply_add : INode → Z → Type_ → bytes → M D bool.

(** *** The state *)

Inductive FileType :=
  | Parent
  | ParentTop (hash_ref : tree.HashRef)
  | FileTop (hash_ref : tree.HashRef)
  | SymbolicLink (path : bytes).

Record File := mkFile { f_name : bytes; file_type : FileType; attr : FileAttr; f_parent : option INode }.

(** An open file's reader, but for the repository that it reads from. *)
Definition OpenFile : Type := FileReader (list HashTree.StackItem * list bytes).

Record Fuse `{Sodium} `{LruCache} (B : Type) := mkFuse {
  hat : Hat B;
  inodes : gmap INode File;
  parents : gmap INode (list INode);
  open_files : gmap nat OpenFile;
}.
Arguments mkFuse {_ _ B} _ _ _ _.
Arguments hat {_ _ B} _.
Arguments inodes {_ _ B} _.
Arguments parents {_ _ B} _.
Arguments open_files {_ _ B} _.

Definition default_attr (file_type : Type_) : FileAttr := mkFileAttr 0 0 0 0 0 file_type 493.

Definition set_ino (i : INode) (a : FileAttr) : FileAttr :=
  mkFileAttr i (size a) (atime a) (mtime a) (ctime a) (kind a) (perm a).
Definition set_kind (k : Type_) (n : Z) (a : FileAttr) : FileAttr :=
  mkFileAttr (ino a) n (atime a) (mtime a) (ctime a) k (perm a).
Definition set_perm (p : Z) (a : FileAttr) : FileAttr :=
  mkFileAttr (ino a) (size a) (atime a) (mtime a) (ctime a) (kind a) p.
Definition set_times (at_ mt : Z) (a : FileAttr) : FileAttr :=
  mkFileAttr (ino a) (size a) at_ mt (ctime a) (kind a) (perm a).
Definition set_created (t : Z) (a : FileAttr) : FileAttr :=
  mkFileAttr (ino a) (size a) (atime a) t t (kind a) (perm a).

Section Fuse.
Context `{Sodium} `{LruCache} `{Cbor Models.ChunkRef} `{Cbor Models.HashIds} `{Cbor Models.HashRef}.
Context `{Cbor Models.HashRefs} `{Cbor Models.Files} {B : Type} `{!StoreBackend (list Z) B}.

#[local] Existing Instance store_backend | 5.

Abbreviation FuseM := (M (Fuse B)).

Definition hat_lens : lens (Fuse B) (Hat B) :=
  Lens hat (λ h f, mkFuse h (inodes f) (parents f) (open_files f)).
Definition inodes_lens : lens (Fuse B) (gmap INode File) :=
  Lens inodes (λ m f, mkFuse (hat f) m (parents f) (open_files f)).
Definition parents_lens : lens (Fuse B) (gmap INode (list INode)) :=
  Lens parents (λ m f, mkFuse (hat f) (inodes f) m (open_files f)).
Definition open_files_lens : lens (Fuse B) (gmap nat OpenFile) :=
  Lens open_files (λ m f, mkFuse (hat f) (inodes f) (parents f) m).

Definition add_file (file : File) : FuseM INode :=
  inos ← gets inodes;
  let i := as_u64 (usize_as_u64 (base.size inos) + 1) in
  let file := mkFile (f_name file) (file_type file) (set_ino i (attr file)) (f_parent file) in
  match f_parent file with
  | Some p => zoom parents_lens (modify (λ m, <[p := default [] (m !! p) ++ [i]]> m))
  | None => mret ()
  end ;;
  zoom inodes_lens (modify <[i := file]>) ;;
  mret i.

(** The snapshots by family; the order in which a [HashMap] gives its keys is [order]'s. *)
Definition by_family (l : list SnapshotStatus) : gmap bytes (list SnapshotStatus) :=
  foldl (λ m si, <[st_family_name si := default [] (m !! st_family_name si) ++ [si]]> m) ∅ l.

Definition snapshot_file (family_ino : INode) (s : SnapshotStatus) : option File :=
  match tree.from_bytes <$> st_hash_ref s with
  | Some (Ok hash_ref) =>
      Some (mkFile (decimal (snapshot_id (st_info s))) (ParentTop hash_ref)
        (set_created (st_created s) (default_attr Directory)) (Some family_ino))
  | _ => None
  end.

Definition populate_from_snapshot_list (order : list bytes → list bytes) : FuseM unit :=
  root_ino ← add_file (mkFile (lit "root") Parent (default_attr Directory) None);
  l ← zoom hat_lens list_snapshots;
  let snapshots := by_family l in
  for_each (λ family_name,
    if decide (family_name = lit "__hat__roots__") then mret ()
    else
      family_ino ← add_file (mkFile family_name Parent (default_attr Directory) (Some root_ino));
      for_each (λ s, match snapshot_file family_ino s with
                     | Some f => add_file f ;; mret ()
                     | None => mret ()
                     end) (default [] (snapshots !! family_name)))
    (order (elements (dom snapshots))).

Definition new (order : list bytes → list bytes) (h : Hat B) : res (Fuse B) :=
  let '(r, f) := populate_from_snapshot_list order (mkFuse h ∅ ∅ ∅) in r ;; Ok f.

(** The file of an entry of a directory. *)
Definition entry_file (parent : INode) (e : key.Entry * Content) : File :=
  let info := key.info e.1 in
  let '(file_type, k, n) := match e.2 with
    | Data hash_ref => (FileTop hash_ref, RegularFile, default 0%Z (key.byte_length info))
    | Dir hash_ref => (ParentTop hash_ref, Directory, 0%Z)
    | Link link_path => (SymbolicLink link_path, Symlink_, 0%Z)
    end in
  let a := set_kind k n (default_attr Directory) in
  let a := match key.permissions info with Some p => set_perm (as_u16 p) a | None => a end in
  let a := match key.modified_ts_secs info, key.accessed_ts_secs info with
    | Some m, Some t => set_times (as_i64 t) (as_i64 m) a
    | _, _ => a
    end in
  mkFile (Models.FileName_into_os_string (key.name info)) file_type a (Some parent).

Definition fetch_dir (fuel : nat) (parent : INode) (hash_ref : tree.HashRef) : FuseM unit :=
  entries ← zoom hat_lens (on_store_of (fetch_dir_data fuel hash_ref));
  for_each (λ e, add_file (entry_file parent e) ;; mret ()) entries.

Definition childs (fuel : nat) (parent : INode) : FuseM (list INode) :=
  fs ← gets inodes;
  ps ← gets parents;
  match file_type <$> fs !! parent with
  | Some (ParentTop hash_ref) =>
      if decide (is_Some (ps !! parent)) then mret () else unwrapM (fetch_dir fuel parent hash_ref)
  | _ => mret ()
  end ;;
  gets (λ f, default [] (parents f !! parent)).

(** *** The operations *)

(** The loop over the children. *)
Fixpoint find_child (name : bytes) (l : list INode) : FuseM (option FileAttr) :=
  match l with
  | [] => mret None
  | child_ino :: l =>
      o ← gets (λ f, inodes f !! child_ino);
      child ← lift (expect o);
      if decide (f_name child = name) then mret (Some (attr child)) else find_child name l
  end.

Definition lookup (fuel : nat) (parent : INode) (name : bytes) : FuseM (option FileAttr) :=
  l ← childs fuel parent; find_child name l.

Definition getattr (i : INode) : FuseM (option FileAttr) := gets (λ f, attr <$> inodes f !! i).

Definition readlink (i : INode) : FuseM (option bytes) :=
  gets (λ f, match file_type <$> inodes f !! i with Some (SymbolicLink path) => Some path | _ => None end).

(** A reader holds the repository; here it is given to it for each read. *)
Definition map_rest {I J} (g : I → J) (r : FileReader I) : FileReader J :=
  mkFileReader (g <$> rest r) (offset r) (buf r) (eof r).

Definition attach {St} (s : St) : OpenFile → FileReader (WalkState St (list bytes)) :=
  map_rest (λ p, mkWalk p.1 p.2 s).
Definition detach {St} : FileReader (WalkState St (list bytes)) → OpenFile :=
  map_rest (λ w, (stack w, visitor w)).

Definition read_open (fuel : nat) (off : Z) (n : nat) : M (OpenFile * Store Z B) (option bytes) :=
  λ '(f, s),
    let '(r, f) := FileReader.read fuel off n (attach s f) in
    (r, (detach f, match rest f with Some w => HashTree.backend w | None => s end)).

Definition open (i : INode) : FuseM (option nat) :=
  f ← get;
  match file_type <$> inodes f !! i with
  | Some (FileTop hash_ref) =>
      let fh := base.size (open_files f) + 1 in
      zoom open_files_lens (modify <[fh := detach (FileReader_new (h_store (hat f)) hash_ref)]>) ;;
      mret (Some fh)
  | _ => mret None
  end.

Definition read (fuel : nat) (fh : nat) (offset : Z) (n : nat) : FuseM (option bytes) := λ f,
  match open_files f !! fh with
  | None => (Ok None, f)
  | Some file =>
      let '(r, (file, s)) := read_open fuel (as_u64 offset) n (file, h_store (hat f)) in
      let f := lset hat_lens (lset store_lens s (hat f)) (lset open_files_lens (<[fh := file]> (open_files f)) f) in
      (match r with Ok o => Ok (Some (default [] o)) | Err e => Err e | Panic => Panic | Diverge => Diverge end, f)
  end.

Definition release (fh : nat) : FuseM unit := zoom open_files_lens (modify (base.delete fh)).

Definition opendir : FuseM Z := mret 0%Z.
Definition releasedir : FuseM unit := mret ().

Definition type_of (t : FileType) : Type_ :=
  match t with
  | Parent | ParentTop _ => Directory
  | SymbolicLink _ => Symlink_
  | FileTop _ => RegularFile
  end.

(** The entries of a directory: itself, its parent, its children. *)
Definition dir_entries (fuel : nat) (i : INode) : FuseM (list (INode * Type_ * bytes)) :=
  o ← gets (λ f, inodes f !! i);
  file ← lift (expect o);
  let dots := (i, Directory, lit ".") ::
    match f_parent file with Some p => [(p, Directory, lit "..")] | None => [] end in
  match file_type file with
  | Parent | ParentTop _ =>
      l ← childs fuel i;
      fs ← gets inodes;
      mret (dots ++ omap (λ f_ino, (λ f, (f_ino, type_of (file_type f), f_name f)) <$> fs !! f_ino) l)
  | FileTop _ | SymbolicLink _ => mret dots
  end.

(** The reply's [add] is called for every entry, whatever it returns. *)
Definition readdir {D} `{!ReplyDirectory D} (fuel : nat) (i : INode) (offset : Z) : M (Fuse B * D) unit :=
  files ← zoom fst_lens (dir_entries fuel i);
  for_each (λ '(k, (i, t, name)),
    zoom snd_lens (reply_add i (as_i64 (usize_as_u64 k) + 1) t name) ;; mret ())
    (drop (u64_as_usize (as_u64 offset)) (imap (λ k f, (k, f)) files)).

End Fuse.
