(* ===== verification/Cli.v ===== *)
(** * The commands: main.rs

    Each command is a process of its own: it opens the repository, which resumes what was
    unfinished, does its work and ends. What is left then is what the database and the families'
    files had committed, and the backend. A panic ends the process early. *)

From S2P Require Import Prelude Utf8 Cbor Refs Ordered Upq Timer Db Crypto HashIndex Backend Blob.
From S2P Require Import BlobStore HashTree HashStore Gc HatGc Hat KeyIndex KeyStore FileSystem ListDir.
From S2P Require Import Walker Family Scan Checkout Recover Repo Vfs.
From S2P Require Models.

(** *** Arguments *)

(** [str::parse::<u64>] *)
Definition digit (c : byte) : option Z :=
  let d := (byte_to_Z c - 48)%Z in if decide (0 ≤ d < 10)%Z then Some d else None.

Fixpoint parse_digits (acc : Z) (l : bytes) : option Z :=
  match l with
  | [] => Some acc
  | c :: l =>
      d ← digit c;
      let acc := (10 * acc + d)%Z in
      if decide (acc < 2 ^ 64)%Z then parse_digits acc l else None
  end.

Definition parse_u64 (l : bytes) : option Z :=
  let l := match l with c :: l' => if decide (c = Byte.x2b) then l' else l | [] => [] end in
  if decide (l = []) then None else parse_digits 0 l.

(** A flag, or else a variable of the environment. *)
Definition flag_or_env (flag env : option bytes) : res bytes :=
  expect (match flag with Some f => Some f | None => env end).

(** [PathBuf::join] *)
Definition join (p name : bytes) : bytes :=
  if decide (head name = Some slash) then name
  else if decide (p = [] ∨ last p = Some slash) then p ++ name
  else p ++ slash :: name.

(** A [BTreeSet] of strings, in order. *)
Fixpoint bytes_leb (a b : bytes) : bool :=
  match a, b with
  | [], _ => true
  | _ :: _, [] => false
  | x :: a, y :: b =>
      bool_decide (byte_to_Z x < byte_to_Z y)%Z ||
      (bool_decide (x = y) && bytes_leb a b)
  end.

Definition bytes_le (a b : bytes) : Prop := bytes_leb a b = true.
#[global] Instance bytes_le_dec : RelDecision bytes_le.
Proof. intros a b. unfold bytes_le. apply _. Defined.

Definition in_order (l : list bytes) : list bytes := merge_sort bytes_le (remove_dups l).

Inductive Command :=
  | Resume
  | Commit (name : bytes) (path : Path)
  | Checkout (name : bytes) (path : Path)
  | RecoverAll
  | Delete (name id : bytes)
  | CollectGarbage
  | Ls (path : bytes).

Section Cli.
Context `{Sodium} `{LruCache} `{Cbor Models.ChunkRef} `{Cbor Models.HashIds} `{Cbor Models.HashRef}.
Context `{Cbor Models.HashRefs} `{Cbor Models.Files} `{Cbor Models.Snapshots}.
Context {B : Type} `{!StoreBackend (list Z) B} {R : Type} `{!Reader R}.
Context {Os : Type} `{!ScanOs Os R} `{!FileSystem Os}.

#[local] Existing Instance store_backend | 5.

(** 4 MB *)
Definition MAX_BLOB_SIZE : nat := Z.to_nat (4 * 1024 * 1024).

(** A command works on the repository and the operating system. *)
Abbreviation CommandM := (M (Hat B * Os)).

Definition on_hat {A} (m : M (Hat B) A) : CommandM A := unwrapM (zoom fst_lens m).

(** The family's scan, with the schedule of its threads. *)
Definition scan_family (name : bytes) (m : M (ScanWorld (Ps := FamilyState * Store Z B)) unit)
    (lent : nat → nat) : CommandM unit := λ '(h, o),
  match list_find (λ p, p.1 = name) (h_families h) with
  | None => (Panic, (h, o))
  | Some (i, (_, f)) =>
      let '(r, w) := m (mkScanWorld o (f, h_store h) lent 0) in
      (r, (mkHat (processes w).2 (<[i := (name, (processes w).1)]> (h_families h)) (h_files h)
             (h_max_size h) (h_clock h), os w))
  end.

Definition commit_command (fuel : nat) (schedule : list nat) (lent : nat → nat) (name : bytes)
    (path : Path) : CommandM unit :=
  on_hat (open_family name) ;;
  scan_family name (snapshot_dir (R := R) (hat_family name) fuel schedule path) lent ;;
  on_hat (Repo.commit (R := R) fuel name None) ;;
  on_hat (meta_commit (R := R) fuel) ;;
  on_hat (data_flush (R := R)).

(** What is printed. *)
Definition ls_lines (path : bytes) (l : List) : list bytes :=
  match l with
  | Root snapshots => in_order (st_family_name <$> snapshots)
  | SnapshotsOf snapshots =>
      (λ si, join (st_family_name si) (decimal (snapshot_id (st_info si)))) <$> snapshots
  | DirList files =>
      (λ e, from_utf8_lossy (join path (Models.FileName_into_os_string (key.name (key.info e.1))))) <$> files
  end.

Definition ls_command (fuel : nat) (path : bytes) : CommandM (list bytes) :=
  found ← on_hat (ls fuel path);
  mret (match found with Some l => ls_lines path l | None => [] end).

Definition run_command (fuel : nat) (schedule : list nat) (lent : nat → nat) (cmd : Command)
    : CommandM (list bytes) :=
  match cmd with
  | Resume => mret []
  | Commit name path => commit_command fuel schedule lent name path ;; mret []
  | Checkout name path => unwrapM (checkout_in_dir fuel name path) ;; mret []
  | RecoverAll => on_hat (recover (R := R) fuel) ;; mret []
  | Delete name id =>
      id ← lift (expect (parse_u64 id));
      on_hat (deregister_by_name (R := R) fuel name id) ;; mret []
  | CollectGarbage =>
      '(deleted_hashes, live_blobs) ← on_hat (on_store_of gc);
      mret [lit "Deleted hashes: " ++ decimal (Z.of_nat deleted_hashes);
            lit "Live data blobs after deletion: " ++ decimal (Z.of_nat live_blobs)]
  | Ls path => ls_command fuel path
  end.

(** *** Processes *)

(** What outlives a process: the key, the databases as they were committed, the backend. *)
Record StateDir := mkStateDir {
  key_file : option bytes;
  hash_index_file : schema.Tables;
  family_files : gmap bytes key_schema.Tables;
  remote : B;
}.

(** The files of the families that were opened are as they were committed last. *)
Definition closed_families (h : Hat B) (files : gmap bytes key_schema.Tables) : gmap bytes key_schema.Tables :=
  foldl (λ fs f, <[f.1 := KeyIndex.committed (f_index f.2)]> fs) files (h_families h).

Definition process_end (h : Hat B) (d : StateDir) : StateDir :=
  mkStateDir (key_file d) (Db.crash (index (hi (h_store h)))) (closed_families h (family_files d))
    (BlobStore.backend (h_store h)).

(** [init] *)
Definition init (r : rng) (d : option StateDir) (b : B) : res StateDir :=
  match d with
  | Some _ => Err (Message "directory already exists")
  | None =>
      let '(q, (k, _)) := keys.write_new_universal_key (None, r) in
      q ;; Ok (mkStateDir k schema.empty ∅ b)
  end.

(** The whole process. *)
Definition hat_process (fuel : nat) (schedule : list nat) (lent : nat → nat) (r : rng)
    (steady utc : Clock) (cmd : Command) : M (StateDir * Os) (list bytes) := λ '(d, o),
  match (k ← keys.load_from_universal_key (key_file d);
         new_hat k (hash_index_file d) (Some (family_files d)) (remote d) r steady utc MAX_BLOB_SIZE) with
  | Ok h =>
      let '(out, (h, o)) :=
        (on_hat (resume (R := R) fuel) ;; run_command fuel schedule lent cmd) (h, o) in
      (out, (process_end h d, o))
  | Err _ | Panic => (Panic, (d, o))
  | Diverge => (Diverge, (d, o))
  end.

End Cli.
