(* ===== verification/FamilyOk.v ===== *)
(** * Directories in hash trees

    A directory with all that is below it as a value ([FileTree]), what it means that a
    reference stands for one ([stored_dir]) and that the index of keys lists one
    ([indexed_dir]). Committing what is listed gives a reference to it, and fetching a reference
    gives the entries. *)

From S2P Require Import Prelude Utf8 Cbor Refs HashTree KeyIndex KeyStore KeyStoreOk Walker.
From S2P Require Import FileSystem Family.
From S2P Require Models.

(** ** Directories as values *)

Inductive FileTree :=
  | TFile (c : bytes)
  | TLink (path : bytes)
  | TDir (l : list (key.Info * FileTree)).

Abbreviation dir := (list (key.Info * FileTree)).

(** ** Fetching *)

Section Fetch.
Context {St : Type} `{HashTreeBackendLaws St}.
Context `{CborLaws Models.HashRefs} `{CborLaws Models.Files}.
Implicit Types (s : St).

(** A chunk of a listing adds the entries [fes]. *)
Definition parses (chunk : bytes) (fes : list FileEntry) : Prop :=
  ∀ out, parse_dir_data chunk out = Ok (out ++ fes).

Lemma parses_nil : parses [] [].
Proof. intros out. by rewrite app_nil_r. Qed.

Lemma fetch_chunks_run lf chunks fess stk s out :
  readable s → pending s lf stk chunks → Forall2 parses chunks fess →
  ∃ N s', readable s' ∧ later s s' ∧ ∀ fuel, N ≤ fuel →
    fetch_chunks fuel out (mkWalk stk [] s) = (Ok (out ++ concat fess), mkWalk [] [] s').
Proof.
  intros Hs Hp Hf. revert stk s out Hs Hp.
  induction Hf as [|chunk fes chunks fess Hc Hf IH]; intros stk s out Hs Hp.
  - destruct (leaf_next_none lf stk s Hs Hp) as (N & s' & Hs' & Hl & Hrun).
    exists N, s'. split_and!; [done..|]. intros fuel Hfuel. specialize (Hrun fuel Hfuel).
    rewrite app_nil_r. destruct fuel; cbn [fetch_chunks]; by run_with Hrun.
  - destruct (leaf_next_some lf stk chunk chunks s Hs Hp) as (N & s1 & stk1 & Hs1 & Hl1 & Hp1 & Hrun).
    destruct (IH stk1 s1 (out ++ fes) Hs1 Hp1) as (N2 & s2 & Hs2 & Hl2 & Hrun2).
    exists (S (N + N2)), s2. split_and!; [done|by etrans|]. intros [|fuel] Hfuel; [lia|].
    cbn [fetch_chunks]. run_with (Hrun (S fuel) ltac:(lia)).
    assert ((if decide (chunk = []) then Ok out else parse_dir_data chunk out) = Ok (out ++ fes))
      as Hparse.
    { rewrite <- (Hc out). unfold parse_dir_data. by case_decide. }
    run_lift Hparse. rewrite (Hrun2 fuel ltac:(lia)). by rewrite <- app_assoc.
Qed.

Lemma fetch_dir_run lf chunks fess h s :
  readable s → denotes s lf h chunks → Forall2 parses chunks fess →
  ∃ N s', readable s' ∧ later s s' ∧ ∀ fuel, N ≤ fuel →
    fetch_dir_data fuel h s = (Ok ((λ f, (meta f, hash_ref f)) <$> concat fess), s').
Proof.
  intros Hs Hd Hf.
  destruct (fetch_chunks_run lf chunks fess _ s [] Hs (denotes_pending _ _ _ _ Hd) Hf)
    as (N & s' & Hs' & Hl & Hrun).
  exists N, s'. split_and!; [done..|]. intros fuel Hfuel. unfold fetch_dir_data.
  assert (with_walk (fetch_chunks fuel []) h s = (Ok (concat fess), s')) as Hw.
  { unfold with_walk, LeafIterator_new. by rewrite Hrun. }
  by run_with Hw.
Qed.

(** *** References to directories *)

(** The entry stands for an information and what is under it; [rec] says what it is for a
    reference to stand for a directory. *)
Definition stored_as (rec : tree.HashRef → dir → Prop) s (fe : FileEntry)
    (it : key.Info * FileTree) : Prop :=
  key.info (meta fe) = key.Info_norm it.1 ∧
  match it.2, hash_ref fe with
  | TFile c, Data h => ∃ ls, denotes s Models.FileChunk h ls ∧ concat ls = c
  | TLink p, Link p' => p' = p
  | TDir l, Dir h => rec h l
  | _, _ => False
  end.

(** The reference [h] stands for the directory [l], to a depth of [n]. *)
Fixpoint stored_dir (n : nat) s (h : tree.HashRef) (l : dir) : Prop :=
  match n with
  | O => False
  | S n => ∃ chunks fess, denotes s Models.TreeList h chunks ∧ Forall2 parses chunks fess ∧
      Forall2 (stored_as (stored_dir n s) s) (concat fess) l
  end.

Abbreviation stored_entry n s := (stored_as (stored_dir n s) s).

Lemma stored_as_mono (rec rec' : tree.HashRef → dir → Prop) s s' fe it :
  later s s' → (∀ h l, rec h l → rec' h l) → stored_as rec s fe it → stored_as rec' s' fe it.
Proof.
  intros Hl Hr [Hi Ht]. split; [done|]. destruct it.2, (hash_ref fe); try done.
  - destruct Ht as (ls & Hls & Hc). exists ls. split; [by eapply denotes_later|done].
  - by apply Hr.
Qed.

Lemma stored_dir_later n s s' h l : later s s' → stored_dir n s h l → stored_dir n s' h l.
Proof.
  intros Hl. revert h l. induction n as [|n IH]; intros h l; [done|].
  intros (chunks & fess & Hd & Hp & Hf). exists chunks, fess.
  split_and!; [by eapply denotes_later|done|]. eapply Forall2_impl; [exact Hf|].
  intros fe it. by apply stored_as_mono.
Qed.

Lemma stored_dir_norm n s h l : stored_dir n s h l → stored_dir n s (tree.norm h) l.
Proof.
  destruct n as [|n]; [done|]. intros (chunks & fess & Hd & Hpf). exists chunks, fess.
  split; [by apply denotes_norm|done].
Qed.

Lemma stored_entry_later n s s' fe it : later s s' → stored_entry n s fe it → stored_entry n s' fe it.
Proof. intros Hl. apply stored_as_mono; [done|]. intros h l. by apply stored_dir_later. Qed.

End Fetch.

(** ** Committing *)

Section Commit.
Context {St R Ps : Type} `{KeyBackendLaws St} `{!Reader R}.
Context `{CborLaws Models.HashRefs} `{CborLaws Models.HashRef} `{CborLaws Models.Files}.
Implicit Types (s : St) (x : InternalKeyIndex).

Abbreviation stored_entry n s := (stored_as (stored_dir n s) s).

(** The row's entry stands for an information and what is under it. *)
Definition indexed_as (rec : option Z → dir → Prop) s (e : key.Entry * option tree.HashRef)
    (it : key.Info * FileTree) : Prop :=
  key.info e.1 = it.1 ∧ key.Info_wf it.1 ∧ Models.FileName_is_empty (key.name it.1) = false ∧
  match it.2 with
  | TFile c => key.data e.1 = key.FilePlaceholder ∧
      ∃ h ls, e.2 = Some h ∧ denotes s Models.FileChunk h ls ∧ concat ls = c
  | TLink p => key.data e.1 = key.Symlink p ∧ from_utf8 p = Some p
  | TDir l => key.data e.1 = key.DirPlaceholder ∧ rec (key.node_id e.1) l
  end.

(** The index of keys lists in [q] the directory [l], to a depth of [n], with contents that can
    be read of [s]. *)
Fixpoint indexed_dir (n : nat) x s (q : option Z) (l : dir) : Prop :=
  match n with
  | O => False
  | S n => ∃ es, list_dir q x = (Ok es, x) ∧ Forall2 (indexed_as (indexed_dir n x s) s) es l
  end.

Abbreviation indexed_entry n x s := (indexed_as (indexed_dir n x s) s).

Lemma indexed_as_mono (rec rec' : option Z → dir → Prop) s s' e it :
  later s s' → (∀ q l, rec q l → rec' q l) → indexed_as rec s e it → indexed_as rec' s' e it.
Proof.
  intros Hl Hr (Hi & Hw & Hne & Ht). split_and!; [done..|]. destruct it.2; [|done|].
  - destruct Ht as (Hd & h & ls & Hh & Hls & Hc). split; [done|]. exists h, ls.
    split_and!; [done|by eapply denotes_later|done].
  - destruct Ht as [Hd Ht]. split; [done|by apply Hr].
Qed.

Lemma indexed_dir_later n x s s' q l : later s s' → indexed_dir n x s q l → indexed_dir n x s' q l.
Proof.
  intros Hl. revert q l. induction n as [|n IH]; intros q l; [done|].
  intros (es & Hes & Hf). exists es. split; [done|]. eapply Forall2_impl; [exact Hf|].
  intros e it. by apply indexed_as_mono.
Qed.

Lemma indexed_entry_later n x s s' e it : later s s' → indexed_entry n x s e it → indexed_entry n x s' e it.
Proof. intros Hl. apply indexed_as_mono; [done|]. intros q l. by apply indexed_dir_later. Qed.

Lemma indexed_no_hash rec s e it hash : indexed_as rec s e it → key.data e.1 ≠ key.FileHash hash.
Proof. intros (_ & _ & _ & Ht). destruct it.2; destruct Ht as [-> _]; done. Qed.

Context (self : Family St Ps) (ks : lens Ps (InternalKeyIndex * St)) `{!LensLaws ks}.

(** What the operations of a commit leave alone and keep. *)
Record kept (ps ps' : Ps) : Prop := {
  kp_index : (lget ks ps').1 = (lget ks ps).1;
  kp_later : later (lget ks ps).2 (lget ks ps').2;
}.

#[local] Instance kept_preorder : PreOrder kept.
Proof.
  split; [by intros ps|]. intros p1 p2 p3 [H1i H1l] [H2i H2l].
  split; [congruence|by etrans].
Qed.

Definition ready (ps : Ps) : Prop := backend_ok (lget ks ps).2.

Hypothesis Hlast : last (key_store_process self) = Some ks.
Hypothesis Hown : key_store self = ks.
Context (top : bytes → M Ps unit).
Hypothesis top_ok : ∀ h ps, ready ps → wp (top h) ps (λ _ ps', ready ps' ∧ kept ps ps').

Lemma list_from_run ps q es :
  list_dir q (lget ks ps).1 = (Ok es, (lget ks ps).1) →
  (∀ e, e ∈ es → ∀ hash, key.data e.1 ≠ key.FileHash hash) →
  list_from_key_store (R := R) self q ps = (Ok ((λ e, (e.1, e.2, e.2)) <$> es), ps).
Proof using Hlast LensLaws0.
  intros Hl He. unfold list_from_key_store, last_process, send_reply.
  assert (expect (last (key_store_process self)) = Ok ks) as E by (by rewrite Hlast).
  run_lift E. pose proof (list_dir_run (R := R) _ q es Hl He 0) as Hrun.
  run_with (zoom_Ok ks _ _ _ _ Hrun). by rewrite lset_lget.
Qed.

Lemma on_tree_wp {A} w (m : M (SimpleHashTreeWriter * St) A) ps Q :
  wp m (w, (lget ks ps).2) (λ a '(w', s'), Q (a, w') (lset ks ((lget ks ps).1, s') ps)) →
  wp (on_tree self w m) ps Q.
Proof using Hown.
  intros Hm. unfold on_tree. rewrite Hown. apply wp_zoom, with_writer_wp.
  eapply wp_mono; [exact Hm|]. intros a [w' s'] Hq. by destruct (lget ks ps).
Qed.

Lemma tree_step ps s' :
  backend_ok s' → later (lget ks ps).2 s' →
  ready (lset ks ((lget ks ps).1, s') ps) ∧ kept ps (lset ks ((lget ks ps).1, s') ps).
Proof using LensLaws0. intros Hs Hl. unfold ready. split; [|split]; by rewrite lget_lset. Qed.

(** The file of an entry parses to an entry that stands for the same. *)
Definition file_of n s (f : Models.File) (it : key.Info * FileTree) : Prop :=
  Models.FileName_is_empty (Models.name (Models.info f)) = false ∧
  ∃ fe, file_entry f = Ok fe ∧ stored_entry n s fe it.

Lemma file_of_later n s s' f it : later s s' → file_of n s f it → file_of n s' f it.
Proof.
  intros Hl (Hne & fe & Hfe & Hst). split; [done|]. exists fe. split; [done|].
  by eapply stored_entry_later.
Qed.

(** A tree's writer that has a part of the directory so far. *)
Definition tree_has n s (w : SimpleHashTreeWriter) (l : dir) : Prop :=
  leaf_type w = Models.TreeList ∧ ∃ chunks fess, Writer_ok w s chunks ∧
    Forall2 parses chunks fess ∧ Forall2 (stored_entry n s) (concat fess) l.

Lemma tree_has_new n s : backend_ok s → tree_has n s (hash_tree_writer Models.TreeList) [].
Proof.
  intros Hs. split; [done|]. exists [], []. split_and!; [|done..].
  apply Writer_new_ok; [lia|done].
Qed.

(** Finishing a tree. *)
Lemma tree_hash_wp n info w s l :
  tree_has n s w l →
  wp (HashTree.hash info) (w, s) (λ h '(_, s'),
    backend_ok s' ∧ later s s' ∧ tree.HashRef_wf h ∧ stored_dir (S n) s' h l).
Proof.
  intros (Hlf & chunks & fess & Hw & Hp & Hf). eapply wp_mono; [by apply hash_wp|].
  intros h [w' s'] (Hs' & Hl & Hd). rewrite Hlf in Hd.
  split_and!; [done..|by eapply denotes_wf|].
  exists (stream chunks). unfold stream in *. case_decide as Hc.
  - subst chunks. apply Forall2_nil_inv_l in Hp as ->. exists [[]].
    split_and!; [done|repeat constructor; apply parses_nil|]. simpl in *.
    by apply Forall2_nil_inv_l in Hf as ->.
  - exists fess. split_and!; [done..|]. eapply Forall2_impl; [exact Hf|].
    intros fe it. by apply stored_entry_later.
Qed.

Lemma push_files_run fs fes out :
  Forall2 (λ f fe, Models.FileName_is_empty (Models.name (Models.info f)) = false ∧
    file_entry f = Ok fe) fs fes →
  push_files fs out = Ok (out ++ fes).
Proof.
  intros Hf. revert out. induction Hf as [|f fe fs fes [Hne Hfe] _ IH]; intros out; cbn [push_files].
  { by rewrite app_nil_r. }
  rewrite Hne, Hfe. cbn [mbind res_bind]. rewrite IH. by rewrite <- app_assoc.
Qed.

Lemma files_entries n s fs its :
  Forall2 (file_of n s) fs its →
  ∃ fes, Forall2 (λ f fe, Models.FileName_is_empty (Models.name (Models.info f)) = false ∧
    file_entry f = Ok fe) fs fes ∧ Forall2 (stored_entry n s) fes its.
Proof.
  induction 1 as [|f it fs its (Hne & fe & Hfe & Hst) _ (fes & IH1 & IH2)]; [by exists []|].
  exists (fe :: fes). split; by constructor.
Qed.

(** The entries' files, appended to a tree. *)
Lemma append_files_wp n w s l fs its :
  tree_has n s w l → Forall2 (file_of n s) fs its →
  wp (append (to_vec (Models.mkFiles fs))) (w, s) (λ _ '(w', s'),
    backend_ok s' ∧ later s s' ∧ tree_has n s' w' (l ++ its)).
Proof.
  intros (Hlf & chunks & fess & Hw & Hp & Hf) Hfs. eapply wp_mono; [by apply append_wp|].
  intros _ [w' s'] (Hw' & _ & Hlf' & Hl). split_and!; [apply Hw'|done|]. split; [congruence|].
  destruct (files_entries _ _ _ _ Hfs) as (fes & Hfe & Hst).
  exists (chunks ++ [to_vec (Models.mkFiles fs)]), (fess ++ [fes]). split_and!; [done| |].
  - apply Forall2_app; [done|]. constructor; [|done]. intros out. unfold parse_dir_data.
    rewrite decide_False by apply to_vec_nonempty. rewrite decode_to_vec. cbn [mbind res_bind].
    by apply push_files_run.
  - rewrite concat_app. apply Forall2_app; [|simpl; rewrite app_nil_r].
    all: eapply Forall2_impl; [eassumption|]; intros fe it; by apply stored_entry_later.
Qed.

(** One entry; a directory's listing is written by [recurse]. *)
Lemma commit_entry_wp n recurse e it ps :
  (∀ m q l ps, n = S m → ready ps → indexed_dir n (lget ks ps).1 (lget ks ps).2 q l →
    wp (recurse q) ps (λ w ps', ready ps' ∧ kept ps ps' ∧ tree_has m (lget ks ps').2 w l)) →
  ready ps → indexed_entry n (lget ks ps).1 (lget ks ps).2 e it →
  wp (commit_entry self recurse top (e.1, e.2, e.2)) ps
    (λ f ps', ready ps' ∧ kept ps ps' ∧ file_of n (lget ks ps').2 f it).
Proof using All.
  intros Hrec Hps (Hi & Hw & Hne & Ht). destruct e as [e h], it as [i t]. cbn [fst snd] in *.
  subst i. unfold commit_entry. apply wp_bind. destruct t as [c|p|l].
  - destruct Ht as (-> & href & ls & -> & Hd & Hc). cbn [expect].
    apply wp_bind. eapply wp_Ok; [done|]. apply wp_bind. eapply wp_mono; [by apply top_ok|].
    intros _ ps1 [Hps1 Hk1]. eapply wp_Ok; [done|]. eapply wp_Ok; [done|].
    split_and!; [done..|]. split; [done|]. eexists. split; [reflexivity|]. split.
    + cbn. by apply key.Info_from_to_model.
    + cbn. exists ls. split; [|done]. rewrite tree.href_from_to_model by by eapply denotes_wf.
      eapply denotes_later; [apply Hk1|]. by apply denotes_norm.
  - destruct Ht as [-> Hp]. apply wp_bind. eapply wp_Ok; [by rewrite Hp|].
    eapply wp_Ok; [done|]. eapply wp_Ok; [done|]. split_and!; [done..|].
    split; [done|]. eexists. split; [unfold file_entry; cbn; by rewrite Hp|]. split; [|done].
    cbn. by apply key.Info_from_to_model.
  - destruct Ht as [-> Ht]. destruct n as [|m]; [done|]. apply wp_bind.
    eapply wp_mono; [by apply (Hrec m)|]. intros w ps1 (Hps1 & Hk1 & Htree).
    apply wp_bind, on_tree_wp. eapply wp_mono; [by apply (tree_hash_wp m)|].
    intros dh [w' s'] (Hs' & Hl' & Hwf & Hst).
    destruct (tree_step ps1 s' Hs' Hl') as [Hps2 Hk2].
    apply wp_bind. eapply wp_mono; [by apply top_ok|]. intros _ ps3 [Hps3 Hk3].
    eapply wp_Ok; [done|]. eapply wp_Ok; [done|].
    split_and!; [done|by do 2 (etrans; [eassumption|])|]. split; [done|].
    eexists. split; [reflexivity|]. split; [cbn; by apply key.Info_from_to_model|].
    change (stored_dir (S m) (lget ks ps3).2 (tree.from_model (tree.to_model dh)) l).
    rewrite tree.href_from_to_model by done. eapply stored_dir_later; [|by apply stored_dir_norm].
    pose proof (kp_later _ _ Hk3) as Hl3. by rewrite lget_lset in Hl3.
Qed.

Lemma tree_has_later n s s' w l : backend_ok s' → later s s' → tree_has n s w l → tree_has n s' w l.
Proof.
  intros Hs' Hl (Hlf & chunks & fess & Hw & Hp & Hf). split; [done|]. exists chunks, fess.
  split_and!; [by eapply Writer_later|done|]. eapply Forall2_impl; [exact Hf|].
  intros fe it. by apply stored_entry_later.
Qed.

Lemma tree_has_kept n ps ps' w l :
  ready ps' → kept ps ps' → tree_has n (lget ks ps).2 w l → tree_has n (lget ks ps').2 w l.
Proof. intros Hs' [_ Hl]. by apply tree_has_later. Qed.

Lemma listed_files_wp n entry es its ps :
  (∀ e it ps, ready ps → indexed_entry n (lget ks ps).1 (lget ks ps).2 e it →
    wp (entry (e.1, e.2, e.2)) ps (λ f ps', ready ps' ∧ kept ps ps' ∧
      file_of n (lget ks ps').2 f it)) →
  ready ps → Forall2 (indexed_entry n (lget ks ps).1 (lget ks ps).2) es its →
  wp (mapM' entry ((λ e, (e.1, e.2, e.2)) <$> es)) ps (λ fs ps', ready ps' ∧ kept ps ps' ∧
    Forall2 (file_of n (lget ks ps').2) fs its).
Proof using LensLaws0.
  intros Hentry Hps Hes. eapply (wp_mapM kept ready (λ ps el it, ∃ e, el = (e.1, e.2, e.2) ∧
    indexed_entry n (lget ks ps).1 (lget ks ps).2 e it) (λ ps, file_of n (lget ks ps).2)).
  - intros el it ps1 Hps1 (e & -> & He). by apply Hentry.
  - intros el it p1 p2 [Hi Hl] (e & -> & He). exists e. split; [done|]. rewrite Hi.
    by eapply indexed_entry_later.
  - intros f it p1 p2 [_ Hl]. by apply file_of_later.
  - done.
  - apply Forall2_fmap_l. eapply Forall2_impl; [exact Hes|]. intros e it He. by exists e.
Qed.

(** The rounds go over the whole listing. *)
Lemma commit_rounds_wp n entry rounds es its w l0 ps :
  (∀ e it ps, ready ps → indexed_entry n (lget ks ps).1 (lget ks ps).2 e it →
    wp (entry (e.1, e.2, e.2)) ps (λ f ps', ready ps' ∧ kept ps ps' ∧
      file_of n (lget ks ps').2 f it)) →
  ready ps → length es ≤ rounds →
  Forall2 (indexed_entry n (lget ks ps).1 (lget ks ps).2) es its →
  tree_has n (lget ks ps).2 w l0 →
  wp (commit_rounds self rounds entry ((λ e, (e.1, e.2, e.2)) <$> es) w) ps
    (λ w' ps', ready ps' ∧ kept ps ps' ∧ tree_has n (lget ks ps').2 w' (l0 ++ its)).
Proof using All.
  intros Hentry. revert es its w l0 ps.
  induction rounds as [|rounds IH]; intros es its w l0 ps Hps Hlen Hes Hw; cbn [commit_rounds].
  all: set (k := files_at_a_time); assert (0 < k) as Hk by (unfold k, files_at_a_time; lia).
  all: apply wp_bind; rewrite <- fmap_take; eapply wp_mono;
    [by eapply (listed_files_wp n entry); [..|by apply Forall2_take]|];
    intros fs ps1 (Hps1 & Hk1 & Hfs).
  - destruct es as [|e es]; [|by simpl in Hlen; lia]. apply Forall2_nil_inv_l in Hes as ->.
    rewrite take_nil in Hfs. apply Forall2_nil_inv_r in Hfs as ->. eapply wp_Ok; [done|].
    rewrite app_nil_r. split_and!; [done..|]. by eapply tree_has_kept.
  - case_decide as Hfs0.
    + subst fs. apply Forall2_nil_inv_l in Hfs. destruct its as [|it its]; [|by destruct k; [lia|]].
      eapply wp_Ok; [done|]. rewrite app_nil_r. split_and!; [done..|].
      by eapply tree_has_kept.
    + apply wp_bind, on_tree_wp. eapply wp_mono.
      { eapply append_files_wp; [|done]. by eapply tree_has_kept. }
      intros _ [w' s'] (Hs' & Hl' & Hw'). destruct (tree_step ps1 s' Hs' Hl') as [Hps2 Hk2].
      rewrite <- fmap_drop. eapply wp_mono; [apply (IH _ (drop k its)); [done| | |]|].
      * rewrite length_drop. destruct es; simpl in *; lia.
      * assert (kept ps (lset ks ((lget ks ps1).1, s') ps1)) as [Hi Hl] by (by etrans).
        rewrite Hi. apply Forall2_drop. eapply Forall2_impl; [exact Hes|].
        intros e it. by apply indexed_entry_later.
      * by rewrite lget_lset.
      * intros w2 ps3 (Hps3 & Hk3 & Hw3). split_and!; [done|by do 2 (etrans; [eassumption|])|].
        by rewrite <- app_assoc, take_drop in Hw3.
Qed.

Lemma commit_to_tree_wp n fuel q l ps :
  n < fuel → ready ps → indexed_dir (S n) (lget ks ps).1 (lget ks ps).2 q l →
  wp (commit_to_tree (R := R) self fuel (hash_tree_writer Models.TreeList) q top) ps
    (λ w ps', ready ps' ∧ kept ps ps' ∧ tree_has n (lget ks ps').2 w l).
Proof using All.
  revert n q l ps. induction fuel as [|fuel IH]; intros n q l ps Hn Hps Hdir; [lia|].
  destruct Hdir as (es & Hes & Hf). cbn [commit_to_tree].
  apply wp_bind. eapply wp_Ok.
  { apply list_from_run; [exact Hes|]. intros e He hash.
    apply list_elem_of_lookup in He as [i Hi].
    destruct (Forall2_lookup_l _ _ _ _ _ Hf Hi) as (it & _ & Hit). by eapply indexed_no_hash. }
  rewrite length_fmap. eapply wp_mono; [eapply (commit_rounds_wp n _ _ es l _ []); [|done..| |]|].
  - intros e it ps1 Hps1 He. apply commit_entry_wp; [|done..].
    intros m q' l' ps2 -> Hps2 Hd. apply IH; [lia|done..].
  - done.
  - by apply tree_has_new.
  - by intros w ps' Hpost.
Qed.

(** A family's commit: a reference to everything that the index lists. *)
Lemma family_commit_wp n fuel now l ps :
  n < fuel → ready ps → indexed_dir (S n) (lget ks ps).1 (lget ks ps).2 None l →
  wp (commit (R := R) self fuel now top) ps (λ h ps', ready ps' ∧ kept ps ps' ∧
    stored_dir (S n) (lget ks ps').2 h l).
Proof using All.
  intros Hn Hps Hdir. unfold commit. apply wp_bind.
  eapply wp_mono; [by apply (commit_to_tree_wp n)|]. intros w ps1 (Hps1 & Hk1 & Hw).
  apply wp_bind, on_tree_wp. eapply wp_mono; [by apply (tree_hash_wp n)|].
  intros h [w' s'] (Hs' & Hl & _ & Hst). destruct (tree_step ps1 s' Hs' Hl) as [Hps2 Hk2].
  eapply wp_Ok; [done|]. rewrite lget_lset. split_and!; [done|by etrans|done].
Qed.

End Commit.
