(* ===== verification/CheckoutSpec.v ===== *)
(** * Checking out: what is committed is what the file system gets

    The reference to a directory is checked out into a new or an empty directory: every file,
    link and directory below it is there afterwards, and nothing else. *)

From S2P Require Import Prelude Utf8 Cbor Refs HashTree KeyIndex KeyStore KeyStoreOk Walker.
From S2P Require Import FileSystem Family FamilyOk Checkout.
From S2P Require Models.

(** ** Paths in a directory *)

Abbreviation fname i := (Models.FileName_into_vec (key.name i)).

Inductive at_path : dir → Path → key.Info → FileTree → Prop :=
  | at_here l i t : (i, t) ∈ l → at_path l [fname i] i t
  | at_below l i l' p j t : (i, TDir l') ∈ l → at_path l' p j t → at_path l (fname i :: p) j t.

Lemma at_path_app l1 l2 p i t : at_path (l1 ++ l2) p i t ↔ at_path l1 p i t ∨ at_path l2 p i t.
Proof.
  split.
  - intros Hp. inversion Hp as [l j u Hin|l j l' p' k u Hin Hrest]; subst.
    + apply elem_of_app in Hin as [?|?]; [left|right]; by constructor.
    + apply elem_of_app in Hin as [?|?]; [left|right]; by econstructor.
  - intros [Hp|Hp]; inversion Hp; subst; (apply at_here || eapply at_below); try done.
    all: apply elem_of_app; tauto.
Qed.

Lemma at_path_nil p i t : ¬ at_path [] p i t.
Proof.
  intros Hp. remember [] as l eqn:E.
  destruct Hp as [? ? ? Hin|? ? ? ? ? ? Hin]; subst; by apply elem_of_nil in Hin.
Qed.

(** The head of a path is the name of an entry. *)
Lemma at_path_head l p i t : at_path l p i t → ∃ name p', p = name :: p' ∧ name ∈ (λ it, fname it.1) <$> l.
Proof.
  destruct 1 as [l j u Hin|l j l' p j' u Hin _]; eexists _, _; (split; [done|]);
    apply list_elem_of_fmap; by eexists (_, _).
Qed.

(** What can be restored below [out]: names that the file system takes, no two the same in a
    directory, and links with the mode that links have. *)
Definition restorable_entry (takes : Path → Prop) (q : Path) (i : key.Info) (t : FileTree) : Prop :=
  plain (fname i) ∧ takes q ∧
  match t with
  | TLink target => target ≠ [] ∧ Byte.x00 ∉ target ∧
      ∀ m, key.permissions i = Some m → m = (kind_bits (KLink target) + link_perm)%Z
  | _ => True
  end.

Record restorable (takes : Path → Prop) (out : Path) (l : dir) : Prop := {
  rs_names : NoDup ((λ it, fname it.1) <$> l);
  rs_below : ∀ p i l', at_path l p i (TDir l') → NoDup ((λ it, fname it.1) <$> l');
  rs_entry : ∀ p i t, at_path l p i t → restorable_entry takes (out ++ p) i t;
}.

Lemma restorable_sub tk out l i l' :
  restorable tk out l → (i, TDir l') ∈ l → restorable tk (out ++ [fname i]) l'.
Proof.
  intros [Hn Hb He] Hin. split.
  - eapply Hb. by apply at_here.
  - intros p j l2 Hp. eapply Hb. by eapply at_below.
  - intros p j t Hp. rewrite <- app_assoc. apply He. by eapply at_below.
Qed.

(** ** What the file system shows *)

(** A node with the entry's contents, and its permissions and times where it has them. *)
Definition shows_node (n : FsNode) (i : key.Info) (t : FileTree) : Prop :=
  match t, kind n with
  | TFile c, KFile c' => c' = c
  | TLink p, KLink p' => p' = p
  | TDir _, KDir => True
  | _, _ => False
  end ∧
  (∀ m, key.permissions i = Some m → perm n = (m mod 4096)%Z) ∧
  (∀ m a, key.modified_ts_secs i = Some m → key.accessed_ts_secs i = Some a →
    m ≠ 0%Z → a ≠ 0%Z → times n = (a, m)).

(** Only [q] and what is below it, and the times of the directory it is in, change. *)
Record elsewhere_same (q : Path) (v v' : gmap Path FsNode) : Prop := {
  es_same : ∀ r, ¬ q `prefix_of` r → r ≠ pop q → v' !! r = v !! r;
  es_parent : ∀ n, q ≠ [] → v !! pop q = Some n → ∃ ts, v' !! pop q = Some (mkFsNode (kind n) (perm n) ts);
}.

(** The directory [out] holds [l] and nothing else. *)
Record restored (l : dir) (out : Path) (v v' : gmap Path FsNode) : Prop := {
  rd_dir : ∃ n, v' !! out = Some n ∧ kind n = KDir ∧ (0 ≤ perm n < 4096)%Z;
  rd_has : ∀ p i t, at_path l p i t → ∃ n, v' !! (out ++ p) = Some n ∧ shows_node n i t;
  rd_only : ∀ p, p ≠ [] → is_Some (v' !! (out ++ p)) → ∃ i t, at_path l p i t;
  rd_else : elsewhere_same out v v';
}.

Lemma prefix_snoc_cases (out : Path) name r :
  (out ++ [name]) `prefix_of` r ↔ ∃ p, r = out ++ name :: p.
Proof.
  split; intros [p ->]; exists p; by rewrite <- app_assoc.
Qed.

Lemma pop_not_prefix (q : Path) : q ≠ [] → ¬ q `prefix_of` pop q.
Proof.
  intros Hq Hp%prefix_length. unfold pop in Hp. rewrite length_take in Hp.
  destruct q; [done|]. simpl in Hp. lia.
Qed.

Lemma snoc_not_prefix (out : Path) name : ¬ (out ++ [name]) `prefix_of` out.
Proof. intros Hp%prefix_length. rewrite length_app in Hp. simpl in Hp. lia. Qed.

(** *** Changes to the file system *)

Lemma added_else v v' q k : added v v' q k → elsewhere_same q v v'.
Proof.
  intros (_ & Hp & Hs). split; [|by intros n _ Hn; apply Hp].
  intros r Hr Hrp. apply Hs; [|done]. intros ->. by destruct Hr.
Qed.

Lemma insert_else v q n : elsewhere_same q v (<[q := n]> v).
Proof.
  split.
  - intros r Hr _. rewrite lookup_insert_ne; [done|]. intros ->. by destruct Hr.
  - intros m Hq Hm. exists (times m). rewrite lookup_insert_ne.
    + rewrite Hm. by destruct m.
    + intros E. apply (pop_not_prefix q Hq). by rewrite <- E.
Qed.

#[global] Instance elsewhere_same_preorder q : PreOrder (elsewhere_same q).
Proof.
  split.
  - intros v. split; [done|]. intros n _ Hn. exists (times n). rewrite Hn. by destruct n.
  - intros v1 v2 v3 [Hs1 Hp1] [Hs2 Hp2]. split.
    + intros r Hr Hrp. by rewrite Hs2, Hs1.
    + intros n Hq Hn. destruct (Hp1 n Hq Hn) as [ts Hts]. destruct (Hp2 _ Hq Hts) as [ts' Hts'].
      by exists ts'.
Qed.

(** What happens below [out] leaves the rest alone, too. *)
Lemma elsewhere_below out name v v' :
  elsewhere_same (out ++ [name]) v v' → (∃ n, v !! out = Some n ∧ kind n = KDir) →
  elsewhere_same out v v'.
Proof.
  intros [Hs Hp] (d & Hd & _). rewrite pop_snoc in *. split.
  - intros r Hr _. apply Hs; [|by intros ->].
    intros Hpre. apply Hr. etrans; [|exact Hpre]. by apply prefix_app_r.
  - intros n Ho Hn. exists (times n). rewrite Hs.
    + rewrite Hn. by destruct n.
    + intros Hpre. apply (pop_not_prefix out Ho). etrans; [|exact Hpre]. by apply prefix_app_r.
    + intros E. apply (pop_not_prefix out Ho). by rewrite E.
Qed.

(** ** Writing *)

(** A step of a component of the state. *)
Lemma ends_step {W S A B} (l : lens W S) (m : M S A) (f : nat → A → M W B) w Q' (Q : B → W → Prop) :
  twp m (lget l w) Q' → (∀ a s', Q' a s' → ends (λ fuel, f fuel a) (lset l s' w) Q) →
  ends (λ fuel, zoom l m ≫= f fuel) w Q.
Proof.
  intros (a & s' & Hm & HQ')%twp_inv Hf. apply ends_bind.
  eapply ends_run; [intros fuel; by apply zoom_Ok|]. by apply Hf.
Qed.

Lemma try_times_ok {S} n (m : M S unit) s Q : twp m s Q → twp (try_times (Datatypes.S n) m) s Q.
Proof.
  intros ([] & s' & Hm & HQ)%twp_inv. cbn [try_times]. eapply twp_Ok; [|done].
  unfold attempt, mbind, M_bind. by rewrite Hm.
Qed.

Section Checkout.
Context {St Fs : Type} `{HashTreeBackendLaws St} `{FileSystemLaws Fs}.
Context `{CborLaws Models.HashRefs} `{CborLaws Models.Files}.
Implicit Types (s : St) (fs : Fs) (v : gmap Path FsNode).

Lemma write_chunks_run lf ls stk s q n c fs :
  readable s → pending s lf stk ls → fs_ok fs → view fs !! q = Some n → kind n = KFile c →
  ∃ N s' fs', readable s' ∧ later s s' ∧ fs_ok fs' ∧
    (∃ ts, view fs' = <[q := mkFsNode (KFile (c ++ concat ls)) (perm n) ts]> (view fs)) ∧
    ∀ fuel, N ≤ fuel →
      write_file_chunks fuel q (mkWalk stk [] s, fs) = (Ok (), (mkWalk [] [] s', fs')).
Proof.
  intros Hs Hp. revert stk s n c fs Hs Hp.
  induction ls as [|d ls IH]; intros stk s n c fs Hs Hp Hfs Hq Hk.
  - destruct (leaf_next_none lf stk s Hs Hp) as (N & s' & Hs' & Hl & Hrun).
    destruct (twp_inv _ _ _ (try_times_ok 3 _ fs _ (flush_file_ok q fs Hfs ltac:(by eexists))))
      as ([] & fs' & Hrun2 & Hfs' & Hv).
    exists N, s', fs'. split_and!; [done..| |].
    + exists (times n). rewrite Hv, app_nil_r, insert_id; [done|]. rewrite Hq. by destruct n; simpl in *; subst.
    + intros fuel Hfuel. specialize (Hrun fuel Hfuel).
      destruct fuel; cbn [write_file_chunks]; run_with (zoom_Ok fst_lens _ (_, fs) _ _ Hrun);
        by apply (zoom_Ok snd_lens).
  - destruct (leaf_next_some lf stk d ls s Hs Hp) as (N & s1 & stk1 & Hs1 & Hl1 & Hp1 & Hrun).
    destruct (twp_inv _ _ _ (try_times_ok 3 _ fs _ (write_all_ok q d fs n c Hfs Hq Hk)))
      as ([] & fs1 & Hrun1 & Hfs1 & ts1 & Hv1).
    destruct (IH stk1 s1 (mkFsNode (KFile (c ++ d)) (perm n) ts1) (c ++ d) fs1 Hs1 Hp1 Hfs1)
      as (N2 & s2 & fs2 & Hs2 & Hl2 & Hfs2 & (ts2 & Hv2) & Hrun2).
    { by rewrite Hv1, lookup_insert_eq. } { done. }
    exists (S (N + N2)), s2, fs2. split_and!; [done|by etrans|done| |].
    + exists ts2. rewrite Hv2, Hv1, insert_insert_eq. simpl. by rewrite <- app_assoc.
    + intros [|fuel] Hfuel; [lia|]. cbn [write_file_chunks].
      run_with (zoom_Ok fst_lens _ (_, fs) _ _ (Hrun (S fuel) ltac:(lia))).
      run_with (zoom_Ok snd_lens _ (mkWalk stk1 ([] : list bytes) s1, fs) _ _ Hrun1). apply Hrun2. lia.
Qed.

Lemma write_file_ends lf h ls s q n c fs (Q : () → St * Fs → Prop) :
  readable s → denotes s lf h ls → fs_ok fs → view fs !! q = Some n → kind n = KFile c →
  (∀ s' fs', readable s' → later s s' → fs_ok fs' →
    (∃ ts, view fs' = <[q := mkFsNode (KFile (c ++ concat ls)) (perm n) ts]> (view fs)) →
    Q () (s', fs')) →
  ends (λ fuel, write_file fuel q h) (s, fs) Q.
Proof.
  intros Hs Hd Hfs Hq Hk HQ.
  destruct (write_chunks_run lf ls _ s q n c fs Hs (denotes_pending _ _ _ _ Hd) Hfs Hq Hk)
    as (N & s' & fs' & Hs' & Hl & Hfs' & Hv & Hrun).
  exists N, (), (s', fs'). split; [|by apply HQ]. intros fuel Hfuel. unfold write_file, LeafIterator_new.
  by rewrite Hrun.
Qed.

(** A node with an information's permissions and times. *)
Definition with_meta (i : key.Info) (n n' : FsNode) : Prop :=
  kind n' = kind n ∧ (0 ≤ perm n' < 4096)%Z ∧
  (∀ m, key.permissions i = Some m → perm n' = (m mod 4096)%Z) ∧
  (∀ m a, key.modified_ts_secs i = Some m → key.accessed_ts_secs i = Some a → times n' = (a, m)).

Lemma restore_meta_twp i q n fs :
  fs_ok fs → view fs !! q = Some n → (0 ≤ perm n < 4096)%Z →
  (∀ t m, kind n = KLink t → key.permissions i = Some m → m = (kind_bits (kind n) + perm n)%Z) →
  twp (restore_meta i q) fs (λ _ fs', fs_ok fs' ∧
    ∃ n', view fs' = <[q := n']> (view fs) ∧ with_meta i n n').
Proof.
  intros Hfs Hq Hp Hlink. unfold restore_meta. apply twp_bind.
  assert (∀ m, ((kind_bits (kind n) + perm n) = m → perm n = m mod 4096)%Z) as Hbits.
  { intros m <-. unfold kind_bits. destruct (kind n).
    all: rewrite Z.add_comm; change 32768%Z with (8 * 4096)%Z || change 16384%Z with (4 * 4096)%Z
      || change 40960%Z with (10 * 4096)%Z; rewrite Z.mod_add, Z.mod_small by lia; done. }
  eapply twp_mono with (Q := λ _ fs1, fs_ok fs1 ∧ ∃ n1, view fs1 = <[q := n1]> (view fs) ∧
    kind n1 = kind n ∧ (0 ≤ perm n1 < 4096)%Z ∧
    ∀ m, key.permissions i = Some m → perm n1 = (m mod 4096)%Z).
  - destruct (key.permissions i) as [m|] eqn:Em.
    2: { eapply twp_Ok; [done|]. split; [done|]. exists n. rewrite insert_id by done. split_and!; [done|done|lia|lia|done]. }
    apply twp_bind. eapply twp_mono; [by apply (symlink_permissions_ok q fs n)|].
    intros current fs1 (Hfs1 & Hv1 & ->). case_decide as Hd.
    + eapply twp_Ok; [done|]. split; [done|]. exists n. rewrite insert_id by done.
      split_and!; [done|done|lia|lia|]. intros ? [= <-]. by apply Hbits.
    + eapply twp_mono; [apply (set_permissions_ok q m fs1 n)|]; [done|by rewrite Hv1| |].
      { intros t Ht. apply Hd. symmetry. by eapply Hlink. }
      intros _ fs2 [Hfs2 Hv2]. split; [done|]. rewrite Hv2, Hv1. eexists.
      split; [done|]. split; [done|]. split; [by apply Z.mod_pos_bound|by intros ? [= <-]].
  - intros _ fs1 (Hfs1 & n1 & Hv1 & Hk1 & Hp1 & Hm1).
    assert (view fs1 !! q = Some n1) as Hq1 by (by rewrite Hv1, lookup_insert_eq).
    destruct (key.modified_ts_secs i) as [m|] eqn:Em, (key.accessed_ts_secs i) as [a|] eqn:Ea.
    1: { eapply twp_mono; [by apply (set_times_ok q a m fs1 n1)|]. intros _ fs2 [Hfs2 Hv2].
      split; [done|]. eexists. rewrite Hv2, Hv1, insert_insert_eq. split; [done|].
      do 3 (split; [done|]). intros ? ?. rewrite Em, Ea. by intros [= <-] [= <-]. }
    all: eapply twp_Ok; [done|]; split; [done|]; exists n1; split; [done|];
      do 3 (split; [done|]); intros ? ?; rewrite Em, Ea; done.
Qed.

(** *** One entry *)

Definition kind_of (t : FileTree) (k : Kind) : Prop :=
  match t, k with
  | TFile c, KFile c' => c' = c
  | TLink p, KLink p' => p' = p
  | TDir _, KDir => True
  | _, _ => False
  end.

(** The node is made, with what is below it. *)
Record made out (it : key.Info * FileTree) v v' : Prop := {
  md_node : ∃ n, v' !! (out ++ [fname it.1]) = Some n ∧ (0 ≤ perm n < 4096)%Z ∧
    kind_of it.2 (kind n) ∧ ∀ t, kind n = KLink t → perm n = link_perm;
  md_has : ∀ p i t, p ≠ [] → at_path [it] (fname it.1 :: p) i t →
    ∃ n, v' !! (out ++ fname it.1 :: p) = Some n ∧ shows_node n i t;
  md_only : ∀ p, p ≠ [] → is_Some (v' !! (out ++ fname it.1 :: p)) →
    ∃ i t, at_path [it] (fname it.1 :: p) i t;
  md_else : elsewhere_same (out ++ [fname it.1]) v v';
}.

(** The entry is there with its permissions and times. *)
Record entry_done out (it : key.Info * FileTree) v v' : Prop := {
  ed_has : ∀ p i t, at_path [it] p i t → ∃ n, v' !! (out ++ p) = Some n ∧ shows_node n i t;
  ed_only : ∀ p, is_Some (v' !! (out ++ fname it.1 :: p)) → ∃ i t, at_path [it] (fname it.1 :: p) i t;
  ed_else : elsewhere_same (out ++ [fname it.1]) v v';
}.

Lemma at_path_one (i : key.Info) t p j u :
  at_path [(i, t)] p j u → (p = [fname i] ∧ j = i ∧ u = t) ∨ ∃ p', p' ≠ [] ∧ p = fname i :: p'.
Proof.
  intros Hp. remember [(i, t)] as l eqn:E.
  destruct Hp as [l j u Hin|l j l' p j' u Hin Hrest]; subst; apply list_elem_of_singleton in Hin;
    simplify_eq; [by left|]. right. apply at_path_head in Hrest as (? & ? & -> & _).
  by eexists (_ :: _).
Qed.

Lemma with_meta_shows i t n n' :
  kind_of t (kind n) → with_meta (key.Info_norm i) n n' → shows_node n' i t.
Proof.
  intros Hk (Hk' & _ & Hp & Ht). split; [by rewrite Hk'|]. split; [done|].
  intros m a Hm Ha Hm0 Ha0. apply Ht; cbn; rewrite ?Hm, ?Ha; cbn; unfold key.none_if_zero;
    by rewrite decide_False.
Qed.

Lemma made_meta out i t v v' n n' :
  made out (i, t) v v' → v' !! (out ++ [fname i]) = Some n → with_meta (key.Info_norm i) n n' →
  entry_done out (i, t) v (<[out ++ [fname i] := n']> v').
Proof.
  intros [(n0 & Hn0 & _ & Hk & _) Hhas Honly Helse] Hn Hm. cbn [fst snd] in *. simplify_eq.
  assert (∀ p, p ≠ [] → out ++ [fname i] ≠ out ++ fname i :: p) as Hne.
  { intros p Hp [= E]%(inj (app out)). by destruct p. }
  split; cbn [fst snd].
  - intros p j u Hp. destruct (at_path_one _ _ _ _ _ Hp) as [(-> & -> & ->)|(p' & Hp' & ->)].
    + exists n'. rewrite lookup_insert_eq. split; [done|]. by eapply with_meta_shows.
    + rewrite lookup_insert_ne by by apply Hne. by apply Hhas.
  - intros p Hp. destruct (decide (p = [])) as [->|Hp0].
    + exists i, t. apply at_here. by left.
    + rewrite lookup_insert_ne in Hp by by apply Hne. by apply Honly.
  - etrans; [exact Helse|]. apply insert_else.
Qed.

(** Several entries one after the other. *)
Lemma restored_snoc l it out v v1 v2 :
  restored l out v v1 → entry_done out it v1 v2 → fname it.1 ∉ (λ it, fname it.1) <$> l →
  restored (l ++ [it]) out v v2.
Proof.
  intros [(d & Hd & Hk & Hp) Hhas Honly Helse] [Hhas2 Honly2 Helse2] Hnew. split.
  - destruct (es_parent _ _ _ Helse2 d) as [ts Hts]; [by destruct out|by rewrite pop_snoc|].
    rewrite pop_snoc in Hts. eexists. by rewrite Hts.
  - intros p i t [Hl|Hit]%at_path_app; [|by apply Hhas2].
    destruct (Hhas _ _ _ Hl) as (n & Hn & Hs). exists n. split; [|done].
    destruct (at_path_head _ _ _ _ Hl) as (name & p' & -> & Hname).
    rewrite (es_same _ _ _ Helse2); [done| |].
    + intros (p2 & [= -> _]%(inj (app out)))%prefix_snoc_cases. done.
    + rewrite pop_snoc. intros E. apply (f_equal length) in E. rewrite length_app in E. simpl in E. lia.
  - intros p Hp0 Hsome. destruct (decide ((out ++ [fname it.1]) `prefix_of` (out ++ p))) as [Hpre|Hpre].
    + apply prefix_snoc_cases in Hpre as (p2 & ->%(inj (app out))).
      destruct (Honly2 p2 Hsome) as (i & t & Hit). exists i, t. apply at_path_app. by right.
    + rewrite (es_same _ _ _ Helse2) in Hsome; [|done|].
      * destruct (Honly p Hp0 Hsome) as (i & t & Hit). exists i, t. apply at_path_app. by left.
      * rewrite pop_snoc. intros E. apply (f_equal length) in E. rewrite length_app in E.
        destruct p; [done|]. simpl in E. lia.
  - etrans; [exact Helse|]. eapply elsewhere_below; [exact Helse2|]. by exists d.
Qed.

Lemma at_path_in (i : key.Info) t p j u :
  p ≠ [] → at_path [(i, t)] (fname i :: p) j u → ∃ l, t = TDir l ∧ at_path l p j u.
Proof.
  intros Hp Hat. remember [(i, t)] as l eqn:E. remember (fname i :: p) as q eqn:Eq.
  destruct Hat as [l k w Hin|l k l' q k' w Hin Hrest]; subst; apply list_elem_of_singleton in Hin;
    simplify_eq. by exists l'.
Qed.

Lemma made_leaf out i t v v' n :
  (∀ l, t ≠ TDir l) → v' !! (out ++ [fname i]) = Some n → (0 ≤ perm n < 4096)%Z →
  kind_of t (kind n) → (∀ u, kind n = KLink u → perm n = link_perm) →
  (∀ p, p ≠ [] → v' !! (out ++ fname i :: p) = None) → elsewhere_same (out ++ [fname i]) v v' →
  made out (i, t) v v'.
Proof.
  intros Ht Hn Hp Hk Hl Hb He. split; cbn [fst snd]; [by exists n| |by intros p Hp0 [? Hs]; rewrite Hb in Hs|done].
  intros p j u Hp0 Hat. destruct (at_path_in _ _ _ _ _ Hp0 Hat) as (l & -> & _). by edestruct Ht.
Qed.

Lemma made_dir out i l v v' :
  restored l (out ++ [fname i]) v v' → made out (i, TDir l) v v'.
Proof.
  assert (∀ p, out ++ fname i :: p = (out ++ [fname i]) ++ p) as E by (intros; by rewrite <- app_assoc).
  intros [(n & Hn & Hk & Hp) Hhas Honly Helse]. split; cbn [fst snd].
  - exists n. split_and!; [done|lia|lia|by rewrite Hk|]. intros u. by rewrite Hk.
  - intros p j u Hp0 Hat. destruct (at_path_in _ _ _ _ _ Hp0 Hat) as (l' & [= <-] & Hat').
    rewrite E. by apply Hhas.
  - intros p Hp0 Hs. rewrite E in Hs. destruct (Honly p Hp0 Hs) as (j & u & Hat). exists j, u.
    eapply at_below; [by left|done].
  - done.
Qed.

(** The node of a new file or link, with nothing below it. *)
Lemma added_leaf out (name : bytes) v v' k :
  (∀ p, v !! (out ++ name :: p) = None) → added v v' (out ++ [name]) k →
  ∀ p, p ≠ [] → v' !! (out ++ name :: p) = None.
Proof.
  intros Hb (_ & _ & Hs) p Hp. rewrite Hs; [by apply Hb| |].
  - intros [= E]%(inj (app out)). by destruct p.
  - rewrite pop_snoc. intros E. apply (f_equal length) in E. rewrite length_app in E. simpl in E. lia.
Qed.

Lemma plain_not_empty n : plain (Models.FileName_into_vec n) → Models.FileName_is_empty n = false.
Proof. intros [Hn _]. destruct n; simpl in *; by rewrite bool_decide_false. Qed.

(** The place for a checkout: a new directory or an old one, with nothing in it. *)
Definition out_ready v out : Prop :=
  (∀ p, p ≠ [] → v !! (out ++ p) = None) ∧
  (can_add takes v out ∨ ∃ n, v !! out = Some n ∧ kind n = KDir ∧ (0 ≤ perm n < 4096)%Z).

(** What a part of a checkout leaves: [P] of the file system before and after. *)
Definition leaves (out : Path) s fs (P : gmap Path FsNode → gmap Path FsNode → Prop)
    (out' : Path) (x : St * Fs) : Prop :=
  out' = out ∧ readable x.1 ∧ later s x.1 ∧ fs_ok x.2 ∧ P (view fs) (view x.2).

(** Making an entry's node, by its content; [rec] is the checkout of a directory. *)
Lemma make_ends n (rec : nat → Path → tree.HashRef → M (St * Fs) Path) out (fe : FileEntry) i t s fs :
  (∀ out l h s fs, readable s → stored_dir n s h l → restorable takes out l → fs_ok fs →
    out_ready (view fs) out →
    ends (λ fuel, rec fuel out h) (s, fs) (leaves out s fs (restored l out))) →
  readable s → stored_as (stored_dir n s) s fe (i, t) → restorable takes out [(i, t)] → fs_ok fs →
  (∃ d, view fs !! out = Some d ∧ kind d = KDir) → (∀ p, view fs !! (out ++ fname i :: p) = None) →
  ends (λ fuel, match hash_ref fe with
    | Data h => zoom snd_lens (create_file (out ++ [fname i])) ;;
        write_file fuel (out ++ [fname i]) h ;; mret (out ++ [fname i])
    | Dir h => rec fuel (out ++ [fname i]) h
    | Link p => zoom snd_lens (symlink p (out ++ [fname i])) ;; mret (out ++ [fname i])
    end) (s, fs) (leaves (out ++ [fname i]) s fs (made out (i, t))).
Proof.
  intros Hrec Hs [_ Ht] Hres Hfs Hd Hnew.
  destruct (rs_entry _ _ _ Hres [fname i] i t) as (Hpl & Htk & Hlink); [apply at_here; by left|].
  assert (can_add takes (view fs) (out ++ [fname i])) as Hadd.
  { split; [by eexists _, _|by rewrite pop_snoc|by apply Hnew|done]. }
  cbn [fst snd] in *. destruct t as [c|p|l], (hash_ref fe) as [h|h|p']; try done.
  - destruct Ht as (ls & Hden & Hcat).
    eapply ends_step; [by apply create_file_ok|]. intros _ fs1 (Hfs1 & Hadded). pose proof Hadded as ((n1 & Hn1 & Hk1 & Hp1 & _) & _).
    apply ends_bind. eapply write_file_ends; try done.
    intros s' fs' Hs' Hl Hfs' (ts & Hv). eapply ends_run; [done|]. unfold leaves. cbn [fst snd].
    split_and!; [done..|].
    apply (made_leaf _ _ _ _ _ (mkFsNode (KFile (concat ls)) (perm n1) ts));
      [done| |exact Hp1|done|done| |].
    + by rewrite Hv, lookup_insert_eq.
    + intros p Hp0. rewrite Hv, lookup_insert_ne; [by eapply added_leaf|].
      intros [= E]%(inj (app out)). by destruct p.
    + rewrite Hv. etrans; [by eapply added_else|]. apply insert_else.
  - subst p'. destruct Hlink as (Hp0 & Hnul & _).
    eapply ends_step; [by apply symlink_ok|]. intros _ fs1 (Hfs1 & Hadded). pose proof Hadded as ((n1 & Hn1 & Hk1 & Hp1 & Hlp) & _).
    eapply ends_run; [done|]. unfold leaves. cbn [fst snd lset snd_lens].
    split_and!; [done..|]. eapply made_leaf; [done|exact Hn1|exact Hp1|by rewrite Hk1| |by eapply added_leaf|by eapply added_else].
    intros u Hu. eapply Hlp. by rewrite <- Hk1, Hu.
  - eapply ends_mono; [apply (Hrec _ l); try done|].
    + by eapply restorable_sub; [|left].
    + split; [|by left]. intros p _. rewrite <- app_assoc. by apply Hnew.
    + intros out' [s' fs'] (-> & ? & ? & ? & ?). do 4 (split; [done|]). by apply made_dir.
Qed.

(** The checkout of directories, to a depth of [n]. *)
Definition checks_out n (rec : nat → Path → tree.HashRef → M (St * Fs) Path) : Prop :=
  ∀ out l h s fs, readable s → stored_dir n s h l → restorable takes out l → fs_ok fs →
    out_ready (view fs) out →
    ends (λ fuel, rec fuel out h) (s, fs) (leaves out s fs (restored l out)).

Lemma entry_ends n rec out fe i t s fs :
  checks_out n rec → readable s → stored_as (stored_dir n s) s fe (i, t) →
  restorable takes out [(i, t)] → fs_ok fs →
  (∃ d, view fs !! out = Some d ∧ kind d = KDir) → (∀ p, view fs !! (out ++ fname i :: p) = None) →
  ends (λ fuel, checkout_entry fuel (rec fuel) out (meta fe, hash_ref fe)) (s, fs)
    (leaves out s fs (entry_done out (i, t))).
Proof.
  intros Hrec Hs Hst Hres Hfs Hd Hnew. pose proof Hst as [Hi _]. cbn [fst] in Hi.
  destruct (rs_entry _ _ _ Hres [fname i] i t) as (Hpl & _ & Hlink); [apply at_here; by left|].
  unfold checkout_entry. rewrite Hi.
  apply ends_bind. eapply ends_run.
  { intros fuel. cbn [key.name key.Info_norm]. by rewrite plain_not_empty by done. }
  cbv zeta. cbn [key.name key.Info_norm]. rewrite push_plain by done.
  apply ends_bind. eapply ends_mono; [by apply (make_ends n rec _ _ _ t)|].
  intros out' [s1 fs1] (-> & Hs1 & Hl1 & Hfs1 & Hmade). cbn [fst snd] in *.
  pose proof (md_node _ _ _ _ Hmade) as (n1 & Hn1 & Hp1 & Hk1 & Hlp1). cbn [fst snd] in *.
  eapply ends_step.
  { apply (restore_meta_twp (key.Info_norm i) _ n1); [done|done|done|].
    intros u m Hu Hm. rewrite (Hlp1 u Hu), Hu. cbn [kind_of] in Hk1. rewrite Hu in Hk1.
    destruct t; try done. by apply (proj2 (proj2 Hlink)). }
  intros _ fs2 (Hfs2 & n2 & Hv2 & Hm2). eapply ends_run; [by intros fuel; rewrite pop_snoc|].
  unfold leaves. cbn [fst snd lset snd_lens]. split_and!; [done..|].
  rewrite Hv2. by eapply made_meta.
Qed.

(** The entries of a listing in turn, after [done_]. *)
Lemma entries_ends n rec out v0 done_ fes its s fs :
  checks_out n rec → readable s → Forall2 (stored_as (stored_dir n s) s) fes its →
  restorable takes out (done_ ++ its) → fs_ok fs → restored done_ out v0 (view fs) →
  ends (λ fuel, fold_each (checkout_entry fuel (rec fuel)) out
      ((λ f, (meta f, hash_ref f)) <$> fes)) (s, fs)
    (leaves out s fs (λ _ v', restored (done_ ++ its) out v0 v')).
Proof.
  intros Hrec. revert its s fs done_.
  induction fes as [|fe fes IH]; intros [|[i t] its] s fs done_ Hs Hf Hres Hfs Hdone;
    try by inversion Hf.
  { eapply ends_run; [done|]. unfold leaves. rewrite app_nil_r. done. }
  apply Forall2_cons in Hf as [Hfe Hf]. cbn [fmap list_fmap fold_each].
  assert (restorable takes out [(i, t)]) as Hone.
  { split.
    - apply NoDup_singleton.
    - intros p j l' Hat. eapply (rs_below _ _ _ Hres). apply at_path_app. right.
      apply (at_path_app [(i, t)] its). by left.
    - intros p j u Hat. eapply (rs_entry _ _ _ Hres). apply at_path_app. right.
      apply (at_path_app [(i, t)] its). by left. }
  assert (fname i ∉ (λ it : key.Info * FileTree, fname it.1) <$> done_) as Hnew.
  { pose proof (rs_names _ _ _ Hres) as Hnd. rewrite fmap_app in Hnd.
    apply NoDup_app in Hnd as (_ & Hdis & _). intros Hin. apply (Hdis _ Hin). by left. }
  apply ends_bind. eapply ends_mono; [apply (entry_ends n rec _ _ i t); try done|].
  - destruct (rd_dir _ _ _ _ Hdone) as (d & Hd & Hk & _). by exists d.
  - intros p. apply eq_None_not_Some. intros Hsome.
    destruct (rd_only _ _ _ _ Hdone (fname i :: p) ltac:(done) Hsome) as (j & u & Hat).
    apply at_path_head in Hat as (? & ? & [= <- <-] & Hin). done.
  - intros out' [s1 fs1] (-> & Hs1 & Hl1 & Hfs1 & Hentry). cbn [fst snd] in *.
    eapply ends_mono; [apply (IH its s1 fs1 (done_ ++ [(i, t)])); try done|].
    + eapply Forall2_impl; [exact Hf|]. intros ? ?. apply stored_as_mono; [done|].
      intros h l. by apply stored_dir_later.
    + by rewrite <- app_assoc.
    + by eapply restored_snoc.
    + intros out' [s2 fs2] (-> & ? & ? & ? & Hr). unfold leaves. cbn [fst snd] in *.
      rewrite <- app_assoc in Hr. split_and!; [done|done|by etrans|done|done].
Qed.

(** A new or empty directory. *)
Lemma out_made_twp out fs :
  fs_ok fs → out_ready (view fs) out →
  twp (unwrapM (create_dir_all out)) fs (λ _ fs', fs_ok fs' ∧ restored [] out (view fs) (view fs')).
Proof.
  intros Hfs [Hb Hout].
  assert (twp (create_dir_all out) fs (λ _ fs', fs_ok fs' ∧ restored [] out (view fs) (view fs'))) as Ht.
  { destruct Hout as [Hadd|(n & Hn & Hk & Hp)].
    - eapply twp_mono; [by apply create_dir_all_new|]. intros _ fs' [Hfs' Hadded]. split; [done|].
      pose proof Hadded as ((m & Hm & Hk & Hp & _) & _ & Hsame). split.
      + by exists m.
      + intros p i t Hat. by apply at_path_nil in Hat.
      + intros p Hp0 [x Hx]. rewrite Hsame, Hb in Hx; [done|done| |].
        * rewrite <- (app_nil_r out) at 2. by intros ?%(inj (app out)).
        * destruct (ca_name _ _ _ Hadd) as (q & c & -> & _). rewrite pop_snoc. intros E.
          apply (f_equal length) in E. rewrite !length_app in E. simpl in E. lia.
      + by eapply added_else.
    - eapply twp_mono; [by eapply create_dir_all_old|]. intros _ fs' [Hfs' Hv]. split; [done|].
      rewrite Hv. split; [by exists n|intros p i t Hat; by apply at_path_nil in Hat| |done].
      intros p Hp0 [x Hx]. by rewrite Hb in Hx. }
  apply twp_inv in Ht as ([] & fs' & Hrun & Hpost). eapply twp_Ok; [|exact Hpost].
  unfold unwrapM. by rewrite Hrun.
Qed.

Lemma checkout_ends n : checks_out n checkout_dir_ref.
Proof.
  induction n as [|n IH]; intros out l h s fs Hs Hst Hres Hfs Hout; [done|].
  destruct Hst as (chunks & fess & Hd & Hp & Hf). apply (ends_succ _ (λ fuel, _ ← zoom snd_lens (unwrapM (create_dir_all out));
    entries ← zoom fst_lens (fetch_dir_data fuel h);
    fold_each (checkout_entry fuel (checkout_dir_ref fuel)) out entries)); [done|].
  eapply ends_step; [by apply out_made_twp|]. intros _ fs1 [Hfs1 Hr1].
  cbn [lset snd_lens fst snd]. apply ends_bind.
  destruct (fetch_dir_run _ _ _ h s Hs Hd Hp) as (N & s1 & Hs1 & Hl1 & Hfetch).
  apply ends_zoom. exists N, ((λ f, (meta f, hash_ref f)) <$> concat fess), s1. split; [done|].
  cbn [lset fst_lens fst snd].
  eapply ends_mono; [apply (entries_ends n _ out (view fs) [] (concat fess) l); try done|].
  - eapply Forall2_impl; [exact Hf|]. intros ? ?. apply stored_as_mono; [done|].
    intros h' l'. by apply stored_dir_later.
  - intros out' [s2 fs2] (-> & ? & ? & ? & ?). unfold leaves. cbn [fst snd] in *.
    split_and!; [done|done|by etrans|done|done].
Qed.

End Checkout.
