(* ===== verification/FamilySim.v ===== *)
(** * Stores that agree commit and check out the same

    A map between the states of two stores that commutes with their operations commutes with a
    family's commit and with a checkout: the theorems on the store with a record of its
    insertions carry over to the one without. *)

From S2P Require Import Prelude Cbor Refs HashTree HashTreeSim KeyIndex KeyStore KeyStoreOk KeyStoreSpec.
From S2P Require Import Walker FileSystem Family Checkout.
From S2P Require Models.

(** ** Checkouts *)

Section Checkout.
Context {S1 S2 : Type} (π : S1 → S2) `{BackendMorphism S1 S2 π}.
Context `{Cbor Models.HashRefs} `{Cbor Models.Files}.
Context {Fs : Type} `{!FileSystem Fs}.

Definition on_disk (x : S1 * Fs) : S2 * Fs := (π x.1, x.2).

Lemma on_fs_tracks {A} (m : M Fs A) : tracks on_disk (zoom snd_lens m) (zoom snd_lens m).
Proof. by apply tracks_zoom_same. Qed.

Lemma fold_each_tracks {T1 T2 A V} (ρ : T1 → T2) (f1 : V → A → M T1 V) (f2 : V → A → M T2 V) v l :
  (∀ v a, tracks ρ (f1 v a) (f2 v a)) → tracks ρ (fold_each f1 v l) (fold_each f2 v l).
Proof. intros Hf. revert v. induction l; intros v; cbn [fold_each]; track; done. Qed.

#[local] Hint Resolve on_fs_tracks leaf_next_tracks : tracks.

Lemma fetch_chunks_tracks fuel out : tracks (on_walk π) (fetch_chunks fuel out) (fetch_chunks fuel out).
Proof using All.
  revert out. induction fuel as [|fuel IH]; intros out; cbn [fetch_chunks].
  all: apply tracks_bind; [apply leaf_next_tracks, _|]; intros []; track; done.
Qed.

Lemma fetch_dir_tracks fuel h : tracks π (fetch_dir_data fuel h) (fetch_dir_data fuel h).
Proof using All.
  unfold fetch_dir_data. apply tracks_bind; [|done]. intros s. unfold with_walk.
  pose proof (fetch_chunks_tracks fuel [] (LeafIterator_new h s)) as Hf.
  change (LeafIterator_new h (π s)) with (on_walk π (LeafIterator_new h s)). rewrite Hf.
  by destruct (fetch_chunks fuel [] (LeafIterator_new h s)).
Qed.

Definition on_walk_disk (x : WalkState S1 (list bytes) * Fs) : WalkState S2 (list bytes) * Fs :=
  (on_walk π x.1, x.2).

Lemma write_file_chunks_tracks fuel fd :
  tracks on_walk_disk (write_file_chunks fuel fd) (write_file_chunks fuel fd).
Proof using All.
  assert (∀ fuel, tracks on_walk_disk (zoom fst_lens (leaf_next fuel)) (zoom fst_lens (leaf_next fuel))) as Hl.
  { intros n. by apply (tracks_zoom _ (on_walk π)); [apply leaf_next_tracks, _|..]. }
  assert (∀ A (m : M Fs A), tracks on_walk_disk (zoom snd_lens m) (zoom snd_lens m)) as Hs.
  { intros A m. by apply tracks_zoom_same. }
  induction fuel as [|fuel IH]; cbn [write_file_chunks].
  all: apply tracks_bind; [done|]; intros []; track; try done; by apply Hs.
Qed.

Lemma write_file_tracks fuel fd h : tracks on_disk (write_file fuel fd h) (write_file fuel fd h).
Proof using All.
  intros [s fs]. unfold write_file, on_disk. cbn [fst snd].
  pose proof (write_file_chunks_tracks fuel fd (LeafIterator_new h s, fs)) as Hf.
  change (LeafIterator_new h (π s), fs) with (on_walk_disk (LeafIterator_new h s, fs)). rewrite Hf.
  by destruct (write_file_chunks fuel fd (LeafIterator_new h s, fs)) as [r [w fs']].
Qed.

Lemma checkout_tracks fuel out h : tracks on_disk (checkout_dir_ref fuel out h) (checkout_dir_ref fuel out h).
Proof using All.
  revert out h. induction fuel as [|fuel IH]; intros out h; cbn [checkout_dir_ref]; [done|].
  apply tracks_bind; [apply on_fs_tracks|]. intros _. apply tracks_bind.
  { by apply (tracks_zoom _ π); [apply fetch_dir_tracks|..]. }
  intros es. apply fold_each_tracks. intros o [e c]. unfold checkout_entry.
  track; try done. by apply write_file_tracks.
Qed.

End Checkout.

(** ** Commits *)

Section Commit.
Context {S1 S2 P1 P2 R : Type} (π : S1 → S2) (ρ : P1 → P2) `{KeyMorphism S1 S2 π} `{!Reader R}.
Context `{Cbor Models.HashRefs} `{Cbor Models.HashRef} `{Cbor Models.Files}.
Context (f1 : Family S1 P1) (f2 : Family S2 P2).
Context (ks1 : lens P1 (InternalKeyIndex * S1)) (ks2 : lens P2 (InternalKeyIndex * S2)).
Hypothesis Hname : name f2 = name f1.
Hypothesis Hlast1 : last (key_store_process f1) = Some ks1.
Hypothesis Hlast2 : last (key_store_process f2) = Some ks2.
Hypothesis Hown1 : key_store f1 = ks1.
Hypothesis Hown2 : key_store f2 = ks2.
Hypothesis Hget : ∀ p, lget ks2 (ρ p) = on_key π (lget ks1 p).
Hypothesis Hset : ∀ x p, lset ks2 (on_key π x) (ρ p) = ρ (lset ks1 x p).
Context (top1 : bytes → M P1 unit) (top2 : bytes → M P2 unit).
Hypothesis Htop : ∀ h, tracks ρ (top1 h) (top2 h).

Lemma list_from_tracks q :
  tracks ρ (list_from_key_store (R := R) f1 q) (list_from_key_store (R := R) f2 q).
Proof using All.
  unfold list_from_key_store, last_process, send_reply. rewrite Hlast1, Hlast2. cbn [expect].
  change (tracks ρ (r ← zoom ks1 (handle (R := R) 0 (ListDir q)); match r with ListResult ls => mret ls | _ => unexpected end)
    (r ← zoom ks2 (handle (R := R) 0 (ListDir q)); match r with ListResult ls => mret ls | _ => unexpected end)).
  apply tracks_bind; [apply (tracks_zoom _ (on_key π)); [apply handle_tracks, _|done..]|].
  by intros [].
Qed.

Lemma on_tree_tracks {A} w (m1 : M (SimpleHashTreeWriter * S1) A) m2 :
  tracks (on_writer π) m1 m2 → tracks ρ (on_tree f1 w m1) (on_tree f2 w m2).
Proof using All.
  intros Hm. unfold on_tree. rewrite Hown1, Hown2.
  apply (tracks_zoom _ (on_key π)); [by apply with_writer_tracks|done..].
Qed.

Lemma commit_rounds_tracks n (e1 : DirElem → M P1 Models.File) e2 it w :
  (∀ el, tracks ρ (e1 el) (e2 el)) →
  tracks ρ (commit_rounds f1 n e1 it w) (commit_rounds f2 n e2 it w).
Proof using All.
  intros He. revert it w. induction n as [|n IH]; intros it w; cbn [commit_rounds].
  all: apply tracks_bind; [by apply mapM_tracks|]; intros fs; case_decide; try done.
  apply tracks_bind; [apply on_tree_tracks, append_tracks, _|]. intros [[] w']. apply IH.
Qed.

Lemma commit_to_tree_tracks fuel w q :
  tracks ρ (commit_to_tree (R := R) f1 fuel w q top1) (commit_to_tree (R := R) f2 fuel w q top2).
Proof using All.
  revert w q. induction fuel as [|fuel IH]; intros w q; cbn [commit_to_tree]; [done|].
  apply tracks_bind; [apply list_from_tracks|]. intros it. apply commit_rounds_tracks.
  intros [[e href] open]. unfold commit_entry. apply tracks_bind; [|done].
  destruct (key.data e); track; try done.
  by apply on_tree_tracks, hash_tracks, _.
Qed.

Lemma commit_tracks fuel now :
  tracks ρ (commit (R := R) f1 fuel now top1) (commit (R := R) f2 fuel now top2).
Proof using All.
  unfold commit. apply tracks_bind; [apply commit_to_tree_tracks|]. intros w. rewrite Hname.
  apply tracks_bind; [apply on_tree_tracks, hash_tracks, _|]. by intros [h w'].
Qed.

End Commit.
