(* ===== verification/ScanTree.v ===== *)
(** * What a scan leaves in the index of keys is what it saw

    The directories that a scan has seen as values, and that the index of keys lists them after
    the scan's commit. *)

From S2P Require Import Prelude Utf8 Cbor Refs Ordered Db HashTree KeyIndex KeyIndexOk KeyIndexScan.
From S2P Require Import KeyStore KeyStoreOk KeyStoreSpec Walker FileSystem Family FamilyOk.
From S2P Require Models.
Import key_schema (KeyNode, mkKeyNode, KeyData, mkKeyData, key_tree, key_data).

Definition of_kind (d : key.Data) (t : FileTree) : Prop :=
  match d, t with
  | key.FilePlaceholder, TFile _ => True
  | key.Symlink p, TLink p' => p' = p
  | key.DirPlaceholder, TDir _ => True
  | _, _ => False
  end.

(** What a row that says so is: a link or a directory, if it has no contents. *)
Definition of_row (d : KeyData) (t : FileTree) : Prop :=
  key_schema.hash d = None →
  match key_schema.symbolic_link_path d with Some p => t = TLink p | None => ∃ l, t = TDir l end.

(** [it] is what was seen of [i], with the contents that are known; [rec] says what was seen in
    a directory. *)
Record seen_as (rec : option Z → dir → Prop) (C : gmap Z bytes) (i : Z) (e : key.Entry) (sn : seen)
    (it : key.Info * FileTree) : Prop := {
  sa_name : key.name it.1 = key.name (key.info e);
  sa_read : ∀ c, sn = Read c → it.1 = shown_info e c ∧ of_kind (shown_data e c) it.2;
  sa_unchanged : ∀ d c, sn = Unchanged d c →
    it.1 = shown_info e c ∧ of_kind (shown_data e c) it.2 ∨
    it.1 = row_info (key.name (key.info e)) d ∧ of_row d it.2;
  sa_file : ∀ c, C !! i = Some c ↔ it.2 = TFile c;
  sa_dir : ∀ l, it.2 = TDir l → rec (Some i) l;
}.

(** What was seen in [q] and below it, to a depth of [n]: all of it once. *)
Fixpoint seen_dir (n : nat) (vs : scan) (C : gmap Z bytes) (q : option Z) (l : dir) : Prop :=
  match n with
  | O => False
  | S n => ∃ is_, is_ ≡ₚ seen_in vs q ∧
      Forall2 (λ i it, ∃ e sn, vs !! i = Some (e, sn) ∧ seen_as (seen_dir n vs C) C i e sn it) is_ l
  end.

Lemma Forall_choose {A B} (P : A → B → Prop) l :
  (∀ x, x ∈ l → ∃ y, P x y) → ∃ k, Forall2 P l k.
Proof.
  induction l as [|x l IH]; intros Hl; [by exists []|].
  destruct (Hl x ltac:(by left)) as [y Hy]. destruct IH as [k Hk]; [intros; apply Hl; by right|].
  exists (y :: k). by constructor.
Qed.

Section ScanTree.
Context {St R : Type} `{KeyBackendLaws St} `{ReaderLaws R}.
Context `{CborLaws Models.HashRefs} `{CborLaws Models.HashRef}.
Implicit Types (s : St) (x : InternalKeyIndex) (C : gmap Z bytes) (vs : scan).

Definition named vs : Prop :=
  ∀ i e sn, vs !! i = Some (e, sn) → Models.FileName_is_empty (key.name (key.info e)) = false.

Lemma row_info_wf name d : key.Info_wf (row_info name d).
Proof.
  split; cbn.
  all: match goal with |- from_option _ _ (_ <$> ?o) => destruct o; [apply as_u64_range|done] end.
Qed.

(** An entry that is listed as a directory or a link. *)
Lemma list_row_plain i n c d e' h :
  list_row (i, n, c, d) = Ok (e', h) → key_schema.hash d = None →
  match key_schema.symbolic_link_path d with
  | Some p => key.data e' = key.Symlink p ∧ from_utf8 p = Some p
  | None => key.data e' = key.DirPlaceholder
  end.
Proof.
  unfold list_row. intros (data & Hdata & (href & Hh & [= <- <-])%res_bind_Ok_inv)%res_bind_Ok_inv Hd.
  rewrite Hd in Hdata. cbn [key.data].
  destruct (key_schema.symbolic_link_path d) as [p|]; simplify_eq; [|done].
  apply res_bind_Ok_inv in Hdata as (p' & Hp' & [= <-]). cbn [key.data].
  unfold from_utf8 in *. by destruct (valid_utf8 p); simplify_eq/=.
Qed.

(** One row, as a value. *)
Lemma row_tree (rec1 rec2 : option Z → dir → Prop) C s i e sn d e' h :
  list_row (i, entry_node e, true, d) = Ok (e', h) → as_u64 i = i → entry_wf e →
  Models.FileName_is_empty (key.name (key.info e)) = false →
  seen_row e sn d →
  (∀ c, C !! i = Some c → file_row s d c) → (C !! i = None → key_schema.hash d = None) →
  (∃ l, rec1 (Some i) l ∧ rec2 (Some i) l) →
  ∃ t, indexed_as rec1 s (e', h) (key.info e', t) ∧ seen_as rec2 C i e sn (key.info e', t).
Proof.
  intros Hrow Hi Hwf Hnm Hsn HC Hplain (l & Hl1 & Hl2).
  destruct (list_row_ids _ _ _ _ _ _ Hrow) as (Hid & _ & Hname & _). rewrite Hi in Hid.
  assert (key.name (key.info e') = key.name (key.info e)) as Hname'.
  { rewrite Hname. apply Models.FileName_from_into_vec, Hwf. }
  assert (key.Info_wf (key.info e')) as Hiwf.
  { rewrite (list_row_info _ _ _ _ _ _ Hrow). apply row_info_wf. }
  assert (∃ t, of_kind (key.data e') t ∧ (∀ c, C !! i = Some c ↔ t = TFile c) ∧
    indexed_as rec1 s (e', h) (key.info e', t) ∧ (∀ l', t = TDir l' → l' = l)) as (t & Hk & HCt & Hix & Hdir).
  { unfold indexed_as. cbn [fst snd]. rewrite Hname', Hid. destruct (C !! i) as [c|] eqn:EC.
    - destruct (list_row_file s _ _ _ _ _ _ c Hrow (HC _ eq_refl)) as (Hd & hr & ls & -> & Hls & Hcat).
      exists (TFile c). rewrite Hd. split; [done|]. split; [naive_solver|]. split; [|done].
      split_and!; [done..|]. by exists hr, ls.
    - pose proof (list_row_plain _ _ _ _ _ _ Hrow (Hplain eq_refl)) as Hd.
      destruct (key_schema.symbolic_link_path d) as [p|]; [destruct Hd as [Hd Hp]|]; rewrite Hd.
      + exists (TLink p). split_and!; done.
      + exists (TDir l). split_and!; try done. by intros l' [= ->]. }
  exists t. split; [done|]. split; cbn [fst snd]; [done| | |done|].
  - intros c ->. destruct Hsn as [Hrr Hfile].
    destruct (list_row_read _ _ _ _ _ _ Hwf Hfile Hrr Hrow) as [<- <-]. done.
  - intros d0 c ->. destruct Hsn as [->|[Hrr Hfile]]; [right|left].
    + split; [by rewrite (list_row_info _ _ _ _ _ _ Hrow), <- Hname', Hname|].
      intros Hd. pose proof (list_row_plain _ _ _ _ _ _ Hrow Hd) as Hp. cbn [key_schema.symbolic_link_path
        key_schema.set_tag] in Hp. destruct (key_schema.symbolic_link_path d0) as [p|].
      * destruct Hp as [Hp _]. rewrite Hp in Hk. by destruct t; simplify_eq/=.
      * rewrite Hp in Hk. destruct t; try done. eauto.
    + by destruct (list_row_read _ _ _ _ _ _ Hwf Hfile Hrr Hrow) as [<- <-].
  - by intros l' ->%Hdir.
Qed.

(** The tables that a scan has left list what it saw. *)
Lemma scan_indexed V vs C po x s n q :
  listed_ok V po (cur x) → saw V vs → cast_id po → named vs →
  (∀ i nd d c, V !! i = Some (nd, d) → C !! i = Some c → file_row s d c) →
  (∀ i nd d, V !! i = Some (nd, d) → C !! i = None → key_schema.hash d = None) →
  count_above (key_tree (cur x)) q < n → reach V po q →
  ∃ l, indexed_dir n x s q l ∧ seen_dir n vs C q l.
Proof.
  intros Hlo Hsaw Hpo Hnm HC Hplain. revert q. induction n as [|n IH]; intros q Hn Hq; [lia|].
  destruct (listed_rows V vs x po q Hlo Hsaw Hpo Hq) as (es & Hes & Hids & Hrows).
  destruct (Forall_choose (λ (e' : key.Entry * option tree.HashRef) (r : Z * FileTree),
      key.node_id e'.1 = Some r.1 ∧ indexed_as (indexed_dir n x s) s e' (key.info e'.1, r.2) ∧
      ∃ e sn, vs !! r.1 = Some (e, sn) ∧ seen_as (seen_dir n vs C) C r.1 e sn (key.info e'.1, r.2)) es)
    as [rs Hrs].
  { intros [e' h] He'. destruct (Hrows _ He') as (i & e & sn & d & He & Hp & Hi & _ & HV & Hrow).
    destruct (saw_row _ _ Hsaw _ _ _ He) as (Hwf & Hce & d' & Hd' & Hsn). simplify_eq.
    assert (key_schema.parent_id (entry_node e) = key.parent_id e) as Hpar.
    { unfold entry_node. cbn [key_schema.parent_id]. by rewrite Hce. }
    destruct (lo_there _ _ _ Hlo _ _ _ _ Hq HV Hpar) as [m Hm].
    destruct (co_node _ _ (lo_committed _ _ _ Hlo) _ _ _ _ HV Hm) as [-> _].
    pose proof (count_above_child _ _ _ _ (ok_tree _ (co_tables _ _ (lo_committed _ _ _ Hlo))) Hm Hpar).
    destruct (row_tree (indexed_dir n x s) (seen_dir n vs C) C s i e sn d e' h)
      as (t & Hix & Hse); [done|done|done|by eapply Hnm|done|by eauto..| |].
    { apply IH; [lia|]. by eapply reach_child. }
    exists (i, t). cbn [fst snd]. split_and!; [|done|by exists e, sn].
    destruct (list_row_ids _ _ _ _ _ _ Hrow) as (-> & _). by rewrite Hi. }
  exists (zip_with (λ (e' : key.Entry * option tree.HashRef) (r : Z * FileTree), (key.info e'.1, r.2)) es rs).
  clear Hrows. split.
  - exists es. split; [done|]. clear Hes Hids. induction Hrs as [|e' r es rs (_ & Hix & _) _ IH']; constructor; done.
  - exists rs.*1. split.
    + apply (fmap_Permutation (default 0%Z)) in Hids. rewrite <- !list_fmap_compose in Hids.
      rewrite list_fmap_id in Hids. rewrite <- Hids. clear Hes Hids.
      induction Hrs as [|e' r es rs (Hid & _) _ IH']; [done|]. cbn in *. by rewrite Hid, IH'.
    + clear Hes Hids. induction Hrs as [|e' r es rs (_ & _ & Hse) _ IH']; constructor; done.
Qed.

(** The contents that a scan has read are known. *)
Lemma scanned_contents C0 ks0 vs C ks1 :
  scanned (R := R) C0 ks0 vs C ks1 → ∀ i e c, vs !! i = Some (e, Read c) → C !! i = c.
Proof.
  induction 1 as [|vs C ks e src c fuel i ks' _ IH _ _ _|vs C ks e src c d fuel i ks' _ IH _ _ _];
    intros j e' c'; [by rewrite lookup_empty|..]; rewrite lookup_insert_Some.
  all: intros [[<- Heq]|[Hne Hj]]; simplify_eq.
  - unfold contents. by rewrite lookup_partial_alter_eq.
  - unfold contents. rewrite lookup_partial_alter_ne by done. by eapply IH.
  - case_decide; [|rewrite lookup_delete_ne by done]; by eapply IH.
Qed.

End ScanTree.
