(* ===== verification/BackupSpec.v ===== *)
(** * A backup from the scan to the checkout

    On the real store: a scan of files into the index of keys, the family's commit into hash
    trees, a flush, and the checkout of the reference that the commit has returned. *)

From S2P Require Import Prelude Utf8 Cbor Codec Refs Ordered Upq Timer Db Crypto ModelSodium.
From S2P Require Import HashIndex Backend Blob BlobStore ModelWorld HashTree HashTreeSim HashStore.
From S2P Require Import StoreIndex HashStoreOk HashStoreSpec Hat KeyIndex KeyIndexOk KeyIndexScan.
From S2P Require Import KeyStore KeyStoreOk KeyStoreSpec Walker FileSystem Family FamilyOk Checkout.
From S2P Require Import CheckoutSpec FamilySim ScanTree.
From S2P Require Models.
Import key_schema (KeyNode, mkKeyNode, KeyData, mkKeyData, key_tree, key_data).

(** A family with one process. *)
Definition whole {W} : lens W W := Lens (λ s, s) (λ s _, s).

#[global] Instance whole_laws {W} : LensLaws (@whole W).
Proof. by split. Qed.

Definition sole_family {St} (name : bytes) : Family St (InternalKeyIndex * St) :=
  mkFamily name whole [whole].

(** ** What a scan leaves to commit *)

Section Scan.
Context {St R : Type} `{KeyBackendLaws St} `{ReaderLaws R}.
Context `{CborLaws Models.HashRefs} `{CborLaws Models.HashRef}.
Implicit Types (C : gmap Z bytes) (vs : scan) (ks : InternalKeyIndex * St).

(** What looked unchanged has contents that are known, or is no file. *)
Definition known_or_plain vs C (x : InternalKeyIndex) : Prop :=
  ∀ i e d c, vs !! i = Some (e, Unchanged d c) → is_Some (C !! i) ∨
    ∃ d, top_row (cur x) i = Some d ∧ key_schema.hash d = None.

(** What was not seen is below [po]. *)
Definition outside_seen vs (po : option Z) (x : InternalKeyIndex) : Prop :=
  ∀ k, is_Some (key_tree (cur x) !! k) → vs !! k = None → under (key_tree (cur x)) po k.

Lemma scan_committed C0 ks0 vs C ks1 po :
  Store_ok ∅ C0 ks0 → scanned (R := R) C0 ks0 vs C ks1 → cast_id po → named vs →
  known_or_plain vs C ks1.1 → outside_seen vs po ks1.1 →
  ∃ x2 l, (∀ fuel, handle fuel (CommitReservedNodes (R := R) (Some po)) ks1 = (Ok ReplyOk, (x2, ks1.2))) ∧
    backend_ok ks1.2 ∧ let n := S (size (key_tree (cur x2))) in
    indexed_dir n x2 ks1.2 None l ∧ seen_dir n vs C None l.
Proof.
  intros H0s Hscan Hpo Hnm Hkp Hout.
  destruct (scanned_ok _ _ _ _ _ H0s Hscan) as (V & (Hs & Hb & HC) & Hsaw).
  destruct ks1 as [x1 s1]. cbn [fst snd] in *.
  destruct (scan_cleaned V x1 po Hs Hpo) as (y & x2 & Hy & Hx2 & _ & _ & Htop).
  assert (listed_ok V None (cur x2)) as Hlo.
  { apply Htop. intros k Hk HV. apply Hout; [done|]. destruct (vs !! k) as [[e sn]|] eqn:E; [|done].
    destruct (saw_row _ _ Hsaw _ _ _ E) as (_ & _ & d & Hd & _). congruence. }
  assert (∀ i n d, V !! i = Some (n, d) → top_row (cur x1) i = Some d) as HV.
  { intros i n d Hi. by destruct (sc_node _ _ Hs _ _ _ Hi) as (_ & ? & _). }
  destruct (scan_indexed V vs C None x2 s1 (S (size (key_tree (cur x2)))) None)
    as (l & Hix & Hse); [done..| | |simpl; lia|constructor|].
  - intros i n d c Hi HCi. destruct (HC _ _ HCi) as (d' & Htop' & ?). rewrite (HV _ _ _ Hi) in Htop'.
    by simplify_eq.
  - intros i n d Hi HCi. destruct (saw_only _ _ Hsaw _ _ Hi) as [[e [c|]] He].
    + pose proof (scanned_contents _ _ _ _ _ Hscan _ _ _ He) as Hc. rewrite HCi in Hc. subst c.
      destruct (saw_row _ _ Hsaw _ _ _ He) as (_ & _ & d' & Hd' & Hrow & _). simplify_eq.
      by inversion Hrow.
    + destruct (Hkp _ _ _ _ He) as [[c Hc]|(d' & Htop' & Hd')]; [congruence|].
      rewrite (HV _ _ _ Hi) in Htop'. by simplify_eq.
  - exists x2, l. split_and!; [|done..]. intros fuel. cbn [handle]. unfold on_index.
    run_with (zoom_Ok fst_lens _ (x1, s1) _ _ Hy). cbn [lset fst_lens fst snd].
    by run_with (zoom_Ok fst_lens _ (y, s1) _ _ Hx2).
Qed.

(** The commit of what the index lists. *)
Lemma sole_commit `{CborLaws Models.Files} name n fuel now top l ks h ks1 :
  (∀ h ks, backend_ok ks.2 → wp (top h) ks (λ _ ks', backend_ok ks'.2 ∧ ks'.1 = ks.1 ∧ later ks.2 ks'.2)) →
  n < fuel → backend_ok ks.2 → indexed_dir (S n) ks.1 ks.2 None l →
  commit (R := R) (sole_family name) fuel now top ks = (Ok h, ks1) →
  backend_ok ks1.2 ∧ stored_dir (S n) ks1.2 h l.
Proof.
  intros Htop Hn Hks Hdir Hcom.
  assert (wp (commit (R := R) (sole_family name) fuel now top) ks (λ h ks', ready whole ks' ∧ kept whole ks ks' ∧
    stored_dir (S n) (lget whole ks').2 h l)) as Hw.
  { eapply family_commit_wp; [done..| |done|done|done].
    intros h' ks' Hks'. eapply wp_mono; [by apply Htop|]. intros _ ks2 (? & ? & ?). done. }
  by pose proof (wp_Ok_inv _ _ _ _ _ Hw Hcom) as (? & _ & ?).
Qed.

End Scan.

(** ** The real store *)

Section Real.
Context `{SodiumLaws} `{LruCacheLaws}.
Context `{CborLaws Models.ChunkRef} `{CborLaws Models.HashIds} `{CborLaws Models.HashRef}.
Context `{CborLaws Models.HashRefs} `{CborLaws Models.Files}.
Context {B : Type} `{StoreBackendLaws (list Z) B}.
Context {R : Type} `{ReaderLaws R} {Fs : Type} `{FileSystemLaws Fs}.
Implicit Types s : Store Z B.

#[local] Existing Instance logged_store_backend | 5.
#[local] Existing Instance store_backend | 5.
#[local] Existing Instance logged_store_laws.
#[local] Existing Instance logged_store_morphism.

(** Tags are nothing that the store promises. *)
Lemma set_tag_wp hist id t s :
  store_ready hist s →
  wp (zoom hi_lens (HashIndex.set_tag id t)) s (λ _ s', store_ready hist s' ∧ same_promises s s').
Proof.
  intros Hs. apply wp_zoom. eapply wp_mono.
  - apply (set_tag_index_wp (entry_ok hist s) (row_ok hist s)); [|apply Hs]. by intros z [].
  - intros [] y (Hy & Hb & Hq). split; [|by apply same_promises_hi, same_blobs_names].
    unfold store_ready in *. eapply HashStore_ok_hi; [exact Hs|by apply same_blobs_names| |exact Hy].
    rewrite Hq. apply Hs.
Qed.

Lemma reserve_hash_wp hist h s :
  store_ready hist s → wp (reserve_hash h) s (λ _ s', store_ready hist s' ∧ same_promises s s').
Proof.
  intros Hs. unfold reserve_hash. apply wp_bind, wp_zoom. unfold get_id. apply wp_assert. intros _. apply wp_bind.
  eapply wp_mono; [eapply locate_index_wp, (ok_index _ _ _ _ Hs)|]. intros o y [-> _].
  apply wp_ret. replace (lset hi_lens (lget hi_lens s) s) with s by by destruct s.
  apply wp_bind. destruct (q_id <$> o) as [id|]; [|done]. eapply wp_Ok; [done|]. by apply set_tag_wp.
Qed.

Lemma logged_reserve hist h s :
  store_ready hist s →
  wp (reserve_hash h) s (λ _ s', store_ready hist s' ∧ later (s, hist) (s', hist)).
Proof.
  intros Hs. eapply wp_mono; [by apply (reserve_hash_wp hist)|]. intros _ s' [Hs' Hsame].
  split; [done|]. intros h' d' Hst Hc. cbn [fst snd] in *. rewrite (same_keys _ _ Hsame) in Hc.
  destruct (Hst Hc) as [? ?]. split; [by eapply promised_same|done].
Qed.

(** A family's commit, as the repository runs it. *)
Definition hat_commit (name : bytes) (fuel : nat) (now : Z) : M (InternalKeyIndex * Store Z B) tree.HashRef :=
  commit (R := R) (sole_family name) fuel now (λ h, on_store (reserve_hash h)).

(** With the record of insertions. *)
Definition logged_commit (name : bytes) (fuel : nat) (now : Z)
    : M (InternalKeyIndex * (Store Z B * history)) tree.HashRef :=
  commit (R := R) (sole_family name) fuel now (λ h, on_store (zoom fst_lens (reserve_hash h))).

Lemma logged_commit_run name fuel now x s hist h x' s' :
  hat_commit name fuel now (x, s) = (Ok h, (x', s')) →
  ∃ hist', logged_commit name fuel now (x, (s, hist)) = (Ok h, (x', (s', hist'))).
Proof.
  intros Hrun.
  assert (hat_commit name fuel now (x, s) = ((logged_commit name fuel now (x, (s, hist))).1,
    on_key fst (logged_commit name fuel now (x, (s, hist))).2)) as Ht.
  { refine (commit_tracks (R := R) fst (on_key fst) (sole_family name) (sole_family name) whole whole
      eq_refl eq_refl eq_refl eq_refl eq_refl _ _ (λ h, on_store (zoom fst_lens (reserve_hash h)))
      (λ h, on_store (reserve_hash h)) _ fuel now (x, (s, hist))); [done..|].
    intros h'. apply on_store_tracks. intros [s1 hist1]. unfold zoom. cbn. by destruct (reserve_hash h' s1). }
  rewrite Hrun in Ht. destruct (logged_commit _ _ _ _) as [r [x1 [s1 hist1]]].
  unfold on_key in Ht. cbn [fst snd] in Ht. injection Ht as <- <- <-. by exists hist1.
Qed.

(** What a commit asks the store to insert, after what it was asked before. *)
Definition commit_inserts name fuel now (x : InternalKeyIndex) s (hist : history) : history :=
  (logged_commit name fuel now (x, (s, hist))).2.2.2.

(** Committing what the index lists, flushing and checking out. *)
Lemma committed_restored (hist1 : history) x2 s1 l n :
  store_ready hist1 s1 → indexed_dir (S n) x2 (s1, hist1) None l →
  ∀ name fuel now h ks3 fuel4 ks4, n < fuel →
    hat_commit name fuel now (x2, s1) = (Ok h, ks3) →
    handle fuel4 (Flush (R := R)) ks3 = (Ok FlushOk, ks4) →
    collision_free (st_keys ks4.2) (commit_inserts name fuel now x2 s1 hist1) →
    ∀ (fs : Fs) out, restorable takes out l → fs_ok fs → out_ready (view fs) out →
    ∃ N s5 fs', (∀ fuel5, N ≤ fuel5 → checkout_dir_ref fuel5 out h (ks4.2, fs) = (Ok out, (s5, fs'))) ∧
      fs_ok fs' ∧ restored l out (view fs) (view fs').
Proof.
  intros Hs1 Hix name fuel now h [x3 s3] fuel4 [x4 s4] Hn Hrun Hflush Hc fs out Hres Hfs Hready.
  destruct (logged_commit_run name fuel now x2 s1 hist1 h x3 s3 Hrun) as [hist3 Hlog].
  unfold commit_inserts in Hc. rewrite Hlog in Hc. cbn [snd] in Hc.
  destruct (sole_commit (R := R) name n fuel now
    (λ h, on_store (zoom fst_lens (reserve_hash h))) l (x2, (s1, hist1)) h (x3, (s3, hist3)))
    as [Hs3 Hst]; [|done..|].
  { intros h' [x [s hist']] Hks. apply wp_zoom, wp_zoom.
    eapply wp_mono; [by apply (logged_reserve hist')|]. by intros _ s' [? ?]. }
  destruct (flush_ready hist3 fuel4 x3 s3 x4 s4 Hs3 Hflush) as (Hs4 & Hz & Hlog4).
  destruct (flush_run (R := R) fuel4 (x3, (s3, hist3)) _ Hs3 Hlog4) as (_ & _ & _ & Hl).
  destruct (checkout_ends (S n) out l h (s4, hist3) fs)
    as (N & out' & [[s5 h5] fs'] & Hends & Hleaves); [done|by eapply stored_dir_later|done..|].
  destruct Hleaves as (-> & _ & _ & Hfs' & Hres'). exists N, s5, fs'. split_and!; [|done|exact Hres'].
  intros fuel5 Hf. pose proof (checkout_tracks fst fuel5 out h ((s4, hist3), fs)) as Htr.
  rewrite (Hends fuel5 Hf) in Htr. exact Htr.
Qed.

(** C4: Scan a directory tree into a family's index of keys, starting from whatever tables in order
    a crash has left, whose nodes are seen or below the scanned directory; commit the scan with
    its clean-up, commit the family into hash trees, flush, and check the reference out into a
    new or empty directory. Then what was seen is
    there and nothing else: every file with the contents it had, every link and every directory
    at every depth, with their permissions and times; the rest of the file system is as it was.
    A file that looked unchanged gets its known contents. *)
Theorem backup_restored (hist hist1 : history) t secs clk x0 s0 C0 vs C x1 s1 po :
  Tables_ok t → KeyIndex_new t secs clk = Ok x0 → store_ready hist s0 →
  known_contents s0 hist x0 C0 →
  scanned (R := R) C0 (x0, (s0, hist)) vs C (x1, (s1, hist1)) → cast_id po →
  named vs → known_or_plain vs C x1 → outside_seen vs po x1 →
  ∃ x2 l, (∀ fuel, handle fuel (CommitReservedNodes (R := R) (Some po)) (x1, s1) = (Ok ReplyOk, (x2, s1))) ∧
    let n := size (key_tree (cur x2)) in seen_dir (S n) vs C None l ∧
    ∀ name fuel now h ks3 fuel4 ks4, n < fuel →
      hat_commit name fuel now (x2, s1) = (Ok h, ks3) →
      handle fuel4 (Flush (R := R)) ks3 = (Ok FlushOk, ks4) →
      collision_free (st_keys ks4.2) (commit_inserts name fuel now x2 s1 hist1) →
      ∀ (fs : Fs) out, restorable takes out l → fs_ok fs → out_ready (view fs) out →
      ∃ N s5 fs', (∀ fuel5, N ≤ fuel5 → checkout_dir_ref fuel5 out h (ks4.2, fs) = (Ok out, (s5, fs'))) ∧
        fs_ok fs' ∧ restored l out (view fs) (view fs').
Proof.
  intros Ht Hx Hs0 HC Hscan Hpo Hnm Hkp Hout.
  destruct (scan_committed C0 (x0, (s0, hist)) vs C (x1, (s1, hist1)) po)
    as (x2 & l & Hcom & Hs1 & Hix & Hse); [by eapply Store_start|done..|]. cbn [fst snd] in *.
  exists x2, l. split.
  { intros fuel. pose proof (handle_tracks fst fuel (CommitReservedNodes (R := R) (Some po))
      (x1, (s1, hist1))) as Htr. rewrite Hcom in Htr. exact Htr. }
  split; [exact Hse|]. by apply committed_restored.
Qed.

End Real.

(** ** Runs *)

Section Runs.

Import ModelSodium ModelWorld MemoryBackend.

#[local] Existing Instance model_sodium.
#[local] Existing Instance model_laws.
#[local] Existing Instance model_lru.
#[local] Existing Instance model_lru_laws.
#[local] Existing Instance chunk_ref_cbor.
#[local] Existing Instance chunk_ref_laws.
#[local] Existing Instance ids_cbor.
#[local] Existing Instance ids_laws.
#[local] Existing Instance href_cbor.
#[local] Existing Instance href_laws.
#[local] Existing Instance hrefs_cbor.
#[local] Existing Instance hrefs_laws.
#[local] Instance files_cbor : Cbor Models.Files := codec_cbor.
#[local] Instance files_laws : CborLaws Models.Files := codec_cbor_laws.
#[local] Existing Instance logged_store_backend | 5.
#[local] Existing Instance store_backend | 5.

Abbreviation reader := (FileIterator Empty_set).

(** A file system with a root. *)
Definition root_only : gmap Path FsNode := {[ [] := mkFsNode KDir 493 (0, 0)%Z ]}.

Definition out_dir : Path := [lit "out"].

Definition restored_file (fs : gmap Path FsNode) : bool :=
  match fs !! [lit "out"; lit "d"; lit "a"] with
  | Some n => bool_decide (kind n = KFile (lit "hello")) && bool_decide (perm n = 420%Z)
  | None => false
  end.

(** The family's part of a backup, and the restored file. *)
Definition backup_check (ks : InternalKeyIndex * (Store Z MemoryBackend * history)) : bool :=
  check_run (handle (R := reader) 5 (CommitReservedNodes (Some None)) (ks.1, ks.2.1)) (λ _ ks2,
  check_run (hat_commit (R := reader) (lit "home") 10 1000 ks2) (λ h ks3,
  check_run (handle (R := reader) 5 Flush ks3) (λ _ ks4,
  free_of_collisions (st_keys ks4.2)
    (commit_inserts (R := reader) (lit "home") 10 1000 ks2.1 ks2.2 ks.2.2) &&
  check_run (checkout_dir_ref 50 out_dir h (ks4.2, root_only)) (λ _ x, restored_file x.2)))).

(** The scan's file is restored. *)
Lemma backup_runs_restored : scan_from_new backup_check = true.
Proof. vm_compute. reflexivity. Qed.

Lemma scan_seen_named d : named (scan_seen d).
Proof.
  intros i e sn. unfold scan_seen. rewrite !lookup_insert_Some, lookup_empty.
  intros Hi. repeat match goal with
    | H : _ ∨ _ |- _ => destruct H | H : _ ∧ _ |- _ => destruct H end; by simplify_eq.
Qed.

Lemma scan_seen_known d C x : C !! 2%Z = Some (lit "hello") → known_or_plain (scan_seen d) C x.
Proof.
  intros HC i e d' c'. unfold scan_seen. rewrite !lookup_insert_Some, lookup_empty.
  intros Hi. repeat match goal with
    | H : _ ∨ _ |- _ => destruct H | H : _ ∧ _ |- _ => destruct H end; simplify_eq; eauto.
Qed.

Lemma root_out_ready : out_ready root_only out_dir.
Proof.
  split.
  - intros p _. apply lookup_singleton_ne. done.
  - left. split; [exists [], (lit "out")|exists (mkFsNode KDir 493 (0, 0)%Z)|done|done].
    + split; [done|]. by apply (bool_decide_unpack _); vm_compute.
    + done.
Qed.

Lemma backup_restored_witness :
  ∃ (x1 : InternalKeyIndex) (s1 : Store Z MemoryBackend) hist1 C d, C !! 2%Z = Some (lit "hello") ∧
    backup_check (x1, (s1, hist1)) = true ∧ out_ready root_only out_dir ∧
  ∃ x2 l, (∀ fuel, handle fuel (CommitReservedNodes (R := reader) (Some None)) (x1, s1)
      = (Ok ReplyOk, (x2, s1))) ∧
    let n := size (key_tree (cur x2)) in seen_dir (S n) (scan_seen d) C None l ∧
    ∀ name fuel now h ks3 fuel4 ks4, n < fuel →
      hat_commit (R := reader) name fuel now (x2, s1) = (Ok h, ks3) →
      handle fuel4 (Flush (R := reader)) ks3 = (Ok FlushOk, ks4) →
      collision_free (st_keys ks4.2) (commit_inserts (R := reader) name fuel now x2 s1 hist1) →
      ∀ (fs : gmap Path FsNode) out, restorable takes out l → fs_ok fs → out_ready (view fs) out →
      ∃ N s5 fs', (∀ fuel5, N ≤ fuel5 → checkout_dir_ref fuel5 out h (ks4.2, fs) = (Ok out, (s5, fs'))) ∧
        fs_ok fs' ∧ restored l out (view fs) (view fs').
Proof.
  destruct (scan_run backup_check backup_runs_restored)
    as (s & x & x5 & s5 & h5 & C & d & Es & Ex & Hscan & HC & Hk).
  exists x5, s5, h5, C, d. split; [exact HC|]. split; [exact Hk|]. split; [exact root_out_ready|].
  exact (backup_restored (R := reader) (Fs := gmap Path FsNode) [] h5 key_schema.empty 5 zero_clock
    x s ∅ (scan_seen d) C x5 s5 None no_keys_ok Ex (new_store_ready s Es)
    ltac:(intros k c Hk'; by rewrite lookup_empty in Hk') Hscan eq_refl (scan_seen_named d)
    (scan_seen_known d C x5 HC) ltac:(done)).
Defined.

End Runs.
