(* ===== verification/ScanOk.v ===== *)
(** * A scan of a directory that stands still

    Under any schedule of the threads, what [snapshot_dir] inserts into the index of keys is what
    the operating system shows: every node of the scan is a path, in the place that its path
    says, with its kind, its information and its contents. *)

From S2P Require Import Prelude Utf8 Cbor Refs Ordered Timer Db HashTree KeyIndex KeyIndexOk KeyIndexScan.
From S2P Require Import KeyStore KeyStoreOk KeyStoreSpec Walker FileSystem ListDir Family FamilyOk Scan ScanTree BackupSpec.
From S2P Require Models.
Import key_schema (KeyNode, mkKeyNode, KeyData, mkKeyData, key_tree, key_data).

(** ** The path of a node *)

Inductive node_path (t : gmap Z KeyNode) : option Z → Path → Prop :=
  | node_path_root : node_path t None []
  | node_path_child po p k n : node_path t po p → t !! k = Some n → key_schema.parent_id n = po →
      node_path t (Some k) (p ++ [key_schema.name n]).

Lemma node_path_mono (t t' : gmap Z KeyNode) po p :
  (∀ k n, t !! k = Some n → t' !! k = Some n) → node_path t po p → node_path t' po p.
Proof. intros Ht. induction 1; econstructor; eauto. Qed.

Lemma node_path_fun t po p p' : node_path t po p → node_path t po p' → p = p'.
Proof.
  intros Hp. revert p'. induction Hp as [|po p k n Hp IH Hk Hn]; intros p' Hp'; inversion Hp'; subst; [done|].
  simplify_eq. f_equal. by apply IH.
Qed.

Lemma node_path_nil t po : node_path t po [] → po = None.
Proof. inversion 1 as [|? p ? ? ? ? ?]; [done|]. by destruct p. Qed.

Lemma node_path_snoc t po p n : node_path t po (p ++ [n]) →
  ∃ k m, po = Some k ∧ t !! k = Some m ∧ key_schema.name m = n ∧ node_path t (key_schema.parent_id m) p.
Proof.
  intros Hp. inversion Hp as [E1 E2|po1 p1 k m Hp1 Hk Hm E1 E2]; subst.
  - by destruct p.
  - apply app_inj_2 in E2 as [-> [= <-]]; [|done]. by exists k, m.
Qed.

Lemma node_path_inj t po po' p :
  (∀ k1 k2 n, t !! k1 = Some n → t !! k2 = Some n → k1 = k2) →
  node_path t po p → node_path t po' p → po = po'.
Proof.
  intros Ht Hp. revert po'. induction Hp as [|po p k n Hp IH Hk Hn]; intros po' Hp'.
  - symmetry. by eapply node_path_nil.
  - apply node_path_snoc in Hp' as (k' & m & -> & Hk' & Hm & Hp'). apply IH in Hp' as ->.
    f_equal. eapply Ht; [exact Hk|]. rewrite Hk'. f_equal. destruct n, m; simpl in *; by subst.
Qed.

Lemma node_path_total t k : tree_ok t → is_Some (t !! k) → ∃ p, node_path t (Some k) p.
Proof.
  intros Ht. induction k as [k IH] using (well_founded_induction (Z.lt_wf 0)). intros [n Hk].
  destruct (Ht _ _ Hk) as [Hpos Hpar]. destruct (key_schema.parent_id n) as [p|] eqn:Ep.
  - destruct (Hpar p eq_refl) as [Hlt Hp]. pose proof Hp as [m Hm]. destruct (Ht _ _ Hm) as [? _].
    destruct (IH p) as [q Hq]; [lia|done|]. eexists. by econstructor.
  - exists ([] ++ [key_schema.name n]). eapply node_path_child; [constructor|done|done].
Qed.

Lemma node_path_in t po p : node_path t po p → ∀ k, po = Some k → is_Some (t !! k).
Proof. destruct 1; [done|]. intros ? [= <-]. by eexists. Qed.

(** What is longer is further down. *)
Lemma node_path_under t po p r : node_path t po (p ++ r) →
  ∃ po', node_path t po' p ∧ (r = [] → po' = po) ∧ (r ≠ [] → ∃ k, po = Some k ∧ under t po' k).
Proof.
  revert po. induction r as [|n r IH] using rev_ind; intros po Hp.
  { rewrite app_nil_r in Hp. by exists po. }
  rewrite app_assoc in Hp. apply node_path_snoc in Hp as (k & m & -> & Hk & _ & Hp1).
  destruct (IH _ Hp1) as (po' & Hp' & Hnil & Hcons).
  exists po'. split_and!; [done|by intros []%app_nil|]. intros _. exists k. split; [done|].
  destruct po' as [k'|]; [|done]. cbn [under]. destruct r as [|r0 r].
  - apply tc_once. exists m. by rewrite <- Hnil.
  - destruct (Hcons ltac:(done)) as (k1 & Hk1 & Hu). eapply tc_l; [|exact Hu]. by exists m.
Qed.

(** ** What the operating system shows *)

(** Metadata, targets of links, listings, contents that can be read, and canonical paths. *)
Record OsView := mkOsView {
  meta_of : Path → option FileMeta;
  link_of : Path → option bytes;
  entries_of : Path → option (list (Path + error));
  file_of : Path → option bytes;
  real_path : Path → option Path;
}.

Definition answers {A} (x : option A) (r : res A) : Prop :=
  match x with Some a => r = Ok a | None => ∃ e, r = Err e end.

Definition readable_paths (es : list (Path + error)) : list Path :=
  omap (λ e, match e with inl q => Some q | inr _ => None end) es.

Lemma elem_of_readable q es : q ∈ readable_paths es ↔ inl q ∈ es.
Proof.
  unfold readable_paths. rewrite list_elem_of_omap. split.
  - intros ([q'|] & Hin & [= <-]). done.
  - intros Hin. by exists (inl q).
Qed.

(** A directory lists its entries once each; the numbers are in their ranges. *)
Record view_ok (v : OsView) : Prop := {
  vw_names : ∀ p es q, entries_of v p = Some es → inl q ∈ es → ∃ n, q = p ++ [n] ∧ plain n;
  vw_once : ∀ p es, entries_of v p = Some es → NoDup (readable_paths es);
  vw_meta : ∀ q m, meta_of v q = Some m → let m := file_meta m in
    is_u32 (key.mode m) ∧ is_u64 (key.st_uid m) ∧ is_u64 (key.st_gid m) ∧ is_u64 (key.len m);
}.

(** *** What is below a directory *)

Scheme below_mut := Minimality for below Sort Prop
  with entries_mut := Minimality for ListDir.entries Sort Prop.

Section Below.
Context (dir : Path → option (list (Path + error))) (go : Path → bool).
Hypothesis Hnames : ∀ p es q, dir p = Some es → inl q ∈ es → ∃ n, q = p ++ [n].
Hypothesis Honce : ∀ p es, dir p = Some es → NoDup (readable_paths es).

Definition closed_in (l : list Path) : Prop :=
  ∀ r es q, r ∈ l → go r = true → dir r = Some es → inl q ∈ es → q ∈ l.

Lemma extends_inj (p p' r r' : Path) : p ++ r = p' ++ r' → length p = length p' → p = p'.
Proof. intros E Hl. by apply app_inj_1 in E as [? _]. Qed.

Record below_facts (root : Path) (l : list Path) : Prop := {
  bf_root : ∀ es q, dir root = Some es → inl q ∈ es → q ∈ l;
  bf_closed : closed_in l;
  bf_once : NoDup l;
  bf_extends : ∀ q, q ∈ l → ∃ r, r ≠ [] ∧ q = root ++ r;
}.

Record entries_facts (es : list (Path + error)) (l : list Path) : Prop := {
  ef_in : ∀ q, inl q ∈ es → q ∈ l;
  ef_closed : closed_in l;
  ef_once : NoDup l;
  ef_extends : ∀ x, x ∈ l → ∃ q r, inl q ∈ es ∧ x = q ++ r;
}.

(** A list of siblings. *)
Definition siblings (es : list (Path + error)) : Prop :=
  NoDup (readable_paths es) ∧ ∃ k, ∀ q, inl q ∈ es → length q = k.

Lemma siblings_cons e es : siblings (e :: es) → siblings es.
Proof.
  intros [Hn [k Hk]]. split.
  - destruct e; cbn in Hn; [by apply NoDup_cons in Hn as [_ ?]|done].
  - exists k. intros q Hq. apply Hk. by right.
Qed.

Lemma siblings_apart q es q' r r' :
  siblings (inl q :: es) → inl q' ∈ es → q ++ r ≠ q' ++ r'.
Proof.
  intros [Hn [k Hk]] Hq' E. cbn in Hn. apply NoDup_cons in Hn as [Hq _]. apply Hq, elem_of_readable.
  rewrite (extends_inj q q' r r'); [done|done|]. rewrite (Hk q), (Hk q'); [done|by right|by left].
Qed.

Lemma below_ok root l n : below dir go root l n → below_facts root l.
Proof using Hnames Honce.
  intros Hb. refine (below_mut dir go (λ root l _, below_facts root l)
    (λ es l _, siblings es → entries_facts es l) _ _ _ _ _ _ root l n Hb); clear root l n Hb.
  - intros root Hd. split; [congruence| |constructor|]; [intros r ? ? Hr|intros r Hr]; by apply elem_of_nil in Hr.
  - intros root es l n Hd _ IH. destruct IH as [Hin Hcl Hnd Hext].
    { split; [by eapply Honce|]. exists (S (length root)). intros q Hq.
      destruct (Hnames _ _ _ Hd Hq) as [m ->]. rewrite length_app. simpl. lia. }
    split; [|done|done|].
    + intros es' q Hd' Hq. simplify_eq. by apply Hin.
    + intros x (q & r & Hq & ->)%Hext. destruct (Hnames _ _ _ Hd Hq) as [m ->].
      exists (m :: r). split; [done|]. by rewrite <- app_assoc.
  - intros _. split; [by intros q ?%elem_of_nil|by intros r ? ? ?%elem_of_nil|constructor|by intros x ?%elem_of_nil].
  - intros e es l n _ IH Hs. destruct (IH (siblings_cons _ _ Hs)) as [Hin Hcl Hnd Hext]. split; [|done|done|].
    + intros q [?|Hq]%elem_of_cons; [done|]. by apply Hin.
    + intros x (q & r & Hq & ->)%Hext. exists q, r. split; [by right|done].
  - intros q es l n Hg _ IH Hs. destruct (IH (siblings_cons _ _ Hs)) as [Hin Hcl Hnd Hext]. split.
    + intros q' [[= ->]|Hq]%elem_of_cons; [by left|]. right. by apply Hin.
    + intros r es' q' [->|Hr]%elem_of_cons Hgr Hd Hq'; [congruence|]. right. by eapply Hcl.
    + apply NoDup_cons. split; [|done]. intros (q' & r & Hq' & E)%Hext.
      eapply (siblings_apart q es q' [] r Hs Hq'). by rewrite app_nil_r.
    + intros x [->|(q' & r & Hq & ->)%Hext]%elem_of_cons.
      * exists q, []. rewrite app_nil_r. split; [by left|done].
      * exists q', r. split; [by right|done].
  - intros q es lq nq l n Hg _ [Hr0 Hcl0 Hnd0 Hext0] _ IH Hs.
    destruct (IH (siblings_cons _ _ Hs)) as [Hin Hcl Hnd Hext]. split.
    + intros q' [[= ->]|Hq]%elem_of_cons; [by left|]. right. apply elem_of_app. right. by apply Hin.
    + intros r es' q' [->|[Hr|Hr]%elem_of_app]%elem_of_cons Hgr Hd Hq'; right; apply elem_of_app.
      * left. by eapply Hr0.
      * left. by eapply Hcl0.
      * right. by eapply Hcl.
    + apply NoDup_cons. split; [|apply NoDup_app; split_and!; [done| |done]].
      * intros [(r & Hr & E)%Hext0|(q' & r & Hq' & E)%Hext]%elem_of_app.
        -- rewrite <- (app_nil_r q) in E at 1. by apply app_inv_head in E.
        -- eapply (siblings_apart q es q' [] r Hs Hq'). by rewrite app_nil_r.
      * intros x (r & _ & ->)%Hext0 (q' & r' & Hq' & E)%Hext. by eapply (siblings_apart q es q' r r').
    + intros x [->|[(r & _ & ->)%Hext0|(q' & r & Hq & ->)%Hext]%elem_of_app]%elem_of_cons.
      * exists q, []. rewrite app_nil_r. split; [by left|done].
      * exists q, r. split; [by left|done].
      * exists q', r. split; [by right|done].
Qed.

End Below.

Section View.
Context {Os R : Type} `{!ScanOs Os R} `{ReaderLaws R}.
Context (v : OsView).

(** The operating system answers with the same view as long as it stands [still]. *)
Record stands_still (still : Os → Prop) : Prop := {
  so_metadata : ∀ p o r o', still o → symlink_metadata p o = (r, o') → still o' ∧ answers (meta_of v p) r;
  so_read_link : ∀ p o r o', still o → read_link p o = (r, o') → still o' ∧ answers (link_of v p) r;
  so_read_dir : ∀ p o r o', still o → fs_read_dir p o = (r, o') → still o' ∧ answers (entries_of v p) r;
  so_open : ∀ p o r o', still o → open_file p o = (r, o') → still o' ∧
    match file_of v p with Some c => ∃ f i, r = Ok f ∧ holds i f c | None => ∃ e, r = Err e end;
  so_canonicalize : ∀ p o r o', still o → canonicalize p o = (r, o') → still o' ∧ answers (real_path v p) r;
  so_is_dir : ∀ p o r o', still o → is_dir p o = (r, o') → still o' ∧
    ∀ m, meta_of v p = Some m → file_kind m = IsDir → r = Ok true;
  so_now : ∀ o r o', still o → time_now o = (r, o') → still o' ∧ ∃ n, r = Ok n;
}.

(** What becomes of a path: nothing, if it has no metadata or no name. *)
Definition entry_data (q : Path) : option key.Data :=
  _ ← file_name q; m ← meta_of v q;
  match file_kind m with
  | IsFile => Some key.FilePlaceholder
  | IsDir => Some key.DirPlaceholder
  | IsSymlink => key.Symlink <$> link_of v q
  | OtherKind => None
  end.

Definition goes (q : Path) : bool := bool_decide (entry_data q = Some key.DirPlaceholder).

Definition content (q : Path) : option bytes :=
  m ← meta_of v q; match file_kind m with IsFile => file_of v q | _ => None end.

Definition path_entry (now : Z) (pl : option Z) (q : Path) (data : key.Data) : key.Entry :=
  key.Entry_new now pl (Models.FileName_from_os_string (default [] (last q))) data (file_meta <$> meta_of v q).

Inductive of_path (pl : option Z) (q : Path) : key.Entry → Prop :=
  | of_path_intro now data : entry_data q = Some data → of_path pl q (path_entry now pl q data).

Lemma from_os_string_vec s : Models.FileName_from_os_string s = Models.FileName_from_vec s.
Proof. done. Qed.

Lemma of_path_parent pl q e : of_path pl q e → key.parent_id e = pl.
Proof. by destruct 1. Qed.

Lemma of_path_name pl p n e :
  of_path pl (p ++ [n]) e → Models.FileName_into_vec (key.name (key.info e)) = n.
Proof.
  destruct 1 as [now data _]. unfold path_entry. cbn [key.info key.Entry_new key.name key.Info_new].
  by rewrite from_os_string_vec, Models.FileName_into_from_vec, last_snoc.
Qed.

Lemma of_path_wf pl q e : view_ok v → of_path pl q e → entry_wf e.
Proof.
  intros Hv. destruct 1 as [now data Hd]. unfold entry_data in Hd.
  apply bind_Some in Hd as (? & _ & (m & Hm & _)%bind_Some).
  destruct (vw_meta _ Hv _ _ Hm) as (? & ? & ? & ?).
  split; cbn; rewrite ?Hm; [done| |split; done|done].
  rewrite from_os_string_vec. apply Models.FileName_from_vec_wf.
Qed.

(** *** One path *)

Context {St : Type} `{KeyBackendLaws St}.
Context `{CborLaws Models.HashRefs} `{CborLaws Models.HashRef} `{CborLaws Models.Files}.

Abbreviation World := (ScanWorld (Os := Os) (Ps := InternalKeyIndex * St)).

Lemma on_os {A} (m : M Os A) (w : World) r w' :
  zoom os_lens m w = (r, w') → ∃ o', m (os w) = (r, o') ∧ processes w' = processes w ∧ os w' = o'.
Proof. unfold zoom. cbn [lget os_lens]. destruct (m (os w)) as [r1 o1]. intros [= <- <-]. by exists o1. Qed.

(** The entry of a path. *)
Lemma FileEntry_run still q pl o r o' :
  stands_still still → still o → FileEntry_new q pl o = (r, o') → still o' ∧
  match entry_data q with
  | Some data => ∃ now m, meta_of v q = Some m ∧ r = Ok (mkFileEntry (path_entry now pl q data) m q)
  | None => ∃ e, r = Err e
  end.
Proof.
  intros Hs Ho. unfold FileEntry_new, entry_data, path_entry.
  destruct (file_name q) as [n|] eqn:En; cbn [mbind option_bind]; [|intros [= <- <-]; split; [done|by eexists]].
  assert (default [] (last q) = n) as Hn.
  { unfold file_name in En. destruct (last q) as [n'|]; [|done]. by case_decide; simplify_eq. }
  rewrite Hn. unfold mbind at 1, M_bind at 1. destruct (symlink_metadata q o) as [r1 o1] eqn:E1.
  destruct (so_metadata _ Hs _ _ _ _ Ho E1) as [Ho1 Hr1].
  destruct (meta_of v q) as [m|] eqn:Em; [|destruct Hr1 as [e ->]; intros [= <- <-]; split; [done|by eexists]].
  simpl in Hr1. subst r1. cbn [mbind option_bind].
  assert (∀ data o2 r3 o3, still o2 →
    (now ← time_now; mret (mkFileEntry (key.Entry_new now pl (Models.FileName_from_os_string n) data
        (Some (file_meta m))) m q)) o2 = (r3, o3) →
    still o3 ∧ ∃ now m', Some m = Some m' ∧ r3 = Ok (mkFileEntry (key.Entry_new now pl
      (Models.FileName_from_os_string n) data (file_meta <$> Some m)) m' q)) as Hend.
  { intros data o2 r3 o3 Ho2. unfold mbind, M_bind. destruct (time_now o2) as [r4 o4] eqn:E4.
    destruct (so_now _ Hs _ _ _ Ho2 E4) as [? [t ->]]. intros [= <- <-]. eauto. }
  destruct (file_kind m).
  - rewrite bind_ret. by apply Hend.
  - rewrite bind_ret. by apply Hend.
  - rewrite bind_assoc. unfold mbind at 1, M_bind at 1. destruct (read_link q o1) as [r2 o2] eqn:E2.
    destruct (so_read_link _ Hs _ _ _ _ Ho1 E2) as [Ho2 Hr2].
    destruct (link_of v q) as [p|]; [|destruct Hr2 as [e ->]; intros [= <- <-]; split; [done|by eexists]].
    simpl in Hr2. subst r2. rewrite bind_ret. cbn [fmap option_fmap option_map]. by apply Hend.
  - intros [= <- <-]. split; [done|by eexists].
Qed.

Context (name : bytes) (fuel : nat).
Abbreviation self := (sole_family (St := St) name).

(** The file is opened, when it is one. *)
Lemma open_source still q m data fe (w w' : World) src :
  stands_still still → still (os w) → entry_data q = Some data → meta_of v q = Some m →
  metadata fe = m →
  (if is_file fe then it ← zoom os_lens (open_or_skip (R := R) q); mret (Some it) else mret None) w
    = (Ok src, w') →
  still (os w') ∧ processes w' = processes w ∧ source_holds (src ≫= λ o, o) (content q) ∧
  match src with Some _ => data = key.FilePlaceholder | None => data ≠ key.FilePlaceholder end.
Proof.
  intros Hs Ho Hd Hm Hfe. unfold is_file, content. rewrite Hfe, Hm. cbn [mbind option_bind].
  unfold entry_data in Hd. rewrite Hm in Hd. apply bind_Some in Hd as (? & _ & Hd). cbn [mbind option_bind] in Hd.
  destruct (file_kind m).
  2: { intros [= <- <-]. by simplify_eq. }
  2: { intros [= <- <-]. split_and!; try done. by destruct (link_of v q); simplify_eq/=. }
  2: { done. }
  intros (it & w1 & E & Hr)%bind_Ok_inv. injection Hr as <- <-.
  apply on_os in E as (o1 & E & Hp & Ho1). unfold open_or_skip, mbind, M_bind, attempt in E.
  destruct (open_file q (os w)) as [r o2] eqn:E2. destruct (so_open _ Hs _ _ _ _ Ho E2) as [Ho2 Hf].
  rewrite Ho1. destruct (file_of v q) as [c|].
  - destruct Hf as (f & i & -> & Hf). injection E as <- <-. split_and!; [done|done| |by simplify_eq].
    by exists i, c.
  - destruct Hf as (e & ->). injection E as <- <-. by simplify_eq.
Qed.

Lemma goes_data q data : entry_data q = Some data → goes q = bool_decide (data = key.DirPlaceholder).
Proof. unfold goes. intros ->. apply bool_decide_ext. naive_solver. Qed.

(** What a path's insertion asks of the key store, and makes of its answer. *)
Lemma insert_path_run still pl q (w w' : World) o :
  stands_still still → still (os w) → insert_path (R := R) self fuel pl q w = (Ok o, w') → still (os w') ∧
  match entry_data q with
  | Some data => ∃ e src i, of_path pl q e ∧ key.data e = data ∧
      insertable_msg e src ∧ source_holds (src ≫= λ o, o) (content q) ∧
      handle fuel (Insert (R := R) e src) (processes w) = (Ok (Id i), processes w') ∧
      o = (if goes q then Some (Some i) else None)
  | None => o = None ∧ processes w' = processes w
  end.
Proof.
  intros Hs Ho. unfold insert_path, mbind at 1, M_bind at 1, attempt.
  destruct (zoom os_lens (FileEntry_new q pl) w) as [r1 w1] eqn:E1.
  apply on_os in E1 as (o1 & E1 & Hp1 & Hw1). rewrite <- Hw1 in E1.
  destruct (FileEntry_run _ _ _ _ _ _ Hs Ho E1) as [Ho1 Hr1].
  unfold goes. destruct (entry_data q) as [data|] eqn:Ed.
  2: { destruct Hr1 as [e ->]. intros [= <- <-]. done. }
  destruct Hr1 as (now & m & Hm & ->). intros Hrun.
  apply bind_Ok_inv in Hrun as (src & w2 & E2 & Hrun).
  destruct (open_source still q m data (mkFileEntry (path_entry now pl q data) m q) w1 w2 src Hs Ho1 Ed Hm eq_refl E2) as (Ho2 & Hp2 & Hsrc & Hkind).
  apply bind_Ok_inv in Hrun as (ks & w3 & E3 & Hrun).
  assert (ks = whole ∧ processes w3 = processes w2 ∧ os w3 = os w2) as (-> & Hp3 & Ho3).
  { unfold lend in E3. cbn [key_store_process sole_family length] in E3. rewrite Nat.mod_1_r in E3.
    by injection E3 as <- <-. }
  apply bind_Ok_inv in Hrun as (reply & w4 & E4 & Hrun). rewrite Hp1 in Hp2. rewrite Hp2 in Hp3.
  assert (handle fuel (Insert (R := R) (path_entry now pl q data) src) (processes w) = (Ok reply, processes w4)
    ∧ os w4 = os w3) as [Hh Ho4].
  { unfold unwrapM, send_reply, zoom in E4. cbn [lget lset processes_lens whole key_entry] in E4.
    rewrite Hp3 in E4. destruct (handle _ _ _) as [r4 p4]. cbn [unwrap] in E4. destruct r4; try done.
    by injection E4 as <- <-. }
  destruct reply as [i| | |]; try done. injection Hrun as <- <-. rewrite Ho4, Ho3. split; [done|].
  exists (path_entry now pl q data), src, i. split_and!; try done.
  - unfold insertable_msg. cbn [key.data key.Entry_new path_entry]. destruct src; [done|].
    unfold entry_data in Ed. rewrite Hm in Ed. apply bind_Some in Ed as (? & _ & Ed). cbn [mbind option_bind] in Ed.
    destruct (file_kind m); simplify_eq; [by left|]. right.
    destruct (link_of v q); simplify_eq/=. eauto.
  - rewrite (bool_decide_ext (Some data = Some key.DirPlaceholder) (data = key.DirPlaceholder)) by naive_solver. unfold is_directory. cbn [metadata].
    unfold entry_data in Ed. rewrite Hm in Ed. apply bind_Some in Ed as (? & _ & Ed). cbn [mbind option_bind] in Ed.
    destruct (file_kind m); simplify_eq; try done. by destruct (link_of v q); simplify_eq/=.
Qed.

(** An [Insert] that has returned is a step of the scan. *)
Lemma visit_scanned C0 ks0 vs C x s e src c N i ks' :
  Store_ok ∅ C0 ks0 → scanned (R := R) C0 ks0 vs C (x, s) → visit_ok x e src c →
  handle N (Insert (R := R) e src) (x, s) = (Ok (Id i), ks') →
  (∃ V d, Scan_ok V x ∧ KeyStoreOk.visits V x ks'.1 i (entry_node e) d) ∧
  ∃ sn C', scanned (R := R) C0 ks0 (<[i := (e, sn)]> vs) C' ks' ∧
    ((sn = Read c ∧ C' = contents i c C) ∨
     ∃ d, sn = Unchanged d c ∧ looks_like x e i d ∧ C' = if decide (C !! i = c) then C else base.delete i C).
Proof.
  intros H0s Hscan Hv Hrun. destruct (scanned_ok _ _ _ _ _ H0s Hscan) as (V & HS & _).
  destruct (visit_run V C x s e src c N i ks' HS Hv Hrun) as (Hins & _ & _).
  destruct Hins as (k & d & [= <-] & Hvis & _ & _). pose proof (proj1 HS) as Hs. split; [by eauto|].
  destruct (find_node x e) as [[k Hk]|Hno].
  2: { exists (Read c), (contents i c C). split; [|by left].
       eapply scanned_insert; [exact Hscan|exact Hv|exact Hrun|]. intros (k & d' & Hk & _). by eapply Hno. }
  assert (k = i) as ->.
  { eapply (ok_unique _ (sc_tables _ _ (vs_scan _ _ _ _ _ _ Hvis))).
    - by eapply (vs_tree _ _ _ _ _ _ Hvis).
    - apply (vs_node _ _ _ _ _ _ Hvis). }
  destruct (top_row_in _ _ _ (sc_tables _ _ Hs) Hk) as (d' & Htop & _).
  assert (Decision (unchanged e d')) as Hdec by (unfold unchanged; apply _).
  destruct Hdec as [Hun|Hun].
  - eexists (Unchanged d' c), _. split; [|right; by exists d'].
    by eapply scanned_unchanged; [exact Hscan|exact Hv|exact Hrun|].
  - exists (Read c), (contents i c C). split; [|by left].
    eapply scanned_insert; [exact Hscan|exact Hv|exact Hrun|].
    intros (k & d2 & Hk2 & Htop2 & Hun2). assert (k = i) as -> by (by eapply (ok_unique _ (sc_tables _ _ Hs))).
    by simplify_eq.
Qed.

(** ** The nodes of a scan are paths *)

Context (C0 : gmap Z bytes) (ks0 : InternalKeyIndex * St).

Abbreviation t0 := (key_tree (cur ks0.1)).

(** What the row [d] of a path, from an earlier scan, says of it if it looks unchanged. *)
Definition row_says (k : Z) (d : KeyData) (q : Path) : Prop :=
  match content q with
  | Some c => C0 !! k = Some c
  | None => key_schema.hash d = None ∧ key_schema.symbolic_link_path d =
      match entry_data q with Some (key.Symlink p) => from_utf8 p | _ => None end
  end.

(** A path with the recorded time of modification is what was recorded. *)
Definition honest : Prop := ∀ k q d m,
  node_path t0 (Some k) q → top_row (cur ks0.1) k = Some d → meta_of v q = Some m →
  key_schema.modified d = Some (key.modification_time (file_meta m)) → row_says k d q.

(** How a path was seen. *)
Definition seen_of (q : Path) (sn : seen) : Prop :=
  match sn with
  | Read c => c = content q
  | Unchanged d c => c = content q ∧ ∃ k m, node_path t0 (Some k) q ∧ top_row (cur ks0.1) k = Some d ∧
      meta_of v q = Some m ∧ key_schema.modified d = Some (key.modification_time (file_meta m))
  end.

Abbreviation call := (Call (P := option Z)).
Abbreviation paths c := ((λ x : call, x.1.2) <$> c).
Abbreviation tree_of w := (key_tree (cur (processes w).1)).

(** [c] are the calls of the handler so far, with their results. *)
Record scan_facts (c : list call) (vs : scan) (C : gmap Z bytes) (ks : InternalKeyIndex * St) : Prop := {
  sf_scan : scanned (R := R) C0 ks0 vs C ks;
  sf_seen : ∀ i e sn, vs !! i = Some (e, sn) → ∃ pl q, (pl, q, if goes q then Some (Some i) else None) ∈ c ∧
    of_path pl q e ∧ node_path (key_tree (cur ks.1)) (Some i) q ∧ C !! i = content q ∧ seen_of q sn;
  sf_place : ∀ pl q o, (pl, q, o) ∈ c → ∃ p n, q = p ++ [n] ∧ n ≠ [] ∧ node_path (key_tree (cur ks.1)) pl p;
  sf_entered : ∀ pl q o, (pl, q, o) ∈ c → is_Some (entry_data q) →
    ∃ i e sn, vs !! i = Some (e, sn) ∧ of_path pl q e ∧ node_path (key_tree (cur ks.1)) (Some i) q;
  sf_dir : ∀ pl q o, (pl, q, o) ∈ c → if goes q then
      ∃ i, o = Some (Some i) ∧ node_path (key_tree (cur ks.1)) (Some i) q else o = None;
  sf_rest : ∀ k, vs !! k = None → key_tree (cur ks.1) !! k = t0 !! k ∧
    top_row (cur ks.1) k = top_row (cur ks0.1) k ∧ C !! k = C0 !! k;
  sf_old : ∀ k n, t0 !! k = Some n → key_tree (cur ks.1) !! k = Some n;
  sf_room : (next_rowid (key_tree (cur ks.1)) ≤ next_rowid t0 + Z.of_nat (length c))%Z;
}.

Definition scan_inv (still : Os → Prop) (c : list call) (w : World) : Prop :=
  still (os w) ∧ ∃ vs C, scan_facts c vs C (processes w).

(** Where nothing is entered, nothing changes. *)
Lemma facts_skip c vs C ks pl p n :
  scan_facts c vs C ks → n ≠ [] → node_path (key_tree (cur ks.1)) pl p → entry_data (p ++ [n]) = None →
  scan_facts (c ++ [(pl, p ++ [n], None)]) vs C ks.
Proof.
  intros [Hscan Hseen Hplace Hent Hdir Hrest Hold Hroom] Hn Hp Hd.
  assert (∀ pl' q o, (pl', q, o) ∈ c ++ [(pl, p ++ [n], None)] → (pl', q, o) ∈ c ∨
    pl' = pl ∧ q = p ++ [n] ∧ o = None) as Hin.
  { intros pl' q o [?|Hl]%elem_of_app; [by left|right]. apply list_elem_of_singleton in Hl. by simplify_eq. }
  split; try done.
  - intros i e sn Hi. destruct (Hseen _ _ _ Hi) as (pl' & q & ? & ?). exists pl', q.
    split; [apply elem_of_app; by left|done].
  - intros pl' q o [?|(-> & -> & ->)]%Hin; [by eapply Hplace|]. by exists p, n.
  - intros pl' q o [?|(-> & -> & ->)]%Hin; [by eapply Hent|]. rewrite Hd. by intros [].
  - intros pl' q o [?|(-> & -> & ->)]%Hin; [by eapply Hdir|]. unfold goes. by rewrite Hd.
  - rewrite length_app. simpl. lia.
Qed.

Lemma entered_path V x y i d pl p n e :
  KeyStoreOk.visits V x y i (entry_node e) d → of_path pl (p ++ [n]) e → cast_id pl →
  node_path (key_tree (cur x)) pl p → node_path (key_tree (cur y)) (Some i) (p ++ [n]).
Proof.
  intros Hv He Hc Hp. pose proof (of_path_name _ _ _ _ He) as Hn. pose proof (of_path_parent _ _ _ He) as Hpl.
  assert (key_schema.name (entry_node e) = n) as <- by done.
  eapply node_path_child; [|by eapply vs_node|unfold entry_node; cbn; by rewrite Hpl].
  eapply node_path_mono; [|done]. by eapply vs_tree.
Qed.

(** The contents that are known of an entry that is seen for the first time. *)
Lemma seen_content q i e sn C C' x :
  C !! i = C0 !! i →
  (∀ d c, sn = Unchanged d c → row_says i d q) →
  ((sn = Read (content q) ∧ C' = contents i (content q) C) ∨
   ∃ d, sn = Unchanged d (content q) ∧ looks_like x e i d ∧
     C' = if decide (C !! i = content q) then C else base.delete i C) →
  C' !! i = content q ∧ ∀ k, k ≠ i → C' !! k = C !! k.
Proof.
  intros HCi Hrow [[-> ->]|(d' & -> & _ & ->)].
  - unfold contents. split; [by rewrite lookup_partial_alter_eq|]. intros k Hk.
    by rewrite lookup_partial_alter_ne.
  - specialize (Hrow _ _ eq_refl). unfold row_says in Hrow. case_decide as Hd; [done|].
    destruct (content q) as [c|]; [congruence|]. split; [by rewrite lookup_delete_eq|].
    intros k Hk. by rewrite lookup_delete_ne.
Qed.

Hypothesis Hhonest : honest.
Hypothesis Hview : view_ok v.
Hypothesis Hstart : Store_ok ∅ C0 ks0.

Lemma t0_tables : Tables_ok (cur ks0.1).
Proof using Hstart. apply (sc_tables _ _ (proj1 Hstart)). Qed.

Lemma entry_meta pl q e : of_path pl q e → ∃ m, meta_of v q = Some m ∧
  key.modified_ts_secs (key.info e) = Some (key.modification_time (file_meta m)).
Proof using.
  destruct 1 as [now data Hd]. unfold entry_data in Hd. apply bind_Some in Hd as (? & _ & (m & Hm & _)%bind_Some).
  exists m. split; [done|]. cbn. by rewrite Hm.
Qed.

(** A path that was not handled yet is a node that was not seen yet. *)
Lemma fresh_node c vs C ks t q i :
  scan_facts c vs C ks → q ∉ paths c →
  (∀ k m, key_tree (cur ks.1) !! k = Some m → t !! k = Some m) → node_path t (Some i) q → vs !! i = None.
Proof using.
  intros Hf Hq Hmono Hi. destruct (vs !! i) as [[e sn]|] eqn:E; [|done].
  destruct (sf_seen _ _ _ _ Hf _ _ _ E) as (pl & q' & Hin & _ & Hq' & _).
  pose proof (node_path_fun _ _ _ _ Hi (node_path_mono _ _ _ _ Hmono Hq')) as ->.
  destruct Hq. apply list_elem_of_fmap. by eexists (pl, q', _).
Qed.

(** What looks unchanged has a row of an earlier scan. *)
Lemma unchanged_row c vs C ks t q i pl e d :
  scan_facts c vs C ks → vs !! i = None →
  (∀ k m, key_tree (cur ks.1) !! k = Some m → t !! k = Some m) → node_path t (Some i) q →
  of_path pl q e → looks_like ks.1 e i d →
  node_path t0 (Some i) q ∧ top_row (cur ks0.1) i = Some d ∧ ∃ m, meta_of v q = Some m ∧
    key_schema.modified d = Some (key.modification_time (file_meta m)).
Proof using Hstart.
  intros Hf Hi Hmono Hq He (Htree & Htop & _ & Hmod).
  destruct (sf_rest _ _ _ _ Hf _ Hi) as (Ht & Hr & _).
  destruct (entry_meta _ _ _ He) as (m & Hm & Hts). split_and!; [|congruence|exists m; by rewrite Hmod].
  destruct (node_path_total t0 i) as [q' Hq']; [apply t0_tables|rewrite <- Ht; by eexists|].
  assert (node_path t (Some i) q') as Hq2.
  { eapply node_path_mono, Hq'. intros k n Hk. by apply Hmono, (sf_old _ _ _ _ Hf). }
  by rewrite (node_path_fun _ _ _ _ Hq Hq2).
Qed.

Lemma facts_extend c vs C x s V d pl p n e i sn C' ks' :
  scan_facts c vs C (x, s) → n ≠ [] → node_path (key_tree (cur x)) pl p →
  of_path pl (p ++ [n]) e → Scan_ok V x → KeyStoreOk.visits V x ks'.1 i (entry_node e) d → vs !! i = None →
  node_path (key_tree (cur ks'.1)) (Some i) (p ++ [n]) → seen_of (p ++ [n]) sn →
  C' !! i = content (p ++ [n]) → (∀ k, k ≠ i → C' !! k = C !! k) →
  scanned (R := R) C0 ks0 (<[i := (e, sn)]> vs) C' ks' →
  scan_facts (c ++ [(pl, p ++ [n], if goes (p ++ [n]) then Some (Some i) else None)])
    (<[i := (e, sn)]> vs) C' ks'.
Proof using.
  intros [_ Hseen Hplace Hent Hdir Hrest Hold Hroom] Hn Hp He Hs [_ _ Htop Hmono Hnew] Hi Hq Hsn HCi HC Hscan.
  cbn [fst] in *. set (q := p ++ [n]) in *.
  set (o := if goes q then Some (Some i) else None).
  assert (∀ po r, node_path (key_tree (cur x)) po r → node_path (key_tree (cur ks'.1)) po r) as Hm.
  { intros po r. by apply node_path_mono. }
  assert (∀ pl' q' o', (pl', q', o') ∈ c ++ [(pl, q, o)] → (pl', q', o') ∈ c ∨
    pl' = pl ∧ q' = q ∧ o' = o) as Hin.
  { intros pl' q' o' [?|Hl]%elem_of_app; [by left|right]. apply list_elem_of_singleton in Hl. by simplify_eq. }
  split; [done|..].
  - intros j e' sn'. rewrite lookup_insert_Some. intros [[<- [= <- <-]]|[Hne Hj]].
    + exists pl, q. split; [apply elem_of_app; right; by left|done].
    + destruct (Hseen _ _ _ Hj) as (pl' & q' & Hin' & ? & ? & ? & ?). exists pl', q'. rewrite HC by done.
      split_and!; [apply elem_of_app; by left|done|by apply Hm|done..].
  - intros pl' q' o' [Hc|(-> & -> & ->)]%Hin; [|exists p, n; by auto].
    destruct (Hplace _ _ _ Hc) as (p' & n' & ? & ? & ?). exists p', n'. by auto.
  - intros pl' q' o' [Hc|(-> & -> & ->)]%Hin Hd.
    + destruct (Hent _ _ _ Hc Hd) as (j & e' & sn' & Hj & ? & ?). exists j, e', sn'.
      rewrite lookup_insert_ne by congruence. by auto.
    + exists i, e, sn. by rewrite lookup_insert_eq.
  - intros pl' q' o' [Hc|(-> & -> & ->)]%Hin.
    + specialize (Hdir _ _ _ Hc). destruct (goes q'); [|done]. destruct Hdir as (j & -> & ?). eauto.
    + unfold o. destruct (goes q); [by exists i|done].
  - intros k Hk%lookup_insert_None. destruct Hk as [Hk Hne]. destruct (Hrest _ Hk) as (<- & <- & <-).
    rewrite Htop, decide_False, HC by done. split_and!; [|done..].
    destruct Hnew as [->|[-> ->]]; [done|by rewrite lookup_insert_ne].
  - eauto.
  - rewrite length_app. simpl. pose proof (ok_tree _ (sc_tables _ _ Hs)) as Ht.
    destruct Hnew as [->|[-> ->]]; [lia|]. pose proof (next_rowid_insert _ (entry_node e) Ht). lia.
Qed.

Lemma facts_enter c vs C x s pl p n e src N i ks' :
  scan_facts c vs C (x, s) → n ≠ [] → node_path (key_tree (cur x)) pl p → p ++ [n] ∉ paths c →
  (next_rowid t0 + Z.of_nat (length c) < 2 ^ 63)%Z →
  of_path pl (p ++ [n]) e → insertable_msg e src → source_holds (src ≫= λ o, o) (content (p ++ [n])) →
  handle N (Insert (R := R) e src) (x, s) = (Ok (Id i), ks') →
  node_path (key_tree (cur ks'.1)) (Some i) (p ++ [n]) ∧
  (∀ k m, key_tree (cur x) !! k = Some m → key_tree (cur ks'.1) !! k = Some m) ∧
  ∃ vs' C', scan_facts (c ++ [(pl, p ++ [n], if goes (p ++ [n]) then Some (Some i) else None)]) vs' C' ks'.
Proof using Type*.
  intros Hf Hn Hp Hq Hroom He Hmsg Hsrc Hrun. set (q := p ++ [n]) in *.
  assert (placed x e) as Hpl.
  { split; [|pose proof (sf_room _ _ _ _ Hf); simpl in *; lia]. rewrite (of_path_parent _ _ _ He).
    by apply (node_path_in _ _ _ Hp). }
  destruct (visit_scanned C0 ks0 vs C x s e src (content q) N i ks') as ((V & d & Hs & Hv) & sn & C' & Hscan' & Hsn);
    [done|apply Hf|split; [by eapply of_path_wf|done..]|done|].
  pose proof (placed_cast _ _ (ok_tree _ (sc_tables _ _ Hs)) Hpl) as Hcast.
  rewrite (of_path_parent _ _ _ He) in Hcast.
  pose proof (entered_path _ _ _ _ _ _ _ _ _ Hv He Hcast Hp) as Hpath. fold q in Hpath.
  pose proof (vs_tree _ _ _ _ _ _ Hv) as Hmono.
  pose proof (fresh_node _ _ _ _ _ _ _ Hf Hq Hmono Hpath) as Hfresh.
  split_and!; [done|done|]. exists (<[i := (e, sn)]> vs), C'.
  assert (seen_of q sn ∧ ∀ d c, sn = Unchanged d c → row_says i d q) as [Hseen Hsays].
  { destruct Hsn as [[-> _]|(d' & -> & Hll & _)]; [done|].
    destruct (unchanged_row _ _ _ _ _ _ _ _ _ _ Hf Hfresh Hmono Hpath He Hll) as (? & ? & m & ? & ?).
    split; [split; [done|]; by exists i, m|]. intros d2 c2 [= <- <-]. by eapply Hhonest. }
  destruct (sf_rest _ _ _ _ Hf _ Hfresh) as (_ & _ & HCi).
  destruct (seen_content q i e sn C C' x HCi Hsays Hsn) as [HC'i HC'].
  by eapply facts_extend.
Qed.

(** ** The handler's calls *)

Context (still : Os → Prop).
Hypothesis Hstill : stands_still still.

Definition grown (w w' : World) : Prop := ∀ po p, node_path (tree_of w) po p → node_path (tree_of w') po p.

(** What a call returns for the path. *)
Definition entered_as (w : World) (q : Path) (o : option (option Z)) : Prop :=
  if goes q then ∃ i, o = Some (Some i) ∧ node_path (tree_of w) (Some i) q else o = None.

Lemma scan_step c w pl p n o w' :
  scan_inv still c w → n ≠ [] → node_path (tree_of w) pl p → p ++ [n] ∉ paths c →
  (next_rowid t0 + Z.of_nat (length c) < 2 ^ 63)%Z →
  insert_path (R := R) self fuel pl (p ++ [n]) w = (Ok o, w') →
  scan_inv still (c ++ [(pl, p ++ [n], o)]) w' ∧ grown w w' ∧ entered_as w' (p ++ [n]) o.
Proof using Type*.
  intros [Ho (vs & C & Hf)] Hn Hp Hq Hroom Hrun.
  destruct (insert_path_run still _ _ _ _ _ Hstill Ho Hrun) as [Ho' Hcase]. unfold entered_as.
  destruct (processes w) as [x s] eqn:Ew. destruct (entry_data (p ++ [n])) as [data|] eqn:Ed.
  - destruct Hcase as (e & src & i & He & Hd & Hmsg & Hsrc & Hh & ->).
    destruct (facts_enter c vs C x s pl p n e src fuel i (processes w')) as (Hpath & Hmono & vs' & C' & Hf');
      [done..|]. split_and!.
    + split; [done|]. by exists vs', C'.
    + intros po r. rewrite Ew. by apply node_path_mono.
    + destruct (goes (p ++ [n])); [by exists i|done].
  - destruct Hcase as (-> & Hpr). split_and!.
    + split; [done|]. exists vs, C. rewrite Hpr. by apply facts_skip.
    + intros po r. by rewrite Hpr, Ew.
    + unfold goes. by rewrite Ed.
Qed.

(** *** From the root to the directory *)

Fixpoint prefixes (p : Path) (names : list bytes) : list Path :=
  match names with [] => [] | n :: names => (p ++ [n]) :: prefixes (p ++ [n]) names end.

Definition short (k : nat) (c : list call) : Prop := ∀ q, q ∈ paths c → length q ≤ k.

Lemma descend_run names c w pl p d w' :
  scan_inv still c w → node_path (tree_of w) pl p → short (length p) c →
  (∀ n, n ∈ names → plain n) → (∀ q, q ∈ prefixes p names → goes q = true) →
  (next_rowid t0 + Z.of_nat (length c + length names) < 2 ^ 63)%Z →
  descend (R := R) self fuel names (mkDescent pl p false false) w = (Ok d, w') →
  bailout d = false ∧ ∃ c', scan_inv still (c ++ c') w' ∧ paths c' = prefixes p names ∧
    node_path (tree_of w') (parent d) (p ++ names).
Proof using Type*.
  revert c w pl p. induction names as [|n names IH]; intros c w pl p Hinv Hp Hshort Hne Hgo Hroom.
  { intros [= <- <-]. split; [done|]. exists []. by rewrite !app_nil_r. }
  cbn [descend inside_non_dir parent_path parent]. intros (o & w1 & E & Hrun)%bind_Ok_inv.
  assert (plain n) as Hpn by (apply Hne; by left). rewrite (push_plain _ _ Hpn) in *.
  destruct (scan_step c w pl p n o w1) as (Hinv1 & Hg1 & Hent); [done| |done| |simpl in *; lia|done|].
  { by destruct Hpn. }
  { intros Hin%Hshort. rewrite length_app in Hin. simpl in Hin. lia. }
  unfold entered_as in Hent. rewrite Hgo in Hent by by left. destruct Hent as (i & -> & Hi).
  destruct (IH (c ++ [(pl, p ++ [n], Some (Some i))]) w1 (Some i) (p ++ [n])) as (Hb & c' & Hinv' & Hpc & Hd);
    [done|done| | | | |done|].
  - intros q. rewrite fmap_app, elem_of_app, length_app. intros [Hin%Hshort|Hin]; simpl; [lia|].
    apply list_elem_of_singleton in Hin. subst. simpl. rewrite length_app. simpl. lia.
  - intros n' Hn'. apply Hne. by right.
  - intros q Hq. apply Hgo. by right.
  - rewrite length_app. simpl in *. lia.
  - split; [done|]. exists ((pl, p ++ [n], Some (Some i)) :: c'). rewrite <- app_assoc in Hinv', Hd.
    split_and!; [done|by cbn; rewrite Hpc|done].
Qed.

(** *** Below the directory *)

Section Recursion.
Context (root : Path) (po : option Z) (c0 : list call) (l : list Path).
Hypothesis Hbelow : below_facts (entries_of v) goes root l.
Hypothesis Hroom : (next_rowid t0 + Z.of_nat (length c0 + length l) < 2 ^ 63)%Z.
Hypothesis Hc0 : short (length root) c0.

Record handled (c : list call) (w : World) : Prop := {
  hd_inv : scan_inv still (c0 ++ c) w;
  hd_root : node_path (tree_of w) po root;
  hd_below : paths c ⊆ l;
  hd_once : NoDup (paths c);
}.

Lemma not_before q : q ∈ l → q ∉ paths c0.
Proof using All.
  intros (r & Hr & ->)%(bf_extends _ _ _ _ Hbelow) Hin%Hc0. rewrite length_app in Hin.
  destruct r; [done|]. simpl in Hin. lia.
Qed.

(** The directory of what is listed, with its node. *)
Lemma listed_place c w pl q :
  handled c w → listed_in (entries_of v) root po c pl q →
  ∃ p n, q = p ++ [n] ∧ plain n ∧ node_path (tree_of w) pl p ∧ q ∈ l.
Proof using All.
  intros [[_ (vs & C & Hf)] Hr Hl _] (r & es & Hd & Hq & He).
  destruct (vw_names _ Hview _ _ _ Hd Hq) as (n & -> & Hn). exists r, n. split_and!; [done|done|..].
  - destruct He as [[-> ->]|[pl0 Hin]]; [done|].
    assert ((pl0, r, Some pl) ∈ c0 ++ c) as Hin' by (apply elem_of_app; by right).
    pose proof (sf_dir _ _ _ _ Hf _ _ _ Hin') as Hgo. destruct (goes r); [|done].
    by destruct Hgo as (i & [= ->] & ?).
  - destruct He as [[-> ->]|[pl0 Hin]]; [by eapply bf_root|].
    assert ((pl0, r, Some pl) ∈ c0 ++ c) as Hin' by (apply elem_of_app; by right).
    pose proof (sf_dir _ _ _ _ Hf _ _ _ Hin') as Hgo.
    destruct (goes r) eqn:Hg; [|done]. eapply (bf_closed _ _ _ _ Hbelow); [|exact Hg|exact Hd|done].
    apply Hl, list_elem_of_fmap. by exists (pl0, r, Some pl).
Qed.

Lemma scan_keeps : handler_keeps (entries_of v) goes root po handled
  (PathHandler0 := insert_path_handler (R := R) self fuel).
Proof using All.
  split.
  - intros c p w r w' [[Ho Hf] Hr Hl Hnd] E. cbn [read_dir insert_path_handler] in E.
    apply on_os in E as (o' & E & Hp & Ho'). destruct (so_read_dir _ Hstill _ _ _ _ Ho E) as [Ho2 Hres].
    split; [|exact Hres]. split; [|by rewrite Hp|done|done]. split; [by rewrite Ho'|]. by rewrite Hp.
  - intros c pl q w o w' Hh Hin Hq E. cbn [handle_path insert_path_handler] in E.
    destruct (listed_place _ _ _ _ Hh Hin) as (p & n & -> & Hn & Hp & Hql). destruct Hh as [Hinv Hr Hl Hnd].
    assert (NoDup (paths (c ++ [(pl, p ++ [n], o)]))) as Hnd'.
    { rewrite fmap_app. apply NoDup_app. split_and!; [done| |apply NoDup_singleton].
      intros x Hx Hx'%list_elem_of_singleton. by subst. }
    assert (paths (c ++ [(pl, p ++ [n], o)]) ⊆ l) as Hl'.
    { rewrite fmap_app. intros x [Hx|Hx%list_elem_of_singleton]%elem_of_app; [by apply Hl|by subst]. }
    pose proof (submseteq_length _ _ (NoDup_submseteq _ _ Hnd' Hl')) as Hlen.
    rewrite length_fmap, length_app in Hlen. cbn [length] in Hlen.
    destruct (scan_step (c0 ++ c) w pl p n o w') as (Hinv' & Hg & Hent); [done|by destruct Hn|done| | |done|].
    { rewrite fmap_app. apply not_elem_of_app. split; [by apply not_before|done]. }
    { rewrite length_app. lia. }
    split; [split; [by rewrite app_assoc|by apply Hg|done|done]|].
    unfold entered_as in Hent. destruct (goes (p ++ [n])).
    + destruct Hent as (i & -> & _). split; [by eexists|done].
    + subst o. split; [done|by intros []].
Qed.

End Recursion.

(** *** A whole snapshot *)

Lemma start_inv w : still (os w) → processes w = ks0 → scan_inv still [] w.
Proof using.
  intros Ho Hp. split; [done|]. exists ∅, C0. rewrite Hp. split; try done.
  - constructor.
  - by intros ? ? ? ?%elem_of_nil.
  - by intros ? ? ? ?%elem_of_nil.
  - by intros ? ? ? ?%elem_of_nil.
  - simpl. lia.
Qed.

Lemma short_prefixes p names : ∀ q, q ∈ prefixes p names → length q ≤ length (p ++ names).
Proof using.
  revert p. induction names as [|n names IH]; intros p q; [by intros ?%elem_of_nil|].
  cbn [prefixes]. intros [->|Hq]%elem_of_cons; [rewrite !length_app; simpl; lia|].
  apply IH in Hq. by rewrite <- app_assoc in Hq.
Qed.

(** The directory can be reached and has finitely many entries below it, for which there is room. *)
Record scannable (dir root : Path) (l : list Path) : Prop := {
  sn_real : real_path v dir = Some root;
  sn_plain : ∀ n, n ∈ root → plain n;
  sn_path : ∀ q, q ∈ prefixes [] root → goes q = true;
  sn_dir : ∃ m, meta_of v root = Some m ∧ file_kind m = IsDir;
  sn_below : ∃ n, below (entries_of v) goes root l n;
  sn_room : (next_rowid t0 + Z.of_nat (length root + length l) < 2 ^ 63)%Z;
}.

(** The calls for the path of the directory, then those below it, then the commit. *)
Lemma snapshot_run dir root l sched (w w' : World) :
  still (os w) → processes w = ks0 → scannable dir root l →
  snapshot_dir (R := R) self fuel sched dir w = (Ok (), w') →
  ∃ c0 c w1 po, paths c0 = prefixes [] root ∧ paths c ≡ₚ l ∧ in_order (entries_of v) root po c ∧
    below_facts (entries_of v) goes root l ∧ handled root po c0 l c w1 ∧
    handle fuel (CommitReservedNodes (R := R) (Some po)) (processes w1) = (Ok ReplyOk, processes w').
Proof using All.
  intros Ho Hp [Hreal Hplain Hpath (m & Hm & Hk) [nn Hbelow] Hroom] Hrun. unfold snapshot_dir in Hrun.
  apply bind_Ok_inv in Hrun as (r & w1 & E1 & Hrun). unfold unwrapM in E1.
  destruct (zoom os_lens (canonicalize dir) w) as [r1 w1'] eqn:Ec.
  apply on_os in Ec as (o1 & Ec & Hp1 & Ho1). destruct (so_canonicalize _ Hstill _ _ _ _ Ho Ec) as [Hs1 Hr1].
  rewrite Hreal in Hr1. simpl in Hr1. subst r1 o1. injection E1 as <- <-. rewrite Hp in Hp1.
  apply bind_Ok_inv in Hrun as (d & w2 & E2 & Hrun).
  destruct (descend_run root [] w1' None [] d w2) as (Hb & c0 & Hinv & Hc0 & Hnode); try done.
  { by apply start_inv. }
  { constructor. }
  { by intros q ?%elem_of_nil. }
  { simpl. lia. }
  apply bind_Ok_inv in Hrun as (whole & w3 & E3 & Hrun). rewrite Hb in E3.
  pose proof Hinv as [Ho2 _]. apply on_os in E3 as (o3 & E3 & Hp3 & Ho3).
  destruct (so_is_dir _ Hstill _ _ _ _ Ho2 E3) as [Ho4 Hd]. specialize (Hd _ Hm Hk). injection Hd as ->.
  apply bind_Ok_inv in Hrun as (u & w4 & E4 & Hrun). destruct u. cbn [app] in *.
  pose proof (below_ok _ _ (λ p es q H1 H2, let '(ex_intro _ n (conj E _)) := vw_names _ Hview p es q H1 H2 in
    ex_intro _ n E) (vw_once _ Hview) _ _ _ Hbelow) as Hbf.
  assert (short (length root) c0) as Hshort.
  { intros q Hq. rewrite Hc0 in Hq. by apply short_prefixes in Hq. }
  assert (length c0 = length root) as Hlen.
  { rewrite <- (length_fmap (λ x : call, x.1.2)), Hc0. clear. generalize ([] : Path).
    induction root as [|n root IH]; intros p; simpl; [done|by rewrite IH]. }
  destruct (recurse_visited (PathHandler0 := insert_path_handler (R := R) self fuel) _ _ _ _ _ l nn sched w3 w4
    (scan_keeps root (parent d) c0 l Hbf ltac:(by rewrite Hlen) Hshort)) as (c & Hc & Hpc & Hord);
    [done|by apply Hbf| |done|].
  { split; [|by rewrite Hp3|by intros q ?%elem_of_nil|constructor].
    destruct Hinv as [_ (vs & C & Hf)]. rewrite app_nil_r. split; [by rewrite Ho3|]. exists vs, C. by rewrite Hp3. }
  exists c0, c, w4, (parent d). split_and!; try done.
  unfold commit_reserved in Hrun. cbn [key_store_process sole_family head expect] in Hrun.
  apply bind_Ok_inv in Hrun as (ks & w5 & E5 & Hrun). injection E5 as <- <-.
  apply bind_Ok_inv in Hrun as (reply & w6 & E6 & Hrun).
  unfold unwrapM, send_reply, zoom in E6. cbn [lget lset processes_lens BackupSpec.whole] in E6.
  destruct (handle _ _ _) as [[a| | |] p6]; try done. injection E6 as <- <-.
  destruct a; try done. by injection Hrun as <-.
Qed.

(** ** What was seen is what the operating system shows *)

(** A file that can be read, a link whose target is UTF-8, or a directory. *)
Definition shape (q : Path) (t : FileTree) : Prop :=
  match content q, entry_data q with
  | Some c, _ => t = TFile c
  | None, Some (key.Symlink p) => if valid_utf8 p then t = TLink p else ∃ l, t = TDir l
  | None, _ => ∃ l, t = TDir l
  end.

(** The information is the one shown now or that of the row with the same time. *)
Record item_of (q : Path) (it : key.Info * FileTree) : Prop := {
  it_name : key.name it.1 = Models.FileName_from_os_string (default [] (last q));
  it_info : (∃ now data, entry_data q = Some data ∧
      it.1 = shown_info (path_entry now None q data) (content q)) ∨
    ∃ k d m, node_path t0 (Some k) q ∧ top_row (cur ks0.1) k = Some d ∧ meta_of v q = Some m ∧
      key_schema.modified d = Some (key.modification_time (file_meta m)) ∧
      it.1 = row_info (key.name it.1) d;
  it_shape : shape q it.2;
}.

(** The entries that a directory shows: those that have metadata and a kind that is known. *)
Definition shown_in (p : Path) : list Path :=
  filter (λ q, is_Some (entry_data q)) (default [] (readable_paths <$> entries_of v p)).

(** The directory at [p] to a depth of [n]: what it shows, each once; what is no directory is
    empty where it is taken for one. *)
Fixpoint os_dir (n : nat) (p : Path) (l : FamilyOk.dir) : Prop :=
  match n with
  | O => False
  | S n => ∃ qs, qs ≡ₚ shown_in p ∧ Forall2 (λ q it, item_of q it ∧
      ∀ l', it.2 = TDir l' → if goes q then os_dir n q l' else l' = []) qs l
  end.

(** The same at the end of the path [names] from [p], with nothing else on the way. *)
Fixpoint os_path (n : nat) (p : Path) (names : list bytes) (l : FamilyOk.dir) : Prop :=
  match names, n with
  | [], _ => os_dir n p l
  | _ :: _, O => False
  | name :: names, S n => ∃ info l', l = [(info, TDir l')] ∧ item_of (p ++ [name]) (info, TDir l') ∧
      os_path n (p ++ [name]) names l'
  end.

Lemma shape_dir q ft : goes q = true → shape q ft → ∃ l, ft = TDir l.
Proof using.
  unfold goes, shape. intros Hg%bool_decide_eq_true. rewrite Hg.
  assert (content q = None) as ->; [|done]. unfold content, entry_data in *.
  apply bind_Some in Hg as (? & _ & (m & -> & Hk)%bind_Some). cbn [mbind option_bind].
  by destruct (file_kind m).
Qed.

Lemma elem_of_seen_in vs po i : i ∈ seen_in vs po ↔ ∃ e sn, vs !! i = Some (e, sn) ∧ key.parent_id e = po.
Proof using.
  unfold seen_in. rewrite list_elem_of_fmap. split.
  - intros ([j [e sn]] & -> & Hj). apply elem_of_map_to_list, map_lookup_filter_Some in Hj as [? ?]. eauto.
  - intros (e & sn & Hi & Hp). exists (i, (e, sn)). split; [done|].
    by apply elem_of_map_to_list, map_lookup_filter_Some.
Qed.

Lemma elem_of_shown_in p q : q ∈ shown_in p ↔ ∃ es, entries_of v p = Some es ∧ inl q ∈ es ∧ is_Some (entry_data q).
Proof using.
  unfold shown_in. rewrite list_elem_of_filter. destruct (entries_of v p) as [es|]; simpl.
  - rewrite elem_of_readable. split; [intros [? ?]; by exists es|]. by intros (es' & [= <-] & ? & ?).
  - split; [by intros [_ ?%elem_of_nil]|by intros (? & [=] & _)].
Qed.

Lemma prefixes_spec p names q :
  q ∈ prefixes p names ↔ ∃ r1 r2, names = r1 ++ r2 ∧ r1 ≠ [] ∧ q = p ++ r1.
Proof using.
  revert p. induction names as [|n names IH]; intros p; cbn [prefixes].
  - rewrite elem_of_nil. split; [done|]. intros (r1 & r2 & E & Hr & _). by destruct r1.
  - rewrite elem_of_cons, IH. split.
    + intros [->|(r1 & r2 & -> & Hr & ->)]; [by exists [n], names|].
      exists (n :: r1), r2. by rewrite <- app_assoc.
    + intros ([|n' r1] & r2 & E & Hr & ->); [done|]. injection E as <- ->.
      destruct r1 as [|n1 r1]; [by left|right]. exists (n1 :: r1), r2. by rewrite <- app_assoc.
Qed.

Section Seen.
Context (root : Path) (po : option Z) (c0 c : list call) (l : list Path).
Context (vs : scan) (C : gmap Z bytes) (ks : InternalKeyIndex * St).
Hypothesis Hfacts : scan_facts (c0 ++ c) vs C ks.
Hypothesis Hc0 : paths c0 = prefixes [] root.
Hypothesis Hc : paths c ≡ₚ l.
Hypothesis Hord : in_order (entries_of v) root po c.
Hypothesis Hbelow : below_facts (entries_of v) goes root l.
Hypothesis Hroot : node_path (key_tree (cur ks.1)) po root.
Hypothesis Hpath : ∀ q, q ∈ prefixes [] root → goes q = true.

Abbreviation t := (key_tree (cur ks.1)).

Lemma t_unique k1 k2 n : t !! k1 = Some n → t !! k2 = Some n → k1 = k2.
Proof using Type*.
  destruct (scanned_ok _ _ _ _ _ Hstart (sf_scan _ _ _ _ Hfacts)) as (V & (Hs & _) & _).
  by apply (ok_unique _ (sc_tables _ _ Hs)).
Qed.

Lemma path_of_seen i e sn q : vs !! i = Some (e, sn) → node_path t (Some i) q →
  ∃ o, (key.parent_id e, q, o) ∈ c0 ++ c ∧ of_path (key.parent_id e) q e ∧ C !! i = content q ∧ seen_of q sn.
Proof using Hfacts.
  intros Hi Hq. destruct (sf_seen _ _ _ _ Hfacts _ _ _ Hi) as (pl & q' & Hin & He & Hq' & ? & ?).
  pose proof (node_path_fun _ _ _ _ Hq Hq') as <-. rewrite (of_path_parent _ _ _ He). eauto.
Qed.

(** A node that was seen shows its path. *)
Lemma seen_item rec i e sn q it :
  vs !! i = Some (e, sn) → node_path t (Some i) q → seen_as rec C i e sn it → item_of q it.
Proof using Hfacts Hhonest.
  intros Hi Hq [Hname Hread Hun Hfile _].
  destruct (path_of_seen _ _ _ _ Hi Hq) as (o & _ & He & HCi & Hsn).
  remember (key.parent_id e) as pl. destruct He as [now data Hd].
  assert (key.name it.1 = Models.FileName_from_os_string (default [] (last q))) as Hn by by rewrite Hname.
  assert (∀ c, content q = Some c → it.2 = TFile c) as Hc' by (intros; by apply Hfile; congruence).
  assert (of_kind (shown_data (path_entry now pl q data) (content q)) it.2 → shape q it.2) as Hkind.
  { unfold shape, shown_data, of_kind. destruct (content q) as [c'|] eqn:Ec; [by intros; apply Hc'|].
    rewrite Hd. cbn [key.data path_entry key.Entry_new].
    destruct data; try destruct (valid_utf8 _); destruct it.2; intros; subst; by eauto. }
  destruct sn as [c'|d c'].
  - cbn in Hsn. subst c'. destruct (Hread _ eq_refl) as [Hinfo Hk]. split; [done| |by apply Hkind].
    left. by exists now, data.
  - destruct Hsn as [-> (k & m & Hk & Htop & Hm & Hmod)].
    destruct (Hun _ _ eq_refl) as [[Hinfo Hkd]|[Hinfo Hrow]].
    + split; [done| |by apply Hkind]. left. by exists now, data.
    + split; [done| |].
      * right. exists k, d, m. split_and!; [done..|]. by rewrite Hname.
      * pose proof (Hhonest _ _ _ _ Hk Htop Hm Hmod) as Hsays. unfold row_says in Hsays. unfold shape.
        destruct (content q) as [c'|] eqn:Ec; [by apply Hc'|]. destruct Hsays as [Hh Hl].
        specialize (Hrow Hh). rewrite Hl in Hrow. rewrite Hd in *. unfold from_utf8 in Hrow.
        destruct data as [|?| |p]; try done. by destruct (valid_utf8 p).
Qed.

(** A call below the directory is for an entry of its parent. *)
Lemma call_listed pl q o p n : (pl, q, o) ∈ c → q = p ++ [n] →
  ∃ es, entries_of v p = Some es ∧ inl q ∈ es ∧ (p = root ∨ goes p = true).
Proof using Hfacts Hord Hview.
  intros Hin ->. apply list_elem_of_split in Hin as (c1 & c2 & Ec).
  destruct (Hord _ _ _ _ _ Ec) as (r & es & Hd & Hq & He).
  destruct (vw_names _ Hview _ _ _ Hd Hq) as (n' & E & _). apply app_inj_2 in E as [-> _]; [|done].
  exists es. split_and!; [done|done|]. destruct He as [[-> _]|[pl0 Hr]]; [by left|right].
  assert ((pl0, r, Some pl) ∈ c0 ++ c) as Hr'.
  { rewrite Ec. apply elem_of_app. right. apply elem_of_app. by left. }
  pose proof (sf_dir _ _ _ _ Hfacts _ _ _ Hr'). by destruct (goes r).
Qed.

Lemma call_before q : q ∈ paths c0 → ∃ r1 r2, root = r1 ++ r2 ∧ r1 ≠ [] ∧ q = r1.
Proof using Hc0. rewrite Hc0. by intros (r1 & r2 & ? & ? & ->)%prefixes_spec; exists r1, r2. Qed.

(** What was seen in the directory of [p]. *)
Lemma seen_child p po' i : node_path t po' p → i ∈ seen_in vs po' →
  ∃ n o, (po', p ++ [n], o) ∈ c0 ++ c ∧ node_path t (Some i) (p ++ [n]) ∧ is_Some (entry_data (p ++ [n])).
Proof using Hfacts.
  intros Hp (e & sn & Hi & Hpar)%elem_of_seen_in.
  destruct (sf_seen _ _ _ _ Hfacts _ _ _ Hi) as (pl & q & Hin & He & Hq & _).
  destruct (sf_place _ _ _ _ Hfacts _ _ _ Hin) as (p' & n & -> & _ & Hp').
  rewrite (of_path_parent _ _ _ He) in Hpar. subst pl. rewrite (node_path_fun _ _ _ _ Hp Hp').
  eexists n, _. split_and!; [exact Hin|done|]. by destruct He as [now data ->].
Qed.

(** What was called for in [p] was seen there. *)
Lemma called_seen p po' pl n o i : node_path t po' p → (pl, p ++ [n], o) ∈ c0 ++ c →
  is_Some (entry_data (p ++ [n])) → node_path t (Some i) (p ++ [n]) → i ∈ seen_in vs po'.
Proof using Type*.
  intros Hp Hin Hd Hi. destruct (sf_entered _ _ _ _ Hfacts _ _ _ Hin Hd) as (j & e & sn & Hj & He & Hjp).
  pose proof (node_path_inj _ _ _ _ t_unique Hi Hjp) as [= <-].
  destruct (sf_place _ _ _ _ Hfacts _ _ _ Hin) as (p' & n' & E & _ & Hp'). apply app_inj_2 in E as [<- _]; [|done].
  apply elem_of_seen_in. exists e, sn. split; [done|]. rewrite (of_path_parent _ _ _ He).
  by eapply node_path_inj; [apply t_unique|..].
Qed.

Definition scanned_dir (p : Path) : Prop := p = root ∨ p ∈ l ∧ goes p = true.

Lemma scanned_dir_extends p : scanned_dir p → ∃ r, p = root ++ r.
Proof using Hbelow.
  intros [->|[Hp _]]; [exists []; by rewrite app_nil_r|].
  destruct (bf_extends _ _ _ _ Hbelow _ Hp) as (r & _ & ->). by exists r.
Qed.

Lemma listed_below p es q : scanned_dir p → entries_of v p = Some es → inl q ∈ es → q ∈ l.
Proof using Hbelow.
  intros [->|[Hpl Hg]]; [by eapply (bf_root _ _ _ _ Hbelow)|by eapply (bf_closed _ _ _ _ Hbelow p)].
Qed.

(** The nodes seen in a directory are the entries that it shows. *)
Lemma seen_shown p po' i : scanned_dir p → node_path t po' p → i ∈ seen_in vs po' →
  ∃ q, q ∈ shown_in p ∧ q ∈ l ∧ node_path t (Some i) q.
Proof using All.
  intros Hs Hp Hi. destruct (seen_child _ _ _ Hp Hi) as (n & o & Hin & Hq & Hd). exists (p ++ [n]).
  apply elem_of_app in Hin as [Hin|Hin].
  - destruct (call_before (p ++ [n])) as (r1 & r2 & E & _ & Hr); [apply list_elem_of_fmap; by eexists (_, _, _)|].
    destruct (scanned_dir_extends _ Hs) as [r ->]. apply (f_equal length) in Hr, E.
    rewrite !length_app in *. simpl in *. lia.
  - destruct (call_listed _ _ _ _ _ Hin eq_refl) as (es & Hes & Hq' & _). split_and!; [|..|done].
    + apply elem_of_shown_in. by exists es.
    + rewrite <- Hc. apply list_elem_of_fmap. by eexists (_, _, _).
Qed.

Lemma shown_seen p po' q i : scanned_dir p → node_path t po' p → q ∈ shown_in p →
  node_path t (Some i) q → i ∈ seen_in vs po'.
Proof using All.
  intros Hs Hp (es & Hes & Hq & Hd)%elem_of_shown_in Hi.
  pose proof (listed_below _ _ _ Hs Hes Hq) as Hql.
  destruct (vw_names _ Hview _ _ _ Hes Hq) as (n & -> & _).
  rewrite <- Hc in Hql. apply list_elem_of_fmap in Hql as ([[pl q'] o] & [= <-] & Hin).
  eapply called_seen; [done|apply elem_of_app; by right|done|done].
Qed.

(** Every entry that a directory shows is a node. *)
Lemma shown_node p q : scanned_dir p → q ∈ shown_in p → ∃ i, node_path t (Some i) q.
Proof using All.
  intros Hs (es & Hes & Hq & Hd)%elem_of_shown_in.
  pose proof (listed_below _ _ _ Hs Hes Hq) as Hql.
  rewrite <- Hc in Hql. apply list_elem_of_fmap in Hql as ([[pl q'] o] & E & Hin). simpl in E. subst q'.
  destruct (sf_entered _ _ _ _ Hfacts _ _ _ (proj2 (elem_of_app _ _ _) (or_intror Hin)) Hd) as (i & _ & _ & _ & _ & ?).
  by exists i.
Qed.

(** Only directories have children. *)
Lemma parents_go i q j : node_path t (Some i) q → j ∈ seen_in vs (Some i) → goes q = true.
Proof using All.
  intros Hq Hj. destruct (seen_child _ _ _ Hq Hj) as (n & o & Hin & _ & _).
  assert (q ≠ []) as Hne by by intros ->; apply node_path_nil in Hq.
  apply elem_of_app in Hin as [Hin|Hin].
  - destruct (call_before (q ++ [n])) as (r1 & r2 & E & _ & <-); [apply list_elem_of_fmap; by eexists (_, _, _)|].
    apply Hpath, prefixes_spec. exists q, ([n] ++ r2). by rewrite app_assoc.
  - destruct (call_listed _ _ _ _ _ Hin eq_refl) as (es & _ & _ & [->|?]); [|done].
    apply Hpath, prefixes_spec. exists root, []. by rewrite app_nil_r.
Qed.

(** The values of two lists that go with the same ids. *)
Lemma Forall2_meet {A B D} (P : A → B → Prop) (Q : A → D → Prop) (P' : B → D → Prop) ks' l1 l2 :
  (∀ a b d, P a b → Q a d → P' b d) → Forall2 P ks' l1 → Forall2 Q ks' l2 → Forall2 P' l1 l2.
Proof using.
  intros HP HPs. revert l2. induction HPs as [|a b ks' l1 Hab _ IH]; intros l2 HQs; inversion HQs; subst;
    constructor; eauto.
Qed.

Lemma Forall2_NoDup {A B} (P : A → B → Prop) l1 l2 :
  (∀ a a' b, P a b → P a' b → a = a') → NoDup l1 → Forall2 P l1 l2 → NoDup l2.
Proof using.
  intros HP Hnd HPs. induction HPs as [|a b l1 l2 Hab HPs IH]; [constructor|].
  apply NoDup_cons in Hnd as [Ha Hnd]. apply NoDup_cons. split; [|by apply IH].
  intros (j & Hj)%list_elem_of_lookup. destruct (Forall2_lookup_r _ _ _ _ _ HPs Hj) as (a' & Ha' & Hab').
  destruct Ha. rewrite (HP _ _ _ Hab Hab'). apply list_elem_of_lookup. by exists j.
Qed.

Lemma shown_once p : NoDup (shown_in p).
Proof using Hview.
  apply NoDup_filter. destruct (entries_of v p) as [es|] eqn:E; [by eapply (vw_once _ Hview)|constructor].
Qed.

Lemma node_of_path i i' q : node_path t (Some i) q → node_path t (Some i') q → i = i'.
Proof using Type*. intros Hq Hq'. by pose proof (node_path_inj _ _ _ _ t_unique Hq Hq') as [= ->]. Qed.

(** The ids that were seen in a directory, as the paths that it shows. *)
Lemma seen_paths p po' is_ : scanned_dir p → node_path t po' p → is_ ≡ₚ seen_in vs po' →
  ∃ qs, qs ≡ₚ shown_in p ∧ Forall2 (λ i q, q ∈ l ∧ node_path t (Some i) q) is_ qs.
Proof using All.
  intros Hs Hp His. destruct (Forall_choose (λ i q, q ∈ shown_in p ∧ q ∈ l ∧ node_path t (Some i) q) is_) as [qs Hqs].
  { intros i Hi. rewrite His in Hi. by apply (seen_shown p po'). }
  exists qs. split; [|by eapply Forall2_impl; [done|]; naive_solver].
  apply NoDup_Permutation; [|apply shown_once|].
  - eapply (Forall2_NoDup _ is_); [|rewrite His; apply NoDup_fst_map_to_list|exact Hqs].
    intros i i' q (_ & _ & Hi) (_ & _ & Hi'). by eapply node_of_path.
  - intros q. split.
    + intros (j & Hj)%list_elem_of_lookup. by destruct (Forall2_lookup_r _ _ _ _ _ Hqs Hj) as (? & _ & ? & _).
    + intros Hq. destruct (shown_node _ _ Hs Hq) as [i Hi].
      pose proof (shown_seen _ _ _ _ Hs Hp Hq Hi) as Hin. rewrite <- His in Hin.
      apply list_elem_of_lookup in Hin as [j Hj].
      destruct (Forall2_lookup_l _ _ _ _ _ Hqs Hj) as (q' & Hq' & _ & _ & Hi').
      rewrite (node_path_fun _ _ _ _ Hi Hi'). apply list_elem_of_lookup. by exists j.
Qed.

Lemma no_children n i q l' : node_path t (Some i) q → goes q = false → seen_dir n vs C (Some i) l' → l' = [].
Proof using All.
  intros Hq Hg Hseen. destruct n as [|n]; [done|]. destruct Hseen as ([|j is_] & His & Hl'); [by inversion Hl'|].
  enough (goes q = true) by congruence. eapply parents_go; [exact Hq|]. rewrite <- His. by left.
Qed.

Lemma seen_dir_os n p po' l' :
  scanned_dir p → node_path t po' p → seen_dir n vs C po' l' → os_dir n p l'.
Proof using All.
  revert p po' l'. induction n as [|n IH]; intros p po' l' Hs Hp Hseen; [done|].
  destruct Hseen as (is_ & His & Hl'). destruct (seen_paths p po' is_ Hs Hp His) as (qs & Hqs & Hids).
  exists qs. split; [done|]. eapply Forall2_meet; [|exact Hids|exact Hl'].
  intros i q it (Hql & Hq) (e & sn & He & Hit). split; [by eapply seen_item|].
  intros l'' Hdir. pose proof (sa_dir _ _ _ _ _ _ Hit _ Hdir) as Hsub. destruct (goes q) eqn:Hg.
  - eapply IH; [right; by split|exact Hq|done].
  - by eapply no_children.
Qed.

(** On the way to the directory there is nothing else. *)
Lemma seen_on_path p n names po' i : root = p ++ n :: names → node_path t po' p →
  i ∈ seen_in vs po' ↔ node_path t (Some i) (p ++ [n]).
Proof using All.
  intros Hr Hp.
  assert (p ++ [n] ∈ prefixes [] root) as Hpre.
  { apply prefixes_spec. exists (p ++ [n]), names. rewrite Hr, <- app_assoc. split_and!; [done| |done]. by destruct p. }
  split.
  - intros Hi. destruct (seen_child _ _ _ Hp Hi) as (n' & o & Hin & Hq & _). apply elem_of_app in Hin as [Hin|Hin].
    + destruct (call_before (p ++ [n'])) as (r1 & r2 & E & _ & <-); [apply list_elem_of_fmap; by eexists (_, _, _)|].
      rewrite Hr, <- app_assoc in E. apply app_inv_head in E. by injection E as -> _.
    + assert (p ++ [n'] ∈ l) as Hl by (rewrite <- Hc; apply list_elem_of_fmap; by eexists (_, _, _)).
      destruct (bf_extends _ _ _ _ Hbelow _ Hl) as (r & Hne & E). rewrite Hr in E. apply (f_equal length) in E.
      rewrite !length_app in E. destruct r; [done|]. simpl in E. lia.
  - intros Hi. rewrite <- Hc0 in Hpre. pose proof Hpre as Hg. rewrite Hc0 in Hg. apply Hpath in Hg.
    apply list_elem_of_fmap in Hpre as ([[pl q'] o] & E & Hin). simpl in E. subst q'.
    eapply called_seen; [done|apply elem_of_app; by left| |done].
    unfold goes in Hg. apply bool_decide_eq_true in Hg as ->. by eexists.
Qed.

Lemma seen_path_os n names p po' l' :
  root = p ++ names → node_path t po' p → seen_dir n vs C po' l' → os_path n p names l'.
Proof using All.
  revert n p po' l'. induction names as [|name' names IH]; intros n p po' l' Hr Hp Hseen.
  { rewrite app_nil_r in Hr. destruct n; [done|]. eapply (seen_dir_os (S n)); [by left|exact Hp|done]. }
  destruct n as [|n]; [done|]. destruct Hseen as (is_ & His & Hl').
  assert (p ++ [name'] ∈ prefixes [] root) as Hpre.
  { apply prefixes_spec. exists (p ++ [name']), names. rewrite Hr, <- app_assoc. split_and!; [done| |done]. by destruct p. }
  pose proof (Hpath _ Hpre) as Hg. rewrite <- Hc0 in Hpre.
  apply list_elem_of_fmap in Hpre as ([[pl q'] o] & E & Hin). simpl in E. subst q'.
  pose proof (sf_dir _ _ _ _ Hfacts _ _ _ (proj2 (elem_of_app _ _ _) (or_introl Hin))) as Hd. rewrite Hg in Hd.
  destruct Hd as (i & _ & Hi).
  assert (is_ = [i]) as ->.
  { apply Permutation_singleton_r. rewrite His. apply NoDup_Permutation; [apply NoDup_fst_map_to_list|apply NoDup_singleton|].
    intros j. rewrite (seen_on_path p name' names po' j Hr Hp), list_elem_of_singleton. split; [|by intros ->].
    intros Hj. by eapply node_of_path. }
  inversion Hl' as [|? it ? l1 (e & sn & He & Hit) Hl1]; subst. inversion Hl1; subst.
  pose proof (seen_item _ _ _ _ _ _ He Hi Hit) as Hitem. destruct it as [info ft].
  destruct (shape_dir _ _ Hg (it_shape _ _ Hitem)) as [l1 E]. cbn [snd] in E. subst ft.
  exists info, l1. split_and!; [done|done|]. eapply IH; [by rewrite <- app_assoc|exact Hi|].
  by apply (sa_dir _ _ _ _ _ _ Hit).
Qed.

End Seen.

(** ** What a snapshot leaves *)

Section After.
Context (root : Path) (po : option Z) (c0 c : list call) (l : list Path).
Context (vs : scan) (C : gmap Z bytes) (ks : InternalKeyIndex * St).
Hypothesis Hfacts : scan_facts (c0 ++ c) vs C ks.
Hypothesis Hc0 : paths c0 = prefixes [] root.
Hypothesis Hroot : node_path (key_tree (cur ks.1)) po root.
Hypothesis Hpath : ∀ q, q ∈ prefixes [] root → goes q = true.

Lemma scan_tables : ∃ V, Store_ok V C ks ∧ saw V vs.
Proof using Type*. by eapply scanned_ok, (sf_scan _ _ _ _ Hfacts). Qed.

Lemma facts_named : named vs.
Proof using Hfacts.
  intros i e sn Hi. destruct (sf_seen _ _ _ _ Hfacts _ _ _ Hi) as (pl & q & Hin & He & _).
  destruct (sf_place _ _ _ _ Hfacts _ _ _ Hin) as (p & n & -> & Hn & _). destruct He as [now data _].
  cbn. rewrite last_snoc. cbn. unfold Models.FileName_from_os_string.
  destruct (from_utf8 n) eqn:E; cbn; apply bool_decide_eq_false; [|done].
  unfold from_utf8 in E. by destruct (valid_utf8 n); simplify_eq.
Qed.

Lemma facts_known : known_or_plain vs C ks.1.
Proof using Type*.
  intros i e d c' Hi. destruct (sf_seen _ _ _ _ Hfacts _ _ _ Hi) as (pl & q & Hin & He & Hq & -> & Hsn).
  destruct (content q) as [b|] eqn:Ec; [left; by eexists|right].
  destruct Hsn as [-> (k & m & Hk & Htop & Hm & Hmod)]. pose proof (Hhonest _ _ _ _ Hk Htop Hm Hmod) as Hsays.
  unfold row_says in Hsays. rewrite Ec in Hsays. destruct Hsays as [Hh _].
  destruct scan_tables as (V & (Hs & _) & Hsaw). destruct (saw_row _ _ Hsaw _ _ _ Hi) as (_ & _ & d' & Hd' & Hrow).
  exists d'. split; [by destruct (sc_node _ _ Hs _ _ _ Hd') as (_ & ? & _)|].
  destruct Hrow as [->|[Hread _]]; [done|]. rewrite Ec in Hread. by inversion Hread.
Qed.

Lemma facts_cast : cast_id po.
Proof using Type*.
  destruct scan_tables as (V & (Hs & _) & _). unfold cast_id. destruct po as [k|]; [|done]. simpl. f_equal.
  eapply (as_u64_id_node _ k (ok_tree _ (sc_tables _ _ Hs))). by eapply node_path_in.
Qed.

(** The nodes of earlier scans lie on the way to the directory or below it. *)
Definition only_here (root : Path) : Prop :=
  ∀ k p, node_path t0 (Some k) p → p `prefix_of` root ∨ root `prefix_of` p.

Lemma on_path_seen k p : node_path (key_tree (cur ks.1)) (Some k) p → p `prefix_of` root → is_Some (vs !! k).
Proof using Type*.
  intros Hk [r Hr]. assert (p ∈ prefixes [] root) as Hp.
  { apply prefixes_spec. exists p, r. split_and!; [done| |done]. intros ->. by apply node_path_nil in Hk. }
  pose proof (Hpath _ Hp) as Hg. unfold goes in Hg. apply bool_decide_eq_true in Hg.
  rewrite <- Hc0 in Hp. apply list_elem_of_fmap in Hp as ([[pl q] o] & E & Hin). simpl in E. subst q.
  destruct (sf_entered _ _ _ _ Hfacts _ _ _ (proj2 (elem_of_app _ _ _) (or_introl Hin)) ltac:(by rewrite Hg))
    as (i & e & sn & Hi & _ & Hip).
  destruct scan_tables as (V & (Hs & _) & _).
  pose proof (node_path_inj _ _ _ _ (ok_unique _ (sc_tables _ _ Hs)) Hk Hip) as [= ->]. by eexists.
Qed.

Lemma facts_outside : only_here root → outside_seen vs po ks.1.
Proof using Type*.
  intros Hhere k Hk Hvs. destruct (sf_rest _ _ _ _ Hfacts _ Hvs) as (Ht & _). rewrite Ht in Hk.
  destruct (node_path_total t0 k) as [p Hp]; [apply t0_tables|done|].
  pose proof (node_path_mono _ _ _ _ (sf_old _ _ _ _ Hfacts) Hp) as Hp'.
  assert (∀ p', node_path (key_tree (cur ks.1)) (Some k) p' → ¬ p' `prefix_of` root) as Hno.
  { intros p' Hk' Hpre. destruct (on_path_seen _ _ Hk' Hpre) as [? E]. congruence. }
  destruct (Hhere _ _ Hp) as [Hpre|[r ->]]; [by destruct (Hno p)|].
  destruct (node_path_under _ _ _ _ Hp') as (po' & Hpo' & _ & Hu).
  destruct r as [|n r]; [rewrite app_nil_r in Hp'; by destruct (Hno root)|].
  destruct (Hu ltac:(done)) as (k' & [= <-] & Hk'). destruct scan_tables as (V & (Hs & _) & _).
  by rewrite (node_path_inj _ _ _ _ (ok_unique _ (sc_tables _ _ Hs)) Hroot Hpo').
Qed.

End After.

(** A snapshot of a directory that stands still, seen from the key store: a scan of it, and its
    commit; what it has seen is what the directory shows. *)
Lemma snapshot_scan dir root l sched (w w' : World) :
  still (os w) → processes w = ks0 → scannable dir root l → only_here root →
  snapshot_dir (R := R) self fuel sched dir w = (Ok (), w') →
  ∃ vs C ks1 po, scanned (R := R) C0 ks0 vs C ks1 ∧ cast_id po ∧ named vs ∧ known_or_plain vs C ks1.1 ∧
    outside_seen vs po ks1.1 ∧
    handle fuel (CommitReservedNodes (R := R) (Some po)) ks1 = (Ok ReplyOk, processes w') ∧
    ∀ n l', seen_dir n vs C None l' → os_path n [] root l'.
Proof using All.
  intros Ho Hp Hsn Hhere Hrun.
  destruct (snapshot_run dir root l sched w w' Ho Hp Hsn Hrun)
    as (c0 & c & w1 & po & Hc0 & Hc & Hord & Hbf & [[_ (vs & C & Hf)] Hr Hb Hnd] & Hcommit).
  pose proof (sn_path _ _ _ Hsn) as Hpath. exists vs, C, (processes w1), po.
  split_and!; [apply Hf|by eapply facts_cast|by eapply facts_named|by eapply facts_known|by eapply facts_outside|done|].
  intros n l'. by apply (seen_path_os root po c0 c l vs C (processes w1) Hf Hc0 Hc Hord Hbf Hr Hpath);
    [|constructor].
Qed.

End View.
