(* ===== verification/ScanSpec.v ===== *)
(** * From a directory to its backup

    The snapshot of a directory that stands still, on the real store: its commit and checkout
    give the directory back. *)

From S2P Require Import Prelude Utf8 Cbor Codec Refs Ordered Upq Timer Db Crypto ModelSodium.
From S2P Require Import HashIndex Backend Blob BlobStore ModelWorld HashTree HashTreeSim HashStore.
From S2P Require Import StoreIndex HashStoreOk HashStoreSpec Hat KeyIndex KeyIndexOk KeyIndexScan.
From S2P Require Import KeyStore KeyStoreOk KeyStoreSpec Walker FileSystem ListDir Family FamilyOk Scan.
From S2P Require Import Checkout CheckoutSpec FamilySim ScanTree BackupSpec ScanOk.
From S2P Require Models.
Import key_schema (KeyNode, mkKeyNode, KeyData, mkKeyData, key_tree, key_data).

(** ** Directories listed over states that agree *)

Section ListDir.
Context {P W1 W2 : Type} `{P1 : !PathHandler P W1} `{P2 : !PathHandler P W2} (ρ : W1 → W2).
Hypothesis Hread : ∀ p, tracks ρ (read_dir (PathHandler := P1) p) (read_dir (PathHandler := P2) p).
Hypothesis Hhandle : ∀ pl p,
  tracks ρ (handle_path (PathHandler := P1) pl p) (handle_path (PathHandler := P2) pl p).

Lemma worker_tracks (j : Job P) :
  tracks ρ (recurse_worker (PathHandler0 := P1) j) (recurse_worker (PathHandler0 := P2) j).
Proof using All. destruct j as [r pl|[|[q|e] es] pl]; cbn [recurse_worker]; track; auto with tracks. Qed.

Definition on_jobs (x : list (Job P) * W1) : list (Job P) * W2 := (x.1, ρ x.2).

Lemma turn_tracks i : tracks on_jobs (turn (PathHandler0 := P1) i) (turn (PathHandler0 := P2) i).
Proof using All.
  unfold turn. apply tracks_bind; [by apply tracks_gets|]. intros jobs. destruct (jobs !! i) as [j|]; [|done].
  case_decide; [|done]. apply tracks_bind; [apply (tracks_zoom _ ρ); [apply worker_tracks|done..]|].
  intros new. by apply tracks_zoom_same.
Qed.

Lemma recurse_tracks sched root pl :
  tracks ρ (recurse (PathHandler0 := P1) sched root pl) (recurse (PathHandler0 := P2) sched root pl).
Proof using All.
  intros w. unfold recurse.
  pose proof (tracks_for_each on_jobs _ _ sched turn_tracks ([Start root pl], w)) as E.
  change (on_jobs ([Start root pl], w)) with ([Start root pl], ρ w) in E. rewrite E.
  by destruct (for_each (turn (PathHandler0 := P1)) sched ([Start root pl], w)) as [[[]|e| |] [[|j jobs] w1]].
Qed.

End ListDir.

(** ** Snapshots over stores that agree *)

Section Snapshot.
Context {S1 S2 Os R : Type} (π : S1 → S2) `{KeyMorphism S1 S2 π} `{!Reader R} `{!ScanOs Os R}.
Context `{Cbor Models.HashRefs} `{Cbor Models.HashRef} `{Cbor Models.Files}.
Context (name : bytes) (fuel : nat).

Definition on_world (w : ScanWorld (Os := Os) (Ps := InternalKeyIndex * S1)) :
    ScanWorld (Os := Os) (Ps := InternalKeyIndex * S2) :=
  mkScanWorld (os w) (on_key π (processes w)) (lent w) (turns w).

Lemma on_os_tracks {A} (m : M Os A) : tracks on_world (zoom os_lens m) (zoom os_lens m).
Proof. by apply tracks_zoom_same. Qed.

(** Whatever the pool lends, there is one process. *)
Lemma lend_sole {A Ps B} (a : A) (k : A → M (ScanWorld (Os := Os) (Ps := Ps)) B) w :
  (lend [a] ≫= k) w = k a (mkScanWorld (os w) (processes w) (lent w) (S (turns w))).
Proof. unfold mbind, M_bind, lend. cbn [length]. by rewrite Nat.mod_1_r. Qed.

Lemma on_process_tracks msg :
  tracks on_world (zoom processes_lens (send_reply (R := R) whole fuel msg))
    (zoom processes_lens (send_reply (R := R) whole fuel msg)).
Proof using All.
  apply (tracks_zoom _ (on_key π)); [|done..]. unfold send_reply.
  apply (tracks_zoom _ (on_key π)); [apply handle_tracks, _|done..].
Qed.

Lemma insert_path_tracks pl q :
  tracks on_world (insert_path (R := R) (sole_family (St := S1) name) fuel pl q)
    (insert_path (R := R) (sole_family (St := S2) name) fuel pl q).
Proof using All.
  unfold insert_path. apply tracks_bind; [apply tracks_attempt, on_os_tracks|]. intros [fe|e]; [|done].
  apply tracks_bind; [destruct (is_file fe); [apply tracks_bind; [apply on_os_tracks|done]|done]|].
  intros src w. cbn [key_store_process sole_family]. rewrite !lend_sole.
  refine (tracks_bind on_world _ _ _ _ _ _ (mkScanWorld (os w) (processes w) (lent w) (S (turns w)))).
  - apply tracks_unwrap, on_process_tracks.
  - by intros [].
Qed.

Lemma descend_tracks names d :
  tracks on_world (descend (R := R) (sole_family (St := S1) name) fuel names d)
    (descend (R := R) (sole_family (St := S2) name) fuel names d).
Proof using All.
  revert d. induction names as [|n names IH]; intros d; cbn [descend]; [done|].
  destruct (inside_non_dir d); [done|]. apply tracks_bind; [apply insert_path_tracks|]. intros o. apply IH.
Qed.

Lemma snapshot_tracks sched dir :
  tracks on_world (snapshot_dir (R := R) (sole_family (St := S1) name) fuel sched dir)
    (snapshot_dir (R := R) (sole_family (St := S2) name) fuel sched dir).
Proof using All.
  assert (∀ c, tracks on_world (commit_reserved (R := R) (sole_family (St := S1) name) fuel c)
    (commit_reserved (R := R) (sole_family (St := S2) name) fuel c)) as Hcommit.
  { intros c w. unfold commit_reserved. cbn [key_store_process sole_family head expect]. erewrite !bind_lift by done.
    refine (tracks_bind on_world _ _ _ _ _ _ w); [apply tracks_unwrap, on_process_tracks|by intros []]. }
  unfold snapshot_dir. apply tracks_bind; [apply tracks_unwrap, on_os_tracks|]. intros d.
  apply tracks_bind; [apply descend_tracks|]. intros ds.
  apply tracks_bind; [destruct (bailout ds); [done|apply on_os_tracks]|]. intros [|]; [|apply Hcommit].
  apply tracks_bind; [|intros _; apply Hcommit].
  apply (recurse_tracks (P1 := insert_path_handler (R := R) (sole_family (St := S1) name) fuel)
    (P2 := insert_path_handler (R := R) (sole_family (St := S2) name) fuel)).
  - intros p. apply on_os_tracks.
  - intros po p. apply insert_path_tracks.
Qed.

End Snapshot.

(** ** The real store *)

Section Real.
Context `{SodiumLaws} `{LruCacheLaws}.
Context `{CborLaws Models.ChunkRef} `{CborLaws Models.HashIds} `{CborLaws Models.HashRef}.
Context `{CborLaws Models.HashRefs} `{CborLaws Models.Files}.
Context {B : Type} `{StoreBackendLaws (list Z) B}.
Context {R : Type} `{ReaderLaws R} {Fs : Type} `{FileSystemLaws Fs}.
Context {Os : Type} `{!ScanOs Os R}.
Implicit Types s : Store Z B.

#[local] Existing Instance logged_store_backend | 5.
#[local] Existing Instance store_backend | 5.
#[local] Existing Instance logged_store_laws.
#[local] Existing Instance logged_store_morphism.

(** The snapshot's run with the record of insertions. *)
Lemma logged_snapshot name fuel sched dir hist (w w' : ScanWorld (Os := Os)) x s :
  processes w = (x, s) → snapshot_dir (R := R) (sole_family name) fuel sched dir w = (Ok (), w') →
  ∃ w1' : ScanWorld (Os := Os), processes w' = on_key (S1 := Store Z B * history) fst (processes w1') ∧
    snapshot_dir (R := R) (sole_family name) fuel sched dir
      (mkScanWorld (os w) (x, (s, hist)) (lent w) (turns w)) = (Ok (), w1').
Proof.
  intros Hp Hrun. set (w1 := mkScanWorld (os w) (x, (s, hist)) (lent w) (turns w)).
  pose proof (snapshot_tracks (S1 := Store Z B * history) fst name fuel sched dir w1) as Ht.
  replace (on_world fst w1) with w in Ht by (destruct w; simpl in *; by subst).
  rewrite Hrun in Ht. destruct (snapshot_dir _ _ _ _ w1) as [r w1']. injection Ht as <- ->. by exists w1'.
Qed.


End Real.

(** ** A file system in memory, as the scan sees it *)

Abbreviation Disk := (gmap Path FsNode).
Abbreviation reader := (FileIterator Empty_set).

Section Disk.

Definition disk_meta (n : FsNode) : FileMeta :=
  mkFileMeta (match kind n with KFile _ => IsFile | KDir => IsDir | KLink _ => IsSymlink end)
    (key.mkMetadata None (times n).2 (times n).1 (kind_bits (kind n) + perm n) 0 0
      (match kind n with KFile c => Z.of_nat (length c) | _ => 0 end)).

Definition disk_list (d : Disk) (p : Path) : option (list (Path + error)) :=
  n ← d !! p;
  match kind n with
  | KDir => Some (inl <$> filter (λ q, q ≠ [] ∧ pop q = p) (map_to_list d).*1)
  | _ => None
  end.

Definition disk_file (d : Disk) (p : Path) : option bytes :=
  n ← d !! p; match kind n with KFile c => Some c | _ => None end.

Definition disk_link (d : Disk) (p : Path) : option bytes :=
  n ← d !! p; match kind n with KLink t => Some t | _ => None end.

Definition disk_view (d : Disk) : OsView :=
  mkOsView (λ p, disk_meta <$> d !! p) (disk_link d) (disk_list d) (disk_file d) Some.

Definition or_missing {A} (o : option A) : res A := ok_or o (IoError "no such file").

#[export] Instance disk_os : ScanOs Disk reader := {|
  symlink_metadata p d := (or_missing (meta_of (disk_view d) p), d);
  read_link p d := (or_missing (disk_link d p), d);
  fs_read_dir p d := (or_missing (disk_list d p), d);
  open_file p d := (or_missing (from_bytes <$> disk_file d p), d);
  canonicalize p d := (Ok p, d);
  Scan.is_dir p d := (Ok (match kind <$> d !! p with Some KDir => true | _ => false end), d);
  time_now d := (Ok 1000%Z, d);
|}.

Lemma or_missing_answers {A} (o : option A) : answers o (or_missing o).
Proof. destruct o; [done|by eexists]. Qed.

Lemma disk_still d : stands_still (R := reader) (disk_view d) (λ d', d' = d).
Proof.
  split.
  1-3: intros p o r o' -> [= <- <-]; split; [done|]; apply or_missing_answers.
  - intros p o r o' -> [= <- <-]. split; [done|]. cbn. unfold or_missing.
    destruct (disk_file d p) as [c|]; [|by eexists]. by exists (from_bytes c), 0.
  - by intros p o r o' -> [= <- <-].
  - intros p o r o' -> [= <- <-]. split; [done|]. intros m. cbn. destruct (d !! p) as [n|]; [|done].
    intros [= <-]. cbn. by destruct (kind n).
  - intros o r o' -> [= <- <-]. split; [done|]. by eexists.
Qed.

(** Names that a system gives, and numbers in their ranges. *)
Definition disk_ok (d : Disk) : Prop :=
  map_Forall (λ q n, (q = [] ∨ ∃ n', last q = Some n' ∧ plain n') ∧
    (0 ≤ kind_bits (kind n) + perm n < 2 ^ 32)%Z ∧
    match kind n with KFile c => (Z.of_nat (length c) < 2 ^ 64)%Z | _ => True end) d.

Lemma disk_view_ok d : disk_ok d → view_ok (disk_view d).
Proof.
  intros Hd. split.
  - intros p es q. cbn. unfold disk_list. intros (n & Hp & Hk)%bind_Some. destruct (kind n); simplify_eq.
    intros (q' & [= <-] & [[Hne <-] Hq]%list_elem_of_filter)%list_elem_of_fmap.
    apply list_elem_of_fmap in Hq as ([q2 m] & -> & Hq%elem_of_map_to_list). cbn [fst] in *.
    destruct (Hd _ _ Hq) as ([->|(name & Hl & Hpl)] & _); [done|]. exists name. split; [|done].
    apply last_Some in Hl as [p ->]. by rewrite pop_snoc.
  - intros p es. cbn. unfold disk_list. intros (n & Hp & Hk)%bind_Some. destruct (kind n); simplify_eq.
    set (l := filter _ _). assert (readable_paths (inl <$> l) = l) as ->.
    { unfold readable_paths. clear. induction l; [done|]. cbn. by f_equal. }
    apply NoDup_filter, NoDup_fst_map_to_list.
  - intros q m. cbn. intros (n & Hq & ->)%fmap_Some. destruct (Hd _ _ Hq) as (_ & Hp & Hc). cbn.
    split_and!; try done; destruct (kind n); lia.
Qed.

(** The conditions on a directory, computed. *)
Definition can_scan (d : Disk) (root : Path) : option (list Path) :=
  '(l, _) ← walk (disk_list d) (goes (disk_view d)) 10 root;
  if bool_decide (Forall plain root) && forallb (goes (disk_view d)) (prefixes [] root) &&
    bool_decide (length root + length l < 1000)
  then Some l else None.

Lemma can_scan_ok {St} d root l n0 (ks0 : InternalKeyIndex * St) : root ≠ [] →
  can_scan d root = Some l → (next_rowid (key_tree (cur ks0.1)) ≤ n0)%Z → (n0 ≤ 1000)%Z →
  scannable (disk_view d) ks0 root root l.
Proof.
  intros Hne Hc Hn0 Hn. unfold can_scan in Hc. apply bind_Some in Hc as ([l' n] & Hw & Hc).
  destruct (_ && _) eqn:E; simplify_eq. apply andb_true_iff in E as [[Hp Hg]%andb_true_iff Hl].
  apply bool_decide_eq_true in Hp, Hl. rewrite Forall_forall in Hp.
  assert (∀ q, q ∈ prefixes [] root → goes (disk_view d) q = true) as Hgo.
  { intros q Hq. rewrite forallb_forall in Hg. apply Hg. by apply list_elem_of_In. }
  split; [done|done|done| | |].
  - assert (goes (disk_view d) root = true) as Hr.
    { apply Hgo, prefixes_spec. exists root, []. by rewrite app_nil_r. }
    unfold goes in Hr. apply bool_decide_eq_true in Hr. unfold entry_data in Hr.
    apply bind_Some in Hr as (? & _ & (m & Hm & Hk)%bind_Some). exists m. split; [done|].
    destruct (file_kind m); try done. by destruct (link_of _ _).
  - exists n. by apply (walk_below _ _ 10).
  - lia.
Qed.

End Disk.

(** ** Runs *)

Section Runs.

Import ModelSodium ModelWorld MemoryBackend.

#[local] Existing Instance model_sodium.
#[local] Existing Instance model_laws.
#[local] Existing Instance model_lru.
#[local] Existing Instance model_lru_laws.
#[local] Existing Instance chunk_ref_cbor.
#[local] Existing Instance chunk_ref_laws.
#[local] Existing Instance ids_cbor.
#[local] Existing Instance ids_laws.
#[local] Existing Instance href_cbor.
#[local] Existing Instance href_laws.
#[local] Existing Instance hrefs_cbor.
#[local] Existing Instance hrefs_laws.
#[local] Existing Instance files_cbor.
#[local] Existing Instance files_laws.
#[local] Existing Instance logged_store_backend | 5.
#[local] Existing Instance store_backend | 5.

(** A directory with a file, a link and an empty directory. *)
Definition a_disk : Disk := list_to_map [
  ([], mkFsNode KDir 493 (7, 7)%Z);
  ([lit "h"], mkFsNode KDir 493 (7, 8)%Z);
  ([lit "h"; lit "a"], mkFsNode (KFile (lit "hello")) 420 (7, 9)%Z);
  ([lit "h"; lit "l"], mkFsNode (KLink (lit "a")) 511 (7, 9)%Z);
  ([lit "h"; lit "d"], mkFsNode KDir 448 (7, 9)%Z)].

Definition home : Path := [lit "h"].

Definition a_world (x : InternalKeyIndex) (s : Store Z MemoryBackend) : ScanWorld :=
  mkScanWorld a_disk (x, s) (λ n, n) 0.

Definition a_schedule : list nat := concat (replicate 8 [1; 0; 2]).

(** The snapshot from a new store and new tables, for what follows. *)
Definition snapshot_from_new (k : ScanWorld (Os := Disk) → bool) : bool :=
  match new_store with
  | Ok s => match new_key_index with Ok x => check_run (snapshot_dir (R := reader)
      (sole_family (lit "f")) 5 a_schedule home (a_world x s)) (λ _ w, k w) | _ => false end
  | _ => false
  end.

Definition entered_nodes (w : ScanWorld (Os := Disk) (Ps := InternalKeyIndex * Store Z MemoryBackend)) : bool :=
  bool_decide (size (key_tree (cur (processes w).1)) = 4).

Lemma snapshot_runs : snapshot_from_new entered_nodes = true.
Proof. vm_compute. reflexivity. Qed.

Lemma new_index_empty : ∃ x, new_key_index = Ok x ∧ key_tree (cur x) = ∅.
Proof. eexists. split; reflexivity. Qed.

Lemma can_scan_home : ∃ l, can_scan a_disk home = Some l.
Proof. eexists. vm_compute. reflexivity. Qed.

Lemma a_disk_ok : disk_ok a_disk.
Proof.
  assert (∀ q n, (q, n) ∈ map_to_list a_disk → (q = [] ∨ from_option plain False (last q)) ∧
    (0 ≤ kind_bits (kind n) + perm n < 2 ^ 32)%Z ∧
    match kind n with KFile c => (Z.of_nat (length c) < 2 ^ 64)%Z | _ => True end) as Hall.
  { assert (forallb (λ qn : Path * FsNode,
      (bool_decide (qn.1 = []) || match last qn.1 with Some n => bool_decide (plain n) | None => false end) &&
      bool_decide (0 ≤ kind_bits (kind qn.2) + perm qn.2 < 2 ^ 32)%Z &&
      match kind qn.2 with KFile c => bool_decide (Z.of_nat (length c) < 2 ^ 64)%Z | _ => true end)
      (map_to_list a_disk) = true) as Hb by by vm_compute.
    rewrite forallb_forall in Hb. intros q n Hin%list_elem_of_In%Hb. cbn [fst snd] in Hin.
    apply andb_true_iff in Hin as [[H1 H2%bool_decide_eq_true]%andb_true_iff H3]. split; [|split; [done|]].
    - apply orb_true_iff in H1 as [H1%bool_decide_eq_true|H1]; [by left|right].
      destruct (last q); [by apply bool_decide_eq_true in H1|done].
    - destruct (kind n); [by apply bool_decide_eq_true in H3|done..]. }
  intros q n Hq%elem_of_map_to_list. destruct (Hall _ _ Hq) as (Hl & ? & ?). split; [|done].
  destruct Hl as [->|Hl]; [by left|right]. destruct (last q); [by eexists|done].
Qed.


End Runs.
