(* ===== verification/Frames.v ===== *)
(** * What the repository's operations leave alone

    The table of snapshots while chunks are written, the blobs and hashes while snapshots are
    registered: frames for the composition of the repository's parts. *)

From S2P Require Import Prelude Cbor Refs HashTree KeyIndex KeyStore Family Ordered Upq Timer Db Crypto.
From S2P Require Import HashIndex Backend Blob BlobStore HashStore StoreIndex HashStoreOk.
From S2P Require Import Gc HatGc Hat GcOk HatGcOk.
From S2P Require Models Snapshot.
Import Ordered.tags.

(** ** Frames *)

(** However [m] ends, [π] of the state is what it was: [frames] for the kernel of [π]. *)
Definition keeps {S T A} (π : S → T) (m : M S A) : Prop := ∀ s, π (m s).2 = π s.

Create HintDb keeps.

Section keeps.
Context {S T : Type} (π : S → T).

Lemma keeps_id {A} (m : M S A) : (∀ s, (m s).2 = s) → keeps π m.
Proof. intros E s. by rewrite E. Qed.

Lemma keeps_modify g : (∀ s, π (g s) = π s) → keeps π (modify g).
Proof. intros E s. apply E. Qed.

Lemma keeps_bind {A B} (m : M S A) (f : A → M S B) :
  keeps π m → (∀ a, keeps π (f a)) → keeps π (m ≫= f).
Proof.
  intros Hm Hf s. specialize (Hm s). unfold mbind, M_bind. destruct (m s) as [[a|e| |] s']; try done.
  by rewrite (Hf a s').
Qed.

Lemma keeps_zoom {P Q A} (ρ : P → Q) (l : lens S P) (m : M P A) :
  (∀ x s, ρ x = ρ (lget l s) → π (lset l x s) = π s) → keeps ρ m → keeps π (zoom l m).
Proof.
  intros Hl Hm s. unfold zoom. specialize (Hm (lget l s)).
  destruct (m (lget l s)) as [r x]. by apply Hl.
Qed.

Lemma keeps_zoom_out {P A} (l : lens S P) (m : M P A) :
  (∀ x s, π (lset l x s) = π s) → keeps π (zoom l m).
Proof. intros Hl s. unfold zoom. destruct (m (lget l s)) as [r x]. apply Hl. Qed.

Lemma keeps_attempt {A} (m : M S A) : keeps π m → keeps π (attempt m).
Proof. intros Hm s. specialize (Hm s). unfold attempt. by destruct (m s) as [[] ?]. Qed.

Lemma keeps_unwrap {A} (m : M S A) : keeps π m → keeps π (unwrapM m).
Proof. intros Hm s. specialize (Hm s). unfold unwrapM. by destruct (m s) as [[] ?]. Qed.

Lemma keeps_for_each {A} (f : A → M S unit) l : (∀ a, keeps π (f a)) → keeps π (for_each f l).
Proof. intros Hf. induction l; cbn [for_each]; [by apply keeps_id|by apply keeps_bind]. Qed.

Lemma keeps_mapM {A B} (f : A → M S B) l : (∀ a, keeps π (f a)) → keeps π (mapM' f l).
Proof.
  intros Hf. induction l; cbn [mapM']; [by apply keeps_id|].
  apply keeps_bind; [done|]. intros b. apply keeps_bind; [done|]. intros bs. by apply keeps_id.
Qed.

Lemma keeps_run {A} (m : M S A) s r s' : keeps π m → m s = (r, s') → π s' = π s.
Proof. intros Hm E. specialize (Hm s). by rewrite E in Hm. Qed.

End keeps.

(** One step down the program text. *)
Ltac keep := repeat first
  [ progress intros
  | match goal with
    | |- keeps _ (mbind _ _) => apply keeps_bind
    | |- keeps _ (match ?x with _ => _ end) => destruct x
    | |- keeps _ (for_each _ _) => apply keeps_for_each
    | |- keeps _ (mapM' _ _) => apply keeps_mapM
    | |- keeps _ (attempt _) => apply keeps_attempt
    | |- keeps _ (unwrapM _) => apply keeps_unwrap
    | |- keeps _ (zoom _ _) => apply keeps_zoom_out; by intros
    end
  | by apply keeps_id
  | by apply keeps_modify
  | solve [eauto with keeps] ].

(** ** The table of snapshots *)

Abbreviation table_registry := (λ t, (schema.family t, schema.snapshots t)).
Definition registry (x : InternalIndex) : gmap Z bytes * gmap Z schema.Snapshot :=
  table_registry (Db.cur x).
Abbreviation hi_registry := (λ y, registry (index y)).
Abbreviation store_registry := (λ s, registry (index (hi s))).

Section registry.
Context `{Cbor Models.ChunkRef} `{Cbor Models.HashIds} `{Cbor Models.HashRef}.

Lemma tables_keep {X A} (l : lens schema.Tables X) (m : M X A) :
  (∀ x t, table_registry (lset l x t) = table_registry t) → keeps registry (zoom cur_lens (zoom l m)).
Proof. intros Hl. apply (keeps_zoom _ table_registry); [done|by apply keeps_zoom_out]. Qed.

Lemma on_hashes_keeps {A} (m : M _ A) : keeps registry (on_hashes m).
Proof. by apply tables_keep. Qed.
Lemma on_gc_keeps {A} (m : M _ A) : keeps registry (on_gc m).
Proof. by apply tables_keep. Qed.
Lemma on_blobs_keeps {A} (m : M _ A) : keeps registry (on_blobs m).
Proof. by apply tables_keep. Qed.
#[local] Hint Resolve on_hashes_keeps on_gc_keeps on_blobs_keeps : keeps.

Lemma flush_keeps : keeps registry Db.flush.
Proof. done. Qed.
#[local] Hint Resolve flush_keeps : keeps.

Lemma maybe_flush_keeps : keeps registry maybe_flush.
Proof. unfold maybe_flush. keep. Qed.

Lemma hash_next_id_keeps : keeps registry hash_next_id.
Proof. unfold hash_next_id. keep. Qed.

Lemma hash_insert_new_keeps i b e : keeps registry (hash_insert_new i b e).
Proof. unfold hash_insert_new. keep. Qed.

Lemma hash_set_ready_keeps i e : keeps registry (hash_set_ready i e).
Proof. unfold hash_set_ready. keep. Qed.

Lemma hash_locate_keeps b : keeps registry (hash_locate b).
Proof. unfold hash_locate. keep. Qed.

Lemma blob_in_air_keeps b : keeps registry (blob_in_air b).
Proof. unfold blob_in_air. keep. Qed.

Lemma blob_commit_keeps b : keeps registry (blob_commit b).
Proof. unfold blob_commit. keep. Qed.

Lemma update_gc_keeps i f u : keeps registry (hash_update_gc_data i f u).
Proof.
  unfold hash_update_gc_data, hash_read_gc_data, hash_set_gc_data, hash_delete_gc_data. cbv zeta. keep.
Qed.

Lemma update_gc_rows_keeps f l us : keeps registry (update_gc_rows f l us).
Proof. revert us. induction l; intros []; cbn [update_gc_rows]; keep; apply update_gc_keeps. Qed.

#[local] Hint Resolve maybe_flush_keeps hash_next_id_keeps hash_insert_new_keeps hash_set_ready_keeps
  hash_locate_keeps blob_in_air_keeps blob_commit_keeps update_gc_keeps update_gc_rows_keeps : keeps.

(** *** The hash index *)

Lemma index_keeps {A} (m : DB A) : keeps registry m → keeps hi_registry (zoom index_lens m).
Proof. by apply keeps_zoom. Qed.
#[local] Hint Resolve index_keeps : keeps.

Lemma locate_keeps b : keeps hi_registry (locate b).
Proof. unfold locate. keep. Qed.
#[local] Hint Resolve locate_keeps : keeps.

Lemma reserve_keeps e : keeps hi_registry (reserve e).
Proof. unfold reserve, reserve_entry. cbv zeta. keep. Qed.

Lemma update_reserved_keeps i e : keeps hi_registry (update_reserved i e).
Proof. unfold update_reserved. keep. Qed.

Lemma pop_loop_keeps fuel : keeps hi_registry (pop_loop fuel).
Proof. induction fuel; cbn [pop_loop]; keep. Qed.
#[local] Hint Resolve reserve_keeps update_reserved_keeps pop_loop_keeps : keeps.

Lemma commit_keeps i e : keeps hi_registry (HashIndex.commit i e).
Proof. unfold HashIndex.commit, insert_completed_in_order. keep. Qed.

Lemma get_id_keeps b : keeps hi_registry (get_id b).
Proof. unfold get_id. keep. Qed.

Lemma fetch_hash_ref_keeps b : keeps hi_registry (fetch_hash_ref b).
Proof. unfold fetch_hash_ref. keep. Qed.

Lemma fetch_persistent_ref_keeps b : keeps hi_registry (HashIndex.fetch_persistent_ref b).
Proof. unfold HashIndex.fetch_persistent_ref. keep. Qed.

Lemma hash_set_tag_keeps i t : keeps hi_registry (HashIndex.set_tag i t).
Proof. unfold HashIndex.set_tag, hash_set_tag. keep. Qed.

#[local] Hint Resolve commit_keeps get_id_keeps fetch_hash_ref_keeps fetch_persistent_ref_keeps
  hash_set_tag_keeps : keeps.

(** *** The store *)

Section Store.
Context `{Sodium} `{LruCache} {B : Type} `{!StoreBackend (list Z) B}.

Lemma hi_keeps {A} (m : HI A) : keeps hi_registry m → keeps (S := Store Z B) store_registry (zoom hi_lens m).
Proof. by apply keeps_zoom. Qed.

Lemma on_db_keeps {A} (m : DB A) : keeps registry m → keeps (S := Store Z B) store_registry (on_db m).
Proof. intros Hm. by apply hi_keeps, index_keeps. Qed.
#[local] Hint Resolve hi_keeps on_db_keeps : keeps.

Lemma reserve_new_blob_keeps : keeps (S := Store Z B) store_registry reserve_new_blob.
Proof. unfold reserve_new_blob, reserve_blob, new_blob_desc, take_next_id, name_of_id. keep. Qed.
#[local] Hint Resolve reserve_new_blob_keeps : keeps.

Lemma backend_store_keeps n ct cbs :
  keeps (S := Store Z B) store_registry (backend_store commit_callback n ct cbs).
Proof.
  intros s. unfold backend_store. destruct (store _ _ _ _) as [r [b called]].
  assert (keeps (S := Store Z B) store_registry
    (zoom hi_lens (for_each commit_callback (concat called)) ;; lift r)) as Hk;
    [|exact (Hk (lset BlobStore.backend_lens b s))].
  apply keeps_bind; [|by intros; apply keeps_id].
  apply hi_keeps, keeps_for_each. intros. apply commit_keeps.
Qed.
#[local] Hint Resolve backend_store_keeps : keeps.

Lemma flush_store_keeps : keeps (S := Store Z B) store_registry (flush_store commit_callback).
Proof. unfold flush_store, in_air, commit_done. keep. Qed.
#[local] Hint Resolve flush_store_keeps : keeps.

Lemma store_flush_keeps : keeps (S := Store Z B) store_registry (BlobStore.flush commit_callback).
Proof. unfold BlobStore.flush, flush_blob_index. keep. Qed.

Lemma store_chunk_keeps d h n l i o :
  keeps (S := Store Z B) store_registry (store_chunk commit_callback d h n l i o).
Proof. unfold store_chunk, append_chunk. cbv zeta. keep. Qed.

Lemma insert_chunk_keeps d n l c i : keeps (S := Store Z B) store_registry (hs_insert_chunk d n l c i).
Proof.
  pose proof store_chunk_keeps. unfold hs_insert_chunk, hs_fetch_persistent_ref. cbv zeta. keep.
Qed.

Lemma reserve_hash_keeps h : keeps (S := Store Z B) store_registry (reserve_hash h).
Proof. unfold reserve_hash. keep. Qed.

End Store.

End registry.

(** ** Trees and families *)

Section Tree.
Context {St T : Type} `{!HashTreeBackend St} `{Cbor Models.HashRefs} (π : St → T).
Hypothesis Hinsert : ∀ d n l c i, keeps π (insert_chunk d n l c i).

Abbreviation below_writer := (λ w : SimpleHashTreeWriter * St, π w.2).

Lemma append_hashref_keeps c level id h i :
  (∀ l i, keeps below_writer (c l i)) → keeps below_writer (append_hashref_at c level id h i).
Proof using All. intros Hc. unfold append_hashref_at. cbv zeta. keep. Qed.

Lemma append_at_keeps c level d cs i :
  (∀ l i, keeps below_writer (c l i)) → keeps below_writer (append_at c level d cs i).
Proof using All.
  intros Hc. unfold append_at. keep; [|by apply append_hashref_keeps].
  by apply (keeps_zoom _ π).
Qed.

Lemma collapse_level_keeps fuel level i : keeps below_writer (collapse_level fuel level i).
Proof using All.
  revert level i. induction fuel as [|fuel IH]; intros level i; cbn [collapse_level]; keep.
  by apply append_at_keeps.
Qed.

Lemma append_keeps d : keeps below_writer (append d).
Proof using All. unfold append. keep. apply append_at_keeps. intros. apply collapse_level_keeps. Qed.

Lemma hash_keeps i : keeps below_writer (HashTree.hash i).
Proof using All.
  pose proof append_keeps. pose proof collapse_level_keeps. unfold HashTree.hash, collapse. cbv zeta. keep.
Qed.

End Tree.

Section Family.
Context {St R Ps T T' : Type} `{!KeyBackend St} `{!Reader R}.
Context `{Cbor Models.HashRefs} `{Cbor Models.HashRef} `{Cbor Models.Files}.
Context (π : St → T) (ρ : Ps → T') (self : Family St Ps) (top : bytes → M Ps unit).
Context (ks : lens Ps (InternalKeyIndex * St)).
Hypothesis Hinsert : ∀ d n l c i, keeps π (insert_chunk d n l c i).
Hypothesis Hfetch : ∀ h, keeps π (kb_fetch_hash_ref h).
Hypothesis Htop : ∀ h, keeps ρ (top h).
Hypothesis Hlast : last (key_store_process self) = Some ks.
Hypothesis Hown : key_store self = ks.
Hypothesis Hset : ∀ x p, π x.2 = π (lget ks p).2 → ρ (lset ks x p) = ρ p.

Abbreviation behind := (λ x : InternalKeyIndex * St, π x.2).

Lemma list_dir_keeps fuel q : keeps behind (handle (R := R) fuel (ListDir q)).
Proof using All.
  assert (∀ e, keeps behind (list_elem e)).
  { intros [e o]. unfold list_elem, on_store. keep. all: by apply (keeps_zoom _ π). }
  cbn [handle]. unfold on_index. keep.
Qed.

Lemma list_from_keeps q : keeps ρ (list_from_key_store (R := R) self q).
Proof using All.
  unfold list_from_key_store, last_process, send_reply. rewrite Hlast. cbn [expect].
  change (keeps ρ (r ← zoom ks (handle (R := R) 0 (ListDir q));
    match r with ListResult ls => mret ls | _ => unexpected end)).
  apply keeps_bind; [apply (keeps_zoom _ behind); [done|apply list_dir_keeps]|by intros []].
Qed.

Lemma on_tree_keeps {A} w (m : M (SimpleHashTreeWriter * St) A) :
  keeps (λ w, π w.2) m → keeps ρ (on_tree self w m).
Proof using All.
  intros Hm. unfold on_tree. rewrite Hown. apply (keeps_zoom _ behind); [done|].
  intros [x s]. unfold with_writer. specialize (Hm (w, s)). cbn [fst snd] in *.
  by destruct (m (w, s)) as [[] [w' s']].
Qed.

Lemma commit_rounds_keeps n e it w : (∀ el, keeps ρ (e el)) → keeps ρ (commit_rounds self n e it w).
Proof using All.
  intros He. revert it w. induction n as [|n IH]; intros it w; cbn [commit_rounds]; keep.
  by apply on_tree_keeps, append_keeps.
Qed.

Lemma commit_to_tree_keeps fuel w q : keeps ρ (commit_to_tree (R := R) self fuel w q top).
Proof using All.
  revert w q. induction fuel as [|fuel IH]; intros w q; cbn [commit_to_tree]; [by apply keeps_id|].
  apply keeps_bind; [apply list_from_keeps|]. intros it. apply commit_rounds_keeps.
  intros [[e href] open]. unfold commit_entry. keep. by apply on_tree_keeps, hash_keeps.
Qed.

Lemma family_commit_keeps fuel now : keeps ρ (Family.commit (R := R) self fuel now top).
Proof using All.
  unfold Family.commit. keep; [apply commit_to_tree_keeps|by apply on_tree_keeps, hash_keeps].
Qed.

End Family.

(** ** Chunks and blobs while snapshots are registered *)

(** The hash index but for tags, counters and snapshots. *)
Definition table_core (t : schema.Tables) : gmap Z schema.Blob * gmap Z schema.Hash :=
  (schema.blobs t, untag <$> schema.hashes t).
Definition core (y : HashIndex) : Queue * (gmap Z schema.Blob * gmap Z schema.Hash) :=
  (queue y, table_core (Db.cur (index y))).

Section core.
Context `{Cbor Models.ChunkRef} `{Cbor Models.HashIds} `{Cbor Models.HashRef}.

Abbreviation db_core := (λ x : InternalIndex, table_core (Db.cur x)).

Lemma index_core {A} (m : DB A) : keeps db_core m → keeps core (zoom index_lens m).
Proof. apply keeps_zoom. intros x y Hx. unfold core. cbn in *. by rewrite Hx. Qed.

Lemma tables_core {X A} (l : lens schema.Tables X) (m : M X A) :
  (∀ x t, table_core (lset l x t) = table_core t) → keeps db_core (zoom cur_lens (zoom l m)).
Proof. intros Hl. apply (keeps_zoom _ table_core); [done|by apply keeps_zoom_out]. Qed.

Lemma retag_core p z (t : gmap Z schema.Hash) : untag <$> update p (Db.set_tag z) t = untag <$> t.
Proof.
  apply map_eq. intros i. rewrite !lookup_fmap, lookup_update. destruct (t !! i) as [r|]; [|done].
  cbn. by destruct (p i r).
Qed.

Lemma hash_set_tag_core o t : keeps db_core (hash_set_tag o t).
Proof.
  unfold hash_set_tag, on_hashes. apply (keeps_zoom _ table_core); [done|].
  apply (keeps_zoom _ (λ h, untag <$> h)).
  - intros x t0. unfold table_core. cbn. by intros ->.
  - intros h. apply retag_core.
Qed.

Lemma on_gc_core {A} (m : M _ A) : keeps db_core (on_gc m).
Proof. by apply tables_core. Qed.
Lemma on_family_core {A} (m : M _ A) : keeps db_core (on_family m).
Proof. by apply tables_core. Qed.
Lemma on_snapshots_core {A} (m : M _ A) : keeps db_core (on_snapshots m).
Proof. by apply tables_core. Qed.
#[local] Hint Resolve on_gc_core on_family_core on_snapshots_core hash_set_tag_core : keeps.

Lemma insert_family_core n : keeps db_core (insert_auto family_lens n).
Proof. unfold insert_auto. keep; by apply tables_core. Qed.
Lemma insert_snapshot_core n : keeps db_core (insert_auto snapshots_lens n).
Proof. unfold insert_auto. keep; by apply tables_core. Qed.
#[local] Hint Resolve insert_family_core insert_snapshot_core : keeps.

Lemma snapshot_reserve_core n : keeps db_core (Snapshot.reserve n).
Proof.
  unfold Snapshot.reserve, snapshot_reserve, get_or_create_family_id, family_id_from_name, snapshot_latest_id.
  cbv zeta. keep.
Qed.

Lemma snapshot_update_core i h r : keeps db_core (Snapshot.update i h r).
Proof. apply on_snapshots_core. Qed.

Lemma snapshot_tag_core i t : keeps db_core (snapshot_set_tag i t).
Proof. apply on_snapshots_core. Qed.

Lemma update_gc_core i f u : keeps db_core (hash_update_gc_data i f u).
Proof.
  unfold hash_update_gc_data, hash_read_gc_data, hash_set_gc_data, hash_delete_gc_data. cbv zeta. keep.
Qed.

Lemma flush_core : keeps db_core Db.flush.
Proof. done. Qed.
#[local] Hint Resolve update_gc_core flush_core : keeps.

(** *** The collector keeps both *)

Lemma keeps_pair {S T T'} (π : S → T) (π' : S → T') {A} (m : M S A) :
  keeps π m → keeps π' m → keeps (λ s, (π s, π' s)) m.
Proof. intros H1k H2k s. by rewrite H1k, H2k. Qed.

Definition bare (y : HashIndex) := (core y, hi_registry y).

Lemma index_bare {A} (m : DB A) : keeps db_core m → keeps registry m → keeps bare (zoom index_lens m).
Proof. intros. apply keeps_pair; [by apply index_core|by apply index_keeps]. Qed.

Lemma set_tag_bare i t : keeps bare (HashIndex.set_tag i t).
Proof. apply index_bare; [apply hash_set_tag_core|apply on_hashes_keeps]. Qed.

Lemma set_all_tags_bare t : keeps bare (HashIndex.set_all_tags t).
Proof. apply index_bare; [apply hash_set_tag_core|apply on_hashes_keeps]. Qed.

Lemma ids_by_tag_bare t : keeps bare (get_ids_by_tag t).
Proof. apply keeps_id. by intros [q [[]]]. Qed.

Lemma update_data_bare i f u : keeps bare (update_gc_data i f u).
Proof. apply index_bare; [apply update_gc_core|apply update_gc_keeps]. Qed.

Lemma manual_commit_bare : keeps bare HashIndex.manual_commit.
Proof. unfold HashIndex.manual_commit. keep; by apply index_bare. Qed.

Lemma get_id_bare b : keeps bare (get_id b).
Proof.
  unfold get_id. keep. apply keeps_id. intros y. apply locate_state.
Qed.

End core.

(** *** The store *)

Section StoreCore.
Context `{SodiumLaws} `{LruCacheLaws}.
Context `{CborLaws Models.ChunkRef} `{CborLaws Models.HashIds} `{CborLaws Models.HashRef}.
Context {B : Type} `{StoreBackendLaws (list Z) B}.
Implicit Types s : Store Z B.

(** What is behind the index. *)
Definition behind_index s :=
  (st_keys s, BlobStore.backend s, blob_desc s, blob_refs s, blob s, read_cache s, spawned s).

Definition store_core s := (core (hi s), behind_index s).

Lemma hi_core {A} (m : HI A) : keeps core m → keeps store_core (zoom hi_lens m).
Proof. apply keeps_zoom. intros y s Hy. exact (f_equal (λ c, (c, behind_index s)) Hy). Qed.

Lemma on_db_core {A} (m : DB A) : keeps (λ x, table_core (Db.cur x)) m → keeps store_core (on_db m).
Proof. intros Hm. by apply hi_core, index_core. Qed.

Lemma index_ok_core E R out os y y' :
  (∀ z row, R row → R (Db.set_tag z row)) → core y' = core y → index_ok E R out os y → index_ok E R out os y'.
Proof.
  intros HR Hc [Hu Hq Hn Hun Hr Hnd Ho]. injection Hc as Eq Eb Er.
  assert (∀ i row, rows y' !! i = Some row →
    ∃ row0, rows y !! i = Some row0 ∧ row = Db.set_tag (schema.tag row) row0) as Hinv.
  { intros i row Hi. apply (f_equal (.!! i)) in Er. rewrite !lookup_fmap, Hi in Er.
    destruct (rows y !! i) as [row0|]; [|done]. exists row0. split; [done|].
    destruct row, row0. unfold untag, Db.set_tag in *. cbn in *. by injection Er as -> -> -> -> -> -> ->. }
  split; rewrite ?Eq; try done.
  - intros p st k qe Hp. destruct (Hq _ _ _ _ Hp) as (? & ? & (row & Hrow & Hk & Hrd) & HE).
    do 2 (split; [done|]). split; [|done]. apply (f_equal (.!! as_i64 p)) in Er.
    rewrite !lookup_fmap, Hrow in Er. destruct (rows y' !! as_i64 p) as [row'|]; [|done].
    exists row'. split; [done|]. by injection Er as -> _ _ _ _ _ ->.
  - intros i row (row0 & Hi & ->)%Hinv Hrd. by eapply Hn.
  - intros i j a b (a0 & Ha & ->)%Hinv (b0 & Hb & ->)%Hinv Eh. exact (Hun i j a0 b0 Ha Hb Eh).
  - intros i row (row0 & Hi & ->)%Hinv Hrd. apply HR. by eapply Hr.
Qed.

Lemma store_core_ready hist s s' :
  store_core s' = store_core s → store_ready hist s → store_ready hist s' ∧ same_promises s s'.
Proof.
  intros Hc [? ? ? ? Hf Hca ? Hset Hi].
  pose proof (f_equal fst Hc) as Hcore. pose proof (f_equal snd Hc) as Hbehind.
  cbn [fst snd store_core] in *. clear Hc. pose proof Hcore as Hcore'.
  injection Hcore' as Eq Eb Er. injection Hbehind as E1 E2 E3 E4 E5 E6 E7.
  assert (same_promises s s') as Hsame.
  { split; [done..|]. intros i. unfold blob_name_at. by rewrite Eb. }
  split; [|done]. unfold store_ready. split; rewrite ?E1, ?E2, ?E3, ?E4, ?E5, ?E6, ?E7, ?Eq; try done.
  - intros n. destruct (Hf n); [by left|right]. by eapply known_same.
  - intros n reader Hn. destruct (Hca n reader Hn) as [? ?]. split; [|done]. by eapply known_same.
  - eapply index_ok_core; [|exact Hcore|].
    + intros z row (n & l & d & p & Hrow). exists n, l, d, p. exact Hrow.
    + eapply index_ok_mono; [| |exact Hi].
      * intros st k qe. by apply entry_same.
      * intros row. by apply row_same.
Qed.

End StoreCore.

(** ** The latest snapshot of a family *)

Section Latest.
Context `{CborLaws Models.ChunkRef} `{CborLaws Models.HashIds} `{CborLaws Models.HashRef}.
Implicit Types (g : gmap Z bytes * gmap Z schema.Snapshot).

Definition unique_families (t : gmap Z bytes) : Prop :=
  ∀ i j (a b : bytes), t !! i = Some a → t !! j = Some b → a = b → i = j.

(** Row [i] is the last of the family [n]. *)
Record latest_row g (n : bytes) (i : Z) (r : schema.Snapshot) : Prop := {
  lr_families : unique_families g.1;
  lr_family : g.1 !! schema.s_family_id r = Some n;
  lr_row : g.2 !! i = Some r;
  lr_last : ∀ j r', g.2 !! j = Some r' → j ≠ i → schema.s_family_id r' = schema.s_family_id r →
    (schema.s_snapshot_id r' < schema.s_snapshot_id r)%Z;
}.

#[local] Instance desc_total {A} (f : A → Z) : Total (desc f).
Proof. intros a b. unfold desc. lia. Qed.
#[local] Instance desc_trans {A} (f : A → Z) : Transitive (desc f).
Proof. intros a b c. unfold desc. lia. Qed.

Lemma head_order_desc {A} (f : A → Z) (l : list A) a :
  a ∈ l → (∀ b, b ∈ l → b = a ∨ (f b < f a)%Z) → head (order_desc f l) = Some a.
Proof.
  intros Ha Hmax. pose proof (merge_sort_Permutation (desc f) l) as Hp.
  pose proof (StronglySorted_merge_sort (desc f) l) as Hs. unfold order_desc.
  destruct (merge_sort (desc f) l) as [|b l'].
  { rewrite <- Hp in Ha. by apply elem_of_nil in Ha. }
  cbn. f_equal. destruct (Hmax b) as [->|Hlt]; [rewrite <- Hp; by left|done|].
  rewrite <- Hp in Ha. apply elem_of_cons in Ha as [->|Ha]; [done|].
  inversion Hs as [|? ? _ Hall]; subst. rewrite Forall_forall in Hall. specialize (Hall a Ha).
  unfold desc in Hall. lia.
Qed.

Lemma latest_run x n i r :
  latest_row (registry x) n i r → Snapshot.latest n x = (found (Some (i, r)), x).
Proof.
  intros [Hu Hf Hr Hl]. unfold Snapshot.latest, snapshot_latest.
  rewrite (bind_Ok _ _ _ _ _ (family_id_run n x)). cbn [registry fst snd] in *.
  rewrite (head_select_unique _ _ (schema.s_family_id r) n); [|done|by apply bool_decide_eq_true|].
  2:{ intros j n' Hj ->%bool_decide_eq_true. by eapply Hu. }
  cbn [fmap option_fmap option_map fst].
  set (sel := select (λ _ s, bool_decide (schema.s_family_id s = schema.s_family_id r)) (schema.snapshots (Db.cur x))).
  rewrite (bind_Ok _ _ _ sel x) by (by destruct x as [[]]). cbv zeta.
  rewrite (head_order_desc _ sel (i, r)); [done| |].
  - apply elem_of_select. split; [done|]. by apply bool_decide_eq_true.
  - intros [j r'] [Hj Hfam%bool_decide_eq_true]%elem_of_select. destruct (decide (j = i)) as [->|Hne].
    + left. congruence.
    + right. by eapply Hl.
Qed.

(** Changing a row but for its family and number. *)
Lemma latest_row_update g n i r p f :
  (∀ r, schema.s_family_id (f r) = schema.s_family_id r ∧ schema.s_snapshot_id (f r) = schema.s_snapshot_id r) →
  latest_row g n i r → latest_row (g.1, update p f g.2) n i (if p i r then f r else r).
Proof.
  intros Hf [Hu Hfam Hr Hl].
  assert (∀ j r, schema.s_family_id (if p j r then f r else r) = schema.s_family_id r ∧
    schema.s_snapshot_id (if p j r then f r else r) = schema.s_snapshot_id r) as Hf'.
  { intros j r0. by destruct (p j r0). }
  split; cbn [fst snd].
  - done.
  - by rewrite (proj1 (Hf' i r)).
  - by rewrite lookup_update, Hr.
  - intros j r' Hj Hne. rewrite lookup_update in Hj. apply fmap_Some in Hj as (r0 & Hj & ->).
    destruct (Hf' j r0) as [-> ->], (Hf' i r) as [-> ->]. by eapply Hl.
Qed.

Lemma get_or_create_families n x f x' :
  unique_families (schema.family (Db.cur x)) → get_or_create_family_id n x = (Ok f, x') →
  schema.family (Db.cur x') !! f = Some n ∧ unique_families (schema.family (Db.cur x')) ∧
  schema.snapshots (Db.cur x') = schema.snapshots (Db.cur x).
Proof.
  intros Hu. unfold get_or_create_family_id. rewrite (bind_Ok _ _ _ _ _ (family_id_run n x)).
  destruct (fst <$> _) as [i|] eqn:E.
  - intros [= <- <-]. apply head_select_Some in E as (n' & Hi & ->%bool_decide_eq_true). done.
  - pose proof (head_select_None _ _ E) as Hn. rewrite (bind_Ok _ _ _ _ _ (insert_auto_family n x)).
    set (i := next_rowid (schema.family (Db.cur x))). intros [= <- <-].
    assert (schema.family (Db.cur x) !! i = None) as Hi by apply next_rowid_fresh. cbn.
    split_and!; [apply lookup_insert_eq| |done].
    intros j k a b. rewrite !lookup_insert_Some.
    intros [[<- <-]|[Hj Ha]] [[<- Eb]|[Hk Hb]] Eab; subst; [done| | |by eapply Hu].
    + apply Hn in Hb. by apply bool_decide_eq_false in Hb.
    + apply Hn in Ha. by apply bool_decide_eq_false in Ha.
Qed.

(** A number that the next snapshot can be counted from. *)
Definition countable (t : gmap Z schema.Snapshot) : Prop :=
  ∀ i r, t !! i = Some r → (0 ≤ i < 2 ^ 63 - 1 ∧ 0 ≤ schema.s_snapshot_id r < 2 ^ 63 - 1)%Z.

Lemma latest_of_range f t : countable t → (0 ≤ default 0 (latest_of f t) < 2 ^ 63 - 1)%Z.
Proof.
  intros Hc. unfold latest_of. assert (∀ e, e ∈ select (λ _ s, bool_decide (schema.s_family_id s = f)) t →
    (0 ≤ schema.s_snapshot_id e.2 < 2 ^ 63 - 1)%Z) as Hall.
  { intros [i r] [Hi _]%elem_of_select. by eapply Hc. }
  revert Hall. generalize (select (λ _ s, bool_decide (schema.s_family_id s = f)) t).
  induction l as [|e l IH]; intros Hall; [cbn; lia|].
  pose proof (Hall e ltac:(by left)). specialize (IH (λ e He, Hall e ltac:(by right))). cbn.
  destruct (foldr _ None l); cbn in *; lia.
Qed.

Lemma reserved_latest n x info x' :
  unique_families (schema.family (Db.cur x)) → countable (schema.snapshots (Db.cur x)) →
  Snapshot.reserve n x = (Ok info, x') →
  ∃ i r, latest_row (registry x') n i r ∧ as_i64 (unique_id info) = i ∧
    ∀ j, j ≠ i → (registry x').2 !! j = (registry x).2 !! j.
Proof.
  intros Hu Hc Hres. unfold Snapshot.reserve, snapshot_reserve in Hres.
  apply bind_Ok_inv in Hres as (f & x1 & Ef & Hres).
  destruct (get_or_create_families n x f x1 Hu Ef) as (Hf & Hu1 & Hsn).
  rewrite (bind_Ok _ _ _ _ _ (snapshot_latest_run f x1)), Hsn in Hres. cbv zeta in Hres.
  set (t := schema.snapshots (Db.cur x)) in *. set (i := next_rowid t).
  pose proof (latest_of_range f t Hc) as Hr. rewrite as_i64_id in Hres by lia.
  set (num := (1 + default 0 (latest_of f t))%Z) in *.
  rewrite (bind_zoom utc_lens now _ _ _ _ eq_refl) in Hres.
  rewrite (bind_Ok _ _ _ _ _ (insert_auto_snapshot _ _)) in Hres. rewrite bind_gets in Hres.
  injection Hres as <- <-. cbn [Db.last_rowid set_last_rowid].
  change (schema.snapshots (Db.cur (lset utc_lens _ x1))) with (schema.snapshots (Db.cur x1)).
  rewrite Hsn. fold t. fold i.
  assert (0 ≤ i < 2 ^ 63)%Z as Hi.
  { unfold i, next_rowid. destruct (max_key t) as [m|] eqn:Em; cbn; [|lia].
    apply max_key_in in Em as [r Hm]. apply Hc in Hm. lia. }
  set (r := schema.mkSnapshot _ f num _ None None None).
  exists i, r. split; [split|split; [cbn; by rewrite as_u64_id, as_i64_id by lia|]]; cbn.
  - done.
  - exact Hf.
  - apply lookup_insert_eq.
  - intros j r' Hj Hne Hfj. rewrite lookup_insert_ne in Hj by done.
    destruct (latest_of_bound f t j r' Hj Hfj) as (m & Em & Hle). unfold num. rewrite Em. cbn. lia.
  - intros j Hj. by rewrite lookup_insert_ne.
Qed.

End Latest.
