(* ===== verification/RepoOk.v ===== *)
(** * The repository's commands keep the store in order

    What commands of the repository do to what they are composed of: the family's commit among
    its processes, the flush of all blob stores, the opening after a crash. *)

From S2P Require Import Prelude Utf8 Cbor Codec Refs Ordered Upq Timer Db Crypto HashIndex Backend.
From S2P Require Import Blob BlobStore HashTree HashTreeSim HashStore StoreIndex HashStoreOk.
From S2P Require Import HashStoreSpec Gc HatGc Hat KeyIndex KeyIndexOk KeyStore KeyStoreOk KeyStoreSpec.
From S2P Require Import Walker FileSystem Family FamilyOk Checkout CheckoutSpec FamilySim BackupSpec.
From S2P Require Import Recover Repo GcOk HatGcOk Frames.
From S2P Require Models Snapshot.
Import Ordered.tags.

(** ** What runs that end well preserve *)

Definition stays {S A} (I : S → Prop) (m : M S A) : Prop := ∀ s a s', I s → m s = (Ok a, s') → I s'.

Section stays.
Context {S : Type} (I : S → Prop).

Lemma stays_keeps {T A} (π : S → T) (m : M S A) :
  (∀ s s', π s' = π s → I s → I s') → keeps π m → stays I m.
Proof. intros HI Hm s a s' Hs E. specialize (Hm s). rewrite E in Hm. by eapply HI. Qed.

Lemma stays_id {A} (m : M S A) : (∀ s, (m s).2 = s) → stays I m.
Proof. intros E s a s' Hs Em. specialize (E s). rewrite Em in E. cbn in E. by subst. Qed.

Lemma stays_bind {A B} (m : M S A) (f : A → M S B) :
  stays I m → (∀ a, stays I (f a)) → stays I (m ≫= f).
Proof. intros Hm Hf s b s' Hs (a & s1 & Ha & Hb)%bind_Ok_inv. eapply Hf; [|done]. by eapply Hm. Qed.

Lemma stays_for_each {A} (f : A → M S unit) l : (∀ a, stays I (f a)) → stays I (for_each f l).
Proof. intros Hf. induction l; cbn [for_each]; [by apply stays_id|by apply stays_bind]. Qed.

End stays.

(** ** A family's processes *)

Section Processes.
Context `{SodiumLaws} `{LruCacheLaws}.
Context `{CborLaws Models.ChunkRef} `{CborLaws Models.HashIds} `{CborLaws Models.HashRef}.
Context `{CborLaws Models.HashRefs} `{CborLaws Models.Files}.
Context {B : Type} `{StoreBackendLaws (list Z) B}.
Context {R : Type} `{!Reader R}.
Implicit Types (s : Store Z B) (f : FamilyState).

#[local] Existing Instance store_backend | 5.

(** Nothing waits in the blob stores of the family's own. *)
Definition idle (i : Inner) : Prop := CipherText.len (chunks (in_blob i)) = 0.
Definition idle_family f : Prop := idle (f_one f) ∧ idle (f_two f).

#[global] Instance idle_family_dec f : Decision (idle_family f).
Proof. unfold idle_family, idle. apply _. Defined.

(** The commit on the family is the one with a single process. *)
Definition as_sole (p : FamilyState * Store Z B) : InternalKeyIndex * Store Z B := (f_index p.1, p.2).

#[local] Instance id_morphism : KeyMorphism (S1 := Store Z B) (S2 := Store Z B) (λ s, s).
Proof.
  split; [split|..].
  - intros h s. cbn. by destruct (hs_fetch_chunk h s).
  - intros d n l c i s. cbn. by destruct (hs_insert_chunk d n l c i s).
  - intros h s. cbn. by destruct (zoom hi_lens (hash_exists h) s).
  - intros h s. cbn. by destruct (zoom hi_lens (fetch_hash_ref h) s).
  - intros s. cbn [kb_flush store_backend].
    match goal with |- ?m _ = _ => by destruct (m s) end.
Qed.

Definition family_rest (p : FamilyState * Store Z B) :=
  (f_one p.1, f_two p.1, store_registry p.2).

Lemma hat_family_commit name fuel now f s h f' s' :
  Family.commit (R := R) (hat_family name) fuel now (λ h, zoom snd_lens (reserve_hash h)) (f, s) = (Ok h, (f', s')) →
  hat_commit (R := R) name fuel now (f_index f, s) = (Ok h, (f_index f', s')) ∧
  f_one f' = f_one f ∧ f_two f' = f_two f ∧ store_registry s' = store_registry s.
Proof.
  intros Hrun. split.
  - assert (∀ x : InternalKeyIndex * Store Z B, on_key (λ s : Store Z B, s) x = x) as Hid by by intros [].
    pose proof (commit_tracks (R := R) (λ s : Store Z B, s) as_sole (hat_family name) (sole_family name) main_process whole
      eq_refl eq_refl eq_refl eq_refl eq_refl (λ p, eq_sym (Hid _))
      (λ x p, eq_trans (Hid x) (surjective_pairing x))
      (λ h, zoom snd_lens (reserve_hash h)) (λ h, on_store (reserve_hash h))) as Ht.
    specialize (Ht ltac:(intros h0 [f0 s0]; cbn; unfold on_store, zoom; cbn; by destruct (reserve_hash h0 s0))
      fuel now (f, s)).
    unfold hat_commit. unfold as_sole in Ht at 1. cbn [fst snd] in Ht. rewrite Ht, Hrun. done.
  - assert (keeps family_rest (Family.commit (R := R) (hat_family name) fuel now
      (λ h, zoom snd_lens (reserve_hash h)))) as Hk.
    { apply (family_commit_keeps (R := R) store_registry _ _ _ main_process); try done.
      - intros. apply insert_chunk_keeps.
      - intros h0. apply hi_keeps, fetch_hash_ref_keeps.
      - intros h0. apply (keeps_zoom _ store_registry); [|apply reserve_hash_keeps].
        intros x p Hx. unfold family_rest. cbn in *. by rewrite Hx.
      - intros x p Hx. unfold family_rest. cbn in *. by rewrite Hx. }
    specialize (Hk (f, s)). rewrite Hrun in Hk. cbn in Hk. injection Hk as -> -> E1 E2.
    split_and!; [done|done|]. unfold registry. congruence.
Qed.

(** The database's transaction is committed. *)
Definition db_flushed s : Store Z B := (flush_blob_index s).2.

Lemma idle_flush s :
  CipherText.len (chunks (blob s)) = 0 → kb_flush s = (Ok (), db_flushed s).
Proof.
  intros Hz. cbn [kb_flush store_backend].
  assert (flush_store commit_callback s = (Ok (), s)) as E.
  { unfold flush_store, mbind, M_bind, zoom. cbn [lget blob_lens]. unfold to_ciphertext_blob.
    rewrite bind_gets. cbn [fst]. rewrite decide_True by done. by destruct s. }
  unfold BlobStore.flush. rewrite bind_assoc, (bind_Ok _ _ _ _ _ E). by destruct s as [[? []]].
Qed.

Lemma db_flushed_core s : store_core (db_flushed s) = store_core s ∧ store_registry (db_flushed s) = store_registry s.
Proof. done. Qed.

(** The states that a flush may lead to, from [p]: the promises are kept. *)
Record kept_since (hist : history) s0 s : Prop := {
  ks_ready : store_ready hist s;
  ks_keys : st_keys s = st_keys s0;
  ks_promises : ∀ h d, promised s0 h d → promised s h d;
}.

Lemma kept_refl hist s : store_ready hist s → kept_since hist s s.
Proof. by split. Qed.

Lemma kept_core hist s0 s s' : store_core s' = store_core s → kept_since hist s0 s → kept_since hist s0 s'.
Proof.
  intros Hc [Hs Hk Hp]. destruct (store_core_ready hist s s' Hc Hs) as [Hs' Hsame]. split; [done| |].
  - by rewrite (same_keys _ _ Hsame).
  - intros h d Hh. by eapply promised_same, Hp.
Qed.

Lemma blob_flush hist s0 s s' :
  kept_since hist s0 s → BlobStore.flush commit_callback s = (Ok (), s') →
  kept_since hist s0 s' ∧ flushed s' ∧ store_registry s' = store_registry s.
Proof.
  intros [Hs Hk Hp] Hrun. destruct (wp_Ok_inv _ _ _ _ _ (flush_wp hist s Hs) Hrun) as [Hs' Hz Hk' Hp'].
  split_and!; [split; [done|congruence|auto]|done|].
  exact (keeps_run store_registry _ _ _ _ store_flush_keeps Hrun).
Qed.

Lemma main_flush hist s0 s s' :
  kept_since hist s0 s → kb_flush s = (Ok (), s') →
  kept_since hist s0 s' ∧ flushed s' ∧ store_registry s' = store_registry s.
Proof.
  intros Hs (a & s1 & Hf & Hi)%bind_Ok_inv. destruct a.
  destruct (blob_flush _ _ _ _ Hs Hf) as (Hs1 & Hz & Hreg).
  injection Hi as <-. split_and!; [|done|exact Hreg]. by apply (kept_core _ _ s1).
Qed.

Lemma process_flush {Ps} (ks : lens Ps (InternalKeyIndex * Store Z B)) fuel p r p' :
  zoom ks (handle fuel (Flush (R := R))) p = (Ok r, p') →
  r = FlushOk ∧ ∃ x s', kb_flush (lget ks p).2 = (Ok (), s') ∧ p' = lset ks (x, s') p.
Proof.
  intros (ks' & Hrun & ->)%zoom_Ok_inv. destruct (lget ks p) as [x s]. cbn [handle snd] in *.
  unfold flush_all, on_store, on_index in Hrun. inv_run.
  repeat match goal with H : zoom _ _ _ = (Ok _, _) |- _ => apply zoom_Ok_inv in H as (? & ? & ->) end.
  split; [done|]. by eexists _, _.
Qed.

(** The three processes of an idle family, one after the other. *)
Lemma family_flushed hist s0 name f s f' s' :
  idle_family f → kept_since hist s0 s →
  flush_family (R := R) (hat_family name) (f, s) = (Ok (), (f', s')) →
  idle_family f' ∧ kept_since hist s0 s' ∧ flushed s' ∧ store_registry s' = store_registry s.
Proof.
  intros [H1z H2z] Hs Hrun. unfold flush_family, send_reply in Hrun. cbn [for_each key_store_process hat_family] in Hrun.
  inv_run. repeat match goal with H : zoom _ _ _ = (Ok _, _) |- _ =>
    apply process_flush in H as (-> & ? & ? & ? & ->) end.
  repeat match goal with H : mret () _ = (Ok (), ?x) |- _ =>
    apply (f_equal snd) in H; cbn [snd mret M_ret] in H; try subst x end.
  match goal with H : kb_flush (lget process_one _).2 = _ |- _ =>
    rewrite idle_flush in H by exact H1z; injection H as <- end.
  match goal with H : kb_flush (lget process_two _).2 = _ |- _ =>
    rewrite idle_flush in H by exact H2z; injection H as <- end.
  match goal with H : kb_flush (lget main_process _).2 = _, E : lset _ _ _ = _ |- _ =>
    rename H into Hmain; injection E as <- <- end.
  apply (main_flush hist s0) in Hmain as (? & ? & Hreg); [|by apply (kept_core _ _ s)].
  split; [split; [exact H1z|exact H2z]|]. split_and!; [done|done|exact Hreg].
Qed.

End Processes.

(** ** The repository *)

Section Repository.
Context `{SodiumLaws} `{LruCacheLaws}.
Context `{CborLaws Models.ChunkRef} `{CborLaws Models.HashIds} `{CborLaws Models.HashRef}.
Context `{CborLaws Models.HashRefs} `{CborLaws Models.Files} `{Cbor Models.Snapshots}.
Context {B : Type} `{StoreBackendLaws (list Z) B}.
Context {R : Type} `{!Reader R}.
Implicit Types (s : Store Z B) (h : Hat B).

#[local] Existing Instance store_backend | 5.

Lemma on_family_inv {A} name (m : M (FamilyState * Store Z B) A) h a h' :
  on_family name m h = (Ok a, h') →
  ∃ i f f' s', list_find (λ p, p.1 = name) (h_families h) = Some (i, (name, f)) ∧
    m (f, h_store h) = (Ok a, (f', s')) ∧
    h' = mkHat s' (<[i := (name, f')]> (h_families h)) (h_files h) (h_max_size h) (h_clock h).
Proof.
  unfold on_family. destruct (list_find _ (h_families h)) as [[i [n f]]|] eqn:E; [|done].
  pose proof E as (_ & Hn & _)%list_find_Some. cbn in Hn. subst n.
  destruct (m (f, h_store h)) as [r [f' s']] eqn:Em. intros [= -> <-]. by exists i, f, f', s'.
Qed.

(** The families that are open. *)
Abbreviation names h := (h_families h).*1.

(** What holds from a family's commit on: the promises of then, the table of snapshots [g], and
    the families that are open and idle. *)
Record sound (hist : history) s0 g h : Prop := {
  so_store : kept_since hist s0 (h_store h);
  so_registry : store_registry (h_store h) = g;
  so_idle : ∀ p, p ∈ h_families h → idle_family p.2;
}.

Lemma sound_core hist s0 g h h' :
  store_core (h_store h') = store_core (h_store h) → h_families h' = h_families h →
  sound hist s0 g h → sound hist s0 (store_registry (h_store h')) h'.
Proof. intros Hc Hf [Hs _ Hi]. split; [by eapply kept_core|done|by rewrite Hf]. Qed.

Lemma family_flush_sound hist s0 g name h h' :
  sound hist s0 g h → family_flush (R := R) name h = (Ok (), h') → sound hist s0 g h' ∧ names h' = names h.
Proof.
  intros [Hs Hg Hi] Hrun. apply on_family_inv in Hrun as (i & f & f' & s' & Hfind & Hrun & ->).
  apply list_find_Some in Hfind as (Hl & _). assert (idle_family f) as Hf.
  { apply (Hi (name, f)). by eapply list_elem_of_lookup_2. }
  destruct (family_flushed hist s0 name f (h_store h) f' s' Hf Hs Hrun) as (Hf' & Hs' & _ & Hreg).
  split.
  - split; cbn [h_store h_families]; [done|by rewrite Hreg|].
    intros p [j Hj]%list_elem_of_lookup_1. apply list_lookup_insert_Some in Hj as [(_ & <- & _)|[_ Hj]]; [done|].
    apply Hi. by eapply list_elem_of_lookup_2.
  - cbn [h_families]. rewrite list_fmap_insert. apply list_insert_id. by rewrite list_lookup_fmap, Hl.
Qed.

(** After [data_flush] everything is in the backend and in the database's file. *)
Lemma data_flush_sound hist s0 g h h' :
  sound hist s0 g h → data_flush (R := R) h = (Ok (), h') →
  sound hist s0 g h' ∧ flushed (h_store h') ∧ names h' = names h ∧
  Db.committed (index (hi (h_store h'))) = Db.cur (index (hi (h_store h'))).
Proof.
  intros Hs Hrun. unfold data_flush in Hrun. rewrite bind_gets in Hrun. inv_run.
  match goal with H : for_each _ _ h = (Ok (), ?x) |- _ => rename H into Hall; rename x into h1 end.
  assert (sound hist s0 g h1 ∧ names h1 = names h) as [Hs1 Hn1].
  { revert Hall. apply (stays_for_each (λ x, sound hist s0 g x ∧ names x = names h)); [|done].
    intros f x [] x' [Hx Hn] Hrun. destruct (family_flush_sound _ _ _ _ _ _ Hx Hrun). split; [done|congruence]. }
  match goal with H : flush_blob_store h1 = (Ok (), ?x) |- _ => rename H into Hblob; rename x into h2 end.
  apply zoom_Ok_inv in Hblob as (s2 & Hblob & ->).
  destruct (blob_flush _ _ _ _ (so_store _ _ _ _ Hs1) Hblob) as (Hs2 & Hz & Hreg).
  match goal with H : meta_flush _ = (Ok (), _) |- _ => injection H as <- end.
  split_and!; [|exact Hz|done|done]. split; [by apply (kept_core _ _ s2)| |apply Hs1].
  rewrite <- (so_registry _ _ _ _ Hs1). exact Hreg.
Qed.

(** *** The collector's part *)

Definition store_bare s := (store_core s, store_registry s).

Lemma hi_bare {A} (m : HI A) : keeps bare m → keeps store_bare (zoom hi_lens m).
Proof.
  apply keeps_zoom. intros y s Hy. pose proof (f_equal fst Hy) as Hc. pose proof (f_equal snd Hy) as Hg.
  exact (f_equal2 pair (f_equal (λ c, (c, behind_index s)) Hc) Hg).
Qed.

Lemma register_final_bare info i : keeps store_bare (GcRc.rc_register_final info i).
Proof.
  unfold GcRc.rc_register_final. cbn [Gc.manual_commit Gc.set_tag list_ids_by_tag update_data store_gc_backend].
  keep; apply hi_bare; first [apply manual_commit_bare|apply set_tag_bare|apply ids_by_tag_bare|apply update_data_bare].
Qed.

Lemma register_cleanup_bare info i : keeps store_bare (GcRc.rc_register_cleanup info i).
Proof. apply hi_bare, set_all_tags_bare. Qed.

(** The repository but for tags, counters and clocks. *)
Definition hat_bare h := (store_bare (h_store h), h_families h, h_files h, h_max_size h).

Lemma on_store_bare {A} (m : M (Store Z B) A) : keeps store_bare m → keeps hat_bare (on_store_of m).
Proof. apply keeps_zoom. intros s h Hs. unfold hat_bare. cbn in *. by rewrite Hs. Qed.

Lemma get_hash_id_bare b : keeps hat_bare (get_hash_id b).
Proof. unfold get_hash_id. keep. apply on_store_bare, hi_bare, get_id_bare. Qed.

Lemma meta_flush_bare : keeps hat_bare meta_flush.
Proof. apply on_store_bare. intros s. done. Qed.

(** What changes the table of snapshots only. *)
Definition hat_core h := (store_core (h_store h), h_families h, h_files h, h_max_size h).

Lemma snapshots_core {A} (m : DB A) : keeps (λ x, table_core (Db.cur x)) m → keeps hat_core (snapshots m).
Proof.
  intros Hm. apply (keeps_zoom _ store_core); [|by apply on_db_core].
  intros s h Hs. unfold hat_core. cbn in *. by rewrite Hs.
Qed.

Lemma bare_core h h' : hat_bare h' = hat_bare h →
  hat_core h' = hat_core h ∧ store_registry (h_store h') = store_registry (h_store h).
Proof.
  intros E. pose proof (f_equal (λ x, x.1.1.1) E) as Es. unfold hat_core.
  pose proof (f_equal fst Es) as Ec. pose proof (f_equal snd Es) as Eg.
  pose proof (f_equal (λ x, x.1.1.2) E) as E1. pose proof (f_equal (λ x, x.1.2) E) as E2.
  pose proof (f_equal snd E) as E3. cbn in *. by rewrite Ec, E1, E2, E3.
Qed.

(** *** The snapshot of a commit *)

(** Row [i] is the latest of the family [n]; the others are those of [g0]. *)
Record our_row (g0 : gmap Z schema.Snapshot) (n : bytes) (i : Z) (r : schema.Snapshot)
    (g : gmap Z bytes * gmap Z schema.Snapshot) : Prop := {
  our_latest : latest_row g n i r;
  our_others : ∀ j, j ≠ i → g.2 !! j = g0 !! j;
}.

(** The row of [info] is changed. *)
Lemma our_row_step g0 n i r info F h a h' :
  our_row g0 n i r (store_registry (h_store h)) → as_i64 (unique_id info) = i →
  (∀ r, schema.s_family_id (F r) = schema.s_family_id r ∧ schema.s_snapshot_id (F r) = schema.s_snapshot_id r) →
  snapshots (on_snapshots (modify (update (λ i _, bool_decide (i = as_i64 (unique_id info))) F))) h = (Ok a, h') →
  hat_core h' = hat_core h ∧ our_row g0 n i (F r) (store_registry (h_store h')).
Proof.
  intros [Hl Ho] Hi HF Hrun. split.
  { apply (keeps_run hat_core _ _ _ _ (snapshots_core _ (on_snapshots_core _)) Hrun). }
  injection Hrun as _ <-.
  pose proof (latest_row_update _ n i r (λ i _, bool_decide (i = as_i64 (unique_id info))) F HF Hl) as Hl'.
  cbv beta in Hl'. rewrite bool_decide_eq_true_2 in Hl' by done. split; [exact Hl'|].
  intros j Hj. cbn. rewrite lookup_update. rewrite <- Ho by done.
  unfold registry. cbn. destruct (_ !! j); [|done]. cbn. by rewrite bool_decide_eq_false_2 by congruence.
Qed.

(** The snapshot [i] of the family is registered with [top], and done. *)
Definition registered (g0 : gmap Z schema.Snapshot) (n : bytes) (i : Z) (top : tree.HashRef)
    (g : gmap Z bytes * gmap Z schema.Snapshot) : Prop :=
  ∃ r, our_row g0 n i r g ∧ schema.s_hash r = Some (tree.hash top) ∧
    schema.s_hash_ref r = Some (tree.as_bytes top) ∧ schema.s_tag r = num Done.

(** What follows the family's part in a commit. *)
Definition commit_rest (info : SnapshotInfo) (top_ref : tree.HashRef) : M (Hat B) unit :=
  snapshots (Snapshot.update info (tree.hash top_ref) top_ref) ;;
  meta_flush ;;
  hash_id ← get_hash_id (tree.hash top_ref);
  on_store_of (GcRc.rc_register_final info hash_id) ;;
  meta_flush ;;
  commit_finalize info (tree.hash top_ref).

Lemma bare_row g0 n i r {A} (m : M (Hat B) A) h a h' :
  our_row g0 n i r (store_registry (h_store h)) → keeps hat_bare m → m h = (Ok a, h') →
  hat_core h' = hat_core h ∧ our_row g0 n i r (store_registry (h_store h')).
Proof.
  intros Ho Hm Hrun. destruct (bare_core h h' (keeps_run hat_bare _ _ _ _ Hm Hrun)) as [? Hg].
  by rewrite Hg.
Qed.

Lemma commit_rest_ok g0 n i r info top h h' :
  our_row g0 n i r (store_registry (h_store h)) → as_i64 (unique_id info) = i →
  commit_rest info top h = (Ok (), h') →
  hat_core h' = hat_core h ∧ registered g0 n i top (store_registry (h_store h')).
Proof.
  intros Ho Hi Hrun. unfold commit_rest, commit_finalize in Hrun. inv_run.
  repeat match goal with
    | H : snapshots _ _ = (Ok _, _) |- _ => eapply our_row_step in H as [? ?]; [|eassumption|eassumption|by intros []]
    | H : meta_flush _ = (Ok _, _) |- _ => eapply bare_row in H as [? ?]; [|eassumption|apply meta_flush_bare]
    | H : get_hash_id _ _ = (Ok _, _) |- _ => eapply bare_row in H as [? ?]; [|eassumption|apply get_hash_id_bare]
    | H : on_store_of (GcRc.rc_register_final _ _) _ = (Ok _, _) |- _ =>
        eapply bare_row in H as [? ?]; [|eassumption|apply on_store_bare, register_final_bare]
    | H : on_store_of (GcRc.rc_register_cleanup _ _) _ = (Ok _, _) |- _ =>
        eapply bare_row in H as [? ?]; [|eassumption|apply on_store_bare, register_cleanup_bare]
    end.
  split; [congruence|]. eexists. split; [eassumption|]. done.
Qed.

(** *** A commit *)

Lemma snapshots_inv {A} (m : DB A) h a h' : snapshots m h = (Ok a, h') →
  ∃ x, m (index (hi (h_store h))) = (Ok a, x) ∧ index (hi (h_store h')) = x ∧ h_families h' = h_families h.
Proof.
  unfold snapshots, on_store_of, on_db. intros (s & (y & (x & Hm & ->)%zoom_Ok_inv & ->)%zoom_Ok_inv & ->)%zoom_Ok_inv.
  by exists x.
Qed.

(** The state in which the family commits, and the clock's reading. *)
Definition before_commit (name : bytes) h : Hat B := ((snapshots (Snapshot.reserve name) ;; meta_flush) h).2.
Definition commit_time (name : bytes) h : Z :=
  let c := h_clock (before_commit name h) in reading c (tick c).

(** What a commit of the family that is open as [f] asks the store to insert. *)
Definition repo_inserts (fuel : nat) (name : bytes) h f (hist : history) : history :=
  commit_inserts (R := R) name fuel (commit_time name h) (f_index f) (h_store (before_commit name h)) hist.

#[local] Existing Instance logged_store_backend | 5.
#[local] Existing Instance logged_store_laws.
#[local] Existing Instance logged_store_morphism.

Lemma kept_later hist s0 s : kept_since hist s0 s → later (s0, hist) (s, hist).
Proof.
  intros [_ Hk Hp] h d Hst Hc. cbn [fst snd] in *. rewrite Hk in Hc. destruct (Hst Hc) as [? ?]. by split; [apply Hp|].
Qed.

(** The family's part. *)
Lemma commit_family_ok hist j name f l n fuel h top h1 :
  list_find (λ p, p.1 = name) (h_families h) = Some (j, (name, f)) →
  (∀ p, p ∈ h_families h → idle_family p.2) → store_ready hist (h_store h) →
  indexed_dir (S n) (f_index f) (h_store h, hist) None l → n < fuel →
  commit_family (R := R) fuel name h = (Ok top, h1) →
  let hist1 := commit_inserts (R := R) name fuel (reading (h_clock h) (tick (h_clock h))) (f_index f) (h_store h) hist in
  stored_dir (S n) (h_store h1, hist1) top l ∧
  sound hist1 (h_store h1) (store_registry (h_store h)) h1 ∧ names h1 = names h.
Proof.
  intros Hfind Hidle Hs Hdir Hn Hrun. unfold commit_family in Hrun.
  apply bind_Ok_inv in Hrun as (now & h0 & Hnow & Hrun). injection Hnow as <- <-.
  apply on_family_inv in Hrun as (j' & f0 & f' & s' & Hfind' & Hcom & ->).
  cbn [h_families h_store lset clock_lens h_files h_max_size h_clock] in *.
  rewrite Hfind in Hfind'. injection Hfind' as <- <-.
  apply list_find_Some in Hfind as (Hj & _). assert (idle_family f) as [H1i H2i].
  { apply (Hidle (name, f)). by eapply list_elem_of_lookup_2. }
  destruct (hat_family_commit _ _ _ _ _ _ _ _ Hcom) as (Hhc & E1 & E2 & Eg).
  destruct (logged_commit_run (R := R) _ _ _ _ _ hist _ _ _ Hhc) as [hist' Hlog].
  assert (commit_inserts (R := R) name fuel (reading (h_clock h) (tick (h_clock h))) (f_index f)
    (h_store h) hist = hist') as ->.
  { unfold commit_inserts. by rewrite Hlog. }
  destruct (sole_commit (R := R) name n fuel (reading (h_clock h) (tick (h_clock h)))
    (λ b, on_store (zoom fst_lens (reserve_hash b))) l (f_index f, (h_store h, hist)) top (f_index f', (s', hist')))
    as [Hs' Hst]; [|done..|].
  { intros h' [x [s hist0]] Hks. apply wp_zoom, wp_zoom.
    eapply wp_mono; [by apply (logged_reserve hist0)|]. by intros _ s1 [? ?]. }
  split_and!; [exact Hst| |].
  - split; cbn [h_store h_families]; [by apply kept_refl|done|].
    intros p [k Hk]%list_elem_of_lookup_1. apply list_lookup_insert_Some in Hk as [(_ & <- & _)|[_ Hk]].
    + split; cbn [snd]; by rewrite ?E1, ?E2.
    + apply Hidle. by eapply list_elem_of_lookup_2.
  - cbn [h_families]. rewrite list_fmap_insert. apply list_insert_id. by rewrite list_lookup_fmap, Hj.
Qed.

Lemma hat_committed hist j name f l n fuel h h1 :
  list_find (λ p, p.1 = name) (h_families h) = Some (j, (name, f)) →
  (∀ p, p ∈ h_families h → idle_family p.2) → store_ready hist (h_store h) →
  unique_families (store_registry (h_store h)).1 → countable (store_registry (h_store h)).2 →
  indexed_dir (S n) (f_index f) (h_store h, hist) None l → n < fuel →
  commit (R := R) fuel name None h = (Ok (), h1) →
  ∃ s0 i top, let hist1 := repo_inserts fuel name h f hist in
    stored_dir (S n) (s0, hist1) top l ∧ sound hist1 s0 (store_registry (h_store h1)) h1 ∧
    names h1 = names h ∧ registered (store_registry (h_store h)).2 name i top (store_registry (h_store h1)).
Proof.
  intros Hfind Hidle Hready Hix Hids Hdir Hn Hrun. unfold commit in Hrun.
  apply bind_Ok_inv in Hrun as (info & ha & Hres & Hrun).
  apply bind_Ok_inv in Hrun as ([] & hb & Hmf & Hrun).
  apply bind_Ok_inv in Hrun as (top & hc & Hfam & Hrest).
  change (commit_rest info top hc = (Ok (), h1)) in Hrest.
  assert (before_commit name h = hb) as Eb.
  { unfold before_commit. by rewrite (bind_Ok _ _ _ _ _ Hres), Hmf. }
  assert (hat_core hb = hat_core h) as Ecore.
  { etrans; [apply bare_core; exact (keeps_run hat_bare _ _ _ _ meta_flush_bare Hmf)|].
    exact (keeps_run hat_core _ _ _ _ (snapshots_core _ (snapshot_reserve_core name)) Hres). }
  destruct (snapshots_inv _ _ _ _ Hres) as (x & Hx & <- & _).
  destruct (reserved_latest name _ info _ Hix Hids Hx) as (i & r & Hlat & Hi & Hoth).
  destruct (bare_core _ _ (keeps_run hat_bare _ _ _ _ meta_flush_bare Hmf)) as [_ Hgb].
  assert (h_families hb = h_families h) as Ef by exact (f_equal (λ x, x.1.1.2) Ecore).
  destruct (store_core_ready hist (h_store h) (h_store hb) (f_equal (λ x, x.1.1.1) Ecore) Hready) as [Hrb Hsame].
  assert (kept_since hist (h_store h) (h_store hb)) as Hkept.
  { apply (kept_core hist _ (h_store h)); [exact (f_equal (λ x, x.1.1.1) Ecore)|by apply kept_refl]. }
  unfold repo_inserts, commit_time. rewrite Eb.
  destruct (commit_family_ok hist j name f l n fuel hb top hc) as (Hst & Hsound & Hn1);
    [by rewrite Ef|by rewrite Ef|done|by eapply indexed_dir_later; [apply kept_later|]|done..|].
  rewrite Hgb in Hsound. destruct (commit_rest_ok (store_registry (h_store h)).2 name i r info top hc h1)
    as [Ec Hreg]; [rewrite (so_registry _ _ _ _ Hsound); by split|done..|].
  exists (h_store hc), i, top. cbv zeta. split; [exact Hst|]. split; [|split; [|exact Hreg]].
  - eapply sound_core; [exact (f_equal (λ x, x.1.1.1) Ec)|exact (f_equal (λ x, x.1.1.2) Ec)|exact Hsound].
  - rewrite (f_equal (λ x, x.1.1.2) Ec : h_families h1 = h_families hc). by rewrite Hn1, Ef.
Qed.

(** *** A checkout *)

Lemma open_family_bare name : keeps (λ h, store_bare (h_store h)) (open_family name).
Proof.
  assert (∀ size, keeps store_bare (new_blob_store (B := B) size)) as Hnew.
  { intros size. unfold new_blob_store, reserve_blob, new_blob_desc, take_next_id, name_of_id. keep. }
  assert (∀ size, keeps (λ h, store_bare (h_store h)) (on_store_of (new_blob_store (B := B) size))) as Hnew'.
  { intros size. by apply (keeps_zoom _ store_bare). }
  unfold open_family. cbv zeta. keep.
Qed.

Lemma zoom_read {W P A} (l : lens W P) `{!LensLaws l} (m : M P A) w r :
  m (lget l w) = (r, lget l w) → zoom l m w = (r, w).
Proof. intros E. unfold zoom. rewrite E. by rewrite lset_lget. Qed.

Lemma snapshots_read {A} (m : DB A) h r :
  m (index (hi (h_store h))) = (r, index (hi (h_store h))) → snapshots m h = (r, h).
Proof. intros E. unfold snapshots, on_store_of, on_db, zoom. cbn. rewrite E. by destruct h as [[[]]]. Qed.

Context {Fs : Type} `{FileSystemLaws Fs}.

(** What is registered is checked out. *)
Lemma registered_restored hist g0 name i top l n h h' (fs : Fs) out :
  registered g0 name i top (store_registry (h_store h)) → stored_dir (S n) (h_store h, hist) top l →
  store_ready hist (h_store h) → flushed (h_store h) → collision_free (st_keys (h_store h)) hist →
  open_family name h = (Ok (), h') → restorable takes out l → fs_ok fs → out_ready (view fs) out →
  ∃ N h3 fs', (∀ fuel, N ≤ fuel → checkout_in_dir fuel name out (h, fs) = (Ok (), (h3, fs'))) ∧
    fs_ok fs' ∧ restored l out (view fs) (view fs').
Proof.
  intros (r & [Hlat _] & Hh & Hhr & _) Hst Hs Hz Hc Hopen Hres Hfs Hout.
  assert (tree.HashRef_wf top) as Hwf by by destruct Hst as (? & ? & ?%denotes_wf & _).
  pose proof (keeps_run _ _ _ _ _ (open_family_bare name) Hopen) as Eb. cbv beta in Eb.
  destruct (store_core_ready hist (h_store h) (h_store h') (f_equal fst Eb) Hs) as [Hs' Hsame].
  assert (kept_since hist (h_store h) (h_store h')) as Hk.
  { apply (kept_core hist _ (h_store h)); [exact (f_equal fst Eb)|by apply kept_refl]. }
  assert (flushed (h_store h')) as Hz' by (unfold flushed; by rewrite (same_blob _ _ Hsame)).
  destruct (checkout_ends (S n) out l (tree.norm top) (h_store h', hist) fs)
    as (N & out' & [[s3 hist3] fs'] & Hends & Hleaves);
    [|by eapply stored_dir_later; [apply kept_later|apply stored_dir_norm]|done..|].
  { split; [done|]. split; [done|]. cbn [fst snd]. by rewrite (ks_keys _ _ _ Hk). }
  destruct Hleaves as (-> & _ & _ & Hfs' & Hres'). cbn [fst snd] in *.
  exists N, (lset store_lens s3 h'), fs'. split_and!; [|done|exact Hres']. intros fuel Hf.
  assert (checkout_dir_ref fuel out (tree.norm top) (h_store h', fs) = (Ok out, (s3, fs'))) as Hrun.
  { pose proof (checkout_tracks fst fuel out (tree.norm top) ((h_store h', hist), fs)) as Htr.
    rewrite (Hends fuel Hf) in Htr. exact Htr. }
  unfold checkout_in_dir.
  assert (Snapshot.latest name (index (hi (h_store h))) =
    (Ok (Some (info_of_row i r, tree.hash top, Some (tree.norm top))), index (hi (h_store h)))) as Hl.
  { rewrite (latest_run _ _ _ _ Hlat). unfold Db.found, href_of_row. rewrite Hh, Hhr. cbn [expect mbind res_bind].
    by rewrite tree.href_from_bytes_as_bytes by done. }
  rewrite (bind_Ok _ _ _ _ _ (zoom_read fst_lens _ (h, fs) _ (snapshots_read _ h _ Hl))).
  rewrite (bind_Ok _ _ (h, fs) () (h', fs)) by (unfold zoom, unwrapM; cbn [lget fst_lens fst]; by rewrite Hopen).
  rewrite (bind_Ok _ _ (h', fs) out (lset store_and_disk (s3, fs') (h', fs))); [done|].
  by apply zoom_Ok.
Qed.

(** *** A crash *)

Lemma InternalIndex_new_cur file secs c1 c2 x : InternalIndex_new file secs c1 c2 = Ok x → Db.cur x = file.
Proof.
  unfold InternalIndex_new. destruct (PeriodicTimer.new secs c1) as [[t| | |] c]; cbn [mbind res_bind]; try done.
  set (i := mkIndex _ _ _ _ _ _ _ _).
  assert (hash_refresh_id_counter i =
    (Ok (), lset counter_lens (Counter.new (default 0%Z (max_key (schema.hashes file)))) i)) as ->
    by (destruct file; reflexivity).
  by intros [= <-].
Qed.

Lemma HashIndex_new_run x y x' : HashIndex_new x = (Ok y, x') →
  queue y = UniquePriorityQueue.new ∧ schema.blobs (Db.cur (index y)) = schema.blobs (Db.cur x) ∧
  registry (index y) = registry x ∧
  schema.hashes (Db.cur (index y)) = delete_where (λ _ row, negb (schema.ready row)) (schema.hashes (Db.cur x)).
Proof. by intros [= <- _]. Qed.

(** The fields of a store that has just been opened. *)
Lemma Store_new_fields k y b r size s :
  keys.Keeper_ok k → (Z.of_nat size < 2 ^ 62)%Z → Store_new k y b r size = Ok s →
  hi s = y ∧ st_keys s = k ∧ BlobStore.backend s = b ∧ blob_refs s = [] ∧ spawned s = [] ∧
  read_cache s = lru_new 10 ∧ Blob_ok (blob s) [] ∧ keys_ (blob s) = k.
Proof.
  intros Hk Hmax. destruct (Blob_new_ok k size r Hk Hmax) as (nb & r1 & E1 & Hnb & _ & Hkb).
  unfold Store_new. rewrite E1. cbn [mbind res_bind].
  set (s0 := mkStore y 0 k b _ [] nb _ r1 []). set (nid := as_i64 (1 + default 0%Z (max_key
    (schema.blobs (Db.cur (index y)))))). set (s1 := lset next_id_lens nid s0).
  destruct (reserve_new_blob_run s1 Hk) as (nid2 & dd & r2 & E2).
  assert (refresh_next_id s0 = (Ok (), s1)) as E3 by (destruct y as [q [[] ?]]; reflexivity).
  rewrite (bind_Ok _ _ _ _ _ E3), E2. by intros [= <-].
Qed.

(** A store that starts on the tables of one that is flushed. *)
Lemma restarted_kept hist s y r size s' :
  store_ready hist s → flushed s → (Z.of_nat size < 2 ^ 62)%Z →
  queue y = UniquePriorityQueue.new → schema.blobs (Db.cur (index y)) = schema.blobs (Db.cur (index (hi s))) →
  rows y = delete_where (λ _ row, negb (schema.ready row)) (rows (hi s)) →
  Store_new (st_keys s) y (BlobStore.backend s) r size = Ok s' →
  kept_since hist s s' ∧ flushed s'.
Proof.
  intros Hs Hz Hsize Hq Hb Hr Hnew.
  apply Store_new_fields in Hnew as (Ey & Ek & Eb & Er & Es & Ec & Hnb & Hkb); [|apply Hs|done].
  assert (∀ i, blob_name_at (index (hi s')) i = blob_name_at (index (hi s)) i) as Hnames.
  { intros i. unfold blob_name_at. by rewrite Ey, Hb. }
  assert (∀ n, HashStoreOk.known s n → HashStoreOk.known s' n) as Hknown.
  { intros n [i Hi]. exists i. by rewrite Hnames. }
  assert (∀ hr d, promised s hr d → promised s' hr d) as Hprom.
  { intros hr d Hp. pose proof Hp as [Hd [Hempty|[Hlen _]]]; (split; [by unfold digest_of; rewrite Ek|]); [by left|].
    right. split; [done|left]. destruct (promised_in_backend _ _ _ _ _ _ Hs Hz Hp Hlen) as (o & lp & ? & ? & ? & ?).
    exists o, lp. rewrite Eb, Ek. auto. }
  split; [split; [|done|done]|by apply (ok_len_0 _ [])].
  pose proof Hs as [? ? ? ? Hf Hc ? ? Hi]. unfold store_ready. rewrite Er, Es.
  split; rewrite ?Ek, ?Eb, ?Er, ?Ec, ?Ey; try done.
  - by exists [].
  - intros n. destruct (Hf n); [by left|right; auto].
  - intros n reader. by rewrite lru_map_new, lookup_empty.
  - left. by rewrite Hq.
  - split; cbn; rewrite ?Hq, ?Hr.
    + apply UniquePriorityQueue.upq_new_ok.
    + intros p st k qe Hp. cbn in Hp. by rewrite lookup_empty in Hp.
    + intros i row [_ Hrd]%lookup_delete_where. by destruct (schema.ready row).
    + intros i j a b [Ha _]%lookup_delete_where [Hb' _]%lookup_delete_where. by eapply (ix_unique _ _ _ _ _ Hi).
    + intros i row [Hrow _]%lookup_delete_where Hrd.
      destruct (ix_rows _ _ _ _ _ Hi _ _ Hrow Hrd) as (n & lf & d & p & ? & ? & ? & Hl).
      exists n, lf, d, p. split_and!; [done|done|by apply Hprom|]. intros Hlen. rewrite Hnames. by apply Hl.
    + constructor.
    + intros p. rewrite elem_of_nil. split; [done|]. intros (_ & q & qe & Hp).
      simpl in Hp. by rewrite lookup_empty in Hp.
Qed.

(** Every snapshot is done: there is nothing to resume. *)
Definition all_done (t : gmap Z schema.Snapshot) : Prop := ∀ i r, t !! i = Some r → schema.s_tag r = num Done.

Lemma list_not_done_none h :
  all_done (store_registry (h_store h)).2 → snapshots Snapshot.list_not_done h = (Ok [], h).
Proof.
  intros Hd. apply snapshots_read. unfold Snapshot.list_not_done, Snapshot.list, snapshot_list.
  rewrite bind_gets. cbv zeta.
  rewrite (proj2 (select_nil (λ _ row, bool_decide (schema.s_tag row ≠ num Done)) _)); [done|].
  intros i r Hi. apply bool_decide_eq_false. intros Hne. apply Hne. by eapply Hd.
Qed.

Lemma resume_nothing fuel h :
  all_done (store_registry (h_store h)).2 → resume (R := R) fuel h = (Ok (), h).
Proof.
  intros Hd. unfold resume. rewrite (bind_Ok _ _ _ _ _ (list_not_done_none h Hd)). cbn [for_each].
  rewrite bind_ret. by rewrite (bind_Ok _ _ _ _ _ (list_not_done_none h Hd)).
Qed.

(** A later process: the tables as they were committed, the backend as it is, the same keys. *)
Definition later_process h h' : Prop :=
  ∃ fuel files r steady utc size, (Z.of_nat size < 2 ^ 62)%Z ∧
    open_repository (R := R) fuel (st_keys (h_store h)) (Db.crash (index (hi (h_store h)))) files
      (BlobStore.backend (h_store h)) r steady utc size = Ok h'.

Lemma later_process_kept hist h h' :
  store_ready hist (h_store h) → flushed (h_store h) →
  Db.committed (index (hi (h_store h))) = Db.cur (index (hi (h_store h))) →
  all_done (store_registry (h_store h)).2 → later_process h h' →
  kept_since hist (h_store h) (h_store h') ∧ flushed (h_store h') ∧
  store_registry (h_store h') = store_registry (h_store h).
Proof.
  intros Hs Hz Hcom Hd (fuel & files & r & steady & utc & size & Hsize & Hopen).
  unfold open_repository, new_hat in Hopen.
  apply res_bind_Ok_inv in Hopen as (h0 & Hnew & Hopen).
  apply res_bind_Ok_inv in Hnew as (x & Hx & Hnew).
  destruct (HashIndex_new x) as [[y| | |] x'] eqn:Ey; try done.
  apply res_bind_Ok_inv in Hnew as (y0 & [= <-] & Hnew).
  apply res_bind_Ok_inv in Hnew as (s & Hstore & Hnew). injection Hnew as <-.
  apply InternalIndex_new_cur in Hx. apply HashIndex_new_run in Ey as (Hq & Hb & Hg & Hr).
  unfold Db.crash in Hx. rewrite Hcom in Hx. unfold registry in Hg. rewrite Hx in Hb, Hg, Hr.
  assert (hi s = y) as Ehi by (apply Store_new_fields in Hstore as (? & _); [done|apply Hs|done]).
  destruct (restarted_kept hist (h_store h) y r size s Hs Hz Hsize Hq Hb Hr Hstore) as [Hk Hz'].
  rewrite resume_nothing in Hopen;
    [change (Ok (mkHat s [] files size utc) = Ok h') in Hopen; injection Hopen as <-|]; cbn [h_store]; rewrite Ehi.
  - split_and!; [done|done|exact Hg].
  - unfold registry. by rewrite Hg.
Qed.

Lemma registered_done g0 n i top g : all_done g0 → registered g0 n i top g → all_done g.2.
Proof.
  intros Hd (r & [Hl Ho] & _ & _ & Ht) k row Hk. destruct (decide (k = i)) as [->|Hne].
  - pose proof (lr_row _ _ _ _ Hl) as Hr. congruence.
  - rewrite Ho in Hk by done. by eapply Hd.
Qed.

End Repository.
