(* ===== verification/RepoSpec.v ===== *)
(** * The repository's commands on a whole repository

    A commit and its flush survive a crash; a backup, a loss of the tables and a recovery from
    the blobs alone; what a crash after a commit that was not flushed leaves; what a process that
    has recovered can still write. *)

From S2P Require Import Prelude Utf8 Cbor Codec Refs Ordered Upq Timer Db Crypto ModelSodium.
From S2P Require Import HashIndex Backend Blob BlobStore ModelWorld BlobSpec HashTree HashStore.
From S2P Require Import StoreIndex HashStoreOk HashStoreSpec Gc HatGc Hat KeyIndex KeyIndexOk.
From S2P Require Import KeyIndexScan KeyStore KeyStoreOk KeyStoreSpec Walker FileSystem Family FamilyOk.
From S2P Require Import Checkout CheckoutSpec ScanTree BackupSpec Recover Repo Frames RepoOk.
From S2P Require Models Snapshot.
Import Ordered.tags.

(** ** A commit is durable after the flush *)

Section Commit.
Context `{SodiumLaws} `{LruCacheLaws}.
Context `{CborLaws Models.ChunkRef} `{CborLaws Models.HashIds} `{CborLaws Models.HashRef}.
Context `{CborLaws Models.HashRefs} `{CborLaws Models.Files} `{Cbor Models.Snapshots}.
Context {B : Type} `{StoreBackendLaws (list Z) B}.
Context {R : Type} `{!Reader R} {Fs : Type} `{FileSystemLaws Fs}.
Implicit Types h : Hat B.

#[local] Existing Instance store_backend | 5.
#[local] Existing Instance logged_store_backend | 5.
#[local] Existing Instance logged_store_laws.

(** C3: Commit a family whose index of keys lists [l], in a repository whose earlier snapshots
    are done and whose other blob stores hold nothing back, and flush all data. Then the snapshot
    survives: in this process, and in any later one that opens the repository with the same keys
    on the tables as they were committed and the backend as it is (a crash at once included),
    there is nothing to resume, and a checkout of the family's latest snapshot restores exactly
    [l] into a new or empty directory, with every file's contents, permissions and times. *)
Theorem committed_survives (hist : history) j name f l n fuel h h1 h2 :
  list_find (λ p, p.1 = name) (h_families h) = Some (j, (name, f)) →
  (∀ p, p ∈ h_families h → idle_family p.2) → store_ready hist (h_store h) →
  unique_families (store_registry (h_store h)).1 → countable (store_registry (h_store h)).2 →
  all_done (store_registry (h_store h)).2 →
  indexed_dir (S n) (f_index f) (h_store h, hist) None l → n < fuel →
  commit (R := R) fuel name None h = (Ok (), h1) → data_flush (R := R) h1 = (Ok (), h2) →
  collision_free (st_keys (h_store h2)) (repo_inserts (R := R) fuel name h f hist) →
  ∀ h3 h4 (fs : Fs) out, h3 = h2 ∨ later_process (R := R) h2 h3 → open_family name h3 = (Ok (), h4) →
    restorable takes out l → fs_ok fs → out_ready (view fs) out →
    snapshots Snapshot.list_not_done h3 = (Ok [], h3) ∧
    ∃ N h5 fs', (∀ fuel5, N ≤ fuel5 → checkout_in_dir fuel5 name out (h3, fs) = (Ok (), (h5, fs'))) ∧
      fs_ok fs' ∧ restored l out (view fs) (view fs').
Proof.
  intros Hfind Hidle Hs Hu Hc Hd Hdir Hn Hcom Hflush Hfree h3 h4 fs out Hlater Hopen Hres Hfs Hout.
  destruct (hat_committed hist j name f l n fuel h h1) as (s0 & i & top & Hst & Hsound & _ & Hreg); [done..|].
  set (hist1 := repo_inserts fuel name h f hist) in *.
  destruct (data_flush_sound _ _ _ _ _ Hsound Hflush) as ([Hk2 Hg2 _] & Hz2 & _ & Hcur).
  assert (all_done (store_registry (h_store h2)).2) as Hd2 by by rewrite Hg2; eapply registered_done.
  assert (kept_since hist1 (h_store h2) (h_store h3) ∧ flushed (h_store h3) ∧
    store_registry (h_store h3) = store_registry (h_store h2)) as (Hk3 & Hz3 & Hg3).
  { destruct Hlater as [->|Hl]; [by split; [apply kept_refl, Hk2|]|].
    apply (later_process_kept (R := R)); try done. apply Hk2. }
  split; [apply list_not_done_none; by rewrite Hg3|].
  eapply (registered_restored hist1 _ name i top l n h3 h4); try done.
  - by rewrite Hg3, Hg2.
  - eapply stored_dir_later; [|exact Hst]. etrans; by apply kept_later.
  - apply Hk3.
  - by rewrite (ks_keys _ _ _ Hk3).
Qed.

End Commit.

(** ** Runs *)

Section Runs.

Import ModelSodium ModelWorld MemoryBackend.

#[local] Existing Instance model_sodium.
#[local] Existing Instance model_laws.
#[local] Existing Instance model_lru.
#[local] Existing Instance model_lru_laws.
#[local] Existing Instance chunk_ref_cbor.
#[local] Existing Instance chunk_ref_laws.
#[local] Existing Instance ids_cbor.
#[local] Existing Instance ids_laws.
#[local] Existing Instance href_cbor.
#[local] Existing Instance href_laws.
#[local] Existing Instance hrefs_cbor.
#[local] Existing Instance hrefs_laws.
#[local] Existing Instance files_cbor.
#[local] Existing Instance files_laws.
#[local] Instance snapshots_cbor : Cbor Models.Snapshots := codec_cbor.
#[local] Existing Instance logged_store_backend | 5.
#[local] Existing Instance store_backend | 5.
#[local] Existing Instance logged_store_laws.
#[local] Existing Instance logged_store_morphism.

Abbreviation reader := (FileIterator Empty_set).
Abbreviation TestHat := (Hat MemoryBackend).

Definition home : bytes := lit "home".

(** The random numbers start at another place in every process. *)
Definition started (r : @rng model_sodium) (t : schema.Tables) (b : MemoryBackend) : res TestHat :=
  open_repository (R := reader) 50 the_keeper t None b r zero_clock zero_clock 4096.

Definition new_repository : res TestHat := started 0 schema.empty MemoryBackend.new.

(** A crash: the tables as they were committed, the backend as it is. *)
Definition after_crash (h : TestHat) : res TestHat :=
  started 130 (Db.crash (index (hi (h_store h)))) (BlobStore.backend (h_store h)).

(** Nothing is left but the backend. *)
Definition tables_lost (h : TestHat) : res TestHat :=
  started 50 schema.empty (BlobStore.backend (h_store h)).

(** The scan of a directory with a file. *)
Definition scan_home : M TestHat unit :=
  open_family home ;;
  on_family home (
    snapshot_direct_no_commit (R := reader) (hat_family home) 10 a_dir true None ;;
    snapshot_direct (R := reader) (hat_family home) 10 a_file false (Some hello) ;; mret ()).

Definition commit_home : M TestHat unit := commit_by_name (R := reader) 50 home None.
Definition flush_all_data : M TestHat unit := data_flush (R := reader).
Definition save_roots : M TestHat unit := meta_commit (R := reader) 50.
Definition recover_all : M TestHat unit := recover (R := reader) 50.

Definition disk : gmap Path FsNode := {[ [] := mkFsNode KDir 493 (0, 0)%Z ]}.
Definition checkout_home (h : TestHat) := checkout_in_dir 50 home [lit "out"] (h, disk).

(** The file's contents and permissions. *)
Definition file_of (fs : gmap Path FsNode) : option (Kind * Z) :=
  (λ n, (kind n, perm n)) <$> fs !! [lit "out"; lit "d"; lit "a"].

Definition home_snapshot (h : TestHat) : res (option (SnapshotInfo * bytes * option tree.HashRef)) :=
  (snapshots (Snapshot.latest home) h).1.

(** What is done on the new repository before it fails. *)
Definition with_run {A} (m : M TestHat A) (k : TestHat → bool) : bool :=
  match new_repository with Ok h => check_run (m h) (λ _, k) | _ => false end.

Lemma with_run_true {A} (m : M TestHat A) k :
  with_run m k = true → ∃ h a h', new_repository = Ok h ∧ m h = (Ok a, h') ∧ k h' = true.
Proof.
  unfold with_run. destruct new_repository as [h| | |]; try done.
  intros (a & h' & E & Hk)%check_run_true. by exists h, a, h'.
Qed.

Definition with_start (r : res TestHat) (k : TestHat → bool) : bool :=
  match r with Ok h => k h | _ => false end.

Lemma with_start_true r k : with_start r k = true → ∃ h, r = Ok h ∧ k h = true.
Proof. destruct r as [h| | |]; try done. by exists h. Qed.

Definition panics {A S} (r : res A * S) : bool := match r.1 with Panic => true | _ => false end.

Lemma panics_true {A S} (r : res A * S) : panics r = true → r.1 = Panic.
Proof. unfold panics. by destruct r.1. Qed.

Definition restored_check (r : res unit * (TestHat * gmap Path FsNode)) : bool :=
  check_run r (λ _ x, bool_decide (file_of x.2 = Some (KFile (lit "hello"), 420%Z))).

Lemma restored_check_true r : restored_check r = true →
  ∃ x, r = (Ok (), x) ∧ file_of x.2 = Some (KFile (lit "hello"), 420%Z).
Proof. intros ([] & x & -> & Hf%bool_decide_eq_true)%check_run_true. by exists x. Qed.

Definition blob_taken (h : TestHat) : Prop :=
  is_Some (schema.blobs (Db.cur (index (hi (h_store h)))) !! id (blob_desc (h_store h))).

(** One run for the recovery and for what comes after it. *)
Definition recovery_check (h : TestHat) : bool :=
  with_start (tables_lost h) (λ h1, bool_decide (home_snapshot h1 = Ok None) &&
    check_run (recover_all h1) (λ _ h2,
      bool_decide (home_snapshot h2 = home_snapshot h) && restored_check (checkout_home h2) &&
      bool_decide (blob_taken h2) && panics ((commit_home ;; flush_all_data) h2) &&
      with_start (after_crash h2) (λ h3, restored_check (checkout_home h3) &&
        bool_decide (((commit_home ;; flush_all_data) h3).1 = Ok ())))).

Lemma recovery_run : ∃ h0 h h1 h2 h3, new_repository = Ok h0 ∧
  (scan_home ;; commit_home ;; save_roots ;; flush_all_data) h0 = (Ok (), h) ∧
  tables_lost h = Ok h1 ∧ home_snapshot h1 = Ok None ∧ recover_all h1 = (Ok (), h2) ∧
  home_snapshot h2 = home_snapshot h ∧ restored_check (checkout_home h2) = true ∧
  blob_taken h2 ∧ panics ((commit_home ;; flush_all_data) h2) = true ∧
  after_crash h2 = Ok h3 ∧ restored_check (checkout_home h3) = true ∧
  ((commit_home ;; flush_all_data) h3).1 = Ok ().
Proof.
  destruct (with_run_true (scan_home ;; commit_home ;; save_roots ;; flush_all_data) recovery_check)
    as (h0 & [] & h & E0 & E & Hk); [vm_compute; reflexivity|].
  apply with_start_true in Hk as (h1 & E1 & [Hn%bool_decide_eq_true Hk]%andb_true_iff).
  apply check_run_true in Hk as ([] & h2 & E2 & Hk). rewrite !andb_true_iff in Hk.
  destruct Hk as [[[[Hs%bool_decide_eq_true Hx] Hb%bool_decide_eq_true] Hp] Hk].
  apply with_start_true in Hk as (h3 & E3 & [Hy Hc%bool_decide_eq_true]%andb_true_iff).
  exists h0, h, h1, h2, h3. repeat (split; [assumption|]). exact Hc.
Qed.


(** The snapshots that are not done, and the id of the hash of home's latest. *)
Definition unfinished (h : TestHat) : res (list SnapshotStatus) := (snapshots Snapshot.list_not_done h).1.

Definition top_id (h : TestHat) : res (option Z) :=
  '(_, top, _) ← mbind expect (home_snapshot h); (hashes (get_id top) h).1.

Definition lost_check (h h' : TestHat) : bool :=
  match home_snapshot h with
  | Ok (Some top) => bool_decide (home_snapshot h' = Ok (Some top)) &&
      (match unfinished h' with Ok [] => true | _ => false end && bool_decide (top_id h' = Ok None))
  | _ => false
  end.

Lemma lost_check_true h h' : lost_check h h' = true →
  ∃ top, home_snapshot h = Ok (Some top) ∧ home_snapshot h' = Ok (Some top) ∧
    unfinished h' = Ok [] ∧ top_id h' = Ok None.
Proof.
  unfold lost_check. destruct (home_snapshot h) as [[top|]| | |]; try done.
  intros [Hs%bool_decide_eq_true [Hu Ht%bool_decide_eq_true]%andb_true_iff]%andb_true_iff.
  exists top. by destruct (unfinished h') as [[]| | |].
Qed.




(** *** A commit and a later process *)

(** The repository in which the family's process has scanned. *)
Definition with_scan (x : InternalKeyIndex) (s : Store Z MemoryBackend) : res TestHat :=
  let '(r, h) := open_family home (mkHat s [] None 4096 zero_clock) in
  r ;; Ok (lset families_lens ((λ p, (p.1, with_index x p.2)) <$> h_families h) h).

Definition durable_check (ks : InternalKeyIndex * (Store Z MemoryBackend * history)) : bool :=
  check_run (handle (R := reader) 5 (CommitReservedNodes (Some None)) (ks.1, ks.2.1)) (λ _ ks2,
  with_start (with_scan ks2.1 ks2.2) (λ h, match h_families h with
  | [(n, f)] =>
      bool_decide (n = home) && bool_decide (idle_family f) &&
      bool_decide (size (key_schema.key_tree (cur (f_index f))) < 50) &&
      bool_decide (size (store_registry (h_store h)).1 = 0 ∧ size (store_registry (h_store h)).2 = 0) &&
      check_run (commit (R := reader) 50 home None h) (λ _ h1,
      check_run (data_flush (R := reader) h1) (λ _ h2,
        free_of_collisions (st_keys (h_store h2)) (repo_inserts (R := reader) 50 home h f ks.2.2) &&
        with_start (open_repository (R := reader) 50 (st_keys (h_store h2))
          (Db.crash (index (hi (h_store h2)))) None (BlobStore.backend (h_store h2)) 130 zero_clock
          zero_clock 4096) (λ h3, ok_run (open_family home h3))))
  | _ => false
  end)).

Lemma durable_runs : scan_from_new durable_check = true.
Proof. vm_compute. reflexivity. Qed.

(** What [with_scan] leaves of the store. *)
Lemma with_scan_kept hist x s h : store_ready hist s → with_scan x s = Ok h →
  kept_since hist s (h_store h) ∧ ∀ p, p ∈ h_families h → f_index p.2 = x.
Proof.
  intros Hs Hrun. unfold with_scan in Hrun.
  destruct (open_family home (mkHat s [] None 4096 zero_clock)) as [[[]|e| |] h0] eqn:E; try done.
  cbn [mbind res_bind] in Hrun. injection Hrun as <-. split.
  - apply (kept_core hist _ s); [|by apply kept_refl].
    exact (f_equal fst (keeps_run _ _ _ _ _ (open_family_bare home) E)).
  - intros p Hp. cbn in Hp. by apply list_elem_of_fmap in Hp as (p0 & -> & _).
Qed.

Lemma committed_survives_witness :
  ∃ n l d C (h h1 h2 h3 h4 : TestHat), C !! 2%Z = Some (lit "hello") ∧
    seen_dir (S n) (scan_seen d) C None l ∧
    commit (R := reader) 50 home None h = (Ok (), h1) ∧ data_flush (R := reader) h1 = (Ok (), h2) ∧
    later_process (R := reader) h2 h3 ∧ open_family home h3 = (Ok (), h4) ∧
    ∀ (fs : gmap Path FsNode) out, restorable takes out l → fs_ok fs → out_ready (view fs) out →
      snapshots Snapshot.list_not_done h3 = (Ok [], h3) ∧
      ∃ N h5 fs', (∀ fuel5, N ≤ fuel5 → checkout_in_dir fuel5 home out (h3, fs) = (Ok (), (h5, fs'))) ∧
        fs_ok fs' ∧ restored l out (view fs) (view fs').
Proof.
  destruct (scan_run durable_check durable_runs)
    as (s & x & x5 & s5 & hist & C & d & Es & Ex & Hscan & HC & Hk).
  destruct (scan_committed (R := reader) ∅ (x, (s, [] : history)) (scan_seen d) C (x5, (s5, hist)) None
    ltac:(eapply Store_start; [exact no_keys_ok|exact Ex|exact (new_store_ready s Es)|
      intros k c Hk'; by rewrite lookup_empty in Hk'])
    Hscan eq_refl (scan_seen_named d) (scan_seen_known d C x5 HC) ltac:(done))
    as (x2 & l & Hcom & Hs5 & Hix & Hse).
  unfold durable_check in Hk. apply check_run_true in Hk as (r & ks2 & Hrun & Hk).
  assert (ks2 = (x2, s5)) as ->.
  { pose proof (handle_tracks fst 5 (CommitReservedNodes (R := reader) (Some None)) (x5, (s5, hist))) as Htr.
    rewrite Hcom in Htr. change (on_key fst (x5, (s5, hist))) with (x5, s5) in Htr. cbn [fst snd] in Hrun.
    rewrite Hrun in Htr. by injection Htr as _ ->. }
  apply with_start_true in Hk as (h & Eh & Hk).
  destruct (with_scan_kept hist x2 s5 h Hs5 Eh) as [Hkept Hidx].
  destruct (h_families h) as [|[nm f] [|? ?]] eqn:Ef; try done.
  rewrite !andb_true_iff, !bool_decide_eq_true in Hk.
  destruct Hk as [[[[-> Hidle] Hsize] [Hg1 Hg2]] Hk].
  apply check_run_true in Hk as ([] & h1 & Hc & Hk).
  apply check_run_true in Hk as ([] & h2 & Hfl & [Hfree Hk]%andb_true_iff).
  apply with_start_true in Hk as (h3 & E3 & Hk).
  apply ok_run_split in Hk as ([] & h4 & E4).
  apply map_size_empty_inv in Hg1, Hg2.
  assert (f_index f = x2) as Ex2 by (apply (Hidx (home, f)); by left). rewrite Ex2 in Hsize.
  assert (later_process (R := reader) h2 h3) as Hlater.
  { exists 50, None, (130 : @rng model_sodium), zero_clock, zero_clock, 4096. split; [lia|exact E3]. }
  assert (unique_families (store_registry (h_store h)).1 ∧ countable (store_registry (h_store h)).2 ∧
    all_done (store_registry (h_store h)).2) as (Hu & Hn & Hd).
  { cbv beta. rewrite Hg1, Hg2. split_and!; [intros i j a b|intros i row|intros i row]; by rewrite lookup_empty. }
  exists (size (key_schema.key_tree (cur x2))), l, d, C, h, h1, h2, h3, h4.
  repeat (split; [assumption|]). intros fs out.
  exact (committed_survives (R := reader) (Fs := gmap Path FsNode) hist 0 home f l
    (size (key_schema.key_tree (cur x2))) 50 h h1 h2 ltac:(by rewrite Ef)
    ltac:(rewrite Ef; by intros p ->%list_elem_of_singleton) (ks_ready _ _ _ Hkept)
    Hu Hn Hd
    ltac:(rewrite Ex2; eapply indexed_dir_later; [by apply kept_later|exact Hix])
    Hsize Hc Hfl (free_of_collisions_sound _ _ Hfree) h3 h4 fs out (or_intror Hlater) E4).
Defined.

End Runs.
