(* ===== verification/FuseSpec.v ===== *)
(** * The FUSE file system: the theorems

    The inodes are a tree whatever is requested; successive reads of a directory; the handles of
    open files. *)

From S2P Require Import Prelude Utf8 Cbor Codec Refs Ordered Db Crypto ModelSodium HashIndex Backend.
From S2P Require Import Blob BlobStore ModelWorld HashTree HashStore HashStoreSpec FileReader KeyIndex.
From S2P Require Import KeyStore Walker FileSystem Family BackupSpec Repo Vfs Fuse RepoSpec.
From S2P Require Models.

#[local] Coercion Z.of_nat : nat >-> Z.

Section Tree.
Context `{Sodium} `{LruCache} `{Cbor Models.ChunkRef} `{Cbor Models.HashIds} `{Cbor Models.HashRef}.
Context `{Cbor Models.HashRefs} `{Cbor Models.Files} {B : Type} `{!StoreBackend (list Z) B}.
Implicit Types f : Fuse B.

#[local] Existing Instance store_backend | 5.

(** *** The tree of inodes *)

Definition child_of f (p c : INode) : Prop := ∃ file, inodes f !! c = Some file ∧ f_parent file = Some p.

(** Inodes are numbered from one on, a parent before its children; the children of an inode are
    listed once, in the order in which they were found. *)
Record tree_ok f : Prop := {
  to_dom : ∀ i, is_Some (inodes f !! i) ↔ (1 ≤ i ≤ base.size (inodes f))%Z;
  to_ino : ∀ i file, inodes f !! i = Some file → ino (attr file) = i;
  to_up : ∀ p c, child_of f p c → (1 ≤ p < c)%Z;
  to_children : ∀ p c, c ∈ default [] (parents f !! p) ↔ child_of f p c;
  to_order : ∀ p l, parents f !! p = Some l → StronglySorted Z.lt l;
}.

(** The number of inodes fits a u64. *)
Definition fits f : Prop := (base.size (inodes f) < 2 ^ 64)%Z.
#[global] Instance fits_dec f : Decision (fits f).
Proof. unfold fits. apply _. Defined.

(** A parent that is there. *)
Definition known (o : option INode) (m : gmap INode File) : Prop := from_option (λ p, is_Some (m !! p)) True o.

Definition numbered (i : INode) (file : File) : File :=
  mkFile (f_name file) (file_type file) (set_ino i (attr file)) (f_parent file).

Lemma add_file_run file f : ∃ i,
  i = as_u64 (usize_as_u64 (base.size (inodes f)) + 1) ∧
  add_file file f = (Ok i, mkFuse (hat f) (<[i := numbered i file]> (inodes f))
    (match f_parent file with
     | Some p => <[p := default [] (parents f !! p) ++ [i]]> (parents f)
     | None => parents f
     end) (open_files f)).
Proof. eexists. split; [done|]. by destruct file as [? ? ? []]. Qed.

Lemma StronglySorted_snoc (l : list Z) x :
  StronglySorted Z.lt l → Forall (λ y, y < x)%Z l → StronglySorted Z.lt (l ++ [x]).
Proof.
  induction 1 as [|y l Hl IH Hy]; simpl; intros Hx; [repeat constructor|].
  apply Forall_cons in Hx as [? ?]. constructor; [auto|]. apply Forall_app. auto.
Qed.

Lemma add_file_ok file f :
  (1 + base.size (inodes f) < 2 ^ 64)%Z → tree_ok f → known (f_parent file) (inodes f) →
  ∃ i f', add_file file f = (Ok i, f') ∧ tree_ok f' ∧ i = (1 + base.size (inodes f))%Z ∧
    inodes f' = <[i := numbered i file]> (inodes f) ∧ inodes f !! i = None ∧
    hat f' = hat f ∧ open_files f' = open_files f ∧
    parents f' = match f_parent file with
                 | Some p => <[p := default [] (parents f !! p) ++ [i]]> (parents f)
                 | None => parents f
                 end.
Proof.
  intros Hs [Hd Hi Hu Hc Ho] Hp. destruct (add_file_run file f) as (i & Ei & E).
  unfold usize_as_u64 in Ei. rewrite as_u64_id, Z.add_comm in Ei by lia.
  assert (inodes f !! i = None) as Hnew by (apply eq_None_not_Some; rewrite Hd; lia).
  eexists i, _. split; [exact E|]. split; [|by repeat split]. clear E.
  assert (∀ p c, child_of (mkFuse (hat f) (<[i := numbered i file]> (inodes f))
    (match f_parent file with
     | Some p => <[p := default [] (parents f !! p) ++ [i]]> (parents f)
     | None => parents f end) (open_files f)) p c ↔ child_of f p c ∨ (c = i ∧ f_parent file = Some p)) as Hch.
  { intros p c. unfold child_of. cbn [inodes]. destruct (decide (c = i)) as [->|Hne].
    - rewrite lookup_insert_eq, Hnew. naive_solver.
    - rewrite lookup_insert_ne by done. naive_solver. }
  split; cbn [inodes parents].
  - intros j. rewrite map_size_insert_None by done. destruct (decide (j = i)) as [->|Hne].
    + rewrite lookup_insert_eq. split; [lia|by eexists].
    + rewrite lookup_insert_ne, Hd by done. lia.
  - intros j file'. rewrite lookup_insert_Some. intros [[<- <-]|[? ?]]; [done|by apply Hi].
  - intros p c [?|[-> E]]%Hch; [by apply Hu|]. rewrite E in Hp. simpl in Hp. apply Hd in Hp. lia.
  - intros p c. rewrite Hch, <- Hc. destruct (f_parent file) as [q|]; [|naive_solver].
    destruct (decide (p = q)) as [->|Hne].
    + rewrite lookup_insert_eq. simpl. rewrite elem_of_app, list_elem_of_singleton. naive_solver.
    + rewrite lookup_insert_ne by done. naive_solver.
  - intros p l. destruct (f_parent file) as [q|]; [|apply Ho]. rewrite lookup_insert_Some.
    intros [[<- <-]|[_ ?]]; [|by eapply Ho]. apply StronglySorted_snoc.
    + destruct (parents f !! q) eqn:E; [by eapply Ho|constructor].
    + apply Forall_forall. intros c (file' & Hc' & _)%Hc. assert (is_Some (inodes f !! c)) as Hs' by done.
      apply Hd in Hs'. lia.
Qed.

(** [m] only adds to the tree; [K] is what it needs and [Q] what it ensures of the inodes. *)
Definition inodes_keep {A} (K : gmap INode File → Prop) (m : M (Fuse B) A) (Q : A → gmap INode File → Prop) : Prop :=
  ∀ f r f', m f = (r, f') → base.size (inodes f) ≤ base.size (inodes f') ∧
    (fits f' → tree_ok f → K (inodes f) →
     tree_ok f' ∧ inodes f ⊆ inodes f' ∧ ∀ a, r = Ok a → Q a (inodes f')).

Lemma inodes_keep_bind {A C} K Q Q' (m : M (Fuse B) A) (k : A → M (Fuse B) C) :
  inodes_keep K m Q → (∀ a, inodes_keep (Q a) (k a) Q') → inodes_keep K (m ≫= k) Q'.
Proof.
  intros Hm Hk f r f'. unfold mbind, M_bind. destruct (m f) as [q f1] eqn:E.
  destruct (Hm _ _ _ E) as [Hg Hok].
  destruct q as [a|e| |]; [|intros [= <- <-]; split; [done|]; intros; destruct Hok as (? & ? & _); done..].
  intros E2. destruct (Hk a _ _ _ E2) as [Hg2 Hok2]. split; [lia|]. intros Hf Ht HK.
  assert (fits f1) as Hf1 by (unfold fits in *; lia).
  destruct (Hok Hf1 Ht HK) as (Ht1 & Hsub & HQ). destruct (Hok2 Hf Ht1 (HQ _ eq_refl)) as (? & ? & ?).
  split_and!; [done|by etrans|done].
Qed.

(** What leaves the inodes and the lists of children alone. *)
Lemma inodes_keep_same {A} K (m : M (Fuse B) A) :
  (∀ f, inodes (m f).2 = inodes f ∧ parents (m f).2 = parents f) → inodes_keep K m (λ _, K).
Proof.
  intros Hm f r f' E. specialize (Hm f). rewrite E in Hm. destruct Hm as [Hi Hp]. cbn [snd] in *.
  split; [by rewrite Hi|]. intros _ [Hd Hin Hu Hc Ho] HK. rewrite Hi. split_and!; [|done|done].
  split; unfold child_of; rewrite ?Hi, ?Hp; done.
Qed.

Lemma inodes_keep_weaken {A} K K' (Q Q' : A → gmap INode File → Prop) (m : M (Fuse B) A) :
  inodes_keep K m Q → (∀ i, K' i → K i) → (∀ a i, Q a i → Q' a i) → inodes_keep K' m Q'.
Proof.
  intros Hm HK HQ f r f' E. destruct (Hm _ _ _ E) as [Hg Hok]. split; [done|]. intros Hf Ht HK'.
  destruct (Hok Hf Ht (HK _ HK')) as (? & ? & ?). split_and!; eauto.
Qed.

Lemma inodes_keep_for_each {X} (K : gmap INode File → Prop) (g : X → M (Fuse B) unit) l :
  (∀ x, inodes_keep K (g x) (λ _, K)) → inodes_keep K (for_each g l) (λ _, K).
Proof.
  intros Hg. induction l as [|x l IH]; cbn [for_each]; [by apply inodes_keep_same|].
  by eapply inodes_keep_bind; [apply Hg|].
Qed.

(** A file is added below a known inode; what is known stays known. *)
Definition stable (K : gmap INode File → Prop) : Prop := ∀ m m', m ⊆ m' → K m → K m'.

Lemma stable_known o : stable (known o).
Proof. destruct o as [p|]; [|done]. intros m m' Hm [x Hx]. exists x. by eapply lookup_weaken. Qed.

Lemma inodes_keep_add (K : gmap INode File → Prop) file :
  stable K → (∀ m, K m → known (f_parent file) m) →
  inodes_keep K (add_file file) (λ i m, K m ∧ known (Some i) m).
Proof.
  intros HK Hp f r f' E. destruct (add_file_run file f) as (i & _ & E'). rewrite E in E'.
  injection E' as -> E'. split.
  { rewrite E'. cbn [inodes]. destruct (inodes f !! i) eqn:Ei.
    - by rewrite map_size_insert_Some.
    - rewrite map_size_insert_None by done. lia. }
  intros Hf Ht HKf. destruct (decide (1 + base.size (inodes f) < 2 ^ 64)%Z) as [Hs|Hs].
  - destruct (add_file_ok file f Hs Ht (Hp _ HKf)) as (i' & f1 & E1 & Ht1 & -> & Hi & Hnew & _).
    rewrite E in E1. injection E1 as -> <-. assert (inodes f ⊆ inodes f') as Hsub.
    { rewrite Hi. by apply insert_subseteq. }
    split_and!; [done|done|]. intros a [= <-]. split; [by eapply HK|]. rewrite Hi. simpl.
    rewrite lookup_insert_eq. by eexists.
  - assert (fits f) as Hf0.
    { unfold fits in *. rewrite E' in Hf. cbn [inodes] in Hf. destruct (inodes f !! i) eqn:Ei.
      - by rewrite map_size_insert_Some in Hf.
      - rewrite map_size_insert_None in Hf by done. lia. }
    destruct (add_file_run file f) as (i' & Ei & E2). rewrite E in E2. injection E2 as <- _.
    unfold fits, usize_as_u64 in *.
    replace (base.size (inodes f) + 1)%Z with (2 ^ 64)%Z in Ei by lia. change (as_u64 (2 ^ 64)) with 0%Z in Ei.
    assert (inodes f !! i = None) as Hnew.
    { apply eq_None_not_Some. rewrite (to_dom _ Ht). lia. }
    rewrite E' in Hf. cbn [inodes] in Hf. rewrite map_size_insert_None in Hf by done. lia.
Qed.

Lemma inodes_keep_hat {A} K (m : M (Hat B) A) : inodes_keep K (zoom hat_lens m) (λ _, K).
Proof. apply inodes_keep_same. intros f. unfold zoom. by destruct (m _). Qed.

Lemma inodes_keep_gets {A} K (g : Fuse B → A) : inodes_keep K (gets g) (λ _, K).
Proof. by apply inodes_keep_same. Qed.

Lemma inodes_keep_unwrap {A} K Q (m : M (Fuse B) A) : inodes_keep K m Q → inodes_keep K (unwrapM m) Q.
Proof.
  intros Hm f r f' E. unfold unwrapM in E. destruct (m f) as [q f1] eqn:Em.
  destruct (Hm _ _ _ Em) as [Hg Hok]. destruct q; simplify_eq; (split; [done|]); intros Hf Ht HK;
    destruct (Hok Hf Ht HK) as (? & ? & ?); split_and!; naive_solver.
Qed.

(** A file is added for each of a list, below a known inode. *)
Lemma inodes_keep_add_all {X} K (p : INode) (g : X → option File) l :
  stable K → (∀ m, K m → known (Some p) m) → (∀ x file, g x = Some file → f_parent file = Some p) →
  inodes_keep K (for_each (λ x, match g x with Some file => add_file file ;; mret () | None => mret () end) l)
    (λ _, K).
Proof.
  intros HK Hp Hg. apply inodes_keep_for_each. intros x. destruct (g x) as [file|] eqn:E; [|by apply inodes_keep_same].
  eapply inodes_keep_bind; [apply inodes_keep_add; [done|by rewrite (Hg _ _ E)]|].
  intros i. eapply inodes_keep_weaken; [by apply (inodes_keep_same K)|by intros ? []|done].
Qed.

Lemma inodes_keep_fetch_dir fuel p href : inodes_keep (known (Some p)) (fetch_dir fuel p href) (λ _, known (Some p)).
Proof.
  unfold fetch_dir. eapply inodes_keep_bind; [apply inodes_keep_hat|]. intros es.
  apply (inodes_keep_add_all _ p (λ e, Some (entry_file p e))); [apply stable_known|done|].
  intros [e c] file E. injection E as <-. unfold entry_file. by destruct c.
Qed.

Lemma inodes_keep_childs fuel p : inodes_keep (λ _, True) (childs fuel p) (λ _ _, True).
Proof.
  unfold childs. intros f r f' E. rewrite bind_gets, bind_gets in E.
  assert (∀ m, inodes_keep (λ _, True) (mret () ;; gets m) (λ (_ : list INode) _, True)) as Hplain
    by (intros; by apply inodes_keep_same).
  destruct (file_type <$> inodes f !! p) as [[]|] eqn:Ep; try by eapply Hplain.
  assert (known (Some p) (inodes f)) as Hp.
  { simpl. destruct (inodes f !! p); [by eexists|done]. }
  case_decide; [by eapply Hplain|].
  edestruct (inodes_keep_bind (known (Some p)) (λ _, known (Some p)) (λ _ _, True)
    (unwrapM (fetch_dir fuel p hash_ref)) (λ _, gets (λ f, default [] (parents f !! p)))) as [Hg Hok];
    [apply inodes_keep_unwrap, inodes_keep_fetch_dir|intros; by eapply inodes_keep_weaken; [apply inodes_keep_gets| |]|exact E|].
  split; [done|]. intros Hf Ht _. by apply Hok.
Qed.

Lemma inodes_keep_find_child name l : inodes_keep (λ _, True) (find_child name l) (λ _ _, True).
Proof.
  induction l as [|c l IH]; cbn [find_child]; [by apply inodes_keep_same|].
  eapply inodes_keep_bind; [apply inodes_keep_gets|]. intros o.
  eapply inodes_keep_bind; [by apply (inodes_keep_same (λ _, True))|]. intros child.
  case_decide; [by apply inodes_keep_same|apply IH].
Qed.

Lemma inodes_keep_dir_entries fuel i : inodes_keep (λ _, True) (dir_entries fuel i) (λ _ _, True).
Proof.
  unfold dir_entries. eapply inodes_keep_bind; [apply inodes_keep_gets|]. intros o.
  eapply inodes_keep_bind; [by apply (inodes_keep_same (λ _, True))|]. intros file.
  destruct (file_type file); try by apply inodes_keep_same.
  all: eapply inodes_keep_bind; [apply inodes_keep_childs|]; intros l.
  all: eapply inodes_keep_bind; [apply inodes_keep_gets|]; intros fs; by apply inodes_keep_same.
Qed.

(** *** Requests *)

Inductive Request :=
  | Lookup (parent : INode) (name : bytes)
  | Getattr (i : INode)
  | Readlink (i : INode)
  | Open (i : INode)
  | Read (fh : nat) (offset : Z) (n : nat)
  | Release (fh : nat)
  | Readdir (i : INode).

Definition serve_ (fuel : nat) (q : Request) : M (Fuse B) unit :=
  match q with
  | Lookup parent name => lookup fuel parent name ;; mret ()
  | Getattr i => getattr i ;; mret ()
  | Readlink i => readlink i ;; mret ()
  | Open i => open i ;; mret ()
  | Read fh offset n => read fuel fh offset n ;; mret ()
  | Release fh => release fh
  | Readdir i => dir_entries fuel i ;; mret ()
  end.

Lemma inodes_keep_request fuel q : inodes_keep (λ _, True) (serve_ fuel q) (λ _ _, True).
Proof.
  destruct q; cbn [serve_].
  all: try (eapply inodes_keep_bind; [|intros; by apply (inodes_keep_same (λ _, True))]).
  - eapply inodes_keep_bind; [apply inodes_keep_childs|]. intros l. apply inodes_keep_find_child.
  - apply inodes_keep_gets.
  - apply inodes_keep_gets.
  - apply inodes_keep_same. intros f. unfold open. rewrite bind_get.
    by destruct (file_type <$> inodes f !! i) as [[]|].
  - apply inodes_keep_same. intros f. unfold read. destruct (open_files f !! fh); [|done].
    by destruct (read_open _ _ _ _) as [r [? ?]].
  - by apply inodes_keep_same.
  - apply inodes_keep_dir_entries.
Qed.

Lemma inodes_keep_populate order : inodes_keep (λ _, True) (populate_from_snapshot_list order) (λ _ _, True).
Proof.
  unfold populate_from_snapshot_list.
  eapply inodes_keep_bind; [by apply inodes_keep_add|]. intros root. cbn beta.
  eapply inodes_keep_bind; [apply inodes_keep_hat|]. intros l.
  eapply inodes_keep_weaken; [apply (inodes_keep_for_each (known (Some root)))|by intros ? []|done].
  intros name. case_decide; [by apply inodes_keep_same|].
  eapply inodes_keep_bind; [by apply inodes_keep_add; [apply stable_known|]|]. intros fam. cbn beta.
  eapply inodes_keep_weaken; [apply (inodes_keep_add_all (λ m, known (Some root) m ∧ known (Some fam) m) fam
    (λ s, snapshot_file fam s))|done|by intros ? ? []].
  - intros m m' Hm [? ?]. split; by eapply (stable_known (Some _)).
  - by intros m [].
  - intros x file. unfold snapshot_file. destruct (tree.from_bytes <$> st_hash_ref x) as [[]|]; try done.
    by intros [= <-].
Qed.

(** C30: Whatever the library asks of the file system, and however it is answered, the inodes are
    a tree: numbered from one on, each the number in its attributes, every parent before its
    children, and the children of an inode listed once each, in the order of their numbers. An
    inode that was handed out stays what it is. *)
Theorem inodes_stay_a_tree order h f0 fuel reqs r f :
  new order h = Ok f0 → for_each (serve_ fuel) reqs f0 = (r, f) → fits f →
  tree_ok f0 ∧ tree_ok f ∧ inodes f0 ⊆ inodes f.
Proof.
  unfold new. intros Hnew Hrun Hf.
  destruct (populate_from_snapshot_list order (mkFuse h ∅ ∅ ∅)) as [[u|e| |] f1] eqn:E; simplify_eq/=.
  destruct (inodes_keep_for_each (λ _, True) (serve_ fuel) reqs (inodes_keep_request fuel) _ _ _ Hrun) as [Hg Hok].
  destruct (inodes_keep_populate order _ _ _ E) as [_ Hpop].
  destruct Hpop as (Ht & _ & _); [unfold fits in *; lia| |done|].
  { split; cbn [inodes parents].
    - intros i. rewrite lookup_empty, map_size_empty. split; [by intros []|lia].
    - intros i file. by rewrite lookup_empty.
    - intros p c (file & Hc & _). cbn [inodes] in Hc. by rewrite lookup_empty in Hc.
    - intros p c. unfold child_of. cbn [inodes]. rewrite lookup_empty. simpl. split; [by intros ?%elem_of_nil|].
      intros (file & Hc & _). by rewrite lookup_empty in Hc.
    - intros p l. by rewrite lookup_empty. }
  destruct (Hok Hf Ht I) as (? & ? & _). done.
Qed.

(** *** Open files *)

Definition file_top f (i : INode) (href : tree.HashRef) : Prop :=
  ∃ file, inodes f !! i = Some file ∧ file_type file = FileTop href.

Definition opened (h : Hat B) (href : tree.HashRef) : OpenFile :=
  detach (FileReader_new (h_store h) href).

Lemma open_run f i href : file_top f i href →
  let fh := base.size (open_files f) + 1 in
  open i f = (Ok (Some fh), mkFuse (hat f) (inodes f) (parents f) (<[fh := opened (hat f) href]> (open_files f))).
Proof.
  intros (file & Hi & Ht). unfold open. rewrite bind_get, Hi. cbn [fmap option_fmap option_map].
  by rewrite Ht.
Qed.

(** Handles are numbered from one on, without a gap. *)
Definition dense (m : gmap nat OpenFile) : Prop := ∀ fh, is_Some (m !! fh) ↔ 1 ≤ fh ≤ base.size m.

Lemma dense_open m r : dense m → m !! (base.size m + 1) = None ∧ dense (<[base.size m + 1 := r]> m).
Proof.
  unfold dense. intros Hm. assert (m !! (base.size m + 1) = None) as Hnew by (apply eq_None_not_Some; rewrite Hm; lia).
  split; [done|]. intros fh. rewrite map_size_insert_None by done.
  destruct (decide (fh = base.size m + 1)) as [->|Hne].
  - rewrite lookup_insert_eq. split; [lia|by eexists].
  - rewrite lookup_insert_ne, Hm by done. lia.
Qed.

(** C34: An open file gets a handle of its own as long as no other has been released; but the
    handle is the number of open files plus one: after the first of several open files is
    released, the next file that is opened gets the handle of the last one, whose reader it
    replaces. *)
Theorem handle_reused f i href fh :
  file_top f i href → dense (open_files f) → 1 ≤ fh < base.size (open_files f) →
  (∃ f', open i f = (Ok (Some (base.size (open_files f) + 1)), f') ∧
    open_files f !! (base.size (open_files f) + 1) = None ∧ dense (open_files f')) ∧
  ∃ r f', open_files f !! base.size (open_files f) = Some r ∧
    (release fh ;; open i) f = (Ok (Some (base.size (open_files f))), f') ∧
    open_files f' !! base.size (open_files f) = Some (opened (hat f) href).
Proof.
  intros Hi Hd Hfh. split.
  - eexists. rewrite (open_run f i href Hi). split; [done|]. by apply dense_open.
  - assert (is_Some (open_files f !! base.size (open_files f))) as [r Hr] by (apply Hd; lia).
    set (f1 := mkFuse (hat f) (inodes f) (parents f) (base.delete fh (open_files f))).
    assert (base.size (open_files f1) + 1 = base.size (open_files f)) as Hsz.
    { assert (is_Some (open_files f !! fh)) as [r' Hr'] by (apply Hd; lia).
      unfold f1. cbn [open_files]. rewrite map_size_delete_Some by by eexists. lia. }
    exists r. eexists. split; [done|]. rewrite (bind_Ok (release fh) (λ _, open i) f () f1) by done.
    rewrite (open_run f1 i href) by done. rewrite Hsz. split; [done|].
    cbn [open_files]. apply lookup_insert_eq.
Qed.

(** *** Reading a directory *)

(** A buffer without bound. *)
#[export] Instance all_entries : ReplyDirectory (list (INode * Z * Type_ * bytes)) :=
  λ i o t n l, (Ok false, l ++ [(i, o, t, n)]).

(** A buffer of so many bytes: an entry takes those of its name and twenty-four, rounded up. *)
Definition entry_bytes (name : bytes) : nat := ((length name + 24 + 7) / 8) * 8.

#[export] Instance bounded : ReplyDirectory (nat * list (INode * Z * Type_ * bytes)) :=
  λ i o t n d,
    if decide (entry_bytes n ≤ d.1) then (Ok false, (d.1 - entry_bytes n, d.2 ++ [(i, o, t, n)]))
    else (Ok true, d).

Definition with_offset (k : nat) (e : INode * Type_ * bytes) : INode * Z * Type_ * bytes :=
  (e.1.1, k + 1, e.1.2, e.2)%Z.

Lemma for_each_same {W X} (g1 g2 : X → M W unit) l w :
  (∀ x w, g1 x w = g2 x w) → for_each g1 l w = for_each g2 l w.
Proof.
  intros Hg. revert w. induction l as [|x l IH]; intros w; [done|]. cbn [for_each].
  unfold mbind, M_bind. rewrite Hg. by destruct (g2 x w) as [[] ?].
Qed.

Lemma readdir_run {D} `{!ReplyDirectory D} fuel i off f f' (d : D) es :
  dir_entries fuel i f = (Ok es, f') → (0 ≤ off < 2 ^ 64)%Z →
  readdir fuel i off (f, d) = zoom snd_lens
    (for_each (λ '(k, (i, t, name)), reply_add i (as_i64 (usize_as_u64 k) + 1) t name ;; mret ())
      (drop (Z.to_nat off) (imap (λ k e, (k, e)) es))) (f', d).
Proof.
  intros E Ho. unfold readdir. rewrite (bind_zoom fst_lens _ _ (f, d) es f' E).
  cbn [lset fst_lens snd]. unfold u64_as_usize. rewrite as_u64_id by done.
  rewrite <- (zoom_for_each snd_lens). apply for_each_same. intros [k [[j t] n]] [f1 d1].
  unfold mbind, M_bind, zoom. cbn. by destruct (reply_add _ _ _ _ _) as [[] ?].
Qed.

Lemma imap_offsets (l : list (INode * Type_ * bytes)) (n : nat) (acc : list (INode * Z * Type_ * bytes)) :
  (Z.of_nat n + length l < 2 ^ 63)%Z →
  for_each (λ '(k, (i, t, name)), reply_add i (as_i64 (usize_as_u64 k) + 1) t name ;; mret ())
    (imap (λ k e, (n + k, e)) l) acc = (Ok (), acc ++ imap (λ k e, with_offset (n + k) e) l).
Proof.
  revert n acc. induction l as [|[[i t] name] l IH]; intros n acc Hn; cbn [imap for_each].
  { by rewrite app_nil_r. }
  cbn [length] in Hn. rewrite Nat.add_0_r.
  rewrite (bind_Ok _ _ _ () (acc ++ [with_offset n (i, t, name)])).
  2: { cbn. unfold with_offset, usize_as_u64. rewrite as_i64_id by lia. done. }
  rewrite <- (imap_ext (λ k e, (S n + k, e))) by (intros; cbn; f_equal; lia).
  rewrite IH by lia. rewrite <- app_assoc. cbn. do 3 f_equal.
  apply imap_ext. intros. cbn. f_equal. lia.
Qed.

Lemma drop_imap {X Y} (g : nat → X → Y) l n : drop n (imap g l) = imap (λ k, g (n + k)) (drop n l).
Proof.
  revert g l. induction n as [|n IH]; intros g l; [by rewrite !drop_0|].
  destruct l as [|x l]; [done|]. cbn. by rewrite IH.
Qed.


(** C35: What the buffer says when it is full is not looked at: an entry that has no room is left
    out while a later one with a shorter name is still added, and its offset makes the kernel go
    on behind it. The entry that was left out is never listed. *)
Theorem readdir_skips_entry fuel i f i1 i2 t0 t1 t2 long short cap :
  dir_entries fuel i f = (Ok [(i, t0, lit "."); (i1, t1, long); (i2, t2, short)], f) →
  entry_bytes (lit ".") + entry_bytes short ≤ cap < entry_bytes (lit ".") + entry_bytes long →
  ∃ left, readdir fuel i 0 (f, (cap, [])) =
      (Ok (), (f, (left, [(i, 1, t0, lit "."); (i2, 3, t2, short)]%Z))) ∧
    readdir fuel i 3 (f, (cap, [])) = (Ok (), (f, (cap, []))).
Proof.
  intros E Hcap. exists (cap - entry_bytes (lit ".") - entry_bytes short). split.
  - rewrite (readdir_run _ _ _ _ _ _ _ E) by lia. change (Z.to_nat 0) with 0.
    unfold zoom. cbn [drop imap compose for_each lget snd_lens snd].
    rewrite (bind_Ok _ _ _ () (cap - entry_bytes (lit "."), [(i, 1, t0, lit ".")]%Z)).
    2: { unfold mbind, M_bind, reply_add, bounded. cbn [fst snd]. by rewrite decide_True by lia. }
    rewrite (bind_Ok _ _ _ () (cap - entry_bytes (lit "."), [(i, 1, t0, lit ".")]%Z)).
    2: { unfold mbind, M_bind, reply_add, bounded. cbn [fst snd]. by rewrite decide_False by lia. }
    rewrite (bind_Ok _ _ _ () (cap - entry_bytes (lit ".") - entry_bytes short,
      [(i, 1, t0, lit "."); (i2, 3, t2, short)]%Z)); [done|].
    unfold mbind, M_bind, reply_add, bounded. cbn [fst snd]. by rewrite decide_True by lia.
  - rewrite (readdir_run _ _ _ _ _ _ _ E) by lia. done.
Qed.

End Tree.

(** ** Runs *)

Section Runs.

Import ModelSodium ModelWorld MemoryBackend.

#[local] Existing Instance model_sodium.
#[local] Existing Instance model_lru.
#[local] Existing Instance chunk_ref_cbor.
#[local] Existing Instance ids_cbor.
#[local] Existing Instance href_cbor.
#[local] Existing Instance hrefs_cbor.
#[local] Existing Instance files_cbor.
#[local] Existing Instance store_backend | 5.

Abbreviation TestFuse := (Fuse MemoryBackend).

(** The family, its snapshot, the directory and the file, which is opened and read. *)
Definition requests : list Request :=
  [Lookup 1 home; Readdir 2; Lookup 3 (lit "d"); Readdir 4; Open 5; Read 1 0 10; Release 1].

Definition mounted (h : Hat MemoryBackend) : res TestFuse := Fuse.new (λ l, l) h.

Definition fuse_check (h : Hat MemoryBackend) : bool :=
  match mounted h with
  | Ok f0 =>
      check_run (for_each (serve_ 20) requests f0) (λ _ f,
        bool_decide (fits f) && bool_decide (f_name <$> inodes f !! 5%Z = Some (lit "a")))
  | _ => false
  end.

Lemma inodes_stay_a_tree_witness : ∃ (h : Hat MemoryBackend) f0 f,
  mounted h = Ok f0 ∧ for_each (serve_ 20) requests f0 = (Ok (), f) ∧
  f_name <$> inodes f !! 5%Z = Some (lit "a") ∧ tree_ok f0 ∧ tree_ok f ∧ inodes f0 ⊆ inodes f.
Proof.
  destruct (with_run_true (scan_home ;; commit_home ;; flush_all_data) fuse_check)
    as (h0 & [] & h & _ & _ & Hk); [vm_compute; reflexivity|].
  unfold fuse_check in Hk. destruct (mounted h) as [f0| | |] eqn:E0; try done.
  apply check_run_true in Hk as ([] & f & E & [Hf%bool_decide_eq_true Hn%bool_decide_eq_true]%andb_true_iff).
  exists h, f0, f. repeat (split; [assumption|]).
  exact (inodes_stay_a_tree (λ l, l) h f0 20 requests (Ok ()) f E0 E Hf).
Defined.

(** A file system with two files in the root, both open. *)
Definition two_names : list bytes := [replicate 100 Byte.x61; lit "b"].

Definition no_ref : tree.HashRef := tree.mkHashRef [] chunk.Leaf Models.FileChunk empty_ref None.

Definition two_files (h : Hat MemoryBackend) : TestFuse :=
  let file i n := mkFile n (FileTop no_ref) (set_ino i (default_attr RegularFile)) (Some 1%Z) in
  mkFuse h
    (<[1%Z := mkFile (lit "root") Parent (set_ino 1 (default_attr Directory)) None]>
      (<[2%Z := file 2%Z (replicate 100 Byte.x61)]> (<[3%Z := file 3%Z (lit "b")]> ∅)))
    {[1%Z := [2; 3]%Z]}
    (<[1 := opened h no_ref]> (<[2 := opened h no_ref]> ∅)).

Definition root_entries : list (INode * Type_ * bytes) :=
  [(1%Z, Directory, lit "."); (2%Z, RegularFile, replicate 100 Byte.x61); (3%Z, RegularFile, lit "b")].

Lemma two_entries h : dir_entries 5 1 (two_files h) = (Ok root_entries, two_files h).
Proof. reflexivity. Qed.

Lemma some_repository : ∃ h : Hat MemoryBackend, new_repository = Ok h.
Proof.
  destruct (with_run_true (mret ()) (λ _, true)) as (h & _ & _ & E & _); [vm_compute; reflexivity|].
  by exists h.
Qed.

Lemma handle_reused_witness : ∃ h : Hat MemoryBackend, new_repository = Ok h ∧ let f := two_files h in
  (∃ f', open 2 f = (Ok (Some (base.size (open_files f) + 1)), f') ∧
    open_files f !! (base.size (open_files f) + 1) = None ∧ dense (open_files f')) ∧
  ∃ r f', open_files f !! base.size (open_files f) = Some r ∧
    (release 1 ;; open 2) f = (Ok (Some (base.size (open_files f))), f') ∧
    open_files f' !! base.size (open_files f) = Some (opened (hat f) no_ref).
Proof.
  destruct some_repository as [h Eh]. exists h. split; [exact Eh|]. intros f.
  refine (handle_reused f 2 no_ref 1 _ _ _).
  - eexists. split; reflexivity.
  - intros fh. change (base.size (open_files f)) with 2.
    change (open_files f) with (<[1 := opened h no_ref]> (<[2 := opened h no_ref]> (∅ : gmap nat OpenFile))).
    destruct (decide (fh = 1)) as [->|H1]; [rewrite lookup_insert_eq; split; [lia|by eexists]|].
    rewrite lookup_insert_ne by done.
    destruct (decide (fh = 2)) as [->|H2]; [rewrite lookup_insert_eq; split; [lia|by eexists]|].
    rewrite lookup_insert_ne, lookup_empty by done. split; [by intros []|lia].
  - change (1 ≤ 1 < 2). lia.
Defined.


Lemma readdir_skips_entry_witness : ∃ h : Hat MemoryBackend, new_repository = Ok h ∧
  ∃ left, readdir 5 1 0 (two_files h, (100, [])) =
      (Ok (), (two_files h, (left, [(1, 1, Directory, lit "."); (3, 3, RegularFile, lit "b")]%Z))) ∧
    readdir 5 1 3 (two_files h, (100, [])) = (Ok (), (two_files h, (100, []))).
Proof.
  destruct some_repository as [h Eh]. exists h. split; [exact Eh|].
  exact (readdir_skips_entry 5 1 (two_files h) 2 3 Directory RegularFile RegularFile
    (replicate 100 Byte.x61) (lit "b") 100 (two_entries h) ltac:(change (32 + 32 ≤ 100 < 32 + 128); lia)).
Defined.

End Runs.
